(* ===== verification/_CoqProject ===== *)
-Q . S2P
Prelude.v
ByteUtil.v
Cell.v
TorCrypto.v
ToyCrypto.v
GoNet.v
GoText.v
GoTextFacts.v
RelayInfo.v
OnionCrypto.v
Circuit.v
CircuitFacts.v
CircuitRuns.v
Turnstile.v
Examples.v
CircuitExamples.v
Stream.v
StreamFacts.v
StreamCalls.v
StreamExamples.v
Names.v
Cert.v
Channel.v
ChannelFacts.v
ChannelHandshake.v
ChannelDial.v
ChannelExamples.v
EndToEnd.v
EndToEndExamples.v
Directory.v
DirectoryExamples.v
DirParse.v
DirParseFacts.v
MicrodescFacts.v
DirClient.v
DirClientFacts.v
DiskCache.v
PathSel.v
Path.v
PathExamples.v
DirPath.v
DirTextExamples.v
Pool.v
PoolFacts.v
PoolCircuits.v
HashRing.v
OnionAddr.v
OnionExamples.v
Rendezvous.v
OnionDesc.v
OnionDescFacts.v
OnionDescExamples.v
Client.v
OnionDial.v
ClientFacts.v
OnionDialFacts.v
ClientDir.v
DirTunnelFacts.v
ClientExamples.v
ClientDirExamples.v
ByteRelay.v
Socks.v
SocksExamples.v
HttpProxy.v
HttpProxyExamples.v
RequestCmd.v
ProxyCmd.v
CommandLine.v
ClientPool.v
