(* ===== verification/Prelude.v ===== *)
(** * A verification of go-tor-client, a Tor client in Go

    The program bootstraps a verified directory consensus, keeps one connection
    to an entry guard, builds onion-encrypted circuits over it, multiplexes
    streams on the circuits, dials clearnet hosts and v3 onion services, and
    offers itself as a SOCKS5 and an HTTP proxy.  The development follows the
    program's packages from the bottom up.  Every definition is executable
    except the step relations; each component's file opens with what it holds.

    ** How the code is represented

    - Bytes and Go strings are lists of [Byte.byte]; integers are [Z] with the
      wrap-around of their width written out; slices out of range are panics.
    - A function that may fail or panic returns an [outcome]; stateful code is a
      program in a state monad ([prog]) whose [None] means that it does not
      return (it blocks, or a loop does not end).  Theorems that promise a result
      show that the outcome is [Some].
    - A mutable object shared by several holders (a pooled circuit, a stream, a
      circuit entry of a channel) lives in a store and is named by its place.
    - Goroutines are steps of a relation: a step is one section run under a lock
      or one channel operation, and the theorems hold of every interleaving.  A
      [select] takes the chosen case as an argument.
    - What is outside the repository is a parameter, a class of operations with a
      class of laws where something is relied on: the cryptographic primitives
      ([Crypto], [CryptoLaws]; [ToyCrypto] satisfies the laws), the TLS
      connection ([NetConn], [NetConnLaws]: a read or write under a deadline
      returns; and the arriving bytes), HTTP servers, clock, random
      source and decompressors ([env]), file operations ([OS], [OSLaws]),
      [sort.Slice] (any function with its documented contract) and
      [x509.ParsePKCS1PublicKey].
    - Components meet at classes: [Link] (circuit over channel), [Carrier]
      (stream over circuit), [Circuits] and [CircuitsLaws] (pool over circuits),
      [World] and [DirService] (client over directory client), [NetLaws] (client
      over guard channel and circuits), [PathStable] (what the choice of a path
      leaves alone).  Clients are proved against the class, and
      [PoolCircuits], [DirPath], [ClientDir] and [DiskCache] discharge them.

    ** The parts

    Foundations.  [Prelude]: notation, automation, lists, numbers, the monad.
    [ByteUtil]: internal/byteutil.  [GoNet], [GoText], [GoTextFacts]: what the
    source uses of strconv, net, bytes, strings, bufio, base64, pem and time.

    Link and circuits.  [Cell]: pkg/cell.  [TorCrypto]: pkg/torcrypto (ntor,
    hs-ntor, keystreams, digests, key blinding).  [RelayInfo]: link specifiers.
    [OnionCrypto], [Circuit], [CircuitFacts], [CircuitRuns], [Turnstile]:
    pkg/circuit.  [Stream], [StreamFacts], [StreamCalls]: pkg/stream.  [Cert],
    [Channel], [ChannelFacts], [ChannelHandshake], [ChannelDial]: pkg/channel.
    The theorems: relays decode exactly the cells sent to them and the client
    those sent back, for any sequence of cells and any interleaving of senders;
    the write turnstile, condition variable included, strands no ticket;
    extending against an honest relay succeeds and keeps the circuit in step;
    the invariants of circuits and streams; stream data is neither lost,
    duplicated nor cut short; once the TLS dial has answered, [Dial] returns, and
    a channel has a verified identity bound to its TLS connection, and delivers each circuit its own cells in order.  [EndToEnd]
    puts the layers together: what an application writes to a stream is what the
    exit relay decodes from the bytes on the TLS connection ([ConnLog] is a
    connection that remembers them), and what the exit relay sends is what the
    application reads.  [Names]: the texts cells and stream errors are reported by.

    Directory.  [Directory], [DirParse], [DirParseFacts], [MicrodescFacts],
    [DirClient], [DirClientFacts], [DiskCache]: pkg/directory.  What Bootstrap and
    Refresh return was signed by a majority of the known authorities and is in
    its validity interval, whatever caches, servers and tunnel answer; once
    tunneled, fetches fail closed; what is signed determines what is parsed, if
    only signature blocks follow the signed part, and text behind them is
    accepted unsigned; the disk cache refines the map it is used as.

    Paths and the client.  [PathSel]: pkg/pathsel.  [Path], [DirPath]: relay
    selection in client.go.  [Pool], [PoolFacts], [PoolCircuits]: pool.go.
    [Client], [ClientFacts], [ClientDir], [DirTunnelFacts]: client.go, guard.go
    and dirtunnel.go.  Weighted draws are exact, the relays of a circuit are
    independent and come with the microdescriptors that a consensus verified
    against the client's own authorities commits to ([ClientDir]); the pool's counters,
    bounds and isolation; guard rotation is all or nothing, and a failed one
    closes and destroys nothing; from NewClient on the consensus in use is one
    verified against the authorities the client was created with, and the guard
    a relay of such a one.

    Onion services.  [OnionAddr], [HashRing], [OnionDesc], [OnionDescFacts],
    [Rendezvous]: pkg/onion.  [OnionDial], [OnionDialFacts]: onion_dial.go.  A
    connection to an onion service rests on a descriptor authenticated from the
    address and on a rendezvous authenticated by the service's keys; whatever
    fails, no circuit of the dial is leaked; the ring code implements the
    clockwise rule; the handshake agrees with a service that follows the
    specification.

    Proxies. [ByteRelay]: internal/relay. [Socks]: pkg/socks and pkg/proxyauth.
    [HttpProxy]: pkg/httpproxy. [RequestCmd], [ProxyCmd], [CommandLine]: the
    subcommands of cmd/go-tor-client and their flags, and [ClientPool] its pool
    of clients, one per identity. Whatever a peer sends, a handler does not
    panic, dials at most once and only with the dialer of the peer's identity;
    HTTP requests refine an abstract exchange; connections and clients are
    bounded, and clients are shared only within an identity; a relay whose one
    direction ended comes to its end through its closes; the commands release
    what they open, and a request that succeeds has written the whole response,
    its headers each on one line; and the request sent has the method, URL,
    body, headers and timeouts the command line gives.

    The files named [...Examples] run the definitions on concrete inputs and
    apply the theorems with hypotheses to them.

    ** Fuel and bounds

    Fuel occurs where the source loops over shrinking data: digits of a number
    (20, an int64 has 19), the 8 groups of an IPv6 address, words of a VERSIONS
    cell, cells of a finite input and batches of missing microdescriptors; where
    no number is given it is the length of the data.  The lemmas about each loop
    take a sufficient one.
    Loops the source bounds itself (handshake cells, resampling of relays, guard
    attempts, redials) use the source's bound.  The search for a free circuit
    identifier has no bound in the source and may not return.

    ** Not modelled

    - Timers: a timeout is one of the outcomes of the wait it ends.  Of the
      deadlines of connections, those of the link connection are modelled; that
      of the SOCKS handshake is the end of what arrives.
    - An operation of the client is atomic in the history that [ClientDir]
      considers; the races of the shared directory circuit and of the ring cache
      are modelled where they happen ([dirCircuit], [hsDirRing], which run the
      other goroutines as an argument).  A fetch through the tunnel is an answer
      of [DirService] and [World]: its stream on the directory circuit is not in
      the client's history.
    - The net/http server around the HTTP handler, and net/http's client: the
      handler's and the request command's environments.
    - Usage texts, log output beyond its level, signal handling, and the example
      programs: glue over the modelled operations.  [time.ParseDuration] is a
      parameter of the flag parser. *)

From Stdlib Require Export ZArith Lia Strings.Byte Strings.String Strings.Ascii.
From stdpp Require Export base list list_numbers numbers gmap countable option.
Export ListNotations.

#[global] Open Scope nat_scope.

(** ** Bytes *)

(** A Go [byte] is [Byte.byte]; a [[]byte] (or a Go string, which is an
    immutable byte sequence) is a list of them. *)
Notation byte := Byte.byte.
Notation bytes := (list byte).

#[global] Instance byte_eq_dec : EqDecision byte := Byte.byte_eq_dec.

(** The value of a byte, and Go's truncating conversion [byte(v)]. *)
Definition bval (b : byte) : Z := Z.of_N (Byte.to_N b).
Definition to_byte (v : Z) : byte :=
  match Byte.of_N (Z.to_N (v mod 256)) with Some b => b | None => x00 end.

Lemma bval_range b : (0 ≤ bval b < 256)%Z.
Proof. unfold bval. pose proof (Byte.to_N_bounded b). lia. Qed.

Lemma to_byte_bval b : to_byte (bval b) = b.
Proof.
  unfold to_byte. rewrite Z.mod_small by apply bval_range.
  unfold bval. rewrite N2Z.id, Byte.of_to_N. done.
Qed.

Lemma bval_to_byte v : bval (to_byte v) = (v mod 256)%Z.
Proof.
  unfold to_byte, bval.
  pose proof (Z.mod_pos_bound v 256 ltac:(lia)) as Hb.
  destruct (Byte.of_N _) as [b|] eqn:E.
  - apply Byte.to_of_N in E. rewrite E. lia.
  - apply Byte.of_N_None_iff in E. lia.
Qed.

Lemma bval_inj a b : bval a = bval b → a = b.
Proof. intros H. rewrite <-(to_byte_bval a), H. apply to_byte_bval. Qed.

#[global] Instance byte_inj : Inj (=) (=) bval.
Proof. exact bval_inj. Qed.

#[global] Instance byte_countable : Countable byte.
Proof.
  apply (inj_countable Byte.to_N Byte.of_N). intros b. apply Byte.of_to_N.
Defined.

(** ** Machine integers *)

Definition u16 (v : Z) : Z := (v mod 2 ^ 16)%Z.
Definition u32 (v : Z) : Z := (v mod 2 ^ 32)%Z.
Definition u64 (v : Z) : Z := (v mod 2 ^ 64)%Z.
(** Two's-complement wrap-around of an [int64] (and of [int] on the 64-bit
    targets). *)
Definition i64 (v : Z) : Z := ((v + 2 ^ 63) mod 2 ^ 64 - 2 ^ 63)%Z.

Lemma u16_range v : (0 ≤ u16 v < 65536)%Z.
Proof. unfold u16. apply Z.mod_pos_bound. lia. Qed.

Lemma u16_small v : (0 ≤ v < 65536)%Z → u16 v = v.
Proof. intros. unfold u16. apply Z.mod_small. lia. Qed.

Lemma i64_range v : (- 2 ^ 63 ≤ i64 v < 2 ^ 63)%Z.
Proof.
  unfold i64. pose proof (Z.mod_pos_bound (v + 2 ^ 63) (2 ^ 64) ltac:(lia)). lia.
Qed.

Lemma i64_small v : (- 2 ^ 63 ≤ v < 2 ^ 63)%Z → i64 v = v.
Proof. intros. unfold i64. rewrite Z.mod_small; lia. Qed.

(** ** Big-endian integers ([encoding/binary.BigEndian]) *)

(** [be_encode n v] is the [n]-byte big-endian form of [v mod 256^n]. *)
Fixpoint be_encode (n : nat) (v : Z) : bytes :=
  match n with
  | O => []
  | S n' => be_encode n' (v / 256) ++ [to_byte v]
  end.

Definition be_step (acc : Z) (b : byte) : Z := (acc * 256 + bval b)%Z.
Definition be_decode (bs : bytes) : Z := foldl be_step 0%Z bs.

Lemma length_be_encode n v : length (be_encode n v) = n.
Proof.
  revert v. induction n as [|n IH]; intros v; simpl; [done|].
  rewrite length_app, IH. simpl. lia.
Qed.

Lemma be_decode_snoc bs b : be_decode (bs ++ [b]) = (be_decode bs * 256 + bval b)%Z.
Proof. unfold be_decode. by rewrite foldl_app. Qed.

Lemma be_decode_range bs : (0 ≤ be_decode bs < 256 ^ Z.of_nat (length bs))%Z.
Proof.
  induction bs as [|b bs IH] using rev_ind; [done|].
  rewrite be_decode_snoc, length_app. simpl length.
  rewrite Nat2Z.inj_add, Z.pow_add_r by lia. simpl Z.of_nat.
  pose proof (bval_range b). nia.
Qed.

Lemma be_decode_encode n v : be_decode (be_encode n v) = (v mod 256 ^ Z.of_nat n)%Z.
Proof.
  revert v. induction n as [|n IH]; intros v; simpl be_encode.
  { simpl. by rewrite Z.mod_1_r. }
  rewrite be_decode_snoc, IH, bval_to_byte.
  rewrite Nat2Z.inj_succ, Z.pow_succ_r by lia.
  rewrite Z.rem_mul_r by lia. lia.
Qed.

Lemma be_encode_decode bs : be_encode (length bs) (be_decode bs) = bs.
Proof.
  induction bs as [|b bs IH] using rev_ind; [done|].
  rewrite length_app, Nat.add_comm. simpl. rewrite be_decode_snoc.
  pose proof (bval_range b).
  replace ((be_decode bs * 256 + bval b) / 256)%Z with (be_decode bs).
  2: { rewrite Z.add_comm, Z.div_add by lia. rewrite Z.div_small; lia. }
  rewrite IH. f_equal. f_equal.
  apply bval_inj. rewrite bval_to_byte.
  rewrite Z.add_comm, Z.mod_add by lia. apply Z.mod_small. lia.
Qed.

Lemma be_encode_mod n v : be_encode n (v mod 256 ^ Z.of_nat n) = be_encode n v.
Proof.
  rewrite <-be_decode_encode.
  rewrite <-(length_be_encode n v) at 1. apply be_encode_decode.
Qed.

Lemma be_decode_inj xs ys :
  length xs = length ys → be_decode xs = be_decode ys → xs = ys.
Proof.
  intros Hl He. rewrite <-(be_encode_decode xs), <-(be_encode_decode ys).
  by rewrite Hl, He.
Qed.

(** The big-endian accessors as the Go code calls them. *)
Definition BE_Uint16 (b : bytes) : Z := be_decode (take 2 b).
Definition BE_Uint32 (b : bytes) : Z := be_decode (take 4 b).
Definition BE_Uint64 (b : bytes) : Z := be_decode (take 8 b).

(** ** Lists *)

Definition zeros (n : nat) : bytes := replicate n x00.

Lemma take_app_exact {A} n (l k : list A) : length l = n → take n (l ++ k) = l.
Proof. intros <-. apply take_app_length. Qed.

Lemma drop_app_exact {A} n (l k : list A) : length l = n → drop n (l ++ k) = k.
Proof. intros <-. apply drop_app_length. Qed.

Lemma length_take_le {A} n (l : list A) : length (take n l) ≤ n.
Proof. rewrite length_take. lia. Qed.

Lemma imap_insert {A B} (f : nat → A → B) i x (l : list A) :
  imap f (<[i := x]> l) = <[i := f i x]> (imap f l).
Proof.
  revert f i. induction l as [|y l IH]; intros f [|i]; simpl; try done.
  f_equal. apply (IH (f ∘ S)).
Qed.

Lemma Forall2_imap {A B C D} (P : A → B → Prop) (Q : C → D → Prop)
    (f : nat → A → C) (g : nat → B → D) l k :
  (∀ i x y, P x y → Q (f i x) (g i y)) → Forall2 P l k → Forall2 Q (imap f l) (imap g k).
Proof.
  intros H HP. revert f g H. induction HP as [|x y l k Hxy HP IH]; intros f g H; simpl.
  - constructor.
  - constructor; [by apply H|]. apply IH. intros. simpl. by apply H.
Qed.

(** ** Go strings *)

Definition gostr (s : string) : bytes := list_byte_of_string s.

Declare Scope go_scope.
Delimit Scope go_scope with go.
(** [go"text"] is the byte sequence of a Go string literal. *)
Notation "'go' s" := (gostr s%string) (at level 1, s at level 0, only parsing) : go_scope.
#[global] Open Scope go_scope.

(** ** Outcomes: value, Go [error], or run-time panic *)

Inductive outcome (E A : Type) : Type :=
| Ok (a : A)
| Err (e : E)
| Panic.
Arguments Ok {E A} _.
Arguments Err {E A} _.
Arguments Panic {E A}.

#[global] Instance outcome_ret {E} : MRet (outcome E) := λ A a, Ok a.
#[global] Instance outcome_bind {E} : MBind (outcome E) :=
  λ A B f m, match m with Ok a => f a | Err e => Err e | Panic => Panic end.
#[global] Instance outcome_fmap {E} : FMap (outcome E) :=
  λ A B f m, match m with Ok a => Ok (f a) | Err e => Err e | Panic => Panic end.

(** [guard_err b e]: the Go idiom [if !b { return ..., e }]. *)
Definition guard_err {E} (b : bool) (e : E) : outcome E unit :=
  if b then Ok tt else Err e.

(** Wrapping an error, as [fmt.Errorf("...: %w", err)] does. *)
Definition map_err {E F A} (f : E → F) (m : outcome E A) : outcome F A :=
  match m with Ok a => Ok a | Err e => Err (f e) | Panic => Panic end.

Definition is_ok {E A} (m : outcome E A) : bool :=
  match m with Ok _ => true | _ => false end.

Definition panics {E A} (m : outcome E A) : bool :=
  match m with Panic => true | _ => false end.

Lemma bind_Ok {E A B} (m : outcome E A) (f : A → outcome E B) b :
  m ≫= f = Ok b ↔ ∃ a, m = Ok a ∧ f a = Ok b.
Proof. destruct m; simpl; naive_solver. Qed.

Lemma guard_err_Ok {E} (b : bool) (e : E) u : guard_err b e = Ok u ↔ b = true.
Proof. destruct b, u; simpl; naive_solver. Qed.

Lemma map_err_Ok {E F A} (f : E → F) (m : outcome E A) a :
  map_err f m = Ok a ↔ m = Ok a.
Proof. destruct m; simpl; naive_solver. Qed.

Lemma bind_panics {E A B} (m : outcome E A) (f : A → outcome E B) :
  panics m = false → (∀ a, m = Ok a → panics (f a) = false) →
  panics (m ≫= f) = false.
Proof. destruct m; simpl; naive_solver. Qed.

(** ** Stateful calls *)

(** A call on a shared state [S]: [None] when it would block (it waits for
    another goroutine), otherwise its outcome and the state it leaves, which
    keeps the changes made before an error. *)
Definition prog (S E A : Type) : Type := S → option (outcome E A * S).

#[global] Instance prog_ret {S E} : MRet (prog S E) := λ A a s, Some (Ok a, s).
#[global] Instance prog_bind {S E} : MBind (prog S E) := λ A B f m s,
  match m s with
  | None => None
  | Some (Ok a, s') => f a s'
  | Some (Err e, s') => Some (Err e, s')
  | Some (Panic, s') => Some (Panic, s')
  end.

Definition blocked {S E A} : prog S E A := λ s, None.
Definition throw {S E A} (e : E) : prog S E A := λ s, Some (Err e, s).
Definition panic {S E A} : prog S E A := λ s, Some (Panic, s).
Definition gets {S E A} (f : S → A) : prog S E A := λ s, Some (Ok (f s), s).
Definition modify {S E} (f : S → S) : prog S E unit := λ s, Some (Ok tt, f s).
Definition lift {S E A} (m : outcome E A) : prog S E A := λ s, Some (m, s).
(** Run a call and keep its outcome as a value: [if err := f(); err != nil]. *)
Definition attempt {S E F A} (m : prog S E A) : prog S F (outcome E A) :=
  λ s, match m s with Some (o, s') => Some (Ok o, s') | None => None end.
Definition map_error {S E F A} (f : E → F) (m : prog S E A) : prog S F A :=
  λ s, match m s with Some (o, s') => Some (map_err f o, s') | None => None end.

Lemma prog_bind_eq {S E A B} (m : prog S E A) (f : A → prog S E B) s :
  (m ≫= f) s = match m s with
               | None => None
               | Some (Ok a, s') => f a s'
               | Some (Err e, s') => Some (Err e, s')
               | Some (Panic, s') => Some (Panic, s')
               end.
Proof. done. Qed.

(** [m] keeps [P] true of the state, on every outcome. *)
Definition preserves {S E A} (P : S → Prop) (m : prog S E A) : Prop :=
  ∀ s o s', m s = Some (o, s') → P s → P s'.

Section Preserves.
Context {S E : Type} (P : S → Prop).

Lemma preserves_ret {A} (a : A) : preserves P (mret a : prog S E A).
Proof. by intros s o s' [= <- <-]. Qed.
Lemma preserves_bind {A B} (m : prog S E A) (f : A → prog S E B) :
  preserves P m → (∀ a, preserves P (f a)) → preserves P (m ≫= f).
Proof.
  intros Hm Hf s o s' H HP. rewrite prog_bind_eq in H.
  destruct (m s) as [[[a|e|] s1]|] eqn:E1; simplify_eq; try by eapply Hm.
  eapply Hf; [done|]. by eapply Hm.
Qed.
Lemma preserves_blocked {A} : preserves P (blocked : prog S E A).
Proof. by intros s o s'. Qed.
Lemma preserves_throw {A} (e : E) : preserves P (throw e : prog S E A).
Proof. by intros s o s' [= <- <-]. Qed.
Lemma preserves_panic {A} : preserves P (panic : prog S E A).
Proof. by intros s o s' [= <- <-]. Qed.
Lemma preserves_gets {A} (f : S → A) : preserves P (gets f : prog S E A).
Proof. by intros s o s' [= <- <-]. Qed.
Lemma preserves_lift {A} (m : outcome E A) : preserves P (lift m : prog S E A).
Proof. by intros s o s' [= <- <-]. Qed.
Lemma preserves_modify (f : S → S) : (∀ s, P s → P (f s)) → preserves P (modify f : prog S E unit).
Proof. intros Hf s o s' [= <- <-]. apply Hf. Qed.
Lemma preserves_attempt {F A} (m : prog S F A) :
  preserves P m → preserves P (attempt m : prog S E (outcome F A)).
Proof.
  intros Hm s o s'. unfold attempt. destruct (m s) as [[o1 s1]|] eqn:E1; [|done].
  intros [= <- <-]. by eapply Hm.
Qed.
Lemma preserves_map_error {F A} (g : F → E) (m : prog S F A) :
  preserves P m → preserves P (map_error g m).
Proof.
  intros Hm s o s'. unfold map_error. destruct (m s) as [[o1 s1]|] eqn:E1; [|done].
  intros [= <- <-]. by eapply Hm.
Qed.
Lemma preserves_if {A} (b : bool) (m1 m2 : prog S E A) :
  preserves P m1 → preserves P m2 → preserves P (if b then m1 else m2).
Proof. by destruct b. Qed.
End Preserves.

(** [m] run from [s] returns without a panic, and its outcome and the state it
    leaves satisfy [Q]. *)
Definition returns {S E A} (m : prog S E A) (s : S) (Q : outcome E A → S → Prop) : Prop :=
  ∃ o s', m s = Some (o, s') ∧ o ≠ Panic ∧ Q o s'.

Section Returns.
Context {S E : Type}.

Lemma returns_bind {A B} (m : prog S E A) (f : A → prog S E B) s (Q : outcome E B → S → Prop) :
  returns m s (λ o s1, match o with
                       | Ok a => returns (f a) s1 Q
                       | Err e => Q (Err e) s1
                       | Panic => False
                       end) →
  returns (m ≫= f) s Q.
Proof.
  intros (o & s1 & Hm & Hp & H). unfold returns. rewrite prog_bind_eq, Hm.
  destruct o as [a|e|]; [exact H| |done]. by exists (Err e), s1.
Qed.

Lemma returns_weaken {A} (m : prog S E A) s Q Q' :
  returns m s Q → (∀ o s', o ≠ Panic → Q o s' → Q' o s') → returns m s Q'.
Proof. intros (o & s' & Hm & Hp & Hq) H. exists o, s'. auto. Qed.

Lemma returns_throw {A} e s (Q : outcome E A → S → Prop) : Q (Err e) s → returns (throw e) s Q.
Proof. intros H. by exists (Err e), s. Qed.
Lemma returns_ret {A} (a : A) s (Q : outcome E A → S → Prop) : Q (Ok a) s → returns (mret a) s Q.
Proof. intros H. by exists (Ok a), s. Qed.
Lemma returns_gets {A} (f : S → A) s (Q : outcome E A → S → Prop) : Q (Ok (f s)) s → returns (gets f) s Q.
Proof. intros H. by exists (Ok (f s)), s. Qed.
Lemma returns_modify (f : S → S) s (Q : outcome E unit → S → Prop) : Q (Ok tt) (f s) → returns (modify f) s Q.
Proof. intros H. by exists (Ok tt), (f s). Qed.
Lemma returns_lift {A} (o : outcome E A) s (Q : outcome E A → S → Prop) :
  o ≠ Panic → Q o s → returns (lift o) s Q.
Proof. intros Hp H. by exists o, s. Qed.
Lemma returns_attempt {F A} (m : prog S E A) s (Q : outcome F (outcome E A) → S → Prop) :
  returns m s (λ o, Q (Ok o)) → returns (attempt m) s Q.
Proof. intros (o & s' & Hm & _ & H). exists (Ok o), s'. unfold attempt. by rewrite Hm. Qed.
Lemma returns_map_error {F A} (g : E → F) (m : prog S E A) s (Q : outcome F A → S → Prop) :
  returns m s (λ o, Q (map_err g o)) → returns (map_error g m) s Q.
Proof.
  intros (o & s' & Hm & Hp & H). exists (map_err g o), s'. unfold map_error. rewrite Hm.
  by destruct o.
Qed.
End Returns.

(** Whenever [m] run from [s] ends, its outcome (a panic included) and the state
    it leaves satisfy [Q]. *)
Definition post {S E A} (m : prog S E A) (s : S) (Q : outcome E A → S → Prop) : Prop :=
  ∀ o s', m s = Some (o, s') → Q o s'.

Section Post.
Context {S E : Type}.

Lemma post_bind {A B} (m : prog S E A) (f : A → prog S E B) s (Q : outcome E B → S → Prop) :
  post m s (λ o s1, match o with
                    | Ok a => post (f a) s1 Q
                    | Err e => Q (Err e) s1
                    | Panic => Q Panic s1
                    end) →
  post (m ≫= f) s Q.
Proof.
  intros H o s' Hr. rewrite prog_bind_eq in Hr. destruct (m s) as [[o1 s1]|] eqn:E1; [|done].
  specialize (H _ _ E1). destruct o1 as [a|e|]; [by apply H|by injection Hr as <- <-..].
Qed.
Lemma post_weaken {A} (m : prog S E A) s (Q Q' : outcome E A → S → Prop) :
  post m s Q → (∀ o s', Q o s' → Q' o s') → post m s Q'.
Proof. intros H HQ o s' Hr. by apply HQ, H. Qed.
Lemma post_ret {A} (a : A) s (Q : outcome E A → S → Prop) : Q (Ok a) s → post (mret a) s Q.
Proof. by intros H o s' [= <- <-]. Qed.
Lemma post_throw {A} e s (Q : outcome E A → S → Prop) : Q (Err e) s → post (throw e) s Q.
Proof. by intros H o s' [= <- <-]. Qed.
Lemma post_panic {A} s (Q : outcome E A → S → Prop) : Q Panic s → post panic s Q.
Proof. by intros H o s' [= <- <-]. Qed.
Lemma post_gets {A} (f : S → A) s (Q : outcome E A → S → Prop) : Q (Ok (f s)) s → post (gets f) s Q.
Proof. by intros H o s' [= <- <-]. Qed.
Lemma post_modify (f : S → S) s (Q : outcome E unit → S → Prop) : Q (Ok tt) (f s) → post (modify f) s Q.
Proof. by intros H o s' [= <- <-]. Qed.
Lemma post_lift {A} (o : outcome E A) s (Q : outcome E A → S → Prop) : Q o s → post (lift o) s Q.
Proof. by intros H o' s' [= <- <-]. Qed.
Lemma post_attempt {F A} (m : prog S E A) s (Q : outcome F (outcome E A) → S → Prop) :
  post m s (λ o, Q (Ok o)) → post (attempt m) s Q.
Proof.
  intros H o s'. unfold attempt. destruct (m s) as [[o1 s1]|] eqn:E1; [|done].
  intros [= <- <-]. by apply H.
Qed.
Lemma post_map_error {F A} (g : E → F) (m : prog S E A) s (Q : outcome F A → S → Prop) :
  post m s (λ o, Q (map_err g o)) → post (map_error g m) s Q.
Proof.
  intros H o s'. unfold map_error. destruct (m s) as [[o1 s1]|] eqn:E1; [|done].
  intros [= <- <-]. by apply H.
Qed.
End Post.

(** ** Checked indexing and slicing *)

(** [b[i]] and [b[i:j]]: out of range is a run-time panic. *)
Definition idx {E} (b : bytes) (i : nat) : outcome E byte :=
  match b !! i with Some x => Ok x | None => Panic end.
Definition slice {E} (b : bytes) (i j : nat) : outcome E bytes :=
  if decide (i ≤ j ∧ j ≤ length b) then Ok (take (j - i) (drop i b)) else Panic.

Lemma idx_Ok {E} (b : bytes) i x : idx (E:=E) b i = Ok x ↔ b !! i = Some x.
Proof. unfold idx. destruct (b !! i); naive_solver. Qed.

Lemma idx_in_range {E} (b : bytes) i : i < length b → ∃ x, idx (E:=E) b i = Ok x.
Proof.
  intros H. destruct (lookup_lt_is_Some_2 _ _ H) as [x Hx].
  exists x. by apply idx_Ok.
Qed.

Lemma slice_in_range {E} (b : bytes) i j :
  i ≤ j → j ≤ length b → slice (E:=E) b i j = Ok (take (j - i) (drop i b)).
Proof. intros. unfold slice. by rewrite decide_True by lia. Qed.

Lemma slice_Ok {E} (b : bytes) i j s :
  slice (E:=E) b i j = Ok s ↔ i ≤ j ∧ j ≤ length b ∧ s = take (j - i) (drop i b).
Proof. unfold slice. case_decide; naive_solver. Qed.

Lemma length_slice {E} (b : bytes) i j s : slice (E:=E) b i j = Ok s → length s = j - i.
Proof. rewrite slice_Ok. intros (?&?&->). rewrite length_take, length_drop. lia. Qed.

(** ** [io.ReadFull] and [copy] *)

(** What [io.ReadFull] reports when the stream ends early. *)
Inductive io_error := EOF | UnexpectedEOF.

(** [io.ReadFull(r, buf)] with [len(buf) = n] on a stream whose remaining
    bytes are [s]: the bytes read and the rest of the stream. *)
Definition ReadFull (s : bytes) (n : nat) : outcome io_error (bytes * bytes) :=
  if n <=? length s then Ok (take n s, drop n s)
  else match s with [] => Err EOF | _ => Err UnexpectedEOF end.

Lemma ReadFull_app n p s : length p = n → ReadFull (p ++ s) n = Ok (p, s).
Proof.
  intros <-. unfold ReadFull. rewrite length_app.
  destruct (Nat.leb_spec (length p) (length p + length s)); [|lia].
  by rewrite take_app_length, drop_app_length.
Qed.

Lemma ReadFull_Ok s n p rest :
  ReadFull s n = Ok (p, rest) ↔ s = p ++ rest ∧ length p = n.
Proof.
  split.
  - unfold ReadFull. destruct (Nat.leb_spec n (length s)); [|by destruct s].
    intros [= <- <-]. rewrite take_drop, length_take. split; [done|lia].
  - intros [-> H]. by apply ReadFull_app.
Qed.

Lemma ReadFull_short s n : length s < n → is_ok (ReadFull s n) = false.
Proof.
  unfold ReadFull. intros. destruct (Nat.leb_spec n (length s)); [lia|]. by destruct s.
Qed.

(** [copy(buf[off:], src)]: copies what fits, the rest of [buf] is kept. *)
Definition copy_at (off : nat) (src buf : bytes) : bytes :=
  take off buf ++ take (length buf - off) src ++ drop (off + length src) buf.

Lemma length_copy_at off src buf : off ≤ length buf → length (copy_at off src buf) = length buf.
Proof.
  intros. unfold copy_at. rewrite !length_app, !length_take, length_drop. lia.
Qed.

(** Filling the next field of a buffer whose first [off] bytes are done. *)
Lemma copy_at_next off a b c src :
  length a = off → length b = length src →
  copy_at off src (a ++ b ++ c) = (a ++ src) ++ c.
Proof.
  intros <- Hb. unfold copy_at. rewrite take_app_length, <-app_assoc. f_equal.
  rewrite !length_app, take_ge by lia. f_equal.
  rewrite drop_app_ge by lia. replace (length a + length src - length a) with (length b) by lia.
  apply drop_app_length.
Qed.

Lemma copy_at_read off src buf n :
  off + length src ≤ length buf → n = length src →
  take n (drop off (copy_at off src buf)) = src.
Proof.
  intros H ->. unfold copy_at.
  rewrite drop_app_exact by (rewrite length_take; lia).
  rewrite (take_ge src) by lia. apply take_app_length.
Qed.

Lemma copy_at_below off src buf n :
  n ≤ off → off ≤ length buf → take n (copy_at off src buf) = take n buf.
Proof.
  intros. unfold copy_at. rewrite take_app_le by (rewrite length_take; lia).
  rewrite take_take. f_equal. lia.
Qed.

Lemma copy_at_above off src buf n :
  off + length src ≤ n → off + length src ≤ length buf →
  drop n (copy_at off src buf) = drop n buf.
Proof.
  intros. unfold copy_at. rewrite (take_ge src) by lia.
  rewrite app_assoc, drop_app_ge by (rewrite length_app, length_take; lia).
  rewrite length_app, length_take, drop_drop. f_equal. lia.
Qed.

(** ** Automation *)

Create HintDb gotor discriminated.

(** Invert a chain of successful monadic steps. *)
Ltac outcome_inv :=
  repeat match goal with
  | H : _ ≫= _ = Ok _ |- _ => apply bind_Ok in H; destruct H as (? & ? & H)
  | H : mret _ = Ok _ |- _ => injection H as <-
  | H : guard_err _ _ = Ok _ |- _ => apply guard_err_Ok in H
  | H : map_err _ _ = Ok _ |- _ => apply map_err_Ok in H
  | H : idx _ _ = Ok _ |- _ => apply idx_Ok in H
  | H : Ok _ = Ok _ |- _ => injection H; clear H; intros; subst
  | H : Err _ = Ok _ |- _ => discriminate H
  | H : Panic = Ok _ |- _ => discriminate H
  end.

(** One monadic step, leaving lengths and constants folded. *)
Ltac osimpl :=
  cbn [mbind outcome_bind mret outcome_ret fmap outcome_fmap map_err negb andb orb fst snd].

#[global] Hint Resolve preserves_ret preserves_bind preserves_blocked preserves_throw
  preserves_panic preserves_gets preserves_lift preserves_modify preserves_attempt
  preserves_map_error preserves_if : gotor.

(** Turn the boolean tests of the code into propositions. *)
Ltac bools :=
  repeat match goal with
  | H : (_ && _)%bool = true |- _ => apply andb_true_iff in H; destruct H
  | H : (_ && _)%bool = false |- _ => apply andb_false_iff in H
  | H : (_ || _)%bool = false |- _ => apply orb_false_iff in H; destruct H
  | H : (_ || _)%bool = true |- _ => apply orb_true_iff in H
  | H : negb _ = true |- _ => apply negb_true_iff in H
  | H : negb _ = false |- _ => apply negb_false_iff in H
  | H : bool_decide _ = true |- _ => apply bool_decide_eq_true in H
  | H : bool_decide _ = false |- _ => apply bool_decide_eq_false in H
  | H : (_ <? _)%Z = true |- _ => apply Z.ltb_lt in H
  | H : (_ <? _)%Z = false |- _ => apply Z.ltb_ge in H
  | H : (_ <=? _)%Z = true |- _ => apply Z.leb_le in H
  | H : (_ <=? _)%Z = false |- _ => apply Z.leb_gt in H
  | H : (_ =? _)%Z = true |- _ => apply Z.eqb_eq in H
  | H : (_ =? _)%Z = false |- _ => apply Z.eqb_neq in H
  | H : (_ <? _)%nat = true |- _ => apply Nat.ltb_lt in H
  | H : (_ <? _)%nat = false |- _ => apply Nat.ltb_ge in H
  | H : (_ <=? _)%nat = true |- _ => apply Nat.leb_le in H
  | H : (_ <=? _)%nat = false |- _ => apply Nat.leb_gt in H
  | H : (_ =? _)%nat = true |- _ => apply Nat.eqb_eq in H
  | H : (_ =? _)%nat = false |- _ => apply Nat.eqb_neq in H
  end.

#[global] Opaque be_encode be_decode to_byte bval.
