(* ===== verification/ByteUtil.v ===== *)
(** * [internal/byteutil]: the big-endian writer and reader, xor, and the
    pre-filled permit channel used for flow-control windows.

    The mutable [Writer] and [Reader] are records passed through each
    operation.  [Reader] is related to an abstract view (the unread suffix, or
    nothing once a read has failed), and reading back what a [Writer] wrote is
    shown to return the written fields. *)

From S2P Require Import Prelude.

(** ** Writer *)
Module Writer.

Record Writer := mkWriter { buf : bytes }.

(** The capacity hint does not change the contents. *)
Definition NewWriter (capacityHint : nat) : Writer := {| buf := [] |}.
Definition Len (w : Writer) : nat := length (buf w).
Definition Bytes (w : Writer) : bytes := buf w.
Definition Byte (w : Writer) (b : byte) : Writer := {| buf := buf w ++ [b] |}.
Definition U16 (w : Writer) (v : Z) : Writer := {| buf := buf w ++ be_encode 2 v |}.
Definition U32 (w : Writer) (v : Z) : Writer := {| buf := buf w ++ be_encode 4 v |}.
Definition U64 (w : Writer) (v : Z) : Writer := {| buf := buf w ++ be_encode 8 v |}.
Definition Write (w : Writer) (p : bytes) : Writer := {| buf := buf w ++ p |}.

End Writer.

(** ** Reader *)
Module Reader.

Record Reader := mkReader { buf : bytes; pos : nat; err : bool }.

Definition NewReader (b : bytes) : Reader := {| buf := b; pos := 0; err := false |}.
Definition Err (r : Reader) : bool := err r.
Definition Remaining (r : Reader) : Z := (Z.of_nat (length (buf r)) - Z.of_nat (pos r))%Z.

Definition fail (r : Reader) : Reader := {| buf := buf r; pos := pos r; err := true |}.
Definition advance (r : Reader) (n : nat) : Reader :=
  {| buf := buf r; pos := pos r + n; err := err r |}.

(** The guard shared by the fixed-width reads: [r.err || r.pos+n > len(r.buf)]. *)
Definition short (r : Reader) (n : nat) : bool :=
  err r || (length (buf r) <? pos r + n).

Definition Byte (r : Reader) : byte * Reader :=
  if short r 1 then (x00, fail r)
  else (nth (pos r) (buf r) x00, advance r 1).

Definition U16 (r : Reader) : Z * Reader :=
  if short r 2 then (0%Z, fail r)
  else (BE_Uint16 (drop (pos r) (buf r)), advance r 2).

Definition U32 (r : Reader) : Z * Reader :=
  if short r 4 then (0%Z, fail r)
  else (BE_Uint32 (drop (pos r) (buf r)), advance r 4).

Definition U64 (r : Reader) : Z * Reader :=
  if short r 8 then (0%Z, fail r)
  else (BE_Uint64 (drop (pos r) (buf r)), advance r 8).

(** [None] is Go's [nil] slice.  The sum [r.pos+n] cannot wrap: [n] comes from
    a one- or two-byte length field or is a small constant at every call. *)
Definition Bytes (r : Reader) (n : Z) : option bytes * Reader :=
  if err r || (n <? 0)%Z || (Z.of_nat (length (buf r)) <? Z.of_nat (pos r) + n)%Z
  then (None, fail r)
  else (Some (take (Z.to_nat n) (drop (pos r) (buf r))), advance r (Z.to_nat n)).

Definition Rest (r : Reader) : option bytes * Reader :=
  if err r then (None, r)
  else (Some (drop (pos r) (buf r)),
        {| buf := buf r; pos := length (buf r); err := err r |}).

(** *** Invariant and abstract view *)

Definition wf (r : Reader) : Prop := pos r ≤ length (buf r).

(** What is still unread, or [None] once a read has failed. *)
Definition view (r : Reader) : option bytes :=
  if err r then None else Some (drop (pos r) (buf r)).

Lemma wf_new b : wf (NewReader b).
Proof. unfold wf. simpl. lia. Qed.

Lemma view_new b : view (NewReader b) = Some b.
Proof. done. Qed.

Lemma view_fail r : view (fail r) = None.
Proof. done. Qed.

Lemma view_None r : view r = None ↔ err r = true.
Proof. unfold view. destruct (err r); naive_solver. Qed.

Lemma short_spec r n :
  wf r → short r n = match view r with
                     | Some s => length s <? n
                     | None => true
                     end.
Proof.
  unfold short, view, wf. destruct (err r); simpl; [done|].
  intros Hw. rewrite length_drop.
  apply eq_true_iff_eq. rewrite !Nat.ltb_lt. lia.
Qed.

Lemma view_advance r n s :
  wf r → view r = Some s → n ≤ length s →
  view (advance r n) = Some (drop n s) ∧ wf (advance r n).
Proof.
  unfold view, wf, advance. simpl. destruct (err r); [done|].
  intros Hw [= <-]. rewrite length_drop. intros. split; [|lia].
  by rewrite drop_drop.
Qed.

(** The four fixed-width reads are one read of an [n]-byte prefix. *)
Definition fixed (n : nat) (r : Reader) : bytes * Reader :=
  if short r n then (zeros n, fail r)
  else (take n (drop (pos r) (buf r)), advance r n).

Lemma be_decode_zeros n : be_decode (zeros n) = 0%Z.
Proof.
  unfold zeros. induction n as [|n IH]; [done|].
  rewrite replicate_S_end, be_decode_snoc, IH. done.
Qed.

Lemma U16_fixed r : U16 r = (be_decode (fixed 2 r).1, (fixed 2 r).2).
Proof. unfold U16, fixed. by destruct (short r 2). Qed.

Lemma U32_fixed r : U32 r = (be_decode (fixed 4 r).1, (fixed 4 r).2).
Proof. unfold U32, fixed. by destruct (short r 4). Qed.

Lemma U64_fixed r : U64 r = (be_decode (fixed 8 r).1, (fixed 8 r).2).
Proof. unfold U64, fixed. by destruct (short r 8). Qed.

Lemma Byte_fixed r : Byte r = (nth 0 (fixed 1 r).1 x00, (fixed 1 r).2).
Proof.
  unfold Byte, fixed, short. destruct (err r) eqn:He; simpl; [done|].
  destruct (Nat.ltb_spec (length (buf r)) (pos r + 1)) as [|Hlt]; [done|].
  f_equal. destruct (drop (pos r) (buf r)) as [|b l] eqn:Hd.
  { apply (f_equal length) in Hd. rewrite length_drop in Hd. simpl in Hd. lia. }
  simpl. rewrite <-(take_drop (pos r) (buf r)), app_nth2; rewrite length_take.
  - replace (pos r - pos r `min` length (buf r)) with 0 by lia. by rewrite Hd.
  - lia.
Qed.

Lemma fixed_ok n r s :
  wf r → view r = Some s → n ≤ length s →
  (fixed n r).1 = take n s ∧ view (fixed n r).2 = Some (drop n s) ∧ wf (fixed n r).2.
Proof.
  intros Hw Hv Hn. unfold fixed. rewrite short_spec, Hv by done.
  destruct (Nat.ltb_spec (length s) n); [lia|]. simpl.
  assert (drop (pos r) (buf r) = s) as ->.
  { unfold view in Hv. destruct (err r); naive_solver. }
  split; [done|]. by apply view_advance.
Qed.

Lemma fixed_short n r :
  wf r → (∀ s, view r = Some s → length s < n) →
  view (fixed n r).2 = None ∧ wf (fixed n r).2.
Proof.
  intros Hw Hs. unfold fixed. rewrite short_spec by done.
  destruct (view r) as [s|] eqn:Hv; [|done].
  destruct (Nat.ltb_spec (length s) n); [done|]. specialize (Hs s eq_refl). lia.
Qed.

Lemma Bytes_ok n r s :
  wf r → view r = Some s → n ≤ length s →
  (Bytes r (Z.of_nat n)).1 = Some (take n s) ∧
  view (Bytes r (Z.of_nat n)).2 = Some (drop n s) ∧ wf (Bytes r (Z.of_nat n)).2.
Proof.
  intros Hw Hv Hn. unfold Bytes.
  pose proof Hv as Hv'. unfold view in Hv'. destruct (err r) eqn:He; [done|].
  injection Hv' as Hs. subst s. rewrite length_drop in Hn. unfold wf in Hw. simpl.
  destruct (Z.ltb_spec (Z.of_nat n) 0); [lia|].
  destruct (Z.ltb_spec (Z.of_nat (length (buf r))) (Z.of_nat (pos r) + Z.of_nat n)); [lia|].
  simpl. rewrite Nat2Z.id. split; [done|].
  apply view_advance; [done|done|]. rewrite length_drop. lia.
Qed.

Lemma Bytes_short n r :
  wf r → (∀ s, view r = Some s → (Z.of_nat (length s) < n)%Z) →
  (Bytes r n).1 = None ∧ view (Bytes r n).2 = None ∧ wf (Bytes r n).2.
Proof.
  intros Hw Hs. unfold Bytes. pose proof (Hs (drop (pos r) (buf r))) as Hs'.
  unfold view in Hs'. unfold wf in Hw. destruct (err r); simpl; [done|].
  specialize (Hs' eq_refl). rewrite length_drop in Hs'.
  destruct (Z.ltb_spec n 0); [lia|]. simpl.
  destruct (Z.ltb_spec (Z.of_nat (length (buf r))) (Z.of_nat (pos r) + n)); [done|lia].
Qed.

Lemma Remaining_view r s :
  wf r → view r = Some s → Remaining r = Z.of_nat (length s).
Proof.
  unfold wf, view, Remaining. intros. destruct (err r); simplify_eq.
  rewrite length_drop. lia.
Qed.

(** A read after which no error is pending took the bytes it returned. *)
Lemma fixed_live n r :
  wf r → err (fixed n r).2 = false →
  ∃ s, view r = Some ((fixed n r).1 ++ s) ∧ view (fixed n r).2 = Some s ∧
       length (fixed n r).1 = n ∧ wf (fixed n r).2 ∧ err r = false.
Proof.
  intros Hw He. unfold fixed in *. rewrite short_spec in * by done.
  destruct (view r) as [s|] eqn:Hv; [|done].
  destruct (Nat.ltb_spec (length s) n) as [|Hle]; [done|]. cbn [fst snd] in *.
  destruct (view_advance r n s Hw Hv Hle) as [Ha Hw'].
  assert (err r = false ∧ drop (pos r) (buf r) = s) as [Her Hd].
  { unfold view in Hv. destruct (err r); naive_solver. }
  rewrite Hd. exists (drop n s). rewrite take_drop, length_take. split_and!; try done. lia.
Qed.

Lemma Bytes_live n r :
  wf r → err (Bytes r n).2 = false →
  ∃ p s, (Bytes r n).1 = Some p ∧ view r = Some (p ++ s) ∧ view (Bytes r n).2 = Some s ∧
         Z.of_nat (length p) = n ∧ wf (Bytes r n).2 ∧ err r = false.
Proof.
  intros Hw He. destruct (err r) eqn:Her; [unfold Bytes in He; by rewrite Her in He|].
  assert (view r = Some (drop (pos r) (buf r))) as Hv by (unfold view; by rewrite Her).
  destruct (Z.ltb_spec n 0).
  { unfold Bytes in He. rewrite Her in He. destruct (Z.ltb_spec n 0); [done|lia]. }
  destruct (Z.le_gt_cases n (Z.of_nat (length (drop (pos r) (buf r))))) as [Hle|Hgt].
  - destruct (Bytes_ok (Z.to_nat n) r _ Hw Hv) as (H1&H2&H3); [lia|].
    rewrite Z2Nat.id in H1, H2, H3 by lia.
    eexists _, _. rewrite H1, H2, Hv, take_drop. split_and!; try done.
    rewrite length_take. lia.
  - destruct (Bytes_short n r Hw) as (_&H2&_).
    { intros s. rewrite Hv. by intros [= <-]. }
    apply view_None in H2. congruence.
Qed.

Lemma fixed_wf n r : wf r → wf (fixed n r).2.
Proof.
  intros Hw. destruct (err (fixed n r).2) eqn:E.
  - unfold fixed in *. destruct (short r n) eqn:Es; [done|]. simpl in E.
    unfold short in Es. by rewrite E in Es.
  - by destruct (fixed_live n r Hw E) as (?&?&?&?&?&?).
Qed.

Lemma Bytes_wf n r : wf r → wf (Bytes r n).2.
Proof.
  intros Hw. destruct (err (Bytes r n).2) eqn:E.
  - unfold Bytes in *. destruct (_ || _)%bool eqn:Eb; [done|]. simpl in E. by rewrite E in Eb.
  - by destruct (Bytes_live n r Hw E) as (?&?&?&?&?&?&?&?).
Qed.

End Reader.

(** ** Writing then reading *)

(** One field of a framed message, as written by a [Writer] method. *)
Inductive field :=
| FByte (b : byte)
| FU16 (v : Z)
| FU32 (v : Z)
| FU64 (v : Z)
| FBytes (p : bytes).

Definition put (w : Writer.Writer) (f : field) : Writer.Writer :=
  match f with
  | FByte b => Writer.Byte w b
  | FU16 v => Writer.U16 w v
  | FU32 v => Writer.U32 w v
  | FU64 v => Writer.U64 w v
  | FBytes p => Writer.Write w p
  end.

(** Read a field of the same shape as [f] (the value of [f] only fixes which
    method is called and, for raw bytes, the length asked for). *)
Definition get_like (f : field) (r : Reader.Reader) : field * Reader.Reader :=
  match f with
  | FByte _ => let '(b, r) := Reader.Byte r in (FByte b, r)
  | FU16 _ => let '(v, r) := Reader.U16 r in (FU16 v, r)
  | FU32 _ => let '(v, r) := Reader.U32 r in (FU32 v, r)
  | FU64 _ => let '(v, r) := Reader.U64 r in (FU64 v, r)
  | FBytes p =>
      let '(b, r) := Reader.Bytes r (Z.of_nat (length p)) in
      (FBytes (default [] b), r)
  end.

Fixpoint get_all (fs : list field) (r : Reader.Reader) : list field * Reader.Reader :=
  match fs with
  | [] => ([], r)
  | f :: fs => let '(g, r) := get_like f r in
               let '(gs, r) := get_all fs r in (g :: gs, r)
  end.

(** A value written at a width is read back modulo that width. *)
Definition truncated (f : field) : field :=
  match f with
  | FByte b => FByte b
  | FU16 v => FU16 (u16 v)
  | FU32 v => FU32 (u32 v)
  | FU64 v => FU64 (u64 v)
  | FBytes p => FBytes p
  end.

Definition wire (f : field) : bytes :=
  match f with
  | FByte b => [b]
  | FU16 v => be_encode 2 v
  | FU32 v => be_encode 4 v
  | FU64 v => be_encode 8 v
  | FBytes p => p
  end.

Lemma put_wire w f : Writer.buf (put w f) = Writer.buf w ++ wire f.
Proof. by destruct f. Qed.

Lemma foldl_put_wire fs w :
  Writer.buf (foldl put w fs) = Writer.buf w ++ (fs ≫= wire).
Proof.
  revert w. induction fs as [|f fs IH]; intros w; simpl; [by rewrite app_nil_r|].
  by rewrite IH, put_wire, <-app_assoc.
Qed.

(** One read, against a view that starts with that field's wire form. *)
Lemma get_like_wire f r rest :
  Reader.wf r → Reader.view r = Some (wire f ++ rest) →
  (get_like f r).1 = truncated f ∧
  Reader.view (get_like f r).2 = Some rest ∧ Reader.wf (get_like f r).2.
Proof.
  intros Hw Hv.
  assert (∀ n, n = length (wire f) →
    (Reader.fixed n r).1 = wire f ∧ Reader.view (Reader.fixed n r).2 = Some rest ∧
    Reader.wf (Reader.fixed n r).2) as Hfix.
  { intros n ->. destruct (Reader.fixed_ok (length (wire f)) r _ Hw Hv) as (H1&H2&H3).
    { rewrite length_app. lia. }
    rewrite take_app_length in H1. rewrite drop_app_length in H2. done. }
  destruct f as [b|v|v|v|p]; simpl get_like.
  - rewrite Reader.Byte_fixed. destruct (Hfix 1 eq_refl) as (->&?&?). done.
  - rewrite Reader.U16_fixed. destruct (Hfix 2) as (->&?&?).
    { simpl. by rewrite length_be_encode. } simpl. by rewrite be_decode_encode.
  - rewrite Reader.U32_fixed. destruct (Hfix 4) as (->&?&?).
    { simpl. by rewrite length_be_encode. } simpl. by rewrite be_decode_encode.
  - rewrite Reader.U64_fixed. destruct (Hfix 8) as (->&?&?).
    { simpl. by rewrite length_be_encode. } simpl. by rewrite be_decode_encode.
  - destruct (Reader.Bytes_ok (length p) r _ Hw Hv) as (H1&H2&H3).
    { simpl. rewrite length_app. lia. }
    destruct (Reader.Bytes r (Z.of_nat (length p))) as [ob r']. simpl in *. subst ob.
    rewrite take_app_length. rewrite drop_app_length in H2. done.
Qed.

Lemma get_all_wire fs r rest :
  Reader.wf r → Reader.view r = Some ((fs ≫= wire) ++ rest) →
  (get_all fs r).1 = truncated <$> fs ∧
  Reader.view (get_all fs r).2 = Some rest ∧ Reader.wf (get_all fs r).2.
Proof.
  revert r. induction fs as [|f fs IH]; intros r Hw Hv; simpl; [done|].
  simpl in Hv. rewrite <-app_assoc in Hv.
  destruct (get_like_wire f r _ Hw Hv) as (H1&H2&H3).
  destruct (get_like f r) as [g r1]. simpl in *. subst g.
  destruct (IH r1 H3 H2) as (H4&H5&H6).
  destruct (get_all fs r1) as [gs r2]. simpl in *. by subst gs.
Qed.

(** Fields written by a fresh [Writer] and read back by the
    matching [Reader] calls come back in order, truncated to their widths,
    with every byte consumed and no error. *)
Theorem writer_reader_roundtrip (fs : list field) :
  let w := foldl put (Writer.NewWriter 0) fs in
  let '(gs, r) := get_all fs (Reader.NewReader (Writer.Bytes w)) in
  gs = truncated <$> fs ∧ Reader.Err r = false ∧ Reader.Remaining r = 0%Z.
Proof.
  simpl.
  destruct (get_all_wire fs (Reader.NewReader (Writer.Bytes
    (foldl put (Writer.NewWriter 0) fs))) [] (Reader.wf_new _)) as (H1&H2&H3).
  { rewrite Reader.view_new, app_nil_r. unfold Writer.Bytes.
    by rewrite foldl_put_wire. }
  destruct (get_all _ _) as [gs r]. simpl in *. split; [done|].
  split; [|by rewrite (Reader.Remaining_view _ _ H3 H2)].
  unfold Reader.Err. destruct (Reader.err r) eqn:He; [|done].
  apply Reader.view_None in He. congruence.
Qed.

(** ** Xor *)

Definition bxor (a b : byte) : byte := to_byte (Z.lxor (bval a) (bval b)).

Lemma lxor_byte_range a b : (0 ≤ Z.lxor (bval a) (bval b) < 256)%Z.
Proof.
  pose proof (bval_range a). pose proof (bval_range b). split.
  { apply Z.lxor_nonneg. lia. }
  destruct (decide (Z.lxor (bval a) (bval b) = 0%Z)) as [->|Hne]; [lia|].
  apply (Z.log2_lt_cancel _ 256).
  assert (0 ≤ Z.lxor (bval a) (bval b))%Z by (apply Z.lxor_nonneg; lia).
  eapply Z.le_lt_trans; [apply Z.log2_lxor; lia|].
  change (Z.log2 256) with 8%Z. apply Z.max_lub_lt.
  - destruct (decide (bval a = 0%Z)) as [->|]; [done|]. apply Z.log2_lt_pow2; lia.
  - destruct (decide (bval b = 0%Z)) as [->|]; [done|]. apply Z.log2_lt_pow2; lia.
Qed.

Lemma bval_bxor a b : bval (bxor a b) = Z.lxor (bval a) (bval b).
Proof.
  unfold bxor. rewrite bval_to_byte. apply Z.mod_small, lxor_byte_range.
Qed.

Lemma bxor_involutive a k : bxor (bxor a k) k = a.
Proof.
  apply bval_inj. rewrite !bval_bxor, Z.lxor_assoc, Z.lxor_nilpotent.
  apply Z.lxor_0_r.
Qed.

Lemma bxor_comm a b : bxor a b = bxor b a.
Proof. apply bval_inj. rewrite !bval_bxor. apply Z.lxor_comm. Qed.

(** The source operands of one iteration: [dst] may share its storage with
    [a] or [b], in which case the read sees the bytes already overwritten. *)
Inductive operand := Distinct (s : bytes) | Aliased.
Definition operand_at (o : operand) (dst : bytes) (i : nat) : byte :=
  match o with Distinct s => nth i s x00 | Aliased => nth i dst x00 end.
Definition operand_len (o : operand) (dst : bytes) : nat :=
  match o with Distinct s => length s | Aliased => length dst end.

Definition Xor (dst : bytes) (a b : operand) : bytes * nat :=
  let n := operand_len a dst `min` operand_len b dst `min` length dst in
  (foldl (λ d i, <[i := bxor (operand_at a d i) (operand_at b d i)]> d) dst (seq 0 n), n).

(** ** Permit channels *)
Module Tokens.

(** A buffered [chan struct{}] used as a counting semaphore. *)
Record Tokens := mkTokens { cap : nat; avail : nat }.

(** A channel send or receive; [None] means it would block. *)
Definition send (t : Tokens) : option Tokens :=
  if avail t <? cap t then Some {| cap := cap t; avail := S (avail t) |} else None.
Definition recv (t : Tokens) : option Tokens :=
  match avail t with
  | O => None
  | S k => Some {| cap := cap t; avail := k |}
  end.

Fixpoint fill (n : nat) (t : Tokens) : option Tokens :=
  match n with O => Some t | S n => send t ≫= fill n end.

Definition MakeTokens (n : nat) : option Tokens := fill n {| cap := n; avail := 0 |}.

(** The non-blocking crediting loop shared by the circuit and the streams:
    [for range n { select { case ch <- struct{}{}: default: return } }]. *)
Fixpoint credit (n : nat) (t : Tokens) : Tokens :=
  match n with
  | O => t
  | S n => match send t with Some t' => credit n t' | None => t end
  end.

Definition wf (t : Tokens) : Prop := avail t ≤ cap t.

Lemma fill_spec n t :
  avail t + n ≤ cap t → fill n t = Some {| cap := cap t; avail := avail t + n |}.
Proof.
  revert t. induction n as [|n IH]; intros [c a] H; simpl in *.
  { by rewrite Nat.add_0_r. }
  unfold send. simpl. destruct (Nat.ltb_spec a c); [|lia]. simpl.
  rewrite IH; simpl; [|lia]. by rewrite Nat.add_succ_r.
Qed.

(** Filling a channel to its capacity never blocks. *)
Lemma MakeTokens_full n : MakeTokens n = Some {| cap := n; avail := n |}.
Proof. unfold MakeTokens. rewrite fill_spec; simpl; [done|lia]. Qed.

(** Crediting saturates at the capacity. *)
Lemma credit_spec n t :
  wf t → credit n t = {| cap := cap t; avail := cap t `min` (avail t + n) |}.
Proof.
  revert t. unfold wf. induction n as [|n IH]; intros [c a] H; simpl in *.
  { f_equal. lia. }
  unfold send. simpl. destruct (Nat.ltb_spec a c).
  - rewrite IH; simpl; [f_equal; lia|lia].
  - f_equal. lia.
Qed.

Lemma credit_wf n t : wf t → wf (credit n t).
Proof. intros H. rewrite credit_spec by done. unfold wf. simpl. lia. Qed.

Lemma recv_wf t t' : wf t → recv t = Some t' → wf t' ∧ avail t = S (avail t') ∧ cap t' = cap t.
Proof.
  unfold wf, recv. destruct t as [c [|a]]; simpl; intros; simplify_eq; simpl; lia.
Qed.

End Tokens.

#[export] Hint Resolve Tokens.credit_wf Reader.fixed_wf Reader.Bytes_wf : gotor.
