(* ===== verification/Cell.v ===== *)
(** * [pkg/cell]: the link-cell codec and the relay-cell layout.

    [Cell.Encode]/[ReadCell] are modelled over byte lists, the stream being
    the bytes still to come.  The theorems are the round trips for fixed and
    variable cells, framing of a whole sequence of cells, the size limit on
    variable bodies, and the relay-cell codec. *)

From S2P Require Import Prelude ByteUtil.

Definition PayloadLen : nat := 509.
Definition MaxVariableBody : Z := 16 * 1024.
Definition CircIDLenShort : nat := 2.
Definition CircIDLenWide : nat := 4.

(** ** Link cells *)

(** [type Command uint8]. *)
Notation Command := byte.
Definition CmdPadding : Command := x00.
Definition CmdCreate : Command := x01.
Definition CmdCreated : Command := x02.
Definition CmdRelay : Command := x03.
Definition CmdDestroy : Command := x04.
Definition CmdCreateFast : Command := x05.
Definition CmdCreatedFast : Command := x06.
Definition CmdVersions : Command := x07.
Definition CmdNetinfo : Command := x08.
Definition CmdRelayEarly : Command := x09.
Definition CmdCreate2 : Command := x0a.
Definition CmdCreated2 : Command := x0b.
Definition CmdPaddingNegotiate : Command := x0c.
Definition CmdVPadding : Command := x80.
Definition CmdCerts : Command := x81.
Definition CmdAuthChallenge : Command := x82.
Definition CmdAuthenticate : Command := x83.
Definition CmdAuthorize : Command := x84.

Definition IsVariable (c : Command) : bool :=
  bool_decide (c = CmdVersions) || (128 <=? bval c)%Z.

Record Cell := mkCell { CircID : Z; Cmd : Command; Payload : bytes }.

#[global] Instance Cell_eq_dec : EqDecision Cell.
Proof. solve_decision. Defined.

Definition Encode (c : Cell) (circIDLen : nat) : bytes :=
  let w := Writer.NewWriter (circIDLen + 3 + length (Payload c)) in
  let w := if decide (circIDLen = CircIDLenShort)
           then Writer.U16 w (CircID c) else Writer.U32 w (CircID c) in
  let w := Writer.Byte w (Cmd c) in
  if IsVariable (Cmd c) then
    let w := Writer.U16 w (Z.of_nat (length (Payload c))) in
    let w := Writer.Write w (Payload c) in
    Writer.Bytes w
  else
    let p := Payload c in
    let w := if PayloadLen <=? length p then Writer.Write w (take PayloadLen p)
             else Writer.Write (Writer.Write w p) (zeros (PayloadLen - length p)) in
    Writer.Bytes w.

Inductive cell_error :=
| CellIO (e : io_error)
| BodyTooLarge (n : Z).

(** [ReadCell] on the bytes still to be read: the cell and what follows it. *)
Definition ReadCell (r : bytes) (circIDLen : nat) : outcome cell_error (Cell * bytes) :=
  '(header, r) ← map_err CellIO (ReadFull r (circIDLen + 1));
  let circID := if decide (circIDLen = CircIDLenShort)
                then BE_Uint16 header else BE_Uint32 header in
  cmd ← idx header circIDLen;
  if IsVariable cmd then
    '(lenBuf, r) ← map_err CellIO (ReadFull r 2);
    let n := BE_Uint16 lenBuf in
    if (MaxVariableBody <? n)%Z then Err (BodyTooLarge n)
    else
      '(body, r) ← map_err CellIO (ReadFull r (Z.to_nat n));
      Ok ({| CircID := circID; Cmd := cmd; Payload := body |}, r)
  else
    '(payload, r) ← map_err CellIO (ReadFull r PayloadLen);
    Ok ({| CircID := circID; Cmd := cmd; Payload := payload |}, r).

(** Reading cells until the stream ends or a read fails; [fuel] bounds the
    number of cells. *)
Fixpoint ReadCells (fuel : nat) (r : bytes) (circIDLen : nat) : list Cell * bytes :=
  match fuel with
  | O => ([], r)
  | S fuel =>
      match ReadCell r circIDLen with
      | Ok (c, rest) => let '(cs, rest) := ReadCells fuel rest circIDLen in (c :: cs, rest)
      | _ => ([], r)
      end
  end.

(** ** What a cell looks like after a trip over the wire *)

Definition circ_id_mod (circIDLen : nat) (id : Z) : Z :=
  if decide (circIDLen = CircIDLenShort) then u16 id else u32 id.

Definition pad_payload (p : bytes) : bytes :=
  take PayloadLen p ++ zeros (PayloadLen - length p).

Definition on_wire (circIDLen : nat) (c : Cell) : Cell :=
  {| CircID := circ_id_mod circIDLen (CircID c);
     Cmd := Cmd c;
     Payload := if IsVariable (Cmd c) then Payload c else pad_payload (Payload c) |}.

(** A cell the reader can take back unchanged: the circuit ID fits its
    width, a fixed payload is full, a variable body is within the limit. *)
Definition wf_cell (circIDLen : nat) (c : Cell) : Prop :=
  circ_id_mod circIDLen (CircID c) = CircID c ∧
  if IsVariable (Cmd c) then (Z.of_nat (length (Payload c)) ≤ MaxVariableBody)%Z
  else length (Payload c) = PayloadLen.

Definition id_width (circIDLen : nat) : nat :=
  if decide (circIDLen = CircIDLenShort) then 2 else 4.

Lemma length_pad_payload p : length (pad_payload p) = PayloadLen.
Proof.
  unfold pad_payload, zeros. rewrite length_app, length_take, length_replicate. lia.
Qed.

(** The two branches that write a fixed payload write the padded payload. *)
Lemma write_padded w p :
  Writer.buf (if PayloadLen <=? length p then Writer.Write w (take PayloadLen p)
              else Writer.Write (Writer.Write w p) (zeros (PayloadLen - length p)))
  = Writer.buf w ++ pad_payload p.
Proof.
  unfold pad_payload. destruct (Nat.leb_spec PayloadLen (length p)); simpl.
  - replace (PayloadLen - length p) with 0 by lia. by rewrite app_nil_r.
  - rewrite take_ge by lia. by rewrite app_assoc.
Qed.

(** [Encode] as one concatenation. *)
Lemma Encode_shape c w :
  Encode c w = be_encode (id_width w) (CircID c) ++ [Cmd c] ++
    (if IsVariable (Cmd c)
     then be_encode 2 (Z.of_nat (length (Payload c))) ++ Payload c
     else pad_payload (Payload c)).
Proof.
  unfold Encode, id_width, Writer.Bytes.
  destruct (IsVariable (Cmd c)); [|rewrite write_padded];
    destruct (decide (w = CircIDLenShort)); simpl; by rewrite <-?app_assoc.
Qed.

Lemma Encode_length_fixed c w :
  IsVariable (Cmd c) = false → length (Encode c w) = id_width w + 1 + PayloadLen.
Proof.
  intros Hv. rewrite Encode_shape, Hv, !length_app, length_be_encode, length_pad_payload.
  simpl. lia.
Qed.

Lemma header_fields w id cmd :
  w = CircIDLenShort ∨ w = CircIDLenWide →
  let header := be_encode (id_width w) id ++ [cmd] in
  length header = w + 1 ∧
  (if decide (w = CircIDLenShort) then BE_Uint16 header else BE_Uint32 header)
    = circ_id_mod w id ∧
  idx (E:=cell_error) header w = Ok cmd.
Proof.
  intros Hw header. subst header. rewrite length_app, length_be_encode. simpl.
  unfold id_width, circ_id_mod, BE_Uint16, BE_Uint32.
  destruct Hw as [-> | ->].
  - rewrite !decide_True by done. rewrite take_app_exact by apply length_be_encode.
    rewrite be_decode_encode. split_and!; [done|done|].
    rewrite idx_Ok, lookup_app_r; rewrite length_be_encode; done.
  - rewrite !decide_False by done. rewrite take_app_exact by apply length_be_encode.
    rewrite be_decode_encode. split_and!; [done|done|].
    rewrite idx_Ok, lookup_app_r; rewrite length_be_encode; done.
Qed.

(** The variable-length case covers every length the 2-byte field can carry;
    past [MaxVariableBody] the reader refuses before reading the body. *)
Lemma ReadCell_Encode c w rest :
  w = CircIDLenShort ∨ w = CircIDLenWide →
  (IsVariable (Cmd c) = true → (Z.of_nat (length (Payload c)) < 2 ^ 16)%Z) →
  ReadCell (Encode c w ++ rest) w =
    if IsVariable (Cmd c) && (MaxVariableBody <? Z.of_nat (length (Payload c)))%Z
    then Err (BodyTooLarge (Z.of_nat (length (Payload c))))
    else Ok (on_wire w c, rest).
Proof.
  intros Hw Hlen. rewrite Encode_shape.
  destruct (header_fields w (CircID c) (Cmd c) Hw) as (Hhl&Hid&Hcmd).
  set (tl := if IsVariable (Cmd c) then _ else _).
  rewrite (app_assoc (be_encode _ _)), <-(app_assoc (_ ++ [Cmd c])).
  unfold ReadCell. rewrite ReadFull_app by done. simpl map_err. simpl mbind.
  rewrite Hcmd. simpl mbind. rewrite Hid. subst tl.
  destruct (IsVariable (Cmd c)) eqn:Hv; simpl.
  - rewrite <-app_assoc, ReadFull_app by apply length_be_encode. simpl.
    unfold BE_Uint16. rewrite take_ge by (rewrite length_be_encode; lia).
    rewrite be_decode_encode, Z.mod_small by (specialize (Hlen eq_refl); lia).
    destruct (Z.ltb_spec MaxVariableBody (Z.of_nat (length (Payload c)))); [done|].
    rewrite Nat2Z.id, ReadFull_app by done. simpl. unfold on_wire. by rewrite Hv.
  - rewrite ReadFull_app by apply length_pad_payload. simpl. unfold on_wire. by rewrite Hv.
Qed.

Lemma wf_on_wire w c : wf_cell w c → on_wire w c = c.
Proof.
  intros [Hid Hp]. unfold on_wire. rewrite Hid. destruct c as [id cmd p]; simpl in *.
  destruct (IsVariable cmd); [done|].
  unfold pad_payload. rewrite take_ge, Hp by lia. by rewrite Nat.sub_diag, app_nil_r.
Qed.

Lemma ReadCell_wf w c rest :
  w = CircIDLenShort ∨ w = CircIDLenWide → wf_cell w c →
  ReadCell (Encode c w ++ rest) w = Ok (c, rest).
Proof.
  intros Hw Hc. rewrite ReadCell_Encode; [|done|].
  - rewrite wf_on_wire by done. destruct Hc as [_ Hp].
    destruct (IsVariable (Cmd c)); simpl; [|done].
    by destruct (Z.ltb_spec MaxVariableBody (Z.of_nat (length (Payload c)))); [lia|].
  - destruct Hc as [_ Hp]. destruct (IsVariable (Cmd c)); [|done].
    unfold MaxVariableBody in Hp. lia.
Qed.

Lemma ReadCells_wf (w : nat) (cs : list Cell) (rest : bytes) :
  w = CircIDLenShort ∨ w = CircIDLenWide → Forall (wf_cell w) cs →
  ReadCells (length cs) (mjoin (map (λ c, Encode c w) cs) ++ rest) w = (cs, rest).
Proof.
  intros Hw Hcs. induction Hcs as [|c cs Hc _ IH]; [done|].
  change (mjoin (map _ (c :: cs))) with (Encode c w ++ mjoin (map (λ c, Encode c w) cs)).
  cbn [length ReadCells]. rewrite <-app_assoc, ReadCell_wf by done. by rewrite IH.
Qed.

(** Framing.  Any sequence of well-formed cells written back to back is
    read back as exactly that sequence, for both circuit-ID widths, and the
    bytes that follow them are not consumed by it. *)
Theorem cells_framing_roundtrip (w : nat) (cs : list Cell) (rest : bytes) :
  w = CircIDLenShort ∨ w = CircIDLenWide → Forall (wf_cell w) cs →
  ReadCells (length cs) (mjoin (map (λ c, Encode c w) cs) ++ rest) w = (cs, rest).
Proof. apply ReadCells_wf. Qed.

Lemma cells_framing_roundtrip_witness :
  let cs := [{| CircID := 0; Cmd := CmdVersions; Payload := be_encode 4 262148 |};
             {| CircID := 7; Cmd := CmdDestroy; Payload := zeros PayloadLen |}] in
  ReadCells 2 (mjoin (map (λ c, Encode c CircIDLenShort) cs) ++ [x2a]) CircIDLenShort
    = (cs, [x2a]).
Proof.
  intros cs. apply (cells_framing_roundtrip CircIDLenShort cs [x2a]).
  - by left.
  - repeat constructor; vm_compute; done.
Defined.

(** A cell whose variable body is longer than the limit is refused. *)
Lemma ReadCell_body_limit c w rest :
  w = CircIDLenShort ∨ w = CircIDLenWide → IsVariable (Cmd c) = true →
  (MaxVariableBody < Z.of_nat (length (Payload c)) < 2 ^ 16)%Z →
  ReadCell (Encode c w ++ rest) w = Err (BodyTooLarge (Z.of_nat (length (Payload c)))).
Proof.
  intros Hw Hv [Hlo Hhi]. rewrite ReadCell_Encode, Hv; [|done|].
  - simpl. by destruct (Z.ltb_spec MaxVariableBody (Z.of_nat (length (Payload c)))); [|lia].
  - done.
Qed.

(** What any successful read guarantees about its result. *)
Lemma ReadCell_sound r w c rest :
  ReadCell r w = Ok (c, rest) →
  (if IsVariable (Cmd c) then (Z.of_nat (length (Payload c)) ≤ MaxVariableBody)%Z
   else length (Payload c) = PayloadLen).
Proof.
  unfold ReadCell. intros H. outcome_inv. destruct x as [header r1]. outcome_inv.
  rename x into cmd. destruct (IsVariable cmd) eqn:Hv.
  - outcome_inv. destruct x as [lenBuf r2].
    destruct (Z.ltb_spec MaxVariableBody (BE_Uint16 lenBuf)); [done|].
    outcome_inv. destruct x as [body r3]. simplify_eq/=. rewrite Hv.
    outcome_inv. match goal with H : ReadFull r2 _ = _ |- _ => apply ReadFull_Ok in H as [_ ->] end.
    rewrite Z2Nat.id; [done|]. unfold BE_Uint16. apply be_decode_range.
  - outcome_inv. destruct x as [payload r2]. simplify_eq/=. rewrite Hv.
    outcome_inv. match goal with H : ReadFull r1 _ = _ |- _ => by apply ReadFull_Ok in H as [_ ->] end.
Qed.

(** ** Relay cells *)
Module Relay.

Definition RelayHeaderLen : nat := 11.
Definition RelayDataLen : nat := PayloadLen - RelayHeaderLen.
Definition relayRecognizedOff : nat := 1.
Definition relayStreamIDOff : nat := 3.
Definition relayDigestOff : nat := 5.
Definition relayLengthOff : nat := 9.
Definition relayDataOff : nat := 11.
Definition RelayDigestOffset : nat := relayDigestOff.
Definition RelayDigestLen : nat := 4.
Definition RelayRecognizedOffset : nat := relayRecognizedOff.
Definition RelayRecognizedLen : nat := 2.

(** [type RelayCommand uint8]. *)
Notation RelayCommand := byte.
Definition RelayBegin : RelayCommand := x01.
Definition RelayData : RelayCommand := x02.
Definition RelayEnd : RelayCommand := x03.
Definition RelayConnected : RelayCommand := x04.
Definition RelaySendme : RelayCommand := x05.
Definition RelayExtend : RelayCommand := x06.
Definition RelayExtended : RelayCommand := x07.
Definition RelayTruncate : RelayCommand := x08.
Definition RelayTruncated : RelayCommand := x09.
Definition RelayDrop : RelayCommand := x0a.
Definition RelayResolve : RelayCommand := x0b.
Definition RelayResolved : RelayCommand := x0c.
Definition RelayBeginDir : RelayCommand := x0d.
Definition RelayExtend2 : RelayCommand := x0e.
Definition RelayExtended2 : RelayCommand := x0f.
Definition RelayEstablishIntro : RelayCommand := x20.
Definition RelayEstablishRendezvous : RelayCommand := x21.
Definition RelayIntroduce1 : RelayCommand := x22.
Definition RelayIntroduce2 : RelayCommand := x23.
Definition RelayRendezvous1 : RelayCommand := x24.
Definition RelayRendezvous2 : RelayCommand := x25.
Definition RelayIntroEstablished : RelayCommand := x26.
Definition RelayRendezvousEstablished : RelayCommand := x27.
Definition RelayIntroduceAck : RelayCommand := x28.

Record RelayCell := mkRelayCell {
  Cmd : RelayCommand;
  Recognized : Z;
  StreamID : Z;
  Digest : bytes;   (* [4]byte *)
  Data : bytes
}.

#[global] Instance RelayCell_eq_dec : EqDecision RelayCell.
Proof. solve_decision. Defined.

(** The zero [RelayCell{}]. *)
Definition zeroCell : RelayCell :=
  {| Cmd := x00; Recognized := 0; StreamID := 0; Digest := zeros 4; Data := [] |}.

Definition Encode (rc : RelayCell) : bytes :=
  let buf := zeros PayloadLen in
  let buf := copy_at 0 [Cmd rc] buf in
  let buf := copy_at relayRecognizedOff (be_encode 2 (Recognized rc)) buf in
  let buf := copy_at relayStreamIDOff (be_encode 2 (StreamID rc)) buf in
  let buf := copy_at relayDigestOff (Digest rc) buf in
  let n := length (Data rc) `min` RelayDataLen in
  let buf := copy_at relayLengthOff (be_encode 2 (Z.of_nat n)) buf in
  copy_at relayDataOff (take n (Data rc)) buf.

Definition DecodeRelay (payload : bytes) : option RelayCell :=
  if negb (bool_decide (length payload = PayloadLen)) then None
  else
    let n := BE_Uint16 (drop relayLengthOff payload) in
    if (Z.of_nat RelayDataLen <? n)%Z then None
    else Some
      {| Cmd := nth 0 payload x00;
         Recognized := BE_Uint16 (drop relayRecognizedOff payload);
         StreamID := BE_Uint16 (drop relayStreamIDOff payload);
         Digest := take RelayDigestLen (drop relayDigestOff payload);
         Data := take (Z.to_nat n) (drop relayDataOff payload) |}.

(** *** Layout *)

(** The 509 bytes laid out by [Encode] when the digest has its 4 bytes. *)
Definition layout (cmd : byte) (rec sid : Z) (dig data : bytes) : bytes :=
  [cmd] ++ be_encode 2 rec ++ be_encode 2 sid ++ dig ++
  be_encode 2 (Z.of_nat (length data)) ++ data ++ zeros (RelayDataLen - length data).

Lemma zeros_app n m : zeros (n + m) = zeros n ++ zeros m.
Proof. unfold zeros. apply replicate_add. Qed.

Lemma length_zeros n : length (zeros n) = n.
Proof. unfold zeros. apply length_replicate. Qed.

Lemma Encode_layout rc :
  length (Digest rc) = 4 →
  Encode rc = layout (Cmd rc) (Recognized rc) (StreamID rc) (Digest rc)
                (take RelayDataLen (Data rc)).
Proof.
  intros Hd. unfold Encode, layout. cbv zeta.
  set (d := take (length (Data rc) `min` RelayDataLen) (Data rc)).
  assert (take RelayDataLen (Data rc) = d) as ->.
  { subst d. destruct (Nat.le_gt_cases (length (Data rc)) RelayDataLen).
    - rewrite !take_ge by lia. done.
    - by rewrite Nat.min_r by lia. }
  assert (length d = length (Data rc) `min` RelayDataLen) as Hld.
  { subst d. rewrite length_take. lia. }
  rewrite <-Hld. clearbody d.
  replace (zeros PayloadLen) with
    (zeros 1 ++ zeros 2 ++ zeros 2 ++ zeros 4 ++ zeros 2 ++ zeros (length d) ++
     zeros (RelayDataLen - length d)).
  2: { rewrite <-!zeros_app. f_equal. unfold RelayDataLen, PayloadLen in *. simpl in *. lia. }
  rewrite <-(app_nil_l (zeros 1 ++ _)).
  rewrite (copy_at_next 0), (copy_at_next relayRecognizedOff),
    (copy_at_next relayStreamIDOff), (copy_at_next relayDigestOff),
    (copy_at_next relayLengthOff), (copy_at_next relayDataOff);
    rewrite ?length_app, ?length_be_encode, ?length_zeros, ?Hd; try done.
  rewrite <-!app_assoc. done.
Qed.

Lemma length_layout cmd rec sid dig data :
  length dig = 4 → length data ≤ RelayDataLen →
  length (layout cmd rec sid dig data) = PayloadLen.
Proof.
  intros Hd Hl. unfold layout. rewrite !length_app, !length_be_encode, length_zeros, Hd.
  unfold RelayDataLen, RelayHeaderLen, PayloadLen in *. simpl in *. lia.
Qed.

(** Reading the fields of a layout back at their offsets. *)
Lemma layout_recognized cmd rec sid dig data :
  BE_Uint16 (drop relayRecognizedOff (layout cmd rec sid dig data)) = u16 rec.
Proof.
  unfold layout, BE_Uint16. rewrite (drop_app_exact relayRecognizedOff [cmd]) by done.
  rewrite take_app_exact by apply length_be_encode. apply be_decode_encode.
Qed.

Lemma layout_stream_id cmd rec sid dig data :
  BE_Uint16 (drop relayStreamIDOff (layout cmd rec sid dig data)) = u16 sid.
Proof.
  unfold layout, BE_Uint16. rewrite app_assoc.
  rewrite (drop_app_exact relayStreamIDOff)
    by (rewrite length_app, length_be_encode; done).
  rewrite take_app_exact by apply length_be_encode. apply be_decode_encode.
Qed.

Lemma layout_digest_split cmd rec sid dig data :
  layout cmd rec sid dig data =
    ([cmd] ++ be_encode 2 rec ++ be_encode 2 sid) ++ dig ++
    (be_encode 2 (Z.of_nat (length data)) ++ data ++ zeros (RelayDataLen - length data)).
Proof. unfold layout. by rewrite <-!app_assoc. Qed.

Lemma layout_digest cmd rec sid dig data :
  length dig = 4 →
  take RelayDigestLen (drop relayDigestOff (layout cmd rec sid dig data)) = dig.
Proof.
  intros Hd. rewrite layout_digest_split.
  rewrite drop_app_exact by (rewrite !length_app, !length_be_encode; done).
  by rewrite take_app_exact.
Qed.

Lemma layout_set_digest cmd rec sid dig dig' data :
  length dig = 4 → length dig' = 4 →
  copy_at relayDigestOff dig' (layout cmd rec sid dig data) = layout cmd rec sid dig' data.
Proof.
  intros Hd Hd'. rewrite !layout_digest_split.
  rewrite copy_at_next; [by rewrite <-!app_assoc| |lia].
  rewrite !length_app, !length_be_encode. done.
Qed.

Lemma layout_length cmd rec sid dig data :
  length dig = 4 → length data ≤ RelayDataLen →
  BE_Uint16 (drop relayLengthOff (layout cmd rec sid dig data)) = Z.of_nat (length data).
Proof.
  intros Hd Hl. rewrite layout_digest_split, app_assoc. unfold BE_Uint16.
  rewrite drop_app_exact by (rewrite !length_app, !length_be_encode, Hd; done).
  rewrite take_app_exact by apply length_be_encode. rewrite be_decode_encode.
  apply Z.mod_small. unfold RelayDataLen, RelayHeaderLen, PayloadLen in Hl. simpl in *. lia.
Qed.

Lemma layout_data cmd rec sid dig data :
  length dig = 4 →
  take (length data) (drop relayDataOff (layout cmd rec sid dig data)) = data.
Proof.
  intros Hd. rewrite layout_digest_split, app_assoc, (app_assoc (_ ++ dig)).
  rewrite drop_app_exact by (rewrite !length_app, !length_be_encode, Hd; done).
  apply take_app_length.
Qed.

Lemma DecodeRelay_layout cmd rec sid dig data :
  length dig = 4 → length data ≤ RelayDataLen →
  DecodeRelay (layout cmd rec sid dig data) =
    Some {| Cmd := cmd; Recognized := u16 rec; StreamID := u16 sid;
            Digest := dig; Data := data |}.
Proof.
  intros Hd Hl. unfold DecodeRelay. rewrite length_layout by done.
  rewrite bool_decide_true by done. simpl negb. cbv iota zeta.
  rewrite layout_length by done.
  destruct (Z.ltb_spec (Z.of_nat RelayDataLen) (Z.of_nat (length data))); [lia|].
  by rewrite layout_recognized, layout_stream_id, layout_digest, Nat2Z.id, layout_data.
Qed.

(** What the peer decodes: IDs at 16 bits, data cut at [RelayDataLen]. *)
Definition relay_on_wire (rc : RelayCell) : RelayCell :=
  {| Cmd := Cmd rc; Recognized := u16 (Recognized rc); StreamID := u16 (StreamID rc);
     Digest := Digest rc; Data := take RelayDataLen (Data rc) |}.

(** The relay-cell codec round trip.  [Encode] always fills exactly the
    509-byte payload, and [DecodeRelay] gives the cell back, with the data cut
    to the 498 bytes that fit. *)
Theorem relay_roundtrip (rc : RelayCell) :
  length (Digest rc) = 4 →
  length (Encode rc) = PayloadLen ∧ DecodeRelay (Encode rc) = Some (relay_on_wire rc).
Proof.
  intros Hd. rewrite Encode_layout by done.
  pose proof (length_take_le RelayDataLen (Data rc)).
  split; [by apply length_layout|by apply DecodeRelay_layout].
Qed.

Lemma relay_roundtrip_witness :
  let rc := {| Cmd := RelayData; Recognized := 0; StreamID := 7;
               Digest := [x01; x02; x03; x04]; Data := go"hello" |} in
  length (Encode rc) = PayloadLen ∧ DecodeRelay (Encode rc) = Some rc.
Proof.
  intros rc. split; [apply (relay_roundtrip rc); reflexivity|].
  rewrite (proj2 (relay_roundtrip rc eq_refl)). reflexivity.
Defined.

(** [DecodeRelay] accepts exactly the 509-byte payloads whose length
    field is at most 498, and then the data returned is the declared slice. *)
Theorem DecodeRelay_accepts (p : bytes) :
  (∃ rc, DecodeRelay p = Some rc) ↔
  length p = PayloadLen ∧
  (BE_Uint16 (drop relayLengthOff p) ≤ Z.of_nat RelayDataLen)%Z.
Proof.
  unfold DecodeRelay. destruct (decide (length p = PayloadLen)) as [Hl|Hl].
  - rewrite bool_decide_true by done. simpl.
    destruct (Z.ltb_spec (Z.of_nat RelayDataLen) (BE_Uint16 (drop relayLengthOff p))).
    + split; [naive_solver|lia].
    + naive_solver lia.
  - rewrite bool_decide_false by done. naive_solver.
Qed.

Lemma DecodeRelay_data_length p rc :
  DecodeRelay p = Some rc → length (Data rc) ≤ RelayDataLen ∧ length (Digest rc) = 4.
Proof.
  unfold DecodeRelay. destruct (bool_decide_reflect (length p = PayloadLen)) as [Hl|]; [|done].
  simpl. destruct (Z.ltb_spec (Z.of_nat RelayDataLen) (BE_Uint16 (drop relayLengthOff p))); [done|].
  intros [= <-]. simpl. rewrite !length_take, !length_drop, Hl.
  unfold RelayDigestLen, relayDigestOff, PayloadLen. lia.
Qed.

End Relay.
