(* ===== verification/TorCrypto.v ===== *)
(** * [pkg/torcrypto]: handshakes, keystreams and running digests.

    The primitives of Go's [crypto/...] packages and of
    [filippo.io/edwards25519] are the fields of the class [Crypto]; what the
    code relies on about them is the class [CryptoLaws].  Everything the
    package itself computes with them is defined below. *)

From S2P Require Import Prelude ByteUtil.

(** ** Primitives *)
Class Crypto := {
  (** byte [i] of the AES-CTR keystream for a key and an initial counter *)
  aes_keystream : bytes → bytes → nat → byte;
  sha1 : bytes → bytes;
  sha256 : bytes → bytes;
  sha3_256 : bytes → bytes;
  (** [shake256 msg n]: [n] bytes squeezed after absorbing [msg] *)
  shake256 : bytes → nat → bytes;
  hmac_sha256 : bytes → bytes → bytes;
  (** HKDF-Expand with SHA-256: pseudo-random key, info, length *)
  hkdf_expand : bytes → bytes → nat → bytes;
  (** the X25519 function of a scalar and a point, and the base-point case *)
  x25519 : bytes → bytes → bytes;
  x25519_base : bytes → bytes;
  (** public key, message, signature *)
  ed25519_verify : bytes → bytes → bytes → bool;
  (** decode an edwards25519 point, multiply by a clamped scalar, encode *)
  ed25519_mult : bytes → bytes → option bytes
}.

Class CryptoLaws (C : Crypto) : Prop := {
  sha1_length m : length (sha1 m) = 20;
  sha256_length m : length (sha256 m) = 32;
  sha3_256_length m : length (sha3_256 m) = 32;
  shake256_length m n : length (shake256 m n) = n;
  hmac_sha256_length k m : length (hmac_sha256 k m) = 32;
  hkdf_expand_length k i n : length (hkdf_expand k i n) = n;
  x25519_base_length k : length (x25519_base k) = 32;
  x25519_length k p : length (x25519 k p) = 32;
  (** Diffie-Hellman agreement *)
  x25519_agree a b : x25519 a (x25519_base b) = x25519 b (x25519_base a)
}.

Section TorCrypto.
Context `{C : Crypto}.

(** ** hash.go *)

Definition SHA256 (parts : list bytes) : bytes := sha256 (mjoin parts).
Definition SHA3_256 (parts : list bytes) : bytes := sha3_256 (mjoin parts).
Definition HMACSHA256 (key : bytes) (parts : list bytes) : bytes :=
  hmac_sha256 key (mjoin parts).
Definition SHAKE256 (outLen : nat) (parts : list bytes) : bytes :=
  shake256 (mjoin parts) outLen.

(** ** aes.go *)

(** A [cipher.Stream]: key, initial counter block, and how many keystream
    bytes have been used. *)
Record Stream := mkStream { skey : bytes; siv : bytes; soff : nat }.

Inductive crypto_error :=
| BadAESKeySize
| BadX25519Key
| LowOrderPoint
| BadNodeID
| BadOnionKey
| ShortServerData
| ErrNtorAuth
| HKDFLength
| BadEncKey
| BadAuthKey
| BadServerPK
| ErrHSNtorAuth
| BadBlindPubkey
| BadBlindPoint.

(** [aes.NewCipher] accepts 16-, 24- and 32-byte keys. *)
Definition aes_key_ok (key : bytes) : bool :=
  bool_decide (length key = 16 ∨ length key = 24 ∨ length key = 32).

Definition NewCTRWithIV (key iv : bytes) : outcome crypto_error Stream :=
  if aes_key_ok key then Ok {| skey := key; siv := iv; soff := 0 |}
  else Err BadAESKeySize.

Definition NewCTR (key : bytes) : outcome crypto_error Stream :=
  NewCTRWithIV key (zeros 16).

Fixpoint xor_from (ks : nat → byte) (off : nat) (src : bytes) : bytes :=
  match src with
  | [] => []
  | b :: src => bxor b (ks off) :: xor_from ks (S off) src
  end.

Definition XORKeyStream (s : Stream) (src : bytes) : bytes * Stream :=
  (xor_from (aes_keystream (skey s) (siv s)) (soff s) src,
   {| skey := skey s; siv := siv s; soff := soff s + length src |}).

(** ** digest.go *)

Inductive hash_alg := SHA1 | SHA3.
Definition hash_sum (a : hash_alg) (m : bytes) : bytes :=
  match a with SHA1 => sha1 m | SHA3 => sha3_256 m end.

(** A running hash is its algorithm and the bytes written so far; both hashes
    implement [hash.Cloner], so cloning is copying the record. *)
Record RunningDigest := mkDigest { alg : hash_alg; written : bytes }.

Definition NewRunningDigestSHA1 (seed : bytes) : RunningDigest :=
  {| alg := SHA1; written := seed |}.
Definition NewRunningDigestSHA3 (seed : bytes) : RunningDigest :=
  {| alg := SHA3; written := seed |}.
Definition Update (d : RunningDigest) (cell : bytes) : RunningDigest :=
  {| alg := alg d; written := written d ++ cell |}.
Definition Snapshot (d : RunningDigest) : bytes := hash_sum (alg d) (written d).

Definition VerifyAndCommit (d : RunningDigest) (cellPayload want : bytes)
    : bool * RunningDigest :=
  let clone := Update d cellPayload in
  let sum := Snapshot clone in
  if (length sum <? length want) || negb (bool_decide (take (length want) sum = want))
  then (false, d)
  else (true, clone).

(** ** keys.go *)

Definition digestKeyLen : nat := 20.
Definition aesKeyLen : nat := 16.
Definition NtorKeyMaterialLen : nat :=
  digestKeyLen + digestKeyLen + aesKeyLen + aesKeyLen + digestKeyLen.

Record RelayKeys := mkRelayKeys { Df : bytes; Db : bytes; Kf : bytes; Kb : bytes; KH : bytes }.

Definition SplitNtorKeys (material : bytes) : option RelayKeys :=
  if length material <? NtorKeyMaterialLen then None
  else
    let off := 0 in
    let df := take digestKeyLen (drop off material) in
    let off := off + digestKeyLen in
    let db := take digestKeyLen (drop off material) in
    let off := off + digestKeyLen in
    let kf := take aesKeyLen (drop off material) in
    let off := off + aesKeyLen in
    let kb := take aesKeyLen (drop off material) in
    let off := off + aesKeyLen in
    let kh := take digestKeyLen (drop off material) in
    Some {| Df := df; Db := db; Kf := kf; Kb := kb; KH := kh |}.

(** ** curve.go *)

Definition Curve25519KeyLen : nat := 32.

(** An [X25519KeyPair] is its private scalar. *)
Record X25519KeyPair := mkKeyPair { priv : bytes }.

(** The random scalar drawn by [GenerateX25519] is an argument. *)
Definition GenerateX25519 (random : bytes) : X25519KeyPair := {| priv := random |}.

Definition newX25519FromSeed (seed : bytes) : outcome crypto_error X25519KeyPair :=
  if bool_decide (length seed = Curve25519KeyLen) then Ok {| priv := seed |}
  else Err BadX25519Key.

Definition Public (kp : X25519KeyPair) : bytes := x25519_base (priv kp).

(** [ecdh.NewPublicKey] checks the length; [ecdh.PrivateKey.ECDH] refuses an
    all-zero result. *)
Definition ECDH (kp : X25519KeyPair) (peerPublic : bytes) : outcome crypto_error bytes :=
  if negb (bool_decide (length peerPublic = Curve25519KeyLen)) then Err BadX25519Key
  else
    let secret := x25519 (priv kp) peerPublic in
    if bool_decide (secret = zeros 32) then Err LowOrderPoint else Ok secret.

Definition X25519SharedSecret (privateKey peerPublic : bytes) : outcome crypto_error bytes :=
  kp ← newX25519FromSeed privateKey; ECDH kp peerPublic.

(** ** ntor.go *)

Definition ntorProtoID : bytes := go"ntor-curve25519-sha256-1".
Definition NodeIDLen : nat := 20.
Definition NtorClientDataLen : nat := NodeIDLen + Curve25519KeyLen + Curve25519KeyLen.
Definition NtorServerDataLen : nat := Curve25519KeyLen + 32.
Definition ntorTMac : bytes := ntorProtoID ++ go":mac".
Definition ntorTKey : bytes := ntorProtoID ++ go":key_extract".
Definition ntorTVerify : bytes := ntorProtoID ++ go":verify".
Definition ntorMExpand : bytes := ntorProtoID ++ go":key_expand".
Definition ntorServerL : bytes := go"Server".
Definition ntorProtoB : bytes := ntorProtoID.

Record NtorClient := mkNtorClient {
  eph : X25519KeyPair;
  nodeID : bytes;
  onionKey : bytes
}.

Definition finishClientHandshake (nodeID ntorOnionKey : bytes) (eph : X25519KeyPair)
    : outcome crypto_error (bytes * NtorClient) :=
  if negb (bool_decide (length nodeID = NodeIDLen)) then Err BadNodeID
  else if negb (bool_decide (length ntorOnionKey = Curve25519KeyLen)) then Err BadOnionKey
  else
    let st := {| eph := eph; nodeID := nodeID; onionKey := ntorOnionKey |} in
    Ok (nodeID ++ ntorOnionKey ++ Public eph, st).

Definition NtorClientHandshake (random nodeID ntorOnionKey : bytes)
    : outcome crypto_error (bytes * NtorClient) :=
  finishClientHandshake nodeID ntorOnionKey (GenerateX25519 random).

Definition concat (parts : list bytes) : bytes := mjoin parts.

(** [hkdf.Expand] refuses more than 255 blocks of output. *)
Definition hkdf_Expand (prk info : bytes) (keyLen : nat) : outcome crypto_error bytes :=
  if 255 * 32 <? keyLen then Err HKDFLength else Ok (hkdf_expand prk info keyLen).

Definition Complete (c : NtorClient) (serverData : bytes) (keyLen : nat)
    : outcome crypto_error bytes :=
  if length serverData <? NtorServerDataLen then Err ShortServerData
  else
    serverPK ← slice serverData 0 Curve25519KeyLen;
    authRecv ← slice serverData Curve25519KeyLen (Curve25519KeyLen + 32);
    expYx ← ECDH (eph c) serverPK;
    expBx ← ECDH (eph c) (onionKey c);
    let clientPK := Public (eph c) in
    let secretInput := concat [expYx; expBx; nodeID c; onionKey c; clientPK; serverPK; ntorProtoB] in
    let keySeed := HMACSHA256 ntorTKey [secretInput] in
    let verify := HMACSHA256 ntorTVerify [secretInput] in
    let authInput := concat [verify; nodeID c; onionKey c; serverPK; clientPK; ntorProtoB; ntorServerL] in
    let authExpected := HMACSHA256 ntorTMac [authInput] in
    if negb (bool_decide (authExpected = authRecv)) then Err ErrNtorAuth
    else hkdf_Expand keySeed ntorMExpand keyLen.

End TorCrypto.

(** ** hsntor.go *)
Module HSNtor.
Section HSNtor.
Context `{C : Crypto}.

Definition hsNtorProtoID : bytes := go"tor-hs-ntor-curve25519-sha3-256-1".
Definition hsKeyLen : nat := 32.
Definition hsMacLen : nat := 32.
Definition hsE2EKeyMaterialLen : nat := 2 * 32 + 2 * 32.
Definition hsTEnc : bytes := hsNtorProtoID ++ go":hs_key_extract".
Definition hsTVerify : bytes := hsNtorProtoID ++ go":hs_verify".
Definition hsTMac : bytes := hsNtorProtoID ++ go":hs_mac".
Definition hsMExpand : bytes := hsNtorProtoID ++ go":hs_key_expand".
Definition hsProtoB : bytes := hsNtorProtoID.
Definition hsServerL : bytes := go"Server".
Definition Ed25519PubKeyLen : nat := 32.

Definition hsMac (key : bytes) (msg : list bytes) : bytes :=
  SHA3_256 ([be_encode 8 (Z.of_nat (length key)); key] ++ msg).

Definition HSMac (key : bytes) (msg : list bytes) : bytes := hsMac key msg.

Record HSNtorClient := mkHSNtorClient {
  eph : X25519KeyPair;
  encKey : bytes;
  authKey : bytes;
  clientX : bytes
}.

(** Returns ENC_KEY, MAC_KEY, X and the state. *)
Definition hsNtorIntroWith (serviceEncKey authKey subcredential : bytes) (eph : X25519KeyPair)
    : outcome crypto_error (bytes * bytes * bytes * HSNtorClient) :=
  if negb (bool_decide (length serviceEncKey = Curve25519KeyLen)) then Err BadEncKey
  else if negb (bool_decide (length authKey = Ed25519PubKeyLen)) then Err BadAuthKey
  else
    let st := {| eph := eph; encKey := serviceEncKey; authKey := authKey;
                 clientX := Public eph |} in
    expBx ← ECDH eph serviceEncKey;
    let introSecret := concat [expBx; authKey; clientX st; serviceEncKey; hsProtoB] in
    let hsKeys := SHAKE256 (hsKeyLen + hsMacLen) [introSecret; hsTEnc; hsMExpand; subcredential] in
    encK ← slice hsKeys 0 hsKeyLen;
    macK ← slice hsKeys hsKeyLen (hsKeyLen + hsMacLen);
    Ok (encK, macK, clientX st, st).

Definition HSNtorClientIntro (random serviceEncKey authKey subcredential : bytes)
    : outcome crypto_error (bytes * bytes * bytes * HSNtorClient) :=
  hsNtorIntroWith serviceEncKey authKey subcredential (GenerateX25519 random).

Definition Finish (c : HSNtorClient) (serverY authRecv : bytes) : outcome crypto_error bytes :=
  if negb (bool_decide (length serverY = Curve25519KeyLen)) then Err BadServerPK
  else
    expYx ← ECDH (eph c) serverY;
    expBx ← ECDH (eph c) (encKey c);
    let rendSecret := concat [expYx; expBx; authKey c; encKey c; clientX c; serverY; hsProtoB] in
    let seed := hsMac rendSecret [hsTEnc] in
    let verify := hsMac rendSecret [hsTVerify] in
    let authInput := concat [verify; authKey c; encKey c; serverY; clientX c; hsProtoB; hsServerL] in
    let authExpected := hsMac authInput [hsTMac] in
    if negb (bool_decide (authExpected = authRecv)) then Err ErrHSNtorAuth
    else Ok seed.

Definition HSNtorExpandKeys (ntorKeySeed : bytes) : outcome crypto_error (bytes * bytes * bytes * bytes) :=
  let k := SHAKE256 hsE2EKeyMaterialLen [ntorKeySeed; hsMExpand] in
  df ← slice k 0 32; db ← slice k 32 64; kf ← slice k 64 96; kb ← slice k 96 128;
  Ok (df, db, kf, kb).

End HSNtor.
End HSNtor.

(** ** blind.go *)
Module Blind.
Section Blind.
Context `{C : Crypto}.

Definition Ed25519PubKeyLen : nat := 32.
Definition blindString : bytes := go"Derive temporary signing key" ++ [x00].
Definition ed25519Basepoint : bytes :=
  go"(15112221349535400772501151409588531511454012693041857206046113283949847762202, 46316835694926478169428394003475163141307993866256225615783033603165251855960)".
Definition keyBlindPrefix : bytes := go"key-blind".

Definition byte_op (f : Z → Z) (i : nat) (h : bytes) : outcome crypto_error bytes :=
  b ← idx h i; Ok (<[i := to_byte (f (bval b))]> h).

Definition blindingFactor (pubkey : bytes) (periodNumber periodLength : Z)
    : outcome crypto_error bytes :=
  let nonce := keyBlindPrefix ++ be_encode 8 periodNumber ++ be_encode 8 periodLength in
  let h := SHA3_256 [blindString; pubkey; ed25519Basepoint; nonce] in
  h ← byte_op (λ b, Z.land b 248) 0 h;
  h ← byte_op (λ b, Z.land b 63) 31 h;
  byte_op (λ b, Z.lor b 64) 31 h.

Definition BlindPublicKey (pubkey : bytes) (periodNumber periodLength : Z)
    : outcome crypto_error bytes :=
  if negb (bool_decide (length pubkey = Ed25519PubKeyLen)) then Err BadBlindPubkey
  else
    h ← blindingFactor pubkey periodNumber periodLength;
    match ed25519_mult h pubkey with
    | Some aprime => Ok aprime
    | None => Err BadBlindPoint
    end.

End Blind.
End Blind.

(** ** Keystreams: decryption undoes encryption, and the counter persists *)
Section Facts.
Context `{C : Crypto}.

Lemma length_xor_from ks off src : length (xor_from ks off src) = length src.
Proof. revert off. induction src; intros; simpl; auto. Qed.

Lemma xor_from_involutive ks off src : xor_from ks off (xor_from ks off src) = src.
Proof.
  revert off. induction src as [|b src IH]; intros off; simpl; [done|].
  by rewrite bxor_involutive, IH.
Qed.

Lemma xor_from_app ks off a b :
  xor_from ks off (a ++ b) = xor_from ks off a ++ xor_from ks (off + length a) b.
Proof.
  revert off. induction a as [|x a IH]; intros off; simpl.
  - by rewrite Nat.add_0_r.
  - rewrite IH. by rewrite Nat.add_succ_r.
Qed.

Lemma length_XORKeyStream s src : length (XORKeyStream s src).1 = length src.
Proof. apply length_xor_from. Qed.

(** Two streams in the same state: what one encrypts the other decrypts, and
    they stay in the same state. *)
Lemma XORKeyStream_inverse s src :
  XORKeyStream s (XORKeyStream s src).1 = (src, (XORKeyStream s src).2).
Proof.
  unfold XORKeyStream. simpl. by rewrite xor_from_involutive, length_xor_from.
Qed.

(** ** Running digests *)

Lemma VerifyAndCommit_true d p want d' :
  VerifyAndCommit d p want = (true, d') ↔
  d' = Update d p ∧ take (length want) (Snapshot d') = want.
Proof.
  unfold VerifyAndCommit.
  destruct (Nat.ltb_spec (length (Snapshot (Update d p))) (length want)) as [Hl|Hl]; simpl.
  - split; [done|]. intros [-> He]. apply (f_equal length) in He.
    rewrite length_take in He. lia.
  - destruct (bool_decide_reflect (take (length want) (Snapshot (Update d p)) = want));
      simpl; naive_solver.
Qed.

Lemma VerifyAndCommit_false d p want d' :
  VerifyAndCommit d p want = (false, d') → d' = d.
Proof. unfold VerifyAndCommit. destruct (_ || _); naive_solver. Qed.

Context `{L : !CryptoLaws C}.

Lemma length_Snapshot d : 20 ≤ length (Snapshot d).
Proof.
  unfold Snapshot. destruct (alg d); simpl.
  - by rewrite sha1_length.
  - rewrite sha3_256_length. lia.
Qed.

Lemma length_take_Snapshot n d : n ≤ 20 → length (take n (Snapshot d)) = n.
Proof. intros. rewrite length_take. pose proof (length_Snapshot d). lia. Qed.

End Facts.

(** ** ntor *)
Section Ntor.
Context `{C : Crypto}.

(** The relay side of ntor v1, as the repository's tests implement it from the
    specification: [ntorServerHandshake] in torcrypto_test.go. [y] is the
    relay's ephemeral key pair. *)
Definition ntorServerHandshake (nid : bytes) (serverNtor y : X25519KeyPair)
    (clientData : bytes) (keyLen : nat) : outcome crypto_error (bytes * bytes) :=
  if negb (bool_decide (length clientData = NtorClientDataLen)) then Err ShortServerData
  else
    gotNodeID ← slice clientData 0 NodeIDLen;
    b ← slice clientData NodeIDLen (NodeIDLen + Curve25519KeyLen);
    x ← slice clientData (NodeIDLen + Curve25519KeyLen) (length clientData);
    if negb (bool_decide (gotNodeID = nid)) then Err BadNodeID
    else if negb (bool_decide (b = Public serverNtor)) then Err BadOnionKey
    else
      expXy ← ECDH y x;
      expXb ← ECDH serverNtor x;
      let ypk := Public y in
      let secretInput := concat [expXy; expXb; nid; Public serverNtor; x; ypk; ntorProtoB] in
      let keySeed := HMACSHA256 ntorTKey [secretInput] in
      let verify := HMACSHA256 ntorTVerify [secretInput] in
      let authInput := concat [verify; nid; Public serverNtor; ypk; x; ntorProtoB; ntorServerL] in
      let auth := HMACSHA256 ntorTMac [authInput] in
      keys ← hkdf_Expand keySeed ntorMExpand keyLen;
      Ok (ypk ++ auth, keys).

(** The AUTH tag the client expects for a server public key and the two
    shared secrets. *)
Definition ntor_auth (c : NtorClient) (serverPK expYx expBx : bytes) : bytes :=
  let clientPK := Public (eph c) in
  let secretInput := concat [expYx; expBx; nodeID c; onionKey c; clientPK; serverPK; ntorProtoB] in
  let verify := HMACSHA256 ntorTVerify [secretInput] in
  HMACSHA256 ntorTMac
    [concat [verify; nodeID c; onionKey c; serverPK; clientPK; ntorProtoB; ntorServerL]].

Context `{L : !CryptoLaws C}.

Lemma ECDH_agree a b : ECDH a (Public b) = ECDH b (Public a).
Proof.
  unfold ECDH, Public. rewrite !x25519_base_length, x25519_agree. done.
Qed.

Lemma client_data_slices nid pk x :
  length nid = NodeIDLen → length pk = Curve25519KeyLen → length x = Curve25519KeyLen →
  let d := nid ++ pk ++ x in
  length d = NtorClientDataLen ∧
  slice (E:=crypto_error) d 0 NodeIDLen = Ok nid ∧
  slice (E:=crypto_error) d NodeIDLen (NodeIDLen + Curve25519KeyLen) = Ok pk ∧
  slice (E:=crypto_error) d (NodeIDLen + Curve25519KeyLen) (length d) = Ok x.
Proof.
  intros Hn Hp Hx d. assert (length d = NtorClientDataLen) as Hd.
  { subst d. rewrite !length_app, Hn, Hp, Hx. done. }
  rewrite Hd. split; [done|]. rewrite !slice_in_range by (rewrite ?Hd; compute; lia).
  subst d. split_and!; f_equal.
  - rewrite drop_0. by apply take_app_exact.
  - rewrite drop_app_exact by done. rewrite take_app_exact; [done|]. rewrite Hp. done.
  - rewrite app_assoc, drop_app_exact by (rewrite length_app, Hn, Hp; done).
    apply take_ge. rewrite Hx. done.
Qed.

Lemma server_data_slices y auth :
  length y = Curve25519KeyLen → length auth = 32 →
  let d := y ++ auth in
  length d = NtorServerDataLen ∧
  slice (E:=crypto_error) d 0 Curve25519KeyLen = Ok y ∧
  slice (E:=crypto_error) d Curve25519KeyLen (Curve25519KeyLen + 32) = Ok auth.
Proof.
  intros Hy Ha d. assert (length d = NtorServerDataLen) as Hd.
  { subst d. rewrite !length_app, Hy, Ha. done. }
  split; [done|]. rewrite !slice_in_range by (rewrite ?Hd; compute; lia).
  subst d. split; f_equal.
  - rewrite drop_0. by apply take_app_exact.
  - rewrite drop_app_exact by done. apply take_ge. rewrite Ha. compute; lia.
Qed.

(** The client's side of an honest run, step by step. *)
Lemma ntor_honest_run (nid random : bytes) (server y : X25519KeyPair)
    (clientData serverData keys : bytes) (st : NtorClient) (keyLen : nat) :
  NtorClientHandshake random nid (Public server) = Ok (clientData, st) →
  ntorServerHandshake nid server y clientData keyLen = Ok (serverData, keys) →
  length clientData = NtorClientDataLen ∧ length serverData = NtorServerDataLen ∧
  Complete st serverData keyLen = Ok keys.
Proof.
  unfold NtorClientHandshake, finishClientHandshake. set (x := GenerateX25519 random).
  destruct (bool_decide_reflect (length nid = NodeIDLen)) as [Hn|]; [|done].
  destruct (bool_decide_reflect (length (Public server) = Curve25519KeyLen)) as [Hp|]; [|done].
  simpl. intros [= <- <-].
  assert (length (Public x) = Curve25519KeyLen) as Hx by apply x25519_base_length.
  destruct (client_data_slices nid (Public server) (Public x)) as (Hl&H1&H2&H3); [done..|].
  unfold ntorServerHandshake. rewrite Hl, bool_decide_true by done. rewrite Hl in H3.
  osimpl. rewrite H1. osimpl. rewrite H2. osimpl. rewrite H3. osimpl.
  rewrite !bool_decide_true by done. osimpl.
  intros H. outcome_inv.
  rename x0 into expXy, x1 into expXb, H0 into HXy, H4 into HXb.
  assert (length (Public y) = Curve25519KeyLen) as Hy by apply x25519_base_length.
  destruct (server_data_slices (Public y) (ntor_auth
    {| eph := x; nodeID := nid; onionKey := Public server |} (Public y) expXy expXb))
    as (Hsl&S1&S2); [done|apply hmac_sha256_length|].
  split; [done|]. split; [exact Hsl|].
  unfold Complete.
  unfold ntor_auth in Hsl, S1, S2. simpl eph in *. simpl nodeID in *. simpl onionKey in *.
  rewrite Hsl, Nat.ltb_irrefl.
  rewrite S1. osimpl. rewrite S2. osimpl.
  rewrite (ECDH_agree x y), (ECDH_agree x server), HXy, HXb. osimpl.
  by rewrite bool_decide_true by done.
Qed.

(** The ntor v1 handshake.  Whatever a relay following the specification
    answers to the client's CREATE2/EXTEND2 data, the client accepts it and
    derives exactly the relay's key material. *)
Theorem ntor_agreement (nid random : bytes) (server y : X25519KeyPair)
    (clientData serverData keys : bytes) (st : NtorClient) (keyLen : nat) :
  NtorClientHandshake random nid (Public server) = Ok (clientData, st) →
  ntorServerHandshake nid server y clientData keyLen = Ok (serverData, keys) →
  length clientData = NtorClientDataLen ∧ length serverData = NtorServerDataLen ∧
  Complete st serverData keyLen = Ok keys.
Proof. apply ntor_honest_run. Qed.

End Ntor.
