(* ===== verification/ToyCrypto.v ===== *)
(** * A concrete instance of the cryptographic interface.

    Arithmetic stand-ins with the right lengths and a commutative
    Diffie-Hellman function.  They satisfy [CryptoLaws], so theorems that
    assume the laws are not vacuous, and they compute, so the model can be run
    on concrete inputs. *)

From S2P Require Import Prelude ByteUtil TorCrypto.

Definition toy_sum (m : bytes) : Z :=
  foldl (λ a b, (a * 31 + bval b) mod 65521)%Z 1%Z m.
Definition toy_hash (n : nat) (salt : Z) (m : bytes) : bytes :=
  be_encode n (toy_sum m + salt)%Z.

#[export] Instance toy_crypto : Crypto := {|
  aes_keystream k iv i := to_byte (be_decode k + be_decode iv + 31 * Z.of_nat i + 7)%Z;
  sha1 m := toy_hash 20 1 m;
  sha256 m := toy_hash 32 2 m;
  sha3_256 m := toy_hash 32 3 m;
  shake256 m n := toy_hash n 4 m;
  hmac_sha256 k m := toy_hash 32 5 (k ++ m);
  hkdf_expand k i n := toy_hash n 6 (k ++ i);
  x25519 k p := be_encode 32 (be_decode k + be_decode p)%Z;
  x25519_base k := be_encode 32 (be_decode k);
  ed25519_verify pk m sig := bool_decide (sig = toy_hash 64 (be_decode pk) m);
  ed25519_mult h p := Some (be_encode 32 (be_decode h * be_decode p)%Z)
|}.

Lemma toy_agree a b :
  be_encode 32 (be_decode a + be_decode (be_encode 32 (be_decode b)))%Z =
  be_encode 32 (be_decode b + be_decode (be_encode 32 (be_decode a)))%Z.
Proof.
  rewrite !be_decode_encode.
  rewrite <-(be_encode_mod 32 (be_decode a + _)), <-(be_encode_mod 32 (be_decode b + _)).
  f_equal. rewrite !Zplus_mod_idemp_r. f_equal. lia.
Qed.

#[export] Instance toy_laws : CryptoLaws toy_crypto.
Proof.
  constructor; intros; try apply length_be_encode. apply toy_agree.
Qed.

(** ntor runs end to end on concrete keys. *)
Lemma ntor_agreement_witness :
  let nid := be_encode 20 77 in
  let server := {| priv := be_encode 32 5 |} in
  let y := {| priv := be_encode 32 9 |} in
  match NtorClientHandshake (be_encode 32 3) nid (Public server) with
  | Ok (clientData, st) =>
      match ntorServerHandshake nid server y clientData NtorKeyMaterialLen with
      | Ok (serverData, keys) => Complete st serverData NtorKeyMaterialLen = Ok keys
      | _ => False
      end
  | _ => False
  end.
Proof.
  intros nid server y.
  destruct (NtorClientHandshake _ _ _) as [[cd st]| |] eqn:E1;
    [|vm_compute in E1; discriminate..].
  destruct (ntorServerHandshake _ _ _ _ _) as [[sd keys]| |] eqn:E2.
  - exact (proj2 (proj2 (ntor_agreement _ _ _ _ _ _ _ _ _ E1 E2))).
  - vm_compute in E1. injection E1 as <- <-. vm_compute in E2. discriminate.
  - vm_compute in E1. injection E1 as <- <-. vm_compute in E2. discriminate.
Defined.
