(* ===== verification/GoNet.v ===== *)
(** * The parts of Go's [strconv] and [net] the program uses on addresses.

    Decimal formatting and parsing, [net.SplitHostPort]/[net.JoinHostPort],
    [net.ParseIP] (dotted and colon forms, by [netip.ParseAddr]'s algorithm),
    [IP.To4] and the dotted form of [IP.String]. *)

From S2P Require Import Prelude ByteUtil.

(** ** Decimal numbers *)

Definition ch (c : Ascii.ascii) : byte := byte_of_ascii c.
Definition is_digit (b : byte) : bool := (48 <=? bval b)%Z && (bval b <=? 57)%Z.
Definition digit_val (b : byte) : Z := (bval b - 48)%Z.
Definition digit_byte (d : Z) : byte := to_byte (48 + d)%Z.

(** [strconv.Itoa] of a non-negative number; [fuel] bounds the digits. *)
Fixpoint itoa_fuel (fuel : nat) (v : Z) : bytes :=
  match fuel with
  | O => []
  | S fuel =>
      (if (v <? 10)%Z then [] else itoa_fuel fuel (v / 10)) ++ [digit_byte (v mod 10)]
  end.
Definition Itoa (v : Z) : bytes :=
  if (v <? 0)%Z then ch "-" :: itoa_fuel 20 (- v) else itoa_fuel 20 v.

(** Value of a digit string, [None] on any other byte. *)
Fixpoint digits_val (acc : Z) (s : bytes) : option Z :=
  match s with
  | [] => Some acc
  | b :: s => if is_digit b then digits_val (acc * 10 + digit_val b) s else None
  end.

(** [strconv.ParseUint(s, 10, bits)]; [None] is any error. *)
Definition ParseUint (bits : Z) (s : bytes) : option Z :=
  match s with
  | [] => None
  | _ => v ← digits_val 0 s; if (v <? 2 ^ bits)%Z then Some v else None
  end.

(** [strconv.Atoi] of a 64-bit [int]. *)
Definition Atoi (s : bytes) : option Z :=
  let in_range (v : Z) := if (- 2 ^ 63 <=? v)%Z && (v <? 2 ^ 63)%Z then Some v else None in
  match s with
  | [] => None
  | c :: t =>
      if decide (c = ch "-") then
        match t with [] => None | _ => v ← digits_val 0 t; in_range (- v)%Z end
      else if decide (c = ch "+") then
        match t with [] => None | _ => v ← digits_val 0 t; in_range v end
      else v ← digits_val 0 s; in_range v
  end.

(** ** Searching byte strings *)

Fixpoint IndexByte (s : bytes) (c : byte) : option nat :=
  match s with
  | [] => None
  | b :: s => if decide (b = c) then Some 0 else S <$> IndexByte s c
  end.

Fixpoint LastIndexByte (s : bytes) (c : byte) : option nat :=
  match s with
  | [] => None
  | b :: s => match LastIndexByte s c with
              | Some i => Some (S i)
              | None => if decide (b = c) then Some 0 else None
              end
  end.

Definition contains_byte (s : bytes) (c : byte) : bool :=
  match IndexByte s c with Some _ => true | None => false end.

(** ** Host and port *)

Inductive addr_error := MissingPort | TooManyColons | MissingBracket | UnexpectedBracket.

Definition SplitHostPort (hp : bytes) : outcome addr_error (bytes * bytes) :=
  match LastIndexByte hp (ch ":") with
  | None => Err MissingPort
  | Some i =>
      b0 ← idx hp 0;
      '(host, j, k) ←
        (if decide (b0 = ch "[") then
           match IndexByte hp (ch "]") with
           | None => Err MissingBracket
           | Some e =>
               if decide (e + 1 = length hp) then Err MissingPort
               else if decide (e + 1 = i) then
                 host ← slice hp 1 e; Ok (host, 1, e + 1)
               else
                 c ← idx hp (e + 1);
                 if decide (c = ch ":") then Err TooManyColons else Err MissingPort
           end
         else
           host ← slice hp 0 i;
           if contains_byte host (ch ":") then Err TooManyColons else Ok (host, 0, 0));
      if contains_byte (drop j hp) (ch "[") then Err UnexpectedBracket
      else if contains_byte (drop k hp) (ch "]") then Err UnexpectedBracket
      else Ok (host, drop (i + 1) hp)
  end.

Definition JoinHostPort (host port : bytes) : bytes :=
  if contains_byte host (ch ":")
  then [ch "["] ++ host ++ go"]:" ++ port
  else host ++ [ch ":"] ++ port.

(** ** IP addresses *)

(** [net.IP] is a byte slice: 4 or 16 bytes, or [nil] ([None]). *)
Definition v4InV6Prefix : bytes := zeros 10 ++ [xff; xff].

(** [parseIPv4Fields]: state is the value, the number of digits seen in the
    current octet, the finished octets, and whether the previous byte was a
    dot (or there was none). *)
Fixpoint parse_v4 (s : bytes) (val : Z) (digLen : nat) (fields : bytes) (after_dot : bool)
    : option bytes :=
  match s with
  | [] => if decide (length fields = 3) then Some (fields ++ [to_byte val]) else None
  | c :: t =>
      if is_digit c then
        if bool_decide (digLen = 1) && (val =? 0)%Z then None
        else
          let val := (val * 10 + digit_val c)%Z in
          if (255 <? val)%Z then None else parse_v4 t val (S digLen) fields false
      else if decide (c = ch ".") then
        if after_dot || bool_decide (t = []) || bool_decide (length fields = 3) then None
        else parse_v4 t 0 0 (fields ++ [to_byte val]) true
      else None
  end.
Definition parseIPv4Fields (s : bytes) : option bytes := parse_v4 s 0 0 [] true.

Definition hex_val (b : byte) : option Z :=
  let v := bval b in
  if (48 <=? v)%Z && (v <=? 57)%Z then Some (v - 48)%Z
  else if (97 <=? v)%Z && (v <=? 102)%Z then Some (v - 87)%Z
  else if (65 <=? v)%Z && (v <=? 70)%Z then Some (v - 55)%Z
  else None.

(** The hex digits at the head of a group: their value, their number and the
    rest; [None] when there are more than four. *)
Fixpoint hex_group (s : bytes) (acc : Z) (off : nat) : option (Z * nat * bytes) :=
  match s with
  | [] => Some (acc, off, s)
  | c :: t =>
      match hex_val c with
      | Some d => if 3 <? off then None else hex_group t (acc * 16 + d)%Z (S off)
      | None => Some (acc, off, s)
      end
  end.

(** The group loop of [parseIPv6]: bytes so far, position of the ellipsis, and
    the rest of the string.  Each turn adds two bytes, so 8 turns suffice. *)
Fixpoint parse_v6_groups (fuel : nat) (s : bytes) (ip : bytes) (ell : option nat)
    : option (bytes * option nat) :=
  match fuel with
  | O => if decide (s = []) then Some (ip, ell) else None
  | S fuel =>
      '(acc, off, rest) ← hex_group s 0 0;
      if decide (off = 0) then None
      else match rest with
      | c :: _ =>
          if decide (c = ch ".") then
            if bool_decide (ell = None) && negb (bool_decide (length ip = 12)) then None
            else if 16 <? length ip + 4 then None
            else v4 ← parseIPv4Fields s; Some (ip ++ v4, ell)
          else
            let ip := ip ++ be_encode 2 acc in
            if negb (bool_decide (c = ch ":")) then None
            else match drop 1 rest with
            | [] => None
            | c2 :: t =>
                if decide (c2 = ch ":") then
                  match ell with
                  | Some _ => None
                  | None =>
                      match t with
                      | [] => Some (ip, Some (length ip))
                      | _ => parse_v6_groups fuel t ip (Some (length ip))
                      end
                  end
                else parse_v6_groups fuel (c2 :: t) ip ell
            end
      | [] => Some (ip ++ be_encode 2 acc, ell)
      end
  end.

Definition expand_ellipsis (ip : bytes) (ell : option nat) : option bytes :=
  if length ip <? 16 then
    match ell with
    | None => None
    | Some e => Some (take e ip ++ zeros (16 - length ip) ++ drop e ip)
    end
  else match ell with Some _ => None | None => Some ip end.

Definition parseIPv6 (s : bytes) : option bytes :=
  if contains_byte s (ch "%") then None
  else
    let lead := bool_decide (take 2 s = [ch ":"; ch ":"]) in
    let s' := if lead then drop 2 s else s in
    let ell := if lead then Some 0 else None in
    if lead && bool_decide (s' = []) then Some (zeros 16)
    else '(ip, ell) ← parse_v6_groups 8 s' [] ell; expand_ellipsis ip ell.

(** The first of [.], [:] or [%] decides the form. *)
Fixpoint addr_form (s : bytes) : option bool :=
  match s with
  | [] => None
  | c :: t => if decide (c = ch ".") then Some true
              else if decide (c = ch ":") then Some false
              else if decide (c = ch "%") then None
              else addr_form t
  end.

(** [net.ParseIP]: the 16-byte form. *)
Definition ParseIP (s : bytes) : option bytes :=
  match addr_form s with
  | Some true => v4 ← parseIPv4Fields s; Some (v4InV6Prefix ++ v4)
  | Some false => parseIPv6 s
  | None => None
  end.

(** [IP.To4] and [IP.To16] (of [nil] they are [nil]). *)
Definition To4 (ip : option bytes) : option bytes :=
  b ← ip;
  if decide (length b = 4) then Some b
  else if decide (length b = 16 ∧ take 12 b = v4InV6Prefix) then Some (drop 12 b)
  else None.
Definition To16 (ip : option bytes) : option bytes :=
  b ← ip;
  if decide (length b = 4) then Some (v4InV6Prefix ++ b)
  else if decide (length b = 16) then Some b
  else None.

(** The dotted form [IP.String] gives a 4-byte address. *)
Definition dotted (a b c d : byte) : bytes :=
  Itoa (bval a) ++ [ch "."] ++ Itoa (bval b) ++ [ch "."] ++
  Itoa (bval c) ++ [ch "."] ++ Itoa (bval d).

(** ** Facts *)

Lemma IndexByte_None s c : IndexByte s c = None ↔ c ∉ s.
Proof.
  induction s as [|b s IH]; simpl; [set_solver|].
  rewrite not_elem_of_cons. case_decide; [naive_solver|].
  destruct (IndexByte s c); simpl; naive_solver.
Qed.

Lemma contains_byte_false s c : contains_byte s c = false ↔ c ∉ s.
Proof.
  unfold contains_byte. rewrite <-IndexByte_None. destruct (IndexByte s c); naive_solver.
Qed.

Lemma LastIndexByte_None s c : c ∉ s → LastIndexByte s c = None.
Proof.
  induction s as [|b s IH]; simpl; [done|]. rewrite not_elem_of_cons. intros [? ?].
  rewrite IH by done. by rewrite decide_False.
Qed.

Lemma LastIndexByte_app s c t :
  c ∉ t → LastIndexByte (s ++ [c] ++ t) c = Some (length s).
Proof.
  intros Ht. induction s as [|b s IH]; simpl.
  - rewrite LastIndexByte_None by done. by rewrite decide_True.
  - simpl in IH. by rewrite IH.
Qed.

(** A host or port with none of the separator bytes. *)
Definition plain (s : bytes) : Prop := ch ":" ∉ s ∧ ch "[" ∉ s ∧ ch "]" ∉ s.

Lemma SplitHostPort_plain host port :
  plain host → plain port →
  SplitHostPort (host ++ [ch ":"] ++ port) = Ok (host, port).
Proof.
  intros (H1&H2&H3) (P1&P2&P3). unfold SplitHostPort.
  rewrite LastIndexByte_app by done.
  set (hp := host ++ [ch ":"] ++ port).
  assert (ch "[" ∉ hp ∧ ch "]" ∉ hp) as [Hl Hr].
  { subst hp. rewrite !not_elem_of_app, !list_elem_of_singleton. repeat split; done. }
  destruct (idx_in_range (E:=addr_error) hp 0) as [b0 Hb0].
  { subst hp. rewrite !length_app. simpl. lia. }
  rewrite Hb0. osimpl. rewrite decide_False.
  2: { intros ->. apply Hl. apply idx_Ok in Hb0. by eapply list_elem_of_lookup_2. }
  rewrite slice_in_range by (subst hp; rewrite ?length_app; lia). osimpl.
  rewrite drop_0, Nat.sub_0_r. subst hp. rewrite take_app_length.
  rewrite (proj2 (contains_byte_false host _) H1). osimpl. rewrite !drop_0.
  rewrite !(proj2 (contains_byte_false _ _)) by done. do 2 f_equal.
  rewrite app_assoc. apply drop_app_exact. rewrite length_app. done.
Qed.

Lemma JoinHostPort_plain host port :
  ch ":" ∉ host → JoinHostPort host port = host ++ [ch ":"] ++ port.
Proof. intros H. unfold JoinHostPort. by rewrite (proj2 (contains_byte_false _ _) H). Qed.

Lemma digits_val_app acc a b :
  digits_val acc (a ++ b) = digits_val acc a ≫= λ acc', digits_val acc' b.
Proof.
  revert acc. induction a as [|c a IH]; intros acc; simpl; [done|].
  destruct (is_digit c); [apply IH|done].
Qed.

Lemma bval_digit_byte d : (0 ≤ d < 10)%Z → bval (digit_byte d) = (48 + d)%Z.
Proof. intros. unfold digit_byte. rewrite bval_to_byte. apply Z.mod_small. lia. Qed.

Lemma is_digit_byte d : (0 ≤ d < 10)%Z → is_digit (digit_byte d) = true.
Proof.
  intros. unfold is_digit. rewrite bval_digit_byte by done.
  apply andb_true_iff. rewrite !Z.leb_le. lia.
Qed.

Lemma itoa_fuel_val n v :
  (0 ≤ v < 10 ^ Z.of_nat n)%Z → n ≠ 0 → digits_val 0 (itoa_fuel n v) = Some v.
Proof.
  revert v. induction n as [|n IH]; intros v Hv Hn; [done|]. simpl.
  rewrite Nat2Z.inj_succ, Z.pow_succ_r in Hv by lia.
  pose proof (Z.mod_pos_bound v 10 ltac:(lia)) as Hm.
  rewrite digits_val_app.
  assert (digits_val 0 (if (v <? 10)%Z then [] else itoa_fuel n (v / 10)) = Some (v / 10)%Z) as ->.
  { destruct (Z.ltb_spec v 10); simpl; [by rewrite Z.div_small by lia|].
    destruct n as [|n].
    { simpl in Hv. lia. }
    apply IH; [|done]. split; [apply Z.div_pos; lia|]. apply Z.div_lt_upper_bound; lia. }
  cbn [mbind option_bind digits_val]. rewrite is_digit_byte by done.
  unfold digit_val. rewrite bval_digit_byte by done. f_equal.
  pose proof (Z.div_mod v 10 ltac:(lia)). lia.
Qed.

Lemma itoa_fuel_digits n v b :
  b ∈ itoa_fuel n v → (48 ≤ bval b ≤ 57)%Z.
Proof.
  revert v. induction n as [|n IH]; intros v; simpl; [set_solver|].
  rewrite elem_of_app. intros [H|H].
  - destruct (v <? 10)%Z; [set_solver|]. by eapply IH.
  - apply list_elem_of_singleton in H as ->. pose proof (Z.mod_pos_bound v 10 ltac:(lia)).
    rewrite bval_digit_byte; lia.
Qed.

Lemma Itoa_plain v : (0 ≤ v)%Z → plain (Itoa v).
Proof.
  intros Hv. unfold Itoa. destruct (Z.ltb_spec v 0); [lia|].
  split_and!; intros He; apply itoa_fuel_digits in He; vm_compute in He; naive_solver.
Qed.

Lemma Itoa_nonempty v : (0 ≤ v)%Z → Itoa v ≠ [].
Proof.
  intros Hv. unfold Itoa. destruct (Z.ltb_spec v 0); [lia|].
  generalize 19. intros n He. apply app_eq_nil in He as [_ He]. done.
Qed.

(** Printing and parsing a port. *)
Lemma ParseUint_Itoa v : (0 ≤ v < 65536)%Z → ParseUint 16 (Itoa v) = Some v.
Proof.
  intros Hv. pose proof (Itoa_nonempty v ltac:(lia)) as Hne. unfold ParseUint.
  destruct (Itoa v) as [|b s] eqn:E; [done|]. rewrite <-E.
  unfold Itoa. destruct (Z.ltb_spec v 0); [lia|].
  rewrite itoa_fuel_val by (simpl; lia). cbn [mbind option_bind].
  by destruct (Z.ltb_spec v (2 ^ 16)); [|lia].
Qed.

(** An octet printed in decimal is consumed as that octet. *)
Lemma parse_v4_octet b rest fields ad :
  parse_v4 (Itoa (bval b) ++ rest) 0 0 fields ad =
  parse_v4 rest (bval b) (length (Itoa (bval b))) fields false.
Proof. destruct b; reflexivity. Qed.

Lemma addr_form_digits s rest :
  (∀ b, b ∈ s → (48 ≤ bval b ≤ 57)%Z) → addr_form (s ++ ch "." :: rest) = Some true.
Proof.
  intros Hs. induction s as [|b s IH]; simpl; [done|].
  assert (48 ≤ bval b ≤ 57)%Z by (apply Hs; set_solver).
  rewrite !decide_False; [apply IH; set_solver| | |];
    intros ->; match goal with H : (_ ≤ bval _ ≤ _)%Z |- _ => vm_compute in H end; naive_solver.
Qed.

Lemma parse_v4_dot t val dl fields :
  t ≠ [] → length fields ≠ 3 →
  parse_v4 (ch "." :: t) val dl fields false = parse_v4 t 0 0 (fields ++ [to_byte val]) true.
Proof.
  intros Ht Hf. cbn [parse_v4]. replace (is_digit (ch ".")) with false by done.
  rewrite decide_True by done. simpl orb. by rewrite !bool_decide_false by done.
Qed.

Lemma ParseIP_dotted a b c d :
  ParseIP (dotted a b c d) = Some (v4InV6Prefix ++ [a; b; c; d]).
Proof.
  unfold ParseIP, dotted. pose proof (bval_range a). pose proof (bval_range b).
  pose proof (bval_range c). pose proof (bval_range d).
  cbn [app]. rewrite addr_form_digits.
  2: { unfold Itoa. destruct (Z.ltb_spec (bval a) 0); [lia|]. intros ?. apply itoa_fuel_digits. }
  unfold parseIPv4Fields.
  assert (∀ s v, (0 ≤ v)%Z → Itoa v ++ s ≠ []) as Hne.
  { intros s v Hv He. apply app_eq_nil in He as [He _]. by apply Itoa_nonempty in He. }
  rewrite parse_v4_octet, parse_v4_dot, parse_v4_octet, parse_v4_dot,
    parse_v4_octet, parse_v4_dot by (first [apply Hne; lia | apply Itoa_nonempty; lia | done]).
  rewrite <-(app_nil_r (Itoa (bval d))), parse_v4_octet. simpl. by rewrite !to_byte_bval.
Qed.

Lemma dotted_plain a b c d : plain (dotted a b c d).
Proof.
  unfold dotted.
  pose proof (Itoa_plain (bval a) (proj1 (bval_range a))) as (?&?&?).
  pose proof (Itoa_plain (bval b) (proj1 (bval_range b))) as (?&?&?).
  pose proof (Itoa_plain (bval c) (proj1 (bval_range c))) as (?&?&?).
  pose proof (Itoa_plain (bval d) (proj1 (bval_range d))) as (?&?&?).
  unfold plain. rewrite !not_elem_of_app, !list_elem_of_singleton. repeat split; done.
Qed.
