(* ===== verification/GoText.v ===== *)
(** * The parts of Go's text packages the document parsers use.

    [bytes.Index]/[Cut]/[HasPrefix], [bufio.Scanner] over lines,
    [strings.Fields], the two readings of [strconv.Atoi] (with and without its
    error), [encoding/base64], [encoding/pem] and [time.Parse] with the layout
    of the directory documents. *)

From S2P Require Import Prelude ByteUtil GoNet.

(** ** Searching *)

Fixpoint HasPrefix (s p : bytes) : bool :=
  match p, s with
  | [], _ => true
  | _ :: _, [] => false
  | b :: p, c :: s => if decide (b = c) then HasPrefix s p else false
  end.
Definition HasSuffix (s p : bytes) : bool :=
  (length p <=? length s) && bool_decide (drop (length s - length p) s = p).

(** [bytes.Index]; [None] is -1. *)
Fixpoint Index (s p : bytes) : option nat :=
  if HasPrefix s p then Some 0
  else match s with
       | [] => None
       | _ :: s => S <$> Index s p
       end.

(** [bytes.Cut]. *)
Definition Cut (s sep : bytes) : option (bytes * bytes) :=
  i ← Index s sep; Some (take i s, drop (i + length sep) s).

Fixpoint trim_left (f : byte → bool) (s : bytes) : bytes :=
  match s with
  | [] => []
  | b :: t => if f b then trim_left f t else s
  end.
Definition TrimRight (f : byte → bool) (s : bytes) : bytes := reverse (trim_left f (reverse s)).

(** [strings.Join]. *)
Fixpoint Join (ls : list bytes) (sep : bytes) : bytes :=
  match ls with
  | [] => []
  | [l] => l
  | l :: ls => l ++ sep ++ Join ls sep
  end.

(** [strings.Split] on a single byte. *)
Fixpoint split_byte (c : byte) (cur s : bytes) : list bytes :=
  match s with
  | [] => [cur]
  | b :: s => if decide (b = c) then cur :: split_byte c [] s else split_byte c (cur ++ [b]) s
  end.
Definition Split (s : bytes) (c : byte) : list bytes := split_byte c [] s.

(** ** Lines *)

Definition nl : byte := x0a.
Definition cr : byte := x0d.

Definition dropCR (l : bytes) : bytes :=
  match reverse l with
  | b :: r => if decide (b = cr) then reverse r else l
  | [] => l
  end.

(** [bufio.Scanner] with a buffer of at most [max] bytes over a reader of
    [raw]: the lines of [Scan], and whether it stopped with [ErrTooLong], which
    it does at a line without a newline among the next [max] bytes.  [cur] is
    the line read so far. *)
Fixpoint scan_from (max : Z) (cur raw : bytes) : list bytes * bool :=
  match raw with
  | [] => (match cur with [] => [] | _ => [dropCR cur] end, false)
  | b :: raw =>
      if decide (b = nl) then
        let '(ls, long) := scan_from max [] raw in (dropCR cur :: ls, long)
      else if (Z.of_nat (S (length cur)) <? max)%Z then scan_from max (cur ++ [b]) raw
      else ([], true)
  end.
Definition Scan (max : Z) (raw : bytes) : list bytes * bool := scan_from max [] raw.

(** ** Fields *)

(** The UTF-8 encodings of [unicode.IsSpace]. *)
Definition spaces : list bytes :=
  [[x09]; [x0a]; [x0b]; [x0c]; [x0d]; [x20]; [xc2; x85]; [xc2; xa0]; [xe1; x9a; x80];
   [xe2; x80; x80]; [xe2; x80; x81]; [xe2; x80; x82]; [xe2; x80; x83]; [xe2; x80; x84];
   [xe2; x80; x85]; [xe2; x80; x86]; [xe2; x80; x87]; [xe2; x80; x88]; [xe2; x80; x89];
   [xe2; x80; x8a]; [xe2; x80; xa8]; [xe2; x80; xa9]; [xe2; x80; xaf]; [xe2; x81; x9f];
   [xe3; x80; x80]].
(** Length of the space at the front, 0 if there is none.  A lead byte is never
    a continuation byte, so a match always starts at a character. *)
Fixpoint space_in (sp : list bytes) (s : bytes) : nat :=
  match sp with
  | [] => 0
  | p :: sp => if HasPrefix s p then length p else space_in sp s
  end.
Definition space_width (s : bytes) : nat := space_in spaces s.

Definition emit (cur : bytes) (fs : list bytes) : list bytes :=
  match cur with [] => fs | _ => cur :: fs end.
(** [skip] counts the bytes left of the space being skipped. *)
Fixpoint fields_from (skip : nat) (cur s : bytes) : list bytes :=
  match s with
  | [] => emit cur []
  | b :: t =>
      match skip with
      | S skip => fields_from skip cur t
      | O => match space_width s with
             | O => fields_from 0 (cur ++ [b]) t
             | S w => emit cur (fields_from w [] t)
             end
      end
  end.
Definition Fields (s : bytes) : list bytes := fields_from 0 [] s.

(** [strings.TrimSpace]. *)
Fixpoint trim_spaces (fuel : nat) (sp : list bytes) (s : bytes) : bytes :=
  match fuel with
  | O => s
  | S fuel => match space_in sp s with O => s | w => trim_spaces fuel sp (drop w s) end
  end.
Definition TrimSpace (s : bytes) : bytes :=
  let s := trim_spaces (length s) spaces s in
  reverse (trim_spaces (length s) (map reverse spaces) (reverse s)).

(** ** Numbers *)

Inductive num := NumOk (v : Z) | NumSyntax | NumRange.
(** The digit loop of [strconv.ParseUint]: an overflow is reported before a bad
    digit behind it. *)
Fixpoint parse_u64 (acc : Z) (s : bytes) : num :=
  match s with
  | [] => NumOk acc
  | b :: s =>
      if is_digit b then
        let v := (acc * 10 + digit_val b)%Z in
        if (2 ^ 64 <=? v)%Z then NumRange else parse_u64 v s
      else NumSyntax
  end.
Definition atoi_num (s : bytes) : num * Z :=
  let clamp (neg : bool) (r : num) : num * Z :=
    match r with
    | NumSyntax => (NumSyntax, 0%Z)
    | NumRange => (NumRange, if neg then (- 2 ^ 63)%Z else (2 ^ 63 - 1)%Z)
    | NumOk v =>
        if neg then if (2 ^ 63 <? v)%Z then (NumRange, (- 2 ^ 63)%Z) else (NumOk (- v), (- v)%Z)
        else if (2 ^ 63 <=? v)%Z then (NumRange, (2 ^ 63 - 1)%Z) else (NumOk v, v)
    end in
  match s with
  | [] => (NumSyntax, 0%Z)
  | c :: t =>
      if decide (c = ch "-") then match t with [] => (NumSyntax, 0%Z) | _ => clamp true (parse_u64 0 t) end
      else if decide (c = ch "+") then match t with [] => (NumSyntax, 0%Z) | _ => clamp false (parse_u64 0 t) end
      else clamp false (parse_u64 0 s)
  end.
(** [n, _ := strconv.Atoi(s)]: the error is dropped and the value used. *)
Definition Atoi_value (s : bytes) : Z := (atoi_num s).2.
(** [n, err := strconv.Atoi(s)]. *)
Definition Atoi_checked (s : bytes) : option Z :=
  match atoi_num s with (NumOk v, _) => Some v | _ => None end.

(** ** Base64 *)

Definition b64_alphabet : bytes := go"ABCDEFGHIJKLMNOPQRSTUVWXYZabcdefghijklmnopqrstuvwxyz0123456789+/".
Definition b64_char (v : Z) : byte := nth (Z.to_nat v) b64_alphabet x00.
Definition b64_digit (b : byte) : option Z := Z.of_nat <$> IndexByte b64_alphabet b.

Definition b64_enc1 (g : bytes) : bytes :=
  match g with
  | [a] => let v := (bval a * 16)%Z in [b64_char (v / 64); b64_char (v mod 64)]
  | [a; b] =>
      let v := ((bval a * 256 + bval b) * 4)%Z in
      [b64_char (v / 4096); b64_char (v / 64 mod 64); b64_char (v mod 64)]
  | a :: b :: c :: _ =>
      let v := ((bval a * 256 + bval b) * 256 + bval c)%Z in
      [b64_char (v / 262144); b64_char (v / 4096 mod 64); b64_char (v / 64 mod 64); b64_char (v mod 64)]
  | [] => []
  end.
(** [base64.RawStdEncoding.EncodeToString]. *)
Fixpoint RawStd_Encode (b : bytes) : bytes :=
  match b with
  | a :: b :: c :: t => b64_enc1 [a; b; c] ++ RawStd_Encode t
  | g => b64_enc1 g
  end.

(** The bytes of the first digits of a quantum, 2 to 4 of them. *)
Definition b64_quantum (ds : list Z) : bytes :=
  match ds with
  | [d0; d1] => [to_byte ((d0 * 64 + d1) / 16)]
  | [d0; d1; d2] =>
      let v := ((d0 * 64 + d1) * 64 + d2)%Z in [to_byte (v / 1024); to_byte (v / 4)]
  | [d0; d1; d2; d3] =>
      let v := (((d0 * 64 + d1) * 64 + d2) * 64 + d3)%Z in
      [to_byte (v / 65536); to_byte (v / 256); to_byte v]
  | _ => []
  end.

Definition is_nl (b : byte) : bool := bool_decide (b = nl) || bool_decide (b = cr).

(** [Encoding.Decode], not strict: the bytes decoded before an error, and
    whether there was none.  [ds] are the digits of the quantum being read;
    [padded] tells [StdEncoding] from [RawStdEncoding]. *)
Fixpoint b64_decode (padded : bool) (ds : list Z) (s : bytes) : bytes * bool :=
  match s with
  | [] =>
      match ds with
      | [] => ([], true)
      | [_] => ([], false)
      | _ => if padded then ([], false) else (b64_quantum ds, true)
      end
  | b :: s =>
      match b64_digit b with
      | Some d =>
          match ds with
          | [_; _; _] =>
              let '(rest, ok) := b64_decode padded [] s in (b64_quantum (ds ++ [d]) ++ rest, ok)
          | _ => b64_decode padded (ds ++ [d]) s
          end
      | None =>
          if is_nl b then b64_decode padded ds s
          else if padded && bool_decide (b = ch "=") then
            match ds with
            | [_; _] =>
                match trim_left is_nl s with
                | [] => ([], false)
                | e :: s => if decide (e = ch "=")
                            then (b64_quantum ds, bool_decide (trim_left is_nl s = []))
                            else ([], false)
                end
            | [_; _; _] => (b64_quantum ds, bool_decide (trim_left is_nl s = []))
            | _ => ([], false)
            end
          else ([], false)
      end
  end.
(** [StdEncoding.DecodeString] and [RawStdEncoding.DecodeString]: the bytes
    returned, with or without an error. *)
Definition Std_Decode (s : bytes) : bytes * bool := b64_decode true [] s.
Definition RawStd_Decode (s : bytes) : bytes * bool := b64_decode false [] s.

(** ** PEM *)

Record Block := mkBlock { b_Type : bytes; b_Bytes : bytes }.

Definition pemStart : bytes := nl :: go"-----BEGIN ".
Definition pemEnd : bytes := nl :: go"-----END ".
Definition pemEndOfLine : bytes := go"-----".

Definition is_blank (b : byte) : bool := bool_decide (b = x20) || bool_decide (b = x09).
Definition getLine (data : bytes) : bytes * bytes :=
  match IndexByte data nl with
  | None => (TrimRight is_blank data, [])
  | Some i => (TrimRight is_blank (dropCR (take i data)), drop (S i) data)
  end.

(** The header loop: whether there were headers, and the rest; [None] at the
    end of the data. *)
Fixpoint pem_headers (fuel : nat) (seen : bool) (rest : bytes) : option (bool * bytes) :=
  match fuel, rest with
  | O, _ | _, [] => None
  | S fuel, _ =>
      let '(line, next) := getLine rest in
      if contains_byte line (ch ":") then pem_headers fuel true next else Some (seen, rest)
  end.

(** What follows the type line; [None] goes on searching from [rest]. *)
Definition pem_body (typeLine : bytes) (headers : bool) (rest : bytes) : option Block :=
  '(endIndex, endTrailerIndex) ←
    (if negb headers && HasPrefix rest (tail pemEnd) then Some (0, length pemEnd - 1)
     else i ← Index rest pemEnd; Some (i, i + length pemEnd));
  let endTrailer := drop endTrailerIndex rest in
  let endTrailerLen := length typeLine + length pemEndOfLine in
  if length endTrailer <? endTrailerLen then None
  else
    let restOfEndLine := drop endTrailerLen endTrailer in
    let endTrailer := take endTrailerLen endTrailer in
    if negb (HasPrefix endTrailer typeLine) || negb (HasSuffix endTrailer pemEndOfLine) then None
    else match (getLine restOfEndLine).1 with
         | _ :: _ => None
         | [] =>
             let base64Data := List.filter (λ b, negb (is_blank b)) (take endIndex rest) in
             match Std_Decode base64Data with
             | (data, true) => Some (mkBlock typeLine data)
             | (_, false) => None
             end
         end.

Fixpoint pem_decode_from (fuel : nat) (rest : bytes) : option Block :=
  match fuel with
  | O => None
  | S fuel =>
      rest ← (if HasPrefix rest (tail pemStart) then Some (drop (length pemStart - 1) rest)
              else snd <$> Cut rest pemStart);
      let '(typeLine, rest) := getLine rest in
      if negb (HasSuffix typeLine pemEndOfLine) then pem_decode_from fuel rest
      else
        let typeLine := take (length typeLine - length pemEndOfLine) typeLine in
        '(headers, rest) ← pem_headers (S (length rest)) false rest;
        match pem_body typeLine headers rest with
        | Some b => Some b
        | None => pem_decode_from fuel rest
        end
  end.
(** [block, _ := pem.Decode(data)]. *)
Definition pem_Decode (data : bytes) : option Block := pem_decode_from (S (length data)) data.

(** ** Times *)

(** Nanoseconds since 1 January of year 1, UTC. *)
Definition second_ns : Z := 1000000000%Z.
Definition leap (y : Z) : bool := (y mod 4 =? 0)%Z && (negb (y mod 100 =? 0)%Z || (y mod 400 =? 0)%Z).
Definition days_in (m y : Z) : Z :=
  if (m =? 2)%Z then if leap y then 29%Z else 28%Z
  else if (m =? 4)%Z || (m =? 6)%Z || (m =? 9)%Z || (m =? 11)%Z then 30%Z else 31%Z.
Definition days_before_year (y : Z) : Z :=
  (365 * (y - 1) + (y - 1) / 4 - (y - 1) / 100 + (y - 1) / 400)%Z.
Definition days_before_month (m y : Z) : Z :=
  foldl (λ acc k, (acc + days_in (Z.of_nat k) y)%Z) 0%Z (seq 1 (Z.to_nat m - 1)).
Definition time_Date (y m d hh mm ss nsec : Z) : Z :=
  (((((days_before_year y + days_before_month m y + (d - 1)) * 24 + hh) * 60 + mm) * 60 + ss) * second_ns + nsec)%Z.

(** [time.getnum]: one or two digits, two when [fixed]. *)
Definition getnum (fixed : bool) (s : bytes) : option (Z * bytes) :=
  match s with
  | a :: b :: t =>
      if is_digit a then
        if is_digit b then Some ((digit_val a * 10 + digit_val b)%Z, t)
        else if fixed then None else Some (digit_val a, b :: t)
      else None
  | [a] => if is_digit a && negb fixed then Some (digit_val a, []) else None
  | [] => None
  end.
Definition getyear (s : bytes) : option (Z * bytes) :=
  if length s <? 4 then None else v ← digits_val 0 (take 4 s); Some (v, drop 4 s).
(** [time.skip] of one byte of the layout: a space matches any number of
    spaces, and the end of the value. *)
Definition skip_byte (c : byte) (s : bytes) : option bytes :=
  match s with
  | b :: t => if decide (b = c) then Some t else None
  | [] => None
  end.
Definition skip_space (s : bytes) : option bytes :=
  match s with
  | b :: _ => if decide (b = x20) then Some (trim_left (λ b, bool_decide (b = x20)) s) else None
  | [] => Some []
  end.
(** A fraction of a second is accepted behind the seconds. *)
Definition getnanos (s : bytes) : option (Z * bytes) :=
  match s with
  | c :: d :: t =>
      if (bool_decide (c = ch ".") || bool_decide (c = ch ",")) && is_digit d then
        let ds := take (length (d :: t) - length (trim_left is_digit (d :: t))) (d :: t) in
        let used := take 9 ds in
        v ← digits_val 0 used;
        Some ((v * 10 ^ Z.of_nat (9 - length used))%Z, trim_left is_digit (d :: t))
      else Some (0%Z, s)
  | _ => Some (0%Z, s)
  end.

Definition in_rng (lo hi v : Z) : option unit := if (lo <=? v)%Z && (v <=? hi)%Z then Some () else None.

(** [time.Parse("2006-01-02 15:04:05", s)]; on an error Go returns the zero time. *)
Definition time_Parse (s : bytes) : option Z :=
  '(y, s) ← getyear s; s ← skip_byte (ch "-") s;
  '(mo, s) ← getnum true s; _ ← in_rng 1 12 mo; s ← skip_byte (ch "-") s;
  '(d, s) ← getnum true s; s ← skip_space s;
  '(hh, s) ← getnum false s; _ ← in_rng 0 23 hh; s ← skip_byte (ch ":") s;
  '(mi, s) ← getnum true s; _ ← in_rng 0 59 mi; s ← skip_byte (ch ":") s;
  '(ss, s) ← getnum true s; _ ← in_rng 0 59 ss;
  '(ns, s) ← getnanos s;
  match s with
  | [] => _ ← in_rng 1 (days_in mo y) d; Some (time_Date y mo d hh mi ss ns)
  | _ => None
  end.
