(* ===== verification/GoTextFacts.v ===== *)
(** * Facts about the text functions: searching, lines, fields, numbers and
    base64. *)

From S2P Require Import Prelude ByteUtil GoNet GoText.

(** ** Searching *)

Lemma HasPrefix_spec s p : HasPrefix s p = true ↔ ∃ t, s = p ++ t.
Proof.
  revert s. induction p as [|b p IH]; intros s.
  - destruct s; simpl; split; eauto.
  - destruct s as [|c s]; simpl; [split; [done|intros [t [=]]]|].
    case_decide as E; [subst c; rewrite IH|].
    + split; intros [t Ht]; exists t; [by subst|by injection Ht].
    + split; [done|]. intros [t [= -> _]]. done.
Qed.

Lemma HasPrefix_app p t : HasPrefix (p ++ t) p = true.
Proof. apply HasPrefix_spec. by exists t. Qed.

Lemma HasPrefix_shorter s t p :
  HasPrefix (s ++ t) p = true → length p ≤ length s → HasPrefix s p = true.
Proof.
  rewrite !HasPrefix_spec. intros [u Hu] Hl. exists (take (length s - length p) u).
  apply (f_equal (take (length s))) in Hu. rewrite take_app_length in Hu.
  rewrite take_app_ge in Hu by done. exact Hu.
Qed.

Lemma Index_Some s p i : Index s p = Some i →
  i + length p ≤ length s ∧ HasPrefix (drop i s) p = true ∧
  ∀ j, j < i → HasPrefix (drop j s) p = false.
Proof.
  revert i. induction s as [|c s IH]; intros i; cbn [Index app].
  - destruct (HasPrefix [] p) eqn:E; [|done]. intros [= <-].
    apply HasPrefix_spec in E as [t E]. destruct p; [|discriminate E]. simpl. split; [lia|]. split; [done|lia].
  - destruct (HasPrefix (c :: s) p) eqn:E.
    + intros [= <-]. apply HasPrefix_spec in E as [t Ht]. split.
      * rewrite Ht, length_app. lia.
      * split; [|lia]. apply HasPrefix_spec. by exists t.
    + destruct (Index s p) as [k|] eqn:Ek; [|done]. intros [= <-].
      destruct (IH k eq_refl) as (H1 & H2 & H3). split; [simpl; lia|]. split; [done|].
      intros [|j] Hj; [done|]. simpl. apply H3. lia.
Qed.

Lemma Index_app s t p i : Index s p = Some i → Index (s ++ t) p = Some i.
Proof.
  revert i. induction s as [|c s IH]; intros i; cbn [Index app].
  - destruct (HasPrefix [] p) eqn:E; [|done]. intros [= <-].
    apply HasPrefix_spec in E as [u E]. destruct p; [|discriminate E]. by destruct t.
  - destruct (HasPrefix (c :: s) p) eqn:E.
    + intros [= <-]. apply HasPrefix_spec in E as [u Hu].
      change (c :: s ++ t) with ((c :: s) ++ t). rewrite Hu, <-app_assoc.
      by rewrite HasPrefix_app.
    + destruct (Index s p) as [k|] eqn:Ek; [|done]. intros [= <-].
      destruct (HasPrefix (c :: s ++ t) p) eqn:E2; [|by rewrite (IH k)].
      apply Index_Some in Ek as (Hk & _). exfalso.
      rewrite (HasPrefix_shorter (c :: s) t p) in E; [done|done|simpl; lia].
Qed.

(** ** Lines *)

(** A line [Scan] returns as it is. *)
Definition clean_line (max : Z) (l : bytes) : Prop :=
  nl ∉ l ∧ dropCR l = l ∧ (Z.of_nat (length l) < max)%Z.

Definition unlines (ls : list bytes) : bytes := ls ≫= λ l, l ++ [nl].

Lemma scan_from_line max cur l rest : nl ∉ l → (Z.of_nat (length cur + length l) < max)%Z →
  scan_from max cur (l ++ nl :: rest) =
  let '(ls, long) := scan_from max [] rest in (dropCR (cur ++ l) :: ls, long).
Proof.
  revert cur. induction l as [|b l IH]; intros cur Hn Hl; cbn [scan_from app].
  - rewrite decide_True by done. by rewrite app_nil_r.
  - apply not_elem_of_cons in Hn as [Hb Hn]. rewrite decide_False by done.
    simpl in Hl. destruct (Z.ltb_spec (Z.of_nat (S (length cur))) max); [|lia].
    rewrite IH; [by rewrite <-app_assoc|done|rewrite length_app; simpl; lia].
Qed.

Lemma Scan_unlines max ls rest : Forall (clean_line max) ls →
  Scan max (unlines ls ++ rest) = let '(ls', long) := Scan max rest in (ls ++ ls', long).
Proof.
  unfold Scan. induction 1 as [|l ls (Hn & Hc & Hl) _ IH]; [cbn; by destruct (scan_from _ _ _)|].
  change (unlines (l :: ls)) with ((l ++ [nl]) ++ unlines ls). rewrite <-!app_assoc. cbn [app]. rewrite scan_from_line by (simpl; done || lia).
  rewrite IH. simpl. destruct (scan_from max [] rest). by rewrite Hc.
Qed.

(** What was scanned up to a newline does not depend on what follows it. *)
Lemma scan_from_app max cur a rest ls : scan_from max cur (a ++ [nl]) = (ls, false) →
  scan_from max cur (a ++ [nl] ++ rest) = let '(ls', long) := Scan max rest in (ls ++ ls', long).
Proof.
  unfold Scan. revert cur ls. induction a as [|b a IH]; intros cur ls; cbn [scan_from app].
  - rewrite decide_True by done. intros [= <-]. by destruct (scan_from max [] rest).
  - case_decide.
    + destruct (scan_from max [] (a ++ [nl])) as [ls1 long] eqn:E. intros [= <- ->].
      cbn [app] in IH. rewrite (IH _ _ E). by destruct (scan_from max [] rest).
    + destruct (_ <? _)%Z; [|done]. apply IH.
Qed.

(** ** Fields *)

(** A nonempty string of printing ASCII characters other than the space. *)
Definition printing (b : byte) : bool := (33 <=? bval b)%Z && (bval b <=? 126)%Z.
Definition word (w : bytes) : bool := bool_decide (w ≠ []) && forallb printing w.

Lemma printing_not_space b t : printing b = true → space_width (b :: t) = 0.
Proof.
  intros H. unfold space_width, spaces. cbn [space_in HasPrefix].
  repeat match goal with |- context [decide (?x = b)] => destruct (decide (x = b)) as [<-|]; [by vm_compute in H|] end.
  done.
Qed.

Lemma printing_plain b : printing b = true → b ≠ nl ∧ b ≠ cr ∧ b ≠ x20.
Proof. intros H. split_and!; intros ->; by vm_compute in H. Qed.

Lemma fields_word cur w s : forallb printing w = true →
  fields_from 0 cur (w ++ s) = fields_from 0 (cur ++ w) s.
Proof.
  revert cur. induction w as [|b w IH]; intros cur; cbn [forallb app]; [by rewrite app_nil_r|].
  intros [Hb Hw]%andb_true_iff. cbn [fields_from]. rewrite (printing_not_space b (w ++ s)) by done.
  rewrite IH by done. by rewrite <-app_assoc.
Qed.

Lemma space_step s : space_width (x20 :: s) = 1.
Proof. by destruct s. Qed.

Lemma Fields_Join ws : Forall (λ w, word w = true) ws → Fields (Join ws [x20]) = ws.
Proof.
  unfold Fields. induction 1 as [|w ws Hw Hws IH]; [done|].
  apply andb_true_iff in Hw as [Hne Hp]. apply bool_decide_eq_true in Hne.
  destruct ws as [|w2 ws].
  - cbn [Join]. rewrite <-(app_nil_r w) at 1. rewrite fields_word by done. by destruct w.
  - change (Join (w :: w2 :: ws) [x20]) with (w ++ x20 :: Join (w2 :: ws) [x20]).
    rewrite fields_word by done. cbn [fields_from app]. rewrite space_step.
    rewrite IH. by destruct w.
Qed.

(** A printed line is scanned as it is. *)
Lemma dropCR_id l : cr ∉ l → dropCR l = l.
Proof.
  intros H. unfold dropCR. destruct (reverse l) as [|b r] eqn:E; [done|].
  rewrite decide_False; [done|]. intros ->. apply H, elem_of_reverse. rewrite E. set_solver.
Qed.

Lemma Join_elem b ws : b ∈ Join ws [x20] → b = x20 ∨ ∃ w, w ∈ ws ∧ b ∈ w.
Proof.
  induction ws as [|w [|w2 ws] IH]; [set_solver|set_solver|].
  change (Join (w :: w2 :: ws) [x20]) with (w ++ x20 :: Join (w2 :: ws) [x20]).
  rewrite elem_of_app, elem_of_cons. intros [H|[->|H]]; [right; set_solver|by left|].
  destruct (IH H) as [->|(w' & ? & ?)]; [by left|]. right. exists w'. set_solver.
Qed.

Lemma Join_clean max ws : Forall (λ w, word w = true) ws →
  (Z.of_nat (length (Join ws [x20])) < max)%Z → clean_line max (Join ws [x20]).
Proof.
  intros Hws Hl.
  assert (∀ b, b ∈ Join ws [x20] → b = x20 ∨ printing b = true) as Hb.
  { intros b [->|(w & Hw & Hbw)]%Join_elem; [by left|right].
    rewrite List.Forall_forall in Hws. apply list_elem_of_In, Hws, andb_true_iff in Hw as [_ Hw].
    rewrite forallb_forall in Hw. apply Hw. by apply list_elem_of_In. }
  split; [|split; [apply dropCR_id|done]].
  - intros [H|H]%Hb; [done|]. by apply printing_plain in H as [? _].
  - intros [H|H]%Hb; [done|]. by apply printing_plain in H as (_ & ? & _).
Qed.

(** ** Numbers *)

Lemma digits_val_mono acc s v : digits_val acc s = Some v → (0 ≤ acc)%Z → (acc ≤ v)%Z.
Proof.
  revert acc. induction s as [|b s IH]; intros acc; simpl; [intros [= <-]; lia|].
  destruct (is_digit b) eqn:E; [|done]. unfold is_digit in E. bools. intros Hd Ha.
  apply IH in Hd; unfold digit_val in *; lia.
Qed.

Lemma parse_u64_digits acc s v : digits_val acc s = Some v → (0 ≤ acc)%Z → (v < 2 ^ 64)%Z →
  parse_u64 acc s = NumOk v.
Proof.
  revert acc. induction s as [|b s IH]; intros acc; simpl; [by intros [= <-]|].
  destruct (is_digit b) eqn:E; [|done]. intros H Ha Hv.
  assert (0 ≤ acc * 10 + digit_val b)%Z by (unfold is_digit, digit_val in *; bools; lia).
  pose proof (digits_val_mono _ _ _ H ltac:(done)).
  destruct (Z.leb_spec (2 ^ 64) (acc * 10 + digit_val b)); [lia|]. by apply IH.
Qed.

Lemma Itoa_digits v : (0 ≤ v < 10 ^ 20)%Z → digits_val 0 (Itoa v) = Some v ∧ forallb is_digit (Itoa v) = true.
Proof.
  intros Hv. unfold Itoa. destruct (Z.ltb_spec v 0); [lia|]. split; [apply itoa_fuel_val; simpl; lia|].
  apply forallb_forall. intros b Hb. apply list_elem_of_In, itoa_fuel_digits in Hb.
  unfold is_digit. apply andb_true_iff. rewrite !Z.leb_le. lia.
Qed.

Lemma digit_not_sign b : is_digit b = true → b ≠ ch "-" ∧ b ≠ ch "+" ∧ printing b = true.
Proof.
  intros H. split_and!; [intros ->; by vm_compute in H..|].
  unfold is_digit, printing in *. bools. apply andb_true_iff. rewrite !Z.leb_le. lia.
Qed.

(** A number printed by [strconv.Itoa] is read back, with or without its error. *)
Lemma atoi_Itoa v : (0 ≤ v < 2 ^ 63)%Z → atoi_num (Itoa v) = (NumOk v, v).
Proof.
  intros Hv. destruct (Itoa_digits v ltac:(lia)) as [Hd Hf]. pose proof (Itoa_nonempty v ltac:(lia)).
  unfold atoi_num. destruct (Itoa v) as [|b s]; [done|].
  simpl in Hf. apply andb_true_iff in Hf as [Hb _]. apply digit_not_sign in Hb as (H1 & H2 & _).
  rewrite !decide_False by done. rewrite (parse_u64_digits 0 (b :: s) v) by (done || lia).
  by destruct (Z.leb_spec (2 ^ 63) v); [lia|].
Qed.
Lemma Atoi_value_Itoa v : (0 ≤ v < 2 ^ 63)%Z → Atoi_value (Itoa v) = v.
Proof. intros H. unfold Atoi_value. by rewrite atoi_Itoa. Qed.
Lemma Atoi_checked_Itoa v : (0 ≤ v < 2 ^ 63)%Z → Atoi_checked (Itoa v) = Some v.
Proof. intros H. unfold Atoi_checked. by rewrite atoi_Itoa. Qed.

Lemma Itoa_word v : (0 ≤ v < 10 ^ 20)%Z → word (Itoa v) = true.
Proof.
  intros Hv. apply andb_true_iff. split; [apply bool_decide_eq_true, Itoa_nonempty; lia|].
  destruct (Itoa_digits v Hv) as [_ Hf]. rewrite forallb_forall in Hf. apply forallb_forall.
  intros b Hb. by apply digit_not_sign, Hf.
Qed.

(** ** Base64 *)

Lemma b64_tables v : (0 ≤ v < 64)%Z →
  b64_digit (b64_char v) = Some v ∧ printing (b64_char v) = true.
Proof.
  intros Hv. assert (forallb (λ k, bool_decide (b64_digit (b64_char (Z.of_nat k)) = Some (Z.of_nat k))
    && printing (b64_char (Z.of_nat k))) (seq 0 64) = true) as H by reflexivity.
  rewrite forallb_forall in H. assert (In (Z.to_nat v) (seq 0 64)) as Hi by (apply in_seq; lia).
  apply H in Hi. rewrite Z2Nat.id in Hi by lia.
  by apply andb_true_iff in Hi as [Hi%bool_decide_eq_true ?].
Qed.
Definition b64_digit_char v H := proj1 (b64_tables v H).

Ltac zdm := Z.to_euclidean_division_equations; lia.

Lemma to_byte_val a v : (v mod 256)%Z = bval a → to_byte v = a.
Proof. intros H. apply bval_inj. by rewrite bval_to_byte. Qed.

Lemma b64_decode_group padded a b c s :
  b64_decode padded [] (b64_enc1 [a; b; c] ++ s) =
  let '(rest, ok) := b64_decode padded [] s in (a :: b :: c :: rest, ok).
Proof.
  pose proof (bval_range a). pose proof (bval_range b). pose proof (bval_range c).
  set (v := ((bval a * 256 + bval b) * 256 + bval c)%Z).
  change (b64_enc1 [a; b; c]) with
    [b64_char (v / 262144); b64_char (v / 4096 mod 64); b64_char (v / 64 mod 64); b64_char (v mod 64)].
  cbn [app b64_decode]. rewrite !b64_digit_char by (unfold v; zdm). cbn [app].
  destruct (b64_decode padded [] s) as [rest ok]. cbn [b64_quantum app].
  replace (((v / 262144 * 64 + v / 4096 mod 64) * 64 + v / 64 mod 64) * 64 + v mod 64)%Z with v by zdm.
  rewrite (to_byte_val a (v / 65536)), (to_byte_val b (v / 256)), (to_byte_val c v); [done|..]; unfold v; zdm.
Qed.

(** Three bytes at a time. *)
Lemma triples_ind (P : bytes → Prop) :
  P [] → (∀ a, P [a]) → (∀ a b, P [a; b]) → (∀ a b c t, P t → P (a :: b :: c :: t)) → ∀ l, P l.
Proof.
  intros H0 H1 H2 H3. fix IH 1. intros [|a [|b [|c t]]]; [done|apply H1|apply H2|]. apply H3, IH.
Qed.

Lemma RawStd_roundtrip b : RawStd_Decode (RawStd_Encode b) = (b, true).
Proof.
  unfold RawStd_Decode. induction b as [|a|a b|a b c t IH] using triples_ind; [done| | |].
  - pose proof (bval_range a). cbn [RawStd_Encode b64_enc1]. set (v := (bval a * 16)%Z).
    cbn [b64_decode]. rewrite !b64_digit_char by (unfold v; zdm). cbn [app b64_quantum].
    rewrite (to_byte_val a); [done|unfold v; zdm].
  - pose proof (bval_range a). pose proof (bval_range b). cbn [RawStd_Encode b64_enc1].
    set (v := ((bval a * 256 + bval b) * 4)%Z).
    cbn [b64_decode]. rewrite !b64_digit_char by (unfold v; zdm). cbn [app b64_quantum].
    replace ((v / 4096 * 64 + v / 64 mod 64) * 64 + v mod 64)%Z with v by zdm.
    rewrite (to_byte_val a (v / 1024)), (to_byte_val b (v / 4)); [done|..]; unfold v; zdm.
  - change (RawStd_Encode (a :: b :: c :: t)) with (b64_enc1 [a; b; c] ++ RawStd_Encode t).
    by rewrite b64_decode_group, IH.
Qed.

Lemma RawStd_Encode_printing b : forallb printing (RawStd_Encode b) = true.
Proof.
  induction b as [|a|a b|a b c t IH] using triples_ind; [done| | |].
  1-2: pose proof (bval_range a); try pose proof (bval_range b); cbn [RawStd_Encode b64_enc1 forallb];
    rewrite !(λ v H, proj2 (b64_tables v H)) by zdm; done.
  change (RawStd_Encode (a :: b :: c :: t)) with (b64_enc1 [a; b; c] ++ RawStd_Encode t).
  rewrite forallb_app, IH. pose proof (bval_range a). pose proof (bval_range b). pose proof (bval_range c).
  cbn [b64_enc1 forallb]. rewrite !(λ v H, proj2 (b64_tables v H)) by zdm. done.
Qed.

Lemma RawStd_Encode_word b : b ≠ [] → word (RawStd_Encode b) = true.
Proof.
  intros H. apply andb_true_iff. split; [|apply RawStd_Encode_printing]. apply bool_decide_eq_true.
  by destruct b as [|a [|b [|c t]]].
Qed.

(** Different byte strings have different encodings. *)
Lemma RawStd_Encode_inj a b : RawStd_Encode a = RawStd_Encode b → a = b.
Proof.
  intros H. apply (f_equal RawStd_Decode) in H. rewrite !RawStd_roundtrip in H. by injection H.
Qed.

(** ** Trimming *)

Lemma printing_not_space_rev b t : printing b = true → space_in (map reverse spaces) (b :: t) = 0.
Proof.
  intros H. unfold spaces. cbn [map space_in HasPrefix reverse rev_append].
  repeat match goal with |- context [decide (?x = b)] => destruct (decide (x = b)) as [<-|]; [by vm_compute in H|] end.
  done.
Qed.

Lemma trim_spaces_printing n sp s :
  (∀ b t, printing b = true → space_in sp (b :: t) = 0) → space_in sp [] = 0 → forallb printing s = true →
  trim_spaces n sp s = s.
Proof.
  intros Hsp Hnil Hs. destruct n as [|n]; [done|]. cbn [trim_spaces]. destruct s as [|b t]; [by rewrite Hnil|].
  cbn [forallb] in Hs. apply andb_true_iff in Hs as [Hb _]. by rewrite (Hsp b t Hb).
Qed.

Lemma TrimSpace_printing s : forallb printing s = true → TrimSpace s = s.
Proof.
  intros Hs. unfold TrimSpace. rewrite (trim_spaces_printing _ spaces s printing_not_space eq_refl Hs).
  rewrite (trim_spaces_printing _ (map reverse spaces)); [apply reverse_involutive|apply printing_not_space_rev|done|].
  apply forallb_forall. intros b Hb. rewrite forallb_forall in Hs. apply Hs, list_elem_of_In.
  apply elem_of_reverse. by apply list_elem_of_In.
Qed.

(** The padding character is not a digit. *)
Lemma TrimRight_none f s : (∀ b, b ∈ s → f b = false) → TrimRight f s = s.
Proof.
  intros H. unfold TrimRight. destruct (reverse s) as [|b r] eqn:E.
  - apply (f_equal reverse) in E. by rewrite reverse_involutive in E.
  - cbn [trim_left]. rewrite H; [rewrite <-E; apply reverse_involutive|].
    apply elem_of_reverse. rewrite E. by left.
Qed.

Lemma RawStd_Encode_no_pad b c : c ∈ RawStd_Encode b → c ≠ ch "=".
Proof.
  intros Hc. assert (is_Some (b64_digit c)) as Hd; [|intros ->; by destruct Hd].
  revert Hc. assert (∀ v, (0 ≤ v < 64)%Z → is_Some (b64_digit (b64_char v))) as Hv
    by (intros v Hv; rewrite b64_digit_char by done; by eexists).
  induction b as [|x|x y|x y z t IH] using triples_ind; [set_solver|..].
  - pose proof (bval_range x). cbn [RawStd_Encode b64_enc1].
    intros [->|[->|?]%elem_of_cons]%elem_of_cons; [apply Hv; zdm..|set_solver].
  - pose proof (bval_range x). pose proof (bval_range y). cbn [RawStd_Encode b64_enc1].
    intros [->|[->|[->|?]%elem_of_cons]%elem_of_cons]%elem_of_cons; [apply Hv; zdm..|set_solver].
  - change (RawStd_Encode (x :: y :: z :: t)) with (b64_enc1 [x; y; z] ++ RawStd_Encode t).
    pose proof (bval_range x). pose proof (bval_range y). pose proof (bval_range z).
    rewrite elem_of_app. intros [Hc|?]; [|by apply IH]. cbn [b64_enc1] in Hc.
    apply elem_of_cons in Hc as [->|[->|[->|[->|?]%elem_of_cons]%elem_of_cons]%elem_of_cons]; [apply Hv; zdm..|set_solver].
Qed.

(** ** Documents written out *)

Definition line (s : bytes) : bytes := s ++ [nl].
(** A PEM block of one base64 line. *)
Definition pem (ty data : bytes) : bytes :=
  line (go"-----BEGIN " ++ ty ++ go"-----") ++
  line (RawStd_Encode data ++ match length data mod 3 with 1 => go"==" | 2 => go"=" | _ => [] end) ++
  line (go"-----END " ++ ty ++ go"-----").
