(* ===== verification/RelayInfo.v ===== *)
(** * [pkg/circuit/relayinfo.go]: link specifiers, and their parser in
    [pkg/onion/descriptor.go].

    The encoder is used for EXTEND2 and INTRODUCE1, the parser for the
    introduction points of an onion descriptor.  The parser is shown never to
    read out of range, and to recover the encoded relay. *)

From S2P Require Import Prelude ByteUtil GoNet.

Record RelayInfo := mkRelayInfo {
  Nickname : bytes;
  ORAddr : bytes;
  RSAIDDigest : bytes;
  EdIdentity : bytes;
  NtorOnionKey : bytes
}.

(** The zero [RelayInfo{}]. *)
Definition zeroRelayInfo : RelayInfo :=
  {| Nickname := []; ORAddr := []; RSAIDDigest := []; EdIdentity := []; NtorOnionKey := [] |}.

Definition linkSpecIPv4 : byte := x00.
Definition linkSpecIPv6 : byte := x01.
Definition linkSpecLegacy : byte := x02.
Definition linkSpecEd25519 : byte := x03.

Inductive relayinfo_error :=
| BadORAddr (e : addr_error)
| NotAnIP
| BadPort
| BadRSAIDLen
| BadEdIDLen.

(** One [(type, len, value)] triple. *)
Definition write_spec (w : Writer.Writer) (s : byte * bytes) : Writer.Writer :=
  Writer.Write (Writer.Byte (Writer.Byte w s.1) (to_byte (Z.of_nat (length s.2)))) s.2.

Definition linkSpecifiers (r : RelayInfo) : outcome relayinfo_error bytes :=
  '(host, portStr) ← map_err BadORAddr (SplitHostPort (ORAddr r));
  match ParseIP host with
  | None => Err NotAnIP
  | Some ip =>
      match ParseUint 16 portStr with
      | None => Err BadPort
      | Some port =>
          if negb (bool_decide (length (RSAIDDigest r) = 20)) then Err BadRSAIDLen
          else if negb (bool_decide (length (EdIdentity r) = 32)) then Err BadEdIDLen
          else
            let addr :=
              match To4 (Some ip) with
              | Some ip4 =>
                  (linkSpecIPv4,
                   Writer.Bytes (Writer.U16 (Writer.Write (Writer.NewWriter 6) ip4) port))
              | None =>
                  (linkSpecIPv6,
                   Writer.Bytes (Writer.U16 (Writer.Write (Writer.NewWriter 18)
                     (default [] (To16 (Some ip)))) port))
              end in
            let specs := [addr; (linkSpecLegacy, RSAIDDigest r);
                          (linkSpecEd25519, EdIdentity r)] in
            let w := Writer.Byte (Writer.NewWriter 64) (to_byte (Z.of_nat (length specs))) in
            Ok (Writer.Bytes (foldl write_spec w specs))
      end
  end.

Definition LinkSpecifiers (r : RelayInfo) : outcome relayinfo_error bytes := linkSpecifiers r.

(** ** The parser (pkg/onion/descriptor.go) *)
Module LinkSpec.

Record LinkSpecAddr := mkLSA { ORAddr : bytes; RSAID : bytes; EdID : bytes }.

Inductive error := EmptySpecs | TruncatedSpec | SpecOverflow | MissingSpecs.

(** The body of the loop over the triples: one specifier at [pos]. *)
Definition parse_one (raw : bytes) (pos : nat) (out : LinkSpecAddr)
    : outcome error (nat * LinkSpecAddr) :=
  if length raw <? pos + 2 then Err TruncatedSpec
  else
    lstype ← idx raw pos;
    lslenB ← idx raw (pos + 1);
    let lslen := Z.to_nat (bval lslenB) in
    let pos := pos + 2 in
    if length raw <? pos + lslen then Err SpecOverflow
    else
      val ← slice raw pos (pos + lslen);
      let pos := pos + lslen in
      if decide (lstype = x00) then
        if decide (lslen = 6) then
          a ← idx val 0; b ← idx val 1; c ← idx val 2; d ← idx val 3;
          portB ← slice val 4 6;
          Ok (pos, {| ORAddr := JoinHostPort (dotted a b c d) (Itoa (BE_Uint16 portB));
                      RSAID := RSAID out; EdID := EdID out |})
        else Ok (pos, out)
      else if decide (lstype = x02) then
        if decide (lslen = 20) then
          Ok (pos, {| ORAddr := ORAddr out; RSAID := val; EdID := EdID out |})
        else Ok (pos, out)
      else if decide (lstype = x03) then
        if decide (lslen = 32) then
          Ok (pos, {| ORAddr := ORAddr out; RSAID := RSAID out; EdID := val |})
        else Ok (pos, out)
      else Ok (pos, out).

Fixpoint parse_specs (n : nat) (raw : bytes) (pos : nat) (out : LinkSpecAddr)
    : outcome error LinkSpecAddr :=
  match n with
  | O => Ok out
  | S n => '(pos, out) ← parse_one raw pos out; parse_specs n raw pos out
  end.

Definition ParseLinkSpecifiers (raw : bytes) : outcome error LinkSpecAddr :=
  let out := {| ORAddr := []; RSAID := []; EdID := [] |} in
  if length raw <? 1 then Err EmptySpecs
  else
    nB ← idx raw 0;
    out ← parse_specs (Z.to_nat (bval nB)) raw 1 out;
    if bool_decide (ORAddr out = []) || negb (bool_decide (length (RSAID out) = 20))
    then Err MissingSpecs
    else Ok out.

(** *** No out-of-range access *)

Lemma parse_one_safe raw pos out : panics (parse_one raw pos out) = false.
Proof.
  unfold parse_one. destruct (Nat.ltb_spec (length raw) (pos + 2)) as [|H2]; [done|].
  destruct (idx_in_range (E:=error) raw pos) as [t ->]; [lia|]. osimpl.
  destruct (idx_in_range (E:=error) raw (pos + 1)) as [lb ->]; [lia|]. osimpl. cbv zeta.
  destruct (Nat.ltb_spec (length raw) (pos + 2 + Z.to_nat (bval lb))) as [|H3]; [done|].
  rewrite slice_in_range by lia. osimpl.
  set (v := take _ _).
  assert (length v = Z.to_nat (bval lb)) as Hv.
  { subst v. rewrite length_take, length_drop. lia. }
  clearbody v. destruct (decide (t = x00)).
  - destruct (decide (Z.to_nat (bval lb) = 6)) as [H6|]; [|done].
    destruct (idx_in_range (E:=error) v 0) as [a ->]; [lia|]. osimpl.
    destruct (idx_in_range (E:=error) v 1) as [b ->]; [lia|]. osimpl.
    destruct (idx_in_range (E:=error) v 2) as [c ->]; [lia|]. osimpl.
    destruct (idx_in_range (E:=error) v 3) as [d ->]; [lia|]. osimpl.
    rewrite slice_in_range by lia. done.
  - repeat case_decide; done.
Qed.

Lemma parse_specs_safe n raw pos out : panics (parse_specs n raw pos out) = false.
Proof.
  revert pos out. induction n as [|n IH]; intros pos out; simpl; [done|].
  apply bind_panics; [apply parse_one_safe|]. intros [p o] _. apply IH.
Qed.

(** [ParseLinkSpecifiers] never reads past the end of its input, whatever
    the input is: every index and slice is guarded. *)
Theorem ParseLinkSpecifiers_safe (raw : bytes) : panics (ParseLinkSpecifiers raw) = false.
Proof.
  unfold ParseLinkSpecifiers. destruct (Nat.ltb_spec (length raw) 1); [done|].
  destruct (idx_in_range (E:=error) raw 0) as [nB ->]; [lia|]. osimpl.
  apply bind_panics; [apply parse_specs_safe|]. intros out _. by destruct (_ || _).
Qed.

(** *** What the encoder writes, the parser reads *)

(** One well-formed triple inside a longer list. *)
Lemma parse_one_spec pre ty v rest out :
  length v < 256 →
  parse_one (pre ++ [ty; to_byte (Z.of_nat (length v))] ++ v ++ rest) (length pre) out =
  (let pos := length pre + 2 + length v in
   if decide (ty = x00) then
     if decide (length v = 6) then
       a ← idx v 0; b ← idx v 1; c ← idx v 2; d ← idx v 3;
       portB ← slice v 4 6;
       Ok (pos, {| ORAddr := JoinHostPort (dotted a b c d) (Itoa (BE_Uint16 portB));
                   RSAID := RSAID out; EdID := EdID out |})
     else Ok (pos, out)
   else if decide (ty = x02) then
     if decide (length v = 20) then
       Ok (pos, {| ORAddr := ORAddr out; RSAID := v; EdID := EdID out |})
     else Ok (pos, out)
   else if decide (ty = x03) then
     if decide (length v = 32) then
       Ok (pos, {| ORAddr := ORAddr out; RSAID := RSAID out; EdID := v |})
     else Ok (pos, out)
   else Ok (pos, out)).
Proof.
  intros Hv. set (lb := to_byte (Z.of_nat (length v))).
  set (raw := pre ++ [ty; lb] ++ v ++ rest).
  assert (length raw = length pre + 2 + length v + length rest) as Hraw.
  { subst raw. rewrite !length_app. simpl. lia. }
  assert (Z.to_nat (bval lb) = length v) as Hlb.
  { subst lb. rewrite bval_to_byte, Z.mod_small by lia. lia. }
  unfold parse_one. destruct (Nat.ltb_spec (length raw) (length pre + 2)); [lia|].
  rewrite (proj2 (idx_Ok raw (length pre) ty)).
  2: { subst raw. rewrite lookup_app_r by lia. by rewrite Nat.sub_diag. }
  osimpl. rewrite (proj2 (idx_Ok raw (length pre + 1) lb)).
  2: { subst raw. rewrite lookup_app_r by lia.
       by replace (length pre + 1 - length pre) with 1 by lia. }
  osimpl. cbv zeta. rewrite Hlb.
  destruct (Nat.ltb_spec (length raw) (length pre + 2 + length v)); [lia|].
  rewrite slice_in_range by lia. osimpl.
  assert (take (length pre + 2 + length v - (length pre + 2))
            (drop (length pre + 2) raw) = v) as ->; [|done].
  subst raw. rewrite app_assoc, drop_app_exact by (rewrite length_app; done).
  apply take_app_exact. lia.
Qed.

Definition spec_wire (s : byte * bytes) : bytes := [s.1; to_byte (Z.of_nat (length s.2))] ++ s.2.

Lemma foldl_write_spec specs w :
  Writer.buf (foldl write_spec w specs) = Writer.buf w ++ (specs ≫= spec_wire).
Proof.
  revert w. induction specs as [|s specs IH]; intros w; simpl; [by rewrite app_nil_r|].
  rewrite IH. simpl. by rewrite <-!app_assoc.
Qed.

(** The list the encoder builds for an IPv4 relay, parsed. *)
Lemma ParseLinkSpecifiers_ipv4 a b c d p2 rsa ed :
  length p2 = 2 → length rsa = 20 → length ed = 32 →
  ParseLinkSpecifiers ([to_byte 3] ++ spec_wire (x00, [a; b; c; d] ++ p2) ++
                       spec_wire (x02, rsa) ++ spec_wire (x03, ed)) =
  Ok {| ORAddr := JoinHostPort (dotted a b c d) (Itoa (be_decode p2));
        RSAID := rsa; EdID := ed |}.
Proof.
  intros Hp Hrsa Hed. unfold ParseLinkSpecifiers.
  set (raw := _ ++ _). replace (length raw <? 1) with false by done.
  assert (idx (E:=error) raw 0 = Ok (to_byte 3)) as -> by done. osimpl.
  replace (Z.to_nat (bval (to_byte 3))) with 3 by (vm_compute; done).
  cbn [parse_specs]. set (v := [a; b; c; d] ++ p2) in *.
  assert (length v = 6) as Hv by (subst v; rewrite length_app, Hp; done).
  change 1 with (length [to_byte 3]). unfold raw, spec_wire. cbn [fst snd].
  rewrite <-!app_assoc, (parse_one_spec [to_byte 3] x00 v) by lia. cbv zeta.
  rewrite !decide_True by done. rewrite Hv.
  rewrite (proj2 (idx_Ok v 0 a)), (proj2 (idx_Ok v 1 b)), (proj2 (idx_Ok v 2 c)),
    (proj2 (idx_Ok v 3 d)), (slice_in_range v 4 6) by (done || lia). osimpl.
  replace (BE_Uint16 (take (6 - 4) (drop 4 v))) with (be_decode p2).
  2: { unfold BE_Uint16. rewrite take_take. subst v. rewrite drop_app_exact by done.
       by rewrite take_ge by lia. }
  set (pre1 := [to_byte 3] ++ [x00; to_byte (Z.of_nat 6)] ++ v).
  replace (length [to_byte 3] + 2 + 6) with (length pre1)
    by (subst pre1; rewrite !length_app, Hv; done).
  rewrite !(app_assoc [to_byte 3]), !(app_assoc _ v).
  replace (([to_byte 3] ++ [x00; to_byte (Z.of_nat 6)]) ++ v) with pre1 by done.
  rewrite (parse_one_spec pre1 x02 rsa) by lia. cbv zeta.
  rewrite (decide_False (P := x02 = x00)), !decide_True by done. osimpl.
  set (pre2 := pre1 ++ [x02; to_byte (Z.of_nat (length rsa))] ++ rsa).
  replace (length pre1 + 2 + length rsa) with (length pre2)
    by (subst pre2; rewrite !length_app; simpl; lia).
  rewrite (app_assoc pre1), (app_assoc _ rsa), <-(app_assoc pre1). fold pre2.
  rewrite <-(app_nil_r ed) at 2.
  rewrite (parse_one_spec pre2 x03 ed []) by lia. cbv zeta.
  rewrite (decide_False (P := x03 = x00)), (decide_False (P := x03 = x02)), !decide_True by done.
  osimpl. cbn [ORAddr RSAID]. rewrite (bool_decide_true (length rsa = 20)) by done.
  rewrite bool_decide_false; [done|].
  unfold JoinHostPort. by destruct (contains_byte _ _); destruct (dotted a b c d).
Qed.

(** Link specifiers round trip across packages.  For an IPv4 relay, what
    the circuit layer encodes ([RelayInfo.linkSpecifiers]) is parsed by the
    onion layer ([ParseLinkSpecifiers]) back to the same address, RSA identity
    and Ed25519 identity. *)
Theorem link_specifiers_roundtrip (nick rsa ed ntor : bytes) (a b c d : byte) (port : Z) :
  length rsa = 20 → length ed = 32 → (0 ≤ port < 65536)%Z →
  let addr := JoinHostPort (dotted a b c d) (Itoa port) in
  ∃ raw,
    linkSpecifiers {| Nickname := nick; RelayInfo.ORAddr := addr; RSAIDDigest := rsa;
                      EdIdentity := ed; NtorOnionKey := ntor |} = Ok raw ∧
    ParseLinkSpecifiers raw = Ok {| ORAddr := addr; RSAID := rsa; EdID := ed |}.
Proof.
  intros Hrsa Hed Hport addr. pose proof (dotted_plain a b c d) as Hd.
  eexists. split.
  - unfold linkSpecifiers. simpl RelayInfo.ORAddr. subst addr.
    rewrite JoinHostPort_plain by apply Hd.
    rewrite SplitHostPort_plain by (done || apply Itoa_plain; lia). osimpl.
    rewrite ParseIP_dotted, ParseUint_Itoa by done. simpl RSAIDDigest. simpl EdIdentity.
    rewrite !bool_decide_true by done. osimpl.
    unfold Writer.Bytes. rewrite foldl_write_spec. reflexivity.
  - pose proof (ParseLinkSpecifiers_ipv4 a b c d (be_encode 2 port) rsa ed
      (length_be_encode _ _) Hrsa Hed) as Hp.
    rewrite be_decode_encode, Z.mod_small in Hp by lia. subst addr. rewrite <-Hp. f_equal.
    cbn [mbind list_bind]. rewrite app_nil_r. reflexivity.
Qed.

Lemma link_specifiers_roundtrip_witness :
  let rsa := zeros 20 in let ed := zeros 32 in
  ∃ raw, linkSpecifiers {| Nickname := go"moria1"; RelayInfo.ORAddr := go"128.31.0.39:9201";
                           RSAIDDigest := rsa; EdIdentity := ed; NtorOnionKey := [] |} = Ok raw ∧
  ParseLinkSpecifiers raw = Ok {| ORAddr := go"128.31.0.39:9201"; RSAID := rsa; EdID := ed |}.
Proof.
  exact (link_specifiers_roundtrip go"moria1" (zeros 20) (zeros 32) [] x80 x1f x00 x27 9201
           eq_refl eq_refl ltac:(lia)).
Defined.

End LinkSpec.
