(* ===== verification/OnionCrypto.v ===== *)
(** * [pkg/circuit]: the per-hop onion cryptography.

    [encryptForwardLocked] and [decryptInboundLocked] of circuit.go over the
    list of hops, the relay side as the repository's tests model it, and the
    proof that the two stay in step: every relay cell sent to any hop is
    decoded by that hop, and every cell a hop originates is recognized at that
    hop, for whole sequences of cells. *)

From S2P Require Import Prelude ByteUtil Cell TorCrypto RelayInfo.

(** ** Hops *)

Record hop := mkHop {
  info : RelayInfo;
  fwdCipher : Stream;
  bwdCipher : Stream;
  fwdDigest : RunningDigest;
  bwdDigest : RunningDigest
}.

Definition set_fwdCipher (h : hop) (s : Stream) : hop :=
  {| info := info h; fwdCipher := s; bwdCipher := bwdCipher h;
     fwdDigest := fwdDigest h; bwdDigest := bwdDigest h |}.
Definition set_bwdCipher (h : hop) (s : Stream) : hop :=
  {| info := info h; fwdCipher := fwdCipher h; bwdCipher := s;
     fwdDigest := fwdDigest h; bwdDigest := bwdDigest h |}.
Definition set_fwdDigest (h : hop) (d : RunningDigest) : hop :=
  {| info := info h; fwdCipher := fwdCipher h; bwdCipher := bwdCipher h;
     fwdDigest := d; bwdDigest := bwdDigest h |}.
Definition set_bwdDigest (h : hop) (d : RunningDigest) : hop :=
  {| info := info h; fwdCipher := fwdCipher h; bwdCipher := bwdCipher h;
     fwdDigest := fwdDigest h; bwdDigest := d |}.

Section OnionCrypto.
Context `{C : Crypto}.

(** ** Sending *)

(** The loop [for i := destHop; i >= 0; i-- { XORKeyStream }] over the first
    [n = destHop+1] hops: the recursion reaches hop [destHop] first and
    applies hop 0 last. *)
Fixpoint layer_forward (hops : list hop) (n : nat) (payload : bytes) : bytes * list hop :=
  match n, hops with
  | S n, h :: t =>
      let '(p, t') := layer_forward t n payload in
      let '(p', s) := XORKeyStream (fwdCipher h) p in
      (p', set_fwdCipher h s :: t')
  | _, _ => (payload, hops)
  end.

(** [rc] with the recognized and digest fields zeroed. *)
Definition zeroed (rc : Relay.RelayCell) : Relay.RelayCell :=
  {| Relay.Cmd := Relay.Cmd rc; Relay.Recognized := 0; Relay.StreamID := Relay.StreamID rc;
     Relay.Digest := zeros 4; Relay.Data := Relay.Data rc |}.

(** [c.hops[destHop]] out of range is a panic. *)
Definition encryptForwardLocked {E} (hops : list hop) (destHop : nat) (rc : Relay.RelayCell)
    : outcome E (bytes * list hop) :=
  match hops !! destHop with
  | None => Panic
  | Some h =>
      let payload := Relay.Encode (zeroed rc) in
      let d := Update (fwdDigest h) payload in
      let snap := Snapshot d in
      let payload := copy_at Relay.RelayDigestOffset (take Relay.RelayDigestLen snap) payload in
      Ok (layer_forward (<[destHop := set_fwdDigest h d]> hops) (S destHop) payload)
  end.

(** ** Receiving *)

(** One iteration of the peeling loop: remove this hop's backward layer and
    test whether the cell is recognized here.  The boolean is the outcome of
    the test, the hop carries the advanced cipher and, on success, the
    committed digest. *)
Definition peel_step (h : hop) (payload : bytes) : bool * bytes * hop :=
  let '(payload, s) := XORKeyStream (bwdCipher h) payload in
  let h := set_bwdCipher h s in
  if negb (bool_decide (BE_Uint16 (drop Relay.RelayRecognizedOffset payload) = 0%Z))
  then (false, payload, h)
  else
    let want := take Relay.RelayDigestLen (drop Relay.RelayDigestOffset payload) in
    let hashable := copy_at Relay.RelayDigestOffset (zeros Relay.RelayDigestLen) payload in
    let '(ok, d) := VerifyAndCommit (bwdDigest h) hashable want in
    (ok, payload, set_bwdDigest h d).

(** [decryptInboundLocked]: the recognizing hop and the decoded cell, if any
    hop recognizes the payload, and the hops afterwards. *)
Fixpoint decryptInboundLocked (hops : list hop) (payload : bytes)
    : option (nat * option Relay.RelayCell) * list hop :=
  match hops with
  | [] => (None, [])
  | h :: t =>
      let '(ok, payload, h) := peel_step h payload in
      if ok then (Some (0, Relay.DecodeRelay payload), h :: t)
      else
        let '(res, t) := decryptInboundLocked t payload in
        ((λ ic, (S ic.1, ic.2)) <$> res, h :: t)
  end.

(** ** The relay side, as circuit_test.go models it *)

Record relayModel := mkRelay {
  rFwdCipher : Stream;
  rBwdCipher : Stream;
  rFwdDigest : RunningDigest;
  rBwdDigest : RunningDigest
}.

(** [relayDecodeForward]: relays 0..destHop each peel a forward layer. *)
Fixpoint relay_peel (relays : list relayModel) (n : nat) (payload : bytes)
    : bytes * list relayModel :=
  match n, relays with
  | S n, r :: t =>
      let '(p, s) := XORKeyStream (rFwdCipher r) payload in
      let '(p', t') := relay_peel t n p in
      (p', {| rFwdCipher := s; rBwdCipher := rBwdCipher r;
              rFwdDigest := rFwdDigest r; rBwdDigest := rBwdDigest r |} :: t')
  | _, _ => (payload, relays)
  end.

Definition relayDecodeForward (relays : list relayModel) (destHop : nat) (payload : bytes)
    : option Relay.RelayCell * list relayModel :=
  let '(payload, relays) := relay_peel relays (S destHop) payload in
  match relays !! destHop with
  | None => (None, relays)
  | Some r =>
      if negb (bool_decide (BE_Uint16 (drop Relay.RelayRecognizedOffset payload) = 0%Z))
      then (None, relays)
      else
        let want := take Relay.RelayDigestLen (drop Relay.RelayDigestOffset payload) in
        let hashable := copy_at Relay.RelayDigestOffset (zeros Relay.RelayDigestLen) payload in
        let '(ok, d) := VerifyAndCommit (rFwdDigest r) hashable want in
        if ok then
          (Relay.DecodeRelay payload,
           <[destHop := {| rFwdCipher := rFwdCipher r; rBwdCipher := rBwdCipher r;
                           rFwdDigest := d; rBwdDigest := rBwdDigest r |}]> relays)
        else (None, relays)
  end.

(** [relayOriginateBackward]: [srcHop] stamps its backward digest and the
    relays down to 0 add their layers. *)
Fixpoint relay_layer (relays : list relayModel) (n : nat) (payload : bytes)
    : bytes * list relayModel :=
  match n, relays with
  | S n, r :: t =>
      let '(p, t') := relay_layer t n payload in
      let '(p', s) := XORKeyStream (rBwdCipher r) p in
      (p', {| rFwdCipher := rFwdCipher r; rBwdCipher := s;
              rFwdDigest := rFwdDigest r; rBwdDigest := rBwdDigest r |} :: t')
  | _, _ => (payload, relays)
  end.

Definition relayOriginateBackward (relays : list relayModel) (srcHop : nat)
    (rc : Relay.RelayCell) : option (bytes * list relayModel) :=
  match relays !! srcHop with
  | None => None
  | Some r =>
      let payload := Relay.Encode (zeroed rc) in
      let d := Update (rBwdDigest r) payload in
      let payload := copy_at Relay.RelayDigestOffset
                       (take Relay.RelayDigestLen (Snapshot d)) payload in
      Some (relay_layer (<[srcHop := {| rFwdCipher := rFwdCipher r; rBwdCipher := rBwdCipher r;
                                        rFwdDigest := rFwdDigest r; rBwdDigest := d |}]> relays)
              (S srcHop) payload)
  end.

(** A client hop and a relay that share their cryptographic state. *)
Definition in_step (h : hop) (r : relayModel) : Prop :=
  fwdCipher h = rFwdCipher r ∧ bwdCipher h = rBwdCipher r ∧
  fwdDigest h = rFwdDigest r ∧ bwdDigest h = rBwdDigest r.

(** What the other end decodes: fields at their widths, the digest stamped. *)
Definition same_cell (rc got : Relay.RelayCell) : Prop :=
  Relay.Cmd got = Relay.Cmd rc ∧ Relay.StreamID got = u16 (Relay.StreamID rc) ∧
  Relay.Recognized got = 0%Z ∧
  Relay.Data got = take Relay.RelayDataLen (Relay.Data rc).

(** ** Layers cancel *)

(** A stream after [k] more keystream bytes. *)
Definition adv (s : Stream) (k : nat) : Stream :=
  {| skey := skey s; siv := siv s; soff := soff s + k |}.

Lemma XORKeyStream_adv s src : XORKeyStream s src = ((XORKeyStream s src).1, adv s (length src)).
Proof. done. Qed.

Lemma length_layer_forward hops n p : length (layer_forward hops n p).1 = length p.
Proof.
  revert hops p. induction n as [|n IH]; intros [|h t] p; simpl; try done.
  specialize (IH t p). destruct (layer_forward t n p) as [p' t']. simpl in *.
  by rewrite length_xor_from.
Qed.

(** Layering only advances the forward ciphers of the first [n] hops. *)
Lemma layer_forward_hops hops n p :
  (layer_forward hops n p).2 =
  imap (λ i h, if i <? n then set_fwdCipher h (adv (fwdCipher h) (length p)) else h) hops.
Proof.
  revert n p. induction hops as [|h t IH]; intros [|n] p; simpl; try done.
  - f_equal. specialize (IH 0 p). by destruct t.
  - pose proof (length_layer_forward t n p) as Hl. specialize (IH n p).
    destruct (layer_forward t n p) as [p' t']. simpl in *. rewrite Hl. by subst t'.
Qed.

Lemma length_relay_layer relays n p : length (relay_layer relays n p).1 = length p.
Proof.
  revert relays p. induction n as [|n IH]; intros [|r t] p; simpl; try done.
  specialize (IH t p). destruct (relay_layer t n p) as [p' t']. simpl in *.
  by rewrite length_xor_from.
Qed.

Definition adv_rFwd (r : relayModel) (k : nat) : relayModel :=
  {| rFwdCipher := adv (rFwdCipher r) k; rBwdCipher := rBwdCipher r;
     rFwdDigest := rFwdDigest r; rBwdDigest := rBwdDigest r |}.
Definition adv_rBwd (r : relayModel) (k : nat) : relayModel :=
  {| rFwdCipher := rFwdCipher r; rBwdCipher := adv (rBwdCipher r) k;
     rFwdDigest := rFwdDigest r; rBwdDigest := rBwdDigest r |}.

Lemma relay_peel_relays relays n p :
  (relay_peel relays n p).2 =
  imap (λ i r, if i <? n then adv_rFwd r (length p) else r) relays.
Proof.
  revert n p. induction relays as [|r t IH]; intros [|n] p; simpl; try done.
  - f_equal. specialize (IH 0 p). by destruct t.
  - specialize (IH n (xor_from (aes_keystream (skey (rFwdCipher r)) (siv (rFwdCipher r)))
                        (soff (rFwdCipher r)) p)).
    rewrite length_xor_from in IH.
    destruct (relay_peel t n _) as [p' t']. simpl in *. by subst t'.
Qed.

Lemma relay_layer_relays relays n p :
  (relay_layer relays n p).2 =
  imap (λ i r, if i <? n then adv_rBwd r (length p) else r) relays.
Proof.
  revert n p. induction relays as [|r t IH]; intros [|n] p; simpl; try done.
  - f_equal. specialize (IH 0 p). by destruct t.
  - pose proof (length_relay_layer t n p) as Hl. specialize (IH n p).
    destruct (relay_layer t n p) as [p' t']. simpl in *. rewrite Hl. by subst t'.
Qed.

(** Peeling undoes layering whenever the forward ciphers agree. *)
Lemma forward_layers_cancel hops relays n p :
  Forall2 (λ h r, fwdCipher h = rFwdCipher r) hops relays →
  (relay_peel relays n (layer_forward hops n p).1).1 = p.
Proof.
  intros H. revert n p. induction H as [|h r hops relays Hs H IH]; intros [|n] p; simpl; try done.
  specialize (IH n p). destruct (layer_forward hops n p) as [q t'] eqn:E. simpl in *.
  rewrite Hs, xor_from_involutive. by destruct (relay_peel relays n q).
Qed.

Context `{L : !CryptoLaws C}.

(** The stamped payload, recognized by a digest in the sender's state. *)
Lemma stamped_recognized rc d :
  let plain := Relay.Encode (zeroed rc) in
  let stamp := take Relay.RelayDigestLen (Snapshot (Update d plain)) in
  let payload := copy_at Relay.RelayDigestOffset stamp plain in
  BE_Uint16 (drop Relay.RelayRecognizedOffset payload) = 0%Z ∧
  copy_at Relay.RelayDigestOffset (zeros Relay.RelayDigestLen) payload = plain ∧
  take Relay.RelayDigestLen (drop Relay.RelayDigestOffset payload) = stamp ∧
  VerifyAndCommit d plain stamp = (true, Update d plain) ∧
  ∃ got, Relay.DecodeRelay payload = Some got ∧ same_cell rc got.
Proof.
  intros plain stamp payload.
  assert (length stamp = 4) as Hst.
  { apply length_take_Snapshot. unfold Relay.RelayDigestLen. lia. }
  assert (plain = Relay.layout (Relay.Cmd rc) 0 (Relay.StreamID rc) (zeros 4)
            (take Relay.RelayDataLen (Relay.Data rc))) as Hpl
    by (subst plain; by rewrite Relay.Encode_layout).
  assert (payload = Relay.layout (Relay.Cmd rc) 0 (Relay.StreamID rc) stamp
            (take Relay.RelayDataLen (Relay.Data rc))) as Hpay.
  { subst payload. rewrite Hpl. by apply Relay.layout_set_digest. }
  rewrite Hpay. split_and!.
  - by rewrite Relay.layout_recognized.
  - rewrite Hpl. by apply Relay.layout_set_digest.
  - by apply Relay.layout_digest.
  - apply VerifyAndCommit_true. split; [done|]. by rewrite Hst.
  - eexists. rewrite Relay.DecodeRelay_layout; [split; [done|]|done|apply length_take_le].
    by repeat split.
Qed.

(** ** Forward direction *)

Lemma encrypt_in_range {E} hops dest rc :
  dest < length hops → ∃ p hops', encryptForwardLocked (E:=E) hops dest rc = Ok (p, hops').
Proof.
  intros H. apply lookup_lt_is_Some_2 in H as [h Hh]. unfold encryptForwardLocked.
  rewrite Hh. destruct (layer_forward _ _ _) as [p hops']. eauto.
Qed.

Lemma encrypt_hops_length {E} hops dest rc p hops' :
  encryptForwardLocked (E:=E) hops dest rc = Ok (p, hops') → length hops' = length hops.
Proof.
  unfold encryptForwardLocked. destruct (hops !! dest) as [h|]; [|done]. intros [= H].
  apply (f_equal snd) in H. simpl snd in H. rewrite layer_forward_hops in H. subst hops'.
  by rewrite length_imap, length_insert.
Qed.

(** A relation between hops and relays that ties the forward states together
    and is kept when both sides advance them in the same way: [in_step], or
    its forward half alone. *)
Record forward_relation (R : hop → relayModel → Prop) : Prop := {
  fr_state : ∀ h r, R h r → fwdCipher h = rFwdCipher r ∧ fwdDigest h = rFwdDigest r;
  fr_step : ∀ h r s d, R h r →
    R {| info := info h; fwdCipher := s; bwdCipher := bwdCipher h; fwdDigest := d;
         bwdDigest := bwdDigest h |}
      {| rFwdCipher := s; rBwdCipher := rBwdCipher r; rFwdDigest := d;
         rBwdDigest := rBwdDigest r |}
}.

Definition fwd_in_step (h : hop) (r : relayModel) : Prop :=
  fwdCipher h = rFwdCipher r ∧ fwdDigest h = rFwdDigest r.

Lemma in_step_relation : forward_relation in_step.
Proof. constructor; unfold in_step; simpl; naive_solver. Qed.
Lemma fwd_in_step_relation : forward_relation fwd_in_step.
Proof. constructor; unfold fwd_in_step; simpl; naive_solver. Qed.

(** One cell: the destination decodes it and both ends stay in step. *)
Lemma forward_cell_rel {E} (R : hop → relayModel → Prop) hops relays dest rc p hops' :
  forward_relation R → Forall2 R hops relays →
  encryptForwardLocked (E:=E) hops dest rc = Ok (p, hops') →
  ∃ got, (relayDecodeForward relays dest p).1 = Some got ∧ same_cell rc got ∧
    Forall2 R hops' (relayDecodeForward relays dest p).2.
Proof.
  intros HR Hs. unfold encryptForwardLocked.
  destruct (hops !! dest) as [h|] eqn:Hh; [|done].
  destruct (Forall2_lookup_l _ _ _ _ _ Hs Hh) as (r&Hr&HRr).
  destruct (fr_state R HR _ _ HRr) as [Hf Hd].
  destruct (stamped_recognized rc (fwdDigest h)) as (R1&R2&R3&R4&got&R5&R6).
  set (plain := Relay.Encode (zeroed rc)) in *.
  set (d := Update (fwdDigest h) plain) in *.
  set (stamp := take Relay.RelayDigestLen (Snapshot d)) in *.
  set (payload := copy_at Relay.RelayDigestOffset stamp plain) in *.
  cbv zeta. clearbody payload stamp d plain.
  set (hops1 := <[dest := set_fwdDigest h d]> hops).
  assert (Forall2 (λ h r, fwdCipher h = rFwdCipher r) hops1 relays) as Hc.
  { subst hops1. rewrite <-(list_insert_id relays dest r) by done.
    apply Forall2_insert; [|done]. eapply Forall2_impl; [|exact Hs].
    intros ?? H. apply (fr_state R HR _ _ H). }
  pose proof (forward_layers_cancel _ _ (S dest) payload Hc) as Hpeel.
  pose proof (layer_forward_hops hops1 (S dest) payload) as Hh'.
  pose proof (relay_peel_relays relays (S dest) (layer_forward hops1 (S dest) payload).1) as Hr'.
  rewrite length_layer_forward in Hr'.
  destruct (layer_forward hops1 (S dest) payload) as [q hops2]. simpl in Hpeel, Hh', Hr'.
  intros [= <- <-]. unfold relayDecodeForward.
  destruct (relay_peel relays (S dest) q) as [p1 relays1]. simpl in Hpeel, Hr'. subst p1.
  assert (relays1 !! dest = Some (adv_rFwd r (length payload))) as Hr1.
  { subst relays1. rewrite list_lookup_imap, Hr. cbn [fmap option_fmap option_map].
    by destruct (Nat.ltb_spec dest (S dest)); [|lia]. }
  rewrite Hr1, R1, bool_decide_true by done. osimpl.
  rewrite R2, R3. simpl rFwdDigest. rewrite <-Hd, R4. osimpl.
  exists got. split; [done|]. split; [done|].
  subst hops2 relays1 hops1. rewrite imap_insert. apply Forall2_insert.
  - eapply Forall2_imap; [|exact Hs]. intros i h' r' H'.
    destruct (i <? S dest); [|done]. destruct (fr_state R HR _ _ H') as [E1 E2].
    unfold set_fwdCipher, adv_rFwd. rewrite <-E1, <-E2. by apply (fr_step R HR).
  - destruct (Nat.ltb_spec dest (S dest)); [|lia]. unfold set_fwdCipher, adv_rFwd. simpl.
    rewrite <-Hf. by apply (fr_step R HR).
Qed.

Lemma forward_cell {E} hops relays dest rc p hops' :
  Forall2 in_step hops relays →
  encryptForwardLocked (E:=E) hops dest rc = Ok (p, hops') →
  ∃ got, (relayDecodeForward relays dest p).1 = Some got ∧ same_cell rc got ∧
    Forall2 in_step hops' (relayDecodeForward relays dest p).2.
Proof. apply forward_cell_rel, in_step_relation. Qed.

(** Sending a sequence of cells to the given hops, and the relays decoding
    the payloads in the order they were encrypted. *)
Fixpoint send_all {E} (hops : list hop) (cells : list (nat * Relay.RelayCell))
    : outcome E (list (nat * bytes) * list hop) :=
  match cells with
  | [] => Ok ([], hops)
  | (dest, rc) :: cells =>
      '(p, hops) ← encryptForwardLocked hops dest rc;
      '(ps, hops) ← send_all hops cells;
      Ok ((dest, p) :: ps, hops)
  end.

Fixpoint decode_all (relays : list relayModel) (ps : list (nat * bytes))
    : list (option Relay.RelayCell) :=
  match ps with
  | [] => []
  | (dest, p) :: ps =>
      let '(got, relays) := relayDecodeForward relays dest p in
      got :: decode_all relays ps
  end.

(** C3: the forward onion.  For any sequence of relay cells addressed to any
    hops of the circuit, the payloads produced by the client are decoded, in
    that order, by the addressed relays as exactly those cells (same command,
    stream and data), with every digest check passing. *)
Theorem forward_onion_correct {E} (hops : list hop) (relays : list relayModel)
    (cells : list (nat * Relay.RelayCell)) :
  Forall2 in_step hops relays →
  Forall (λ dc, dc.1 < length hops) cells →
  ∃ ps hops', send_all (E:=E) hops cells = Ok (ps, hops') ∧
    Forall2 (λ dc got, ∃ rc, got = Some rc ∧ same_cell dc.2 rc) cells (decode_all relays ps).
Proof.
  intros Hs Hc. revert hops relays Hs Hc. induction cells as [|[dest rc] cells IH];
    intros hops relays Hs Hc; simpl.
  { eexists _, _. split; [done|constructor]. }
  inversion Hc as [|? ? Hd Hc']; subst. simpl in Hd.
  destruct (encrypt_in_range (E:=E) hops dest rc Hd) as (p&hops1&He).
  destruct (forward_cell hops relays dest rc p hops1 Hs He) as (got&H1&H2&H3).
  rewrite He. osimpl.
  destruct (relayDecodeForward relays dest p) as [g relays1] eqn:Hg. simpl in H1, H3. subst g.
  destruct (IH hops1 relays1) as (ps&hops2&H4&H5); [done| |].
  { by rewrite (encrypt_hops_length _ _ _ _ _ He). }
  rewrite H4. osimpl. exists ((dest, p) :: ps), hops2. split; [done|].
  simpl. rewrite Hg. constructor; [by exists got|done].
Qed.

(** ** Backward direction *)

(** No hop before [n] takes the cell for its own by accident: at each of them
    the recognized field or the 4-byte digest of the partly peeled payload
    does not match. *)
Fixpoint not_recognized_before (hops : list hop) (n : nat) (payload : bytes) : Prop :=
  match n, hops with
  | S n, h :: t =>
      (peel_step h payload).1.1 = false ∧ not_recognized_before t n (peel_step h payload).1.2
  | _, _ => True
  end.

Lemma peel_step_payload h p : (peel_step h p).1.2 = (XORKeyStream (bwdCipher h) p).1.
Proof. unfold peel_step. simpl. case_match; [done|]. by destruct (VerifyAndCommit _ _ _). Qed.

(** A hop that does not recognize a cell only advances its backward cipher. *)
Lemma peel_step_reject h p :
  (peel_step h p).1.1 = false →
  (peel_step h p).2 = set_bwdCipher h (adv (bwdCipher h) (length p)).
Proof.
  unfold peel_step. simpl. case_match; [done|].
  destruct (VerifyAndCommit _ _ _) as [ok d] eqn:E. simpl. intros ->.
  apply VerifyAndCommit_false in E as ->. by destruct h.
Qed.

(** An inbound cell that no hop recognizes changes nothing but the
    position of the backward keystreams: every digest stays as it was, so a
    stray or forged cell cannot desynchronize the authentication state. *)
Theorem unrecognized_keeps_digests (hops : list hop) (payload : bytes) :
  (decryptInboundLocked hops payload).1 = None →
  (decryptInboundLocked hops payload).2 =
    map (λ h, set_bwdCipher h (adv (bwdCipher h) (length payload))) hops.
Proof.
  revert payload. induction hops as [|h t IH]; intros p; simpl; [done|].
  pose proof (peel_step_reject h p) as Hrej. pose proof (peel_step_payload h p) as Hpay.
  destruct (peel_step h p) as [[ok p'] h'] eqn:E. simpl in Hrej, Hpay.
  destruct ok; [done|]. rewrite Hrej by done.
  specialize (IH p'). assert (length p' = length p) as Hl by (subst p'; apply length_XORKeyStream).
  destruct (decryptInboundLocked t p') as [res t']. simpl in *.
  destruct res; [done|]. intros _. by rewrite IH, Hl.
Qed.

Definition set_rBwdDigest (r : relayModel) (d : RunningDigest) : relayModel :=
  {| rFwdCipher := rFwdCipher r; rBwdCipher := rBwdCipher r;
     rFwdDigest := rFwdDigest r; rBwdDigest := d |}.

(** The counterpart of [forward_relation]: [in_step], or its backward half
    alone. *)
Record backward_relation (R : hop → relayModel → Prop) : Prop := {
  br_state : ∀ h r, R h r → bwdCipher h = rBwdCipher r ∧ bwdDigest h = rBwdDigest r;
  br_step : ∀ h r s d, R h r →
    R {| info := info h; fwdCipher := fwdCipher h; bwdCipher := s; fwdDigest := fwdDigest h;
         bwdDigest := d |}
      {| rFwdCipher := rFwdCipher r; rBwdCipher := s; rFwdDigest := rFwdDigest r;
         rBwdDigest := d |}
}.

Definition bwd_in_step (h : hop) (r : relayModel) : Prop :=
  bwdCipher h = rBwdCipher r ∧ bwdDigest h = rBwdDigest r.

Lemma in_step_backward : backward_relation in_step.
Proof. constructor; unfold in_step; simpl; naive_solver. Qed.
Lemma bwd_in_step_relation : backward_relation bwd_in_step.
Proof. constructor; unfold bwd_in_step; simpl; naive_solver. Qed.

(** The recognizing hop: its layer removed, the check passes and commits. *)
Lemma peel_step_accept h r p d :
  bwdCipher h = rBwdCipher r → bwdDigest h = rBwdDigest r →
  BE_Uint16 (drop Relay.RelayRecognizedOffset p) = 0%Z →
  VerifyAndCommit (rBwdDigest r)
    (copy_at Relay.RelayDigestOffset (zeros Relay.RelayDigestLen) p)
    (take Relay.RelayDigestLen (drop Relay.RelayDigestOffset p)) = (true, d) →
  peel_step h (XORKeyStream (rBwdCipher r) p).1 =
    (true, p, set_bwdDigest (set_bwdCipher h (adv (bwdCipher h) (length p))) d).
Proof.
  intros Hb He H1 H2. unfold peel_step. rewrite Hb, XORKeyStream_inverse.
  rewrite H1, bool_decide_true by done. osimpl. simpl bwdDigest. by rewrite He, H2.
Qed.

Lemma backward_peel (R : hop → relayModel → Prop) src hops relays r p d got :
  backward_relation R → Forall2 R hops relays → relays !! src = Some r →
  BE_Uint16 (drop Relay.RelayRecognizedOffset p) = 0%Z →
  VerifyAndCommit (rBwdDigest r)
    (copy_at Relay.RelayDigestOffset (zeros Relay.RelayDigestLen) p)
    (take Relay.RelayDigestLen (drop Relay.RelayDigestOffset p)) = (true, d) →
  Relay.DecodeRelay p = Some got →
  let out := relay_layer (<[src := set_rBwdDigest r d]> relays) (S src) p in
  not_recognized_before hops src out.1 →
  ∃ hops', decryptInboundLocked hops out.1 = (Some (src, Some got), hops') ∧
    Forall2 R hops' out.2.
Proof.
  intros HR Hs Hr H1 H2 H3. cbv zeta. revert hops relays Hs Hr.
  induction src as [|src IH]; intros hops relays Hs Hr Hn.
  - destruct Hs as [|h r0 hops relays Hst Hs]; [done|]. injection Hr as ->.
    destruct (br_state R HR _ _ Hst) as [Hb He].
    pose proof (peel_step_accept h r p d Hb He H1 H2) as Hp.
    cbn [insert list_insert relay_layer]. cbn [insert list_insert relay_layer] in Hn.
    replace (relay_layer relays 0 p) with (p, relays) by (by destruct relays).
    rewrite XORKeyStream_adv. cbn [fst snd decryptInboundLocked].
    simpl rBwdCipher. rewrite Hp, H3. eexists. split; [done|].
    constructor; [|done]. unfold set_bwdDigest, set_bwdCipher. simpl. rewrite Hb. by apply (br_step R HR).
  - destruct Hs as [|h r0 hops relays Hst Hs]; [done|]. simpl in Hr.
    specialize (IH hops relays Hs Hr).
    cbn [insert list_insert relay_layer]. cbn [insert list_insert relay_layer] in Hn.
    pose proof (length_relay_layer (<[src := set_rBwdDigest r d]> relays) (S src) p) as Hl.
    cbn [insert list_insert] in IH, Hl.
    destruct (relay_layer _ (S src) p) as [q relays'] eqn:Eq.
    rewrite XORKeyStream_adv. rewrite XORKeyStream_adv in Hn. cbn [fst snd] in *.
    destruct (br_state R HR _ _ Hst) as [Hb He].
    destruct Hn as [Hrej Hn]. pose proof (peel_step_reject _ _ Hrej) as Hh.
    rewrite peel_step_payload, Hb, XORKeyStream_inverse in Hn. cbn [fst] in Hn.
    destruct (IH Hn) as (hops'&Hd'&Hin). cbn [decryptInboundLocked].
    pose proof (peel_step_payload h (XORKeyStream (rBwdCipher r0) q).1) as Hpp.
    rewrite Hb, XORKeyStream_inverse in Hpp.
    destruct (peel_step h _) as [[ok p'] h'] eqn:Ep. cbn [fst snd] in *. subst ok p' h'.
    rewrite Hd'. eexists. split; [done|]. constructor; [|done].
    unfold set_bwdCipher. simpl. rewrite length_xor_from, Hb, He. by apply (br_step R HR).
Qed.

Lemma backward_cell_rel (R : hop → relayModel → Prop) hops relays src rc p relays' :
  backward_relation R → Forall2 R hops relays →
  relayOriginateBackward relays src rc = Some (p, relays') →
  not_recognized_before hops src p →
  ∃ got hops', decryptInboundLocked hops p = (Some (src, Some got), hops') ∧
    same_cell rc got ∧ Forall2 R hops' relays'.
Proof.
  intros HR Hs. unfold relayOriginateBackward.
  destruct (relays !! src) as [r|] eqn:Hr; [|done].
  destruct (stamped_recognized rc (rBwdDigest r)) as (R1&R2&R3&R4&got&R5&R6).
  set (plain := Relay.Encode (zeroed rc)) in *.
  set (d := Update (rBwdDigest r) plain) in *.
  set (stamp := take Relay.RelayDigestLen (Snapshot d)) in *.
  set (payload := copy_at Relay.RelayDigestOffset stamp plain) in *.
  cbv zeta. clearbody payload stamp d plain. intros [= Ho] Hn.
  subst plain stamp.
  pose proof (backward_peel R src hops relays r payload d got HR Hs Hr R1 R4 R5) as H.
  unfold set_rBwdDigest in H. rewrite Ho in H.
  destruct (H Hn) as (hops'&?&?). eauto.
Qed.

Lemma backward_cell hops relays src rc p relays' :
  Forall2 in_step hops relays →
  relayOriginateBackward relays src rc = Some (p, relays') →
  not_recognized_before hops src p →
  ∃ got hops', decryptInboundLocked hops p = (Some (src, Some got), hops') ∧
    same_cell rc got ∧ Forall2 in_step hops' relays'.
Proof. apply backward_cell_rel, in_step_backward. Qed.

(** The relays originate cells one after the other, and the client receives
    the payloads in that order. *)
Fixpoint originate_all (relays : list relayModel) (cells : list (nat * Relay.RelayCell))
    : option (list bytes) :=
  match cells with
  | [] => Some []
  | (src, rc) :: cells =>
      '(p, relays) ← relayOriginateBackward relays src rc;
      ps ← originate_all relays cells;
      Some (p :: ps)
  end.

Fixpoint receive_all (hops : list hop) (ps : list bytes)
    : list (option (nat * option Relay.RelayCell)) :=
  match ps with
  | [] => []
  | p :: ps =>
      let '(res, hops) := decryptInboundLocked hops p in
      res :: receive_all hops ps
  end.

(** No accidental recognition at a hop before the originating one, along the
    whole sequence. *)
Fixpoint no_false_recognition (hops : list hop) (srcs : list nat) (ps : list bytes) : Prop :=
  match srcs, ps with
  | src :: srcs, p :: ps =>
      not_recognized_before hops src p ∧
      no_false_recognition (decryptInboundLocked hops p).2 srcs ps
  | _, _ => True
  end.

(** C4: the backward onion.  Cells originated by any hops, received in order,
    are each recognized at exactly the originating hop and decoded as the cell
    that was sent, unless an earlier hop's 2-byte recognized field and 4-byte
    digest match by accident. *)
Theorem backward_onion_correct (hops : list hop) (relays : list relayModel)
    (cells : list (nat * Relay.RelayCell)) (ps : list bytes) :
  Forall2 in_step hops relays →
  originate_all relays cells = Some ps →
  no_false_recognition hops (map fst cells) ps →
  Forall2 (λ sc res, ∃ got, res = Some (sc.1, Some got) ∧ same_cell sc.2 got)
    cells (receive_all hops ps).
Proof.
  revert hops relays ps. induction cells as [|[src rc] cells IH]; intros hops relays ps Hs Ho Hn.
  { injection Ho as <-. constructor. }
  simpl in Ho. destruct (relayOriginateBackward relays src rc) as [[p relays1]|] eqn:Hb; [|done].
  simpl in Ho. destruct (originate_all relays1 cells) as [ps'|] eqn:Hps; [|done].
  simpl in Ho. injection Ho as <-. simpl in Hn. destruct Hn as [Hn1 Hn2].
  destruct (backward_cell hops relays src rc p relays1 Hs Hb Hn1) as (got&hops1&Hd&Hc&Hs1).
  simpl. rewrite Hd. rewrite Hd in Hn2. constructor; [by exists got|]. by eapply IH.
Qed.

End OnionCrypto.
