(* ===== verification/Circuit.v ===== *)
(** * [pkg/circuit/circuit.go]: circuit state, handlers and flow control.

    The circuit's state under [c.mu] and [c.sendMu] as a record, each method
    as a call on the node (circuit, link, and the log of callbacks and spawned
    goroutines), written against the [Link] interface.  Blocking selects take
    the chosen case as an argument and are blocked when it is not ready. *)

From S2P Require Import Prelude ByteUtil Cell TorCrypto RelayInfo OnionCrypto.

(** ** The link a circuit runs over *)

(** [Link]: what a circuit needs of a link channel.  [AllocCircuit] also
    returns a handle that stands for the inbox and done channels; it does not
    return ([None]) when its search for a free ID does not end. *)
Class Link (L LE : Type) := {
  SendCell : L → Cell → option LE * L;
  AllocCircuit : L → option (outcome LE (Z * nat) * L);
  FreeCircuit : L → Z → L
}.

(** What [ctx.Err()] returns. *)
Inductive ctx_error := Canceled | DeadlineExceeded.

(** ** Constants *)

Definition handshakeTypeNtor : Z := 2.
Definition maxRelayEarly : nat := 8.
Definition circWindowStart : nat := 1000.
Definition circWindowIncrement : nat := 100.
Definition sendmeVersionAuth : byte := x01.
Definition sendmeTagLen : nat := 20.

Section Circuit.
Context {LE : Type}.

Inductive circuit_error :=
| ErrCircuitClosed
| ErrRelayEarlyExpired
| ErrDestroyed
| AllocIDErr (e : LE)
| EmptyPath
| NtorInit (e : crypto_error)
| SendCREATE2 (e : LE)
| CREATED2Err (e : crypto_error)
| CtxErr (e : ctx_error)
| ExtendBeforeCreate
| LinkSpecErr (e : relayinfo_error)
| SendEXTEND2 (e : circuit_error)
| EXTENDED2Err (e : crypto_error)
| ShortKeyMaterial
| FwdCipherErr (e : crypto_error)
| BwdCipherErr (e : crypto_error)
| LinkErr (e : LE).

(** The fields of [Circuit].  [sendNext] and [sendTurn] are [uint64] counters
    of relay cells, unbounded here.  A capacity-1 [chan []byte] is an option,
    [destroyed] tells whether that channel is closed, and the two callbacks
    are present or nil. *)
Record Circuit := mkCircuit {
  id : Z;
  inbox : nat;
  hops : list hop;
  relayEarlyCount : nat;
  closed : bool;
  closeErr : option circuit_error;
  sendNext : nat;
  sendTurn : nat;
  createdCh : option bytes;
  extendedCh : option bytes;
  destroyed : bool;
  circPkgTokens : Tokens.Tokens;
  circDeliverWindow : Z;
  onStreamCell : bool;
  onControlCell : bool
}.

Definition set_hops (h : list hop) (c : Circuit) : Circuit :=
  mkCircuit (id c) (inbox c) h (relayEarlyCount c) (closed c) (closeErr c) (sendNext c)
    (sendTurn c) (createdCh c) (extendedCh c) (destroyed c) (circPkgTokens c)
    (circDeliverWindow c) (onStreamCell c) (onControlCell c).
Definition set_early (n : nat) (c : Circuit) : Circuit :=
  mkCircuit (id c) (inbox c) (hops c) n (closed c) (closeErr c) (sendNext c)
    (sendTurn c) (createdCh c) (extendedCh c) (destroyed c) (circPkgTokens c)
    (circDeliverWindow c) (onStreamCell c) (onControlCell c).
Definition set_failed (e : circuit_error) (c : Circuit) : Circuit :=
  mkCircuit (id c) (inbox c) (hops c) (relayEarlyCount c) true (Some e) (sendNext c)
    (sendTurn c) (createdCh c) (extendedCh c) true (circPkgTokens c)
    (circDeliverWindow c) (onStreamCell c) (onControlCell c).
Definition set_next (n : nat) (c : Circuit) : Circuit :=
  mkCircuit (id c) (inbox c) (hops c) (relayEarlyCount c) (closed c) (closeErr c) n
    (sendTurn c) (createdCh c) (extendedCh c) (destroyed c) (circPkgTokens c)
    (circDeliverWindow c) (onStreamCell c) (onControlCell c).
Definition set_turn (n : nat) (c : Circuit) : Circuit :=
  mkCircuit (id c) (inbox c) (hops c) (relayEarlyCount c) (closed c) (closeErr c) (sendNext c)
    n (createdCh c) (extendedCh c) (destroyed c) (circPkgTokens c)
    (circDeliverWindow c) (onStreamCell c) (onControlCell c).
Definition set_created (o : option bytes) (c : Circuit) : Circuit :=
  mkCircuit (id c) (inbox c) (hops c) (relayEarlyCount c) (closed c) (closeErr c) (sendNext c)
    (sendTurn c) o (extendedCh c) (destroyed c) (circPkgTokens c)
    (circDeliverWindow c) (onStreamCell c) (onControlCell c).
Definition set_extended (o : option bytes) (c : Circuit) : Circuit :=
  mkCircuit (id c) (inbox c) (hops c) (relayEarlyCount c) (closed c) (closeErr c) (sendNext c)
    (sendTurn c) (createdCh c) o (destroyed c) (circPkgTokens c)
    (circDeliverWindow c) (onStreamCell c) (onControlCell c).
Definition set_tokens (t : Tokens.Tokens) (c : Circuit) : Circuit :=
  mkCircuit (id c) (inbox c) (hops c) (relayEarlyCount c) (closed c) (closeErr c) (sendNext c)
    (sendTurn c) (createdCh c) (extendedCh c) (destroyed c) t
    (circDeliverWindow c) (onStreamCell c) (onControlCell c).
Definition set_window (w : Z) (c : Circuit) : Circuit :=
  mkCircuit (id c) (inbox c) (hops c) (relayEarlyCount c) (closed c) (closeErr c) (sendNext c)
    (sendTurn c) (createdCh c) (extendedCh c) (destroyed c) (circPkgTokens c)
    w (onStreamCell c) (onControlCell c).
Definition SetStreamHandler (fn : bool) (c : Circuit) : Circuit :=
  mkCircuit (id c) (inbox c) (hops c) (relayEarlyCount c) (closed c) (closeErr c) (sendNext c)
    (sendTurn c) (createdCh c) (extendedCh c) (destroyed c) (circPkgTokens c)
    (circDeliverWindow c) fn (onControlCell c).
Definition SetControlHandler (fn : bool) (c : Circuit) : Circuit :=
  mkCircuit (id c) (inbox c) (hops c) (relayEarlyCount c) (closed c) (closeErr c) (sendNext c)
    (sendTurn c) (createdCh c) (extendedCh c) (destroyed c) (circPkgTokens c)
    (circDeliverWindow c) (onStreamCell c) fn.

Definition ID (c : Circuit) : Z := id c.
Definition Closed (c : Circuit) : bool := closed c.
Definition NumHops (c : Circuit) : nat := length (hops c).

(** [LastHop]. *)
Definition LastHop (c : Circuit) : option RelayInfo :=
  if length (hops c) =? 0 then None else option_map info (hops c !! (length (hops c) - 1)).

(** ** Flow-control and handshake helpers *)

(** [parseLenPrefixed]: nil on malformed input; copying an empty slice also
    gives nil. *)
Definition parseLenPrefixed (b : bytes) : option bytes :=
  let r := Reader.NewReader b in
  let '(n, r) := Reader.U16 r in
  let '(data, r) := Reader.Bytes r n in
  if Reader.Err r then None
  else match data with Some (x :: d) => Some (x :: d) | _ => None end.

(** [deliverHandshake] on a channel of capacity 1: nil is ignored, a second
    response is dropped. *)
Definition deliverHandshake (ch data : option bytes) : option bytes :=
  match data with
  | None => ch
  | Some _ => match ch with None => data | Some _ => ch end
  end.

Definition creditPackageWindow (n : nat) (c : Circuit) : Circuit :=
  set_tokens (Tokens.credit n (circPkgTokens c)) c.

Definition encodeSendmeV1 (tag : bytes) : bytes :=
  let d := if sendmeTagLen <? length tag then take sendmeTagLen tag else tag in
  Writer.Bytes (Writer.Write (Writer.U16 (Writer.Byte (Writer.NewWriter (3 + length d))
    sendmeVersionAuth) (Z.of_nat (length d))) d).

(** [fail]: the first error wins, [destroyed] is closed with it. *)
Definition fail (e : circuit_error) (c : Circuit) : Circuit :=
  if closed c then c else set_failed e c.

(** [cell.RelayCell{Command: cmd, StreamID: sid, Data: data}]. *)
Definition relay_cell (cmd : byte) (sid : Z) (data : bytes) : Relay.RelayCell :=
  {| Relay.Cmd := cmd; Relay.Recognized := 0; Relay.StreamID := sid;
     Relay.Digest := zeros 4; Relay.Data := data |}.

(** What the circuit does besides changing its own state: calls of the two
    callbacks, and the goroutine that writes a detached SENDME ([cl] is [rc]
    encrypted to [dest]). *)
Inductive effect :=
| StreamCell (rc : Relay.RelayCell)
| ControlCell (rc : Relay.RelayCell)
| Spawn (dest : nat) (rc : Relay.RelayCell) (ticket : nat) (cl : Cell).

Section Crypto.
Context `{C : Crypto}.

(** ** Critical sections under [c.mu] *)

(** What the locked part of a send decides: an immediate return of an error
    value (nil is a Go success), or a claimed ticket with its cell. *)
Inductive claim :=
| Returned (err : option circuit_error)
| Claimed (ticket : nat) (cl : Cell).

(** Lines 337-362 of [sendRelay]; a negative [destHop] indexes out of range. *)
Definition sendRelay_locked (destHop : Z) (rc : Relay.RelayCell) (early : bool)
    (c : Circuit) : outcome circuit_error claim * Circuit :=
  if closed c then (Ok (Returned (closeErr c)), c)
  else if (Z.of_nat (length (hops c)) <=? destHop)%Z
  then (Ok (Returned (Some ErrCircuitClosed)), c)
  else if (early && (maxRelayEarly <=? relayEarlyCount c))%bool
  then (Ok (Returned (Some ErrRelayEarlyExpired)), c)
  else if (destHop <? 0)%Z then (Panic, c)
  else
    match encryptForwardLocked (hops c) (Z.to_nat destHop) rc with
    | Ok (payload, hs) =>
        let c := set_hops hs c in
        let c := if early then set_early (S (relayEarlyCount c)) c else c in
        let cmd := if early then CmdRelayEarly else CmdRelay in
        let ticket := sendNext c in
        (Ok (Claimed ticket {| CircID := id c; Cmd := cmd; Payload := payload |}),
         set_next (S (sendNext c)) c)
    | Err e => (Err e, c)
    | Panic => (Panic, c)
    end.

(** [accountInboundData]: the deliver window, and the SENDME it triggers. *)
Definition accountInboundData (hopIdx : nat) (tag : bytes) (c : Circuit)
    : Circuit * list effect :=
  let w := (circDeliverWindow c - 1)%Z in
  let send := (w <=? Z.of_nat circWindowStart - Z.of_nat circWindowIncrement)%Z in
  let c := set_window (if send then w + Z.of_nat circWindowIncrement else w)%Z c in
  if negb send then (c, [])
  else if (closed c || (length (hops c) <=? hopIdx))%bool then (c, [])
  else
    let rc := relay_cell Relay.RelaySendme 0 (encodeSendmeV1 tag) in
    match encryptForwardLocked (E:=unit) (hops c) hopIdx rc with
    | Ok (payload, hs) =>
        (set_next (S (sendNext c)) (set_hops hs c),
         [Spawn hopIdx rc (sendNext c) {| CircID := id c; Cmd := CmdRelay; Payload := payload |}])
    | _ => (c, [])
    end.

(** [handleRelay]. *)
Definition handleRelay (raw : Cell) (c : Circuit) : Circuit * list effect :=
  let '(res, hs) := decryptInboundLocked (hops c) (Payload raw) in
  let c := set_hops hs c in
  match res with
  | Some (hopIdx, Some rc) =>
      let cmd := Relay.Cmd rc in
      if decide (cmd = Relay.RelayExtended2) then
        (set_extended (deliverHandshake (extendedCh c) (parseLenPrefixed (Relay.Data rc))) c, [])
      else if decide (cmd = Relay.RelayTruncated) then (fail ErrDestroyed c, [])
      else if decide (cmd = Relay.RelaySendme) then
        if decide (Relay.StreamID rc = 0%Z) then (creditPackageWindow circWindowIncrement c, [])
        else (c, if onStreamCell c then [StreamCell rc] else [])
      else if decide (cmd = Relay.RelayData) then
        match hops c !! hopIdx with
        | Some h =>
            let '(c', eff) := accountInboundData hopIdx (Snapshot (bwdDigest h)) c in
            (c', eff ++ if onStreamCell c then [StreamCell rc] else [])
        | None => (c, [])
        end
      else if (bool_decide (Relay.StreamID rc = 0%Z) && onControlCell c)%bool
      then (c, [ControlCell rc])
      else (c, if onStreamCell c then [StreamCell rc] else [])
  | _ => (c, [])
  end.

(** One iteration of [recvLoop]: whether the loop goes on. *)
Inductive recv_event :=
| Inbox (raw : Cell)
| InboxClosed
| SeeDestroyed
| LinkDone.

Definition recvLoop_step (ev : recv_event) (c : Circuit) : bool * Circuit * list effect :=
  match ev with
  | Inbox raw =>
      if decide (Cmd raw = CmdCreated2) then
        (true, set_created (deliverHandshake (createdCh c) (parseLenPrefixed (Payload raw))) c, [])
      else if (bool_decide (Cmd raw = CmdRelay) || bool_decide (Cmd raw = CmdRelayEarly))%bool then
        let '(c, eff) := handleRelay raw c in (true, c, eff)
      else if decide (Cmd raw = CmdDestroy) then (false, fail ErrDestroyed c, [])
      else (true, c, [])
  | InboxClosed => (false, fail ErrCircuitClosed c, [])
  | SeeDestroyed => (negb (destroyed c), c, [])
  | LinkDone => (false, fail ErrCircuitClosed c, [])
  end.

(** The loop over the events that arrive, until it returns. *)
Fixpoint recvLoop (evs : list recv_event) (c : Circuit) : Circuit * list effect :=
  match evs with
  | [] => (c, [])
  | ev :: evs =>
      let '(go_on, c, eff) := recvLoop_step ev c in
      if go_on then let '(c, eff') := recvLoop evs c in (c, eff ++ eff') else (c, eff)
  end.

(** ** Building hops *)

(** [addHop]: the hop the key material gives. *)
Definition ntor_hop (i : RelayInfo) (keyMaterial : bytes) : outcome circuit_error hop :=
  match SplitNtorKeys keyMaterial with
  | None => Err ShortKeyMaterial
  | Some rk =>
      fwd ← map_err FwdCipherErr (NewCTR (Kf rk));
      bwd ← map_err BwdCipherErr (NewCTR (Kb rk));
      Ok {| info := i; fwdCipher := fwd; bwdCipher := bwd;
            fwdDigest := NewRunningDigestSHA1 (Df rk);
            bwdDigest := NewRunningDigestSHA1 (Db rk) |}
  end.

Definition addHop (i : RelayInfo) (keyMaterial : bytes) (c : Circuit)
    : outcome circuit_error unit * Circuit :=
  match ntor_hop i keyMaterial with
  | Ok h => (Ok tt, set_hops (hops c ++ [h]) c)
  | Err e => (Err e, c)
  | Panic => (Panic, c)
  end.

(** [AddRendezvousHop]: SHA3 digests, no relay info. *)
Definition AddRendezvousHop (df db kf kb : bytes) (c : Circuit)
    : outcome circuit_error unit * Circuit :=
  match map_err FwdCipherErr (NewCTR kf), map_err BwdCipherErr (NewCTR kb) with
  | Ok fwd, Ok bwd =>
      (Ok tt,
       set_hops (hops c ++ [{| info := zeroRelayInfo; fwdCipher := fwd; bwdCipher := bwd;
                               fwdDigest := NewRunningDigestSHA3 df;
                               bwdDigest := NewRunningDigestSHA3 db |}]) c)
  | Ok _, Err e => (Err e, c)
  | Ok _, Panic => (Panic, c)
  | Err e, _ => (Err e, c)
  | Panic, _ => (Panic, c)
  end.

(** ** Methods that use the link *)
Context `{!Link L LE}.

(** The circuit, its link, and the callbacks and goroutines so far. *)
Record node := mkNode { circ : Circuit; link : L; trace : list effect }.

Definition on_circ (f : Circuit → Circuit) (n : node) : node :=
  mkNode (f (circ n)) (link n) (trace n).

(** A call that only touches the circuit. *)
Definition locked {A} (f : Circuit → outcome circuit_error A * Circuit)
    : prog node circuit_error A :=
  λ n, let '(o, c) := f (circ n) in Some (o, mkNode c (link n) (trace n)).

(** [c.ch.SendCell]. *)
Definition link_send (cl : Cell) : prog node LE unit :=
  λ n, let '(err, l) := SendCell (link n) cl in
       Some (match err with Some e => Err e | None => Ok tt end, mkNode (circ n) l (trace n)).

(** The receive loop running while the caller waits. *)
Definition receive (evs : list recv_event) : prog node circuit_error unit :=
  λ n, let '(c, eff) := recvLoop evs (circ n) in
       Some (Ok tt, mkNode c (link n) (trace n ++ eff)).

(** [writeAtTurn]: waits for the turn, writes, advances the turn whatever the
    write returned, and only then fails the circuit on an error. *)
Definition writeAtTurn (ticket : nat) (cl : Cell) : prog node circuit_error unit :=
  turn ← gets (λ n, sendTurn (circ n));
  if negb (turn =? ticket) then blocked else
  err ← attempt (link_send cl);
  _ ← modify (on_circ (λ c, set_turn (S (sendTurn c)) c));
  match err with
  | Err e => _ ← modify (on_circ (fail (LinkErr e))); throw (LinkErr e)
  | Ok _ => mret tt
  | Panic => panic
  end.

(** Returning an [error] value: nil is success. *)
Definition return_err (e : option circuit_error) : prog node circuit_error unit :=
  match e with Some e => throw e | None => mret tt end.

Definition sendRelay (destHop : Z) (rc : Relay.RelayCell) (early : bool)
    : prog node circuit_error unit :=
  r ← locked (sendRelay_locked destHop rc early);
  match r with
  | Returned e => return_err e
  | Claimed ticket cl => writeAtTurn ticket cl
  end.

Definition SendRelayToHop (hopIdx : Z) (rc : Relay.RelayCell) : prog node circuit_error unit :=
  sendRelay hopIdx rc false.

Definition SendRelay (rc : Relay.RelayCell) : prog node circuit_error unit :=
  dest ← gets (λ n, Z.of_nat (length (hops (circ n))) - 1)%Z;
  if (dest <? 0)%Z then throw ErrCircuitClosed else sendRelay dest rc false.

(** The case a blocking select takes; [Ready] is the data case. *)
Inductive select_case := Ready | CtxDone (e : ctx_error) | SawDestroyed.

(** [<-c.destroyed]: ready once the circuit is closed. *)
Definition await_destroyed {A} (e : circuit_error) : prog node circuit_error A :=
  d ← gets (λ n, destroyed (circ n));
  if d : bool then throw e else blocked.

Definition SendData (sel : select_case) (streamID : Z) (data : bytes)
    : prog node circuit_error unit :=
  match sel with
  | CtxDone e => throw (CtxErr e)
  | SawDestroyed => await_destroyed ErrCircuitClosed
  | Ready =>
      toks ← gets (λ n, circPkgTokens (circ n));
      match Tokens.recv toks with
      | None => blocked
      | Some toks =>
          _ ← modify (on_circ (set_tokens toks));
          dest ← gets (λ n, Z.of_nat (length (hops (circ n))) - 1)%Z;
          if (dest <? 0)%Z then
            _ ← modify (on_circ (creditPackageWindow 1)); throw ErrCircuitClosed
          else
            r ← attempt (sendRelay dest (relay_cell Relay.RelayData streamID data) false);
            match r with
            | Err e => _ ← modify (on_circ (creditPackageWindow 1)); throw e
            | Ok _ => mret tt
            | Panic => panic
            end
      end
  end.

(** [New] on a link. *)
Definition New (l : L) : option (outcome circuit_error Circuit * L) :=
  '(r, l) ← AllocCircuit l;
  match r with
  | Ok (cid, ent) =>
      toks ← Tokens.MakeTokens circWindowStart;
      Some (Ok (mkCircuit cid ent [] 0 false None 0 0 None None false toks
                  (Z.of_nat circWindowStart) false false), l)
  | Err e => Some (Err (AllocIDErr e), l)
  | Panic => Some (Panic, l)
  end.

(** The HTYPE|HLEN|HDATA framing of CREATE2 and EXTEND2. *)
Definition handshake_body (w : Writer.Writer) (clientData : bytes) : bytes :=
  Writer.Bytes (Writer.Write (Writer.U16 (Writer.U16 w handshakeTypeNtor)
    (Z.of_nat (length clientData))) clientData).

(** The select after a handshake was sent, on the channel [get]: take the
    response, complete the handshake, append the hop. *)
Definition finish_handshake (get : Circuit → option bytes) (clear : Circuit → Circuit)
    (wrap : crypto_error → circuit_error) (st : NtorClient) (i : RelayInfo) (sel : select_case)
    : prog node circuit_error unit :=
  match sel with
  | CtxDone e => throw (CtxErr e)
  | SawDestroyed => await_destroyed ErrDestroyed
  | Ready =>
      h ← gets (λ n, get (circ n));
      match h with
      | None => blocked
      | Some hdata =>
          _ ← modify (on_circ clear);
          keys ← lift (map_err wrap (Complete st hdata NtorKeyMaterialLen));
          locked (addHop i keys)
      end
  end.

(** [Create]; [random] is the ephemeral key, [evs] what the receive loop sees
    before the select fires. *)
Definition Create (random : bytes) (evs : list recv_event) (sel : select_case)
    (first : RelayInfo) : prog node circuit_error unit :=
  '(clientData, st) ← lift (map_err NtorInit
      (NtorClientHandshake random (RSAIDDigest first) (NtorOnionKey first)));
  let payload := handshake_body (Writer.NewWriter (4 + length clientData)) clientData in
  cid ← gets (λ n, id (circ n));
  _ ← map_error SendCREATE2 (link_send {| CircID := cid; Cmd := CmdCreate2; Payload := payload |});
  _ ← receive evs;
  finish_handshake createdCh (set_created None) CREATED2Err st first sel.

Definition Extend (random : bytes) (evs : list recv_event) (sel : select_case)
    (next : RelayInfo) : prog node circuit_error unit :=
  lastHop ← gets (λ n, Z.of_nat (length (hops (circ n))) - 1)%Z;
  if (lastHop <? 0)%Z then throw ExtendBeforeCreate else
  '(clientData, st) ← lift (map_err NtorInit
      (NtorClientHandshake random (RSAIDDigest next) (NtorOnionKey next)));
  specs ← lift (map_err LinkSpecErr (linkSpecifiers next));
  let body := handshake_body
    (Writer.Write (Writer.NewWriter (length specs + 4 + length clientData)) specs) clientData in
  _ ← map_error SendEXTEND2 (sendRelay lastHop (relay_cell Relay.RelayExtend2 0 body) true);
  _ ← receive evs;
  finish_handshake extendedCh (set_extended None) EXTENDED2Err st next sel.

(** What happens around one handshake: randomness, inbound events, select. *)
Record around := mkAround { rnd : bytes; seen : list recv_event; sel_case : select_case }.

Fixpoint extend_all (path : list RelayInfo) (envs : list around) : prog node circuit_error unit :=
  match path, envs with
  | [], _ => mret tt
  | r :: path, a :: envs => _ ← Extend (rnd a) (seen a) (sel_case a) r; extend_all path envs
  | _ :: _, [] => blocked
  end.

(** [Build]: [envs] has one entry per relay of the path. *)
Definition Build (path : list RelayInfo) (envs : list around) : prog node circuit_error unit :=
  match path, envs with
  | [], _ => throw EmptyPath
  | r :: path, a :: envs => _ ← Create (rnd a) (seen a) (sel_case a) r; extend_all path envs
  | _ :: _, [] => blocked
  end.

(** [Destroy]: DESTROY is sent once, its error ignored; always ends closed and
    freed. *)
Definition Destroy : prog node circuit_error unit :=
  already ← gets (λ n, closed (circ n));
  cid ← gets (λ n, id (circ n));
  _ ← (if already : bool then mret tt
       else r ← attempt (link_send {| CircID := cid; Cmd := CmdDestroy; Payload := [x00] |});
            mret tt);
  _ ← modify (on_circ (fail ErrCircuitClosed));
  modify (λ n, mkNode (circ n) (FreeCircuit (link n) (id (circ n))) (trace n)).

End Crypto.
End Circuit.
