(* ===== verification/CircuitFacts.v ===== *)
(** * Correctness of the circuit's handlers and flow control.

    The circuit invariant and its preservation by every method, what closing
    means, the RELAY_EARLY budget, the deliver and package windows, and what
    building a path establishes. *)

From S2P Require Import Prelude ByteUtil Cell TorCrypto RelayInfo OnionCrypto Circuit.

Section Facts.
Context `{C : Crypto} {L LE : Type} `{!Link L LE}.
Notation Circuit := (Circuit (LE:=LE)).
Notation circuit_error := (circuit_error (LE:=LE)).
Notation node := (node (L:=L) (LE:=LE)).
Implicit Types (c : Circuit) (nd : node).

(** ** Onion operations keep who the hops are *)

Lemma encrypt_infos {E} hs dest rc p hs' :
  encryptForwardLocked (E:=E) hs dest rc = Ok (p, hs') → map info hs' = map info hs.
Proof.
  unfold encryptForwardLocked. destruct (hs !! dest) as [h|] eqn:Hh; [|done].
  set (plain := Relay.Encode (zeroed rc)). clearbody plain.
  set (payload := copy_at _ _ plain). clearbody payload.
  set (d := Update _ plain). clearbody d. intros [= H].
  apply (f_equal snd) in H. simpl snd in H. rewrite layer_forward_hops in H. subst hs'.
  apply list_eq. intros i. rewrite !list_lookup_fmap, list_lookup_imap.
  destruct (decide (i = dest)) as [->|Hne].
  - rewrite list_lookup_insert_eq by (by eapply lookup_lt_Some). rewrite Hh. simpl. by case_match.
  - rewrite list_lookup_insert_ne by done. destruct (hs !! i); simpl; [|done]. by case_match.
Qed.

Lemma peel_step_info h p : info (peel_step h p).2 = info h.
Proof. unfold peel_step. simpl. case_match; [done|]. by destruct (VerifyAndCommit _ _ _). Qed.

Lemma decrypt_infos hs p : map info (decryptInboundLocked hs p).2 = map info hs.
Proof.
  revert p. induction hs as [|h t IH]; intros p; simpl; [done|].
  pose proof (peel_step_info h p) as Hi.
  destruct (peel_step h p) as [[ok p'] h']. simpl in Hi. destruct ok; simpl; [by rewrite Hi|].
  specialize (IH p'). destruct (decryptInboundLocked t p') as [res t']. simpl in *. by rewrite Hi, IH.
Qed.

Lemma decrypt_length hs p : length (decryptInboundLocked hs p).2 = length hs.
Proof. rewrite <-(length_map info), decrypt_infos. apply length_map. Qed.

Lemma decrypt_hop_in_range hs p i rc :
  (decryptInboundLocked hs p).1 = Some (i, rc) → i < length hs.
Proof.
  revert p i. induction hs as [|h t IH]; intros p i; simpl; [done|].
  destruct (peel_step h p) as [[ok p'] h']. destruct ok; simpl; [intros [= <- <-]; lia|].
  specialize (IH p'). destruct (decryptInboundLocked t p') as [[[j rc']|] t']; simpl in *; [|done].
  intros [= <- <-]. specialize (IH j eq_refl). lia.
Qed.

(** ** The invariant *)

(** Lines up with [New]: [destroyed] is closed exactly when the circuit is,
    with its error recorded; the permit pool and the deliver window are within
    their bounds; the RELAY_EARLY budget holds. *)
Record circuit_inv (c : Circuit) : Prop := {
  inv_destroyed : destroyed c = closed c;
  inv_err : closed c = true ↔ is_Some (closeErr c);
  inv_tokens : Tokens.wf (circPkgTokens c);
  inv_cap : Tokens.cap (circPkgTokens c) = circWindowStart;
  inv_window : (Z.of_nat circWindowStart - Z.of_nat circWindowIncrement
                < circDeliverWindow c ≤ Z.of_nat circWindowStart)%Z;
  inv_early : relayEarlyCount c ≤ maxRelayEarly
}.

Ltac inv_tac :=
  intros [];
  constructor; simpl;
  try match goal with |- true = true ↔ is_Some (Some _) => by split; eauto end;
  auto with gotor.

Lemma inv_set_hops hs c : circuit_inv c → circuit_inv (set_hops hs c).
Proof. inv_tac. Qed.
Lemma inv_set_next n c : circuit_inv c → circuit_inv (set_next n c).
Proof. inv_tac. Qed.
Lemma inv_set_turn n c : circuit_inv c → circuit_inv (set_turn n c).
Proof. inv_tac. Qed.
Lemma inv_set_created o c : circuit_inv c → circuit_inv (set_created o c).
Proof. inv_tac. Qed.
Lemma inv_set_extended o c : circuit_inv c → circuit_inv (set_extended o c).
Proof. inv_tac. Qed.
Lemma inv_SetStreamHandler b c : circuit_inv c → circuit_inv (SetStreamHandler b c).
Proof. inv_tac. Qed.
Lemma inv_SetControlHandler b c : circuit_inv c → circuit_inv (SetControlHandler b c).
Proof. inv_tac. Qed.
Lemma inv_set_early c :
  relayEarlyCount c < maxRelayEarly →
  circuit_inv c → circuit_inv (set_early (S (relayEarlyCount c)) c).
Proof. intros ?. inv_tac. Qed.
Lemma inv_set_tokens t c :
  Tokens.wf t → Tokens.cap t = circWindowStart → circuit_inv c → circuit_inv (set_tokens t c).
Proof. intros ??. inv_tac. Qed.
Lemma inv_fail e c : circuit_inv c → circuit_inv (fail e c).
Proof. unfold fail. destruct (closed c) eqn:?; [done|]. inv_tac. Qed.
Lemma inv_credit n c : circuit_inv c → circuit_inv (creditPackageWindow n c).
Proof.
  intros H. apply inv_set_tokens; [apply Tokens.credit_wf, H| |done].
  rewrite Tokens.credit_spec by apply H. apply H.
Qed.
Hint Resolve inv_set_hops inv_set_next inv_set_turn inv_set_created inv_set_extended
  inv_fail inv_credit inv_SetStreamHandler inv_SetControlHandler : gotor.

Lemma inv_sendRelay_locked dest rc early c :
  circuit_inv c → circuit_inv (sendRelay_locked dest rc early c).2.
Proof.
  intros H. unfold sendRelay_locked. destruct (closed c); [done|].
  destruct (_ <=? dest)%Z; [done|].
  destruct (early && (maxRelayEarly <=? relayEarlyCount c))%bool eqn:He; [done|].
  destruct (dest <? 0)%Z; [done|].
  destruct (encryptForwardLocked _ _ _) as [[p hs]| |]; [|done..].
  destruct early; simpl; auto with gotor.
  apply inv_set_next, (inv_set_early (set_hops hs c)); auto with gotor.
  rewrite andb_true_l in He. bools. simpl. lia.
Qed.

(** The window after one more inbound data cell. *)
Definition next_window (w : Z) : Z :=
  if (w - 1 <=? Z.of_nat circWindowStart - Z.of_nat circWindowIncrement)%Z
  then (w - 1 + Z.of_nat circWindowIncrement)%Z else (w - 1)%Z.

Lemma accountInboundData_window i tag c :
  circDeliverWindow (accountInboundData i tag c).1 = next_window (circDeliverWindow c).
Proof.
  unfold accountInboundData, next_window. destruct (_ <=? _)%Z; simpl; [|done].
  destruct (_ || _)%bool; [done|]. by destruct (encryptForwardLocked _ _ _) as [[p hs]| |].
Qed.

Lemma inv_accountInboundData i tag c :
  circuit_inv c → circuit_inv (accountInboundData i tag c).1.
Proof.
  intros H. unfold accountInboundData.
  assert (∀ w, (900 < w ≤ 1000)%Z → circuit_inv (set_window w c)) as Hw.
  { intros w Hw. destruct H. constructor; simpl; auto. }
  assert (Hr := inv_window c H). change (Z.of_nat circWindowStart) with 1000%Z in *.
  change (Z.of_nat circWindowIncrement) with 100%Z in *.
  destruct (Z.leb_spec (circDeliverWindow c - 1) (1000 - 100)); simpl; [|apply Hw; lia].
  assert (circuit_inv (set_window (circDeliverWindow c - 1 + 100) c)) by (apply Hw; lia).
  destruct (_ || _)%bool; [done|].
  destruct (encryptForwardLocked _ _ _) as [[p hs]| |]; simpl; auto with gotor.
Qed.

Lemma inv_handleRelay raw c : circuit_inv c → circuit_inv (handleRelay raw c).1.
Proof.
  intros H. unfold handleRelay. destruct (decryptInboundLocked _ _) as [res hs].
  apply (inv_set_hops hs) in H. set (c1 := set_hops hs c) in *. clearbody c1.
  destruct res as [[i [rc|]]|]; simpl; auto.
  do 3 (case_decide; simpl; [repeat case_decide; simpl; auto with gotor|]).
  case_decide; simpl.
  - destruct (hops c1 !! i); [|done].
    pose proof (inv_accountInboundData i (Snapshot (bwdDigest h)) c1 H).
    by destruct (accountInboundData _ _ _).
  - by destruct (_ && _)%bool.
Qed.

Lemma inv_recvLoop_step ev c : circuit_inv c → circuit_inv (recvLoop_step ev c).1.2.
Proof.
  intros H. destruct ev; simpl; auto with gotor. case_decide; simpl; auto with gotor.
  destruct (_ || _)%bool.
  - pose proof (inv_handleRelay raw c H). by destruct (handleRelay raw c).
  - case_decide; simpl; auto with gotor.
Qed.

Lemma inv_recvLoop evs c : circuit_inv c → circuit_inv (recvLoop evs c).1.
Proof.
  revert c. induction evs as [|ev evs IH]; intros c H; simpl; [done|].
  pose proof (inv_recvLoop_step ev c H) as H1.
  destruct (recvLoop_step ev c) as [[b c1] eff]. simpl in H1. destruct b; [|done].
  specialize (IH c1 H1). by destruct (recvLoop evs c1).
Qed.

(** ** All the calls a circuit receives *)

Inductive call :=
| CallSendRelay (rc : Relay.RelayCell)
| CallSendRelayToHop (i : Z) (rc : Relay.RelayCell)
| CallSendData (sel : select_case) (sid : Z) (data : bytes)
| CallCreate (a : around) (first : RelayInfo)
| CallExtend (a : around) (next : RelayInfo)
| CallBuild (path : list RelayInfo) (envs : list around)
| CallAddRendezvousHop (df db kf kb : bytes)
| CallDestroy
| CallSetStreamHandler (b : bool)
| CallSetControlHandler (b : bool)
| CallReceive (evs : list recv_event)
| CallWriteAtTurn (ticket : nat) (cl : Cell).

Definition run (k : call) : prog node circuit_error unit :=
  match k with
  | CallSendRelay rc => SendRelay rc
  | CallSendRelayToHop i rc => SendRelayToHop i rc
  | CallSendData sel sid data => SendData sel sid data
  | CallCreate a r => Create (rnd a) (seen a) (sel_case a) r
  | CallExtend a r => Extend (rnd a) (seen a) (sel_case a) r
  | CallBuild path envs => Build path envs
  | CallAddRendezvousHop df db kf kb => locked (AddRendezvousHop df db kf kb)
  | CallDestroy => Destroy
  | CallSetStreamHandler b => modify (on_circ (SetStreamHandler b))
  | CallSetControlHandler b => modify (on_circ (SetControlHandler b))
  | CallReceive evs => receive evs
  | CallWriteAtTurn t cl => writeAtTurn t cl
  end.

(** A sequence of calls, each finishing (with or without an error). *)
Fixpoint run_all (ks : list call) nd : option node :=
  match ks with
  | [] => Some nd
  | k :: ks => match run k nd with Some (_, nd') => run_all ks nd' | None => None end
  end.

(** A predicate of the circuit that the primitive updates keep. *)
Record stable (P : Circuit → Prop) : Prop := {
  st_locked : ∀ d rc e c, P c → P (sendRelay_locked d rc e c).2;
  st_turn : ∀ c, P c → P (set_turn (S (sendTurn c)) c);
  st_fail : ∀ e c, P c → P (fail e c);
  st_recv : ∀ evs c, P c → P (recvLoop evs c).1;
  st_hops : ∀ hs c, P c → P (set_hops (hops c ++ hs) c);
  st_created : ∀ c, P c → P (set_created None c);
  st_extended : ∀ c, P c → P (set_extended None c);
  st_token : ∀ t c, Tokens.recv (circPkgTokens c) = Some t → P c → P (set_tokens t c);
  st_credit : ∀ k c, P c → P (creditPackageWindow k c);
  st_stream : ∀ b c, P c → P (SetStreamHandler b c);
  st_control : ∀ b c, P c → P (SetControlHandler b c)
}.

Section Stable.
Context (P : Circuit → Prop) (HP : stable P).
Notation keeps m := (preserves (λ nd, P (circ nd)) m).

Lemma keeps_locked {A} (f : Circuit → outcome circuit_error A * Circuit) :
  (∀ c, P c → P (f c).2) → keeps (locked f : prog node _ _).
Proof.
  intros Hf nd o nd'. unfold locked. pose proof (Hf (circ nd)) as H.
  destruct (f (circ nd)) as [o1 c1]. by intros [= <- <-].
Qed.
Lemma keeps_on_circ {E} f : (∀ c, P c → P (f c)) → keeps (modify (on_circ f) : prog node E _).
Proof. intros Hf. apply preserves_modify. intros nd. apply Hf. Qed.
Lemma keeps_link_send cl : keeps (link_send cl : prog node _ _).
Proof. intros nd o nd'. unfold link_send. destruct (SendCell _ _). by intros [= <- <-]. Qed.
Lemma keeps_receive evs : keeps (receive evs : prog node _ _).
Proof.
  intros nd o nd'. unfold receive. pose proof (st_recv P HP evs (circ nd)) as H.
  destruct (recvLoop _ _). by intros [= <- <-].
Qed.
Lemma keeps_addHop r keys : keeps (locked (addHop r keys) : prog node _ _).
Proof.
  apply keeps_locked. intros c Hc. unfold addHop.
  destruct (ntor_hop r keys); simpl; [by apply st_hops|done..].
Qed.
Lemma keeps_AddRendezvousHop df db kf kb :
  keeps (locked (AddRendezvousHop df db kf kb) : prog node _ _).
Proof.
  apply keeps_locked. intros c Hc. unfold AddRendezvousHop.
  destruct (NewCTR kf), (NewCTR kb); simpl; try done. by apply st_hops.
Qed.
Hint Resolve keeps_link_send keeps_receive keeps_addHop keeps_AddRendezvousHop : gotor.

Lemma keeps_writeAtTurn t cl : keeps (writeAtTurn t cl : prog node _ _).
Proof.
  unfold writeAtTurn. apply preserves_bind; [auto with gotor|]. intros turn.
  apply preserves_if; [auto with gotor|].
  apply preserves_bind; [auto with gotor|]. intros err.
  apply preserves_bind; [apply keeps_on_circ, HP|]. intros _.
  destruct err; auto with gotor.
  apply preserves_bind; auto with gotor. apply keeps_on_circ. intros; by apply st_fail.
Qed.
Hint Resolve keeps_writeAtTurn : gotor.

Lemma keeps_sendRelay d rc e : keeps (sendRelay d rc e : prog node _ _).
Proof.
  unfold sendRelay. apply preserves_bind; [apply keeps_locked; intros; by apply st_locked|].
  intros [[err|]|t cl]; simpl; auto with gotor.
Qed.
Hint Resolve keeps_sendRelay : gotor.

Lemma keeps_SendRelay rc : keeps (SendRelay rc : prog node _ _).
Proof. unfold SendRelay. apply preserves_bind; auto with gotor. Qed.

Lemma keeps_await {A} e : keeps (await_destroyed e : prog node _ A).
Proof. unfold await_destroyed. apply preserves_bind; auto with gotor. Qed.
Hint Resolve keeps_await : gotor.

Lemma keeps_SendData sel sid data : keeps (SendData sel sid data : prog node _ _).
Proof.
  destruct sel; simpl; auto with gotor.
  intros nd o nd' H Hc. rewrite prog_bind_eq in H. simpl in H.
  destruct (Tokens.recv (circPkgTokens (circ nd))) as [t|] eqn:Ht; [|done].
  rewrite prog_bind_eq in H. cbv [modify] in H.
  eapply (preserves_bind (λ nd, P (circ nd)) (gets _)); [auto with gotor| |exact H|by apply (st_token P HP)].
  intros dest. apply preserves_if.
  - apply preserves_bind; auto with gotor. apply keeps_on_circ. intros; by apply st_credit.
  - apply preserves_bind; auto with gotor. intros [| |]; auto with gotor.
    apply preserves_bind; auto with gotor. apply keeps_on_circ. intros; by apply st_credit.
Qed.

Lemma keeps_finish get clear wrap st r sel :
  (∀ c, P c → P (clear c)) → keeps (finish_handshake get clear wrap st r sel : prog node _ _).
Proof.
  intros Hclear. destruct sel; simpl; auto with gotor.
  apply preserves_bind; auto with gotor. intros [hdata|]; auto with gotor.
  apply preserves_bind; [by apply keeps_on_circ|]. intros _. apply preserves_bind; auto with gotor.
Qed.

Lemma keeps_Create random evs sel r : keeps (Create random evs sel r : prog node _ _).
Proof.
  unfold Create. apply preserves_bind; auto with gotor. intros [cd st].
  do 3 (apply preserves_bind; [auto with gotor|intros ?]). apply keeps_finish, HP.
Qed.

Lemma keeps_Extend random evs sel r : keeps (Extend random evs sel r : prog node _ _).
Proof.
  unfold Extend. apply preserves_bind; auto with gotor. intros lastHop.
  apply preserves_if; auto with gotor. apply preserves_bind; auto with gotor. intros [cd st].
  do 3 (apply preserves_bind; [auto with gotor|intros ?]). apply keeps_finish, HP.
Qed.

Lemma keeps_extend_all path envs : keeps (extend_all path envs : prog node _ _).
Proof.
  revert envs. induction path as [|r path IH]; intros [|a envs]; simpl; auto with gotor.
  apply preserves_bind; [apply keeps_Extend|auto].
Qed.

Lemma keeps_Build path envs : keeps (Build path envs : prog node _ _).
Proof.
  destruct path as [|r path], envs as [|a envs]; simpl; auto with gotor.
  apply preserves_bind; [apply keeps_Create|]. intros _. apply keeps_extend_all.
Qed.

Lemma keeps_Destroy : keeps (Destroy : prog node _ _).
Proof.
  unfold Destroy. apply preserves_bind; auto with gotor. intros already.
  apply preserves_bind; auto with gotor. intros cid. apply preserves_bind.
  { apply preserves_if; auto with gotor. }
  intros _. apply preserves_bind; [apply keeps_on_circ; intros; by apply st_fail|].
  intros _. by apply preserves_modify.
Qed.

Lemma keeps_run k : keeps (run k).
Proof.
  destruct k; simpl; try (apply keeps_on_circ; intros; by apply HP);
    auto using keeps_SendRelay, keeps_SendData, keeps_Create, keeps_Extend, keeps_Build,
      keeps_Destroy with gotor.
  unfold SendRelayToHop. auto with gotor.
Qed.

Lemma keeps_run_all ks nd nd' : run_all ks nd = Some nd' → P (circ nd) → P (circ nd').
Proof.
  revert nd. induction ks as [|k ks IH]; intros nd; simpl; [by intros [= <-]|].
  destruct (run k nd) as [[o nd1]|] eqn:E; [|done]. intros H Hc.
  eapply IH; [done|]. by eapply keeps_run.
Qed.
End Stable.

(** ** The invariant holds for the life of a circuit *)

Lemma inv_stable : stable circuit_inv.
Proof.
  constructor; intros; auto using inv_sendRelay_locked, inv_recvLoop with gotor.
  destruct (Tokens.recv_wf (circPkgTokens c) t) as (?&?&Hc); [apply H0|done|].
  apply inv_set_tokens; auto. rewrite Hc. apply H0.
Qed.

Lemma New_inv (l l' : L) c : New l = Some (Ok c, l') → circuit_inv c ∧ hops c = [] ∧ closed c = false.
Proof.
  unfold New. destruct (AllocCircuit l) as [[[[cid ent]| |] l1]|]; cbn [mbind option_bind]; [|done..].
  rewrite Tokens.MakeTokens_full. cbn [mbind option_bind]. intros [= <- <-].
  split; [|done]. constructor; simpl; try done; unfold Tokens.wf; simpl; try lia.
Qed.

(** C31: the circuit invariant.  From [New] on, whatever calls the circuit
    receives, in whatever order and however each of them ends: its [destroyed]
    channel is closed exactly when it is marked closed (so it is never closed
    twice), a closed circuit has its error recorded, the package permits stay
    within the window of 1000, the deliver window within (900, 1000], and the
    RELAY_EARLY counter at most 8. *)
Theorem circuit_invariant (ks : list call) (l l' : L) (c : Circuit) (nd : node) :
  New l = Some (Ok c, l') → run_all ks (mkNode c l' []) = Some nd → circuit_inv (circ nd).
Proof.
  intros Hn Hr. apply New_inv in Hn as (Hi&_).
  exact (keeps_run_all circuit_inv inv_stable ks _ _ Hr Hi).
Qed.

(** ** Closing is final *)

(** A closed circuit with its error and its count of claimed tickets. *)
Definition closed_with (e : circuit_error) (k : nat) (c : Circuit) : Prop :=
  closed c = true ∧ closeErr c = Some e ∧ sendNext c = k.

Lemma closed_with_fail e k e' c : closed_with e k c → closed_with e k (fail e' c).
Proof. intros (H1&H2&H3). unfold fail. by rewrite H1. Qed.

Lemma closed_with_account e k i tag c :
  closed_with e k c → closed_with e k (accountInboundData i tag c).1.
Proof.
  intros (H1&H2&H3). unfold accountInboundData. destruct (_ <=? _)%Z; simpl; [|done].
  by rewrite H1.
Qed.

Lemma closed_with_handleRelay e k raw c :
  closed_with e k c → closed_with e k (handleRelay raw c).1.
Proof.
  intros H. unfold handleRelay. destruct (decryptInboundLocked _ _) as [res hs].
  assert (closed_with e k (set_hops hs c)) as H1 by done.
  set (c1 := set_hops hs c) in *. clearbody c1.
  destruct res as [[i [rc|]]|]; simpl; auto.
  do 3 (case_decide; simpl; [repeat case_decide; simpl; auto using closed_with_fail|]).
  case_decide; simpl.
  - destruct (hops c1 !! i); [|done].
    pose proof (closed_with_account e k i (Snapshot (bwdDigest h)) c1 H1).
    by destruct (accountInboundData _ _ _).
  - by destruct (_ && _)%bool.
Qed.

Lemma closed_with_recvLoop e k evs c :
  closed_with e k c → closed_with e k (recvLoop evs c).1.
Proof.
  revert c. induction evs as [|ev evs IH]; intros c H; simpl; [done|].
  assert (closed_with e k (recvLoop_step ev c).1.2) as H1.
  { destruct ev; simpl; auto using closed_with_fail. case_decide; simpl; [done|].
    destruct (_ || _)%bool.
    - pose proof (closed_with_handleRelay e k raw c H). by destruct (handleRelay raw c).
    - case_decide; simpl; auto using closed_with_fail. }
  destruct (recvLoop_step ev c) as [[b c1] eff]. simpl in H1. destruct b; [|done].
  specialize (IH c1 H1). by destruct (recvLoop evs c1).
Qed.

Lemma closed_with_stable e k : stable (closed_with e k).
Proof.
  constructor; auto using closed_with_fail, closed_with_recvLoop.
  intros d rc early c H. unfold sendRelay_locked. destruct H as (H1&H2&H3). by rewrite H1.
Qed.

(** Closing is final.  Once a circuit is closed, no sequence of calls
    reopens it, replaces the error it was closed with, or claims another
    ticket (so nothing is encrypted with a desynchronized state), and every
    later send to an established hop returns that first error. *)
Theorem closed_is_final (ks : list call) (nd nd' : node) (e : circuit_error) (k : nat) :
  closed_with e k (circ nd) → run_all ks nd = Some nd' →
  closed_with e k (circ nd') ∧
  ∀ dest rc early, sendRelay dest rc early nd' = Some (Err e, nd').
Proof.
  intros Hc Hr. pose proof (keeps_run_all _ (closed_with_stable e k) ks _ _ Hr Hc) as H.
  split; [done|]. intros dest rc early. destruct H as (H1&H2&H3).
  unfold sendRelay. rewrite prog_bind_eq. unfold locked, sendRelay_locked.
  rewrite H1, H2. by destruct nd'.
Qed.

(** ** The deliver window *)

(** Data cells accounted one after the other, from the given hops. *)
Fixpoint account_all (cells : list (nat * bytes)) c : Circuit * list effect :=
  match cells with
  | [] => (c, [])
  | (i, tag) :: cells =>
      let '(c, eff) := accountInboundData i tag c in
      let '(c, eff') := account_all cells c in (c, eff ++ eff')
  end.

(** Data cells received since the last SENDME. *)
Definition unacked c : Z := (Z.of_nat circWindowStart - circDeliverWindow c)%Z.

Lemma account_one i tag c :
  circuit_inv c → closed c = false → i < length (hops c) →
  let r := accountInboundData i tag c in
  closed r.1 = false ∧ length (hops r.1) = length (hops c) ∧
  unacked r.1 = ((unacked c + 1) mod 100)%Z ∧
  Z.of_nat (length r.2) = ((unacked c + 1) / 100)%Z.
Proof.
  intros H Ho Hi r.
  assert (unacked r.1 = ((unacked c + 1) mod 100)%Z ∧
          (circDeliverWindow c - 1 <= 900 ↔ (unacked c + 1) / 100 = 1)%Z ∧
          (900 < circDeliverWindow c - 1 ↔ (unacked c + 1) / 100 = 0)%Z) as (Hu&Hs&Hn).
  { unfold unacked. unfold r. rewrite accountInboundData_window. unfold next_window.
    assert (Hr := inv_window c H). change (Z.of_nat circWindowStart) with 1000%Z in *.
    change (Z.of_nat circWindowIncrement) with 100%Z in *.
    destruct (Z.leb_spec (circDeliverWindow c - 1) (1000 - 100));
      (split; [|split]); Z.to_euclidean_division_equations; lia. }
  unfold r, accountInboundData in *. change (Z.of_nat circWindowStart) with 1000%Z in *.
  change (Z.of_nat circWindowIncrement) with 100%Z in *.
  destruct (Z.leb_spec (circDeliverWindow c - 1) (1000 - 100)); simpl negb in *; cbv iota in *.
  - simpl closed in *. simpl hops in *. rewrite Ho in *. simpl in *.
    destruct (Nat.leb_spec (length (hops c)) i); [lia|].
    destruct (encrypt_in_range (E:=unit) (hops c) i
                (relay_cell Relay.RelaySendme 0 (encodeSendmeV1 tag)) Hi) as (p&hs&He).
    rewrite He in *. simpl in *. split_and!; [done|by eapply encrypt_hops_length|done|].
    symmetry. apply Hs. lia.
  - simpl in *. split_and!; [done..|]. symmetry. apply Hn. lia.
Qed.

(** Circuit-level acknowledgement.  On an open circuit, after any number
    of inbound data cells exactly one SENDME was emitted per 100 cells, and
    the deliver window records the remainder: no acknowledgement is lost or
    sent twice, whichever hops the cells came from. *)
Theorem deliver_window_sendmes (cells : list (nat * bytes)) (c : Circuit) :
  circuit_inv c → closed c = false →
  Forall (λ ct, ct.1 < length (hops c)) cells →
  let r := account_all cells c in
  unacked r.1 = ((unacked c + Z.of_nat (length cells)) mod 100)%Z ∧
  Z.of_nat (length r.2) = ((unacked c + Z.of_nat (length cells)) / 100)%Z.
Proof.
  revert c. induction cells as [|[i tag] cells IH]; intros c H Ho Hc.
  { simpl. rewrite Z.add_0_r. assert (Hr := inv_window c H). unfold unacked.
    change (Z.of_nat circWindowStart) with 1000%Z in *.
    change (Z.of_nat circWindowIncrement) with 100%Z in *.
    rewrite Z.mod_small, Z.div_small by lia. done. }
  inversion Hc as [|? ? Hi Hc']; subst. simpl in Hi.
  destruct (account_one i tag c H Ho Hi) as (Ho1&Hl1&Hu1&Hn1).
  pose proof (inv_accountInboundData i tag c H) as H1. cbn [account_all length].
  destruct (accountInboundData i tag c) as [c1 eff]. simpl in *.
  specialize (IH c1 H1 Ho1). rewrite Hl1 in IH. specialize (IH Hc').
  destruct (account_all cells c1) as [c2 eff']. simpl in *. destruct IH as [IH1 IH2].
  rewrite length_app, Nat2Z.inj_add, IH1, IH2, Hn1, Hu1.
  rewrite Nat2Z.inj_succ. Z.to_euclidean_division_equations. lia.
Qed.

(** ** The package window *)

Lemma fail_tokens e c : circPkgTokens (fail e c) = circPkgTokens c.
Proof. unfold fail. by destruct (closed c). Qed.

Lemma sendRelay_locked_tokens d rc early c :
  circPkgTokens (sendRelay_locked d rc early c).2 = circPkgTokens c.
Proof.
  unfold sendRelay_locked. by repeat (case_match; try done).
Qed.

(** What a send decides under the lock. *)
Lemma sendRelay_locked_cases d rc early c o c' :
  (0 ≤ d)%Z → circuit_inv c → sendRelay_locked d rc early c = (o, c') →
  (∃ e, o = Ok (Returned (Some e)) ∧ c' = c) ∨
  (∃ cl, o = Ok (Claimed (sendNext c) cl) ∧ sendNext c' = S (sendNext c) ∧
         sendTurn c' = sendTurn c ∧ circPkgTokens c' = circPkgTokens c).
Proof.
  intros Hd Hi. unfold sendRelay_locked. destruct (closed c) eqn:Ho.
  { destruct (proj1 (inv_err c Hi) Ho) as [e He]. rewrite He. intros [= <- <-]. eauto. }
  destruct (Z.leb_spec (Z.of_nat (length (hops c))) d); [intros [= <- <-]; eauto|].
  destruct (early && _)%bool; [intros [= <- <-]; eauto|].
  destruct (Z.ltb_spec d 0); [lia|].
  destruct (encrypt_in_range (E:=circuit_error) (hops c) (Z.to_nat d) rc) as (p&hs&He); [lia|].
  rewrite He. destruct early; intros [= <- <-]; right; eexists; by split_and!.
Qed.

Lemma writeAtTurn_result t cl nd o nd' :
  writeAtTurn t cl nd = Some (o, nd') →
  o ≠ Panic ∧ circPkgTokens (circ nd') = circPkgTokens (circ nd) ∧
  sendNext (circ nd') = sendNext (circ nd) ∧ sendTurn (circ nd) = t ∧ sendTurn (circ nd') = S t.
Proof.
  unfold writeAtTurn. rewrite prog_bind_eq. cbn [gets].
  destruct (Nat.eqb_spec (sendTurn (circ nd)) t) as [<-|]; [|done]. simpl.
  rewrite prog_bind_eq. unfold attempt, link_send.
  destruct (SendCell (link nd) cl) as [[e|] l']; simpl; intros [= <- <-]; simpl.
  - unfold fail. simpl. by destruct (closed (circ nd)).
  - done.
Qed.

(** Package permits.  A [SendData] that succeeds uses exactly one permit
    and claims exactly one ticket; one that fails, for whatever reason, leaves
    the number of permits unchanged; it never panics. *)
Theorem SendData_permits (sel : select_case) (sid : Z) (data : bytes) (nd nd' : node)
    (o : outcome circuit_error unit) :
  circuit_inv (circ nd) → SendData sel sid data nd = Some (o, nd') →
  match o with
  | Ok _ => Tokens.avail (circPkgTokens (circ nd)) = S (Tokens.avail (circPkgTokens (circ nd'))) ∧
            sendNext (circ nd') = S (sendNext (circ nd))
  | Err _ => circPkgTokens (circ nd') = circPkgTokens (circ nd)
  | Panic => False
  end.
Proof.
  intros Hi. destruct sel; simpl.
  2: { by intros [= <- <-]. }
  2: { unfold await_destroyed. rewrite prog_bind_eq. simpl.
       destruct (destroyed (circ nd)); [|done]. by intros [= <- <-]. }
  rewrite prog_bind_eq. cbn [gets].
  destruct (Tokens.recv (circPkgTokens (circ nd))) as [t|] eqn:Ht; [|done].
  destruct (Tokens.recv_wf _ _ (inv_tokens _ Hi) Ht) as (Hwf&Hav&Hcap).
  rewrite prog_bind_eq. cbn [modify]. rewrite prog_bind_eq. cbn [gets].
  change (hops (circ (on_circ (set_tokens t) nd))) with (hops (circ nd)).
  assert (Tokens.credit 1 t = circPkgTokens (circ nd)) as Hcr.
  { rewrite Tokens.credit_spec by done. pose proof (inv_tokens _ Hi) as Hw. unfold Tokens.wf in Hw.
    destruct (circPkgTokens (circ nd)); simpl in *. f_equal; lia. }
  destruct (Z.ltb_spec (Z.of_nat (length (hops (circ nd))) - 1) 0).
  { cbn. intros [= <- <-]. exact Hcr. }
  pose proof (inv_set_tokens t _ Hwf ltac:(by rewrite Hcap; apply Hi) Hi) as Hi1.
  change (set_tokens t (circ nd)) with (circ (on_circ (set_tokens t) nd)) in Hi1.
  set (nd1 := on_circ (set_tokens t) nd) in *.
  rewrite prog_bind_eq. unfold attempt, sendRelay. rewrite prog_bind_eq. unfold locked.
  destruct (sendRelay_locked _ _ _ (circ nd1)) as [oc c2] eqn:El.
  apply sendRelay_locked_cases in El as [(e&->&->)|(cl&->&Hn&Htn&Htk)]; [| |lia|done].
  - cbn. intros [= <- <-]. exact Hcr.
  - destruct (writeAtTurn _ _ _) as [[o1 nd2]|] eqn:Ew; [|done].
    apply writeAtTurn_result in Ew as (Hp&Ht2&Hn2&_). cbn [circ] in Ht2, Hn2.
    rewrite Htk in Ht2. rewrite Hn in Hn2.
    destruct o1 as [[]|e|]; cbn; intros [= <- <-]; cbn [circ on_circ].
    + rewrite Ht2. split; [exact Hav|done].
    + unfold creditPackageWindow. simpl. rewrite Ht2. exact Hcr.
    + done.
Qed.

(** ** Building a path *)

Lemma recv_infos evs c : map info (hops (recvLoop evs c).1) = map info (hops c).
Proof.
  revert c. induction evs as [|ev evs IH]; intros c; simpl; [done|].
  assert (map info (hops (recvLoop_step ev c).1.2) = map info (hops c)) as H1.
  { assert (∀ e c, hops (fail e c) = hops c) as Hf by (intros e c0; unfold fail; by destruct (closed c0)).
    destruct ev; simpl; rewrite ?Hf; try done. case_decide; simpl; [done|].
    destruct (_ || _)%bool; [|case_decide; simpl; by rewrite ?Hf].
    unfold handleRelay. pose proof (decrypt_infos (hops c) (Payload raw)) as Hd.
    destruct (decryptInboundLocked _ _) as [res hs]. simpl in Hd.
    destruct res as [[i [rc|]]|]; simpl; try done.
    do 3 (case_decide; simpl; [repeat case_decide; simpl; by rewrite ?Hf|]).
    case_decide; simpl; [|by destruct (_ && _)%bool].
    destruct (hs !! i); [|done]. unfold accountInboundData.
    destruct (_ <=? _)%Z; simpl; [|done]. destruct (_ || _)%bool; [done|].
    destruct (encryptForwardLocked _ _ _) as [[p hs']| |] eqn:He; simpl; [|done..].
    apply encrypt_infos in He. congruence. }
  destruct (recvLoop_step ev c) as [[b c1] eff]. simpl in H1. destruct b; [|done].
  specialize (IH c1). destruct (recvLoop evs c1). simpl in *. congruence.
Qed.

Lemma finish_infos get clear wrap st r sel nd nd' :
  (∀ c, hops (clear c) = hops c ∧ relayEarlyCount (clear c) = relayEarlyCount c) →
  finish_handshake get clear wrap st r sel nd = Some (Ok tt, nd') →
  map info (hops (circ nd')) = map info (hops (circ nd)) ++ [r] ∧
  relayEarlyCount (circ nd') = relayEarlyCount (circ nd).
Proof.
  intros Hc. destruct sel; simpl; [|done|].
  2: { unfold await_destroyed. rewrite prog_bind_eq. simpl. by destruct (destroyed _). }
  rewrite prog_bind_eq. cbn [gets]. destruct (get (circ nd)) as [h|]; [|done].
  rewrite prog_bind_eq. cbn [modify]. rewrite prog_bind_eq. unfold lift.
  destruct (map_err wrap (Complete st h NtorKeyMaterialLen)) as [keys| |]; [|done..].
  unfold locked, addHop. destruct (ntor_hop r keys) as [hp| |] eqn:Hn; [|done..].
  destruct (Hc (circ nd)) as [Hh He].
  intros [= <-]. simpl. rewrite map_app, Hh. simpl. split; [|done]. f_equal. f_equal.
  unfold ntor_hop in Hn. destruct (SplitNtorKeys keys); [|done]. outcome_inv. done.
Qed.

Lemma receive_infos evs nd nd' o :
  receive evs nd = Some (o, nd') → map info (hops (circ nd')) = map info (hops (circ nd)).
Proof.
  unfold receive. pose proof (recv_infos evs (circ nd)). destruct (recvLoop _ _).
  by intros [= <- <-].
Qed.

(** Receiving and finishing a handshake leave the RELAY_EARLY counter alone. *)
Lemma fail_early e c : relayEarlyCount (fail e c) = relayEarlyCount c.
Proof. unfold fail. by destruct (closed c). Qed.

Lemma recv_early evs c : relayEarlyCount (recvLoop evs c).1 = relayEarlyCount c.
Proof.
  revert c. induction evs as [|ev evs IH]; intros c; simpl; [done|].
  assert (relayEarlyCount (recvLoop_step ev c).1.2 = relayEarlyCount c) as H1.
  { destruct ev; simpl; rewrite ?fail_early; try done. case_decide; simpl; [done|].
    destruct (_ || _)%bool; [|case_decide; simpl; by rewrite ?fail_early].
    unfold handleRelay. destruct (decryptInboundLocked _ _) as [res hs].
    destruct res as [[i [rc|]]|]; simpl; try done.
    do 3 (case_decide; simpl; [repeat case_decide; simpl; by rewrite ?fail_early|]).
    case_decide; simpl; [|by destruct (_ && _)%bool].
    destruct (hs !! i); [|done]. unfold accountInboundData.
    destruct (_ <=? _)%Z; simpl; [|done]. destruct (_ || _)%bool; [done|].
    by destruct (encryptForwardLocked _ _ _) as [[p hs']| |]. }
  destruct (recvLoop_step ev c) as [[b c1] eff]. simpl in H1. destruct b; [|done].
  specialize (IH c1). destruct (recvLoop evs c1). simpl in *. congruence.
Qed.

Lemma receive_early evs nd nd' o :
  receive evs nd = Some (o, nd') → relayEarlyCount (circ nd') = relayEarlyCount (circ nd).
Proof.
  unfold receive. pose proof (recv_early evs (circ nd)). destruct (recvLoop _ _).
  by intros [= <- <-].
Qed.

Lemma Create_infos random evs sel r nd nd' :
  Create random evs sel r nd = Some (Ok tt, nd') →
  map info (hops (circ nd')) = map info (hops (circ nd)) ++ [r] ∧
  relayEarlyCount (circ nd') = relayEarlyCount (circ nd).
Proof.
  unfold Create. rewrite prog_bind_eq. unfold lift.
  destruct (map_err NtorInit _) as [[cd st]| |]; [|done..].
  rewrite !prog_bind_eq. cbn [gets]. rewrite prog_bind_eq. unfold map_error, link_send.
  destruct (SendCell _ _) as [[e|] l]; [done|]. cbn [map_err]. rewrite prog_bind_eq.
  destruct (receive evs _) as [[o nd1]|] eqn:Er; [|done]. destruct o as [[]| |]; [|done..].
  pose proof (receive_early _ _ _ _ Er). apply receive_infos in Er. cbn [circ] in *. intros Hf.
  apply finish_infos in Hf as [??]; [|done]. split; congruence.
Qed.

Lemma sendRelay_early_ok d rc nd nd' :
  (0 ≤ d)%Z → circuit_inv (circ nd) → sendRelay d rc true nd = Some (Ok tt, nd') →
  map info (hops (circ nd')) = map info (hops (circ nd)) ∧
  relayEarlyCount (circ nd') = S (relayEarlyCount (circ nd)) ∧ circuit_inv (circ nd').
Proof.
  intros Hd Hi H.
  pose proof (keeps_sendRelay _ inv_stable d rc true nd _ _ H Hi) as Hi'.
  revert H. unfold sendRelay. rewrite prog_bind_eq. unfold locked, sendRelay_locked.
  destruct (closed (circ nd)) eqn:Ho.
  { destruct (proj1 (inv_err _ Hi) Ho) as [e He]. by rewrite He. }
  destruct (_ <=? d)%Z; [done|]. destruct (true && _)%bool; [done|].
  destruct (d <? 0)%Z; [done|].
  destruct (encryptForwardLocked _ _ _) as [[p hs]| |] eqn:He; [|done..].
  apply encrypt_infos in He. cbn [set_hops set_early set_next relayEarlyCount sendNext id].
  unfold writeAtTurn. rewrite prog_bind_eq. cbn [gets].
  destruct (negb _); [done|]. rewrite prog_bind_eq. unfold attempt, link_send.
  destruct (SendCell _ _) as [[e|] l]; [done|]. intros [= <-]. done.
Qed.

Lemma Extend_infos random evs sel r nd nd' :
  circuit_inv (circ nd) → Extend random evs sel r nd = Some (Ok tt, nd') →
  map info (hops (circ nd')) = map info (hops (circ nd)) ++ [r] ∧
  relayEarlyCount (circ nd') = S (relayEarlyCount (circ nd)) ∧ circuit_inv (circ nd').
Proof.
  intros Hi H. pose proof (keeps_Extend _ inv_stable _ _ _ _ _ _ _ H Hi) as Hi'.
  revert H. unfold Extend. rewrite prog_bind_eq. cbn [gets].
  destruct (Z.ltb_spec (Z.of_nat (length (hops (circ nd))) - 1) 0); [done|].
  rewrite prog_bind_eq. unfold lift. destruct (map_err NtorInit _) as [[cd st]| |]; [|done..].
  rewrite prog_bind_eq. destruct (map_err LinkSpecErr _) as [specs| |]; [|done..].
  rewrite prog_bind_eq. unfold map_error.
  destruct (sendRelay _ _ _ _) as [[[[]| |] nd1]|] eqn:Es; cbn [map_err]; [|done..].
  apply sendRelay_early_ok in Es as (H1&H2&H3); [|lia|done].
  rewrite prog_bind_eq. destruct (receive evs _) as [[[[]| |] nd2]|] eqn:Er; [|done..].
  pose proof (receive_early _ _ _ _ Er). apply receive_infos in Er. intros Hf.
  apply finish_infos in Hf as [??]; [|done]. split_and!; [congruence..|done].
Qed.

Lemma extend_all_infos path envs nd nd' :
  circuit_inv (circ nd) → extend_all path envs nd = Some (Ok tt, nd') →
  map info (hops (circ nd')) = map info (hops (circ nd)) ++ path ∧
  relayEarlyCount (circ nd') = relayEarlyCount (circ nd) + length path ∧ circuit_inv (circ nd').
Proof.
  revert envs nd. induction path as [|r path IH]; intros envs nd Hi; simpl.
  { intros [= <-]. by rewrite app_nil_r, Nat.add_0_r. }
  destruct envs as [|a envs]; [done|]. rewrite prog_bind_eq.
  destruct (Extend _ _ _ _ _) as [[[[]| |] nd1]|] eqn:Ee; [|done..].
  apply Extend_infos in Ee as (H1&H2&H3); [|done]. intros Hx.
  apply IH in Hx as (H4&H5&H6); [|done]. rewrite H4, H5, H1, H2, <-app_assoc.
  split_and!; [done|lia|done].
Qed.

(** What [Build] establishes.  On a fresh circuit, a [Build] that returns
    without error has one hop per relay of the path, in the path's order,
    whatever was received while it ran; it spent one RELAY_EARLY cell per
    extension, so a path has at most nine relays. *)
Theorem Build_establishes_path (path : list RelayInfo) (envs : list around)
    (l l' : L) (c : Circuit) (nd : node) :
  New l = Some (Ok c, l') → Build path envs (mkNode c l' []) = Some (Ok tt, nd) →
  map info (hops (circ nd)) = path ∧ S (relayEarlyCount (circ nd)) = length path ∧
  length path ≤ 9.
Proof.
  intros Hn. destruct (New_inv _ _ _ Hn) as (Hi&Hh&Ho).
  assert (relayEarlyCount c = 0) as He.
  { revert Hn. unfold New. destruct (AllocCircuit l) as [[[[cid ent]| |] l1]|]; cbn [mbind option_bind]; [|done..].
    rewrite Tokens.MakeTokens_full. cbn [mbind option_bind]. by intros [= <- <-]. }
  destruct path as [|r path], envs as [|a envs]; [done..|]. unfold Build. rewrite prog_bind_eq.
  destruct (Create _ _ _ _ _) as [[[[]| |] nd1]|] eqn:Ec; [|done..].
  pose proof (keeps_Create _ inv_stable _ _ _ _ _ _ _ Ec Hi) as Hi1.
  apply Create_infos in Ec as [H1 H2]. cbn [circ] in *. intros Hx.
  apply extend_all_infos in Hx as (H3&H4&H5); [|done].
  rewrite H3, H1, Hh, H4, H2, He. split_and!; [done|done|].
  pose proof (inv_early _ H5) as Hb. unfold maxRelayEarly in Hb. simpl. lia.
Qed.
End Facts.
