(* ===== verification/CircuitRuns.v ===== *)
(** * Circuits against honest relays.

    The client's handshakes and handlers composed with the relay side: an
    honest first hop makes [Create] succeed, an honest last hop and new relay
    make [Extend] succeed, and the new hop is in step with the relay's
    cryptographic state; a data cell a relay originates reaches the stream
    handler. *)

From S2P Require Import Prelude ByteUtil Cell TorCrypto RelayInfo OnionCrypto Circuit CircuitFacts.

(** The framing of a CREATED2/EXTENDED2 body. *)
Definition framed (hdata : bytes) : bytes := be_encode 2 (Z.of_nat (length hdata)) ++ hdata.

Lemma parseLenPrefixed_framed hdata pad :
  hdata ≠ [] → (Z.of_nat (length hdata) < 2 ^ 16)%Z →
  parseLenPrefixed (framed hdata ++ pad) = Some hdata.
Proof.
  intros Hne Hl. unfold parseLenPrefixed, framed.
  set (b := (be_encode 2 _ ++ hdata) ++ pad).
  pose proof (Reader.wf_new b) as Hw. pose proof (Reader.view_new b) as Hv.
  rewrite Reader.U16_fixed. destruct (Reader.fixed_ok 2 (Reader.NewReader b) b) as (H1&H2&H3);
    [done..|subst b; rewrite !length_app, length_be_encode; lia|].
  assert (take 2 b = be_encode 2 (Z.of_nat (length hdata)) ∧ drop 2 b = hdata ++ pad) as [T1 T2].
  { subst b. rewrite <-app_assoc. split; [apply take_app_exact|apply drop_app_exact];
      apply length_be_encode. }
  rewrite H1, T1, be_decode_encode, Z.mod_small by lia. cbn [fst snd].
  rewrite T2 in H2.
  destruct (Reader.Bytes_ok (length hdata) _ _ H3 H2) as (B1&B2&B3); [rewrite length_app; lia|].
  destruct (Reader.Bytes _ _) as [data r]. cbn [fst snd] in *. subst data.
  rewrite take_app_length. unfold Reader.Err.
  destruct (Reader.err r) eqn:E; [apply Reader.view_None in E; congruence|].
  by destruct hdata.
Qed.

Section Runs.
Context `{C : Crypto} `{CL : !CryptoLaws C} {L LE : Type} `{!Link L LE}.
Notation Circuit := (Circuit (LE:=LE)).
Notation circuit_error := (circuit_error (LE:=LE)).
Notation node := (node (L:=L) (LE:=LE)).
Implicit Types (c : Circuit) (nd : node).

(** The relay's state for negotiated key material, as [addHopsAndRelays] of
    circuit_test.go sets it up. *)
Definition relay_of_keys (keys : bytes) : option relayModel :=
  match SplitNtorKeys keys with
  | None => None
  | Some rk =>
      match NewCTR (Kf rk), NewCTR (Kb rk) with
      | Ok f, Ok b => Some {| rFwdCipher := f; rBwdCipher := b;
                              rFwdDigest := NewRunningDigestSHA1 (Df rk);
                              rBwdDigest := NewRunningDigestSHA1 (Db rk) |}
      | _, _ => None
      end
  end.

Lemma ntor_hop_in_step i keys :
  NtorKeyMaterialLen ≤ length keys →
  ∃ h r, ntor_hop (LE:=LE) i keys = Ok h ∧ relay_of_keys keys = Some r ∧ in_step h r ∧ info h = i.
Proof.
  intros Hl. unfold ntor_hop, relay_of_keys. destruct (SplitNtorKeys keys) as [rk|] eqn:Hs.
  2: { unfold SplitNtorKeys in Hs. destruct (Nat.ltb_spec (length keys) NtorKeyMaterialLen); [lia|done]. }
  assert (length (Kf rk) = 16 ∧ length (Kb rk) = 16) as [Hf Hb].
  { unfold SplitNtorKeys in Hs. destruct (Nat.ltb_spec (length keys) NtorKeyMaterialLen); [done|].
    injection Hs as <-. cbn [Kf Kb]. rewrite !length_take, !length_drop.
    unfold NtorKeyMaterialLen, digestKeyLen, aesKeyLen in *. lia. }
  unfold NewCTR, NewCTRWithIV, aes_key_ok. rewrite Hf, Hb. simpl.
  eexists _, _. split; [done|]. split; [done|]. done.
Qed.

Lemma server_keys_length nid server y cd n sd keys :
  ntorServerHandshake nid server y cd n = Ok (sd, keys) → length keys = n.
Proof.
  unfold ntorServerHandshake. destruct (negb _); [done|]. intros H. outcome_inv.
  destruct (negb _); [done|]. destruct (negb _); [done|]. outcome_inv.
  unfold hkdf_Expand in *. case_match; simplify_eq. apply hkdf_expand_length.
Qed.

(** Finishing a handshake whose response is waiting in the channel. *)
Lemma finish_honest get clear wrap st i nd hdata keys :
  get (circ nd) = Some hdata → (∀ c, hops (clear c) = hops c) →
  Complete st hdata NtorKeyMaterialLen = Ok keys → NtorKeyMaterialLen ≤ length keys →
  ∃ nd' h r, finish_handshake get clear wrap st i Ready nd = Some (Ok tt, nd') ∧
    hops (circ nd') = hops (circ nd) ++ [h] ∧ relay_of_keys keys = Some r ∧ in_step h r ∧
    info h = i.
Proof.
  intros Hg Hc Hk Hl. destruct (ntor_hop_in_step i keys Hl) as (h&r&H1&H2&H3&H4).
  cbn [finish_handshake]. rewrite prog_bind_eq. cbn [gets]. rewrite Hg.
  rewrite prog_bind_eq. cbn [modify]. rewrite prog_bind_eq. unfold lift. rewrite Hk.
  cbn [map_err]. unfold locked, addHop. rewrite H1.
  eexists _, h, r. split; [done|]. cbn [circ on_circ set_hops hops]. by rewrite Hc.
Qed.

(** Creating the first hop.  If the relay answers the CREATE2 data as the
    ntor specification says, [Create] returns without error and appends one
    hop, for that relay, whose ciphers and digests are in step with the
    relay's. *)
Theorem Create_honest (nd : node) (first : RelayInfo) (random : bytes)
    (server y : X25519KeyPair) (clientData serverData keys pad : bytes) (st : NtorClient) (l' : L) :
  NtorOnionKey first = Public server →
  NtorClientHandshake random (RSAIDDigest first) (NtorOnionKey first) = Ok (clientData, st) →
  ntorServerHandshake (RSAIDDigest first) server y clientData NtorKeyMaterialLen
    = Ok (serverData, keys) →
  createdCh (circ nd) = None →
  SendCell (link nd) {| CircID := id (circ nd); Cmd := CmdCreate2;
                        Payload := handshake_body (Writer.NewWriter 0) clientData |} = (None, l') →
  let created2 := {| CircID := id (circ nd); Cmd := CmdCreated2;
                     Payload := framed serverData ++ pad |} in
  ∃ nd' h r, Create random [Inbox created2] Ready first nd = Some (Ok tt, nd') ∧
    hops (circ nd') = hops (circ nd) ++ [h] ∧ relay_of_keys keys = Some r ∧ in_step h r ∧
    info h = first.
Proof.
  intros Hpk Hc Hs Hch Hsend created2.
  pose proof (server_keys_length _ _ _ _ _ _ _ Hs) as Hkl.
  pose proof Hc as Hc'. rewrite Hpk in Hc'.
  destruct (ntor_honest_run _ _ _ _ _ _ _ _ _ Hc' Hs) as (_&Hsl&Hk).
  unfold Create. rewrite prog_bind_eq. unfold lift. rewrite Hc. cbn [map_err].
  rewrite prog_bind_eq. cbn [gets]. rewrite prog_bind_eq. unfold map_error, link_send.
  change (Writer.NewWriter (4 + length clientData)) with (Writer.NewWriter 0).
  rewrite Hsend. cbn [map_err]. rewrite prog_bind_eq. unfold receive.
  cbn [recvLoop recvLoop_step circ]. unfold created2 at 1. cbn [Cmd]. rewrite decide_True by done.
  subst created2. cbn [Payload].
  rewrite parseLenPrefixed_framed, Hch; [|by destruct serverData|by rewrite Hsl].
  cbn [deliverHandshake fst snd].
  match goal with |- context [finish_handshake _ ?cl ?w _ _ _ ?n] =>
    destruct (finish_honest createdCh cl w st first n serverData keys)
      as (nd'&h&r&?&?&?&?&?); [done|done|done|lia|] end.
  by exists nd', h, r.
Qed.

(** The link takes any cell without error. *)
Definition link_up nd : Prop := ∀ cl, (SendCell (link nd) cl).1 = None.

(** A send on an open circuit with no writer waiting. *)
Lemma sendRelay_open d rc early nd p hs :
  closed (circ nd) = false → d < length (hops (circ nd)) →
  (early = true → relayEarlyCount (circ nd) < maxRelayEarly) →
  sendTurn (circ nd) = sendNext (circ nd) → link_up nd →
  encryptForwardLocked (E:=circuit_error) (hops (circ nd)) d rc = Ok (p, hs) →
  ∃ nd', sendRelay (Z.of_nat d) rc early nd = Some (Ok tt, nd') ∧
    hops (circ nd') = hs ∧ extendedCh (circ nd') = extendedCh (circ nd).
Proof.
  intros Ho Hd He Ht Hl Hp. unfold sendRelay. rewrite prog_bind_eq. unfold locked, sendRelay_locked.
  rewrite Ho. destruct (Z.leb_spec (Z.of_nat (length (hops (circ nd)))) (Z.of_nat d)); [lia|].
  replace (early && (maxRelayEarly <=? relayEarlyCount (circ nd)))%bool with false.
  2: { destruct early; [|done]. specialize (He eq_refl). symmetry. apply Nat.leb_gt. lia. }
  destruct (Z.ltb_spec (Z.of_nat d) 0); [lia|]. rewrite Nat2Z.id, Hp.
  set (c1 := if early then _ else set_hops hs (circ nd)).
  assert (sendTurn c1 = sendTurn (circ nd) ∧ sendNext c1 = sendNext (circ nd) ∧ hops c1 = hs ∧
          extendedCh c1 = extendedCh (circ nd)) as (H1&H2&H3&H4) by (by destruct early).
  clearbody c1. unfold writeAtTurn. rewrite prog_bind_eq. cbn [gets circ set_next sendTurn].
  rewrite H1, H2, Ht, Nat.eqb_refl. cbn [negb]. rewrite prog_bind_eq. unfold attempt, link_send.
  cbn [link]. set (cl := {| CircID := _; Cmd := _; Payload := _ |}). specialize (Hl cl).
  destruct (SendCell (link nd) cl) as [err l']. simpl in Hl. subst err.
  eexists. split; [reflexivity|]. done.
Qed.

Lemma in_step_snoc hs rs h r :
  Forall2 in_step hs rs → in_step h r → Forall2 in_step (hs ++ [h]) (rs ++ [r]).
Proof. intros. apply Forall2_app; [done|]. by constructor. Qed.

(** The body of EXTEND2. *)
Definition extend2 (specs clientData : bytes) : Relay.RelayCell :=
  relay_cell Relay.RelayExtend2 0
    (handshake_body (Writer.Write (Writer.NewWriter 0) specs) clientData).

Lemma handle_extended2 c q i rc hs hdata id' :
  decryptInboundLocked (hops c) q = (Some (i, Some rc), hs) →
  Relay.Cmd rc = Relay.RelayExtended2 → Relay.Data rc = framed hdata →
  hdata ≠ [] → (Z.of_nat (length hdata) < 2 ^ 16)%Z → extendedCh c = None →
  recvLoop [Inbox {| CircID := id'; Cmd := CmdRelay; Payload := q |}] c
    = (set_extended (Some hdata) (set_hops hs c), []).
Proof.
  intros Hd Hc Hda Hne Hl He. cbn [recvLoop recvLoop_step Cmd].
  rewrite decide_False by done. rewrite bool_decide_true by done. cbn [orb].
  unfold handleRelay. cbn [Payload]. rewrite Hd, Hc. rewrite decide_True by done.
  rewrite Hda, <-(app_nil_r (framed hdata)), parseLenPrefixed_framed by done.
  cbn [set_hops extendedCh]. by rewrite He.
Qed.

(** C9: extending by one hop.  On an open circuit in step with its relays, if
    the last relay forwards the EXTEND2 and the new relay answers as ntor
    specifies, the last relay decodes exactly the EXTEND2 that was meant,
    [Extend] returns without error, and the longer circuit is in step with
    the relays including the new one (unless a hop before the last one takes
    the answer for its own by accident). *)
Theorem Extend_honest (nd : node) (next : RelayInfo) (random : bytes) (server y : X25519KeyPair)
    (relays relays1 relays2 : list relayModel) (clientData serverData keys specs p q : bytes)
    (st : NtorClient) (hops1 : list hop) (got : option Relay.RelayCell) :
  closed (circ nd) = false → relayEarlyCount (circ nd) < maxRelayEarly →
  sendTurn (circ nd) = sendNext (circ nd) → extendedCh (circ nd) = None → link_up nd →
  hops (circ nd) ≠ [] → Forall2 in_step (hops (circ nd)) relays →
  NtorOnionKey next = Public server →
  NtorClientHandshake random (RSAIDDigest next) (NtorOnionKey next) = Ok (clientData, st) →
  linkSpecifiers next = Ok specs →
  ntorServerHandshake (RSAIDDigest next) server y clientData NtorKeyMaterialLen
    = Ok (serverData, keys) →
  let last := length (hops (circ nd)) - 1 in
  encryptForwardLocked (E:=circuit_error) (hops (circ nd)) last (extend2 specs clientData)
    = Ok (p, hops1) →
  relayDecodeForward relays last p = (got, relays1) →
  relayOriginateBackward relays1 last (relay_cell Relay.RelayExtended2 0 (framed serverData))
    = Some (q, relays2) →
  not_recognized_before hops1 last q →
  let ev := Inbox {| CircID := id (circ nd); Cmd := CmdRelay; Payload := q |} in
  (∃ rc, got = Some rc ∧ same_cell (extend2 specs clientData) rc) ∧
  ∃ nd' r, Extend random [ev] Ready next nd = Some (Ok tt, nd') ∧
    relay_of_keys keys = Some r ∧ Forall2 in_step (hops (circ nd')) (relays2 ++ [r]).
Proof.
  intros Ho He Ht Hx Hl Hne Hs Hpk Hc Hsp Hsrv last Hp Hdec Hq Hn ev.
  assert (last < length (hops (circ nd))) as Hlast.
  { unfold last. destruct (hops (circ nd)); [done|]. simpl. lia. }
  destruct (forward_cell _ _ _ _ _ _ Hs Hp) as (rc&G1&G2&G3). rewrite Hdec in G1, G3.
  cbn [fst snd] in G1, G3. subst got. split; [by exists rc|].
  pose proof (server_keys_length _ _ _ _ _ _ _ Hsrv) as Hkl.
  pose proof Hc as Hc'. rewrite Hpk in Hc'.
  destruct (ntor_honest_run _ _ _ _ _ _ _ _ _ Hc' Hsrv) as (_&Hsl&Hk).
  destruct (backward_cell _ _ _ _ _ _ G3 Hq Hn) as (rc2&hops2&D1&(D2&_&_&D4)&D5).
  assert (Relay.Data rc2 = framed serverData) as Hdata.
  { rewrite D4. apply take_ge. cbn [relay_cell Relay.Data]. unfold framed.
    rewrite length_app, length_be_encode, Hsl. unfold Relay.RelayDataLen, PayloadLen,
      Relay.RelayHeaderLen, NtorServerDataLen, Curve25519KeyLen. lia. }
  unfold Extend. rewrite prog_bind_eq. cbn [gets].
  destruct (Z.ltb_spec (Z.of_nat (length (hops (circ nd))) - 1) 0); [lia|].
  rewrite prog_bind_eq. unfold lift. rewrite Hc. cbn [map_err].
  rewrite prog_bind_eq, Hsp. cbn [map_err]. rewrite prog_bind_eq. unfold map_error.
  change (Writer.NewWriter (length specs + 4 + length clientData)) with (Writer.NewWriter 0).
  replace (Z.of_nat (length (hops (circ nd))) - 1)%Z with (Z.of_nat last) by lia.
  destruct (sendRelay_open last (extend2 specs clientData) true nd p hops1)
    as (nd1&S1&S2&S3); [done..|].
  change (relay_cell Relay.RelayExtend2 0 _) with (extend2 specs clientData).
  rewrite S1. cbn [map_err]. rewrite prog_bind_eq. unfold receive.
  subst hops1. unfold ev. rewrite (handle_extended2 _ _ _ _ _ _ (id (circ nd)) D1 D2 Hdata);
    [|by destruct serverData|by rewrite Hsl|congruence].
  match goal with |- context [finish_handshake _ ?cl ?w _ _ _ ?n] =>
    destruct (finish_honest extendedCh cl w st next n serverData keys)
      as (nd'&h&r&F1&F2&F3&F4&F5); [done|done|done|lia|] end.
  exists nd', r. split; [exact F1|]. split; [done|]. rewrite F2. by apply in_step_snoc.
Qed.
End Runs.
