(* ===== verification/Turnstile.v ===== *)
(** * The ordered-write turnstile of [pkg/circuit/circuit.go].

    Any number of goroutines send on a circuit while the receive loop runs and
    other users share the link.  A send claims its ticket in the critical
    section that encrypts it; [writeAtTurn] then checks under [sendMu] whether it
    is its turn and otherwise sleeps in [sendCond.Wait], writes, advances the turn
    and wakes the sleepers with [sendCond.Broadcast], and, on an error, fails the
    circuit.  These are the atomic steps of the relation below; every interleaving
    of them is considered. *)

From S2P Require Import Prelude ByteUtil Cell TorCrypto RelayInfo OnionCrypto Circuit CircuitFacts.
From stdpp Require Import relations.

Section Turnstile.
Context `{C : Crypto} `{CL : !CryptoLaws C} {L LE : Type} `{!Link L LE}.
Notation Circuit := (Circuit (LE:=LE)).
Notation circuit_error := (circuit_error (LE:=LE)).
Implicit Types (c : Circuit).

(** Where a goroutine inside [writeAtTurn] is: about to check the turn, asleep in
    [sendCond.Wait], past the loop and about to write, past its [SendCell] but
    not yet past the turn advance, or about to call [fail]. *)
Inductive phase := Entering | Sleeping | Writing | Wrote (err : option LE) | Failing (e : LE).

(** The circuit, the link, and the goroutines inside [writeAtTurn] by ticket.
    The other fields record the history: the relay cells sent and their
    encryptions in claim order, the cells given to [SendCell] by the
    turnstile, those the link took, and whether it refused one. *)
Record sys := mkSys {
  sc : Circuit;
  sl : L;
  writers : gmap nat (Cell * phase);
  sent : list (nat * Relay.RelayCell);
  claimed : list Cell;
  attempted : list Cell;
  wire : list Cell;
  werr : bool
}.
Implicit Types s : sys.

Definition set_sc c s : sys :=
  mkSys c (sl s) (writers s) (sent s) (claimed s) (attempted s) (wire s) (werr s).
Definition set_sl (l : L) s : sys :=
  mkSys (sc s) l (writers s) (sent s) (claimed s) (attempted s) (wire s) (werr s).

(** A goroutine enters [writeAtTurn] with the ticket it claimed. *)
Definition enter (d : nat) (rc : Relay.RelayCell) (t : nat) (cl : Cell) s : sys :=
  mkSys (sc s) (sl s) (<[t := (cl, Entering)]> (writers s)) (sent s ++ [(d, rc)])
    (claimed s ++ [cl]) (attempted s) (wire s) (werr s).
Definition spawn s (e : effect) : sys :=
  match e with Spawn d rc t cl => enter d rc t cl s | _ => s end.

(** One round of the loop: past it when it is this ticket's turn, else asleep. *)
Definition checked (t : nat) (cl : Cell) s : sys :=
  mkSys (sc s) (sl s) (<[t := (cl, if sendTurn (sc s) =? t then Writing else Sleeping)]> (writers s))
    (sent s) (claimed s) (attempted s) (wire s) (werr s).

(** The write of the ticket whose turn it is. *)
Definition wrote (t : nat) (cl : Cell) (err : option LE) (l : L) s : sys :=
  mkSys (sc s) l (<[t := (cl, Wrote err)]> (writers s)) (sent s) (claimed s)
    (attempted s ++ [cl]) (match err with None => wire s ++ [cl] | Some _ => wire s end)
    (match err with None => werr s | Some _ => true end).

(** [sendCond.Broadcast]: every sleeper goes back to the check. *)
Definition wake (w : Cell * phase) : Cell * phase :=
  match w.2 with Sleeping => (w.1, Entering) | _ => w end.
Definition broadcast (ws : gmap nat (Cell * phase)) : gmap nat (Cell * phase) := wake <$> ws.

(** The deferred advance of the turn. *)
Definition advanced (t : nat) (cl : Cell) (err : option LE) s : sys :=
  mkSys (set_turn (S (sendTurn (sc s))) (sc s)) (sl s)
    (broadcast match err with
     | None => delete t (writers s)
     | Some e => <[t := (cl, Failing e)]> (writers s)
     end) (sent s) (claimed s) (attempted s) (wire s) (werr s).

Definition writer_failed (t : nat) (e : LE) s : sys :=
  mkSys (fail (LinkErr e) (sc s)) (sl s) (delete t (writers s)) (sent s) (claimed s)
    (attempted s) (wire s) (werr s).

(** The steps of the goroutines inside [writeAtTurn]. *)
Inductive writer_step s : sys → Prop :=
| ws_check t cl : writers s !! t = Some (cl, Entering) → writer_step s (checked t cl s)
| ws_write t cl err l : writers s !! t = Some (cl, Writing) → SendCell (sl s) cl = (err, l) →
    writer_step s (wrote t cl err l s)
| ws_advance t cl err : writers s !! t = Some (cl, Wrote err) → writer_step s (advanced t cl err s)
| ws_fail t cl e : writers s !! t = Some (cl, Failing e) → writer_step s (writer_failed t e s).

Inductive step : sys → sys → Prop :=
| step_send s d rc early t cl c' :
    sendRelay_locked d rc early (sc s) = (Ok (Claimed t cl), c') →
    step s (enter (Z.to_nat d) rc t cl (set_sc c' s))
| step_recv s ev b c' eff :
    recvLoop_step ev (sc s) = (b, c', eff) →
    step s (foldl spawn (set_sc c' s) eff)
| step_writer s s' : writer_step s s' → step s s'
| step_close s e :
    step s (set_sc (fail e (sc s)) s)
| step_link s cl err l :
    SendCell (sl s) cl = (err, l) →
    step s (set_sl l s).

(** A circuit with nobody inside [writeAtTurn]. *)
Definition start c (l : L) : sys := mkSys c l ∅ [] [] [] [] false.

(** ** The turnstile invariant *)

(** Where a goroutine may be before its turn, and at its turn before it wrote. *)
Definition before_turn (ph : phase) : Prop := ph = Entering ∨ ph = Sleeping.
Definition at_turn (ph : phase) : Prop := ph = Entering ∨ ph = Writing.

(** [b] is the ticket counter at the start. *)
Record ts_inv (b : nat) s : Prop := {
  ti_base : b ≤ sendTurn (sc s);
  ti_le : sendTurn (sc s) ≤ sendNext (sc s);
  ti_claimed : length (claimed s) = sendNext (sc s) - b;
  ti_sent : length (sent s) = length (claimed s);
  ti_wait : ∀ t, sendTurn (sc s) < t → t < sendNext (sc s) →
    ∃ cl ph, writers s !! t = Some (cl, ph) ∧ before_turn ph ∧ claimed s !! (t - b) = Some cl;
  ti_turn : sendTurn (sc s) < sendNext (sc s) →
    ∃ cl, claimed s !! (sendTurn (sc s) - b) = Some cl ∧
      ((∃ ph, writers s !! sendTurn (sc s) = Some (cl, ph) ∧ at_turn ph ∧
        attempted s = take (sendTurn (sc s) - b) (claimed s)) ∨
       (∃ err, writers s !! sendTurn (sc s) = Some (cl, Wrote err) ∧
        attempted s = take (S (sendTurn (sc s) - b)) (claimed s)));
  ti_idle : sendTurn (sc s) = sendNext (sc s) → attempted s = claimed s;
  ti_old : ∀ t cl ph, writers s !! t = Some (cl, ph) →
    (t < sendTurn (sc s) ∧ ∃ e, ph = Failing e) ∨ (sendTurn (sc s) ≤ t ∧ t < sendNext (sc s));
  ti_wire : werr s = false → wire s = attempted s
}.

Lemma ts_start b c l :
  sendTurn c = b → sendNext c = b → ts_inv b (start c l).
Proof.
  intros H1 H2. constructor; simpl; rewrite ?H1, ?H2; try done; try (intros; lia).
Qed.

(** Claiming the next ticket. *)
Lemma ts_enter b d rc cl c' s :
  ts_inv b s → sendTurn c' = sendTurn (sc s) → sendNext c' = S (sendNext (sc s)) →
  ts_inv b (enter d rc (sendNext (sc s)) cl (set_sc c' s)).
Proof.
  intros [] Ht Hn.
  assert (length (claimed s) = sendNext (sc s) - b) as Hl by done.
  constructor; simpl; rewrite ?Ht, ?Hn, ?length_app; simpl; try lia; try done.
  - intros t H1 H2. destruct (decide (t = sendNext (sc s))) as [->|Hne].
    + exists cl, Entering. rewrite lookup_insert_eq. split; [done|]. split; [by left|].
      rewrite lookup_app_r by lia. by replace (sendNext (sc s) - b - length (claimed s)) with 0 by lia.
    + destruct (ti_wait0 t) as (cl'&ph&?&?&?); [lia..|]. exists cl', ph.
      rewrite lookup_insert_ne by done. split_and!; [done..|]. by apply lookup_app_l_Some.
  - intros _. destruct (decide (sendTurn (sc s) = sendNext (sc s))) as [Heq|Hne].
    + exists cl. rewrite Heq, lookup_insert_eq. split.
      * rewrite lookup_app_r by lia.
        by replace (sendNext (sc s) - b - length (claimed s)) with 0 by lia.
      * left. exists Entering. split; [done|]. split; [by left|]. rewrite <-Hl, take_app_length. by apply ti_idle0.
    + destruct ti_turn0 as (cl'&Hc&Hd); [lia|]. exists cl'.
      rewrite lookup_insert_ne by done. split; [by apply lookup_app_l_Some|].
      apply lookup_lt_Some in Hc. rewrite !take_app_le by lia. done.
  - intros t cl' ph. destruct (decide (t = sendNext (sc s))) as [->|Hne].
    + rewrite lookup_insert_eq. intros [= <- <-]. right. lia.
    + rewrite lookup_insert_ne by done. intros H. destruct (ti_old0 _ _ _ H) as [?|?]; [by left|].
      right. lia.
Qed.

Lemma ts_set_sc b c' s :
  ts_inv b s → sendTurn c' = sendTurn (sc s) → sendNext c' = sendNext (sc s) →
  ts_inv b (set_sc c' s).
Proof. intros [] Ht Hn. constructor; simpl; rewrite ?Ht, ?Hn; done. Qed.

(** The turn of a claimed ticket is not over while its goroutine waits. *)
Lemma turn_writer b t cl ph s : ts_inv b s → writers s !! t = Some (cl, ph) → ph = Writing →
  t = sendTurn (sc s) ∧ t < sendNext (sc s) ∧ claimed s !! (t - b) = Some cl ∧
  attempted s = take (t - b) (claimed s).
Proof.
  intros [] Hw ->. destruct (ti_old0 _ _ _ Hw) as [[_ [e He]]|[H1 H2]]; [done|].
  destruct (decide (t = sendTurn (sc s))) as [->|Hne].
  - destruct (ti_turn0 H2) as (cl'&Hc&[(ph&Hw'&_&Ha)|(e&Hw'&_)]); rewrite Hw in Hw'; simplify_eq. done.
  - destruct (ti_wait0 t) as (?&?&Hx&[->| ->]&_); [lia..| |]; congruence.
Qed.

Lemma ts_checked b t cl s :
  ts_inv b s → writers s !! t = Some (cl, Entering) → ts_inv b (checked t cl s).
Proof.
  intros Hi Hw. pose proof Hi as []. destruct (ti_old0 _ _ _ Hw) as [[_ [e He]]|[Hge Hlt]]; [done|].
  constructor; simpl; try done.
  - intros u H1 H2. destruct (decide (u = t)) as [->|Hne]; [|rewrite lookup_insert_ne by done; by apply ti_wait0].
    destruct (ti_wait0 t) as (cl'&ph&Hx&_&Hy); [lia..|]. rewrite Hw in Hx. injection Hx as <- <-.
    rewrite lookup_insert_eq. destruct (Nat.eqb_spec (sendTurn (sc s)) t); [lia|]. exists cl, Sleeping. split_and!; [done|by right|done].
  - intros H. destruct (ti_turn0 H) as (cl'&Hc&Hd). exists cl'. split; [done|].
    destruct (decide (sendTurn (sc s) = t)) as [He|Hne]; [|by rewrite lookup_insert_ne].
    subst t. rewrite lookup_insert_eq, Nat.eqb_refl.
    destruct Hd as [(ph&Hx&_&Ha)|(e&Hx&_)]; rewrite Hw in Hx; [|done]. injection Hx as <- _.
    left. exists Writing. split_and!; [done|by right|done].
  - intros u cl' ph. destruct (decide (u = t)) as [->|Hne].
    + intros _. right. lia.
    + rewrite lookup_insert_ne by done. apply ti_old0.
Qed.

Lemma ts_wrote b t cl err l s :
  ts_inv b s → writers s !! t = Some (cl, Writing) → ts_inv b (wrote t cl err l s).
Proof.
  intros Hi Hw. destruct (turn_writer _ _ _ _ _ Hi Hw eq_refl) as (-> & Hlt & Hc & Ha). destruct Hi.
  constructor; simpl; try done.
  - intros t H1 H2. rewrite lookup_insert_ne by lia. by apply ti_wait0.
  - intros _. exists cl. split; [done|]. right. exists err. rewrite lookup_insert_eq.
    split; [done|]. rewrite Ha. symmetry. by apply take_S_r.
  - lia.
  - intros t cl' ph. destruct (decide (t = sendTurn (sc s))) as [->|].
    + intros _. right. lia.
    + rewrite lookup_insert_ne by done. apply ti_old0.
  - destruct err; [done|]. intros He. by rewrite ti_wire0.
Qed.

(** The writers after a broadcast. *)
Lemma lookup_broadcast ws (t : nat) cl ph : broadcast ws !! t = Some (cl, ph) ↔
  ∃ ph', ws !! t = Some (cl, ph') ∧ ph = (wake (cl, ph')).2.
Proof.
  unfold broadcast. rewrite lookup_fmap. destruct (ws !! t) as [[cl' ph']|]; cbn; [|naive_solver].
  unfold wake. cbn. destruct ph'; cbn; naive_solver.
Qed.

Lemma ts_advanced b t cl err s :
  ts_inv b s → writers s !! t = Some (cl, Wrote err) → ts_inv b (advanced t cl err s).
Proof.
  intros [] Hw.
  assert (t = sendTurn (sc s) ∧ sendTurn (sc s) < sendNext (sc s)) as [-> Hlt].
  { destruct (ti_old0 _ _ _ Hw) as [[_ [e He]]|[H1 H2]]; [done|].
    destruct (decide (t = sendTurn (sc s))); [lia|].
    destruct (ti_wait0 t) as (?&?&Hx&[-> | ->]&_); [lia..| |]; congruence. }
  destruct (ti_turn0 Hlt) as (cl'&Hc&[(ph&Hw'&[-> | ->]&Ha)|(e&Hw'&Ha)]); rewrite Hw in Hw'; simplify_eq.
  assert (∀ u cl ph, u ≠ sendTurn (sc s) → writers s !! u = Some (cl, ph) →
    writers (advanced (sendTurn (sc s)) cl' e s) !! u = Some (wake (cl, ph))) as Hne.
  { intros u cl ph Hu H. simpl. unfold broadcast. rewrite lookup_fmap.
    destruct e; [rewrite lookup_insert_ne by done|rewrite lookup_delete_ne by done]; by rewrite H. }
  assert (∀ u, sendTurn (sc s) < u → u < sendNext (sc s) → ∃ cl,
    writers (advanced (sendTurn (sc s)) cl' e s) !! u = Some (cl, Entering) ∧ claimed s !! (u - b) = Some cl) as Hwait.
  { intros u H1 H2. destruct (ti_wait0 u) as (cl&ph&Hx&Hph&Hy); [lia..|]. exists cl. split; [|done].
    rewrite (Hne u cl ph); [|lia|done]. by destruct Hph as [-> | ->]. }
  constructor; simpl sendTurn; simpl sendNext; simpl claimed; simpl sent; simpl attempted; simpl wire; simpl werr; try lia; try done.
  - intros t H1 H2. destruct (Hwait t) as (cl&?&?); [lia..|]. exists cl, Entering. split_and!; [done|by left|done].
  - intros Hlt'. destruct (Hwait (S (sendTurn (sc s)))) as (cl&Hx&Hy); [lia..|].
    exists cl. split; [done|]. left. exists Entering. split; [done|]. split; [by left|]. rewrite Ha. f_equal. lia.
  - intros Heq. rewrite Ha. apply take_ge. lia.
  - intros t cl ph H. apply lookup_broadcast in H as (ph'&H&->). destruct (decide (t = sendTurn (sc s))) as [->|Ht].
    + destruct e; [rewrite lookup_insert_eq in H|by rewrite lookup_delete_eq in H].
      simplify_eq. left. split; [lia|by eexists].
    + assert (writers s !! t = Some (cl, ph')) as H'.
      { destruct e; [by rewrite lookup_insert_ne in H|by rewrite lookup_delete_ne in H]. }
      destruct (ti_old0 _ _ _ H') as [[? [e' ->]]|[? ?]]; [left; split; [lia|by eexists]|right; lia].
Qed.

Lemma ts_failed b t cl e s :
  ts_inv b s → writers s !! t = Some (cl, Failing e) → ts_inv b (writer_failed t e s).
Proof.
  intros Hi H. assert (ts_inv b (mkSys (fail (LinkErr e) (sc s)) (sl s) (writers s) (sent s) (claimed s) (attempted s) (wire s) (werr s))) as Hi'.
  { destruct Hi. unfold fail. destruct (closed (sc s)); by constructor. }
  assert (sendTurn (fail (LinkErr e) (sc s)) = sendTurn (sc s)) as Et by (unfold fail; by destruct (closed (sc s))).
  destruct (ti_old b s Hi _ _ _ H) as [[Hlt _]|[Hge Hlt]].
  - destruct Hi' as [B1 B2 B3 B4 B5 B6 B7 B8 B9]. simpl in *. constructor; simpl; try done.
    + intros u Hu1 Hu2. rewrite lookup_delete_ne by lia. by apply B5.
    + intros Hu. rewrite lookup_delete_ne by lia. by apply B6.
    + intros u cl' ph. destruct (decide (u = t)) as [->|]; [by rewrite lookup_delete_eq|].
      rewrite lookup_delete_ne by done. apply B8.
  - exfalso. destruct (decide (t = sendTurn (sc s))) as [->|].
    + destruct (ti_turn b s Hi Hlt) as (?&_&[(?&Hx&[-> | ->]&_)|(?&Hx&_)]); congruence.
    + destruct (ti_wait b s Hi t) as (?&?&Hx&[-> | ->]&_); [lia..| |]; congruence.
Qed.

Lemma ts_writer b s s' : writer_step s s' → ts_inv b s → ts_inv b s'.
Proof.
  intros [t cl H|t cl err l H1 H2|t cl err H|t cl e H] Hi;
    [by apply ts_checked|by apply ts_wrote|by apply ts_advanced|by eapply ts_failed].
Qed.

(** ** What the receive loop does to the forward state *)

Definition fwd_same (h h' : hop) : Prop :=
  fwdCipher h' = fwdCipher h ∧ fwdDigest h' = fwdDigest h.

#[local] Instance fwd_same_refl : Reflexive fwd_same.
Proof. by intros h. Qed.

(** [c'] is [c] up to the backward state and the handler-side fields. *)
Definition quiet c c' : Prop :=
  sendTurn c' = sendTurn c ∧ sendNext c' = sendNext c ∧
  relayEarlyCount c' = relayEarlyCount c ∧ Forall2 fwd_same (hops c) (hops c').

Lemma quiet_refl c : quiet c c.
Proof. split_and!; done. Qed.
Lemma quiet_fail e c c' : quiet c c' → quiet c (fail e c').
Proof. intros (?&?&?&?). unfold fail. by destruct (closed c'). Qed.

Definition no_spawn (eff : list effect) : Prop := Forall (λ e, ∀ s, spawn s e = s) eff.

Lemma foldl_spawn_none eff s : no_spawn eff → foldl spawn s eff = s.
Proof. intros H. revert s. induction H as [|e eff He _ IH]; intros s; simpl; [done|]. by rewrite He. Qed.

Lemma no_spawn_stream (b : bool) rc : no_spawn (if b then [StreamCell rc] else []).
Proof. destruct b; repeat constructor. Qed.

(** Either nothing is sent, or one SENDME is encrypted and claimed. *)
Definition recv_result c c' (eff : list effect) : Prop :=
  (quiet c c' ∧ no_spawn eff) ∨
  (∃ d rc cl hs eff', eff = Spawn d rc (sendNext c) cl :: eff' ∧ no_spawn eff' ∧
     sendTurn c' = sendTurn c ∧ sendNext c' = S (sendNext c) ∧
     relayEarlyCount c' = relayEarlyCount c ∧ Cmd cl = CmdRelay ∧
     Forall2 fwd_same (hops c) hs ∧
     encryptForwardLocked (E:=unit) hs d rc = Ok (Payload cl, hops c')).

Lemma peel_step_fwd h p : fwd_same h (peel_step h p).2.
Proof. unfold peel_step. simpl. case_match; [done|]. by destruct (VerifyAndCommit _ _ _). Qed.

Lemma decrypt_fwd hs p : Forall2 fwd_same hs (decryptInboundLocked hs p).2.
Proof.
  revert p. induction hs as [|h t IH]; intros p; simpl; [done|].
  pose proof (peel_step_fwd h p) as Hh. destruct (peel_step h p) as [[ok p'] h']. simpl in Hh.
  destruct ok; [by constructor|]. specialize (IH p').
  destruct (decryptInboundLocked t p') as [res t']. by constructor.
Qed.

Lemma account_result i tag c0 c eff :
  quiet c0 c → no_spawn eff →
  recv_result c0 (accountInboundData i tag c).1 ((accountInboundData i tag c).2 ++ eff).
Proof.
  intros (Ht&Hn&He&Hh) Heff. unfold accountInboundData.
  destruct (_ <=? _)%Z; simpl; [|by left].
  destruct (_ || _)%bool; [by left|].
  destruct (encryptForwardLocked _ _ _) as [[p hs]| |] eqn:Hp; [|by left..].
  right. simpl. rewrite Hn. eexists _, _, _, (hops c), eff. split; [done|]. by rewrite Ht.
Qed.

Lemma handleRelay_result raw c : recv_result c (handleRelay raw c).1 (handleRelay raw c).2.
Proof.
  unfold handleRelay. pose proof (decrypt_fwd (hops c) (Payload raw)) as Hd.
  destruct (decryptInboundLocked _ _) as [res hs]. simpl in Hd.
  assert (quiet c (set_hops hs c)) as Hq by (by split_and!).
  set (c1 := set_hops hs c) in *. clearbody c1.
  assert (∀ eff, no_spawn eff → recv_result c c1 eff) as Hnone by (by left).
  destruct res as [[i [rc|]]|]; simpl; try (by apply Hnone; constructor).
  case_decide; [left; split; [exact Hq|constructor]|].
  case_decide; [left; split; [by apply quiet_fail|constructor]|].
  case_decide; [case_decide; [left; split; [exact Hq|constructor]|]|].
  { apply Hnone, no_spawn_stream. }
  case_decide.
  - destruct (hops c1 !! i) as [h|]; [|apply Hnone; constructor].
    pose proof (account_result i (Snapshot (bwdDigest h)) c c1 _ Hq
      (no_spawn_stream (onStreamCell c1) rc)) as Hr.
    by destruct (accountInboundData _ _ _).
  - destruct (_ && _)%bool; [apply Hnone; repeat constructor|apply Hnone, no_spawn_stream].
Qed.

Lemma recv_step_result ev c b c' eff :
  recvLoop_step ev c = (b, c', eff) → recv_result c c' eff.
Proof.
  assert (∀ e, recv_result c (fail e c) []) as Hf.
  { intros e. left. split; [apply quiet_fail, quiet_refl|constructor]. }
  destruct ev; simpl; try (by intros [= <- <- <-]).
  - case_decide; [intros [= <- <- <-]; left; split; [done|constructor]|].
    destruct (_ || _)%bool.
    + pose proof (handleRelay_result raw c). destruct (handleRelay raw c). by intros [= <- <- <-].
    + case_decide; intros [= <- <- <-]; [by apply Hf|]. left. split; [apply quiet_refl|constructor].
  - intros [= <- <- <-]. left. split; [apply quiet_refl|constructor].
Qed.

(** What a claiming send does. *)
Lemma send_claim d rc early c t cl c' :
  sendRelay_locked d rc early c = (Ok (Claimed t cl), c') →
  t = sendNext c ∧ sendTurn c' = sendTurn c ∧ sendNext c' = S (sendNext c) ∧
  encryptForwardLocked (E:=circuit_error) (hops c) (Z.to_nat d) rc = Ok (Payload cl, hops c') ∧
  (if early then relayEarlyCount c < maxRelayEarly ∧ Cmd cl = CmdRelayEarly ∧
                 relayEarlyCount c' = S (relayEarlyCount c)
   else Cmd cl = CmdRelay ∧ relayEarlyCount c' = relayEarlyCount c).
Proof.
  unfold sendRelay_locked. destruct (closed c); [done|]. destruct (_ <=? d)%Z; [done|].
  destruct (early && _)%bool eqn:He; [done|]. destruct (d <? 0)%Z; [done|].
  destruct (encryptForwardLocked _ _ _) as [[p hs]| |] eqn:Hp; [|done..].
  destruct early; intros [= <- <- <-]; simpl; split_and!; try done.
  rewrite andb_true_l in He. bools. lia.
Qed.

Lemma ts_step b s s' : step s s' → ts_inv b s → ts_inv b s'.
Proof.
  intros Hst Hi. destruct Hst as [s d rc early t cl c' H|s ev bb c' eff H|s s' H|s e|s cl err l H].
  - apply send_claim in H as (->&Ht&Hn&_&_). by apply ts_enter.
  - apply recv_step_result in H as [[(Ht&Hn&_) Hs]|(d&rc&cl&hs&eff'&->&Hs&Ht&Hn&_)].
    + rewrite foldl_spawn_none by done. by apply ts_set_sc.
    + simpl. rewrite foldl_spawn_none by done. by apply ts_enter.
  - by eapply ts_writer.
  - apply ts_set_sc; [done|..]; unfold fail; by destruct (closed (sc s)).
  - by destruct Hi.
Qed.

Lemma ts_reachable b c l s :
  sendTurn c = b → sendNext c = b → rtc step (start c l) s → ts_inv b s.
Proof.
  intros H1 H2 Hr. pose proof (ts_start b c l H1 H2) as Hi. revert Hi.
  induction Hr as [|x y z Hxy _ IH]; [done|]. intros Hx. apply IH. by eapply ts_step.
Qed.

(** ** What the relays see *)

(** Each claimed payload with the hop it is addressed to. *)
Definition addressed (ds : list (nat * Relay.RelayCell)) (cls : list Cell) : list (nat * bytes) :=
  zip_with (λ dr cl, (dr.1, Payload cl)) ds cls.

Definition relays_after (relays : list relayModel) (ps : list (nat * bytes)) : list relayModel :=
  foldl (λ rs dp, (relayDecodeForward rs dp.1 dp.2).2) relays ps.

(** The relay decoded the cell that was sent. *)
Definition decoded (dr : nat * Relay.RelayCell) (got : option Relay.RelayCell) : Prop :=
  ∃ rc, got = Some rc ∧ same_cell dr.2 rc.

Lemma decode_all_app relays ps qs :
  decode_all relays (ps ++ qs) = decode_all relays ps ++ decode_all (relays_after relays ps) qs.
Proof.
  revert relays. induction ps as [|[d p] ps IH]; intros relays; simpl; [done|].
  destruct (relayDecodeForward relays d p) as [got relays']. simpl. by rewrite IH.
Qed.

Lemma decode_all_take relays ps k : decode_all relays (take k ps) = take k (decode_all relays ps).
Proof.
  revert relays k. induction ps as [|[d p] ps IH]; intros relays [|k]; simpl; try done.
  destruct (relayDecodeForward relays d p) as [got relays']. simpl. by rewrite IH.
Qed.

Record dec_inv (relays : list relayModel) s : Prop := {
  di_len : length (sent s) = length (claimed s);
  di_hops : Forall2 fwd_in_step (hops (sc s)) (relays_after relays (addressed (sent s) (claimed s)));
  di_dec : Forall2 decoded (sent s) (decode_all relays (addressed (sent s) (claimed s)))
}.

Lemma fwd_same_in_step hs hs' rs :
  Forall2 fwd_same hs hs' → Forall2 fwd_in_step hs rs → Forall2 fwd_in_step hs' rs.
Proof.
  intros H. revert rs. induction H as [|h h' hs hs' Hh _ IH]; intros rs Hr.
  - by inversion Hr.
  - inversion Hr; subst. constructor; [|by apply IH].
    destruct Hh, H1. split; congruence.
Qed.

Lemma dec_enter {E} relays d rc t cl c' s hs :
  dec_inv relays s → Forall2 fwd_same (hops (sc s)) hs →
  encryptForwardLocked (E:=E) hs d rc = Ok (Payload cl, hops c') →
  dec_inv relays (enter d rc t cl (set_sc c' s)).
Proof.
  intros [Hl Hh Hd] Hf He. apply (fwd_same_in_step _ _ _ Hf) in Hh.
  destruct (forward_cell_rel _ _ _ _ _ _ _ fwd_in_step_relation Hh He) as (got&H1&H2&H3).
  assert (addressed (sent s ++ [(d, rc)]) (claimed s ++ [cl])
          = addressed (sent s) (claimed s) ++ [(d, Payload cl)]) as Ha
    by (unfold addressed; by rewrite zip_with_app).
  constructor; simpl.
  - rewrite !length_app. simpl. lia.
  - rewrite Ha. unfold relays_after. rewrite foldl_app. simpl. exact H3.
  - rewrite Ha, decode_all_app. apply Forall2_app; [done|]. simpl.
    destruct (relayDecodeForward _ _ _) as [g rs]. simpl in H1. subst g.
    constructor; [by exists got|constructor].
Qed.

Lemma dec_quiet relays c' s : dec_inv relays s → quiet (sc s) c' → dec_inv relays (set_sc c' s).
Proof.
  intros [Hl Hh Hd] (_&_&_&Hf). constructor; simpl; try done.
  by eapply fwd_same_in_step.
Qed.

Lemma dec_writer relays s s' : writer_step s s' → dec_inv relays s → dec_inv relays s'.
Proof.
  intros [t cl H|t cl err l H1 H2|t cl err H|t cl e H] Hi; [by destruct Hi..|].
  destruct (dec_quiet relays (fail (LinkErr e) (sc s)) s Hi) as [? ? ?];
    [apply quiet_fail, quiet_refl|]. by constructor.
Qed.

Lemma dec_step relays s s' : step s s' → dec_inv relays s → dec_inv relays s'.
Proof.
  intros Hst Hi. destruct Hst as [s d rc early t cl c' H|s ev bb c' eff H|s s' H|s e|s cl err l H].
  - apply send_claim in H as (->&_&_&He&_). by eapply dec_enter.
  - apply recv_step_result in H as [[Hq Hs]|(d&rc&cl&hs&eff'&->&Hs&_&_&_&_&Hf&He)].
    + rewrite foldl_spawn_none by done. by apply dec_quiet.
    + simpl. rewrite foldl_spawn_none by done. by eapply dec_enter.
  - by eapply dec_writer.
  - apply dec_quiet; [done|]. apply quiet_fail, quiet_refl.
  - by destruct Hi.
Qed.

Lemma dec_reachable relays c l s :
  Forall2 fwd_in_step (hops c) relays → rtc step (start c l) s → dec_inv relays s.
Proof.
  intros H0 Hr. assert (dec_inv relays (start c l)) as Hi by (constructor; simpl; [done|done|constructor]).
  revert Hi. induction Hr as [|x y z Hxy _ IH]; [done|]. intros Hx. apply IH. by eapply dec_step.
Qed.

Lemma attempted_prefix b s : ts_inv b s → ∃ k, attempted s = take k (claimed s).
Proof.
  intros Hi. destruct (decide (sendTurn (sc s) = sendNext (sc s))) as [He|Hne].
  - exists (length (claimed s)). rewrite take_ge by done. by eapply ti_idle.
  - destruct (ti_turn b s Hi) as (cl&_&[(ph&_&_&H)|(err&_&H)]); [pose proof (ti_le b s Hi); lia|eauto..].
Qed.

(** C5: on-wire order.  However the senders, the receive loop and other users
    of the link interleave, the cells written by a circuit are, in order, a
    prefix of the cells in the order they were encrypted; so as long as no
    write failed, the relays decode them, in arrival order, as exactly the
    relay cells that were sent, circuit-level SENDMEs included. *)
Theorem turnstile_wire_decodes (relays : list relayModel) (c : Circuit) (l : L) (s : sys) :
  sendTurn c = sendNext c → Forall2 fwd_in_step (hops c) relays → rtc step (start c l) s →
  attempted s `prefix_of` claimed s ∧
  (werr s = false →
   let k := length (wire s) in
   wire s = take k (claimed s) ∧
   Forall2 decoded (take k (sent s)) (decode_all relays (addressed (take k (sent s)) (wire s)))).
Proof.
  intros Ht Hh Hr. pose proof (ts_reachable (sendNext c) c l s Ht eq_refl Hr) as Hi.
  destruct (dec_reachable relays c l s Hh Hr) as [Dl _ Dd].
  destruct (attempted_prefix _ _ Hi) as [k Hk]. split.
  { exists (drop k (claimed s)). rewrite Hk. symmetry. apply take_drop. }
  intros Hw. rewrite (ti_wire _ _ Hi Hw), Hk. cbv zeta.
  rewrite length_take. set (j := k `min` length (claimed s)).
  assert (take k (claimed s) = take j (claimed s)) as Hj.
  { unfold j. destruct (Nat.le_ge_cases k (length (claimed s))).
    - by rewrite Nat.min_l.
    - rewrite Nat.min_r by lia. by rewrite !take_ge. }
  rewrite Hj. split; [done|]. unfold addressed. rewrite <-zip_with_take.
  rewrite decode_all_take. by apply Forall2_take.
Qed.

(** ** No ticket is stranded *)

(** A goroutine that is inside [writeAtTurn] leaves another one a step. *)
Lemma writers_move b s : ts_inv b s → nf writer_step s → writers s = ∅.
Proof.
  intros Hi Hn. apply map_empty. intros t. apply eq_None_not_Some. intros [[cl ph] Hw]. apply Hn.
  destruct (ti_old b s Hi _ _ _ Hw) as [[_ [e ->]]|[H1 H2]]; [eexists; by eapply ws_fail|].
  destruct (ti_turn b s Hi) as (cl'&_&[(ph'&Hx&[-> | ->]&_)|(err&Hx&_)]); [lia|..].
  - eexists. by eapply ws_check.
  - destruct (SendCell (sl s) cl') as [err l] eqn:Hs. eexists. by eapply ws_write.
  - eexists. by eapply ws_advance.
Qed.

(** How much the goroutines inside still do: every turn wakes each of them at
    most once. *)
Definition phase_weight (ph : phase) : nat :=
  match ph with Sleeping => 0 | Entering => 3 | Writing => 2 | Wrote _ => 1 | Failing _ => 1 end.
Definition weight (ws : gmap nat (Cell * phase)) : nat := map_fold (λ _ w n, phase_weight w.2 + n) 0 ws.
Definition measure s : nat :=
  (sendNext (sc s) - sendTurn (sc s)) * (3 * size (writers s) + 4) + weight (writers s).

Lemma weight_insert ws (t : nat) (w : Cell * phase) : ws !! t = None → weight (<[t := w]> ws) = phase_weight w.2 + weight ws.
Proof. intros H. unfold weight. rewrite map_fold_insert_L; [done|intros; lia|done]. Qed.
Lemma weight_delete ws (t : nat) (w : Cell * phase) : ws !! t = Some w → weight ws = phase_weight w.2 + weight (delete t ws).
Proof. intros H. rewrite <-(weight_insert (delete t ws) t w) by apply lookup_delete_eq. by rewrite insert_delete_id. Qed.
Lemma weight_replace ws (t : nat) (w w' : Cell * phase) : ws !! t = Some w →
  weight (<[t := w']> ws) + phase_weight w.2 = weight ws + phase_weight w'.2.
Proof.
  intros H. rewrite (weight_delete ws t w H), <-insert_delete_eq. rewrite weight_insert by apply lookup_delete_eq. lia.
Qed.
Lemma size_replace (ws : gmap nat (Cell * phase)) (t : nat) (w w' : Cell * phase) : ws !! t = Some w → size (<[t := w']> ws) = size ws.
Proof. intros H. by rewrite map_size_insert_Some by eauto. Qed.
Lemma weight_broadcast ws : weight (broadcast ws) ≤ weight ws + 3 * size ws.
Proof.
  induction ws as [|t w ws Ht IH] using map_ind; [by vm_compute|].
  unfold broadcast in *. rewrite fmap_insert, !weight_insert, map_size_insert_None by (rewrite ?lookup_fmap; by rewrite ?Ht).
  assert (phase_weight (wake w).2 ≤ phase_weight w.2 + 3); [|lia].
  destruct w as [cl []]; cbn; lia.
Qed.

Lemma measure_decreases b s s' : ts_inv b s → writer_step s s' → measure s' < measure s.
Proof.
  intros Hi [t cl H|t cl err l H Hs|t cl err H|t cl e H]; unfold measure; cbn [checked wrote advanced writer_failed sc writers].
  - rewrite (size_replace _ _ _ _ H). pose proof (weight_replace _ _ _ (cl, if sendTurn (sc s) =? t then Writing else Sleeping) H) as Hw.
    cbn [snd phase_weight] in Hw. destruct (_ =? _); cbn [phase_weight] in Hw; lia.
  - rewrite (size_replace _ _ _ _ H). pose proof (weight_replace _ _ _ (cl, Wrote err) H) as Hw. cbn in Hw. lia.
  - assert (sendTurn (sc s) < sendNext (sc s)) as Hlt.
    { destruct (ti_old b s Hi _ _ _ H) as [[_ [e He]]|[? ?]]; [done|lia]. }
    cbn [set_turn sendTurn sendNext]. set (ws := match err with None => _ | Some _ => _ end).
    assert (size ws ≤ size (writers s) ∧ weight ws ≤ weight (writers s)) as [Hz Hw].
    { unfold ws. destruct err as [e|].
      - rewrite (size_replace _ _ _ _ H). pose proof (weight_replace _ _ _ (cl, Failing e) H) as Hw. cbn in Hw. lia.
      - rewrite (weight_delete _ _ _ H), map_size_delete, H. lia. }
    pose proof (weight_broadcast ws). unfold broadcast at 1. rewrite map_size_fmap. nia.
  - assert (sendTurn (fail (LinkErr e) (sc s)) = sendTurn (sc s) ∧ sendNext (fail (LinkErr e) (sc s)) = sendNext (sc s)) as [-> ->]
      by (unfold fail; by destruct (closed (sc s))).
    rewrite (weight_delete _ _ _ H), map_size_delete, H. cbn [snd phase_weight]. nia.
Qed.

Lemma writers_sn b s : ts_inv b s → sn writer_step s.
Proof.
  intros Hi. remember (measure s) as n eqn:En. revert s Hi En. induction n as [n IH] using lt_wf_ind. intros s Hi ->.
  constructor. intros s' H. eapply IH; [by eapply measure_decreases|by eapply ts_writer|done].
Qed.

Lemma writer_claimed s s' : rtc writer_step s s' → claimed s' = claimed s.
Proof. induction 1 as [|s s1 s2 H _ IH]; [done|]. rewrite IH. by destruct H. Qed.

(** C30: no stranded ticket.  From every reachable state, and in whatever order
    they are scheduled and whatever the link answers to each write, failures
    included, the goroutines inside [writeAtTurn] come to an end, and they stop
    only when all of them have left: no sleeper is left behind by a broadcast it
    missed, every claimed ticket has had its turn, and every claimed cell was
    given to the link. *)
Theorem turnstile_drains (c : Circuit) (l : L) (s : sys) :
  sendTurn c = sendNext c → rtc step (start c l) s →
  sn writer_step s ∧
  ∀ s', rtc writer_step s s' → nf writer_step s' →
    writers s' = ∅ ∧ sendTurn (sc s') = sendNext (sc s') ∧ attempted s' = claimed s.
Proof.
  intros Ht Hr. pose proof (ts_reachable (sendNext c) c l s Ht eq_refl Hr) as Hi. split; [by eapply writers_sn|].
  intros s' Hs Hn. assert (ts_inv (sendNext c) s') as Hi'.
  { clear -Hs Hi. induction Hs as [|s s1 s2 H _ IH]; [done|]. by apply IH, (ts_writer _ s). }
  pose proof (writers_move _ _ Hi' Hn) as He.
  assert (sendTurn (sc s') = sendNext (sc s')) as Htn.
  { pose proof (ti_le _ _ Hi'). destruct (decide (sendTurn (sc s') = sendNext (sc s'))); [done|].
    destruct (ti_turn _ _ Hi') as (cl&_&[(ph&Hx&_)|(err&Hx&_)]); [lia|..]; by rewrite He, lookup_empty in Hx. }
  split_and!; [done..|]. rewrite (ti_idle _ _ Hi' Htn). by apply writer_claimed.
Qed.

(** [Circuit.writeAtTurn] is a run of these steps: one goroutine at its turn,
    with nobody else moving. *)
Lemma writeAtTurn_runs t cl s tr o nd' : writers s !! t = Some (cl, Entering) →
  writeAtTurn t cl (mkNode (sc s) (sl s) tr) = Some (o, nd') →
  ∃ s', rtc writer_step s s' ∧ sc s' = circ nd' ∧ sl s' = link nd' ∧ writers s' !! t = None ∧
    attempted s' = attempted s ++ [cl] ∧ wire s' = (if o is Ok _ then wire s ++ [cl] else wire s).
Proof.
  intros Hw. unfold writeAtTurn. rewrite prog_bind_eq. cbn [gets circ].
  destruct (Nat.eqb_spec (sendTurn (sc s)) t) as [He|]; [|done]. cbn [negb].
  rewrite prog_bind_eq. unfold attempt, link_send. cbn [link]. destruct (SendCell (sl s) cl) as [err l] eqn:Hs.
  set (s1 := checked t cl s). set (s2 := wrote t cl err l s1). set (s3 := advanced t cl err s2).
  assert (rtc writer_step s s3) as Hrun.
  { eapply rtc_l; [by apply ws_check|]. eapply rtc_l; [eapply (ws_write s1 t cl err l); [|done]|].
    { cbn. by rewrite lookup_insert_eq, He, Nat.eqb_refl. }
    apply rtc_once, (ws_advance s2 t cl err). cbn. apply lookup_insert_eq. }
  destruct err as [e|]; cbn; intros [= <- <-].
  - exists (writer_failed t e s3). split_and!; [|done|done|apply lookup_delete_eq|done|done].
    eapply rtc_r; [exact Hrun|]. eapply ws_fail. cbn. apply lookup_broadcast. exists (Failing e). by rewrite lookup_insert_eq.
  - exists s3. split_and!; try done. cbn. unfold broadcast. by rewrite lookup_fmap, lookup_delete_eq.
Qed.

(** ** The RELAY_EARLY budget *)

Definition is_early (cl : Cell) : bool := bool_decide (Cmd cl = CmdRelayEarly).
Definition count_early (cls : list Cell) : nat := length (List.filter is_early cls).

Definition early_inv s : Prop :=
  count_early (claimed s) = relayEarlyCount (sc s) ∧ relayEarlyCount (sc s) ≤ maxRelayEarly.

Lemma count_early_snoc cls cl :
  count_early (cls ++ [cl]) = count_early cls + (if is_early cl then 1 else 0).
Proof.
  unfold count_early. rewrite List.filter_app, length_app. simpl. by destruct (is_early cl).
Qed.

Lemma early_step s s' : step s s' → early_inv s → early_inv s'.
Proof.
  intros Hst [H1 H2]. destruct Hst as [s d rc early t cl c' H|s ev bb c' eff H|s s' H|s e|s cl err l H]; unfold early_inv; simpl.
  - apply send_claim in H as (_&_&_&_&He). rewrite count_early_snoc. unfold is_early.
    destruct early.
    + destruct He as (?&Hc&?). rewrite bool_decide_true by done. lia.
    + destruct He as [Hc He]. rewrite bool_decide_false by (by rewrite Hc). lia.
  - apply recv_step_result in H as [[(_&_&He&_) Hs]|(d&rc&cl&hs&eff'&->&Hs&_&_&He&Hc&_)].
    + rewrite foldl_spawn_none by done. simpl. by rewrite He.
    + simpl. rewrite foldl_spawn_none by done. simpl. rewrite count_early_snoc. unfold is_early.
      rewrite bool_decide_false by (by rewrite Hc). rewrite He. lia.
  - destruct H; simpl; rewrite ?fail_early; done.
  - by rewrite fail_early.
  - done.
Qed.

Lemma count_early_take k cls : count_early (take k cls) ≤ count_early cls.
Proof.
  rewrite <-(take_drop k cls) at 2. unfold count_early. rewrite List.filter_app, length_app. lia.
Qed.

(** The RELAY_EARLY budget.  Over the whole life of a circuit, under every
    interleaving, at most eight RELAY_EARLY cells are written; once eight
    were claimed, an early send to an established hop of the open circuit is
    refused with the budget error and changes nothing. *)
Theorem relay_early_budget (c : Circuit) (l : L) (s : sys) :
  sendTurn c = sendNext c → relayEarlyCount c = 0 → rtc step (start c l) s →
  count_early (attempted s) ≤ 8 ∧
  ∀ d rc, count_early (claimed s) = 8 → closed (sc s) = false → d < length (hops (sc s)) →
    sendRelay_locked (Z.of_nat d) rc true (sc s)
      = (Ok (Returned (Some ErrRelayEarlyExpired)), sc s).
Proof.
  intros Ht H0 Hr. pose proof (ts_reachable (sendNext c) c l s Ht eq_refl Hr) as Hi.
  assert (early_inv s) as [E1 E2].
  { assert (early_inv (start c l)) as Hs by (split; simpl; [done|]; lia).
    revert Hs. clear -Hr. induction Hr; [done|]. intros Hx. by eapply IHHr, early_step. }
  split.
  - destruct (attempted_prefix _ _ Hi) as [k ->].
    pose proof (count_early_take k (claimed s)). unfold maxRelayEarly in E2. lia.
  - intros d rc H8 Ho Hd. unfold sendRelay_locked. rewrite Ho.
    destruct (Z.leb_spec (Z.of_nat (length (hops (sc s)))) (Z.of_nat d)); [lia|].
    by rewrite <-E1, H8.
Qed.
End Turnstile.
