(* ===== verification/Examples.v ===== *)
(** * Concrete runs of the cryptographic components.

    The onion theorems instantiated with the arithmetic stand-ins of
    [ToyCrypto]: a three-hop circuit, cells to every hop and back. *)

From S2P Require Import Prelude ByteUtil Cell TorCrypto ToyCrypto RelayInfo OnionCrypto.

Definition ex_stream (k : Z) : Stream := {| skey := be_encode 16 k; siv := zeros 16; soff := 0 |}.
Definition ex_digest (k : Z) : RunningDigest := NewRunningDigestSHA1 (be_encode 20 k).
Definition ex_hop (k : Z) : hop :=
  {| info := zeroRelayInfo; fwdCipher := ex_stream k; bwdCipher := ex_stream (k + 100);
     fwdDigest := ex_digest k; bwdDigest := ex_digest (k + 100) |}.
Definition ex_relay (k : Z) : relayModel :=
  {| rFwdCipher := ex_stream k; rBwdCipher := ex_stream (k + 100);
     rFwdDigest := ex_digest k; rBwdDigest := ex_digest (k + 100) |}.
Definition ex_hops : list hop := [ex_hop 11; ex_hop 22; ex_hop 33].
Definition ex_relays : list relayModel := [ex_relay 11; ex_relay 22; ex_relay 33].
Definition ex_rc (cmd : byte) (sid : Z) (data : bytes) : Relay.RelayCell :=
  {| Relay.Cmd := cmd; Relay.Recognized := 0; Relay.StreamID := sid;
     Relay.Digest := zeros 4; Relay.Data := data |}.
Definition ex_cells : list (nat * Relay.RelayCell) :=
  [(2, ex_rc Relay.RelayBegin 7 (go"example.org:80")); (0, ex_rc Relay.RelayDrop 0 []);
   (2, ex_rc Relay.RelayData 7 (go"GET /"))].

Lemma ex_in_step : Forall2 in_step ex_hops ex_relays.
Proof. repeat constructor. Qed.

(** Three cells to two different hops of a three-hop circuit. *)
Lemma forward_onion_witness :
  ∃ ps hops', send_all (E:=unit) ex_hops ex_cells = Ok (ps, hops') ∧
    Forall2 (λ dc got, ∃ rc, got = Some rc ∧ same_cell dc.2 rc) ex_cells
      (decode_all ex_relays ps).
Proof.
  apply (forward_onion_correct ex_hops ex_relays ex_cells).
  - exact ex_in_step.
  - repeat constructor.
Defined.

(** A payload no hop recognizes. *)
Lemma unrecognized_witness :
  (decryptInboundLocked ex_hops (zeros PayloadLen)).2 =
    map (λ h, set_bwdCipher h (adv (bwdCipher h) PayloadLen)) ex_hops.
Proof.
  apply (unrecognized_keeps_digests ex_hops (zeros PayloadLen)). vm_compute. done.
Defined.

Definition ex_back : list (nat * Relay.RelayCell) :=
  [(2, ex_rc Relay.RelayConnected 7 []); (1, ex_rc Relay.RelaySendme 0 (go"x"))].

(** Cells from two different hops, with no accidental recognition. *)
Lemma backward_onion_witness :
  match originate_all ex_relays ex_back with
  | Some ps =>
      Forall2 (λ sc res, ∃ got, res = Some (sc.1, Some got) ∧ same_cell sc.2 got)
        ex_back (receive_all ex_hops ps)
  | None => False
  end.
Proof.
  destruct (originate_all ex_relays ex_back) as [ps|] eqn:E; [|vm_compute in E; discriminate].
  apply (backward_onion_correct ex_hops ex_relays ex_back ps ex_in_step E).
  vm_compute in E. injection E as <-. vm_compute. done.
Defined.
