(* ===== verification/CircuitExamples.v ===== *)
(** * Concrete runs of circuits.

    A recording link, a path of two honest relays built end to end, and the
    circuit theorems applied to concrete circuits. *)

From S2P Require Import Prelude ByteUtil Cell TorCrypto ToyCrypto RelayInfo OnionCrypto Circuit CircuitFacts CircuitRuns Turnstile Examples.
From stdpp Require Import relations.

(** A link that takes every cell. *)
#[export] Instance ex_link : Link (list Cell) unit := {|
  SendCell l cl := (None, l ++ [cl]);
  AllocCircuit l := Some (Ok (2147483649%Z, 0), l);
  FreeCircuit l _ := l
|}.

Notation ex_node := (node (L:=list Cell) (LE:=unit)).

Definition ex_circ : Circuit (LE:=unit) :=
  mkCircuit 2147483649 0 ex_hops 0 false None 0 0 None None false
    {| Tokens.cap := circWindowStart; Tokens.avail := circWindowStart |}
    (Z.of_nat circWindowStart) true false.
Definition ex_nd : ex_node := mkNode ex_circ [] [].

Lemma ex_circ_inv : circuit_inv ex_circ.
Proof.
  constructor; try done; try (vm_compute; split; intros; try done; lia).
  - split; [done|by intros []].
  - unfold Tokens.wf. simpl. lia.
  - simpl. lia.
Qed.

Lemma circuit_invariant_witness :
  match New (L:=list Cell) (LE:=unit) [] with
  | Some (Ok c, l') =>
      match run_all [CallSendData Ready 7 (go"x"); CallDestroy] (mkNode c l' []) with
      | Some nd => circuit_inv (circ nd)
      | None => False
      end
  | _ => False
  end.
Proof.
  destruct (New []) as [[[c| |] l']|] eqn:E; [|vm_compute in E; discriminate..].
  destruct (run_all _ _) as [nd|] eqn:E2.
  - exact (circuit_invariant _ _ _ _ _ E E2).
  - vm_compute in E. injection E as <- <-. vm_compute in E2. discriminate.
Defined.

Definition ex_closed : ex_node := on_circ (fail ErrDestroyed) ex_nd.

Lemma closed_is_final_witness :
  match run_all [CallDestroy; CallSendRelay (ex_rc Relay.RelayDrop 0 [])] ex_closed with
  | Some nd' => sendRelay 2 (ex_rc Relay.RelayDrop 0 []) false nd' = Some (Err ErrDestroyed, nd')
  | None => False
  end.
Proof.
  destruct (run_all _ _) as [nd'|] eqn:H; [|vm_compute in H; discriminate].
  assert (closed_with ErrDestroyed 0 (circ ex_closed)) as Hc by done.
  exact (proj2 (closed_is_final _ _ _ _ _ Hc H) 2%Z (ex_rc Relay.RelayDrop 0 []) false).
Defined.

Lemma deliver_window_witness :
  let r := account_all (replicate 150 (2, zeros 20)) ex_circ in
  unacked r.1 = 50%Z ∧ Z.of_nat (length r.2) = 1%Z.
Proof.
  assert (Forall (λ ct : nat * bytes, ct.1 < length (hops ex_circ)) (replicate 150 (2, zeros 20)))
    as Hf by (apply Forall_replicate; simpl; lia).
  exact (deliver_window_sendmes (replicate 150 (2, zeros 20)) ex_circ ex_circ_inv eq_refl Hf).
Defined.

Lemma SendData_permits_witness :
  match SendData Ready 7 (go"hello") ex_nd with
  | Some (Ok _, nd') => Tokens.avail (circPkgTokens (circ nd')) = 999
  | _ => False
  end.
Proof.
  destruct (SendData Ready 7 (go"hello") ex_nd) as [[o nd']|] eqn:E.
  - pose proof (SendData_permits Ready 7 (go"hello") ex_nd nd' o ex_circ_inv E) as H.
    destruct o; [|vm_compute in E; discriminate|exact H].
    destruct H as [H _]. injection H as H. exact (eq_sym H).
  - vm_compute in E. discriminate.
Defined.

(** ** Two honest relays *)

Definition ex_key (k : Z) : X25519KeyPair := {| priv := be_encode 32 k |}.
Definition ex_info (k : Z) : RelayInfo :=
  {| Nickname := go"relay"; ORAddr := go"10.0.0.1:9001"; RSAIDDigest := be_encode 20 k;
     EdIdentity := be_encode 32 k; NtorOnionKey := Public (ex_key k) |}.

(** The relay's answer to the client's handshake with ephemeral key [r]. *)
Definition ex_answer (r k : Z) : bytes * bytes :=
  match NtorClientHandshake (be_encode 32 r) (be_encode 20 k) (Public (ex_key k)) with
  | Ok (cd, st) =>
      match ntorServerHandshake (be_encode 20 k) (ex_key k) (ex_key (k + 1000)) cd NtorKeyMaterialLen with
      | Ok (sd, keys) => (sd, keys)
      | _ => ([], [])
      end
  | _ => ([], [])
  end.

Definition ex_created2 : Cell :=
  {| CircID := 2147483649; Cmd := CmdCreated2; Payload := framed (ex_answer 3 41).1 ++ zeros 400 |}.
Definition ex_extended2 : Cell :=
  {| CircID := 2147483649; Cmd := CmdRelay;
     Payload := match relay_of_keys (ex_answer 3 41).2 with
                | Some r =>
                    match relayOriginateBackward [r] 0
                            (relay_cell Relay.RelayExtended2 0 (framed (ex_answer 5 42).1)) with
                    | Some (p, _) => p
                    | None => []
                    end
                | None => []
                end |}.
Definition ex_envs : list around :=
  [mkAround (be_encode 32 3) [Inbox ex_created2] Ready;
   mkAround (be_encode 32 5) [Inbox ex_extended2] Ready].

Lemma Build_establishes_path_witness :
  match New (L:=list Cell) (LE:=unit) [] with
  | Some (Ok c, l') =>
      match Build [ex_info 41; ex_info 42] ex_envs (mkNode c l' []) with
      | Some (Ok tt, nd) => map info (hops (circ nd)) = [ex_info 41; ex_info 42]
      | _ => False
      end
  | _ => False
  end.
Proof.
  destruct (New []) as [[[c| |] l']|] eqn:E; [|vm_compute in E; discriminate..].
  destruct (Build _ _ _) as [[[[]| |] nd]|] eqn:E2.
  - exact (proj1 (Build_establishes_path _ _ _ _ _ _ E E2)).
  - vm_compute in E. injection E as <- <-. vm_compute in E2. discriminate.
  - vm_compute in E. injection E as <- <-. vm_compute in E2. discriminate.
  - vm_compute in E. injection E as <- <-. vm_compute in E2. discriminate.
Defined.

Definition ex_bare : ex_node := mkNode (set_hops [] ex_circ) [] [].

Lemma Create_honest_witness :
  ∃ nd' h r, Create (be_encode 32 3) [Inbox ex_created2] Ready (ex_info 41) ex_bare
      = Some (Ok tt, nd') ∧
    hops (circ nd') = [h] ∧ relay_of_keys (ex_answer 3 41).2 = Some r ∧ in_step h r ∧
    info h = ex_info 41.
Proof.
  destruct (NtorClientHandshake (be_encode 32 3) (be_encode 20 41) (Public (ex_key 41)))
    as [[cd st]| |] eqn:E1; [|vm_compute in E1; discriminate..].
  destruct (ntorServerHandshake (be_encode 20 41) (ex_key 41) (ex_key 1041) cd NtorKeyMaterialLen)
    as [[sd keys]| |] eqn:E2.
  - assert (ex_answer 3 41 = (sd, keys)) as Ha.
    { unfold ex_answer. rewrite E1. change (41 + 1000)%Z with 1041%Z. by rewrite E2. }
    unfold ex_created2. rewrite Ha. cbn [fst snd].
    exact (Create_honest ex_bare (ex_info 41) (be_encode 32 3) (ex_key 41) (ex_key 1041) cd sd keys
      (zeros 400) st _ eq_refl E1 E2 eq_refl eq_refl).
  - vm_compute in E1. injection E1 as <- <-. vm_compute in E2. discriminate.
  - vm_compute in E1. injection E1 as <- <-. vm_compute in E2. discriminate.
Defined.

(** Extending the three-hop circuit by one more relay. *)
Lemma Extend_honest_witness :
  ∃ ev nd' hs, Extend (be_encode 32 5) [ev] Ready (ex_info 42) ex_nd = Some (Ok tt, nd') ∧
    Forall2 in_step (hops (circ nd')) hs ∧ length hs = 4.
Proof.
  destruct (NtorClientHandshake (be_encode 32 5) (be_encode 20 42) (Public (ex_key 42)))
    as [[cd st]| |] eqn:E1; [|vm_compute in E1; discriminate..].
  destruct (linkSpecifiers (ex_info 42)) as [specs| |] eqn:E2; [|vm_compute in E2; discriminate..].
  destruct (ntorServerHandshake (be_encode 20 42) (ex_key 42) (ex_key 1042) cd NtorKeyMaterialLen)
    as [[sd keys]| |] eqn:E3;
    [|vm_compute in E1; injection E1 as <- <-; vm_compute in E3; discriminate..].
  destruct (encrypt_in_range (E:=circuit_error (LE:=unit)) (hops (circ ex_nd)) 2
    (extend2 specs cd)) as (p&hs1&E4); [simpl; lia|].
  destruct (relayDecodeForward ex_relays 2 p) as [got rs1] eqn:E5.
  destruct (relayOriginateBackward rs1 2 (relay_cell Relay.RelayExtended2 0 (framed sd)))
    as [[q rs2]|] eqn:E6.
  - assert (not_recognized_before hs1 2 q) as Hn.
    { vm_compute in E1. injection E1 as <- <-. vm_compute in E2. injection E2 as <-.
      vm_compute in E3. injection E3 as <- <-. vm_compute in E4. injection E4 as <- <-.
      vm_compute in E5. injection E5 as <- <-. vm_compute in E6. injection E6 as <- <-.
      vm_compute. done. }
    assert (relayEarlyCount (circ ex_nd) < maxRelayEarly) as He by (vm_compute; lia).
    assert (link_up ex_nd) as Hl by (intros cl; reflexivity).
    assert (hops (circ ex_nd) ≠ []) as Hne by discriminate.
    destruct (Extend_honest ex_nd (ex_info 42) (be_encode 32 5) (ex_key 42) (ex_key 1042)
      ex_relays rs1 rs2 cd sd keys specs p q st hs1 got eq_refl He eq_refl eq_refl Hl Hne
      ex_in_step eq_refl E1 E2 E3 E4 E5 E6 Hn) as (_&nd'&r&H1&H2&H3).
    exists (Inbox {| CircID := id (circ ex_nd); Cmd := CmdRelay; Payload := q |}), nd', (rs2 ++ [r]).
    split; [exact H1|]. split; [exact H3|].
    vm_compute in E1. injection E1 as <- <-. vm_compute in E2. injection E2 as <-.
    vm_compute in E3. injection E3 as <- <-. vm_compute in E4. injection E4 as <- <-.
    vm_compute in E5. injection E5 as <- <-. vm_compute in E6. injection E6 as <- <-.
    reflexivity.
  - vm_compute in E1. injection E1 as <- <-. vm_compute in E2. injection E2 as <-.
    vm_compute in E3. injection E3 as <- <-. vm_compute in E4. injection E4 as <- <-.
    vm_compute in E5. injection E5 as <- <-. vm_compute in E6. discriminate.
Defined.

(** ** Two sends through the turnstile *)

Notation exsys := (sys (L:=list Cell) (LE:=unit)).
Definition ex_start : exsys := start ex_circ [].

(** The steps as functions; a step that is not possible leaves the state. *)
Definition ex_begin : Relay.RelayCell := ex_rc Relay.RelayBegin 7 (go"example.org:80").
Definition do_send (s : exsys) : exsys :=
  match sendRelay_locked 2 ex_begin true (Turnstile.sc s) with
  | (Ok (Claimed t cl), c') => enter 2 ex_begin t cl (set_sc c' s)
  | _ => s
  end.
Definition do_writer (t : nat) (s : exsys) : exsys :=
  match writers s !! t with
  | Some (cl, Entering) => checked t cl s
  | Some (cl, Writing) => let '(err, l) := SendCell (sl s) cl in wrote t cl err l s
  | Some (cl, Wrote err) => advanced t cl err s
  | Some (cl, Failing e) => writer_failed t e s
  | _ => s
  end.

Lemma do_send_runs (s0 s : exsys) : rtc step s0 s → rtc step s0 (do_send s).
Proof.
  intros H. unfold do_send. destruct (sendRelay_locked _ _ _ _) as [[[e|t cl]| |] c'] eqn:E; try done.
  eapply rtc_r; [exact H|]. exact (step_send s 2%Z _ true t cl c' E).
Qed.
Lemma do_writer_runs t (s0 s : exsys) : rtc step s0 s → rtc step s0 (do_writer t s).
Proof.
  intros H. unfold do_writer. destruct (writers s !! t) as [[cl []]|] eqn:E; try done;
    try destruct (SendCell (sl s) cl) as [err' l] eqn:Es; (eapply rtc_r; [exact H|apply step_writer]).
  - by apply ws_check.
  - by apply ws_write.
  - by apply ws_advance.
  - by eapply ws_fail.
Qed.

(** The second sender finds that it is not its turn and sleeps; the first one
    writes. *)
Definition ex_written : exsys := do_writer 0 (do_writer 0 (do_writer 1 (do_send (do_send ex_start)))).

Lemma ex_reach : rtc step ex_start ex_written.
Proof. repeat apply do_writer_runs. repeat apply do_send_runs. apply rtc_refl. Qed.

Example ex_written_phases : snd <$> writers ex_written = {[0 := Wrote None; 1 := Sleeping]}.
Proof. vm_compute. reflexivity. Qed.

Lemma ex_fwd : Forall2 fwd_in_step (hops ex_circ) ex_relays.
Proof. repeat constructor. Qed.

Lemma turnstile_wire_witness :
  length (wire ex_written) = 1 ∧
  Forall2 decoded (take 1 (sent ex_written)) (decode_all ex_relays (addressed (take 1 (sent ex_written)) (wire ex_written))).
Proof.
  assert (werr ex_written = false) as Hw by (vm_compute; reflexivity).
  assert (length (wire ex_written) = 1) as Hl by (vm_compute; reflexivity).
  destruct (turnstile_wire_decodes ex_relays ex_circ [] ex_written eq_refl ex_fwd ex_reach) as [_ H].
  specialize (H Hw) as [_ H]. rewrite Hl in H. exact (conj Hl H).
Defined.

Lemma turnstile_drains_witness :
  size (writers ex_written) = 2 ∧ sn writer_step ex_written.
Proof.
  split; [vm_compute; reflexivity|].
  exact (proj1 (turnstile_drains ex_circ [] ex_written eq_refl ex_reach)).
Defined.

(** Waking and writing the second cell empties the turnstile. *)
Example turnstile_empties : writers (do_writer 1 (do_writer 1 (do_writer 1 (do_writer 0 ex_written)))) = ∅.
Proof. vm_compute. reflexivity. Qed.

Lemma relay_early_budget_witness : count_early (attempted ex_written) ≤ 8.
Proof. exact (proj1 (relay_early_budget ex_circ [] ex_written eq_refl eq_refl ex_reach)). Defined.
