(* ===== verification/Stream.v ===== *)
(** * [pkg/stream]: streams multiplexed over one circuit.

    [Stream] and [Manager] with the store of streams shared by the manager,
    the dispatcher and the applications that hold a [*Stream]: a stream is
    referred to by its place in the store, so a handle outlives its entry in
    the manager's map.  Calls run over a [Carrier] (the circuit).  Blocking
    selects take the chosen case, and the cells dispatched while the caller
    waits, as arguments. *)

From S2P Require Import Prelude ByteUtil Cell Circuit.

(** [Carrier]: what the stream layer needs of a circuit. [SendData]'s first
    argument is the case its blocking select takes; [carrier_deadline] tells
    an error that wraps [context.DeadlineExceeded]. *)
Class Carrier (K KE : Type) := {
  carrier_SendRelay : Relay.RelayCell → prog K KE unit;
  carrier_SendData : select_case → Z → bytes → prog K KE unit;
  carrier_deadline : KE → bool
}.

Module Stream.

Definition streamWindowStart : nat := 500.
Definition streamWindowIncrement : nat := 50.
Definition beginFlagIPv6OK : Z := 1.
Definition endReasonMisc : byte := x01.
Definition endReasonDone : byte := x06.

(** The errors a stream ends with. *)
Inductive end_error := EOF | EndError (reason : byte) | ErrNetClosed.

(** The fields of [Stream]: [cancelled] is [ctx.Done()], a capacity-1 channel
    is a boolean or an option (of nil or an error), a zero deadline is None. *)
Record Stream := mkStream {
  id : Z;
  cancelled : bool;
  readChunks : list bytes;
  readErr : option end_error;
  readSig : bool;
  consumedCells : nat;
  connectCh : option (option end_error);
  pkgTokens : Tokens.Tokens;
  readDeadline : option Z;
  writeDeadline : option Z;
  closedOnce : bool
}.

Definition set_read (chunks : list bytes) (n : nat) (s : Stream) : Stream :=
  mkStream (id s) (cancelled s) chunks (readErr s) (readSig s) n (connectCh s)
    (pkgTokens s) (readDeadline s) (writeDeadline s) (closedOnce s).
Definition set_readErr (e : option end_error) (s : Stream) : Stream :=
  mkStream (id s) (cancelled s) (readChunks s) e (readSig s) (consumedCells s) (connectCh s)
    (pkgTokens s) (readDeadline s) (writeDeadline s) (closedOnce s).
Definition set_readSig (b : bool) (s : Stream) : Stream :=
  mkStream (id s) (cancelled s) (readChunks s) (readErr s) b (consumedCells s) (connectCh s)
    (pkgTokens s) (readDeadline s) (writeDeadline s) (closedOnce s).
Definition set_connect (o : option (option end_error)) (s : Stream) : Stream :=
  mkStream (id s) (cancelled s) (readChunks s) (readErr s) (readSig s) (consumedCells s) o
    (pkgTokens s) (readDeadline s) (writeDeadline s) (closedOnce s).
Definition set_tokens (t : Tokens.Tokens) (s : Stream) : Stream :=
  mkStream (id s) (cancelled s) (readChunks s) (readErr s) (readSig s) (consumedCells s)
    (connectCh s) t (readDeadline s) (writeDeadline s) (closedOnce s).
Definition set_deadlines (r w : option Z) (s : Stream) : Stream :=
  mkStream (id s) (cancelled s) (readChunks s) (readErr s) (readSig s) (consumedCells s)
    (connectCh s) (pkgTokens s) r w (closedOnce s).
Definition set_closedOnce (s : Stream) : Stream :=
  mkStream (id s) (cancelled s) (readChunks s) (readErr s) (readSig s) (consumedCells s)
    (connectCh s) (pkgTokens s) (readDeadline s) (writeDeadline s) true.
Definition cancel (s : Stream) : Stream :=
  mkStream (id s) true (readChunks s) (readErr s) (readSig s) (consumedCells s)
    (connectCh s) (pkgTokens s) (readDeadline s) (writeDeadline s) (closedOnce s).

(** [newStream(m, id)]. *)
Definition newStream (sid : Z) (toks : Tokens.Tokens) : Stream :=
  mkStream sid false [] None false 0 None toks None None false.

(** ** Operations on one stream *)

(** Non-blocking sends on capacity-1 channels. *)
Definition signalRead (s : Stream) : Stream := set_readSig true s.
Definition connect (msg : option end_error) (s : Stream) : Stream :=
  match connectCh s with None => set_connect (Some msg) s | Some _ => s end.

Definition creditPackage (n : nat) (s : Stream) : Stream :=
  set_tokens (Tokens.credit n (pkgTokens s)) s.

Definition onData (data : bytes) (s : Stream) : Stream :=
  if length data =? 0 then s
  else match readErr s with
       | Some _ => s
       | None => signalRead (set_read (readChunks s ++ [data]) (consumedCells s) s)
       end.

(** [onEnd] up to the removal from the manager. *)
Definition onEnd (reason : byte) (s : Stream) : Stream :=
  let s := match readErr s with
           | Some _ => s
           | None => set_readErr (Some (if decide (reason = endReasonDone) then EOF
                                        else EndError reason)) s
           end in
  cancel (connect (readErr s) (signalRead s)).

(** [drainLocked]: the loop over the chunk deque, copying into a buffer of
    [plen] bytes; also the new count of consumed cells and the SENDMEs due. *)
Fixpoint drain (plen : nat) (chunks : list bytes) (consumed : nat)
    : bytes * list bytes * nat * nat :=
  match chunks with
  | [] => ([], [], consumed, 0)
  | c :: rest =>
      if plen =? 0 then ([], chunks, consumed, 0)
      else
        let k := plen `min` length c in
        if k =? length c then
          let consumed := S consumed in
          let '(consumed, sm) :=
            if streamWindowIncrement <=? consumed
            then (consumed - streamWindowIncrement, 1) else (consumed, 0) in
          let '(out, rest, consumed, sendmes) := drain (plen - k) rest consumed in
          (c ++ out, rest, consumed, sm + sendmes)
        else (take k c, drop k c :: rest, consumed, 0)
  end.

Definition drainLocked (plen : nat) (s : Stream) : bytes * nat * Stream :=
  let '(out, chunks, consumed, sendmes) := drain plen (readChunks s) (consumedCells s) in
  (out, sendmes, set_read chunks consumed s).

Definition writeErr (s : Stream) : end_error :=
  match readErr s with
  | Some EOF => ErrNetClosed
  | Some e => e
  | None => ErrNetClosed
  end.

Definition SetDeadline (t : option Z) (s : Stream) : Stream := signalRead (set_deadlines t t s).
Definition SetReadDeadline (t : option Z) (s : Stream) : Stream :=
  signalRead (set_deadlines t (writeDeadline s) s).
Definition SetWriteDeadline (t : option Z) (s : Stream) : Stream :=
  set_deadlines (readDeadline s) t s.

(** [deadlineChan]: whether there is a channel that fires, at the deadline or at
    once when that has passed; a nil channel never does. *)
Definition deadlineChan (read : bool) (s : Stream) : bool :=
  let dl := if read then readDeadline s else writeDeadline s in
  match dl with None => false | Some _ => true end.

(** ** The manager *)

Record Manager := mkManager { streams : gmap Z nat; nextID : Z }.

(** One pass of the search loop of [Manager.newStream]: the uint16 counter
    skips 0. *)
Definition bump (n : Z) : Z := if (u16 (n + 1) =? 0)%Z then 1%Z else u16 (n + 1).

Fixpoint find_id (fuel : nat) (m : Manager) : option Z * Manager :=
  match fuel with
  | O => (None, m)
  | S fuel =>
      let sid := nextID m in
      let m := mkManager (streams m) (bump (nextID m)) in
      if (sid =? 0)%Z then find_id fuel m
      else match streams m !! sid with
           | Some _ => find_id fuel m
           | None => (Some sid, m)
           end
  end.

(** [for range 0x10000]. *)
Definition id_tries : nat := Z.to_nat 65536.

Definition remove (sid : Z) (m : Manager) : Manager := mkManager (delete sid (streams m)) (nextID m).

Section Calls.
Context `{Carrier K KE}.

Inductive stream_error :=
| Ended (e : end_error)
| Timeout
| NoFreeIDs
| SendBegin (e : KE)
| CtxError (e : ctx_error)
| WriteFailed (e : KE).

(** The manager, every stream ever created, and the circuit. *)
Record world := mkWorld { mgr : Manager; heap : list Stream; car : K }.

Definition NewManager (k : K) : world := mkWorld (mkManager ∅ 1) [] k.

(** [LocalAddr] and [RemoteAddr]. *)
Definition torAddr_Network : bytes := go"tor".
Definition LocalAddr : bytes := go"tor-client".
Definition RemoteAddr : bytes := go"tor-exit".

Definition on_mgr (f : Manager → Manager) (w : world) : world :=
  mkWorld (f (mgr w)) (heap w) (car w).
Definition on_stream (h : nat) (f : Stream → Stream) (w : world) : world :=
  mkWorld (mgr w) (alter f h (heap w)) (car w).

(** Dereferencing a stream. *)
Definition stream_at {E} (h : nat) : prog world E Stream :=
  λ w, match heap w !! h with Some s => Some (Ok s, w) | None => Some (Panic, w) end.

Definition on_car {A} (m : prog K KE A) : prog world KE A :=
  λ w, match m (car w) with
       | Some (o, k) => Some (o, mkWorld (mgr w) (heap w) k)
       | None => None
       end.

(** A call whose error is dropped ([_ = f()]); a panic still propagates. *)
Definition ignore {E} (m : prog world KE unit) : prog world E unit :=
  r ← attempt m;
  match r with Panic => panic | _ => mret tt end.

(** [handleCell] of the stream [h]. *)
Definition handleCell (h : nat) (rc : Relay.RelayCell) (w : world) : world :=
  let cmd := Relay.Cmd rc in
  if decide (cmd = Relay.RelayConnected) then on_stream h (connect None) w
  else if decide (cmd = Relay.RelayData) then on_stream h (onData (Relay.Data rc)) w
  else if decide (cmd = Relay.RelayEnd) then
    let reason := match Relay.Data rc with b :: _ => b | [] => endReasonMisc end in
    match heap w !! h with
    | Some s => on_mgr (remove (id s)) (on_stream h (onEnd reason) w)
    | None => w
    end
  else if decide (cmd = Relay.RelaySendme) then
    on_stream h (creditPackage streamWindowIncrement) w
  else w.

Definition dispatch (rc : Relay.RelayCell) (w : world) : world :=
  if decide (Relay.StreamID rc = 0%Z) then w
  else match streams (mgr w) !! Relay.StreamID rc with
       | None => w
       | Some h => handleCell h rc w
       end.

Definition dispatch_all (rcs : list Relay.RelayCell) (w : world) : world :=
  foldl (λ w rc, dispatch rc w) w rcs.

(** [Manager.newStream]: 0x10000 tries. *)
Definition mgr_newStream : prog world stream_error nat := λ w,
  match find_id id_tries (mgr w) with
  | (None, m) => Some (Err NoFreeIDs, mkWorld m (heap w) (car w))
  | (Some sid, m) =>
      match Tokens.MakeTokens streamWindowStart with
      | None => None
      | Some toks =>
          let h := length (heap w) in
          Some (Ok h, mkWorld (mkManager (<[sid := h]> (streams m)) (nextID m))
                        (heap w ++ [newStream sid toks]) (car w))
      end
  end.

(** The case taken by the select of [begin]. *)
Inductive begin_case := Connected | BeginCtx (e : ctx_error).

(** [begin]: [cells] are dispatched while the caller waits. *)
Definition begin_ (command : byte) (body : bytes) (cells : list Relay.RelayCell)
    (sel : begin_case) : prog world stream_error nat :=
  h ← mgr_newStream;
  s ← stream_at h;
  r ← attempt (on_car (carrier_SendRelay (relay_cell command (id s) body)));
  match r with
  | Panic => panic
  | Err e => _ ← modify (on_mgr (remove (id s))); throw (SendBegin e)
  | Ok _ =>
      _ ← modify (dispatch_all cells);
      match sel with
      | Connected =>
          s ← stream_at h;
          match connectCh s with
          | None => blocked
          | Some msg =>
              _ ← modify (on_stream h (set_connect None));
              match msg with
              | Some e => _ ← modify (on_mgr (remove (id s))); throw (Ended e)
              | None => mret h
              end
          end
      | BeginCtx e =>
          _ ← ignore (on_car (carrier_SendRelay
                (relay_cell Relay.RelayEnd (id s) [endReasonDone])));
          _ ← modify (on_mgr (remove (id s)));
          throw (CtxError e)
      end
  end.

Definition begin_body (addr : bytes) : bytes :=
  Writer.Bytes (Writer.U32 (Writer.Byte (Writer.Write (Writer.NewWriter (length addr + 5)) addr)
    x00) beginFlagIPv6OK).

Definition Begin (addr : bytes) := begin_ Relay.RelayBegin (begin_body addr).
Definition BeginDir := begin_ Relay.RelayBeginDir [].

Definition sendStreamSendme (h : nat) : prog world stream_error unit :=
  s ← stream_at h;
  ignore (on_car (carrier_SendRelay (relay_cell Relay.RelaySendme (id s) []))).

Fixpoint sendmes (n : nat) (h : nat) : prog world stream_error unit :=
  match n with O => mret tt | S n => _ ← sendStreamSendme h; sendmes n h end.

(** The case taken by a blocked [Read]. *)
Inductive read_case := ReadSig | ReadTimeout | ReadCtx.

(** [Read] into a buffer of [plen] bytes.  Each entry of [waits] is one
    blocking select: the cells dispatched before it fires, and its case. *)
Fixpoint Read (h : nat) (plen : nat) (waits : list (list Relay.RelayCell * read_case))
    : prog world stream_error bytes :=
  s ← stream_at h;
  match readChunks s with
  | _ :: _ =>
      let '(out, n, s') := drainLocked plen s in
      _ ← modify (on_stream h (λ _, s'));
      _ ← sendmes n h;
      mret out
  | [] =>
      match readErr s with
      | Some e => throw (Ended e)
      | None =>
          match waits with
          | [] => blocked
          | (cells, sel) :: waits =>
              _ ← modify (dispatch_all cells);
              s' ← stream_at h;
              match sel with
              | ReadSig =>
                  if readSig s' then
                    _ ← modify (on_stream h (set_readSig false)); Read h plen waits
                  else blocked
              | ReadTimeout => if deadlineChan true s then throw Timeout else blocked
              | ReadCtx =>
                  if cancelled s' then
                    match readChunks s' with
                    | _ :: _ => Read h plen waits
                    | [] => throw (Ended (match readErr s' with
                                          | Some e => e | None => ErrNetClosed end))
                    end
                  else blocked
              end
          end
      end
  end.

(** The case taken by the select on the stream-level permit. *)
Inductive write_case := WriteToken | WriteTimeout | WriteCtx.
(** One chunk's environment: cells dispatched meanwhile, the case of the
    permit select, and the case of the select inside [SendData]. *)
Record write_wait := mkWait {
  w_cells : list Relay.RelayCell;
  w_case : write_case;
  w_data : select_case
}.

(** The derived context of [writeContext] can only be done if the stream was
    cancelled or has a write deadline. *)
Definition ctx_ready (s : Stream) (sel : select_case) : bool :=
  match sel with
  | CtxDone Canceled => cancelled s
  | CtxDone DeadlineExceeded => if writeDeadline s then true else false
  | _ => true
  end.

(** [Write]: the count of bytes sent and the error value. *)
Fixpoint Write (h : nat) (p : bytes) (total : nat) (waits : list write_wait)
    : prog world stream_error (nat * option stream_error) :=
  match p, waits with
  | [], _ => mret (total, None)
  | _ :: _, [] => blocked
  | _ :: _, a :: waits =>
      let chunk := if Relay.RelayDataLen <? length p then take Relay.RelayDataLen p else p in
      s0 ← stream_at h;
      _ ← modify (dispatch_all (w_cells a));
      s ← stream_at h;
      match w_case a with
      | WriteTimeout => if deadlineChan false s0 then mret (total, Some Timeout) else blocked
      | WriteCtx =>
          if cancelled s then mret (total, Some (Ended (writeErr s))) else blocked
      | WriteToken =>
          match Tokens.recv (pkgTokens s) with
          | None => blocked
          | Some toks =>
              _ ← modify (on_stream h (set_tokens toks));
              if negb (ctx_ready s (w_data a)) then blocked else
              r ← attempt (on_car (carrier_SendData (w_data a) (id s) chunk));
              match r with
              | Panic => panic
              | Err e =>
                  _ ← modify (on_stream h (creditPackage 1));
                  mret (total, Some (if carrier_deadline e then Timeout else WriteFailed e))
              | Ok _ => Write h (drop (length chunk) p) (total + length chunk) waits
              end
          end
      end
  end.

(** [Close]: once. *)
Definition Close (h : nat) : prog world stream_error unit :=
  s ← stream_at h;
  if closedOnce s then mret tt else
  _ ← modify (on_stream h set_closedOnce);
  _ ← ignore (on_car (carrier_SendRelay (relay_cell Relay.RelayEnd (id s) [endReasonDone])));
  _ ← modify (on_stream h (λ s, cancel (signalRead
        (match readErr s with None => set_readErr (Some ErrNetClosed) s | Some _ => s end))));
  modify (on_mgr (remove (id s))).

End Calls.
End Stream.

#[global] Opaque Stream.id_tries.

(** A circuit is a carrier. *)
#[export] Instance circuit_carrier `{TorCrypto.Crypto} `{!Link L LE}
    : Carrier (node (L:=L) (LE:=LE)) (circuit_error (LE:=LE)) := {|
  carrier_SendRelay := SendRelay;
  carrier_SendData := SendData;
  carrier_deadline e := match e with CtxErr DeadlineExceeded => true | _ => false end
|}.
