(* ===== verification/StreamCalls.v ===== *)
(** * Streams over time: calls, dispatch and reuse.

    The invariant of the manager and of every stream under all calls, the
    integrity of the byte stream an application reads, and the exactness of
    [Write], against the [Carrier] interface. *)

From S2P Require Import Prelude ByteUtil Cell Circuit Stream StreamFacts.
Import Stream.

Section Facts.
Context `{HC : Carrier K KE}.
Notation world := (world (K:=K)).
Notation stream_error := (stream_error (KE:=KE)).
Implicit Types w : world.

(** ** The invariant *)

Record stream_inv (s : Stream) : Prop := {
  si_chunks : Forall (λ c, c ≠ []) (readChunks s);
  si_consumed : consumedCells s < streamWindowIncrement;
  si_tokens : Tokens.wf (pkgTokens s);
  si_cap : Tokens.cap (pkgTokens s) = streamWindowStart
}.

Record world_inv w : Prop := {
  wi_next : id_range (nextID (mgr w));
  wi_map : ∀ sid h, streams (mgr w) !! sid = Some h →
    id_range sid ∧ ∃ s, heap w !! h = Some s ∧ id s = sid;
  wi_streams : Forall stream_inv (heap w)
}.

Ltac si_tac := intros []; constructor; simpl; auto with gotor.

Lemma si_signalRead s : stream_inv s → stream_inv (signalRead s).
Proof. si_tac. Qed.
Lemma si_set_readSig b s : stream_inv s → stream_inv (set_readSig b s).
Proof. si_tac. Qed.
Lemma si_set_connect o s : stream_inv s → stream_inv (set_connect o s).
Proof. si_tac. Qed.
Lemma si_set_readErr e s : stream_inv s → stream_inv (set_readErr e s).
Proof. si_tac. Qed.
Lemma si_cancel s : stream_inv s → stream_inv (cancel s).
Proof. si_tac. Qed.
Lemma si_set_closedOnce s : stream_inv s → stream_inv (set_closedOnce s).
Proof. si_tac. Qed.
Lemma si_connect o s : stream_inv s → stream_inv (connect o s).
Proof. unfold connect. destruct (connectCh s); [done|]. apply si_set_connect. Qed.
Lemma si_creditPackage n s : stream_inv s → stream_inv (creditPackage n s).
Proof.
  intros []. constructor; simpl; auto; [by apply Tokens.credit_wf|].
  rewrite Tokens.credit_spec by done. done.
Qed.
Lemma si_recv t s : Tokens.recv (pkgTokens s) = Some t → stream_inv s → stream_inv (set_tokens t s).
Proof.
  intros Ht []. destruct (Tokens.recv_wf _ _ si_tokens0 Ht) as (?&?&?).
  constructor; simpl; auto. congruence.
Qed.
Lemma si_onData d s : stream_inv s → stream_inv (onData d s).
Proof.
  intros []. unfold onData. destruct (Nat.eqb_spec (length d) 0); [by constructor|].
  destruct (readErr s); [by constructor|]. constructor; simpl; auto.
  apply Forall_app. split; [done|]. constructor; [by destruct d|constructor].
Qed.
Lemma si_onEnd r s : stream_inv s → stream_inv (onEnd r s).
Proof.
  intros H. unfold onEnd. apply si_cancel, si_connect, si_signalRead.
  destruct (readErr s); [done|]. by apply si_set_readErr.
Qed.
Lemma si_drain plen s out n s' :
  drainLocked plen s = (out, n, s') → stream_inv s → stream_inv s'.
Proof.
  intros H []. revert H. unfold drainLocked.
  pose proof (drain_acks plen (readChunks s) (consumedCells s) si_consumed0) as H2.
  pose proof (drain_nonempty plen (readChunks s) (consumedCells s) si_chunks0) as H4.
  destruct (drain _ _ _) as [[[o rest] n'] sm]. intros [= <- <- <-]. by constructor; simpl; try lia.
Qed.
Hint Resolve si_signalRead si_set_readSig si_set_connect si_set_readErr si_cancel
  si_set_closedOnce si_connect si_creditPackage si_onData si_onEnd : gotor.

(** Updates of one stream keep its ID and its invariant. *)
Lemma wi_on_stream h f w :
  (∀ s, heap w !! h = Some s → id (f s) = id s ∧ (stream_inv s → stream_inv (f s))) →
  world_inv w → world_inv (on_stream h f w).
Proof.
  intros Hf []. constructor; simpl; auto.
  - intros sid h' Hs. destruct (wi_map0 _ _ Hs) as (?&s&Hh&Hi). split; [done|].
    destruct (decide (h = h')) as [->|].
    + exists (f s). rewrite list_lookup_alter_eq, Hh. split; [done|]. rewrite <-Hi. by apply Hf.
    + exists s. by rewrite list_lookup_alter_ne.
  - apply Forall_lookup. intros i s' Hs'. destruct (decide (h = i)) as [->|].
    + rewrite list_lookup_alter_eq in Hs'. destruct (heap w !! i) as [s|] eqn:E; [|done].
      injection Hs' as <-. apply Hf; [done|]. by eapply Forall_lookup_1.
    + rewrite list_lookup_alter_ne in Hs' by done. by eapply Forall_lookup_1.
Qed.

Lemma wi_remove sid w : world_inv w → world_inv (on_mgr (remove sid) w).
Proof.
  intros []. constructor; simpl; auto. intros sid' h.
  rewrite lookup_delete_Some. intros [_ ?]. by apply wi_map0.
Qed.

Lemma onData_id d s : id (onData d s) = id s.
Proof. unfold onData. by destruct (_ =? 0), (readErr s). Qed.
Lemma connect_id o s : id (connect o s) = id s.
Proof. unfold connect. by destruct (connectCh s). Qed.
Lemma onEnd_id r s : id (onEnd r s) = id s.
Proof. unfold onEnd. simpl. rewrite connect_id. by destruct (readErr s). Qed.

Lemma wi_handleCell h rc w : world_inv w → world_inv (handleCell h rc w).
Proof.
  intros Hi. unfold handleCell.
  repeat case_decide; auto;
    try (apply wi_on_stream; [intros s _; split; auto using onData_id, connect_id with gotor|done]).
  destruct (heap w !! h) as [s|] eqn:E; [|done]. apply wi_remove, wi_on_stream; [|done].
  intros s' _. split; auto using onEnd_id with gotor.
Qed.

Lemma wi_dispatch rc w : world_inv w → world_inv (dispatch rc w).
Proof.
  intros Hi. unfold dispatch. case_decide; [done|].
  destruct (streams (mgr w) !! _); [by apply wi_handleCell|done].
Qed.

Lemma wi_dispatch_all rcs w : world_inv w → world_inv (dispatch_all rcs w).
Proof. revert w. induction rcs as [|rc rcs IH]; intros w Hi; simpl; auto using wi_dispatch. Qed.

Notation keeps m := (preserves world_inv m).

Lemma keeps_stream_at {E} h : keeps (stream_at h : prog world E _).
Proof. intros w o w'. unfold stream_at. destruct (heap w !! h); by intros [= <- <-]. Qed.
Lemma keeps_on_car {A} (m : prog K KE A) : keeps (on_car m : prog world _ _).
Proof.
  intros w o w'. unfold on_car. destruct (m (car w)) as [[o' k]|]; [|done].
  intros [= <- <-] []. by constructor.
Qed.
Lemma keeps_ignore {E} (m : prog world KE unit) : keeps m → keeps (ignore m : prog world E _).
Proof. intros H. unfold ignore. apply preserves_bind; auto with gotor. intros [| |]; auto with gotor. Qed.
Lemma keeps_dispatch_all {E} rcs : keeps (modify (dispatch_all rcs) : prog world E _).
Proof. apply preserves_modify. auto using wi_dispatch_all. Qed.
Lemma keeps_remove {E} sid : keeps (modify (on_mgr (remove sid)) : prog world E _).
Proof. apply preserves_modify. auto using wi_remove. Qed.
Lemma keeps_on_stream {E} h f :
  (∀ s, id (f s) = id s ∧ (stream_inv s → stream_inv (f s))) →
  keeps (modify (on_stream h f) : prog world E _).
Proof. intros Hf. apply preserves_modify. intros w. apply wi_on_stream. auto. Qed.
Hint Resolve keeps_stream_at keeps_on_car keeps_ignore keeps_dispatch_all keeps_remove : gotor.

Lemma keeps_newStream : keeps (mgr_newStream : prog world stream_error _).
Proof.
  intros w o w' H Hi. unfold mgr_newStream in H.
  destruct (find_id id_tries (mgr w)) as [[sid|] m] eqn:E.
  - rewrite Tokens.MakeTokens_full in H. injection H as <- <-.
    destruct Hi as [Hn Hm Hs]. destruct (find_id_found _ _ _ _ Hn E) as (Hr&Hf&He&Hn').
    constructor; simpl; [done| |].
    + rewrite He. intros sid' h. destruct (decide (sid = sid')) as [->|Hne].
      * rewrite lookup_insert_eq. intros [= <-]. split; [done|]. eexists.
        split; [rewrite lookup_app_r, Nat.sub_diag by lia; reflexivity|done].
      * rewrite lookup_insert_ne by done. intros Hx. destruct (Hm _ _ Hx) as (?&s&Hs1&?).
        split; [done|]. exists s. split; [by apply lookup_app_l_Some|done].
    + apply Forall_app. split; [done|]. constructor; [|constructor].
      constructor; simpl; try done; unfold streamWindowIncrement, Tokens.wf; simpl; try lia.
  - injection H as <- <-. destruct Hi as [Hn Hm Hs].
    destruct (find_id_next _ _ _ _ Hn E) as [He Hn']. constructor; simpl; auto. by rewrite He.
Qed.
Hint Resolve keeps_newStream : gotor.

Lemma keeps_begin cmd body cells sel : keeps (begin_ cmd body cells sel : prog world _ _).
Proof.
  unfold begin_. apply preserves_bind; auto with gotor. intros h.
  apply preserves_bind; auto with gotor. intros s.
  apply preserves_bind; auto with gotor. intros [|e|]; auto with gotor.
  apply preserves_bind; auto with gotor. intros _. destruct sel; auto with gotor.
  apply preserves_bind; auto with gotor. intros s'.
  destruct (connectCh s') as [msg|]; auto with gotor.
  apply preserves_bind; [apply keeps_on_stream; auto with gotor|]. intros _.
  destruct msg; auto with gotor.
Qed.

Lemma keeps_sendmes n h : keeps (sendmes n h : prog world _ _).
Proof.
  induction n; simpl; auto with gotor. apply preserves_bind; [|auto].
  unfold sendStreamSendme. auto with gotor.
Qed.

Lemma stream_at_run {E A} h (f : Stream → prog world E A) w o w' :
  (stream_at h ≫= f) w = Some (o, w') →
  (heap w !! h = None ∧ o = Panic ∧ w' = w) ∨
  ∃ s, heap w !! h = Some s ∧ f s w = Some (o, w').
Proof.
  rewrite prog_bind_eq. unfold stream_at. destruct (heap w !! h); [eauto|].
  intros [= <- <-]. by left.
Qed.

Lemma drainLocked_id plen s out n s' : drainLocked plen s = (out, n, s') → id s' = id s.
Proof. unfold drainLocked. destruct (drain _ _ _) as [[[? ?] ?] ?]. by intros [= <- <- <-]. Qed.

(** The branch of [Read] that has data. *)
Definition read_ready (h plen : nat) (s : Stream) : prog world stream_error bytes :=
  let '(out, n, s') := drainLocked plen s in
  _ ← modify (on_stream h (λ _, s'));
  _ ← sendmes n h;
  mret out.

Lemma wi_read_ready h plen s w o w' :
  heap w !! h = Some s → read_ready h plen s w = Some (o, w') → world_inv w → world_inv w'.
Proof.
  intros Hs H Hi. unfold read_ready in H.
  destruct (drainLocked plen s) as [[out n] s'] eqn:Ed. rewrite prog_bind_eq in H. cbn [modify] in H.
  eapply (preserves_bind world_inv (sendmes n h) (λ _, mret out)); [apply keeps_sendmes| |exact H|].
  { intros ?. apply preserves_ret. }
  apply wi_on_stream; [|done]. intros s0 Hs0. rewrite Hs in Hs0. injection Hs0 as <-.
  split; [by eapply drainLocked_id|by eapply si_drain].
Qed.

(** The branch of [Read] that waits. *)
Definition read_wait (h plen : nat) (s : Stream) (cells : list Relay.RelayCell) (sel : read_case)
    (again : prog world stream_error bytes) : prog world stream_error bytes :=
  _ ← modify (dispatch_all cells);
  s' ← stream_at h;
  match sel with
  | ReadSig =>
      if readSig s' then _ ← modify (on_stream h (set_readSig false)); again else blocked
  | ReadTimeout => if deadlineChan true s then throw Timeout else blocked
  | ReadCtx =>
      if cancelled s' then
        match readChunks s' with
        | _ :: _ => again
        | [] => throw (Ended (match readErr s' with Some e => e | None => ErrNetClosed end))
        end
      else blocked
  end.

Lemma Read_eq h plen waits w :
  Read h plen waits w =
  match heap w !! h with
  | None => Some (Panic, w)
  | Some s =>
      match readChunks s with
      | _ :: _ => read_ready h plen s w
      | [] =>
          match readErr s with
          | Some e => Some (Err (Ended e), w)
          | None =>
              match waits with
              | [] => None
              | (cells, sel) :: waits => read_wait h plen s cells sel (Read h plen waits) w
              end
          end
      end
  end.
Proof.
  destruct waits as [|[cells sel] waits]; cbn [Read]; rewrite prog_bind_eq; unfold stream_at;
    destruct (heap w !! h) as [s|]; try done; destruct (readChunks s); try done;
    by destruct (readErr s).
Qed.

Lemma keeps_read_wait h plen s cells sel again :
  keeps again → keeps (read_wait h plen s cells sel again).
Proof.
  intros IH. unfold read_wait.
  apply preserves_bind; auto with gotor. intros _. apply preserves_bind; auto with gotor.
  intros s'. destruct sel.
  - apply preserves_if; auto with gotor.
    apply preserves_bind; [apply keeps_on_stream; auto with gotor|auto].
  - destruct (deadlineChan true s); auto with gotor.
  - apply preserves_if; auto with gotor. destruct (readChunks s'); auto with gotor.
Qed.

Lemma keeps_Read h plen waits : keeps (Read h plen waits : prog world _ _).
Proof.
  induction waits as [|[cells sel] waits IH]; intros w o w'; rewrite Read_eq;
    (destruct (heap w !! h) as [s|] eqn:Hs; [|by intros [= <- <-]]);
    (destruct (readChunks s); [|intros H; by eapply wi_read_ready]);
    (destruct (readErr s); [by intros [= <- <-]|]); [done|].
  apply keeps_read_wait, IH.
Qed.

Lemma keeps_Close h : keeps (Close h : prog world _ _).
Proof.
  unfold Close. apply preserves_bind; auto with gotor. intros s.
  apply preserves_if; auto with gotor.
  apply preserves_bind; [apply keeps_on_stream; auto with gotor|]. intros _.
  apply preserves_bind; auto with gotor. intros _.
  apply preserves_bind; auto with gotor. apply keeps_on_stream.
  intros s'. destruct (readErr s'); split; auto with gotor.
Qed.

Lemma keeps_Write h p total waits : keeps (Write h p total waits : prog world _ _).
Proof.
  revert p total. induction waits as [|a waits IH]; intros [|x p] total; cbn [Write];
    auto with gotor.
  apply preserves_bind; auto with gotor. intros s0.
  apply preserves_bind; auto with gotor. intros _ w o w' H Hi.
  apply stream_at_run in H as [(_&_&->)|(s&Hs&H)]; [done|].
  destruct (w_case a).
  - destruct (Tokens.recv (pkgTokens s)) as [t|] eqn:Ht; [|done].
    rewrite prog_bind_eq in H. cbn [modify] in H.
    revert H. match goal with |- ?m ?w1 = _ → _ =>
      assert (keeps (m : prog world stream_error _)) as Hk;
      [|intros H; apply (Hk _ _ _ H)] end.
    + apply preserves_if; auto with gotor. apply preserves_bind; auto with gotor.
      intros [[]|e|]; auto with gotor.
      apply preserves_bind; auto with gotor. apply keeps_on_stream; auto with gotor.
    + apply wi_on_stream; [|done]. intros s1 Hs1. rewrite Hs in Hs1. injection Hs1 as <-.
      split; [done|]. by apply si_recv.
  - destruct (deadlineChan false s0); [by injection H as <- <-|done].
  - destruct (cancelled s); [by injection H as <- <-|done].
Qed.

(** ** All the calls of the stream layer *)

Inductive call :=
| CallBegin (addr : bytes) (cells : list Relay.RelayCell) (sel : begin_case)
| CallBeginDir (cells : list Relay.RelayCell) (sel : begin_case)
| CallRead (h plen : nat) (waits : list (list Relay.RelayCell * read_case))
| CallWrite (h : nat) (p : bytes) (waits : list write_wait)
| CallClose (h : nat)
| CallDispatch (rc : Relay.RelayCell).

Definition run (k : call) : prog world stream_error unit :=
  match k with
  | CallBegin addr cells sel => _ ← Begin addr cells sel; mret tt
  | CallBeginDir cells sel => _ ← BeginDir cells sel; mret tt
  | CallRead h plen waits => _ ← Read h plen waits; mret tt
  | CallWrite h p waits => _ ← Write h p 0 waits; mret tt
  | CallClose h => Close h
  | CallDispatch rc => modify (dispatch rc)
  end.

Fixpoint run_all (ks : list call) w : option world :=
  match ks with
  | [] => Some w
  | k :: ks => match run k w with Some (_, w') => run_all ks w' | None => None end
  end.

(** C33: the stream layer's invariant.  Whatever sequence of opens, reads,
    writes, closes and inbound cells, over any carrier: every entry of the
    manager's map is a stream with that nonzero 16-bit ID, so two live
    streams never share one; every stream's permits stay within its window of
    500, its unacknowledged consumption below 50 cells, and no empty chunk is
    buffered. *)
Theorem stream_layer_invariant (ks : list call) (k : K) (w : world) :
  run_all ks (NewManager k) = Some w → world_inv w.
Proof.
  assert (world_inv (NewManager k)) as Hi.
  { constructor; simpl; [unfold id_range; lia|done|constructor]. }
  revert Hi. generalize (NewManager k). induction ks as [|c ks IH]; intros w0 Hi; simpl.
  { by intros [= <-]. }
  destruct (run c w0) as [[o w1]|] eqn:E; [|done]. apply IH.
  assert (keeps (run c)) as Hk; [|by eapply Hk].
  destruct c; simpl; unfold Begin, BeginDir;
    try (apply preserves_bind; [|intros; apply preserves_ret]);
    auto using keeps_begin, keeps_Read, keeps_Write, keeps_Close with gotor.
  apply preserves_modify. auto using wi_dispatch.
Qed.

(** ** Integrity of what an application reads *)

(** The bytes buffered for the stream [h]. *)
Definition buffered (h : nat) w : bytes :=
  match heap w !! h with Some s => mjoin (readChunks s) | None => [] end.

(** The data a cell adds to stream [h]: it is routed there, carries data, and
    the stream has not ended. *)
Definition fed (h : nat) w (rc : Relay.RelayCell) : bytes :=
  match heap w !! h with
  | Some s =>
      if bool_decide (Relay.StreamID rc ≠ 0%Z ∧ streams (mgr w) !! Relay.StreamID rc = Some h ∧
                      Relay.Cmd rc = Relay.RelayData ∧ readErr s = None)
      then Relay.Data rc else []
  | None => []
  end.

Fixpoint fed_all (h : nat) w (rcs : list Relay.RelayCell) : bytes :=
  match rcs with
  | [] => []
  | rc :: rcs => fed h w rc ++ fed_all h (dispatch rc w) rcs
  end.

Lemma buffered_on_stream h h' f w :
  (∀ s, readChunks (f s) = readChunks s) → buffered h (on_stream h' f w) = buffered h w.
Proof.
  intros Hf. unfold buffered. simpl. destruct (decide (h' = h)) as [->|].
  - rewrite list_lookup_alter_eq. destruct (heap w !! h); simpl; [by rewrite Hf|done].
  - by rewrite list_lookup_alter_ne.
Qed.

Lemma connect_chunks o s : readChunks (connect o s) = readChunks s.
Proof. unfold connect. by destruct (connectCh s). Qed.

Lemma mjoin_snoc {A} (l : list (list A)) x : mjoin (l ++ [x]) = mjoin l ++ x.
Proof. induction l as [|y l IH]; simpl; [by rewrite app_nil_r|]. by rewrite <-app_assoc, IH. Qed.

Lemma buffered_onData h h' d w :
  buffered h (on_stream h' (onData d) w) =
  buffered h w ++ match heap w !! h with
                  | Some s => if bool_decide (h' = h ∧ readErr s = None) then d else []
                  | None => []
                  end.
Proof.
  unfold buffered. simpl. destruct (decide (h' = h)) as [->|Hne].
  - rewrite list_lookup_alter_eq. destruct (heap w !! h) as [s|]; simpl; [|done].
    unfold onData. destruct (Nat.eqb_spec (length d) 0) as [Hd|Hd].
    { destruct d; [|done]. by case_match; rewrite app_nil_r. }
    destruct (readErr s); simpl.
    + rewrite bool_decide_false by naive_solver. by rewrite app_nil_r.
    + rewrite bool_decide_true by done. apply mjoin_snoc.
  - rewrite list_lookup_alter_ne by done. destruct (heap w !! h) as [s|]; [|done].
    rewrite bool_decide_false by naive_solver. by rewrite app_nil_r.
Qed.

Lemma buffered_dispatch h rc w : buffered h (dispatch rc w) = buffered h w ++ fed h w rc.
Proof.
  assert (buffered h w = buffered h w ++ []) as Hnil by (by rewrite app_nil_r).
  unfold dispatch, fed.
  case_decide as Hz.
  { destruct (heap w !! h); [|done]. rewrite bool_decide_false by naive_solver. done. }
  destruct (streams (mgr w) !! Relay.StreamID rc) as [h'|] eqn:Hm.
  2: { destruct (heap w !! h); [|done]. rewrite bool_decide_false by naive_solver. done. }
  unfold handleCell.
  case_decide as H1.
  { rewrite buffered_on_stream by apply connect_chunks. destruct (heap w !! h); [|done].
    rewrite bool_decide_false; [done|]. rewrite H1. naive_solver. }
  case_decide as H2.
  { rewrite buffered_onData. f_equal. destruct (heap w !! h) as [s|]; [|done].
    erewrite bool_decide_ext; [done|]. naive_solver. }
  replace (match heap w !! h with
           | Some s => if bool_decide _ then Relay.Data rc else []
           | None => [] end) with ([] : bytes).
  2: { destruct (heap w !! h); [|done]. rewrite bool_decide_false by naive_solver. done. }
  rewrite app_nil_r. case_decide; [|case_decide; [|done]].
  - destruct (heap w !! h') as [s|] eqn:Hs; [|done].
    change (buffered h (on_mgr ?f ?w)) with (buffered h w). apply buffered_on_stream.
    intros s0. unfold onEnd. simpl. rewrite connect_chunks. by destruct (readErr s0).
  - by apply buffered_on_stream.
Qed.

Lemma buffered_dispatch_all h rcs w :
  buffered h (dispatch_all rcs w) = buffered h w ++ fed_all h w rcs.
Proof.
  revert w. induction rcs as [|rc rcs IH]; intros w; simpl; [by rewrite app_nil_r|].
  change (foldl _ (dispatch rc w) rcs) with (dispatch_all rcs (dispatch rc w)).
  by rewrite IH, buffered_dispatch, <-app_assoc.
Qed.

(** The SENDMEs only use the carrier. *)
Lemma sendmes_heap n h w o w' :
  sendmes n h w = Some (o, w') → heap w' = heap w ∧ mgr w' = mgr w.
Proof.
  assert (∀ (m : prog K KE unit) w o w', ignore (E:=stream_error) (on_car m) w = Some (o, w') →
    heap w' = heap w ∧ mgr w' = mgr w) as Hg.
  { intros m w0 o0 w0'. unfold ignore. rewrite prog_bind_eq. unfold attempt, on_car.
    destruct (m (car w0)) as [[[[]|e|] k]|]; [..|done]; by intros [= <- <-]. }
  revert w. induction n as [|n IH]; intros w; simpl; [by intros [= <- <-]|].
  rewrite prog_bind_eq.
  destruct (sendStreamSendme h w) as [[o1 w1]|] eqn:E; [|done].
  assert (heap w1 = heap w ∧ mgr w1 = mgr w) as [H1 H2].
  { unfold sendStreamSendme in E. apply stream_at_run in E as [(_&_&->)|(s&_&E)]; [done|].
    by eapply Hg. }
  rewrite <-H1, <-H2. destruct o1 as [[]|e|]; [apply IH|by intros [= <- <-]..].
Qed.

Lemma read_ready_buffered h plen s w o w' :
  heap w !! h = Some s → read_ready h plen s w = Some (Ok o, w') →
  buffered h w = o ++ buffered h w'.
Proof.
  intros Hs. unfold read_ready, drainLocked.
  pose proof (drain_bytes plen (readChunks s) (consumedCells s)) as Hd.
  destruct (drain _ _ _) as [[[out rest] n'] sm]. destruct Hd as [Hd _].
  rewrite prog_bind_eq. cbn [modify]. rewrite prog_bind_eq.
  destruct (sendmes sm h _) as [[[[]|e|] w1]|] eqn:E; [|done..]. intros [= <- <-].
  apply sendmes_heap in E as [Hh _]. unfold buffered. rewrite Hh, Hs. simpl.
  rewrite list_lookup_alter_eq, Hs. simpl. exact Hd.
Qed.

(** Handing out what is buffered does not fail. *)
Lemma read_ready_ok h plen s w o w' : read_ready h plen s w = Some (o, w') → (∃ out, o = Ok out) ∨ o = Panic.
Proof.
  unfold read_ready, drainLocked. destruct (drain _ _ _) as [[[out rest] n'] sm].
  rewrite prog_bind_eq. cbn [modify]. rewrite prog_bind_eq.
  destruct (sendmes sm h _) as [[[[]|e'|] w1]|] eqn:E; [intros [= <- _]; by left; eexists| |intros [= <- _]; by right|done].
  exfalso. clear -E. revert E. generalize (on_stream h (λ _ : Stream, set_read rest n' s) w).
  induction sm as [|sm IH]; intros w0; simpl; [done|]. rewrite prog_bind_eq.
  destruct (sendStreamSendme h w0) as [[[[]|e2|] w2]|] eqn:E2; try done.
  + apply IH.
  + exfalso. unfold sendStreamSendme in E2. rewrite prog_bind_eq in E2. unfold stream_at in E2.
    destruct (heap w0 !! h); [|done]. unfold ignore in E2. rewrite prog_bind_eq in E2.
    unfold attempt, on_car in E2. by destruct (carrier_SendRelay _ _) as [[[[]|?|] ?]|].
Qed.

Lemma Read_now h plen w o w' :
  Read h plen [] w = Some (o, w') →
  match o with
  | Ok out => buffered h w = out ++ buffered h w'
  | Err _ => w' = w ∧ buffered h w = []
  | Panic => True
  end.
Proof.
  rewrite Read_eq. destruct (heap w !! h) as [s|] eqn:Hs; [|by intros [= <- <-]].
  destruct (readChunks s) as [|c cs] eqn:Hc.
  - destruct (readErr s); [|done]. intros [= <- <-]. split; [done|].
    unfold buffered. by rewrite Hs, Hc.
  - intros H. destruct o; [by eapply read_ready_buffered| |done]. by apply read_ready_ok in H as [[? ?]|?].
Qed.

(** The data that arrives for the stream while a [Read] waits. *)
Fixpoint arriving (h : nat) (waits : list (list Relay.RelayCell * read_case)) w : bytes :=
  match heap w !! h, waits with
  | Some s, (cells, sel) :: waits =>
      match readChunks s, readErr s with
      | [], None =>
          let w1 := dispatch_all cells w in
          fed_all h w cells ++
          match sel with
          | ReadSig => arriving h waits (on_stream h (set_readSig false) w1)
          | ReadCtx => match readChunks <$> heap w1 !! h with Some (_ :: _) => arriving h waits w1 | _ => [] end
          | ReadTimeout => []
          end
      | _, _ => []
      end
  | _, _ => []
  end.

(** What a [Read] may report: the end of the stream, when nothing is left, or a
    timeout. *)
Definition read_error (h : nat) (e : stream_error) w : Prop :=
  match e with
  | Ended _ => buffered h w = []
  | Timeout => True
  | _ => False
  end.

Lemma Read_result h plen waits w o w' : Read h plen waits w = Some (o, w') →
  match o with
  | Ok out => buffered h w ++ arriving h waits w = out ++ buffered h w'
  | Err e => buffered h w ++ arriving h waits w = buffered h w' ∧ read_error h e w'
  | Panic => True
  end.
Proof.
  revert w. induction waits as [|[cells sel] waits IH]; intros w H.
  { replace (arriving h [] w) with (@nil byte) by (cbn; by destruct (heap w !! h)). rewrite app_nil_r.
    pose proof H as Hn. apply Read_now in Hn. destruct o as [out|e|]; [done| |done]. destruct Hn as [-> Hb]. split; [done|].
    rewrite Read_eq in H. destruct (heap w !! h) as [s|]; [|done]. destruct (readChunks s); [|by apply read_ready_ok in H as [[? ?]|?]].
    destruct (readErr s); [|done]. by injection H as <-. }
  rewrite Read_eq in H. cbn [arriving]. destruct (heap w !! h) as [s|] eqn:Hs; [|by injection H as <- _].
  destruct (readChunks s) as [|c cs] eqn:Hc.
  2: { destruct o as [out|e|]; [|by apply read_ready_ok in H as [[? ?]|?]|done]. rewrite app_nil_r. by eapply read_ready_buffered. }
  assert (buffered h w = []) as Hb by (unfold buffered; by rewrite Hs, Hc).
  destruct (readErr s) as [er|].
  { injection H as <- <-. by rewrite app_nil_r. }
  unfold read_wait in H. rewrite prog_bind_eq in H. cbn [modify] in H. cbv zeta. set (w1 := dispatch_all cells w) in *.
  pose proof (buffered_dispatch_all h cells w) as Hd. fold w1 in Hd.
  rewrite prog_bind_eq in H. unfold stream_at in H. destruct (heap w1 !! h) as [s'|] eqn:Hs'; [|by injection H as <- _].
  rewrite app_assoc, <-Hd. destruct sel.
  - destruct (readSig s'); [|done]. rewrite prog_bind_eq in H. cbn [modify] in H. apply IH in H.
    by rewrite buffered_on_stream in H.
  - destruct (deadlineChan true s); [|done]. injection H as <- <-. by rewrite app_nil_r.
  - destruct (cancelled s'); [|done]. cbn [fmap option_fmap option_map]. destruct (readChunks s') as [|c' cs'] eqn:Hc'; [|by apply IH].
    injection H as <- <-. rewrite app_nil_r. split; [done|]. cbn. unfold buffered. by rewrite Hs', Hc'.
Qed.

(** An application reading while cells arrive: before each [Read] some cells are
    dispatched, and more while it waits.  The result lists what was read, the
    data that arrived for the stream, and the errors with the state they were
    reported in; a [Read] that does not return with these waits is left out. *)
Fixpoint session (h : nat) (evs : list (list Relay.RelayCell * nat * list (list Relay.RelayCell * read_case))) w
    : list bytes * bytes * list (stream_error * world) * world :=
  match evs with
  | [] => ([], [], [], w)
  | (cells, plen, waits) :: evs =>
      let new := fed_all h w cells in
      let w := dispatch_all cells w in
      match Read h plen waits w with
      | Some (Ok out, w') =>
          let '(outs, news, errs, w'') := session h evs w' in (out :: outs, new ++ arriving h waits w ++ news, errs, w'')
      | Some (Err e, w') =>
          let '(outs, news, errs, w'') := session h evs w' in (outs, new ++ arriving h waits w ++ news, (e, w') :: errs, w'')
      | Some (Panic, w') => ([], new, [], w)
      | None => let '(outs, news, errs, w') := session h evs w in (outs, new ++ news, errs, w')
      end
  end.


(** ** Writing *)

(** The ID of the stream [h]; no update changes it. *)
Definition stream_id (h : nat) w : option Z := option_map id (heap w !! h).

Lemma stream_id_on_stream h h' f w :
  (∀ s, id (f s) = id s) → stream_id h (on_stream h' f w) = stream_id h w.
Proof.
  intros Hf. unfold stream_id. simpl. destruct (decide (h' = h)) as [->|].
  - rewrite list_lookup_alter_eq. destruct (heap w !! h); simpl; [by rewrite Hf|done].
  - by rewrite list_lookup_alter_ne.
Qed.

Lemma dispatch_frame h rc w :
  stream_id h (dispatch rc w) = stream_id h w ∧ car (dispatch rc w) = car w.
Proof.
  unfold dispatch. case_decide; [done|]. destruct (streams (mgr w) !! _) as [h'|]; [|done].
  unfold handleCell. repeat case_decide; try done;
    try (split; [by apply stream_id_on_stream; intros; auto using connect_id, onData_id|done]).
  destruct (heap w !! h'); [|done]. split; [|done].
  change (stream_id h (on_mgr ?f ?w)) with (stream_id h w).
  apply stream_id_on_stream. intros. apply onEnd_id.
Qed.

Lemma dispatch_all_frame h rcs w :
  stream_id h (dispatch_all rcs w) = stream_id h w ∧ car (dispatch_all rcs w) = car w.
Proof.
  revert w. induction rcs as [|rc rcs IH]; intros w; simpl; [done|].
  destruct (IH (dispatch rc w)) as [-> ->]. apply dispatch_frame.
Qed.
End Facts.

Section DataSent.
Context `{HC : Carrier K KE}.
Notation world := (world (K:=K)).
Notation stream_error := (stream_error (KE:=KE)).

(** Successive [SendData] calls for one stream, the chunks taken, and whether
    all of them succeeded: a failed call is the last one. *)
Inductive data_sent (sid : Z) : K → list bytes → K → bool → Prop :=
| sent_none k : data_sent sid k [] k true
| sent_failed sel d k e k' : carrier_SendData sel sid d k = Some (Err e, k') → data_sent sid k [] k' false
| sent_chunk sel d k k1 ds k' ok : carrier_SendData sel sid d k = Some (Ok tt, k1) →
    data_sent sid k1 ds k' ok → data_sent sid k (d :: ds) k' ok.

Lemma chunk_take (p : bytes) :
  (if Relay.RelayDataLen <? length p then take Relay.RelayDataLen p else p)
  = take Relay.RelayDataLen p.
Proof.
  destruct (Nat.ltb_spec Relay.RelayDataLen (length p)); [done|]. by rewrite take_ge.
Qed.

(** What one call of [Write] from byte [total] on has done. *)
Definition written (k k' : K) (sid : Z) (p : bytes) (total n : nat) (err : option stream_error) : Prop :=
  ∃ chunks ok, data_sent sid k chunks k' ok ∧
    total ≤ n ∧ mjoin chunks = take (n - total) p ∧
    Forall (λ d, 0 < length d ≤ Relay.RelayDataLen) chunks ∧
    (err = None → n = total + length p ∧ ok = true) ∧ n ≤ total + length p.

Lemma written_none k k' sid p total err ok :
  data_sent sid k [] k' ok → (err = None → p = [] ∧ ok = true) → written k k' sid p total total err.
Proof.
  intros Hl He. exists [], ok. simpl. rewrite Nat.sub_diag. split_and!; try done; try lia.
  intros Hn. destruct (He Hn) as [-> ->]. simpl. split; [lia|done].
Qed.

Lemma written_step sel k k1 k' sid p total n err :
  p ≠ [] →
  carrier_SendData sel sid (take Relay.RelayDataLen p) k = Some (Ok tt, k1) →
  written k1 k' sid (drop (length (take Relay.RelayDataLen p)) p)
    (total + length (take Relay.RelayDataLen p)) n err →
  written k k' sid p total n err.
Proof.
  intros Hp Hl (chunks&ok&H1&H2&H3&H4&H5&H6).
  set (c := take Relay.RelayDataLen p) in *.
  assert (0 < length c ≤ Relay.RelayDataLen ∧ length c ≤ length p) as (Hc1&Hc2).
  { subst c. rewrite length_take. destruct p; [done|]. simpl length.
    assert (0 < Relay.RelayDataLen) by (unfold Relay.RelayDataLen, PayloadLen, Relay.RelayHeaderLen; lia).
    lia. }
  rewrite length_drop in H5, H6.
  exists (c :: chunks), ok. rewrite mjoin_cons, H3. split_and!.
  - by eapply sent_chunk.
  - lia.
  - assert (p = c ++ drop (length c) p) as Hpc.
    { subst c. rewrite length_take. destruct (Nat.le_ge_cases Relay.RelayDataLen (length p)).
      - rewrite Nat.min_l by done. by rewrite take_drop.
      - rewrite Nat.min_r by done. by rewrite drop_all, app_nil_r, take_ge. }
    rewrite Hpc at 2. rewrite take_app_ge by lia. f_equal. f_equal. lia.
  - by constructor.
  - intros He. destruct (H5 He). split; [lia|done].
  - lia.
Qed.

Lemma Write_written h p total waits w o n err w' sid :
  stream_id h w = Some sid →
  Write h p total waits w = Some (o, w') → o = Ok (n, err) → written (car w) (car w') sid p total n err.
Proof.
  revert p total w. induction waits as [|a waits IH]; intros [|x p] total w Hid H ->;
    cbn [Write] in H; try (injection H as <- <- <-; by apply (written_none _ _ _ _ _ _ true); [apply sent_none|]); try done.
  rewrite chunk_take in H. set (P := x :: p) in *. set (c := take Relay.RelayDataLen P) in *.
  apply stream_at_run in H as [(_&?&_)|(s0&Hs0&H)]; [done|].
  rewrite prog_bind_eq in H. cbn [modify] in H.
  destruct (dispatch_all_frame h (w_cells a) w) as [Fi Fc].
  set (w1 := dispatch_all (w_cells a) w) in *.
  apply stream_at_run in H as [(_&?&_)|(s&Hs&H)]; [done|].
  assert (id s = sid) as Hsid.
  { rewrite Hid in Fi. unfold stream_id in Fi. rewrite Hs in Fi. by injection Fi. }
  assert (∀ e, written (car w) (car w1) sid P total total (Some e)) as Hstop.
  { intros e. apply (written_none _ _ _ _ _ _ true); [rewrite Fc; apply sent_none|done]. }
  destruct (w_case a).
  - destruct (Tokens.recv (pkgTokens s)) as [t|]; [|done].
    rewrite prog_bind_eq in H. cbn [modify] in H. set (w2 := on_stream h (set_tokens t) w1) in *.
    assert (stream_id h w2 = Some sid) as Hid2.
    { unfold w2. rewrite stream_id_on_stream by done. congruence. }
    destruct (negb _); [done|]. rewrite prog_bind_eq in H. unfold attempt, on_car in H.
    destruct (carrier_SendData (w_data a) (id s) c (car w2)) as [[r k]|] eqn:E; [|done].
    change (car w2) with (car w1) in E. rewrite Fc, Hsid in E.
    destruct r as [[]|e|]; [| |done].
    + eapply written_step; [done|exact E|].
      exact (IH (drop (length c) P) (total + length c) (mkWorld (mgr w2) (heap w2) k) Hid2 H eq_refl).
    + rewrite prog_bind_eq in H. cbn [modify] in H. injection H as <- <- <-.
      eapply (written_none _ _ _ _ _ _ false); [by eapply sent_failed|done].
  - destruct (deadlineChan false s0); [|done]. injection H as <- <- <-. apply Hstop.
  - destruct (cancelled s); [|done]. injection H as <- <- <-. apply Hstop.
Qed.
End DataSent.

(** A carrier that remembers the data it was given: what [SendData] promises
    to the stream layer. *)
Class CarrierLog (K KE : Type) `{Carrier K KE} := {
  data_log : K → list (Z * bytes);
  log_SendData : ∀ sel sid d k o k', carrier_SendData sel sid d k = Some (o, k') →
    data_log k' = match o with Ok _ => data_log k ++ [(sid, d)] | _ => data_log k end
}.

Section WriteFacts.
Context `{HC : Carrier K KE} `{HL : !CarrierLog K KE}.
Notation world := (world (K:=K)).
Notation stream_error := (stream_error (KE:=KE)).

Lemma data_sent_log sid k chunks k' ok : data_sent sid k chunks k' ok →
  data_log k' = data_log k ++ map (λ d, (sid, d)) chunks.
Proof.
  induction 1 as [k|sel d k e k' H|sel d k k1 ds k' ok H _ IH]; [by rewrite app_nil_r|..];
    apply log_SendData in H; [by rewrite app_nil_r|]. by rewrite IH, H, <-app_assoc.
Qed.

(** Writing.  [Write] hands the circuit nonempty chunks of at most 498
    bytes, addressed to its own stream, whose concatenation is exactly the
    first [n] bytes of the buffer, where [n] is the count it returns; the
    count is the whole buffer whenever the error is nil, whatever arrives and
    whichever of its selects time out or fail. *)
Theorem Write_exact (h : nat) (p : bytes) (waits : list write_wait) (w w' : world)
    (n : nat) (err : option stream_error) (sid : Z) :
  stream_id h w = Some sid → Write h p 0 waits w = Some (Ok (n, err), w') →
  ∃ chunks, data_log (car w') = data_log (car w) ++ map (λ d, (sid, d)) chunks ∧
    mjoin chunks = take n p ∧ Forall (λ d, 0 < length d ≤ 498) chunks ∧
    n ≤ length p ∧ (err = None → n = length p).
Proof.
  intros Hid H. destruct (Write_written _ _ _ _ _ _ _ _ _ _ Hid H eq_refl)
    as (chunks&ok&H1%data_sent_log&_&H3&H4&H5&H6).
  rewrite Nat.sub_0_r in H3. exists chunks. split_and!; [done..|]. intros He. by apply H5.
Qed.
End WriteFacts.

(** ** Closing a stream whose ID was handed out again *)
Section Reuse.
Context `{HC : Carrier K KE}.
Notation world := (world (K:=K)).

(** An ended stream leaves the manager's map ([onEnd]), so its ID can be
    allocated to another stream while the application still holds the old
    handle.  Closing the old handle then removes the new stream's entry:
    every later cell for that ID is dropped. *)
Theorem Close_evicts_reused_id (h h' : nat) (w w' : world) (s : Stream) :
  heap w !! h = Some s → closedOnce s = false →
  streams (mgr w) !! id s = Some h' → h' ≠ h →
  Close (KE:=KE) h w = Some (Ok tt, w') →
  streams (mgr w') !! id s = None ∧
  ∀ rc, Relay.StreamID rc = id s → dispatch rc w' = w'.
Proof.
  intros Hs Ho Hm Hne H. unfold Close in H.
  apply stream_at_run in H as [(Hx&_)|(s1&Hs1&H)]; [congruence|].
  rewrite Hs in Hs1. injection Hs1 as <-. rewrite Ho in H.
  rewrite prog_bind_eq in H. cbn [modify] in H. rewrite prog_bind_eq in H.
  destruct (ignore _ _) as [[[[]|e|] w1]|]; [|done..].
  rewrite prog_bind_eq in H. cbn [modify] in H. injection H as <-.
  assert (streams (mgr (on_mgr (remove (id s)) w1)) !! id s = None) as Hd
    by apply lookup_delete_eq.
  split; [exact Hd|]. intros rc Hrc. unfold dispatch. case_decide; [done|].
  rewrite Hrc. by setoid_rewrite Hd.
Qed.
End Reuse.
