(* ===== verification/StreamExamples.v ===== *)
(** * Concrete runs of the stream layer over a logging carrier. *)

From S2P Require Import Prelude ByteUtil Cell Circuit Stream StreamFacts StreamCalls.
Import Stream.

(** A carrier that records the relay cells and the data it is given, and
    refuses data once [budget] chunks were taken. *)
Record log_carrier := mkLog { relay_log : list Relay.RelayCell; log_of : list (Z * bytes); budget : nat }.

#[export] Instance ex_carrier : Carrier log_carrier unit := {|
  carrier_SendRelay rc k :=
    Some (Ok tt, mkLog (relay_log k ++ [rc]) (log_of k) (budget k));
  carrier_SendData sel sid d k :=
    match budget k with
    | O => Some (Err tt, k)
    | S b => Some (Ok tt, mkLog (relay_log k) (log_of k ++ [(sid, d)]) b)
    end;
  carrier_deadline _ := false
|}.

#[export] Instance ex_carrier_log : CarrierLog log_carrier unit.
Proof.
  refine {| data_log := log_of |}. intros sel sid d k o k'. simpl.
  destruct (budget k); by intros [= <- <-].
Defined.

Notation ex_world := (world (K:=log_carrier)).

Definition connected (sid : Z) : Relay.RelayCell := relay_cell Relay.RelayConnected sid [].
Definition data (sid : Z) (d : bytes) : Relay.RelayCell := relay_cell Relay.RelayData sid d.
Definition done_end (sid : Z) : Relay.RelayCell := relay_cell Relay.RelayEnd sid [endReasonDone].

(** Two streams opened over a circuit that takes three data cells. *)
Definition ex_world0 : ex_world := NewManager (mkLog [] [] 3).
Definition ex_opened : option ex_world :=
  run_all [CallBegin (go"example.org:80") [connected 1] Connected;
           CallBegin (go"example.net:80") [connected 2] Connected] ex_world0.

Lemma stream_layer_invariant_witness :
  match ex_opened with Some w => world_inv w | None => False end.
Proof.
  destruct ex_opened as [w|] eqn:E; [|vm_compute in E; discriminate].
  exact (stream_layer_invariant _ _ _ E).
Defined.

Lemma drainLocked_witness :
  let s := set_read [go"abc"; go"defg"] 49 (newStream 1 {| Tokens.cap := 500; Tokens.avail := 500 |}) in
  mjoin (readChunks s) = go"abcde" ++ go"fg" ∧
  49 + (2 - 1) = 0 + 50 * 1.
Proof.
  intros s. assert (consumedCells s < streamWindowIncrement) as H1 by (vm_compute; lia).
  assert (Forall (λ c, c ≠ []) (readChunks s)) as H2 by (repeat constructor; discriminate).
  pose proof (drainLocked_spec 5 s H1 H2) as H.
  destruct (drainLocked 5 s) as [[out n] s'] eqn:E. vm_compute in E. injection E as <- <- <-.
  destruct H as (Ha&_&_&_&Hb&_). split; [exact Ha|exact Hb].
Defined.

(** 600 bytes go out as two cells. *)
Lemma Write_exact_witness :
  match ex_opened with
  | Some w =>
      match Write (KE:=unit) 0 (zeros 600) 0 [mkWait [] WriteToken Ready; mkWait [] WriteToken Ready] w with
      | Some (Ok (n, err), w') =>
          ∃ chunks, log_of (car w') = log_of (car w) ++ map (λ d, (1%Z, d)) chunks ∧
            mjoin chunks = take n (zeros 600)
      | _ => False
      end
  | None => False
  end.
Proof.
  destruct ex_opened as [w|] eqn:E; [|vm_compute in E; discriminate].
  assert (stream_id 0 w = Some 1%Z) as Hid.
  { vm_compute in E. injection E as <-. reflexivity. }
  destruct (Write 0 _ _ _ w) as [[[[n err]|e|] w']|] eqn:Ew.
  - destruct (Write_exact _ _ _ _ _ _ _ _ Hid Ew) as (chunks&H1&H2&_).
    exists chunks. split; [exact H1|exact H2].
  - vm_compute in E. injection E as <-. vm_compute in Ew. discriminate.
  - vm_compute in E. injection E as <-. vm_compute in Ew. discriminate.
  - vm_compute in E. injection E as <-. vm_compute in Ew. discriminate.
Defined.

(** The counter has come round: stream 0 ended and its ID 1 was given to a
    new stream; closing the old handle silences the new stream. *)
Definition ex_reused : option ex_world :=
  match run_all [CallBegin (go"example.org:80") [connected 1; done_end 1] Connected] ex_world0 with
  | Some w =>
      run_all [CallBegin (go"example.net:80") [connected 1] Connected]
        (mkWorld (mkManager (streams (mgr w)) 1) (heap w) (car w))
  | None => None
  end.

Lemma Close_evicts_reused_id_witness :
  match ex_reused with
  | Some w =>
      match Close (KE:=unit) 0 w with
      | Some (Ok _, w') => streams (mgr w') !! 1%Z = None
      | _ => False
      end
  | None => False
  end.
Proof.
  destruct ex_reused as [w|] eqn:E; [|vm_compute in E; discriminate].
  destruct (heap w !! 0) as [s|] eqn:Hs; [|vm_compute in E; injection E as <-; discriminate].
  assert (closedOnce s = false ∧ streams (mgr w) !! id s = Some 1 ∧ id s = 1%Z) as (H1&H2&H3).
  { vm_compute in E. injection E as <-. vm_compute in Hs. injection Hs as <-. by vm_compute. }
  destruct (Close 0 w) as [[[[]|e|] w']|] eqn:Ec.
  - pose proof (proj1 (Close_evicts_reused_id 0 1 w w' s Hs H1 H2 ltac:(discriminate) Ec)) as Hn.
    rewrite H3 in Hn. exact Hn.
  - vm_compute in E. injection E as <-. vm_compute in Ec. discriminate.
  - vm_compute in E. injection E as <-. vm_compute in Ec. discriminate.
  - vm_compute in E. injection E as <-. vm_compute in Ec. discriminate.
Defined.
