(* ===== verification/Names.v ===== *)
(** * The names under which cells and stream errors are reported.

    The [String] methods of pkg/cell and the error texts of pkg/stream. *)

From S2P Require Import Prelude ByteUtil Cell GoNet Circuit Stream.

(** [Command.String]. *)
Definition command_names : list (byte * bytes) :=
  [(CmdPadding, go"PADDING"); (CmdCreate, go"CREATE"); (CmdCreated, go"CREATED"); (CmdRelay, go"RELAY");
   (CmdDestroy, go"DESTROY"); (CmdCreateFast, go"CREATE_FAST"); (CmdCreatedFast, go"CREATED_FAST");
   (CmdVersions, go"VERSIONS"); (CmdNetinfo, go"NETINFO"); (CmdRelayEarly, go"RELAY_EARLY"); (CmdCreate2, go"CREATE2");
   (CmdCreated2, go"CREATED2"); (CmdPaddingNegotiate, go"PADDING_NEGOTIATE"); (CmdVPadding, go"VPADDING");
   (CmdCerts, go"CERTS"); (CmdAuthChallenge, go"AUTH_CHALLENGE"); (CmdAuthenticate, go"AUTHENTICATE");
   (CmdAuthorize, go"AUTHORIZE")].
(** A [switch] on the byte. *)
Definition switch (table : list (byte * bytes)) (b : byte) : option bytes :=
  snd <$> find (λ x, bool_decide (x.1 = b)) table.
Definition Command_String (c : byte) : bytes :=
  match switch command_names c with Some n => n | None => go"CMD(" ++ Itoa (bval c) ++ go")" end.

(** [RelayCommand.String]: the unnamed commands share one text. *)
Definition relay_names : list (byte * bytes) :=
  [(Relay.RelayBegin, go"BEGIN"); (Relay.RelayData, go"DATA"); (Relay.RelayEnd, go"END");
   (Relay.RelayConnected, go"CONNECTED"); (Relay.RelaySendme, go"SENDME"); (Relay.RelayExtend2, go"EXTEND2");
   (Relay.RelayExtended2, go"EXTENDED2"); (Relay.RelayTruncated, go"TRUNCATED"); (Relay.RelayBeginDir, go"BEGIN_DIR");
   (Relay.RelayEstablishRendezvous, go"ESTABLISH_RENDEZVOUS"); (Relay.RelayIntroduce1, go"INTRODUCE1");
   (Relay.RelayRendezvous1, go"RENDEZVOUS1"); (Relay.RelayRendezvous2, go"RENDEZVOUS2");
   (Relay.RelayIntroEstablished, go"INTRO_ESTABLISHED"); (Relay.RelayRendezvousEstablished, go"RENDEZVOUS_ESTABLISHED");
   (Relay.RelayIntroduceAck, go"INTRODUCE_ACK")].
Definition RelayCommand_String (c : byte) : bytes := default go"RELAY_CMD" (switch relay_names c).

(** [endReasonString] and [EndError.Error]; the reasons not used by the stream
    code itself are named here. *)
Definition endReasonResolveFailed : byte := x02.
Definition endReasonConnectRefused : byte := x03.
Definition endReasonExitPolicy : byte := x04.
Definition endReasonDestroy : byte := x05.
Definition endReasonTimeout : byte := x07.
Definition endReasonConnReset : byte := x0b.
Definition reason_names : list (byte * bytes) :=
  [(Stream.endReasonMisc, go"misc"); (endReasonResolveFailed, go"resolve failed");
   (endReasonConnectRefused, go"connection refused"); (endReasonExitPolicy, go"exit policy");
   (endReasonDestroy, go"destroyed"); (Stream.endReasonDone, go"done"); (endReasonTimeout, go"timeout");
   (endReasonConnReset, go"connection reset")].
Definition endReasonString (r : byte) : bytes := default go"unknown" (switch reason_names r).
Definition EndError_Error (r : byte) : bytes :=
  go"stream: closed by exit (reason " ++ Itoa (bval r) ++ go": " ++ endReasonString r ++ go")".

(** All bytes. *)
Definition all_bytes : list byte := map (λ n, to_byte (Z.of_nat n)) (seq 0 256).

Lemma all_bytes_complete b : b ∈ all_bytes.
Proof.
  apply list_elem_of_fmap. exists (Z.to_nat (bval b)). pose proof (bval_range b). split.
  - rewrite Z2Nat.id by lia. symmetry. apply to_byte_bval.
  - apply elem_of_seq. lia.
Qed.

(** A text that differs on any two bytes. *)
Lemma distinct_texts (f : byte → bytes) : NoDup (map f all_bytes) → Inj (=) (=) f.
Proof.
  intros H x y E. destruct (list_elem_of_lookup_1 _ _ (all_bytes_complete x)) as [i Hi].
  destruct (list_elem_of_lookup_1 _ _ (all_bytes_complete y)) as [j Hj].
  assert (i = j) as ->; [|congruence]. eapply (NoDup_lookup _ i j (f x) H); rewrite list_lookup_fmap; [by rewrite Hi|by rewrite Hj, E].
Qed.

(** Two different link commands, and two different reasons a stream ended for,
    are never reported alike. *)
Theorem reports_distinct : Inj (=) (=) Command_String ∧ Inj (=) (=) EndError_Error.
Proof. split; apply distinct_texts, (bool_decide_unpack _); vm_compute; exact I. Qed.
