(* ===== verification/Cert.v ===== *)
(** * [pkg/channel/cert.go]: the relay's link certificates.

    The CERTS cell, Tor's ed25519 certificates and the chain from the relay's
    identity key to its TLS certificate.  The theorems say what acceptance
    means in terms of the bytes received, and that an honestly issued chain is
    accepted.  Times are nanoseconds since the Unix epoch. *)

From S2P Require Import Prelude ByteUtil TorCrypto.

Module Cert.

Definition certTypeEd25519SigningCert : byte := x04.
Definition certTypeEd25519LinkCert : byte := x05.
Definition edCertVersion : byte := x01.
Definition edCertExtSignedWithKey : byte := x04.
Definition edCertSignatureLen : nat := 64.
Definition ed25519PublicKeyLen : nat := 32.
Definition edCertMinLen : nat := 1 + 1 + 4 + 1 + 32 + 1 + 64.
Definition edCertInnerTypeSigning : byte := x04.
Definition edCertInnerTypeLinkAuth : byte := x05.
Definition edCertKeyTypeEd25519 : byte := x01.

Record edExtension := mkExt { typ : byte; flags : byte; data : bytes }.

Record ed25519Cert := mkCert {
  certType : byte;
  expiration : Z;
  keyType : byte;
  certifiedKey : bytes;
  extensions : list edExtension;
  signature : bytes;
  signed : bytes
}.

Inductive cert_error :=
| BadCert
| BadCertVersion
| CertExpired
| BadCertSignature
| TruncatedCERTS
| MalformedCERTS
| MissingSigningCert
| MissingLinkCert
| SigningCertErr (e : cert_error)
| WrongSigningType
| WrongSigningKeyType
| MissingIdentityKey
| LinkCertErr (e : cert_error)
| WrongLinkType
| TLSMismatch.

(** [append([]byte(nil), b...)]: a copy; nil stays empty. *)
Definition copied (o : option bytes) : bytes := match o with Some b => b | None => [] end.

(** [for range nExt]: the extensions in order. *)
Fixpoint read_exts (n : nat) (r : Reader.Reader) : list edExtension * Reader.Reader :=
  match n with
  | O => ([], r)
  | S n =>
      let '(extLen, r) := Reader.U16 r in
      let '(t, r) := Reader.Byte r in
      let '(f, r) := Reader.Byte r in
      let '(d, r) := Reader.Bytes r extLen in
      let '(exts, r) := read_exts n r in
      ({| typ := t; flags := f; data := copied d |} :: exts, r)
  end.

Definition parseEd25519Cert (b : bytes) : outcome cert_error ed25519Cert :=
  if length b <? edCertMinLen then Err BadCert
  else
    let r := Reader.NewReader b in
    let '(version, r) := Reader.Byte r in
    if negb (bool_decide (version = edCertVersion)) then Err BadCertVersion
    else
      let '(ctype, r) := Reader.Byte r in
      let '(exp, r) := Reader.U32 r in
      let '(ktype, r) := Reader.Byte r in
      let '(key, r) := Reader.Bytes r (Z.of_nat ed25519PublicKeyLen) in
      let '(nExt, r) := Reader.Byte r in
      let '(exts, r) := read_exts (Z.to_nat (bval nExt)) r in
      let '(sig, r) := Reader.Bytes r (Z.of_nat edCertSignatureLen) in
      if (Reader.Err r || negb (Reader.Remaining r =? 0)%Z)%bool then Err BadCert
      else
        body ← slice b 0 (length b - edCertSignatureLen);
        Ok {| certType := ctype; expiration := exp; keyType := ktype;
              certifiedKey := copied key; extensions := exts; signature := copied sig;
              signed := body |}.

(** [signerKey]: the first matching extension. *)
Fixpoint find_signer (exts : list edExtension) : option bytes :=
  match exts with
  | [] => None
  | e :: exts =>
      if (bool_decide (typ e = edCertExtSignedWithKey) &&
          (length (data e) =? ed25519PublicKeyLen))%bool
      then Some (data e) else find_signer exts
  end.
Definition signerKey (c : ed25519Cert) : option bytes := find_signer (extensions c).

(** Nanoseconds of [time.Unix(hours*3600, 0)]. *)
Definition expiry (c : ed25519Cert) : Z := (expiration c * 3600 * 1000000000)%Z.

Section Verify.
Context `{C : Crypto}.

Definition verify (c : ed25519Cert) (pub : bytes) (now : Z) : outcome cert_error unit :=
  if negb (length pub =? ed25519PublicKeyLen) then Err BadCert
  else if (expiry c <? now)%Z then Err CertExpired
  else if negb (ed25519_verify pub (signed c) (signature c)) then Err BadCertSignature
  else Ok tt.

(** [parseCertsCell]: a later certificate of the same type replaces an
    earlier one. *)
Fixpoint read_certs (n : nat) (r : Reader.Reader) (out : gmap byte bytes)
    : outcome cert_error (gmap byte bytes * Reader.Reader) :=
  match n with
  | O => Ok (out, r)
  | S n =>
      let '(ctype, r) := Reader.Byte r in
      let '(clen, r) := Reader.U16 r in
      let '(body, r) := Reader.Bytes r clen in
      if Reader.Err r then Err TruncatedCERTS
      else read_certs n r (<[ctype := copied body]> out)
  end.

Definition parseCertsCell (payload : bytes) : outcome cert_error (gmap byte bytes) :=
  let r := Reader.NewReader payload in
  let '(n, r) := Reader.Byte r in
  '(out, r) ← read_certs (Z.to_nat (bval n)) r ∅;
  if Reader.Err r then Err MalformedCERTS else Ok out.

(** [verifyCerts]. *)
Definition verifyCerts (payload tlsCertDER : bytes) (now : Z) : outcome cert_error bytes :=
  certs ← parseCertsCell payload;
  match certs !! certTypeEd25519SigningCert with
  | None => Err MissingSigningCert
  | Some signingRaw =>
      match certs !! certTypeEd25519LinkCert with
      | None => Err MissingLinkCert
      | Some linkRaw =>
          signingCert ← map_err SigningCertErr (parseEd25519Cert signingRaw);
          if negb (bool_decide (certType signingCert = edCertInnerTypeSigning))
          then Err WrongSigningType
          else if negb (bool_decide (keyType signingCert = edCertKeyTypeEd25519))
          then Err WrongSigningKeyType
          else
            match signerKey signingCert with
            | None => Err MissingIdentityKey
            | Some identityKey =>
                _ ← map_err SigningCertErr (verify signingCert identityKey now);
                let signingKey := certifiedKey signingCert in
                linkCert ← map_err LinkCertErr (parseEd25519Cert linkRaw);
                if negb (bool_decide (certType linkCert = edCertInnerTypeLinkAuth))
                then Err WrongLinkType
                else
                  _ ← map_err LinkCertErr (verify linkCert signingKey now);
                  let wantDigest := sha256 tlsCertDER in
                  if (negb (length (certifiedKey linkCert) =? 32) ||
                      negb (bool_decide (certifiedKey linkCert = wantDigest)))%bool
                  then Err TLSMismatch
                  else Ok identityKey
            end
      end
  end.
End Verify.

(** ** What a parsed certificate says about its bytes *)

(** The serialized form of an extension list and of a certificate. *)
Definition ext_wire (e : edExtension) : bytes :=
  be_encode 2 (Z.of_nat (length (data e))) ++ [typ e; flags e] ++ data e.
Definition body_wire (c : ed25519Cert) : bytes :=
  [edCertVersion; certType c] ++ be_encode 4 (expiration c) ++ [keyType c] ++
  certifiedKey c ++ [to_byte (Z.of_nat (length (extensions c)))] ++
  mjoin (map ext_wire (extensions c)).

(** *** Reads that did not fail *)

Lemma Byte_live r :
  Reader.wf r → Reader.err (Reader.Byte r).2 = false →
  ∃ s, Reader.view r = Some ((Reader.Byte r).1 :: s) ∧ Reader.view (Reader.Byte r).2 = Some s ∧
       Reader.wf (Reader.Byte r).2 ∧ Reader.err r = false.
Proof.
  intros Hw. rewrite Reader.Byte_fixed. cbn [fst snd]. intros He.
  destruct (Reader.fixed_live 1 r Hw He) as (s&H1&H2&H3&H4&H5). exists s.
  destruct (Reader.fixed 1 r).1 as [|x [|]]; [done| |done]. done.
Qed.

Lemma U16_live r :
  Reader.wf r → Reader.err (Reader.U16 r).2 = false →
  ∃ s, Reader.view r = Some (be_encode 2 (Reader.U16 r).1 ++ s) ∧
       Reader.view (Reader.U16 r).2 = Some s ∧ Reader.wf (Reader.U16 r).2 ∧
       (0 ≤ (Reader.U16 r).1 < 65536)%Z ∧ Reader.err r = false.
Proof.
  intros Hw. rewrite Reader.U16_fixed. cbn [fst snd]. intros He.
  destruct (Reader.fixed_live 2 r Hw He) as (s&H1&H2&H3&H4&H5). exists s.
  pose proof (be_encode_decode (Reader.fixed 2 r).1) as Hd. rewrite H3 in Hd. rewrite Hd.
  pose proof (be_decode_range (Reader.fixed 2 r).1) as Hr. rewrite H3 in Hr. done.
Qed.

Lemma U32_live r :
  Reader.wf r → Reader.err (Reader.U32 r).2 = false →
  ∃ s, Reader.view r = Some (be_encode 4 (Reader.U32 r).1 ++ s) ∧
       Reader.view (Reader.U32 r).2 = Some s ∧ Reader.wf (Reader.U32 r).2 ∧
       (0 ≤ (Reader.U32 r).1 < 2 ^ 32)%Z ∧ Reader.err r = false.
Proof.
  intros Hw. rewrite Reader.U32_fixed. cbn [fst snd]. intros He.
  destruct (Reader.fixed_live 4 r Hw He) as (s&H1&H2&H3&H4&H5). exists s.
  pose proof (be_encode_decode (Reader.fixed 4 r).1) as Hd. rewrite H3 in Hd. rewrite Hd.
  pose proof (be_decode_range (Reader.fixed 4 r).1) as Hr. rewrite H3 in Hr. done.
Qed.

Lemma Byte_wf r : Reader.wf r → Reader.wf (Reader.Byte r).2.
Proof. intros. rewrite Reader.Byte_fixed. by apply Reader.fixed_wf. Qed.
Lemma U16_wf r : Reader.wf r → Reader.wf (Reader.U16 r).2.
Proof. intros. rewrite Reader.U16_fixed. by apply Reader.fixed_wf. Qed.
Lemma U32_wf r : Reader.wf r → Reader.wf (Reader.U32 r).2.
Proof. intros. rewrite Reader.U32_fixed. by apply Reader.fixed_wf. Qed.

Definition ext_ok (e : edExtension) : Prop := (Z.of_nat (length (data e)) < 65536)%Z.

Lemma read_exts_live n r :
  Reader.wf r → Reader.err (read_exts n r).2 = false →
  ∃ s, Reader.view r = Some (mjoin (map ext_wire (read_exts n r).1) ++ s) ∧
       Reader.view (read_exts n r).2 = Some s ∧ Reader.wf (read_exts n r).2 ∧
       length (read_exts n r).1 = n ∧ Forall ext_ok (read_exts n r).1 ∧ Reader.err r = false.
Proof.
  revert r. induction n as [|n IH]; intros r Hw.
  { cbn [read_exts fst snd]. intros He. exists (drop (Reader.pos r) (Reader.buf r)).
    unfold Reader.view. rewrite He. by split_and!. }
  cbn [read_exts].
  pose proof (U16_live r Hw) as L1. pose proof (U16_wf r Hw) as W1.
  destruct (Reader.U16 r) as [len r1]. cbn [fst snd] in *.
  pose proof (Byte_live r1 W1) as L2. pose proof (Byte_wf r1 W1) as W2.
  destruct (Reader.Byte r1) as [t r2]. cbn [fst snd] in *.
  pose proof (Byte_live r2 W2) as L3. pose proof (Byte_wf r2 W2) as W3.
  destruct (Reader.Byte r2) as [f r3]. cbn [fst snd] in *.
  pose proof (Reader.Bytes_live len r3 W3) as L4. pose proof (Reader.Bytes_wf len r3 W3) as W4.
  destruct (Reader.Bytes r3 len) as [d r4]. cbn [fst snd] in *.
  specialize (IH r4 W4). destruct (read_exts n r4) as [exts r5]. cbn [fst snd] in *.
  intros He. destruct (IH He) as (s&V5&V6&W5&Hn&Hx&E4).
  destruct (L4 E4) as (p&s4&->&V3&V4&Hl&_&E3). destruct (L3 E3) as (s3&V2&V3'&_&E2).
  destruct (L2 E2) as (s2&V1&V2'&_&E1). destruct (L1 E1) as (s1&V0&V1'&_&Hr&E0).
  exists s. rewrite V6, V0. rewrite V1' in V1. injection V1 as ->. rewrite V2' in V2. injection V2 as ->.
  rewrite V3' in V3. injection V3 as ->. rewrite V4 in V5. injection V5 as ->.
  cbn [copied map length]. rewrite Hn. split_and!; try done.
  - change (mjoin (?x :: ?l)) with (x ++ mjoin l). unfold ext_wire at 2. cbn [data typ flags].
    by rewrite Hl, <-!app_assoc.
  - constructor; [|done]. unfold ext_ok. cbn [data]. lia.
Qed.

Record cert_ok (c : ed25519Cert) : Prop := {
  co_key : length (certifiedKey c) = ed25519PublicKeyLen;
  co_sig : length (signature c) = edCertSignatureLen;
  co_exp : (0 ≤ expiration c < 2 ^ 32)%Z;
  co_exts : Forall ext_ok (extensions c);
  co_next : (Z.of_nat (length (extensions c)) < 256)%Z;
  co_signed : signed c = body_wire c
}.

Lemma parse_sound b c :
  parseEd25519Cert b = Ok c → cert_ok c ∧ b = body_wire c ++ signature c.
Proof.
  unfold parseEd25519Cert. destruct (length b <? edCertMinLen); [done|].
  pose proof (Reader.wf_new b) as W. pose proof (Reader.view_new b) as V.
  pose proof (Byte_live _ W) as L0. pose proof (Byte_wf _ W) as W0.
  destruct (Reader.Byte (Reader.NewReader b)) as [ver r0]. cbn [fst snd] in *.
  destruct (bool_decide_reflect (ver = edCertVersion)) as [->|]; [|done]. cbn [negb].
  pose proof (Byte_live r0 W0) as L1. pose proof (Byte_wf r0 W0) as W1.
  destruct (Reader.Byte r0) as [ct r1]. cbn [fst snd] in *.
  pose proof (U32_live r1 W1) as L2. pose proof (U32_wf r1 W1) as W2.
  destruct (Reader.U32 r1) as [ex r2]. cbn [fst snd] in *.
  pose proof (Byte_live r2 W2) as L3. pose proof (Byte_wf r2 W2) as W3.
  destruct (Reader.Byte r2) as [kt r3]. cbn [fst snd] in *.
  pose proof (Reader.Bytes_live (Z.of_nat ed25519PublicKeyLen) r3 W3) as L4.
  pose proof (Reader.Bytes_wf (Z.of_nat ed25519PublicKeyLen) r3 W3) as W4.
  destruct (Reader.Bytes r3 _) as [key r4]. cbn [fst snd] in *.
  pose proof (Byte_live r4 W4) as L5. pose proof (Byte_wf r4 W4) as W5.
  destruct (Reader.Byte r4) as [nx r5]. cbn [fst snd] in *.
  pose proof (read_exts_live (Z.to_nat (bval nx)) r5 W5) as L6.
  destruct (read_exts _ r5) as [exts r6]. cbn [fst snd] in *.
  destruct (Reader.err r6) eqn:E6.
  { unfold Reader.Bytes. rewrite E6. done. }
  destruct (L6 eq_refl) as (s6&V5&V6&W6&Hn&Hx&E5).
  pose proof (Reader.Bytes_live (Z.of_nat edCertSignatureLen) r6 W6) as L7.
  destruct (Reader.Bytes r6 _) as [sig r7]. cbn [fst snd] in *. unfold Reader.Err.
  destruct (Reader.err r7) eqn:E7; [done|].
  destruct (L7 eq_refl) as (ps&s7&->&V6'&V7&Hs&W7&_).
  destruct (L5 E5) as (s5&V4&V5'&_&E4). destruct (L4 E4) as (pk&s4&->&V3&V4'&Hk&_&E3).
  destruct (L3 E3) as (s3&V2&V3'&_&E2). destruct (L2 E2) as (s2&V1&V2'&_&He&E1).
  destruct (L1 E1) as (s1&V0&V1'&_&E0). destruct (L0 E0) as (s0&VV&V0'&_&_).
  rewrite (Reader.Remaining_view _ _ W7 V7). cbn [orb].
  destruct (Z.eqb_spec (Z.of_nat (length s7)) 0); [|done]. cbn [negb].
  destruct s7; [|simpl in *; lia]. simplify_eq.
  rewrite app_nil_r. cbn [copied].
  set (c0 := {| certType := ct; expiration := ex; keyType := kt; certifiedKey := pk;
                extensions := exts; signature := ps; signed := [] |}).
  assert (edCertVersion :: ct :: be_encode 4 ex ++ kt :: pk ++ nx :: mjoin (map ext_wire exts) ++ ps
          = body_wire c0 ++ ps) as ->.
  { unfold body_wire, c0. cbn [certType expiration keyType certifiedKey extensions].
    rewrite Hn, Z2Nat.id, to_byte_bval by apply bval_range. 
    cbn [app]. rewrite <-app_assoc. cbn [app]. by rewrite <-app_assoc. }
  rewrite slice_in_range, drop_0, length_app, Hs, Nat.sub_0_r, Nat.add_sub, take_app_length by lia.
  osimpl. intros [= <-].
  split; [|done]. constructor; simpl; try done.
  pose proof (bval_range nx). lia.
Qed.

(** *** Certificates that are accepted *)

Lemma Byte_take r x s :
  Reader.wf r → Reader.view r = Some (x :: s) →
  ∃ r', Reader.Byte r = (x, r') ∧ Reader.view r' = Some s ∧ Reader.wf r'.
Proof.
  intros Hw Hv. rewrite Reader.Byte_fixed.
  destruct (Reader.fixed_ok 1 r _ Hw Hv) as (H1&H2&H3); [simpl; lia|]. rewrite H1.
  eexists. split; [done|]. by rewrite H2.
Qed.

Lemma U16_take r v s :
  Reader.wf r → Reader.view r = Some (be_encode 2 v ++ s) → (0 ≤ v < 65536)%Z →
  ∃ r', Reader.U16 r = (v, r') ∧ Reader.view r' = Some s ∧ Reader.wf r'.
Proof.
  intros Hw Hv Hr. rewrite Reader.U16_fixed.
  destruct (Reader.fixed_ok 2 r _ Hw Hv) as (H1&H2&H3);
    [rewrite length_app, length_be_encode; lia|].
  rewrite H1, take_app_exact, be_decode_encode, Z.mod_small by (rewrite ?length_be_encode; done || lia).
  eexists. split; [done|]. by rewrite H2, drop_app_exact by apply length_be_encode.
Qed.

Lemma U32_take r v s :
  Reader.wf r → Reader.view r = Some (be_encode 4 v ++ s) → (0 ≤ v < 2 ^ 32)%Z →
  ∃ r', Reader.U32 r = (v, r') ∧ Reader.view r' = Some s ∧ Reader.wf r'.
Proof.
  intros Hw Hv Hr. rewrite Reader.U32_fixed.
  destruct (Reader.fixed_ok 4 r _ Hw Hv) as (H1&H2&H3);
    [rewrite length_app, length_be_encode; lia|].
  rewrite H1, take_app_exact, be_decode_encode, Z.mod_small by (rewrite ?length_be_encode; done || lia).
  eexists. split; [done|]. by rewrite H2, drop_app_exact by apply length_be_encode.
Qed.

Lemma Bytes_take r p s n :
  Reader.wf r → Reader.view r = Some (p ++ s) → n = Z.of_nat (length p) →
  ∃ r', Reader.Bytes r n = (Some p, r') ∧ Reader.view r' = Some s ∧ Reader.wf r'.
Proof.
  intros Hw Hv ->. destruct (Reader.Bytes_ok (length p) r _ Hw Hv) as (H1&H2&H3);
    [rewrite length_app; lia|].
  destruct (Reader.Bytes r _) as [o r']. cbn [fst snd] in *. exists r'.
  rewrite H1, take_app_length, H2, drop_app_length. done.
Qed.

Lemma read_exts_take exts r s :
  Reader.wf r → Reader.view r = Some (mjoin (map ext_wire exts) ++ s) → Forall ext_ok exts →
  ∃ r', read_exts (length exts) r = (exts, r') ∧ Reader.view r' = Some s ∧ Reader.wf r'.
Proof.
  revert r. induction exts as [|e exts IH]; intros r Hw Hv Hx; [by exists r|].
  inversion Hx as [|? ? He Hx']; subst. unfold ext_ok in He.
  change (mjoin (map ext_wire (e :: exts))) with (ext_wire e ++ mjoin (map ext_wire exts)) in Hv.
  unfold ext_wire at 1 in Hv. rewrite <-!app_assoc in Hv.
  cbn [length read_exts].
  destruct (U16_take _ _ _ Hw Hv) as (r1&->&V1&W1); [lia|].
  destruct (Byte_take _ _ _ W1 V1) as (r2&->&V2&W2).
  destruct (Byte_take _ _ _ W2 V2) as (r3&->&V3&W3). simpl app in V3.
  destruct (Bytes_take _ _ _ _ W3 V3 eq_refl) as (r4&->&V4&W4).
  destruct (IH r4 W4 V4 Hx') as (r5&->&V5&W5). exists r5. by destruct e.
Qed.

Lemma length_body_wire c : length (certifiedKey c) = ed25519PublicKeyLen → 40 ≤ length (body_wire c).
Proof.
  intros H. unfold body_wire. rewrite !length_app, length_be_encode, H. simpl. lia.
Qed.

Lemma parse_complete c : cert_ok c → parseEd25519Cert (body_wire c ++ signature c) = Ok c.
Proof.
  intros [Hk Hs He Hx Hn Hb]. unfold parseEd25519Cert.
  pose proof (length_body_wire c Hk) as Hl.
  destruct (Nat.ltb_spec (length (body_wire c ++ signature c)) edCertMinLen) as [Hlt|_].
  { rewrite length_app, Hs in Hlt. unfold edCertMinLen, edCertSignatureLen in Hlt. lia. }
  set (b := body_wire c ++ signature c).
  pose proof (Reader.wf_new b) as W. pose proof (Reader.view_new b) as V.
  unfold b at 2 in V. unfold body_wire in V. rewrite <-!app_assoc in V.
  destruct (Byte_take _ _ _ W V) as (r0&->&V0&W0). rewrite bool_decide_true by done. cbn [negb].
  destruct (Byte_take _ _ _ W0 V0) as (r1&->&V1&W1).
  destruct (U32_take _ _ _ W1 V1 He) as (r2&->&V2&W2).
  destruct (Byte_take _ _ _ W2 V2) as (r3&->&V3&W3).
  destruct (Bytes_take _ _ _ (Z.of_nat ed25519PublicKeyLen) W3 V3) as (r4&->&V4&W4); [by rewrite Hk|].
  destruct (Byte_take _ _ _ W4 V4) as (r5&->&V5&W5).
  rewrite bval_to_byte, Z.mod_small, Nat2Z.id by lia.
  destruct (read_exts_take _ _ _ W5 V5 Hx) as (r6&->&V6&W6).
  rewrite <-(app_nil_r (signature c)) in V6.
  destruct (Bytes_take _ _ _ (Z.of_nat edCertSignatureLen) W6 V6) as (r7&->&V7&W7); [by rewrite Hs|].
  unfold Reader.Err. destruct (Reader.err r7) eqn:E7; [apply Reader.view_None in E7; congruence|].
  rewrite (Reader.Remaining_view _ _ W7 V7). cbn [length orb negb Z.eqb Z.of_nat].
  unfold b. rewrite slice_in_range, drop_0, length_app, Hs, Nat.sub_0_r, Nat.add_sub,
    take_app_length, <-Hb by lia. osimpl. cbn [copied]. f_equal.
  by destruct c.
Qed.

(** Ed25519 certificates.  The parser accepts exactly the serialized
    certificates: it returns [c] for [b] if and only if [c]'s fields are
    within their widths, the signed part is everything but the trailing
    signature, and [b] is that certificate's byte form, with nothing left
    over. *)
Theorem parseEd25519Cert_exact (b : bytes) (c : ed25519Cert) :
  parseEd25519Cert b = Ok c ↔ cert_ok c ∧ b = body_wire c ++ signature c.
Proof.
  split; [apply parse_sound|]. intros [Hc ->]. by apply parse_complete.
Qed.

(** ** The chain *)
Section Chain.
Context `{C : Crypto}.

Lemma verify_Ok c pub now u :
  verify c pub now = Ok u ↔
  length pub = ed25519PublicKeyLen ∧ (now ≤ expiry c)%Z ∧
  ed25519_verify pub (signed c) (signature c) = true.
Proof.
  unfold verify. destruct (Nat.eqb_spec (length pub) ed25519PublicKeyLen); [|naive_solver].
  destruct (Z.ltb_spec (expiry c) now); simpl; [split; [done|lia]|].
  destruct (ed25519_verify _ _ _); simpl; destruct u; naive_solver.
Qed.

Lemma find_signer_length exts k : find_signer exts = Some k → length k = ed25519PublicKeyLen.
Proof.
  induction exts as [|e exts IH]; simpl; [done|].
  destruct (bool_decide _ && _)%bool eqn:E; [|done]. intros [= <-]. by bools.
Qed.

(** An authentic chain in the certificates [m]: the identity key [idk] signed
    a certificate for a signing key, which signed a certificate for the
    digest of the TLS certificate; both are in date, and what is used of each
    is part of the bytes the signature covers. *)
Definition chain (m : gmap byte bytes) (tlsCertDER : bytes) (now : Z) (idk : bytes) : Prop :=
  ∃ sc lc,
    m !! certTypeEd25519SigningCert = Some (body_wire sc ++ signature sc) ∧ cert_ok sc ∧
    m !! certTypeEd25519LinkCert = Some (body_wire lc ++ signature lc) ∧ cert_ok lc ∧
    certType sc = edCertInnerTypeSigning ∧ keyType sc = edCertKeyTypeEd25519 ∧
    signerKey sc = Some idk ∧ (now ≤ expiry sc)%Z ∧
    ed25519_verify idk (body_wire sc) (signature sc) = true ∧
    certType lc = edCertInnerTypeLinkAuth ∧ (now ≤ expiry lc)%Z ∧
    ed25519_verify (certifiedKey sc) (body_wire lc) (signature lc) = true ∧
    certifiedKey lc = sha256 tlsCertDER.

Lemma verifyCerts_chain payload tls now idk :
  verifyCerts payload tls now = Ok idk → ∃ m, parseCertsCell payload = Ok m ∧ chain m tls now idk.
Proof.
  unfold verifyCerts. intros H. outcome_inv. rename x into m. exists m. split; [done|].
  destruct (m !! certTypeEd25519SigningCert) as [sraw|] eqn:Hs; [|done].
  destruct (m !! certTypeEd25519LinkCert) as [lraw|] eqn:Hl; [|done].
  outcome_inv. rename x into sc. match goal with H : parseEd25519Cert sraw = _ |- _ =>
    apply parse_sound in H as [Oks ->] end.
  destruct (bool_decide_reflect (certType sc = edCertInnerTypeSigning)); [|done].
  destruct (bool_decide_reflect (keyType sc = edCertKeyTypeEd25519)); [|done].
  simpl in H. destruct (signerKey sc) as [k|] eqn:Hk; [|done]. outcome_inv.
  rename x0 into lc. match goal with H : parseEd25519Cert lraw = _ |- _ =>
    apply parse_sound in H as [Okl ->] end.
  destruct (bool_decide_reflect (certType lc = edCertInnerTypeLinkAuth)); [|done].
  simpl in H. outcome_inv.
  destruct (_ || _)%bool eqn:E; [done|]. bools. simplify_eq.
  repeat match goal with H : verify _ _ _ = Ok _ |- _ => apply verify_Ok in H as (?&?&?) end.
  pose proof (co_signed sc Oks) as S1. pose proof (co_signed lc Okl) as S2.
  rewrite S1, S2 in *. exists sc, lc. split_and!; auto; congruence.
Qed.

Lemma chain_verifies `{L : !CryptoLaws C} payload tls now idk m :
  parseCertsCell payload = Ok m → chain m tls now idk → verifyCerts payload tls now = Ok idk.
Proof.
  intros Hm (sc&lc&H1&Oks&H2&Okl&H3&H4&H5&H6&H7&H8&H9&H10&H11).
  unfold verifyCerts. rewrite Hm. osimpl. rewrite H1, H2, (parse_complete _ Oks). osimpl.
  rewrite !bool_decide_true by done. cbn [negb]. rewrite H5.
  pose proof (co_signed sc Oks) as S1. pose proof (co_signed lc Okl) as S2.
  assert (verify sc idk now = Ok tt) as ->.
  { apply verify_Ok. rewrite S1. split; [|done]. by eapply find_signer_length. }
  osimpl. rewrite (parse_complete _ Okl). osimpl. rewrite bool_decide_true by done. cbn [negb].
  assert (verify lc (certifiedKey sc) now = Ok tt) as ->.
  { apply verify_Ok. rewrite S2. split; [|done]. apply Oks. }
  osimpl. rewrite H11, sha256_length, bool_decide_true by done. done.
Qed.

Lemma read_certs_safe n r out : panics (read_certs n r out) = false.
Proof.
  revert r out. induction n as [|n IH]; intros r out; cbn [read_certs]; [done|].
  destruct (Reader.Byte r) as [ct r1], (Reader.U16 r1) as [len r2].
  destruct (Reader.Bytes r2 len) as [body r3]. by destruct (Reader.Err r3).
Qed.

Lemma parse_safe b : panics (parseEd25519Cert b) = false.
Proof.
  unfold parseEd25519Cert. destruct (length b <? edCertMinLen); [done|].
  destruct (Reader.Byte _) as [v r0]. destruct (negb _); [done|].
  destruct (Reader.Byte r0) as [? r1], (Reader.U32 r1) as [? r2], (Reader.Byte r2) as [? r3],
    (Reader.Bytes r3 _) as [? r4], (Reader.Byte r4) as [? r5], (read_exts _ r5) as [? r6],
    (Reader.Bytes r6 _) as [? r7].
  destruct (_ || _)%bool; [done|]. by rewrite slice_in_range by lia.
Qed.

Lemma verify_safe c pub now : panics (verify c pub now) = false.
Proof. unfold verify. repeat (destruct (negb _); [done|]; try destruct (_ <? _)%Z; try done). Qed.

Lemma map_err_panics {E F A} (f : E → F) (m : outcome E A) : panics (map_err f m) = panics m.
Proof. by destruct m. Qed.

Lemma verifyCerts_safe payload tls now : panics (verifyCerts payload tls now) = false.
Proof.
  unfold verifyCerts. apply bind_panics.
  { unfold parseCertsCell. destruct (Reader.Byte _) as [n r]. apply bind_panics.
    - apply read_certs_safe.
    - intros [out r'] _. by destruct (Reader.Err r'). }
  intros m _. destruct (m !! _); [|done]. destruct (m !! _); [|done].
  apply bind_panics; [rewrite map_err_panics; apply parse_safe|]. intros sc _.
  destruct (negb _); [done|]. destruct (negb _); [done|]. destruct (signerKey sc); [|done].
  apply bind_panics; [rewrite map_err_panics; apply verify_safe|]. intros _ _.
  apply bind_panics; [rewrite map_err_panics; apply parse_safe|]. intros lc _.
  destruct (negb _); [done|].
  apply bind_panics; [rewrite map_err_panics; apply verify_safe|]. intros _ _.
  by destruct (_ || _)%bool.
Qed.

(** C11: relay authentication.  [verifyCerts] never panics on any CERTS
    payload, and accepts with identity [idk] exactly when the certificates
    contain an authentic, unexpired chain from [idk] over the signing key to
    the SHA-256 digest of the TLS certificate presented, where everything
    used of a certificate lies in the bytes its signature covers. *)
Theorem verifyCerts_correct `{L : !CryptoLaws C} (payload tlsCertDER : bytes) (now : Z) :
  panics (verifyCerts payload tlsCertDER now) = false ∧
  ∀ idk, verifyCerts payload tlsCertDER now = Ok idk ↔
         ∃ m, parseCertsCell payload = Ok m ∧ chain m tlsCertDER now idk.
Proof.
  split; [apply verifyCerts_safe|]. intros idk. split; [apply verifyCerts_chain|].
  intros (m&Hm&Hc). by eapply chain_verifies.
Qed.
End Chain.
End Cert.
