(* ===== verification/Channel.v ===== *)
(** * [pkg/channel/channel.go]: the link connection.

    The link handshake as a computation over the connection, and the life of
    the connection afterwards: circuit IDs, the inbox of every circuit, the
    read pump with the gap between its map lookup and its select, and
    teardown.  Circuit entries live in a store, since a circuit keeps its
    entry after the ID was freed. *)

From S2P Require Import Prelude ByteUtil Cell TorCrypto GoNet Circuit Cert.

(** The TLS connection.  [conn_Write t w b] writes [b] under the write deadline
    [t] ([None] for no deadline): whether all of it was taken, or [None] when the
    call never returns.  [conn_ReadEnds t w] says that a read past the bytes that
    arrive returns with an error under the read deadline [t], and does not wait
    for ever.  [conn_Now] is [time.Now]. *)
Class NetConn (W : Type) := {
  conn_Write : option Z → W → bytes → option (bool * W);
  conn_ReadEnds : option Z → W → bool;
  conn_Close : W → W;
  conn_Now : W → Z
}.

(** What package net documents of deadlines: a read or a write under one
    returns. *)
Class NetConnLaws (W : Type) `{!NetConn W} := {
  write_deadline : ∀ t w b, is_Some (conn_Write (Some t) w b);
  read_deadline : ∀ t w, conn_ReadEnds (Some t) w = true
}.

(** The connection takes every write that is under a deadline. *)
Definition conn_up (W : Type) `{!NetConn W} : Prop := ∀ t (w : W) b, ∃ w', conn_Write (Some t) w b = Some (true, w').

Module Channel.

Definition supportedLinkVersions : list Z := [5; 4]%Z.
Definition netinfoAddrIPv4 : byte := x04.
Definition netinfoAddrIPv6 : byte := x06.
Definition circuitInboxDepth : nat := 256.
Definition maxHandshakeCells : nat := 64.
(** In nanoseconds. *)
Definition cellWriteTimeout : Z := 30 * 1000000000.

Inductive channel_error :=
| WriteCellErr
| SendVersionsErr
| ReadVersionsErr (e : cell_error)
| ExpectedVersions
| NoCommonVersion
| TooManyCells
| ReadHandshakeErr (e : cell_error)
| NoCertsCell
| NoPeerCert
| CertErr (e : Cert.cert_error)
| IdentityMismatch
| SendNetinfoErr
| ReadErr (e : cell_error)
| ClosedErr.

(** A circuit's queue and done channel.  [eid], [taken] and [born] record its
    ID, the cells the circuit has taken from the queue, and how many cells
    the pump had read when it was created. *)
Record circEntry := mkEntry {
  eid : Z;
  inbox : list Cell;
  edone : bool;
  taken : list Cell;
  born : nat
}.

(** ** The connection and its deadlines *)

(** [time.Time{}] clears a deadline, written [None] here. *)
Inductive conn_op := SetDeadline (t : option Z) | SetWriteDeadline (t : option Z) | CloseConn.

(** The connection with its deadlines; [ops] records the calls on it other than
    reads and writes. *)
Record tlsConn (W : Type) := mkConn {
  raw : W;
  readDeadline : option Z;
  writeDeadline : option Z;
  ops : list conn_op
}.
Arguments mkConn {W}.
Arguments raw {W}.
Arguments readDeadline {W}.
Arguments writeDeadline {W}.
Arguments ops {W}.

Section Channel.
Context {W : Type} `{!NetConn W}.

(** The connection [DialContext] returns. *)
Definition new_conn (w : W) : tlsConn W := mkConn w None None [].
Definition setDeadline (t : option Z) (cn : tlsConn W) : tlsConn W :=
  mkConn (raw cn) t t (ops cn ++ [SetDeadline t]).
Definition setWriteDeadline (t : option Z) (cn : tlsConn W) : tlsConn W :=
  mkConn (raw cn) (readDeadline cn) t (ops cn ++ [SetWriteDeadline t]).
Definition closeConn (cn : tlsConn W) : tlsConn W :=
  mkConn (conn_Close (raw cn)) (readDeadline cn) (writeDeadline cn) (ops cn ++ [CloseConn]).
Definition writeConn (cn : tlsConn W) (b : bytes) : option (bool * tlsConn W) :=
  match conn_Write (writeDeadline cn) (raw cn) b with
  | Some (ok, w) => Some (ok, mkConn w (readDeadline cn) (writeDeadline cn) (ops cn))
  | None => None
  end.

(** [br] is what remains to be read of what arrives on the connection; [pump] is the cell the
    read pump holds between its map lookup and its select; [rlog] records the
    cells it has read; [draws] are the values [randUint32] will return. *)
Record Channel := mkChannel {
  conn : tlsConn W;
  br : bytes;
  linkVersion : Z;
  edIdentity : option bytes;
  circuits : gmap Z nat;
  entries : list circEntry;
  closed : bool;
  closeErr : option channel_error;
  done : bool;
  pump : option (nat * Cell);
  stopped : bool;
  rlog : list Cell;
  draws : list Z
}.

Definition set_conn (w : tlsConn W) (ch : Channel) : Channel :=
  mkChannel w (br ch) (linkVersion ch) (edIdentity ch) (circuits ch) (entries ch) (closed ch)
    (closeErr ch) (done ch) (pump ch) (stopped ch) (rlog ch) (draws ch).
Definition set_br (b : bytes) (ch : Channel) : Channel :=
  mkChannel (conn ch) b (linkVersion ch) (edIdentity ch) (circuits ch) (entries ch) (closed ch)
    (closeErr ch) (done ch) (pump ch) (stopped ch) (rlog ch) (draws ch).
Definition set_version (v : Z) (ch : Channel) : Channel :=
  mkChannel (conn ch) (br ch) v (edIdentity ch) (circuits ch) (entries ch) (closed ch)
    (closeErr ch) (done ch) (pump ch) (stopped ch) (rlog ch) (draws ch).
Definition set_identity (i : bytes) (ch : Channel) : Channel :=
  mkChannel (conn ch) (br ch) (linkVersion ch) (Some i) (circuits ch) (entries ch) (closed ch)
    (closeErr ch) (done ch) (pump ch) (stopped ch) (rlog ch) (draws ch).
Definition set_circuits (m : gmap Z nat) (es : list circEntry) (ch : Channel) : Channel :=
  mkChannel (conn ch) (br ch) (linkVersion ch) (edIdentity ch) m es (closed ch)
    (closeErr ch) (done ch) (pump ch) (stopped ch) (rlog ch) (draws ch).
Definition set_draws (d : list Z) (ch : Channel) : Channel :=
  mkChannel (conn ch) (br ch) (linkVersion ch) (edIdentity ch) (circuits ch) (entries ch) (closed ch)
    (closeErr ch) (done ch) (pump ch) (stopped ch) (rlog ch) d.
Definition set_pump (p : option (nat * Cell)) (b : bytes) (l : list Cell) (ch : Channel) : Channel :=
  mkChannel (conn ch) b (linkVersion ch) (edIdentity ch) (circuits ch) (entries ch) (closed ch)
    (closeErr ch) (done ch) p (stopped ch) l (draws ch).
Definition set_stopped (ch : Channel) : Channel :=
  mkChannel (conn ch) (br ch) (linkVersion ch) (edIdentity ch) (circuits ch) (entries ch) (closed ch)
    (closeErr ch) (done ch) None true (rlog ch) (draws ch).

(** The channel [Dial] makes of a connection, and of a connection as it was
    dialed. *)
Definition over (cn : tlsConn W) (input : bytes) (rs : list Z) : Channel :=
  mkChannel cn input 0 None ∅ [] false None false None false [] rs.
Definition fresh (w : W) (input : bytes) (rs : list Z) : Channel := over (new_conn w) input rs.

(** ** Wire formats of the handshake *)

Definition encodeVersions (versions : list Z) : bytes :=
  Writer.Bytes (foldl Writer.U16 (Writer.NewWriter (length versions * 2)) versions).

(** [for r.Remaining() >= 2 { offered[r.U16()] = true }]: each round consumes
    two bytes of the payload. *)
Fixpoint offered (fuel : nat) (r : Reader.Reader) : list Z :=
  match fuel with
  | O => []
  | S fuel =>
      if (2 <=? Reader.Remaining r)%Z then
        let '(v, r) := Reader.U16 r in v :: offered fuel r
      else []
  end.

Fixpoint first_offered (vs offers : list Z) : option Z :=
  match vs with
  | [] => None
  | v :: vs => if bool_decide (v ∈ offers) then Some v else first_offered vs offers
  end.

Definition negotiateVersion (payload : bytes) : outcome channel_error Z :=
  match first_offered supportedLinkVersions (offered (length payload) (Reader.NewReader payload)) with
  | Some v => Ok v
  | None => Err NoCommonVersion
  end.

Definition writeNetinfoAddr (w : Writer.Writer) (ip : option bytes) : Writer.Writer :=
  match To4 ip with
  | Some ip4 => Writer.Write (Writer.Byte (Writer.Byte w netinfoAddrIPv4) x04) ip4
  | None =>
      match To16 ip with
      | Some ip16 => Writer.Write (Writer.Byte (Writer.Byte w netinfoAddrIPv6) x10) ip16
      | None => Writer.Byte (Writer.Byte w netinfoAddrIPv4) x00
      end
  end.

(** [now] is in nanoseconds; [uint32(now.Unix())] truncates. *)
Definition encodeClientNetinfo (relayAddr : bytes) (now : Z) : bytes :=
  let w := Writer.U32 (Writer.NewWriter 16) (now / 1000000000) in
  let ip := match SplitHostPort relayAddr with Ok (host, _) => ParseIP host | _ => None end in
  Writer.Bytes (Writer.Byte (writeNetinfoAddr w ip) x00).

(** ** Writing *)

Definition writeCell (c : Cell) (circIDLen : nat) : prog Channel channel_error unit := λ ch,
  let enc := Encode c circIDLen in
  let cn := setWriteDeadline (Some (conn_Now (raw (conn ch)) + cellWriteTimeout)%Z) (conn ch) in
  match writeConn cn enc with
  | Some (true, cn) => Some (Ok tt, set_conn (setWriteDeadline None cn) ch)
  | Some (false, cn) => Some (Err WriteCellErr, set_conn cn ch)
  | None => None
  end.

Definition SendCell_ (c : Cell) : prog Channel channel_error unit := writeCell c CircIDLenWide.

(** [cell.ReadCell(ch.br, ...)]: where it needs more than what arrives, it
    returns only if the read does. *)
Definition readCell (circIDLen : nat) : prog Channel cell_error Cell := λ ch,
  match ReadCell (br ch) circIDLen with
  | Ok (c, rest) => Some (Ok c, set_br rest ch)
  | Err (CellIO e) =>
      if conn_ReadEnds (readDeadline (conn ch)) (raw (conn ch)) then Some (Err (CellIO e), ch) else None
  | Err e => Some (Err e, ch)
  | Panic => Some (Panic, ch)
  end.

(** ** The handshake *)

(** The loop that reads until NETINFO, with [n] cells left of the budget;
    returns the last CERTS payload. *)
Fixpoint read_until_netinfo (n : nat) (certs : option bytes)
    : prog Channel channel_error (option bytes) :=
  match n with
  | O => throw TooManyCells
  | S n =>
      c ← map_error ReadHandshakeErr (readCell CircIDLenWide);
      if decide (Cmd c = CmdCerts) then read_until_netinfo n (Some (Payload c))
      else if decide (Cmd c = CmdNetinfo) then mret certs
      else read_until_netinfo n certs
  end.

Section Handshake.
Context `{C : Crypto}.

(** [handshake]; [peerCerts] are the DER certificates of the TLS peer. *)
Definition handshake (addr : bytes) (expectedEd : option bytes) (now : Z) (peerCerts : list bytes)
    : prog Channel channel_error unit :=
  _ ← map_error (λ _, SendVersionsErr)
        (writeCell {| CircID := 0; Cmd := CmdVersions;
                      Payload := encodeVersions supportedLinkVersions |} CircIDLenShort);
  verCell ← map_error ReadVersionsErr (readCell CircIDLenShort);
  if negb (bool_decide (Cmd verCell = CmdVersions)) then throw ExpectedVersions else
  v ← lift (negotiateVersion (Payload verCell));
  _ ← modify (set_version v);
  certs ← read_until_netinfo maxHandshakeCells None;
  match certs with
  | None => throw NoCertsCell
  | Some certsPayload =>
      match peerCerts with
      | [] => throw NoPeerCert
      | leaf :: _ =>
          identity ← lift (map_err CertErr (Cert.verifyCerts certsPayload leaf now));
          if match expectedEd with
             | Some e => negb (bool_decide (identity = e))
             | None => false
             end then throw IdentityMismatch
          else
            _ ← modify (set_identity identity);
            map_error (λ _, SendNetinfoErr)
              (writeCell {| CircID := 0; Cmd := CmdNetinfo;
                            Payload := encodeClientNetinfo addr now |} CircIDLenWide)
      end
  end.
End Handshake.

(** ** Circuit IDs *)

(** [randUint32] of the four bytes [rand.Read] gives; [None] is its panic. *)
Definition randUint32 (read : option bytes) : outcome channel_error Z :=
  match read with Some b => Ok (BE_Uint32 b) | None => Panic end.

(** The search loop of [AllocCircuit] over the random draws. *)
Fixpoint find_free (ds : list Z) (m : gmap Z nat) : option (Z * list Z) :=
  match ds with
  | [] => None
  | d :: ds =>
      let i := Z.lor d (2 ^ 31) in
      match m !! i with Some _ => find_free ds m | None => Some (i, ds) end
  end.

Definition AllocCircuit_ (ch : Channel) : option (outcome channel_error (Z * nat) * Channel) :=
  if closed ch then
    Some (match closeErr ch with Some e => Err e | None => Ok (0%Z, 0) end, ch)
  else
    '(i, ds) ← find_free (draws ch) (circuits ch);
    let h := length (entries ch) in
    Some (Ok (i, h),
          set_draws ds (set_circuits (<[i := h]> (circuits ch))
            (entries ch ++ [mkEntry i [] false [] (length (rlog ch))]) ch)).

Definition close_entry (e : circEntry) : circEntry :=
  mkEntry (eid e) (inbox e) true (taken e) (born e).

(** [close(ent.done)]: closing a closed channel panics. *)
Definition close_done (h : nat) (es : list circEntry) : outcome channel_error (list circEntry) :=
  match es !! h with
  | Some e => if edone e then Panic else Ok (<[h := close_entry e]> es)
  | None => Panic
  end.

Definition FreeCircuit_ (i : Z) (ch : Channel) : outcome channel_error Channel :=
  match circuits ch !! i with
  | None => Ok ch
  | Some h =>
      es ← close_done h (entries ch);
      Ok (set_circuits (delete i (circuits ch)) es ch)
  end.

(** [failAll]: closes every entry of the map (in any order) and the channel. *)
Fixpoint close_all (hs : list nat) (es : list circEntry) : outcome channel_error (list circEntry) :=
  match hs with
  | [] => Ok es
  | h :: hs => es ← close_done h es; close_all hs es
  end.

Definition failAll (e : channel_error) (ch : Channel) : outcome channel_error Channel :=
  if closed ch then Ok ch
  else
    es ← close_all (map snd (map_to_list (circuits ch))) (entries ch);
    if done ch then Panic
    else Ok (mkChannel (conn ch) (br ch) (linkVersion ch) (edIdentity ch) ∅ es true (Some e) true
               (pump ch) (stopped ch) (rlog ch) (draws ch)).

Definition Close (ch : Channel) : outcome channel_error Channel :=
  ch ← failAll ClosedErr ch; Ok (set_conn (closeConn (conn ch)) ch).

(** ** The read pump *)

(** Reading the next cell and looking its circuit up. *)
Definition readLoop_read (ch : Channel) : outcome channel_error Channel :=
  match ReadCell (br ch) CircIDLenWide with
  | Ok (c, rest) =>
      let l := rlog ch ++ [c] in
      if decide (CircID c = 0%Z) then Ok (set_pump None rest l ch)
      else
        match circuits ch !! CircID c with
        | None => Ok (set_pump None rest l ch)
        | Some h => Ok (set_pump (Some (h, c)) rest l ch)
        end
  | Err e => ch ← failAll (ReadErr e) ch; Ok (set_stopped ch)
  | Panic => Panic
  end.

(** The three cases of its select; [None] when the case is not ready. *)
Definition readLoop_deliver (ch : Channel) : option Channel :=
  match pump ch with
  | Some (h, c) =>
      match entries ch !! h with
      | Some e =>
          if length (inbox e) <? circuitInboxDepth then
            Some (set_pump None (br ch) (rlog ch)
                    (set_circuits (circuits ch)
                       (<[h := mkEntry (eid e) (inbox e ++ [c]) (edone e) (taken e) (born e)]>
                          (entries ch)) ch))
          else None
      | None => None
      end
  | None => None
  end.

Definition readLoop_drop (ch : Channel) : option Channel :=
  match pump ch with
  | Some (h, c) =>
      match entries ch !! h with
      | Some e => if edone e then Some (set_pump None (br ch) (rlog ch) ch) else None
      | None => None
      end
  | None => None
  end.

Definition readLoop_quit (ch : Channel) : option Channel :=
  if done ch then Some (set_stopped ch) else None.

(** A circuit receives from its inbox. *)
Definition inbox_recv (h : nat) (ch : Channel) : option (Cell * Channel) :=
  match entries ch !! h with
  | Some e =>
      match inbox e with
      | c :: q => Some (c, set_circuits (circuits ch)
                             (<[h := mkEntry (eid e) q (edone e) (taken e ++ [c]) (born e)]>
                                (entries ch)) ch)
      | [] => None
      end
  | None => None
  end.

End Channel.

(** A channel is a circuit's link.  A cell write returns, being under a deadline
    of its own ([writeCell_returns]). *)
#[export] Instance channel_link {W} `{!NetConn W} : Link (Channel (W:=W)) channel_error := {|
  SendCell ch c :=
    match SendCell_ c ch with
    | Some (Err e, ch) => (Some e, ch)
    | Some (_, ch) => (None, ch)
    | None => (Some WriteCellErr, ch)
    end;
  AllocCircuit ch := AllocCircuit_ ch;
  FreeCircuit ch i := match FreeCircuit_ i ch with Ok ch => ch | _ => ch end
|}.
End Channel.
