(* ===== verification/ChannelFacts.v ===== *)
(** * Correctness of the link connection.

    The interleavings of allocation, teardown and the read pump: no channel is
    closed twice, IDs are unique, every live circuit receives exactly the
    cells addressed to it, in order.  The handshake: what success establishes,
    and that it succeeds against an honest relay. *)

From S2P Require Import Prelude ByteUtil Cell TorCrypto GoNet Circuit Cert Channel.
From stdpp Require Import relations.
Import Channel.

Section Facts.
Context {W : Type} `{!NetConn W}.
Notation Channel := (Channel (W:=W)).
Implicit Types ch : Channel.

(** ** Steps *)

(** The read pump is one goroutine: it reads when it holds no cell, selects
    when it holds one.  The other steps are calls made by any goroutine. *)
Inductive step : Channel → Channel → Prop :=
| st_alloc ch r ch' : AllocCircuit_ ch = Some (r, ch') → step ch ch'
| st_free ch i ch' : FreeCircuit_ i ch = Ok ch' → step ch ch'
| st_send ch c r ch' : SendCell_ c ch = Some (r, ch') → step ch ch'
| st_recv ch h c ch' : inbox_recv h ch = Some (c, ch') → step ch ch'
| st_close ch ch' : Close ch = Ok ch' → step ch ch'
| st_read ch ch' :
    stopped ch = false → pump ch = None → readLoop_read ch = Ok ch' → step ch ch'
| st_deliver ch ch' : stopped ch = false → readLoop_deliver ch = Some ch' → step ch ch'
| st_drop ch ch' : stopped ch = false → readLoop_drop ch = Some ch' → step ch ch'
| st_quit ch ch' :
    stopped ch = false → pump ch ≠ None → readLoop_quit ch = Some ch' → step ch ch'.

(** ** The invariant *)

(** The cell the pump holds for entry [h]. *)
Definition pending (h : nat) ch : list Cell :=
  match pump ch with
  | Some (h', c) => if decide (h' = h) then [c] else []
  | None => []
  end.

(** The cells for circuit ID [i] among those read. *)
Definition cells_for (i : Z) (l : list Cell) : list Cell :=
  List.filter (λ c, bool_decide (CircID c = i)) l.

Lemma cells_for_app i l k : cells_for i (l ++ k) = cells_for i l ++ cells_for i k.
Proof. apply List.filter_app. Qed.

Record ch_inv ch : Prop := {
  ci_map : ∀ i h, circuits ch !! i = Some h →
    (2 ^ 31 ≤ i < 2 ^ 32)%Z ∧ ∃ e, entries ch !! h = Some e ∧ edone e = false ∧ eid e = i;
  ci_live : ∀ h e, entries ch !! h = Some e → edone e = false → circuits ch !! eid e = Some h;
  ci_done : done ch = closed ch;
  ci_err : closed ch = true → circuits ch = ∅ ∧ is_Some (closeErr ch);
  ci_inbox : ∀ h e, entries ch !! h = Some e → length (inbox e) ≤ circuitInboxDepth;
  ci_fifo : ∀ h e, entries ch !! h = Some e → edone e = false →
    taken e ++ inbox e ++ pending h ch = cells_for (eid e) (drop (born e) (rlog ch));
  ci_born : ∀ h e, entries ch !! h = Some e → born e ≤ length (rlog ch);
  ci_pump : ∀ h c, pump ch = Some (h, c) →
    ∃ e, entries ch !! h = Some e ∧ eid e = CircID c;
  ci_draws : Forall (λ d, (0 ≤ d < 2 ^ 32)%Z) (draws ch)
}.

Lemma inv_fresh w input rs :
  Forall (λ d, (0 ≤ d < 2 ^ 32)%Z) rs → ch_inv (fresh w input rs).
Proof. intros H. constructor; simpl; try done. Qed.

Lemma lor_msb d : (0 ≤ d < 2 ^ 32)%Z → (2 ^ 31 ≤ Z.lor d (2 ^ 31) < 2 ^ 32)%Z.
Proof.
  intros H. split.
  - destruct (Z.le_gt_cases (2 ^ 31) (Z.lor d (2 ^ 31))) as [|Hlt]; [done|].
    exfalso. assert (Z.testbit (Z.lor d (2 ^ 31)) 31 = true) as Ht.
    { rewrite Z.lor_spec, Z.pow2_bits_true by lia. apply orb_true_r. }
    assert (0 ≤ Z.lor d (2 ^ 31))%Z by (apply Z.lor_nonneg; lia).
    rewrite Z.bits_above_log2 in Ht; [done|lia|].
    destruct (Z.eq_dec (Z.lor d (2 ^ 31)) 0%Z) as [->|]; [simpl; lia|].
    apply Z.log2_lt_pow2; lia.
  - apply Z.log2_lt_cancel. rewrite Z.log2_lor by lia.
    change (Z.log2 (2 ^ 31)) with 31%Z. change (Z.log2 (2 ^ 32)) with 32%Z.
    destruct (Z.eq_dec d 0%Z) as [->|]; [simpl; lia|].
    assert (Z.log2 d < 32)%Z by (apply Z.log2_lt_pow2; lia). lia.
Qed.

Lemma find_free_Some ds m i ds' :
  Forall (λ d, (0 ≤ d < 2 ^ 32)%Z) ds → find_free ds m = Some (i, ds') →
  m !! i = None ∧ (2 ^ 31 ≤ i < 2 ^ 32)%Z ∧ Forall (λ d, (0 ≤ d < 2 ^ 32)%Z) ds'.
Proof.
  induction 1 as [|d ds Hd Hds IH]; simpl; [done|].
  destruct (m !! Z.lor d _) eqn:E; [done|]. intros [= <- <-].
  split; [done|]. split; [by apply lor_msb|done].
Qed.

Lemma inv_alloc ch r ch' : AllocCircuit_ ch = Some (r, ch') → ch_inv ch → ch_inv ch'.
Proof.
  intros H Hi. unfold AllocCircuit_ in H. destruct (closed ch) eqn:Hc.
  { by destruct (closeErr ch); injection H as <- <-. }
  destruct (find_free (draws ch) (circuits ch)) as [[i ds]|] eqn:Hf; [|done].
  simpl in H. injection H as <- <-. destruct Hi.
  destruct (find_free_Some _ _ _ _ ci_draws0 Hf) as (Hn&Hr&Hds).
  constructor; simpl; try done.
  - intros j h. destruct (decide (i = j)) as [->|Hne].
    + rewrite lookup_insert_eq. intros [= <-]. split; [done|]. eexists.
      split; [rewrite lookup_app_r, Nat.sub_diag by lia; reflexivity|done].
    + rewrite lookup_insert_ne by done. intros Hj. destruct (ci_map0 _ _ Hj) as (?&e&He&?).
      split; [done|]. exists e. split; [by apply lookup_app_l_Some|done].
  - intros h e. rewrite lookup_app_Some. intros [He|[Hge He]] Hd.
    + pose proof (ci_live0 _ _ He Hd) as Hl.
      rewrite lookup_insert_ne; [done|]. intros ->. congruence.
    + destruct (h - length (entries ch)) as [|] eqn:Hh; [|done]. simpl in He. injection He as <-.
      simpl. rewrite lookup_insert_eq. f_equal. lia.
  - congruence.
  - intros h e. rewrite lookup_app_Some. intros [He|[Hge He]]; [by eapply ci_inbox0|].
    destruct (h - length (entries ch)); [|done]. simpl in He. injection He as <-. simpl. lia.
  - intros h e. rewrite lookup_app_Some. intros [He|[Hge He]] Hd; [by apply ci_fifo0|].
    destruct (h - length (entries ch)) eqn:Hh; [|done]. simpl in He. injection He as <-. simpl.
    rewrite drop_all. unfold pending. simpl. destruct (pump ch) as [[h' c]|] eqn:Hp; [|done].
    rewrite decide_False; [done|]. intros ->.
    destruct (ci_pump0 _ _ eq_refl) as (e&He&_). apply lookup_lt_Some in He. lia.
  - intros h e. rewrite lookup_app_Some. intros [He|[Hge He]]; [by eapply ci_born0|].
    destruct (h - length (entries ch)); [|done]. simpl in He. by injection He as <-.
  - intros h c Hp. destruct (ci_pump0 _ _ Hp) as (e&He&?). exists e.
    split; [by apply lookup_app_l_Some|done].
Qed.

(** *** Closing entries *)

Lemma close_done_open h e es :
  es !! h = Some e → edone e = false → close_done h es = Ok (<[h := close_entry e]> es).
Proof. intros He Hd. unfold close_done. by rewrite He, Hd. Qed.

Lemma inv_free i ch : ch_inv ch → ∃ ch', FreeCircuit_ i ch = Ok ch' ∧ ch_inv ch'.
Proof.
  intros Hi. unfold FreeCircuit_. destruct (circuits ch !! i) as [h|] eqn:Hc; [|eauto].
  destruct (ci_map ch Hi _ _ Hc) as (_&e&He&Hd&Hei).
  rewrite (close_done_open _ _ _ He Hd). eexists. split; [reflexivity|].
  assert (∀ h' e', <[h:=close_entry e]> (entries ch) !! h' = Some e' →
    (h' = h ∧ e' = close_entry e) ∨ (h' ≠ h ∧ entries ch !! h' = Some e')) as Hl.
  { intros h' e'. destruct (decide (h' = h)) as [->|].
    - rewrite list_lookup_insert_eq by (by eapply lookup_lt_Some). intros [= <-]. by left.
    - rewrite list_lookup_insert_ne by done. by right. }
  destruct Hi. constructor; simpl; try done.
  - intros j h'. rewrite lookup_delete_Some. intros [Hne Hj].
    destruct (ci_map0 _ _ Hj) as (?&e'&He'&Hd'&Hei'). split; [done|]. exists e'. split; [|done].
    rewrite list_lookup_insert_ne; [done|]. intros ->. congruence.
  - intros h' e' He' Hd'. apply Hl in He' as [[-> ->]|[Hne He']]; [done|].
    pose proof (ci_live0 _ _ He' Hd') as Hx. rewrite lookup_delete_ne; [done|].
    intros ->. congruence.
  - intros Hcl. destruct (ci_err0 Hcl) as [Hm ?]. rewrite Hm in Hc. done.
  - intros h' e' He'. apply Hl in He' as [[-> ->]|[_ He']]; [by eapply (ci_inbox0 h e)|by eapply ci_inbox0].
  - intros h' e' He' Hd'. apply Hl in He' as [[-> ->]|[_ He']]; [done|by apply ci_fifo0].
  - intros h' e' He'. apply Hl in He' as [[-> ->]|[_ He']]; [by eapply (ci_born0 h e)|by eapply ci_born0].
  - intros h' c Hp. destruct (ci_pump0 _ _ Hp) as (e'&He'&Hi'). destruct (decide (h' = h)) as [->|].
    + exists (close_entry e). rewrite list_lookup_insert_eq by (by eapply lookup_lt_Some).
      split; [done|]. simpl. congruence.
    + exists e'. by rewrite list_lookup_insert_ne.
Qed.

Lemma close_all_spec hs es :
  NoDup hs → (∀ h, h ∈ hs → ∃ e, es !! h = Some e ∧ edone e = false) →
  ∃ es', close_all hs es = Ok es' ∧
    ∀ h, es' !! h = (if bool_decide (h ∈ hs) then option_map close_entry (es !! h) else es !! h).
Proof.
  intros Hnd. revert es. induction Hnd as [|h hs Hin Hnd IH]; intros es Ho; cbn [close_all].
  { exists es. split; [done|]. intros h. by rewrite bool_decide_false by set_solver. }
  destruct (Ho h) as (e&He&Hd); [set_solver|]. rewrite (close_done_open _ _ _ He Hd). osimpl.
  destruct (IH (<[h:=close_entry e]> es)) as (es'&Hes&Hl).
  { intros h' Hh'. destruct (Ho h') as (e'&He'&Hd'); [set_solver|]. exists e'.
    rewrite list_lookup_insert_ne by (by intros ->). done. }
  exists es'. split; [done|]. intros h'. rewrite Hl.
  destruct (decide (h' = h)) as [->|Hne].
  - rewrite bool_decide_false by done. rewrite bool_decide_true by set_solver.
    rewrite list_lookup_insert_eq by (by eapply lookup_lt_Some). by rewrite He.
  - rewrite list_lookup_insert_ne by done. erewrite bool_decide_ext; [done|]. set_solver.
Qed.

(** [failAll] always completes, and leaves no entry open. *)
Lemma inv_failAll e ch :
  ch_inv ch → ∃ ch', failAll e ch = Ok ch' ∧ ch_inv ch' ∧ closed ch' = true ∧
    ∀ h en, entries ch' !! h = Some en → edone en = true.
Proof.
  intros Hi. unfold failAll. destruct (closed ch) eqn:Hc.
  { exists ch. split_and!; try done. intros h en Hen. destruct (edone en) eqn:Hd; [done|].
    pose proof (ci_live ch Hi _ _ Hen Hd) as Hl. rewrite (proj1 (ci_err ch Hi Hc)) in Hl. done. }
  assert (NoDup (map snd (map_to_list (circuits ch)))) as Hnd.
  { apply NoDup_fmap_2_strong; [|apply NoDup_map_to_list].
    intros [i h] [j h'] Hx Hy ?. simpl in *. subst h'.
    apply elem_of_map_to_list in Hx, Hy.
    destruct (ci_map ch Hi _ _ Hx) as (_&e1&He1&_&<-), (ci_map ch Hi _ _ Hy) as (_&e2&He2&_&<-).
    congruence. }
  destruct (close_all_spec _ (entries ch) Hnd) as (es&->&Hl).
  { intros h Hh. apply list_elem_of_fmap in Hh as ([i h']&->&Hx). apply elem_of_map_to_list in Hx.
    destruct (ci_map ch Hi _ _ Hx) as (_&e1&He1&Hd&_). eauto. }
  osimpl. rewrite (ci_done ch Hi), Hc.
  assert (∀ h en, es !! h = Some en → edone en = true ∧ ∃ en0, entries ch !! h = Some en0 ∧
    eid en = eid en0 ∧ inbox en = inbox en0 ∧ taken en = taken en0 ∧ born en = born en0) as Hes.
  { intros h en. rewrite Hl. destruct (bool_decide_reflect (h ∈ map snd (map_to_list (circuits ch)))).
    - destruct (entries ch !! h) as [en0|]; [|done]. intros [= <-]. split; [done|]. by exists en0.
    - intros Hen. split; [|by exists en]. destruct (edone en) eqn:Hd; [done|]. exfalso.
      apply n. pose proof (ci_live ch Hi _ _ Hen Hd) as Hx. apply elem_of_map_to_list in Hx.
      apply list_elem_of_fmap. by exists (eid en, h). }
  eexists. split; [reflexivity|]. split; [|split; [done|]].
  - destruct Hi. constructor; simpl; try done.
    + intros h en Hen Hd. destruct (Hes _ _ Hen) as [? _]. congruence.
    + intros h en Hen. destruct (Hes _ _ Hen) as (_&en0&H0&_&->&_). by eapply ci_inbox0.
    + intros h en Hen Hd. destruct (Hes _ _ Hen) as [? _]. congruence.
    + intros h en Hen. destruct (Hes _ _ Hen) as (_&en0&H0&_&_&_&->). by eapply ci_born0.
    + intros h c Hp. destruct (ci_pump0 _ _ Hp) as (en0&H0&H1).
      assert (is_Some (es !! h)) as [en Hen].
      { rewrite Hl, H0. by destruct (bool_decide _). }
      exists en. split; [done|]. destruct (Hes _ _ Hen) as (_&en1&H2&->&_). congruence.
  - intros h en Hen. by destruct (Hes _ _ Hen).
Qed.

(** *** The other steps *)

Lemma inv_stopped ch :
  ch_inv ch → (∀ h en, entries ch !! h = Some en → edone en = true) → ch_inv (set_stopped ch).
Proof.
  intros [] Hall. constructor; simpl; try done.
  intros h e He Hd. rewrite (Hall _ _ He) in Hd. done.
Qed.

Lemma ReadCell_safe r : panics (ReadCell r CircIDLenWide) = false.
Proof.
  unfold ReadCell, ReadFull.
  destruct (Nat.leb_spec (CircIDLenWide + 1) (length r)); [|by destruct r]. osimpl.
  destruct (idx_in_range (E:=cell_error) (take (CircIDLenWide + 1) r) CircIDLenWide) as [c Hc].
  { rewrite length_take. unfold CircIDLenWide in *. lia. }
  rewrite Hc. osimpl. set (rest := drop _ r). clearbody rest.
  destruct (IsVariable c).
  - destruct (Nat.leb_spec 2 (length rest)); [|by destruct rest]. osimpl.
    destruct (_ <? _)%Z; [done|]. set (n := Z.to_nat _). set (r2 := drop 2 rest). clearbody r2 n.
    destruct (Nat.leb_spec n (length r2)); [done|by destruct r2].
  - destruct (Nat.leb_spec PayloadLen (length rest)); [done|by destruct rest].
Qed.

Lemma cells_for_snoc i l c :
  cells_for i (l ++ [c]) = cells_for i l ++ if bool_decide (CircID c = i) then [c] else [].
Proof. rewrite cells_for_app. simpl. by destruct (bool_decide _). Qed.

(** Reading a cell: the circuit it is for, if live, has it pending. *)
Lemma inv_read_cell ch c rest p :
  ch_inv ch → pump ch = None →
  p = (if decide (CircID c = 0%Z) then None
       else match circuits ch !! CircID c with Some h => Some (h, c) | None => None end) →
  ch_inv (set_pump p rest (rlog ch ++ [c]) ch).
Proof.
  intros Hi Hp Hpe. pose proof Hi as Hi0. destruct Hi0. constructor; simpl; try done.
  - intros h e He Hd. pose proof (ci_live0 _ _ He Hd) as Hl.
    destruct (ci_map0 _ _ Hl) as (Hr&_). pose proof (ci_born0 _ _ He) as Hb.
    rewrite drop_app_le by done. rewrite cells_for_snoc, <-(ci_fifo0 _ _ He Hd).
    unfold pending. simpl. rewrite Hp, app_nil_r, <-app_assoc. f_equal. f_equal.
    destruct (bool_decide_reflect (CircID c = eid e)) as [Hc|Hc].
    + rewrite Hc, decide_False, Hl in Hpe by lia. subst p. by rewrite decide_True.
    + destruct p as [[h' c']|]; [|done]. case_decide; [done|].
      destruct (circuits ch !! CircID c) as [h''|] eqn:Hx; simplify_eq.
      destruct (ci_map0 _ _ Hx) as (_&e'&He'&_&Hei'). rewrite decide_False; [done|].
      intros ->. congruence.
  - intros h e He. rewrite length_app. pose proof (ci_born0 _ _ He). lia.
  - intros h c' ->. case_decide; [done|].
    destruct (circuits ch !! CircID c) as [h''|] eqn:Hx; simplify_eq.
    destruct (ci_map0 _ _ Hx) as (_&e'&He'&_&Hei'). eauto.
Qed.

Lemma inv_read ch :
  ch_inv ch → pump ch = None → ∃ ch', readLoop_read ch = Ok ch' ∧ ch_inv ch'.
Proof.
  intros Hi Hp. unfold readLoop_read. pose proof (ReadCell_safe (br ch)) as Hs.
  destruct (ReadCell (br ch) CircIDLenWide) as [[c rest]|e|]; [| |done].
  - destruct (decide (CircID c = 0%Z)) eqn:Hd.
    + eexists. split; [reflexivity|]. apply inv_read_cell; [done|done|]. by rewrite Hd.
    + destruct (circuits ch !! CircID c) as [h|] eqn:Hc; (eexists; split; [reflexivity|]);
        apply inv_read_cell; try done; by rewrite Hd, Hc.
  - destruct (inv_failAll (ReadErr e) ch Hi) as (ch'&->&Hi'&_&Hall). osimpl.
    eexists. split; [reflexivity|]. by apply inv_stopped.
Qed.

(** Changing the queue of one entry, and what the pump holds. *)
Lemma inv_entry h e e' p ch :
  ch_inv ch → entries ch !! h = Some e →
  eid e' = eid e → edone e' = edone e → born e' = born e →
  length (inbox e') ≤ circuitInboxDepth →
  (∀ h' c, p = Some (h', c) → pump ch = Some (h', c)) →
  (∀ h' c, pump ch = Some (h', c) → h' ≠ h → p = Some (h', c)) →
  (taken e' ++ inbox e' ++ match p with Some (h', c) => if decide (h' = h) then [c] else [] | None => [] end
   = taken e ++ inbox e ++ pending h ch) →
  ch_inv (set_pump p (br ch) (rlog ch) (set_circuits (circuits ch) (<[h := e']> (entries ch)) ch)).
Proof.
  intros [] He Hid Hdn Hbn Hlen Hp1 Hp2 Hq.
  assert (∀ h1 e1, <[h:=e']> (entries ch) !! h1 = Some e1 →
    (h1 = h ∧ e1 = e') ∨ (h1 ≠ h ∧ entries ch !! h1 = Some e1)) as Hl.
  { intros h1 e1. destruct (decide (h1 = h)) as [->|].
    - rewrite list_lookup_insert_eq by (by eapply lookup_lt_Some). intros [= <-]. by left.
    - rewrite list_lookup_insert_ne by done. by right. }
  constructor; simpl; try done.
  - intros i h1 Hc. destruct (ci_map0 _ _ Hc) as (?&e1&He1&Hd1&Hi1). split; [done|].
    destruct (decide (h1 = h)) as [->|].
    + exists e'. rewrite list_lookup_insert_eq by (by eapply lookup_lt_Some).
      split; [done|]. assert (e1 = e) as -> by congruence. split; congruence.
    + exists e1. by rewrite list_lookup_insert_ne.
  - intros h1 e1 H1 Hd1. apply Hl in H1 as [[-> ->]|[_ H1]]; [|by apply ci_live0].
    rewrite Hid. apply ci_live0; [done|congruence].
  - intros h1 e1 H1. apply Hl in H1 as [[-> ->]|[_ H1]]; [done|by eapply ci_inbox0].
  - intros h1 e1 H1 Hd1. apply Hl in H1 as [[-> ->]|[Hne H1]].
    + unfold pending. simpl. rewrite Hq, Hid, Hbn. apply ci_fifo0; [done|congruence].
    + rewrite <-(ci_fifo0 _ _ H1 Hd1). f_equal. f_equal. unfold pending. simpl.
      destruct (pump ch) as [[h2 c2]|] eqn:Hpc.
      * destruct (decide (h2 = h)) as [->|Hh2]; [|by rewrite (Hp2 _ _ eq_refl Hh2)].
        rewrite (decide_False (P := h = h1)) by done.
        destruct p as [[h3 c3]|]; [|done]. specialize (Hp1 _ _ eq_refl). injection Hp1 as <- <-.
        by rewrite decide_False.
      * destruct p as [[h3 c3]|]; [|done]. by specialize (Hp1 _ _ eq_refl).
  - intros h1 e1 H1. apply Hl in H1 as [[-> ->]|[_ H1]]; [rewrite Hbn|]; by eapply ci_born0.
  - intros h1 c1 Hp. apply Hp1 in Hp. destruct (ci_pump0 _ _ Hp) as (e1&H1&H2).
    destruct (decide (h1 = h)) as [->|].
    + exists e'. rewrite list_lookup_insert_eq by (by eapply lookup_lt_Some). split; [done|congruence].
    + exists e1. by rewrite list_lookup_insert_ne.
Qed.

Lemma inv_deliver ch ch' : readLoop_deliver ch = Some ch' → ch_inv ch → ch_inv ch'.
Proof.
  unfold readLoop_deliver. destruct (pump ch) as [[h c]|] eqn:Hp; [|done].
  destruct (entries ch !! h) as [e|] eqn:He; [|done].
  destruct (Nat.ltb_spec (length (inbox e)) circuitInboxDepth) as [Hlt|]; [|done].
  intros [= <-] Hi. apply (inv_entry h e); simpl; try done.
  - rewrite length_app. simpl. lia.
  - intros h' c' Hx Hne. congruence.
  - unfold pending. rewrite Hp, decide_True, app_nil_r by done. done.
Qed.

Lemma inv_recv h c ch ch' : inbox_recv h ch = Some (c, ch') → ch_inv ch → ch_inv ch'.
Proof.
  unfold inbox_recv. destruct (entries ch !! h) as [e|] eqn:He; [|done].
  destruct (inbox e) as [|c' q] eqn:Hq; [done|]. intros [= <- <-] Hi.
  pose proof (ci_inbox ch Hi _ _ He) as Hlen. rewrite Hq in Hlen. simpl in Hlen.
  assert (ch_inv (set_pump (pump ch) (br ch) (rlog ch) (set_circuits (circuits ch)
    (<[h := mkEntry (eid e) q (edone e) (taken e ++ [c']) (born e)]> (entries ch)) ch))) as H.
  { apply (inv_entry h e); simpl; try done; [lia|]. unfold pending. by rewrite Hq, <-app_assoc. }
  by destruct H.
Qed.

Lemma inv_drop ch ch' : readLoop_drop ch = Some ch' → ch_inv ch → ch_inv ch'.
Proof.
  unfold readLoop_drop. destruct (pump ch) as [[h c]|] eqn:Hp; [|done].
  destruct (entries ch !! h) as [e|] eqn:He; [|done]. destruct (edone e) eqn:Hd; [|done].
  intros [= <-] []. constructor; simpl; try done.
  intros h1 e1 H1 Hd1. rewrite <-(ci_fifo0 _ _ H1 Hd1). unfold pending. simpl. rewrite Hp.
  rewrite decide_False; [done|]. intros ->. congruence.
Qed.

Lemma inv_quit ch ch' : readLoop_quit ch = Some ch' → ch_inv ch → ch_inv ch'.
Proof.
  unfold readLoop_quit. destruct (done ch) eqn:Hd; [|done]. intros [= <-] Hi.
  apply inv_stopped; [done|]. intros h e He. destruct (edone e) eqn:Hde; [done|].
  rewrite (ci_done ch Hi) in Hd. pose proof (ci_live ch Hi _ _ He Hde) as Hl.
  by rewrite (proj1 (ci_err ch Hi Hd)) in Hl.
Qed.

Lemma inv_send c r ch ch' : SendCell_ c ch = Some (r, ch') → ch_inv ch → ch_inv ch'.
Proof.
  unfold SendCell_, writeCell. destruct (writeConn _ _) as [[[] cn]|]; [|..|done]; by intros [= <- <-] [].
Qed.

Lemma inv_step ch ch' : step ch ch' → ch_inv ch → ch_inv ch'.
Proof.
  intros Hst Hi. destruct Hst as [? ? ? H|? ? ? H|? ? ? ? H|? ? ? ? H|? ? H|? ? ? Hp H|? ? ? H
    |? ? ? H|? ? ? ? H].
  - by eapply inv_alloc.
  - destruct (inv_free i ch Hi) as (?&?&?). congruence.
  - by eapply inv_send.
  - by eapply inv_recv.
  - destruct (inv_failAll ClosedErr ch Hi) as (ch1&Hf&[]&_). unfold Close in H. rewrite Hf in H. by injection H as <-.
  - destruct (inv_read ch Hi Hp) as (?&?&?). congruence.
  - by eapply inv_deliver.
  - by eapply inv_drop.
  - by eapply inv_quit.
Qed.

Lemma inv_reachable w input rs ch :
  Forall (λ d, (0 ≤ d < 2 ^ 32)%Z) rs → rtc step (fresh w input rs) ch → ch_inv ch.
Proof.
  intros Hr H. pose proof (inv_fresh w input rs Hr) as Hi. revert Hi.
  induction H; [done|]. intros. apply IHrtc. by eapply inv_step.
Qed.

(** C25: demultiplexing.  Under every interleaving of the read pump with
    allocations, frees, sends, receives and teardown, each live circuit gets
    exactly the cells with its ID that were read since it was allocated, in
    order: those it has taken, then those in its inbox, then the one the pump
    holds.  Its ID has the top bit set and belongs to no other live circuit,
    and no inbox exceeds its depth of 256. *)
Theorem demux_fifo (w : W) (input : bytes) (rs : list Z) (ch : Channel) (h : nat) (e : circEntry) :
  Forall (λ d, (0 ≤ d < 2 ^ 32)%Z) rs → rtc step (fresh w input rs) ch →
  entries ch !! h = Some e → edone e = false →
  taken e ++ inbox e ++ pending h ch = cells_for (eid e) (drop (born e) (rlog ch)) ∧
  (2 ^ 31 ≤ eid e < 2 ^ 32)%Z ∧ length (inbox e) ≤ 256 ∧
  ∀ h' e', entries ch !! h' = Some e' → edone e' = false → eid e' = eid e → h' = h.
Proof.
  intros Hr H He Hd. pose proof (inv_reachable _ _ _ _ Hr H) as Hi.
  pose proof (ci_live ch Hi _ _ He Hd) as Hl. destruct (ci_map ch Hi _ _ Hl) as (Hrange&_).
  split; [by eapply ci_fifo|]. split; [done|]. split; [by eapply (ci_inbox ch Hi)|].
  - intros h' e' He' Hd' Heq. pose proof (ci_live ch Hi _ _ He' Hd'). congruence.
Qed.

(** Teardown never panics.  In every reachable state, freeing any ID,
    failing the whole channel with any error and the pump's next read all
    complete without closing a done channel a second time; failing the
    channel leaves no circuit waiting, and every later allocation reports the
    error the channel was closed with. *)
Theorem teardown_safe (w : W) (input : bytes) (rs : list Z) (ch : Channel) :
  Forall (λ d, (0 ≤ d < 2 ^ 32)%Z) rs → rtc step (fresh w input rs) ch →
  (∀ i, is_ok (FreeCircuit_ i ch) = true) ∧
  (pump ch = None → is_ok (readLoop_read ch) = true) ∧
  ∀ err, ∃ ch', failAll err ch = Ok ch' ∧
    (∀ h e, entries ch' !! h = Some e → edone e = true) ∧
    ∃ err', AllocCircuit_ ch' = Some (Err err', ch') ∧ (closed ch = false → err' = err).
Proof.
  intros Hr H. pose proof (inv_reachable _ _ _ _ Hr H) as Hi. split_and!.
  - intros i. by destruct (inv_free i ch Hi) as (?&->&_).
  - intros Hp. by destruct (inv_read ch Hi Hp) as (?&->&_).
  - intros err. destruct (inv_failAll err ch Hi) as (ch'&Hf&Hi'&Hc&Hall).
    exists ch'. split; [done|]. split; [done|].
    destruct (proj2 (ci_err ch' Hi' Hc)) as [err' He']. exists err'.
    split; [unfold AllocCircuit_; by rewrite Hc, He'|].
    intros Ho. unfold failAll in Hf. rewrite Ho in Hf.
    destruct (close_all _ _); [|done..]. simpl in Hf. destruct (done ch); [done|].
    injection Hf as <-. simpl in He'. congruence.
Qed.
End Facts.
