(* ===== verification/ChannelHandshake.v ===== *)
(** * The link handshake, end to end. *)

From S2P Require Import Prelude ByteUtil Cell TorCrypto ToyCrypto GoNet Circuit Cert Channel.
Import Channel.

(** ** Version negotiation *)

(** The 16-bit words of a VERSIONS payload; an odd last byte is ignored. *)
Fixpoint words (b : bytes) : list Z :=
  match b with
  | x :: y :: b => be_decode [x; y] :: words b
  | _ => []
  end.

Lemma offered_words fuel r s :
  Reader.wf r → Reader.view r = Some s → length s ≤ fuel → offered fuel r = words s.
Proof.
  revert r s. induction fuel as [|fuel IH]; intros r s Hw Hv Hl.
  { destruct s; [done|simpl in Hl; lia]. }
  cbn [offered]. rewrite (Reader.Remaining_view _ _ Hw Hv).
  destruct s as [|x [|y s]]; [done..|].
  destruct (Z.leb_spec 2 (Z.of_nat (length (x :: y :: s)))) as [_|Hlt]; [|simpl in Hlt; lia].
  rewrite Reader.U16_fixed.
  destruct (Reader.fixed_ok 2 r _ Hw Hv) as (H1&H2&H3); [simpl; lia|].
  rewrite H1. simpl. f_equal. apply IH; [done|done|]. simpl in Hl. lia.
Qed.

Lemma negotiateVersion_spec payload :
  negotiateVersion payload =
    if bool_decide (5%Z ∈ words payload) then Ok 5%Z
    else if bool_decide (4%Z ∈ words payload) then Ok 4%Z
    else Err NoCommonVersion.
Proof.
  unfold negotiateVersion. rewrite (offered_words _ _ payload); [|apply Reader.wf_new|done|done].
  unfold supportedLinkVersions. cbn [first_offered].
  destruct (bool_decide (5%Z ∈ words payload)); [done|].
  by destruct (bool_decide (4%Z ∈ words payload)).
Qed.

(** Version negotiation.  The client settles on link version 5 exactly
    when the relay offers it, on 4 exactly when the relay offers 4 but not 5,
    and refuses otherwise; a trailing odd byte of the offer is ignored. *)
Theorem negotiateVersion_highest (payload : bytes) :
  negotiateVersion payload =
    if bool_decide (5%Z ∈ words payload) then Ok 5%Z
    else if bool_decide (4%Z ∈ words payload) then Ok 4%Z
    else Err NoCommonVersion.
Proof. apply negotiateVersion_spec. Qed.

(** ** The cells before NETINFO *)
Section Handshake.
Context {W : Type} `{!NetConn W}.
Notation Channel := (Channel (W:=W)).
Implicit Types ch : Channel.

(** The payload of the last CERTS cell. *)
Fixpoint last_certs (acc : option bytes) (cs : list Cell) : option bytes :=
  match cs with
  | [] => acc
  | c :: cs => last_certs (if decide (Cmd c = CmdCerts) then Some (Payload c) else acc) cs
  end.

Definition not_netinfo (c : Cell) : Prop := wf_cell CircIDLenWide c ∧ Cmd c ≠ CmdNetinfo.

Definition stream_of (cs : list Cell) : bytes := mjoin (map (λ c, Encode c CircIDLenWide) cs).

Lemma readCell_wf w c rest ch :
  w = CircIDLenShort ∨ w = CircIDLenWide → wf_cell w c → br ch = Encode c w ++ rest →
  readCell w ch = Some (Ok c, set_br rest ch).
Proof. intros Hw Hc Hb. unfold readCell. by rewrite Hb, ReadCell_wf. Qed.

Lemma set_br_twice b b' ch : set_br b (set_br b' ch) = set_br b ch.
Proof. done. Qed.

Lemma read_until_skip cs n acc ch rest :
  Forall not_netinfo cs → br ch = stream_of cs ++ rest →
  read_until_netinfo n acc ch =
    if n <=? length cs then Some (Err TooManyCells,
      set_br (stream_of (drop n cs) ++ rest) ch)
    else read_until_netinfo (n - length cs) (last_certs acc cs) (set_br rest ch).
Proof.
  revert n acc ch. induction cs as [|c cs IH]; intros n acc ch Hc Hb.
  { assert (set_br rest ch = ch) as Hs by (destruct ch; simpl in Hb; by subst).
    rewrite drop_nil. change (stream_of [] ++ rest) with rest. rewrite Hs. by destruct n. }
  destruct n as [|n].
  { simpl. rewrite <-Hb. by destruct ch. }
  inversion Hc as [|? ? [Hw Hn] Hc']; subst. cbn [read_until_netinfo length].
  change (stream_of (c :: cs)) with (Encode c CircIDLenWide ++ stream_of cs) in Hb.
  rewrite <-app_assoc in Hb. rewrite prog_bind_eq. unfold map_error.
  rewrite (readCell_wf _ _ _ _ (or_intror eq_refl) Hw Hb). cbn [map_err].
  rewrite (decide_False (P := Cmd c = CmdNetinfo)) by done.
  specialize (IH n). cbn [last_certs drop].
  destruct (decide (Cmd c = CmdCerts)); rewrite IH by done; rewrite set_br_twice; done.
Qed.

Section Crypto.
Context `{C : Crypto}.

Lemma writeCell_up c w ch : conn_up W → ∃ cn, writeCell c w ch = Some (Ok tt, set_conn cn ch).
Proof.
  intros Hu. unfold writeCell, writeConn. set (cn := setWriteDeadline _ _).
  destruct (Hu (conn_Now (raw (conn ch)) + cellWriteTimeout)%Z (raw cn) (Encode c w)) as [w' Hw].
  cbn [writeDeadline cn setWriteDeadline] in *. rewrite Hw. by eexists.
Qed.

(** A cell write changes nothing but the connection. *)
Lemma writeCell_frame c w ch o ch' : writeCell c w ch = Some (o, ch') → ∃ cn, ch' = set_conn cn ch.
Proof. unfold writeCell. destruct (writeConn _ _) as [[[] cn]|]; intros [= _ <-]; by eexists. Qed.

(** The handshake is bounded.  A relay that keeps sending cells without
    NETINFO, padding included, is given up after 64 of them. *)
Theorem handshake_bounded (addr : bytes) (expected : option bytes) (now : Z)
    (peerCerts : list bytes) (ch : Channel) (ver : Cell) (cs : list Cell) (rest : bytes) (v : Z) :
  conn_up W → wf_cell CircIDLenShort ver → Cmd ver = CmdVersions →
  negotiateVersion (Payload ver) = Ok v →
  Forall not_netinfo cs → 64 ≤ length cs →
  br ch = Encode ver CircIDLenShort ++ stream_of cs ++ rest →
  ∃ ch', handshake addr expected now peerCerts ch = Some (Err TooManyCells, ch') ∧
    br ch' = stream_of (drop 64 cs) ++ rest.
Proof.
  intros Hu Hw Hv Hn Hcs Hlen Hb. unfold handshake. rewrite prog_bind_eq. unfold map_error at 1.
  edestruct writeCell_up as [cn ->]; [done|]. cbn [map_err]. rewrite prog_bind_eq. unfold map_error at 1.
  rewrite (readCell_wf _ ver (stream_of cs ++ rest)); [|by left|done|done].
  cbn [map_err]. rewrite bool_decide_true by done. cbn [negb]. rewrite prog_bind_eq. unfold lift at 1.
  rewrite Hn. rewrite prog_bind_eq. cbn [modify]. rewrite prog_bind_eq.
  rewrite (read_until_skip cs _ _ _ rest) by done. unfold maxHandshakeCells.
  destruct (Nat.leb_spec 64 (length cs)); [|lia]. eexists. split; [reflexivity|]. done.
Qed.

(** The handshake against an honest relay.  If the relay answers with a
    VERSIONS cell offering a supported version, then fewer than 64 cells
    among which the last CERTS cell verifies for its TLS certificate and the
    expected identity, then NETINFO, the handshake succeeds: it records the
    negotiated version and exactly the verified identity, and leaves the
    bytes after NETINFO unread for the read pump. *)
Theorem handshake_honest (addr : bytes) (expected : option bytes) (now : Z) (leaf : bytes)
    (others : list bytes) (ch : Channel) (ver info : Cell) (cs : list Cell) (rest : bytes)
    (v : Z) (certs idk : bytes) :
  conn_up W → wf_cell CircIDLenShort ver → Cmd ver = CmdVersions →
  negotiateVersion (Payload ver) = Ok v →
  Forall not_netinfo cs → length cs < 64 → last_certs None cs = Some certs →
  wf_cell CircIDLenWide info → Cmd info = CmdNetinfo →
  Cert.verifyCerts certs leaf now = Ok idk →
  (∀ e, expected = Some e → e = idk) →
  br ch = Encode ver CircIDLenShort ++ stream_of cs ++ Encode info CircIDLenWide ++ rest →
  ∃ ch', handshake addr expected now (leaf :: others) ch = Some (Ok tt, ch') ∧
    linkVersion ch' = v ∧ edIdentity ch' = Some idk ∧ br ch' = rest.
Proof.
  intros Hu Hw Hv Hn Hcs Hlen Hlc Hwi Hni Hver Hexp Hb.
  unfold handshake. rewrite prog_bind_eq. unfold map_error at 1.
  edestruct writeCell_up as [cn ->]; [done|]. cbn [map_err]. rewrite prog_bind_eq. unfold map_error at 1.
  rewrite (readCell_wf _ ver (stream_of cs ++ Encode info CircIDLenWide ++ rest)); [|by left|done|done].
  cbn [map_err]. rewrite bool_decide_true by done. cbn [negb]. rewrite prog_bind_eq. unfold lift at 1.
  rewrite Hn. rewrite prog_bind_eq. cbn [modify]. rewrite prog_bind_eq.
  rewrite (read_until_skip cs _ _ _ (Encode info CircIDLenWide ++ rest)) by done.
  unfold maxHandshakeCells. destruct (Nat.leb_spec 64 (length cs)); [lia|].
  destruct (64 - length cs) as [|k] eqn:Hk; [lia|]. cbn [read_until_netinfo].
  rewrite prog_bind_eq. unfold map_error at 1.
  rewrite (readCell_wf _ info rest); [|by right|done|done]. cbn [map_err].
  rewrite decide_False by (by rewrite Hni). rewrite decide_True by done. rewrite Hlc.
  cbn [mret prog_ret]. rewrite prog_bind_eq. unfold lift at 1. rewrite Hver. cbn [map_err].
  assert (match expected with Some e => negb (bool_decide (idk = e)) | None => false end = false) as ->.
  { destruct expected as [e|]; [|done]. rewrite (Hexp e eq_refl), bool_decide_true by done. done. }
  rewrite prog_bind_eq. cbn [modify]. unfold map_error. edestruct writeCell_up as [cn2 ->]; [done|].
  eexists. split; [reflexivity|]. done.
Qed.

(** ** What success establishes *)

Lemma bind_run_Ok {S E A B} (m : prog S E A) (f : A → prog S E B) s b s' :
  (m ≫= f) s = Some (Ok b, s') → ∃ a s1, m s = Some (Ok a, s1) ∧ f a s1 = Some (Ok b, s').
Proof.
  rewrite prog_bind_eq. destruct (m s) as [[[a|e|] s1]|]; try done. eauto.
Qed.

(** The handshake authenticates.  Whatever the peer sends, a handshake
    that returns without error has recorded an Ed25519 identity with an
    authentic certificate chain (in some CERTS payload received) to the TLS
    certificate the peer presented, equal to the expected identity whenever
    one was given, and a link version of 4 or 5. *)
Theorem handshake_authenticates (addr : bytes) (expected : option bytes) (now : Z)
    (peerCerts : list bytes) (ch ch' : Channel) :
  handshake addr expected now peerCerts ch = Some (Ok tt, ch') →
  ∃ idk leaf others certsPayload m,
    edIdentity ch' = Some idk ∧ peerCerts = leaf :: others ∧
    Cert.parseCertsCell certsPayload = Ok m ∧ Cert.chain m leaf now idk ∧
    (∀ e, expected = Some e → idk = e) ∧ (linkVersion ch' = 4%Z ∨ linkVersion ch' = 5%Z).
Proof.
  unfold handshake. intros H. apply bind_run_Ok in H as (? & ch1 & _ & H).
  apply bind_run_Ok in H as (ver & ch2 & _ & H).
  destruct (negb _); [done|]. apply bind_run_Ok in H as (v & ch3 & Hv & H).
  apply bind_run_Ok in H as (? & ch4 & Hset & H). cbn [modify] in Hset. injection Hset as <- <-.
  apply bind_run_Ok in H as (certs & ch5 & Hcerts & H).
  assert (linkVersion ch5 = v) as Hlv.
  { clear -Hcerts. assert (linkVersion (set_version v ch3) = v) as Hv by done. revert Hv Hcerts.
    generalize (set_version v ch3), (None : option bytes). generalize maxHandshakeCells.
    intros n. induction n as [|n IH]; intros c0 acc Hv; [done|]. cbn [read_until_netinfo].
    intros H. apply bind_run_Ok in H as (c & c1 & Hr & H).
    assert (linkVersion c1 = v) as Hv1.
    { unfold map_error, readCell in Hr.
      destruct (ReadCell (br c0) CircIDLenWide) as [[? ?]|[]|]; [|destruct (conn_ReadEnds _ _)|..]; by simplify_eq/=. }
    case_decide; [by eapply IH|]. case_decide; [by injection H as <- <-|by eapply IH]. }
  destruct certs as [payload|]; [|done]. destruct peerCerts as [|leaf others]; [done|].
  apply bind_run_Ok in H as (idk & ch6 & Hid & H).
  unfold lift in Hid. injection Hid as Hid <-.
  destruct (Cert.verifyCerts payload leaf now) as [k| |] eqn:Ev; cbn [map_err] in Hid; [|done..].
  injection Hid as ->.
  destruct (match expected with Some e => _ | None => _ end) eqn:Hexp; [done|].
  apply bind_run_Ok in H as (? & ch7 & Hs & H). cbn [modify] in Hs. injection Hs as <- <-.
  destruct (Cert.verifyCerts_chain _ _ _ _ Ev) as (m&Hm&Hc).
  exists idk, leaf, others, payload, m.
  unfold map_error in H. destruct (writeCell _ _ _) as [[o' ch8]|] eqn:Ew; [|done].
  apply writeCell_frame in Ew as [cn ->]. injection H as _ <-.
  split_and!; try done.
  - intros e ->. by bools.
  - unfold lift in Hv. injection Hv as Hv _. rewrite negotiateVersion_spec in Hv.
    cbn [linkVersion set_conn set_identity]. rewrite Hlv.
    destruct (bool_decide _); [injection Hv as <-; by right|].
    destruct (bool_decide _); [injection Hv as <-; by left|done].
Qed.
End Crypto.
End Handshake.
