(* ===== verification/ChannelDial.v ===== *)
(** * [Dial] of pkg/channel: the TLS dial, the deadline and the handshake.

    The TLS dial is a parameter: whether it answers, and if it connects, the
    connection, the bytes that arrive on it, and the certificates the peer
    presented. *)

From S2P Require Import Prelude ByteUtil Cell TorCrypto GoNet Circuit Cert Channel ChannelHandshake.
Import Channel.

Inductive dial_error := TLSDialErr | LinkErr (e : channel_error).

(** Nanoseconds. *)
Definition handshakeTimeout : Z := 30 * 1000000000.
(** [cfg_handshakeTimeout] is zero unless a test sets it. *)
Record Config := mkConfig { ExpectedEd25519 : option bytes; cfg_handshakeTimeout : Z }.

(** The deadline of the handshake at time [now]. *)
Definition hsDeadline (cfg : Config) (now : Z) (ctx : option Z) : Z :=
  let hsTimeout := if (0 <? cfg_handshakeTimeout cfg)%Z then cfg_handshakeTimeout cfg else handshakeTimeout in
  let d := (now + hsTimeout)%Z in
  match ctx with Some c => if (c <? d)%Z then c else d | None => d end.

Section Dial.
Context {W : Type} `{!NetConn W} `{C : Crypto}.
Notation Channel := (Channel (W := W)).

(** [tls] is what [DialContext] answers ([None] if it never does): an error, or
    the connection with what arrives on it and the peer's certificates.  [now]
    and [now'] are the two clock readings, [rs] the random numbers to come.  The
    connection is returned as [Dial] leaves it. *)
Definition Dial (tls : option (option (W * bytes * list bytes))) (addr : bytes) (cfg : Config) (ctx : option Z) (now now' : Z)
    (rs : list Z) : option (outcome dial_error Channel * option (tlsConn W)) :=
  match tls with
  | None => None
  | Some None => Some (Err TLSDialErr, None)
  | Some (Some (w, input, peerCerts)) =>
      let cn := setDeadline (Some (hsDeadline cfg now ctx)) (new_conn w) in
      match handshake addr (ExpectedEd25519 cfg) now' peerCerts (over cn input rs) with
      | None => None
      | Some (Panic, ch) => Some (Panic, Some (conn ch))
      | Some (Err e, ch) => Some (Err (LinkErr e), Some (closeConn (conn ch)))
      | Some (Ok _, ch) =>
          let ch := set_conn (setDeadline None (conn ch)) ch in
          Some (Ok ch, Some (conn ch))
      end
  end.

(** ** The handshake returns *)

Lemma ReadFull_panics r n : panics (ReadFull r n) = false.
Proof. unfold ReadFull. by repeat case_match. Qed.

Lemma ReadCell_panics r w : panics (ReadCell r w) = false.
Proof.
  unfold ReadCell. apply bind_panics; [rewrite Cert.map_err_panics; apply ReadFull_panics|]. intros [header r1] Hh.
  apply map_err_Ok, ReadFull_Ok in Hh as [_ Hl]. destruct (idx_in_range (E := cell_error) header w) as [cmd Hc]; [lia|].
  cbv zeta. rewrite Hc. cbn [mbind outcome_bind]. destruct (IsVariable cmd).
  - apply bind_panics; [rewrite Cert.map_err_panics; apply ReadFull_panics|]. intros [lb r2] _.
    destruct (_ <? _)%Z; [done|]. apply bind_panics; [rewrite Cert.map_err_panics; apply ReadFull_panics|]. by intros [b r3] _.
  - apply bind_panics; [rewrite Cert.map_err_panics; apply ReadFull_panics|]. by intros [b r3] _.
Qed.

Definition is_write_deadline (o : conn_op) : Prop := match o with SetWriteDeadline _ => True | _ => False end.

(** During the handshake: reads are under the deadline [d], which only cell
    writes have touched the connection's deadlines after; no circuit is
    registered. *)
Record handshaking (d : Z) (ch : Channel) : Prop := {
  hk_read : readDeadline (conn ch) = Some d;
  hk_circuits : circuits ch = ∅;
  hk_closed : closed ch = false;
  hk_ops : ∃ mid, ops (conn ch) = SetDeadline (Some d) :: mid ∧ Forall is_write_deadline mid
}.

Section Bounded.
Context `{!NetConnLaws W}.

Lemma readCell_returns d w ch : handshaking d ch → returns (readCell w) ch (λ _, handshaking d).
Proof.
  intros [Hr ? ? ?]. unfold readCell, returns. pose proof (ReadCell_panics (br ch) w) as Hp. rewrite Hr, read_deadline.
  destruct (ReadCell (br ch) w) as [[c rest]|[]|]; [by eexists _, _..|done].
Qed.

Lemma writeCell_returns d c w ch : handshaking d ch → returns (writeCell c w) ch (λ _, handshaking d).
Proof.
  intros [Hr ? ? (mid & Ho & Hm)]. unfold writeCell, returns, writeConn. set (t := (_ + cellWriteTimeout)%Z).
  cbn [writeDeadline setWriteDeadline]. destruct (write_deadline t (raw (setWriteDeadline (Some t) (conn ch))) (Encode c w)) as [[ok w'] ->].
  assert (∀ cn tail, readDeadline cn = Some d → ops cn = ops (conn ch) ++ tail → Forall is_write_deadline tail →
    handshaking d (set_conn cn ch)) as Hk.
  { intros cn tail H1 H2 H3. constructor; [done..|]. exists (mid ++ tail). cbn [conn set_conn]. rewrite H2, Ho. by rewrite Forall_app. }
  destruct ok; eexists _, _; (split; [reflexivity|]); (split; [done|]).
  - apply (Hk _ [SetWriteDeadline (Some t); SetWriteDeadline None]); [done|cbn; by rewrite <-app_assoc|by repeat constructor].
  - apply (Hk _ [SetWriteDeadline (Some t)]); [done..|by repeat constructor].
Qed.

Lemma read_until_netinfo_returns d n certs ch : handshaking d ch → returns (read_until_netinfo n certs) ch (λ _, handshaking d).
Proof.
  revert certs ch. induction n as [|n IH]; intros certs ch Hk; cbn [read_until_netinfo]; [by apply returns_throw|].
  apply returns_bind, returns_map_error. eapply returns_weaken; [by apply readCell_returns|].
  intros [c|er|] ch1 Hp Hk1; cbn [map_err]; [|done..]. case_decide; [by apply IH|]. case_decide; [by apply returns_ret|by apply IH].
Qed.

Lemma negotiate_panics payload : negotiateVersion payload ≠ Panic.
Proof. unfold negotiateVersion. by destruct (first_offered _ _). Qed.

Lemma handshaking_keep d ch f : (∀ c : Channel, conn (f c) = conn c ∧ circuits (f c) = circuits c ∧ closed (f c) = closed c) →
  handshaking d ch → handshaking d (f ch).
Proof. intros Hf []. destruct (Hf ch) as (E1 & E2 & E3). constructor; by rewrite ?E1, ?E2, ?E3. Qed.

Lemma handshake_returns d addr expected now certs ch : handshaking d ch →
  returns (handshake addr expected now certs) ch (λ _, handshaking d).
Proof.
  intros Hk. unfold handshake. apply returns_bind, returns_map_error. eapply returns_weaken; [by apply writeCell_returns|].
  intros [[]|er|] ch1 Hp Hk1; cbn [map_err]; [|done..]. apply returns_bind, returns_map_error.
  eapply returns_weaken; [by apply readCell_returns|]. intros [vc|er|] ch2 Hp2 Hk2; cbn [map_err]; [|done..].
  destruct (negb _); [by apply returns_throw|]. apply returns_bind, returns_lift; [apply negotiate_panics|].
  pose proof (negotiate_panics (Payload vc)). destruct (negotiateVersion (Payload vc)) as [v|er|]; [|done..]. apply returns_bind, returns_modify, returns_bind.
  eapply returns_weaken; [by apply read_until_netinfo_returns, handshaking_keep|]. intros [certs'|er|] ch3 Hp3 Hk3; [|done..].
  destruct certs' as [payload|]; [|by apply returns_throw]. destruct certs as [|leaf others]; [by apply returns_throw|].
  apply returns_bind. pose proof (Cert.verifyCerts_safe payload leaf now) as Hv. apply returns_lift.
  { by destruct (Cert.verifyCerts payload leaf now). }
  destruct (Cert.verifyCerts payload leaf now) as [idk|er|]; cbn [map_err]; [|done..].
  destruct (match expected with Some e => _ | None => _ end); [by apply returns_throw|].
  apply returns_bind, returns_modify, returns_map_error. by eapply returns_weaken; [apply writeCell_returns, handshaking_keep|].
Qed.
End Bounded.

(** ** What a successful handshake writes *)

(** A cell [c] written over the connection [cn], under a deadline of its own
    which is cleared afterwards. *)
Definition wrote_cell (cn : tlsConn W) (c : Cell) (width : nat) (cn' : tlsConn W) : Prop :=
  let t := (conn_Now (raw cn) + 30 * 1000000000)%Z in
  conn_Write (Some t) (raw cn) (Encode c width) = Some (true, raw cn') ∧
  ops cn' = ops cn ++ [SetWriteDeadline (Some t); SetWriteDeadline None] ∧
  readDeadline cn' = readDeadline cn ∧ writeDeadline cn' = None.

Lemma writeCell_wrote c w ch ch' : writeCell c w ch = Some (Ok tt, ch') → wrote_cell (conn ch) c w (conn ch').
Proof.
  unfold writeCell, writeConn, wrote_cell. unfold cellWriteTimeout. cbn [writeDeadline setWriteDeadline raw].
  destruct (conn_Write _ _ _) as [[[] w']|]; intros [= <-]. split_and!; [done|cbn; by rewrite <-app_assoc|done..].
Qed.

Lemma map_error_Ok {S E F A} (g : E → F) (m : prog S E A) s a s' :
  map_error g m s = Some (Ok a, s') → m s = Some (Ok a, s').
Proof. unfold map_error. destruct (m s) as [[[]]|]; naive_solver. Qed.

Lemma readCell_conn w cn : preserves (λ ch : Channel, conn ch = cn) (readCell w).
Proof.
  intros ch o ch'. unfold readCell. destruct (ReadCell (br ch) w) as [[c rest]|[]|]; [..|]; try (by intros [= _ <-]).
  destruct (conn_ReadEnds _ _); by intros [= _ <-].
Qed.

Lemma read_until_netinfo_conn n certs cn : preserves (λ ch : Channel, conn ch = cn) (read_until_netinfo n certs).
Proof.
  revert certs. induction n as [|n IH]; intros acc; cbn [read_until_netinfo]; [apply preserves_throw|].
  apply preserves_bind; [apply preserves_map_error, readCell_conn|]. intros c.
  case_decide; [apply IH|]. case_decide; [apply preserves_ret|apply IH].
Qed.

Definition VersionsCell : Cell := {| CircID := 0; Cmd := CmdVersions; Payload := encodeVersions supportedLinkVersions |}.
Definition NetinfoCell (addr : bytes) (now : Z) : Cell :=
  {| CircID := 0; Cmd := CmdNetinfo; Payload := encodeClientNetinfo addr now |}.

Lemma handshake_writes addr expected now certs ch ch' : handshake addr expected now certs ch = Some (Ok tt, ch') →
  ∃ cn, wrote_cell (conn ch) VersionsCell CircIDLenShort cn ∧ wrote_cell cn (NetinfoCell addr now) CircIDLenWide (conn ch').
Proof.
  unfold handshake. intros H. apply bind_run_Ok in H as ([] & ch1 & H1 & H). apply map_error_Ok, writeCell_wrote in H1.
  exists (conn ch1). split; [exact H1|]. clear H1.
  apply bind_run_Ok in H as (ver & ch2 & H2 & H). apply map_error_Ok in H2. pose proof (readCell_conn _ _ _ _ _ H2 eq_refl) as E2.
  destruct (negb _); [done|]. apply bind_run_Ok in H as (v & ch3 & H3 & H). injection H3 as _ <-.
  apply bind_run_Ok in H as (? & ch4 & H4 & H). injection H4 as _ <-.
  apply bind_run_Ok in H as (payload & ch5 & H5 & H). pose proof (read_until_netinfo_conn _ _ _ _ _ _ H5 eq_refl) as E5.
  destruct payload as [payload|]; [|done]. destruct certs as [|leaf others]; [done|].
  apply bind_run_Ok in H as (idk & ch6 & H6 & H). injection H6 as _ <-.
  destruct (match expected with Some e => _ | None => _ end); [done|].
  apply bind_run_Ok in H as (? & ch7 & H7 & H). injection H7 as _ <-.
  apply map_error_Ok, writeCell_wrote in H. cbn [conn set_identity] in H. rewrite E5 in H. cbn [conn set_version] in H. by rewrite E2 in H.
Qed.

Lemma hsDeadline_bounds cfg now ctx : cfg_handshakeTimeout cfg = 0%Z →
  (hsDeadline cfg now ctx ≤ now + 30 * 1000000000)%Z ∧ (∀ c, ctx = Some c → (hsDeadline cfg now ctx ≤ c)%Z).
Proof.
  intros Hz. unfold hsDeadline. rewrite Hz. cbn [Z.ltb Z.compare]. unfold handshakeTimeout.
  destruct ctx as [c|]; [|split; [lia|done]].
  split; [destruct (Z.ltb_spec c (now + 30 * 1000000000)); lia|].
  intros c' [= <-]. destruct (Z.ltb_spec c (now + 30 * 1000000000)); lia.
Qed.

(** C17: Once the TLS dial has answered, [Dial] returns without a panic whatever
    the relay sends or withholds: every read of the handshake is under a deadline
    [d] at most thirty seconds after the connection was made and never past the
    context's, and each of its two cell writes under one of its own, thirty
    seconds after the write begins, which replaces [d] for writes and is cleared
    afterwards.  A channel it returns has a verified identity, the expected one
    where one was given, certified for the TLS certificate of this very
    connection, a supported link version, no circuits, has written exactly the
    VERSIONS and the NETINFO cell, and no deadline is left on it; whenever [Dial]
    fails after connecting, its last act is to close the connection. *)
Theorem Dial_verified `{!NetConnLaws W} (tls : option (W * bytes * list bytes)) (addr : bytes) (cfg : Config)
    (ctx : option Z) (now now' : Z) (rs : list Z) :
  cfg_handshakeTimeout cfg = 0%Z →
  let d := hsDeadline cfg now ctx in
  (d ≤ now + 30 * 1000000000)%Z ∧ (∀ c, ctx = Some c → (d ≤ c)%Z) ∧
  ∃ o left, Dial (Some tls) addr cfg ctx now now' rs = Some (o, left) ∧
    match o with
    | Ok ch => left = Some (conn ch) ∧ readDeadline (conn ch) = None ∧ writeDeadline (conn ch) = None ∧
        circuits ch = ∅ ∧ closed ch = false ∧ (linkVersion ch = 4%Z ∨ linkVersion ch = 5%Z) ∧
        ∃ idk w input leaf others payload m cn1 cn2, tls = Some (w, input, leaf :: others) ∧ edIdentity ch = Some idk ∧
          Cert.parseCertsCell payload = Ok m ∧ Cert.chain m leaf now' idk ∧
          (∀ e, ExpectedEd25519 cfg = Some e → idk = e) ∧
          wrote_cell (mkConn w (Some d) (Some d) [SetDeadline (Some d)]) VersionsCell CircIDLenShort cn1 ∧
          wrote_cell cn1 (NetinfoCell addr now') CircIDLenWide cn2 ∧
          raw (conn ch) = raw cn2 ∧ ops (conn ch) = ops cn2 ++ [SetDeadline None]
    | Err TLSDialErr => tls = None ∧ left = None
    | Err (LinkErr _) => ∃ cn mid, left = Some cn ∧ Forall is_write_deadline mid ∧
        ops cn = [SetDeadline (Some d)] ++ mid ++ [CloseConn]
    | Panic => False
    end.
Proof.
  intros Hz d. destruct (hsDeadline_bounds cfg now ctx Hz) as [Hd1 Hd2]. split; [exact Hd1|]. split; [exact Hd2|].
  unfold Dial. destruct tls as [[[w input] certs]|]; [|by eexists _, _]. cbv zeta. fold d.
  set (ch0 := over _ input rs). assert (handshaking d ch0) as Hk0 by (constructor; [done..|by exists []]).
  destruct (handshake_returns d addr (ExpectedEd25519 cfg) now' certs ch0 Hk0) as (o & ch & Hr & Hp & [K1 K2 K3 (mid & K4 & K5)]).
  rewrite Hr. destruct o as [[]|er|]; [| |done]; eexists _, _; (split; [reflexivity|]).
  2: { exists (closeConn (conn ch)), mid. split_and!; [done..|]. cbn. by rewrite K4. }
  destruct (handshake_authenticates _ _ _ _ _ _ Hr) as (idk & leaf & others & payload & m & H1 & -> & H2 & H3 & H4 & H5).
  destruct (handshake_writes _ _ _ _ _ _ Hr) as (cn & Hw1 & Hw2).
  split_and!; try done. by exists idk, w, input, leaf, others, payload, m, cn, (conn ch).
Qed.

End Dial.
