(* ===== verification/ChannelExamples.v ===== *)
(** * Concrete runs of the link connection.

    A certificate chain signed with the stand-in primitives, the handshake
    against a relay that presents it, and a circuit's cells demultiplexed. *)

From S2P Require Import Prelude ByteUtil Cell TorCrypto ToyCrypto GoNet Circuit Cert Channel ChannelFacts ChannelHandshake ChannelDial.
From stdpp Require Import relations.
Import Channel.

(** A connection that records what is written. *)
#[export] Instance ex_conn : NetConn (list bytes) := {|
  conn_Write t w b := Some (true, w ++ [b]);
  conn_ReadEnds t w := match t with Some _ => true | None => false end;
  conn_Close w := w;
  conn_Now w := Z.of_nat (length w)
|}.
#[export] Instance ex_conn_laws : NetConnLaws (list bytes).
Proof. by split. Defined.

(** ** A certificate chain *)

Definition ex_idk : bytes := be_encode 32 5.
Definition ex_sk : bytes := be_encode 32 6.
Definition ex_tls : bytes := go"tls certificate".

(** Signing with the stand-in signature. *)
Definition ex_sign (key : bytes) (c : Cert.ed25519Cert) : Cert.ed25519Cert :=
  Cert.mkCert (Cert.certType c) (Cert.expiration c) (Cert.keyType c) (Cert.certifiedKey c)
    (Cert.extensions c) (toy_hash 64 (be_decode key) (Cert.body_wire c)) (Cert.body_wire c).

Definition ex_signing : Cert.ed25519Cert :=
  ex_sign ex_idk (Cert.mkCert x04 500000 x01 ex_sk [Cert.mkExt x04 x00 ex_idk] [] []).
Definition ex_linkcert : Cert.ed25519Cert :=
  ex_sign ex_sk (Cert.mkCert x05 500000 x03 (sha256 ex_tls) [] [] []).
Definition ex_raw (c : Cert.ed25519Cert) : bytes := Cert.body_wire c ++ Cert.signature c.
Definition ex_entry (t : byte) (b : bytes) : bytes := [t] ++ be_encode 2 (Z.of_nat (length b)) ++ b.
Definition ex_certs : bytes :=
  [x02] ++ ex_entry x04 (ex_raw ex_signing) ++ ex_entry x05 (ex_raw ex_linkcert).

(** In January 2026. *)
Definition ex_now : Z := 1767225600000000000.

Lemma ex_verifies : Cert.verifyCerts ex_certs ex_tls ex_now = Ok ex_idk.
Proof. vm_compute. reflexivity. Qed.

Lemma verifyCerts_witness :
  ∃ m, Cert.parseCertsCell ex_certs = Ok m ∧ Cert.chain m ex_tls ex_now ex_idk.
Proof.
  exact (proj1 (proj2 (Cert.verifyCerts_correct ex_certs ex_tls ex_now) ex_idk) ex_verifies).
Defined.

(** ** The handshake *)

Definition ex_versions : Cell :=
  {| CircID := 0; Cmd := CmdVersions; Payload := be_encode 2 3 ++ be_encode 2 4 ++ be_encode 2 5 |}.
Definition ex_certs_cell : Cell := {| CircID := 0; Cmd := CmdCerts; Payload := ex_certs |}.
Definition ex_challenge : Cell := {| CircID := 0; Cmd := CmdAuthChallenge; Payload := zeros 38 |}.
Definition ex_netinfo : Cell := {| CircID := 0; Cmd := CmdNetinfo; Payload := zeros PayloadLen |}.
Definition ex_padding : Cell := {| CircID := 0; Cmd := CmdPadding; Payload := zeros PayloadLen |}.

Definition ex_relay_bytes : bytes :=
  Encode ex_versions CircIDLenShort ++ stream_of [ex_certs_cell; ex_challenge]
  ++ Encode ex_netinfo CircIDLenWide ++ [x2a].
Definition ex_channel : Channel (W:=list bytes) := fresh [] ex_relay_bytes [].

Lemma ex_wf w c : wf_cell w c ↔
  circ_id_mod w (CircID c) = CircID c ∧
  if IsVariable (Cmd c) then (Z.of_nat (length (Payload c)) ≤ MaxVariableBody)%Z
  else length (Payload c) = PayloadLen.
Proof. done. Qed.

Ltac wf_tac := apply ex_wf; vm_compute; split; [reflexivity|first [reflexivity|discriminate]].

Lemma handshake_honest_witness :
  ∃ ch', handshake (go"10.0.0.1:9001") (Some ex_idk) ex_now [ex_tls] ex_channel = Some (Ok tt, ch') ∧
    linkVersion ch' = 5%Z ∧ edIdentity ch' = Some ex_idk ∧ br ch' = [x2a].
Proof.
  apply (handshake_honest (go"10.0.0.1:9001") (Some ex_idk) ex_now ex_tls [] ex_channel ex_versions
    ex_netinfo [ex_certs_cell; ex_challenge] [x2a] 5 ex_certs ex_idk).
  - intros t w b. by eexists.
  - wf_tac.
  - reflexivity.
  - vm_compute. reflexivity.
  - apply List.Forall_cons; [split; [wf_tac|discriminate]|].
    apply List.Forall_cons; [split; [wf_tac|discriminate]|apply List.Forall_nil].
  - simpl. lia.
  - reflexivity.
  - wf_tac.
  - reflexivity.
  - exact ex_verifies.
  - intros e He. injection He as <-. reflexivity.
  - reflexivity.
Defined.

Lemma handshake_authenticates_witness :
  match handshake (go"10.0.0.1:9001") None ex_now [ex_tls] ex_channel with
  | Some (Ok tt, ch') => linkVersion ch' = 4%Z ∨ linkVersion ch' = 5%Z
  | _ => False
  end.
Proof.
  destruct (handshake _ _ _ _ ex_channel) as [[[[]|e|] ch']|] eqn:E;
    [|vm_compute in E; discriminate..].
  destruct (handshake_authenticates _ _ _ _ _ _ E) as (?&?&?&?&?&_&_&_&_&_&H). exact H.
Defined.

(** The relay is dialed for its identity, under a context with a deadline. *)
Lemma Dial_verified_witness :
  ∃ ch, Dial (Some (Some ([], ex_relay_bytes, [ex_tls]))) (go"10.0.0.1:9001") (ChannelDial.mkConfig (Some ex_idk) 0) (Some (ex_now + 5)%Z)
          ex_now ex_now [] = Some (Ok ch, Some (conn ch)) ∧ edIdentity ch = Some ex_idk ∧
    readDeadline (conn ch) = None ∧ writeDeadline (conn ch) = None.
Proof.
  destruct (Dial_verified (Some ([], ex_relay_bytes, [ex_tls])) (go"10.0.0.1:9001") (ChannelDial.mkConfig (Some ex_idk) 0)
    (Some (ex_now + 5)%Z) ex_now ex_now [] eq_refl) as (_ & _ & o & left & Hd & Ho).
  destruct o as [ch|er|].
  - destruct Ho as (-> & H1 & H2 & _ & _ & _ & idk & _ & _ & _ & _ & _ & _ & _ & _ & _ & Hi & _ & _ & He & _).
    exists ch. split; [exact Hd|]. split; [rewrite Hi; f_equal; exact (He ex_idk eq_refl)|]. split; [exact H1|exact H2].
  - exfalso. vm_compute in Hd. discriminate.
  - destruct Ho.
Defined.

(** Without an answer, the handshake of a connection with no deadline waits for
    ever; under one, [Dial] gives up and closes the connection. *)
Example silent_relay_blocks : handshake (go"10.0.0.1:9001") None ex_now [ex_tls] (fresh (W := list bytes) [] [] []) = None.
Proof. vm_compute. reflexivity. Qed.
Example silent_relay_dial :
  match Dial (W := list bytes) (Some (Some ([], [], [ex_tls]))) (go"10.0.0.1:9001") (ChannelDial.mkConfig None 0) None ex_now ex_now [] with
  | Some (Err (LinkErr (ReadVersionsErr _)), Some cn) => last (ops cn) = Some CloseConn
  | _ => False
  end.
Proof. vm_compute. reflexivity. Qed.

Lemma handshake_bounded_witness :
  ∃ ch', handshake (go"10.0.0.1:9001") None ex_now [ex_tls]
      (fresh (W:=list bytes) [] (Encode ex_versions CircIDLenShort ++ stream_of (replicate 70 ex_padding) ++ []) [])
      = Some (Err TooManyCells, ch') ∧
    br ch' = stream_of (drop 64 (replicate 70 ex_padding)) ++ [].
Proof.
  apply (handshake_bounded (go"10.0.0.1:9001") None ex_now [ex_tls] _ ex_versions
    (replicate 70 ex_padding) [] 5).
  - intros t w b. by eexists.
  - wf_tac.
  - reflexivity.
  - vm_compute. reflexivity.
  - apply Forall_replicate. split; [wf_tac|discriminate].
  - rewrite length_replicate. lia.
  - reflexivity.
Defined.

(** ** One circuit *)

Definition ex_cell : Cell :=
  {| CircID := 2147483655; Cmd := CmdRelay; Payload := zeros PayloadLen |}.
Definition ex_ch0 : Channel (W:=list bytes) := fresh [] (Encode ex_cell CircIDLenWide) [7%Z].
Definition ex_ch1 : Channel (W:=list bytes) :=
  match AllocCircuit_ ex_ch0 with Some (_, ch) => ch | None => ex_ch0 end.
Definition ex_ch2 : Channel (W:=list bytes) :=
  match readLoop_read ex_ch1 with Ok ch => ch | _ => ex_ch1 end.

Lemma ex_reach_channel : rtc step ex_ch0 ex_ch2.
Proof.
  eapply rtc_l; [eapply (st_alloc ex_ch0 (Ok (2147483655%Z, 0)) ex_ch1); vm_compute; reflexivity|].
  eapply rtc_once, st_read; vm_compute; reflexivity.
Qed.

Lemma ex_draws : Forall (λ d, (0 ≤ d < 2 ^ 32)%Z) [7%Z].
Proof. repeat constructor; lia. Qed.

(** The circuit's first cell is held by the pump. *)
Lemma demux_fifo_witness :
  ∃ e, entries ex_ch2 !! 0 = Some e ∧
    taken e ++ inbox e ++ pending 0 ex_ch2 = cells_for (eid e) (drop (born e) (rlog ex_ch2)).
Proof.
  destruct (entries ex_ch2 !! 0) as [e|] eqn:E; [|vm_compute in E; discriminate].
  assert (edone e = false) as Hd by (vm_compute in E; injection E as <-; reflexivity).
  exists e. split; [reflexivity|].
  exact (proj1 (demux_fifo [] _ [7%Z] ex_ch2 0 e ex_draws ex_reach_channel E Hd)).
Defined.

Lemma teardown_safe_witness :
  is_ok (FreeCircuit_ 2147483655 ex_ch2) = true.
Proof. exact (proj1 (teardown_safe [] _ [7%Z] ex_ch2 ex_draws ex_reach_channel) 2147483655%Z). Defined.
