(* ===== verification/EndToEnd.v ===== *)
(** * From the application to the exit relay and back.

    The stream layer over a circuit over a link connection: what an application
    writes is what the exit relay decodes from the bytes on the TLS connection,
    and what the exit relay sends on a stream is what the application reads. *)

From S2P Require Import Prelude ByteUtil Cell TorCrypto RelayInfo OnionCrypto Circuit CircuitFacts CircuitRuns Turnstile Channel ChannelFacts Stream StreamFacts StreamCalls.
From stdpp Require Import relations.
Import Stream.
#[local] Existing Instance Channel.channel_link.

(** A connection that remembers the bytes it took: a successful write appends
    its bytes, a failed one possibly some of them. *)
Class ConnLog (W : Type) `{!NetConn W} := {
  conn_bytes : W → bytes;
  conn_taken : ∀ t w b w', conn_Write t w b = Some (true, w') → conn_bytes w' = conn_bytes w ++ b;
  conn_cut : ∀ t w b w', conn_Write t w b = Some (false, w') → conn_bytes w `prefix_of` conn_bytes w'
}.

Section EndToEnd.
Context `{C : Crypto} `{CL : !CryptoLaws C} {W : Type} `{!NetConn W} `{!ConnLog W}.
Notation node := (node (L := Channel.Channel (W:=W)) (LE := Channel.channel_error)).
Notation Circuit := (Circuit (LE := Channel.channel_error)).
Notation circuit_error := (circuit_error (LE := Channel.channel_error)).
Notation world := (world (K := node)).
Implicit Types (nd : node) (relays : list relayModel).

(** What was written to the guard. *)
Definition tls_bytes nd : bytes := conn_bytes (Channel.raw (Channel.conn (link nd))).

Lemma SendCell_bytes (ch ch' : Channel.Channel (W:=W)) cl err :
  SendCell (LE := Channel.channel_error) ch cl = (err, ch') →
  match err with
  | None => conn_bytes (Channel.raw (Channel.conn ch')) = conn_bytes (Channel.raw (Channel.conn ch)) ++ Encode cl CircIDLenWide
  | Some _ => conn_bytes (Channel.raw (Channel.conn ch)) `prefix_of` conn_bytes (Channel.raw (Channel.conn ch'))
  end.
Proof.
  cbn [SendCell Channel.channel_link]. unfold Channel.SendCell_, Channel.writeCell, Channel.writeConn. cbv zeta.
  destruct (conn_Write _ _ (Encode cl CircIDLenWide)) as [[[] w]|] eqn:E; intros [= <- <-].
  - by eapply conn_taken.
  - by eapply conn_cut.
  - done.
Qed.

Lemma length_encrypted {E} hs d rc p hs' : encryptForwardLocked (E:=E) hs d rc = Ok (p, hs') →
  length p = PayloadLen.
Proof.
  unfold encryptForwardLocked. destruct (hs !! d); [|done]. intros [= H].
  apply (f_equal fst) in H. cbn [fst] in H. subst p. rewrite length_layer_forward.
  assert (length (Relay.Encode (zeroed rc)) = PayloadLen) as He.
  { rewrite Relay.Encode_layout by done. apply Relay.length_layout; [done|apply Prelude.length_take_le]. }
  rewrite length_copy_at, He; [done|]. rewrite He. by apply Nat.leb_le.
Qed.

(** ** Forward *)

(** An open circuit with no write outstanding, whose forward state the relays
    share. *)
Record feeding relays nd : Prop := {
  fe_open : closed (circ nd) = false;
  fe_turn : sendTurn (circ nd) = sendNext (circ nd);
  fe_step : Forall2 fwd_in_step (hops (circ nd)) relays
}.

Definition exit_hop nd : nat := length (hops (circ nd)) - 1.

(** [cl] carries the relay cell [rc] to the exit relay; the relays go on as
    [relays']. *)
Definition carries nd relays (rc : Relay.RelayCell) (cl : Cell) relays' : Prop :=
  CircID cl = Circuit.id (circ nd) ∧ Cmd cl = CmdRelay ∧ length (Payload cl) = PayloadLen ∧
  ∃ got, relayDecodeForward relays (exit_hop nd) (Payload cl) = (Some got, relays') ∧ same_cell rc got.

(** What a claiming send leaves alone. *)
Lemma send_frame d rc c t cl (c' : Circuit) : sendRelay_locked d rc false c = (Ok (Claimed t cl), c') →
  CircID cl = Circuit.id c ∧ Circuit.id c' = Circuit.id c ∧ closed c' = closed c.
Proof.
  unfold sendRelay_locked. destruct (closed c) eqn:Ho; [done|]. destruct (_ <=? d)%Z; [done|]. cbn [andb].
  destruct (d <? 0)%Z; [done|]. destruct (encryptForwardLocked _ _ _) as [[p hs]| |]; [|done..].
  by intros [= <- <- <-].
Qed.

Lemma sendRelay_carries relays rc nd o nd' : feeding relays nd →
  sendRelay (Z.of_nat (length (hops (circ nd))) - 1) rc false nd = Some (o, nd') →
  tls_bytes nd `prefix_of` tls_bytes nd' ∧
  (o = Ok tt → ∃ cl relays', carries nd relays rc cl relays' ∧ tls_bytes nd' = tls_bytes nd ++ Encode cl CircIDLenWide ∧
     feeding relays' nd' ∧ Circuit.id (circ nd') = Circuit.id (circ nd) ∧ exit_hop nd' = exit_hop nd).
Proof.
  intros [Ho Ht Hs]. unfold sendRelay. rewrite prog_bind_eq. unfold locked.
  set (d := (Z.of_nat (length (hops (circ nd))) - 1)%Z).
  destruct (sendRelay_locked d rc false (circ nd)) as [[[e|t cl]|e|] c'] eqn:El; cbn [return_err].
  - destruct e as [e|]; intros [= <- <-]; [by split|].
    exfalso. unfold sendRelay_locked in El. rewrite Ho in El. case_match; [done|].
    cbn [andb] in El. case_match; [done|]. by destruct (encryptForwardLocked _ _ _) as [[]| |].
  - pose proof (send_frame _ _ _ _ _ _ El) as (F1 & F2 & F3).
    apply send_claim in El as (-> & E1 & E2 & Ee & Ec & _). unfold writeAtTurn. rewrite prog_bind_eq. cbn [gets circ].
    rewrite E1, Ht, Nat.eqb_refl. cbn [negb]. rewrite prog_bind_eq. unfold attempt, link_send. cbn [link].
    destruct (SendCell (link nd) cl) as [err l'] eqn:Es. apply SendCell_bytes in Es.
    destruct err as [e|]; cbn; intros [= <- <-].
    { split; [exact Es|done]. }
    split; [unfold tls_bytes; cbn; rewrite Es; by eexists|]. intros _.
    destruct (forward_cell_rel _ _ _ _ _ _ _ fwd_in_step_relation Hs Ee) as (got & G1 & G2 & G3).
    exists cl, (relayDecodeForward relays (Z.to_nat d) (Payload cl)).2.
    assert (Z.to_nat d = exit_hop nd) as Hd by (unfold d, exit_hop; lia).
    split_and!; [| exact Es | | done |].
    + split_and!; [done..|by eapply length_encrypted|]. exists got. rewrite <-Hd, <-G1. by destruct (relayDecodeForward _ _ _).
    + constructor; cbn; [congruence|by rewrite E2, E1, Ht|done].
    + unfold exit_hop. cbn. by rewrite (encrypt_hops_length _ _ _ _ _ Ee).
  - by intros [= <- <-].
  - by intros [= <- <-].
Qed.

Lemma SendData_carries relays sel sid d nd o nd' : feeding relays nd → SendData sel sid d nd = Some (o, nd') →
  tls_bytes nd `prefix_of` tls_bytes nd' ∧
  (o = Ok tt → ∃ cl relays', carries nd relays (relay_cell Relay.RelayData sid d) cl relays' ∧
     tls_bytes nd' = tls_bytes nd ++ Encode cl CircIDLenWide ∧
     feeding relays' nd' ∧ Circuit.id (circ nd') = Circuit.id (circ nd) ∧ exit_hop nd' = exit_hop nd).
Proof.
  intros Hf. destruct sel; cbn [SendData].
  2: { by intros [= <- <-]. }
  2: { unfold await_destroyed. rewrite prog_bind_eq. cbn [gets]. destruct (destroyed (circ nd)); [|done]. by intros [= <- <-]. }
  rewrite prog_bind_eq. cbn [gets]. destruct (Tokens.recv (circPkgTokens (circ nd))) as [t|]; [|done].
  rewrite prog_bind_eq. cbn [modify]. rewrite prog_bind_eq. cbn [gets].
  set (nd1 := on_circ (Circuit.set_tokens t) nd). assert (feeding relays nd1) as Hf1 by (by destruct Hf).
  destruct (_ <? 0)%Z; [by intros [= <- <-]|]. rewrite prog_bind_eq. unfold attempt.
  destruct (sendRelay _ _ _ nd1) as [[r nd2]|] eqn:Es; [|done].
  destruct (sendRelay_carries _ _ _ _ _ Hf1 Es) as [Hp Hok].
  destruct r as [[]|e|]; intros [= <- <-]; [|by split..]. split; [exact Hp|]. intros _. exact (Hok eq_refl).
Qed.

(** ** Writes complete *)

Lemma sendRelay_tokens d rc nd o nd' : sendRelay d rc false nd = Some (o, nd') →
  circPkgTokens (circ nd') = circPkgTokens (circ nd).
Proof.
  unfold sendRelay. rewrite prog_bind_eq. unfold locked. pose proof (sendRelay_locked_tokens d rc false (circ nd)) as Ht.
  destruct (sendRelay_locked d rc false (circ nd)) as [[[[e|]|t cl]|e|] c']; cbn [snd return_err] in *; try by intros [= <- <-].
  intros H. apply writeAtTurn_result in H as (_ & -> & _). exact Ht.
Qed.

(** With a permit, an open circuit and a connection that takes the cell,
    [SendData] succeeds and uses the permit. *)
Lemma SendData_succeeds relays sid d nd k : conn_up W → feeding relays nd → hops (circ nd) ≠ [] →
  Tokens.avail (circPkgTokens (circ nd)) = S k →
  ∃ nd' relays', SendData Ready sid d nd = Some (Ok tt, nd') ∧ feeding relays' nd' ∧ hops (circ nd') ≠ [] ∧
    Tokens.avail (circPkgTokens (circ nd')) = k.
Proof.
  intros Hup Hf Hne Hk. assert (∃ t, Tokens.recv (circPkgTokens (circ nd)) = Some t ∧ Tokens.avail t = k) as (t & Ht & Htk).
  { unfold Tokens.recv. rewrite Hk. by eexists. }
  cbn [SendData]. rewrite prog_bind_eq. cbn [gets]. rewrite Ht, prog_bind_eq. cbn [modify]. rewrite prog_bind_eq. cbn [gets].
  set (nd1 := on_circ (Circuit.set_tokens t) nd). assert (feeding relays nd1) as Hf1 by (by destruct Hf).
  assert (exit_hop nd < length (hops (circ nd))) as Hx.
  { unfold exit_hop. destruct (hops (circ nd)); [done|]. cbn [length]. lia. }
  change (hops (circ nd1)) with (hops (circ nd)). destruct (Z.ltb_spec (Z.of_nat (length (hops (circ nd))) - 1) 0); [lia|].
  rewrite prog_bind_eq. unfold attempt. set (rc := relay_cell Relay.RelayData sid d).
  destruct (encrypt_in_range (E := circuit_error) (hops (circ nd)) (exit_hop nd) rc Hx) as (p & hs & Hp).
  destruct (sendRelay_open (exit_hop nd) rc false nd1 p hs) as (nd2 & Hs & Hh & _); [apply Hf1|done|done|apply Hf1| |done|].
  { intros cl. cbn [SendCell Channel.channel_link]. unfold Channel.SendCell_, Channel.writeCell, Channel.writeConn. cbv zeta.
    cbn [Channel.setWriteDeadline Channel.writeDeadline Channel.raw].
    destruct (Hup (conn_Now (Channel.raw (Channel.conn (link nd1))) + Channel.cellWriteTimeout)%Z (Channel.raw (Channel.conn (link nd1))) (Encode cl CircIDLenWide)) as [w2 ->]. done. }
  replace (Z.of_nat (exit_hop nd)) with (Z.of_nat (length (hops (circ nd1))) - 1)%Z in Hs
    by (change (hops (circ nd1)) with (hops (circ nd)); unfold exit_hop; lia).
  pose proof (sendRelay_tokens _ _ _ _ _ Hs) as Htok.
  destruct (sendRelay_carries _ _ _ _ _ Hf1 Hs) as [_ (cl & relays' & _ & _ & Hf2 & _ & He)]; [done|].
  change (hops (circ nd1)) with (hops (circ nd)) in Hs. rewrite Hs.
  exists nd2, relays'. split_and!; [done..| |by rewrite Htok].
  intros E0. apply encrypt_hops_length in Hp. rewrite <-Hh, E0 in Hp. cbn [length] in Hp. lia.
Qed.

(** One turn of [Write] that takes a permit, with nothing arriving meanwhile. *)
Definition go_on : write_wait := mkWait [] WriteToken Ready.

Lemma Write_completes k h s p total (w : world) relays : conn_up W → feeding relays (car w) → hops (circ (car w)) ≠ [] →
  heap w !! h = Some s → length p ≤ k * Relay.RelayDataLen →
  k ≤ Tokens.avail (pkgTokens s) → k ≤ Tokens.avail (circPkgTokens (circ (car w))) →
  ∃ w', Write h p total (replicate k go_on) w = Some (Ok (total + length p, None), w').
Proof.
  intros Hup. revert s p total w relays. induction k as [|k IH]; intros s p total w relays Hf Hne Hs Hl Hk1 Hk2.
  { destruct p; [|cbn [length] in Hl; lia]. exists w. cbn [Write replicate length]. by rewrite Nat.add_0_r. }
  destruct p as [|x p]; [exists w; cbn [Write replicate length]; by rewrite Nat.add_0_r|].
  cbn [Write replicate]. set (P := x :: p) in *. rewrite chunk_take. set (c := take Relay.RelayDataLen P) in *.
  rewrite prog_bind_eq. unfold stream_at at 1. rewrite Hs, prog_bind_eq. cbn [modify w_cells go_on dispatch_all foldl w_case].
  rewrite prog_bind_eq. unfold stream_at at 1. rewrite Hs. unfold Tokens.recv.
  destruct (Tokens.avail (pkgTokens s)) as [|a] eqn:Ea; [lia|].
  rewrite prog_bind_eq. cbn [modify ctx_ready w_data go_on negb]. rewrite prog_bind_eq. unfold attempt, on_car. cbn [car on_stream].
  destruct (Tokens.avail (circPkgTokens (circ (car w)))) as [|b] eqn:Eb; [lia|].
  destruct (SendData_succeeds relays (id s) c (car w) b Hup Hf Hne Eb) as (nd' & relays' & Hsd & Hf' & Hne' & Hb).
  cbn [carrier_SendData circuit_carrier]. rewrite Hsd.
  destruct (IH (set_tokens (Tokens.mkTokens (Tokens.cap (pkgTokens s)) a) s) (drop (length c) P) (total + length c)
    (mkWorld (mgr w) (alter (set_tokens (Tokens.mkTokens (Tokens.cap (pkgTokens s)) a)) h (heap w)) nd') relays') as [w' Hw'].
  - exact Hf'.
  - exact Hne'.
  - cbn [heap]. by rewrite list_lookup_alter_eq, Hs.
  - rewrite length_drop. unfold c. rewrite length_take. lia.
  - cbn. lia.
  - cbn [car]. lia.
  - exists w'. etransitivity; [exact Hw'|]. do 4 f_equal. rewrite length_drop. unfold c. rewrite length_take. lia.
Qed.

(** The cells of a run of [SendData] calls, one after the other on the
    connection, and what the exit relay decodes from them. *)
Lemma data_sent_carried sid nd ds nd' ok : data_sent sid nd ds nd' ok → ∀ relays, feeding relays nd →
  ∃ cls tail, tls_bytes nd' = tls_bytes nd ++ mjoin (map (λ cl, Encode cl CircIDLenWide) cls) ++ tail ∧
    (ok = true → tail = []) ∧
    Forall (λ cl, CircID cl = Circuit.id (circ nd) ∧ Cmd cl = CmdRelay ∧ length (Payload cl) = PayloadLen) cls ∧
    Forall2 (λ d got, ∃ rc, got = Some rc ∧ same_cell (relay_cell Relay.RelayData sid d) rc) ds
      (decode_all relays (map (λ cl, (exit_hop nd, Payload cl)) cls)).
Proof.
  induction 1 as [k|sel d k e k' H|sel d k k1 ds k' ok H _ IH]; intros relays Hf.
  - exists [], []. rewrite app_nil_r. split_and!; [done..|apply List.Forall_nil|constructor].
  - destruct (SendData_carries _ _ _ _ _ _ _ Hf H) as [[tail Ht] _]. exists [], tail.
    split_and!; [done..|apply List.Forall_nil|constructor].
  - destruct (SendData_carries _ _ _ _ _ _ _ Hf H) as [_ (cl & relays' & (C1 & C2 & C3 & got & G1 & G2) & Hb & Hf' & Hi & He)]; [done|].
    destruct (IH relays' Hf') as (cls & tail & Ht & Hok & Hc & Hd). exists (cl :: cls), tail. split_and!.
    + rewrite Ht, Hb. cbn [map]. rewrite mjoin_cons, <-!app_assoc. done.
    + done.
    + apply List.Forall_cons; [done|]. by rewrite <-Hi.
    + cbn [map decode_all]. rewrite G1. constructor; [by exists got|]. by rewrite <-He.
Qed.

(** The bytes a decoded relay cell brings for the stream [sid]. *)
Definition stream_data (sid : Z) (got : option Relay.RelayCell) : bytes :=
  match got with
  | Some rc => if decide (Relay.Cmd rc = Relay.RelayData ∧ Relay.StreamID rc = sid) then Relay.Data rc else []
  | None => []
  end.

Lemma decoded_stream_data sid ds gots : u16 sid = sid → Forall (λ d, 0 < length d ≤ Relay.RelayDataLen) ds →
  Forall2 (λ d got, ∃ rc, got = Some rc ∧ same_cell (relay_cell Relay.RelayData sid d) rc) ds gots →
  mjoin (map (stream_data sid) gots) = mjoin ds.
Proof.
  intros Hs Hl H. induction H as [|d got ds gots (rc & -> & H1 & H2 & _ & H4) _ IH]; [done|].
  apply List.Forall_cons_iff in Hl as [Hd Hl]. cbn [map]. rewrite !mjoin_cons, IH by done. f_equal.
  cbn [stream_data relay_cell Relay.Cmd Relay.StreamID Relay.Data] in *.
  rewrite decide_True by (split; [done|congruence]). rewrite H4. apply take_ge. lia.
Qed.

(** C1: what an application writes reaches the exit relay.  On an open circuit in
    step with its relays: while permits last and the connection takes what is
    written, [Write] returns the whole count.  However it ends, it appends to the
    bytes on the TLS connection whole cells, which the guard reads back from
    those bytes; each is a RELAY cell of this circuit, which the relays peel and
    the exit relay recognizes; and the data cells of the stream it decodes are,
    put together, exactly the first [n] bytes of the buffer, where [n] is the
    count [Write] returns (the whole buffer when its error is nil).  Only a
    failed write leaves anything behind the last whole cell. *)
Theorem write_reaches_exit (relays : list relayModel) (h : nat) (s : Stream) (p : bytes) (w : world) :
  heap w !! h = Some s → u16 (id s) = id s → feeding relays (car w) →
  u32 (Circuit.id (circ (car w))) = Circuit.id (circ (car w)) →
  (∀ k, conn_up W → hops (circ (car w)) ≠ [] → length p ≤ k * Relay.RelayDataLen →
     k ≤ Tokens.avail (pkgTokens s) → k ≤ Tokens.avail (circPkgTokens (circ (car w))) →
     ∃ w', Write h p 0 (replicate k go_on) w = Some (Ok (length p, None), w')) ∧
  ∀ (waits : list write_wait) (w' : world) (n : nat) (err : option stream_error),
  Write h p 0 waits w = Some (Ok (n, err), w') →
  ∃ bs cls tail, tls_bytes (car w') = tls_bytes (car w) ++ bs ∧
    ReadCells (length cls) bs CircIDLenWide = (cls, tail) ∧ (err = None → tail = [] ∧ n = length p) ∧
    Forall (λ cl, CircID cl = Circuit.id (circ (car w)) ∧ Cmd cl = CmdRelay) cls ∧
    let gots := decode_all relays (map (λ cl, (exit_hop (car w), Payload cl)) cls) in
    Forall is_Some gots ∧ mjoin (map (stream_data (id s)) gots) = take n p.
Proof.
  intros Hh Hu Hf Hc. split; [intros k Hup Hne Hl H1 H2; by apply (Write_completes k h s p 0 w relays)|].
  intros waits w' n err H. assert (stream_id h w = Some (id s)) as Hid by (unfold stream_id; by rewrite Hh).
  destruct (Write_written _ _ _ _ _ _ _ _ _ _ Hid H eq_refl) as (ds & ok & Hs & _ & Hj & Hl & He & _).
  rewrite Nat.sub_0_r in Hj. destruct (data_sent_carried _ _ _ _ _ Hs relays Hf) as (cls & tail & Hb & Ht & Hcl & Hd).
  exists (mjoin (map (λ cl, Encode cl CircIDLenWide) cls) ++ tail), cls, tail. split_and!; [done|..].
  - apply ReadCells_wf; [by right|]. eapply list.Forall_impl; [exact Hcl|]. intros cl (E1 & E2 & E3). split; [by rewrite E1|by rewrite E2].
  - intros Hn. destruct (He Hn) as [-> ->]. split; [by apply Ht|done].
  - eapply list.Forall_impl; [exact Hcl|]. by intros cl (? & ? & _).
  - split; [|rewrite <-Hj; by apply decoded_stream_data].
    eapply list.Forall2_Forall_r; [exact Hd|]. apply list.Forall_true. by intros d got (rc & -> & _).
Qed.

(** ** Backward *)

(** The receive loop with the manager's [dispatch] as the circuit's stream
    handler, as [NewManager] sets it. *)
Definition stream_cells (eff : list effect) : list Relay.RelayCell :=
  omap (λ e, match e with StreamCell rc => Some rc | _ => None end) eff.
Definition receive_streams (evs : list recv_event) (w : world) : world :=
  let '(c, eff) := recvLoop evs (circ (car w)) in
  dispatch_all (stream_cells eff)
    (mkWorld (mgr w) (heap w) (mkNode c (link (car w)) (trace (car w) ++ eff))).

(** Receiving depends on the backward half of the hops only. *)
Definition bwd_same (h h' : hop) : Prop := bwdCipher h' = bwdCipher h ∧ bwdDigest h' = bwdDigest h.

#[local] Instance bwd_same_refl : Reflexive bwd_same.
Proof. by intros h. Qed.

Lemma peel_step_bwd h h' p : bwd_same h h' →
  (peel_step h' p).1 = (peel_step h p).1 ∧ bwd_same (peel_step h p).2 (peel_step h' p).2.
Proof.
  intros [H1 H2]. unfold peel_step. rewrite H1. destruct (XORKeyStream (bwdCipher h) p) as [q s].
  case_match; [done|]. cbn [set_bwdCipher bwdDigest]. rewrite H2. by destruct (VerifyAndCommit _ _ _).
Qed.

Lemma not_recognized_bwd hs hs' n p : Forall2 bwd_same hs hs' →
  not_recognized_before hs n p → not_recognized_before hs' n p.
Proof.
  intros H. revert n p. induction H as [|h h' hs hs' Hh _ IH]; intros [|n] p; cbn [not_recognized_before]; try done.
  destruct (peel_step_bwd h h' p Hh) as [-> _]. intros [? ?]. split; [done|]. by apply IH.
Qed.

Lemma decrypt_bwd hs hs' p : Forall2 bwd_same hs hs' →
  Forall2 bwd_same (decryptInboundLocked hs p).2 (decryptInboundLocked hs' p).2.
Proof.
  intros H. revert p. induction H as [|h h' hs hs' Hh Hhs IH]; intros p; cbn [decryptInboundLocked]; [done|].
  destruct (peel_step_bwd h h' p Hh) as [E1 E2].
  destruct (peel_step h p) as [[ok q] h1], (peel_step h' p) as [[ok' q'] h1']. cbn [fst snd] in *.
  injection E1 as -> ->. destruct ok; [by constructor|]. specialize (IH q).
  destruct (decryptInboundLocked hs q) as [r1 t1], (decryptInboundLocked hs' q) as [r2 t2]. by constructor.
Qed.

Lemma no_false_bwd hs hs' srcs ps : Forall2 bwd_same hs hs' →
  no_false_recognition hs srcs ps → no_false_recognition hs' srcs ps.
Proof.
  revert hs hs' ps. induction srcs as [|src srcs IH]; intros hs hs' [|q ps] H; cbn [no_false_recognition]; try done.
  intros [H1 H2]. split; [by eapply not_recognized_bwd|]. eapply IH; [|exact H2]. by apply decrypt_bwd.
Qed.

Lemma encrypt_bwd {E} hs d rc p hs' : encryptForwardLocked (E:=E) hs d rc = Ok (p, hs') → Forall2 bwd_same hs hs'.
Proof.
  unfold encryptForwardLocked. destruct (hs !! d) as [h|] eqn:Hd; [|done]. intros [= H].
  apply (f_equal snd) in H. cbn [snd] in H. rewrite layer_forward_hops, imap_insert in H. subst hs'.
  rewrite <-(list_insert_id hs d h Hd) at 1. apply Forall2_insert; [|by case_match].
  apply list.Forall2_same_length_lookup_2; [by rewrite length_imap|].
  intros i h1 h2 H1. rewrite list_lookup_imap, H1. cbn. intros [= <-]. by case_match.
Qed.

Lemma account_bwd i tag (c : Circuit) :
  Forall2 bwd_same (hops c) (hops (accountInboundData i tag c).1) ∧
  onStreamCell (accountInboundData i tag c).1 = onStreamCell c ∧ stream_cells (accountInboundData i tag c).2 = [].
Proof.
  assert (Forall2 bwd_same (hops c) (hops c)) as Hr by done.
  unfold accountInboundData. destruct (_ <=? _)%Z; cbn [negb]; [|done]. destruct (_ || _)%bool; [done|].
  cbn [set_window hops]. destruct (encryptForwardLocked _ _ _) as [[p hs]| |] eqn:He; [|done..]. apply encrypt_bwd in He. done.
Qed.

(** A relay cell that the circuit hands to the stream layer. *)
Definition stream_bound (rc : Relay.RelayCell) : Prop :=
  Relay.StreamID rc ≠ 0%Z ∧ Relay.Cmd rc ≠ Relay.RelayExtended2 ∧ Relay.Cmd rc ≠ Relay.RelayTruncated.

Lemma recv_stream_cell cid q (c : Circuit) i rc hs :
  decryptInboundLocked (hops c) q = (Some (i, Some rc), hs) → stream_bound rc → onStreamCell c = true →
  ∃ c' eff, recvLoop_step (Inbox {| CircID := cid; Cmd := CmdRelay; Payload := q |}) c = (true, c', eff) ∧
    stream_cells eff = [rc] ∧ onStreamCell c' = true ∧ Forall2 bwd_same hs (hops c').
Proof.
  intros Hd (B1 & B2 & B3) Ho. assert (i < length hs) as Hi.
  { pose proof (decrypt_hop_in_range (hops c) q i (Some rc)) as H. pose proof (decrypt_length (hops c) q) as Hl.
    rewrite Hd in H, Hl. cbn [fst snd] in H, Hl. rewrite Hl. by apply H. }
  cbn [recvLoop_step Cmd]. rewrite decide_False by done. rewrite bool_decide_true by done. cbn [orb].
  unfold handleRelay. cbn [Payload]. rewrite Hd. rewrite (decide_False _ _ B2), (decide_False _ _ B3).
  set (c1 := set_hops hs c). assert (Forall2 bwd_same hs (hops c1)) as Hr by done.
  assert (onStreamCell c1 = true) as Ho1 by exact Ho.
  destruct (decide (Relay.Cmd rc = Relay.RelaySendme)); [rewrite (decide_False _ _ B1), Ho1; by eexists _, _|].
  destruct (decide (Relay.Cmd rc = Relay.RelayData)).
  - destruct (lookup_lt_is_Some_2 hs i Hi) as [h Hh]. change (hops c1) with hs. rewrite Hh.
    destruct (account_bwd i (Snapshot (bwdDigest h)) c1) as (A1 & A2 & A3).
    destruct (accountInboundData _ _ c1) as [c2 eff]. cbn [fst snd] in *. rewrite Ho1. eexists _, _. split; [done|].
    split_and!; [|by rewrite A2|exact A1]. unfold stream_cells in *. by rewrite omap_app, A3.
  - rewrite bool_decide_false by done. cbn [andb]. rewrite Ho1. by eexists _, _.
Qed.

Notation inbox_cell cid q := (Inbox {| CircID := cid; Cmd := CmdRelay; Payload := q |}).

(** The circuit hands the cells of its exit relay to the streams, in order. *)
Lemma recvLoop_streams cid src rcs relays ps (c : Circuit) :
  Forall2 bwd_in_step (hops c) relays → onStreamCell c = true →
  Forall (λ rc, u16 (Relay.StreamID rc) = Relay.StreamID rc ∧ stream_bound rc) rcs →
  originate_all relays (map (pair src) rcs) = Some ps →
  no_false_recognition (hops c) (map (λ _, src) rcs) ps →
  Forall2 same_cell rcs (stream_cells (recvLoop (map (λ q, inbox_cell cid q) ps) c).2).
Proof.
  revert relays ps c. induction rcs as [|rc rcs IH]; intros relays ps c Hs Ho Hb Hor Hn.
  { injection Hor as <-. constructor. }
  apply List.Forall_cons_iff in Hb as [[Hu Hb] Hbs]. cbn [map originate_all] in Hor.
  destruct (relayOriginateBackward relays src rc) as [[q relays1]|] eqn:Hq; [|done]. cbn in Hor.
  destruct (originate_all relays1 (map (pair src) rcs)) as [ps'|] eqn:Hps; [|done]. injection Hor as <-.
  cbn [map no_false_recognition] in Hn. destruct Hn as [Hn1 Hn2].
  destruct (backward_cell_rel _ _ _ _ _ _ _ bwd_in_step_relation Hs Hq Hn1) as (got & hs & Hd & Hsame & Hs1).
  pose proof Hsame as (S1 & S2 & _). assert (stream_bound got) as Hbg by (unfold stream_bound; by rewrite S1, S2, Hu).
  destruct (recv_stream_cell cid q c _ got hs Hd Hbg Ho) as (c' & eff & Hstep & Heff & Ho' & Hbw).
  cbn [map recvLoop]. rewrite Hstep. rewrite Hd in Hn2. cbn [snd] in Hn2.
  assert (Forall2 bwd_in_step (hops c') relays1) as Hs2.
  { clear -Hbw Hs1. revert relays1 Hs1. induction Hbw as [|h h' hs hs' [E1 E2] _ IHb]; intros rs Hr; inversion Hr as [|? r ? ? [R1 R2]]; subst; [done|].
    constructor; [split; congruence|by apply IHb]. }
  specialize (IH relays1 ps' c' Hs2 Ho' Hbs Hps (no_false_bwd _ _ _ _ Hbw Hn2)).
  destruct (recvLoop _ c') as [c2 eff2]. cbn [snd] in *. unfold stream_cells in *. rewrite omap_app, Heff. by constructor.
Qed.

(** ** Data cells at the streams *)

Definition data_cells (l : list (Z * bytes)) : list Relay.RelayCell :=
  map (λ x, relay_cell Relay.RelayData x.1 x.2) l.

(** Data for any streams adds to this one what is addressed to it. *)
Lemma dispatch_data h s sid (l : list (Z * bytes)) gots (w : world) :
  heap w !! h = Some s → readErr s = None → streams (mgr w) !! sid = Some h →
  (∀ sid', streams (mgr w) !! sid' = Some h → sid' = sid) →
  Forall (λ x, x.1 ≠ 0%Z ∧ u16 x.1 = x.1 ∧ length x.2 ≤ Relay.RelayDataLen) l →
  Forall2 same_cell (data_cells l) gots →
  buffered h (dispatch_all gots w) = buffered h w ++ mjoin (map snd (List.filter (λ x, (x.1 =? sid)%Z) l)).
Proof.
  intros Hh He Hm Hun Hl H. rewrite buffered_dispatch_all. f_equal. revert gots w s Hh He Hm Hun Hl H.
  induction l as [|[sid' d] l IH]; intros gots w s Hh He Hm Hun Hl H; inversion H as [|? got ? gots' (S1 & S2 & _ & S4)]; subst; [done|].
  apply List.Forall_cons_iff in Hl as [(N0 & Nu & Nd) Hl]. cbn [relay_cell Relay.Cmd Relay.StreamID Relay.Data fst snd] in *.
  rewrite Nu in S2. rewrite take_ge in S4 by done. cbn [fed_all List.filter fst].
  assert (∃ s', heap (dispatch got w) !! h = Some s' ∧ readErr s' = None ∧ mgr (dispatch got w) = mgr w) as (s' & Hh' & He' & Hm').
  { unfold dispatch. rewrite decide_False by congruence. destruct (streams (mgr w) !! Relay.StreamID got) as [h'|]; [|by exists s].
    unfold handleCell. cbv zeta. rewrite S1. rewrite decide_False by done. rewrite decide_True by done. cbn [on_stream heap mgr].
    destruct (decide (h' = h)) as [->|Hne]; [rewrite list_lookup_alter_eq, Hh|rewrite list_lookup_alter_ne, Hh by done; by exists s].
    eexists. split; [done|]. unfold onData. case_match; [done|]. by rewrite He. }
  specialize (IH gots' (dispatch got w) s' Hh' He'). rewrite Hm' in IH. rewrite IH by done. unfold fed. rewrite Hh, S2.
  destruct (Z.eqb_spec sid' sid) as [->|Hne].
  - rewrite bool_decide_true by done. cbn [map snd]. by rewrite mjoin_cons, S4.
  - rewrite bool_decide_false; [done|]. intros (_ & Hs' & _). by apply Hne, Hun.
Qed.

Definition for_stream (sid : Z) (l : list (Z * bytes)) : bytes :=
  mjoin (map snd (List.filter (λ x, (x.1 =? sid)%Z) l)).

(** A stream that is registered under its ID and has not ended. *)
Record listening (h : nat) (s : Stream) (w : world) : Prop := {
  li_heap : heap w !! h = Some s;
  li_err : readErr s = None;
  li_map : streams (mgr w) !! id s = Some h;
  li_uniq : ∀ sid, streams (mgr w) !! sid = Some h → sid = id s
}.

Lemma exit_data_buffered relays h s l ps cid (w : world) : listening h s w →
  onStreamCell (circ (car w)) = true → Forall2 bwd_in_step (hops (circ (car w))) relays →
  Forall (λ x, x.1 ≠ 0%Z ∧ u16 x.1 = x.1 ∧ length x.2 ≤ Relay.RelayDataLen) l →
  originate_all relays (map (pair (exit_hop (car w))) (data_cells l)) = Some ps →
  no_false_recognition (hops (circ (car w))) (map (λ _, exit_hop (car w)) (data_cells l)) ps →
  buffered h (receive_streams (map (λ q, inbox_cell cid q) ps) w) = buffered h w ++ for_stream (id s) l.
Proof.
  intros [Hh He Hm Hun] Ho Hs Hl Hor Hn. unfold receive_streams.
  pose proof (recvLoop_streams cid (exit_hop (car w)) (data_cells l) relays ps (circ (car w)) Hs Ho) as H.
  destruct (recvLoop _ (circ (car w))) as [c eff]. cbn [snd] in H.
  eapply (dispatch_data h s (id s) l (stream_cells eff) (mkWorld (mgr w) (heap w) _)); [done..|]. apply H; [|done..].
  apply list.Forall_forall. intros rc (x & -> & Hx)%list_elem_of_fmap. rewrite list.Forall_forall in Hl.
  destruct (Hl x Hx) as (? & ? & _). by split.
Qed.

(** The first cells of a sequence. *)
Lemma originate_all_take k relays cells ps :
  originate_all relays cells = Some ps → originate_all relays (take k cells) = Some (take k ps).
Proof.
  revert k relays ps. induction cells as [|[src rc] cells IH]; intros k relays ps; [destruct k; by intros [= <-]|].
  destruct k as [|k]; [done|]. cbn [take originate_all].
  destruct (relayOriginateBackward relays src rc) as [[q relays1]|]; [|done]. cbn.
  destruct (originate_all relays1 cells) as [ps'|] eqn:E; [|done]. cbn. intros [= <-]. by rewrite (IH k _ _ E).
Qed.
Lemma no_false_take k hs srcs ps : no_false_recognition hs srcs ps → no_false_recognition hs (take k srcs) (take k ps).
Proof.
  revert k hs ps. induction srcs as [|src srcs IH]; intros [|k] hs [|q ps]; cbn [take no_false_recognition]; try done.
  intros [H1 H2]. split; [done|]. by apply IH.
Qed.
Lemma length_originate_all relays cells ps : originate_all relays cells = Some ps → length ps = length cells.
Proof.
  revert relays ps. induction cells as [|[src rc] cells IH]; intros relays ps; cbn [originate_all]; [by intros [= <-]|].
  destruct (relayOriginateBackward relays src rc) as [[q relays1]|]; [|done]. cbn.
  destruct (originate_all relays1 cells) as [ps'|] eqn:E; [|done]. intros [= <-]. cbn [length]. by rewrite (IH _ _ E).
Qed.

(** What a live circuit has taken from its inbox of the cells after [old]. *)
Lemma taken_prefix (c0 : W) input rs (ch : Channel.Channel (W:=W)) i (en : Channel.circEntry) old recent cs :
  Forall (λ d, (0 ≤ d < 2 ^ 32)%Z) rs → rtc ChannelFacts.step (Channel.fresh c0 input rs) ch →
  Channel.entries ch !! i = Some en → Channel.edone en = false →
  cells_for (Channel.eid en) (drop (Channel.born en) (Channel.rlog ch)) = old ++ cs → Channel.taken en = old ++ recent →
  ∃ k, recent = take k cs ∧ k ≤ length cs ∧ (Channel.inbox en = [] → Channel.pump ch = None → k = length cs).
Proof.
  intros Hr Hst He Hd Hc Ht. pose proof (ci_fifo ch (inv_reachable _ _ _ _ Hr Hst) _ _ He Hd) as Hf.
  rewrite Hc, Ht, <-app_assoc in Hf. apply app_inv_head in Hf. exists (length recent). rewrite <-Hf.
  split_and!; [by rewrite take_app_length|rewrite length_app; lia|].
  intros Hi Hp. unfold pending. by rewrite Hi, Hp, app_nil_r.
Qed.

(** C2: what the exit relay sends is what the application reads.  The exit relay
    originates data cells, for this stream and others in any order, which the
    guard sends on the link among the cells of other circuits.  However the read
    pump, other circuits and teardown interleave, as long as the circuit lives
    the cells it took from its inbox pass the receive loop and the manager, and
    this stream has buffered exactly its own data of the first [k] cells, in
    order, behind what it had, where [k] is all of them once inbox and pump are
    empty; and what a [Read] then returns is the front of that.  (Unless a relay
    before the exit takes a cell for its own by accident.) *)
Theorem exit_data_is_read (relays : list relayModel) (h : nat) (s : Stream) (l : list (Z * bytes)) (ps : list bytes)
    (w : world) (c0 : W) (input : bytes) (rs : list Z) (ch : Channel.Channel (W:=W)) (i : nat) (en : Channel.circEntry)
    (old recent : list Cell) :
  listening h s w →
  onStreamCell (circ (car w)) = true → Forall2 bwd_in_step (hops (circ (car w))) relays →
  Forall (λ x, x.1 ≠ 0%Z ∧ u16 x.1 = x.1 ∧ length x.2 ≤ Relay.RelayDataLen) l →
  originate_all relays (map (pair (exit_hop (car w))) (data_cells l)) = Some ps →
  no_false_recognition (hops (circ (car w))) (map (λ _, exit_hop (car w)) (data_cells l)) ps →
  Forall (λ d, (0 ≤ d < 2 ^ 32)%Z) rs → rtc ChannelFacts.step (Channel.fresh c0 input rs) ch →
  Channel.entries ch !! i = Some en → Channel.edone en = false →
  cells_for (Channel.eid en) (drop (Channel.born en) (Channel.rlog ch)) =
    old ++ map (λ q, {| CircID := Channel.eid en; Cmd := CmdRelay; Payload := q |}) ps →
  Channel.taken en = old ++ recent →
  let w' := receive_streams (map Inbox recent) w in
  ∃ k, (Channel.inbox en = [] → Channel.pump ch = None → k = length l) ∧
    buffered h w' = buffered h w ++ for_stream (id s) (take k l) ∧
    ∀ plen out w'', Read h plen [] w' = Some (Ok out, w'') →
      buffered h w ++ for_stream (id s) (take k l) = out ++ buffered h w''.
Proof.
  intros Hli Ho Hs Hl Hor Hn Hr Hst He Hd Hc Ht w'.
  destruct (taken_prefix _ _ _ _ _ _ _ _ _ Hr Hst He Hd Hc Ht) as (k & Hrec & Hk & Hall). exists k.
  assert (length ps = length l) as Hlen.
  { rewrite (length_originate_all _ _ _ Hor). unfold data_cells. by rewrite !length_map. }
  rewrite length_map, Hlen in Hk, Hall.
  assert (buffered h w' = buffered h w ++ for_stream (id s) (take k l)) as Hb.
  { unfold w'. rewrite Hrec, firstn_map, map_map. eapply exit_data_buffered; [done..| | |].
    - by apply list.Forall_take.
    - unfold data_cells in *. rewrite !map_map in *. rewrite <-firstn_map. by apply originate_all_take.
    - unfold data_cells in *. rewrite !map_map in *. rewrite <-firstn_map. by apply no_false_take. }
  split_and!; [done..|]. intros plen out w'' Hread. apply Read_now in Hread. by rewrite <-Hb.
Qed.

End EndToEnd.
