(* ===== verification/EndToEndExamples.v ===== *)
(** * A stream over three relays, end to end. *)

From S2P Require Import Prelude ByteUtil Cell TorCrypto ToyCrypto RelayInfo OnionCrypto Circuit Channel ChannelFacts Stream StreamCalls Examples ChannelExamples EndToEnd.
From stdpp Require Import relations.
Import Stream.
#[local] Existing Instance Channel.channel_link.

#[export] Instance ex_conn_log : ConnLog (list bytes).
Proof.
  refine {| conn_bytes := mjoin |}.
  - intros t w b w' [= <-]. apply mjoin_snoc.
  - done.
Defined.

Definition e2e_node : node (L := Channel.Channel (W := list bytes)) (LE := Channel.channel_error) :=
  mkNode (mkCircuit 2147483650 0 ex_hops 0 false None 4 4 None None false
            (Tokens.mkTokens 1000 1000) 1000 true false)
    (Channel.fresh [go"earlier bytes"] [] []) [].
Definition e2e_stream : Stream := newStream 7 (Tokens.mkTokens 500 500).
Definition e2e_world : world (K := node (L := Channel.Channel (W := list bytes)) (LE := Channel.channel_error)) :=
  mkWorld (mkManager {[7%Z := 0]} 8) [e2e_stream] e2e_node.
Definition e2e_text : bytes := replicate 600 x61.

Lemma write_reaches_exit_witness : ∃ w' cls,
  Write 0 e2e_text 0 (replicate 2 go_on) e2e_world = Some (Ok (600, None), w') ∧
  mjoin (map (stream_data 7) (decode_all ex_relays (map (λ cl, (2, Payload cl)) cls))) = e2e_text ∧
  ∃ bs, tls_bytes (car w') = tls_bytes e2e_node ++ bs ∧ ReadCells (length cls) bs CircIDLenWide = (cls, []).
Proof.
  destruct (write_reaches_exit ex_relays 0 e2e_stream e2e_text e2e_world) as [A B]; [done|done| |done|].
  { constructor; [done..|]. repeat constructor. }
  destruct (A 2) as [w' Hw]; [by intros t w b; eexists|done|..].
  - apply Nat.leb_le. reflexivity.
  - apply Nat.leb_le. reflexivity.
  - apply Nat.leb_le. reflexivity.
  - destruct (B _ _ _ _ Hw) as (bs & cls & tail & H1 & H2 & H3 & _ & _ & H4). exists w', cls.
    destruct H3 as [-> _]; [done|]. split; [exact Hw|]. split; [exact H4|]. by exists bs.
Defined.

(** The exit relay answers on stream 7, and on another stream in between. *)
Definition e2e_answer : list (Z * bytes) := [(7%Z, go"hello "); (9%Z, go"other"); (7%Z, go"world")].
Definition e2e_payloads : list bytes := default [] (originate_all ex_relays (map (pair 2) (data_cells e2e_answer))).

(** The guard sends the cells; the pump delivers them and the circuit takes
    them. *)
Notation ex_channel := (Channel.Channel (W := list bytes)).
Definition e2e_cells : list Cell := map (λ q, {| CircID := 2147483650; Cmd := CmdRelay; Payload := q |}) e2e_payloads.
Definition e2e_fresh : ex_channel := Channel.fresh [] (mjoin (map (λ c, Encode c CircIDLenWide) e2e_cells)) [2%Z].
Definition ch_alloc (ch : ex_channel) : option ex_channel := snd <$> Channel.AllocCircuit_ ch.
Definition ch_cycle (ch : ex_channel) : option ex_channel :=
  match Channel.readLoop_read ch with
  | Ok ch1 =>
      if Channel.stopped ch || Channel.stopped ch1 || bool_decide (is_Some (Channel.pump ch)) then None
      else ch2 ← Channel.readLoop_deliver ch1; snd <$> Channel.inbox_recv 0 ch2
  | _ => None
  end.

Lemma ch_cycle_steps ch ch' : ch_cycle ch = Some ch' → rtc ChannelFacts.step ch ch'.
Proof.
  unfold ch_cycle. destruct (Channel.readLoop_read ch) as [ch1|?|] eqn:E1; [|done..].
  destruct (Channel.stopped ch) eqn:S0, (Channel.stopped ch1) eqn:S1; try done. cbn [orb].
  destruct (Channel.pump ch) eqn:Ep; [done|]. rewrite bool_decide_false by (by intros [? ?]).
  destruct (Channel.readLoop_deliver ch1) as [ch2|] eqn:E2; [|done]. cbn.
  destruct (Channel.inbox_recv 0 ch2) as [[c ch3]|] eqn:E3; [|done]. intros [= <-].
  eapply rtc_l; [by apply st_read|]. eapply rtc_l; [by apply st_deliver|]. by eapply rtc_once, st_recv.
Qed.

Definition e2e_run : option ex_channel := ch1 ← ch_alloc e2e_fresh; ch2 ← ch_cycle ch1; ch3 ← ch_cycle ch2; ch_cycle ch3.
Definition e2e_channel : ex_channel := default e2e_fresh e2e_run.

Lemma e2e_reachable : rtc ChannelFacts.step e2e_fresh e2e_channel.
Proof.
  assert (e2e_run = Some e2e_channel) as H by (vm_compute; reflexivity). unfold e2e_run in H.
  destruct (Channel.AllocCircuit_ e2e_fresh) as [[r ch1]|] eqn:E1; unfold ch_alloc in H; rewrite E1 in H; [|done]. cbn [fmap option_fmap option_map snd mbind option_bind] in H.
  destruct (ch_cycle ch1) as [ch2|] eqn:E2; [|done]. cbn [mbind option_bind] in H.
  destruct (ch_cycle ch2) as [ch3|] eqn:E3; [|done]. cbn [mbind option_bind] in H.
  eapply rtc_l; [by eapply st_alloc|]. etrans; [by apply ch_cycle_steps|].
  etrans; by apply ch_cycle_steps.
Qed.

Definition e2e_entry : Channel.circEntry := Channel.mkEntry 2147483650 [] false e2e_cells 0.

Lemma exit_data_is_read_witness :
  buffered 0 (receive_streams (map Inbox e2e_cells) e2e_world) = go"hello world".
Proof.
  destruct (exit_data_is_read ex_relays 0 e2e_stream e2e_answer e2e_payloads e2e_world [] (mjoin (map (λ c, Encode c CircIDLenWide) e2e_cells)) [2%Z] e2e_channel 0 e2e_entry [] e2e_cells)
    as (k & Hk & A & _).
  - constructor; [done|done|reflexivity|]. intros sid. cbn [mgr e2e_world streams]. by intros [<- _]%lookup_singleton_Some.
  - done.
  - repeat constructor.
  - repeat (apply List.Forall_cons; [split_and!; [done..|by apply Nat.leb_le]|]). apply List.Forall_nil.
  - vm_compute. reflexivity.
  - vm_compute. tauto.
  - repeat constructor; lia.
  - exact e2e_reachable.
  - vm_compute. reflexivity.
  - reflexivity.
  - vm_compute. reflexivity.
  - reflexivity.
  - assert (k = length e2e_answer) as -> by (apply Hk; vm_compute; reflexivity). rewrite A. vm_compute. reflexivity.
Defined.
