(* ===== verification/Directory.v ===== *)
(** * [pkg/directory]: relay entries, exit policies, authority certificates and
    the verification of consensus signatures.

    The data of parse.go and microdesc.go, the exit-policy and family tests,
    and verify.go with the part of client.go that decides which certificates
    are trusted.  A [time.Time] is the number of nanoseconds since Go's zero
    time (1 January of year 1, UTC).  The text parsers are in [DirParse]; here
    certificates come as the results of [ParseAuthCert]. *)

From Stdlib Require Import Zpow_facts.
From S2P Require Import Prelude ByteUtil GoNet TorCrypto.

(** ** Hexadecimal and letter case *)

Definition hex_digit (v : Z) : byte := to_byte (if (v <? 10)%Z then 48 + v else 87 + v).
(** [hex.EncodeToString]. *)
Definition hex_encode (b : bytes) : bytes :=
  b ≫= λ x, [hex_digit (bval x / 16); hex_digit (bval x mod 16)].

(** [strings.ToUpper] and [strings.ToLower] of ASCII text. *)
Definition upper_byte (b : byte) : byte :=
  if (97 <=? bval b)%Z && (bval b <=? 122)%Z then to_byte (bval b - 32) else b.
Definition ToUpper (s : bytes) : bytes := map upper_byte s.
Definition lower_byte (b : byte) : byte :=
  if (65 <=? bval b)%Z && (bval b <=? 90)%Z then to_byte (bval b + 32) else b.
Definition ToLower (s : bytes) : bytes := map lower_byte s.

Definition fpHex (id : bytes) : bytes := ToUpper (hex_encode id).

(** ** Relay entries and microdescriptors *)

Record RouterStatus := mkRouterStatus {
  Nickname : bytes;
  Identity : bytes;
  IP : bytes;
  ORPort : Z;
  DirPort : Z;
  IPv6 : bytes;
  MicrodescHash : bytes;
  Flags : gmap bytes bool;
  Bandwidth : Z;
  Unmeasured : bool
}.

(** A missing key of a Go map reads as the zero value. *)
Definition HasFlag (r : RouterStatus) (f : bytes) : bool := default false (Flags r !! f).

Record PortRange := mkPortRange { Lo : Z; Hi : Z }.
Record ExitPolicy := mkExitPolicy { IsAccept : bool; Ports : list PortRange }.

Definition zeroExitPolicy : ExitPolicy := {| IsAccept := false; Ports := [] |}.

(** The loop stops at the first range that contains the port. *)
Fixpoint in_ranges (port : Z) (rs : list PortRange) : bool :=
  match rs with
  | [] => false
  | r :: rs => if (Lo r <=? port)%Z && (port <=? Hi r)%Z then true else in_ranges port rs
  end.
Definition Allows (p : ExitPolicy) (port : Z) : bool :=
  let in_ := in_ranges port (Ports p) in
  if IsAccept p then in_ else negb in_.

Record Microdescriptor := mkMicrodescriptor {
  NtorOnionKey : bytes;
  Ed25519ID : bytes;
  md_ExitPolicy : ExitPolicy;
  Digest : bytes;
  Raw : bytes;
  Family : list bytes
}.

(** [Microdescriptor{}]. *)
Definition zeroMicrodescriptor : Microdescriptor :=
  {| NtorOnionKey := []; Ed25519ID := []; md_ExitPolicy := zeroExitPolicy;
     Digest := []; Raw := []; Family := [] |}.

Definition SameFamily (a : Microdescriptor) (idA : bytes) (b : Microdescriptor) (idB : bytes)
    : bool :=
  bool_decide (fpHex idB ∈ Family a) && bool_decide (fpHex idA ∈ Family b).

(** ** The consensus *)

Record consensusSig := mkConsensusSig {
  alg : bytes;
  sig_identityFP : bytes;
  sig_signingKeyFP : bytes;
  sig : bytes
}.

Record Consensus := mkConsensus {
  ValidAfter : Z;
  FreshUntil : Z;
  ValidUntil : Z;
  Routers : list RouterStatus;
  Weights : gmap bytes Z;
  SharedRandPrevious : bytes;
  SharedRandCurrent : bytes;
  signedBody : bytes;
  signatures : list consensusSig
}.

(** ** Authorities (authorities.go) *)

Record Authority := mkAuthority {
  a_Nickname : bytes;
  V3Ident : bytes;
  a_IP : bytes;
  a_DirPort : Z;
  a_ORPort : Z
}.

Definition DefaultAuthorities : list Authority := [
  mkAuthority go"moria1" go"F533C81CEF0BC0267857C99B2F471ADF249FA232" go"128.31.0.39" 9231 9201;
  mkAuthority go"tor26" go"2F3DF9CA0E5D36F2685A2DA67184EB8DCB8CBA8C" go"217.196.147.77" 80 443;
  mkAuthority go"dizum" go"E8A9C45EDE6D711294FADF8E7951F4DE6CA56B58" go"45.66.35.11" 80 443;
  mkAuthority go"gabelmoo" go"ED03BB616EB2F60BEC80151114BB25CEF515B226" go"131.188.40.189" 80 443;
  mkAuthority go"dannenberg" go"0232AF901C31A04EE9848595AF9BB7620D4C5B2E" go"193.23.244.244" 80 443;
  mkAuthority go"maatuska" go"49015F787433103580E3B66A1707A00E60F2D15B" go"171.25.193.9" 443 80;
  mkAuthority go"longclaw" go"23D15D965BC35114467363C165C4F724B64B4F66" go"199.58.81.140" 80 443;
  mkAuthority go"bastet" go"27102BC123E7AF1D4741AE047E160C91ADC76B21" go"204.13.164.118" 80 443;
  mkAuthority go"faravahar" go"70849B868D606BAECFB6128C5E3D782029AA394F" go"216.218.219.41" 80 443
].

Definition MajorityThreshold : nat := 5.

(** ** Raw RSA and its padding *)

(** [rsa.PublicKey]. *)
Record PublicKey := mkPublicKey { N : Z; E : Z }.

(** [big.Int.Exp(x, y, m)] for a non-negative exponent: [m = 0] means no
    modulus. *)
Definition big_Exp (x y m : Z) : Z := if (m =? 0)%Z then (x ^ y)%Z else Zpow_mod x y m.
(** [big.Int.BitLen]. *)
Definition BitLen (v : Z) : Z := if (v =? 0)%Z then 0 else (Z.log2 v + 1)%Z.
(** [big.Int.FillBytes] panics when the value does not fit the buffer. *)
Definition FillBytes {Er} (k : nat) (v : Z) : outcome Er bytes :=
  if (v <? 256 ^ Z.of_nat k)%Z then Ok (be_encode k v) else Panic.

Inductive dir_error :=
| errBadSig
| errCertExpired
| CertIdentity
| CertSelfSig (e : dir_error)
| CertSelfSigMismatch
| NotYetValid
| ConsensusExpired
| TooFewSignatures (valid : nat).

(** Byte length of the modulus. *)
Definition modulus_len (pub : PublicKey) : nat := Z.to_nat ((BitLen (N pub) + 7) / 8).

(** The bytes after the run of [0xFF]. *)
Fixpoint skip_ff (b : bytes) : bytes :=
  match b with
  | [] => []
  | x :: t => if decide (x = xff) then skip_ff t else b
  end.

Definition rsaRecover (pub : PublicKey) (sig : bytes) : outcome dir_error bytes :=
  let m := big_Exp (be_decode sig) (E pub) (N pub) in
  eb ← FillBytes (modulus_len pub) m;
  if length eb <? 11 then Err errBadSig
  else
    b0 ← idx eb 0;
    b1 ← idx eb 1;
    if negb (bool_decide (b0 = x00)) || negb (bool_decide (b1 = x01)) then Err errBadSig
    else match skip_ff (drop 2 eb) with
         | [] => Err errBadSig
         | b :: rest => if decide (b = x00) then Ok rest else Err errBadSig
         end.

(** ** Authority certificates *)

Record authCert := mkAuthCert {
  identityFP : bytes;
  signingKeyFP : bytes;
  identityKey : PublicKey;
  signingKey : PublicKey;
  expires : Z;
  cert_signedBody : bytes;
  certSig : bytes
}.

(** [identityFP + "-" + signingKeyFP]. *)
Definition fp_sk (id sk : bytes) : bytes := id ++ go"-" ++ sk.
Definition certKey (c : authCert) : bytes := fp_sk (identityFP c) (signingKeyFP c).

Section Verify.
Context `{C : Crypto}.

Definition Verify (c : authCert) (expectedV3Ident : bytes) (now : Z) : outcome dir_error unit :=
  if negb (bool_decide (identityFP c = ToUpper expectedV3Ident)) then Err CertIdentity
  else if (expires c =? 0)%Z || (expires c <? now)%Z then Err errCertExpired
  else
    recovered ← map_err CertSelfSig (rsaRecover (identityKey c) (certSig c));
    if negb (bool_decide (recovered = sha1 (cert_signedBody c))) then Err CertSelfSigMismatch
    else Ok tt.

(** The digest a signature block is checked against; [None] skips the block. *)
Definition sig_digest (algorithm body : bytes) : option bytes :=
  if decide (algorithm = go"sha256") then Some (sha256 body)
  else if decide (algorithm = go"sha1") then Some (sha1 body)
  else None.

(** One turn of the loop over the signature blocks. *)
Definition check_sig (c : Consensus) (certs : gmap bytes authCert) (seen : gset bytes)
    (s : consensusSig) : outcome dir_error (gset bytes) :=
  match certs !! fp_sk (sig_identityFP s) (sig_signingKeyFP s) with
  | None => Ok seen
  | Some cert =>
      match sig_digest (alg s) (signedBody c) with
      | None => Ok seen
      | Some digest =>
          match rsaRecover (signingKey cert) (sig s) with
          | Ok recovered =>
              Ok (if decide (recovered = digest) then {[sig_identityFP s]} ∪ seen else seen)
          | Err _ => Ok seen
          | Panic => Panic
          end
      end
  end.

Fixpoint check_sigs (c : Consensus) (certs : gmap bytes authCert) (seen : gset bytes)
    (ss : list consensusSig) : outcome dir_error (gset bytes) :=
  match ss with
  | [] => Ok seen
  | s :: ss => seen ← check_sig c certs seen s; check_sigs c certs seen ss
  end.

Definition VerifyConsensus (c : Consensus) (certs : gmap bytes authCert) (now : Z)
    : outcome dir_error unit :=
  if (now <? ValidAfter c)%Z then Err NotYetValid
  else if (ValidUntil c <? now)%Z then Err ConsensusExpired
  else
    seen ← check_sigs c certs ∅ (signatures c);
    if size seen <? MajorityThreshold then Err (TooFewSignatures (size seen)) else Ok tt.

(** ** Which certificates are trusted (client.go) *)

(** The [byIdent] map of [fetchCerts]: a later authority with the same
    identity replaces an earlier one. *)
Definition byIdent (authorities : list Authority) : gmap bytes Authority :=
  foldl (λ m a, <[ToUpper (V3Ident a) := a]> m) ∅ authorities.

(** The keys of the signatures made by known authorities. *)
Definition needed (idents : gmap bytes Authority) (sigs : list consensusSig) : list bytes :=
  omap (λ s, if decide (is_Some (idents !! sig_identityFP s))
             then Some (fp_sk (sig_identityFP s) (sig_signingKeyFP s)) else None) sigs.

(** One turn of the loop of [parseCerts], on what [ParseAuthCert] returned for
    the segment ([None] is its error). *)
Definition parse_cert_step (idents : gmap bytes Authority) (now : Z)
    (out : gmap bytes authCert) (parsed : option authCert)
    : outcome dir_error (gmap bytes authCert) :=
  match parsed with
  | None => Ok out
  | Some cert =>
      match idents !! identityFP cert with
      | None => Ok out
      | Some auth =>
          match Verify cert (V3Ident auth) now with
          | Ok _ => Ok (<[certKey cert := cert]> out)
          | Err _ => Ok out
          | Panic => Panic
          end
      end
  end.

Fixpoint parseCerts (idents : gmap bytes Authority) (now : Z) (out : gmap bytes authCert)
    (segments : list (option authCert)) : outcome dir_error (gmap bytes authCert) :=
  match segments with
  | [] => Ok out
  | p :: segments =>
      out ← parse_cert_step idents now out p; parseCerts idents now out segments
  end.

Definition certsCoverAll (certs : gmap bytes authCert) (need : list bytes) : bool :=
  forallb (λ k, bool_decide (is_Some (certs !! k))) need.

End Verify.

(** ** The padding check *)

Lemma skip_ff_split b : ∃ n, b = replicate n xff ++ skip_ff b.
Proof.
  induction b as [|x t [n IH]]; simpl; [by exists 0|].
  case_decide; subst; [exists (S n); simpl; by f_equal|by exists 0].
Qed.

Lemma skip_ff_run n x t : x ≠ xff → skip_ff (replicate n xff ++ x :: t) = x :: t.
Proof. intros H. induction n as [|n IH]; simpl; [by rewrite decide_False|done]. Qed.

Lemma modulus_fits pub : (0 < N pub)%Z → (N pub < 256 ^ Z.of_nat (modulus_len pub))%Z.
Proof.
  intros H. unfold modulus_len, BitLen. destruct (Z.eqb_spec (N pub) 0); [lia|].
  pose proof (Z.log2_nonneg (N pub)). pose proof (Z.log2_spec _ H) as [_ Hl].
  set (b := (Z.log2 (N pub) + 1)%Z). assert (0 ≤ (b + 7) / 8)%Z by (apply Z.div_pos; lia).
  rewrite Z2Nat.id by done. replace 256%Z with (2 ^ 8)%Z by done.
  rewrite <-Z.pow_mul_r by lia. eapply Z.lt_le_trans; [exact Hl|].
  apply Z.pow_le_mono_r; [lia|]. pose proof (Z.div_mod (b + 7) 8 ltac:(lia)).
  pose proof (Z.mod_pos_bound (b + 7) 8 ltac:(lia)). lia.
Qed.

Definition rsa_value (pub : PublicKey) (sg : bytes) : Z := ((be_decode sg ^ E pub) mod N pub)%Z.

(** The encoded block, for a key with a positive modulus. *)
Lemma rsaRecover_block pub sg : (0 < N pub)%Z →
  rsaRecover pub sg =
  let eb := be_encode (modulus_len pub) (rsa_value pub sg) in
  if modulus_len pub <? 11 then Err errBadSig
  else if negb (bool_decide (take 2 eb = [x00; x01])) then Err errBadSig
  else match skip_ff (drop 2 eb) with
       | [] => Err errBadSig
       | b :: rest => if decide (b = x00) then Ok rest else Err errBadSig
       end.
Proof.
  intros H. unfold rsaRecover, big_Exp. destruct (Z.eqb_spec (N pub) 0); [lia|].
  rewrite Zpow_mod_correct by lia. fold (rsa_value pub sg). unfold FillBytes.
  pose proof (modulus_fits pub H). pose proof (Z.mod_pos_bound (be_decode sg ^ E pub) _ H) as Hm.
  fold (rsa_value pub sg) in Hm. destruct (Z.ltb_spec (rsa_value pub sg) (256 ^ Z.of_nat (modulus_len pub)));
    [|lia]. osimpl. rewrite length_be_encode. cbv zeta.
  set (eb := be_encode _ _). assert (length eb = modulus_len pub) as Hl by apply length_be_encode.
  clearbody eb. destruct (Nat.ltb_spec (modulus_len pub) 11); [done|].
  destruct eb as [|b0 [|b1 t]]; simpl in Hl; [lia..|]. osimpl. unfold idx. simpl take. cbn [lookup list_lookup drop].
  osimpl. destruct (decide (b0 = x00)) as [->|]; destruct (decide (b1 = x01)) as [->|];
    repeat first [rewrite bool_decide_true by done | rewrite bool_decide_false by congruence]; done.
Qed.

(** A raw RSA signature is accepted for a digest exactly when the recovered
    block is the digest behind full PKCS#1 type-1 padding, so no byte of the
    block is left unchecked; the check never panics for a positive modulus. *)
Theorem rsaRecover_strict (pub : PublicKey) (sg d : bytes) :
  (0 < N pub)%Z →
  panics (rsaRecover pub sg) = false ∧
  (rsaRecover pub sg = Ok d ↔
   11 ≤ modulus_len pub ∧ length d + 3 ≤ modulus_len pub ∧
   rsa_value pub sg =
   be_decode ([x00; x01] ++ replicate (modulus_len pub - 3 - length d) xff ++ [x00] ++ d)).
Proof.
  intros H. rewrite rsaRecover_block by done. cbv zeta.
  set (v := rsa_value pub sg). set (k := modulus_len pub). set (eb := be_encode k v).
  assert (length eb = k) as Hl by apply length_be_encode.
  destruct (Nat.ltb_spec k 11) as [Hk|Hk]; [split; [done|]; split; [done|lia]|].
  assert (v = be_decode eb) as Hv.
  { subst eb. rewrite be_decode_encode. symmetry. apply Z.mod_small. subst v k.
    pose proof (modulus_fits pub H). pose proof (Z.mod_pos_bound (be_decode sg ^ E pub) _ H).
    unfold rsa_value. lia. }
  destruct (bool_decide (take 2 eb = _)) eqn:Ht; simpl negb; cbn iota; bools; split.
  - destruct (skip_ff _) as [|b t]; [done|]. by destruct (decide (b = x00)).
  - rewrite Hv. clearbody eb. destruct (skip_ff_split (drop 2 eb)) as [n Hn].
    assert (eb = [x00; x01] ++ drop 2 eb) as Heb by (rewrite <-Ht; symmetry; apply take_drop).
    split.
    + destruct (skip_ff (drop 2 eb)) as [|b rest] eqn:Es; [done|].
      destruct (decide (b = x00)) as [->|]; [|done]. intros [= <-].
      rewrite Hn in Heb. pose proof (f_equal length Heb) as HL.
      rewrite Hl, !length_app, length_replicate in HL. simpl in HL.
      repeat split; [done|lia|]. rewrite Heb. do 2 f_equal.
      replace (k - 3 - length rest) with n by lia. done.
    + intros (_ & Hd & He). apply be_decode_inj in He.
      2: { rewrite Hl, !length_app, length_replicate. simpl. lia. }
      rewrite He. change (drop 2 _) with (replicate (k - 3 - length d) xff ++ x00 :: d).
      rewrite skip_ff_run by done. by rewrite decide_True.
  - done.
  - split; [done|]. intros (_ & Hd & He). exfalso. apply Ht. rewrite Hv in He.
    apply be_decode_inj in He; [by rewrite He|]. rewrite Hl, !length_app, length_replicate. simpl. lia.
Qed.

Lemma rsaRecover_total pub sg : (0 < N pub)%Z → panics (rsaRecover pub sg) = false.
Proof.
  intros H. rewrite rsaRecover_block by done. cbv zeta. repeat case_match; done.
Qed.

(** ** A majority of the authorities *)

Section Majority.
Context `{C : Crypto}.

(** What [ParseAuthCert] guarantees of the certificates it returns: hexadecimal
    fingerprints and keys with positive moduli. *)
Record cert_wf (cert : authCert) : Prop := {
  wf_id : ∃ d, identityFP cert = fpHex d;
  wf_sk : ∃ d, signingKeyFP cert = fpHex d;
  wf_idkey : (0 < N (identityKey cert))%Z;
  wf_skkey : (0 < N (signingKey cert))%Z
}.

(** [s] is a signature on the consensus body by the signing key of [cert]. *)
Definition signed_by (c : Consensus) (cert : authCert) (s : consensusSig) : Prop :=
  ∃ d, sig_digest (alg s) (signedBody c) = Some d ∧ rsaRecover (signingKey cert) (sig s) = Ok d.

Definition counts (c : Consensus) (certs : gmap bytes authCert) (s : consensusSig) : Prop :=
  ∃ cert, certs !! fp_sk (sig_identityFP s) (sig_signingKeyFP s) = Some cert ∧ signed_by c cert s.

Definition keys_ok (certs : gmap bytes authCert) : Prop :=
  map_Forall (λ _ cert, (0 < N (signingKey cert))%Z) certs.

Lemma check_sig_spec c certs seen s : keys_ok certs →
  ∃ seen', check_sig c certs seen s = Ok seen' ∧
    ∀ x, x ∈ seen' ↔ x ∈ seen ∨ (x = sig_identityFP s ∧ counts c certs s).
Proof.
  intros Hk. unfold check_sig, counts, signed_by.
  assert (∀ P : Prop, ¬ P → ∀ x, x ∈ seen ↔ x ∈ seen ∨ (x = sig_identityFP s ∧ P)) as Hskip
    by (intros P HP x; tauto).
  destruct (certs !! _) as [cert|] eqn:Hc; [|exists seen; split; [done|]; apply Hskip; intros (?&?&_); congruence].
  destruct (sig_digest _ _) as [d|] eqn:Hd;
    [|exists seen; split; [done|]; apply Hskip; intros (?&?&?&?&_); congruence].
  pose proof (rsaRecover_total (signingKey cert) (sig s) (Hk _ _ Hc)) as Hp.
  destruct (rsaRecover _ _) as [r|e|] eqn:Hr;
    [|exists seen; split; [done|]; apply Hskip; intros (?&?&?&?&?); congruence|done].
  eexists. split; [done|]. intros x. case_decide as Hdec.
  - subst r. rewrite elem_of_union, elem_of_singleton. split; [intros [->|?]|tauto]; [right|by left].
    split; [done|]. exists cert. split; [done|]. by exists d.
  - apply Hskip. intros (?&?&?&?&?). congruence.
Qed.

Lemma check_sigs_spec c certs seen ss : keys_ok certs →
  ∃ seen', check_sigs c certs seen ss = Ok seen' ∧
    ∀ x, x ∈ seen' ↔ x ∈ seen ∨ ∃ s, s ∈ ss ∧ x = sig_identityFP s ∧ counts c certs s.
Proof.
  intros Hk. revert seen. induction ss as [|s ss IH]; intros seen; simpl; [exists seen; set_solver|].
  destruct (check_sig_spec c certs seen s Hk) as (s1 & -> & H1). osimpl.
  destruct (IH s1) as (s2 & -> & H2). exists s2. split; [done|]. intros x.
  rewrite H2, H1. setoid_rewrite elem_of_cons. naive_solver.
Qed.

(** [VerifyConsensus] accepts exactly the consensuses that are valid at the
    given time and carry counting signatures under at least five distinct
    authority identities; repeated signatures of one authority count once. *)
Theorem VerifyConsensus_majority (c : Consensus) (certs : gmap bytes authCert) (now : Z) :
  keys_ok certs →
  (VerifyConsensus c certs now = Ok tt ↔
   (ValidAfter c ≤ now ≤ ValidUntil c)%Z ∧
   ∃ ids : list bytes, NoDup ids ∧ MajorityThreshold ≤ length ids ∧
     ∀ i, i ∈ ids → ∃ s, s ∈ signatures c ∧ sig_identityFP s = i ∧ counts c certs s).
Proof.
  intros Hk. unfold VerifyConsensus.
  destruct (Z.ltb_spec now (ValidAfter c)); [split; [done|lia]|].
  destruct (Z.ltb_spec (ValidUntil c) now); [split; [done|lia]|].
  destruct (check_sigs_spec c certs ∅ (signatures c) Hk) as (seen & -> & Hs). osimpl.
  destruct (Nat.ltb_spec (size seen) MajorityThreshold) as [Hlt|Hge]; split; try done.
  - intros (_ & ids & Hnd & Hlen & Hids). exfalso.
    assert (list_to_set ids ⊆ seen) as Hsub.
    { intros x Hx. apply elem_of_list_to_set in Hx. apply Hs. right.
      destruct (Hids x Hx) as (s & ? & <- & ?). by exists s. }
    apply subseteq_size in Hsub. rewrite size_list_to_set in Hsub by done. lia.
  - intros _. split; [lia|]. exists (elements seen).
    split_and!; [apply NoDup_elements|done|]. intros i Hi. apply elem_of_elements, Hs in Hi.
    destruct Hi as [Hi|(s & ? & -> & ?)]; [set_solver|]. by exists s.
Qed.

(** *** From the certificates to the built-in identities *)

Lemma hex_digit_plain v : (0 ≤ v < 16)%Z → upper_byte (hex_digit v) ≠ ch "-".
Proof.
  intros Hv He. apply (f_equal bval) in He.
  unfold upper_byte, hex_digit in He. rewrite !bval_to_byte in He.
  assert (bval (ch "-") = 45%Z) as Hd by reflexivity. rewrite Hd in He.
  destruct (Z.ltb_spec v 10); rewrite (Z.mod_small (_ + v)) in He by lia;
    destruct (_ && _) eqn:E1 in He; bools; rewrite ?bval_to_byte, ?Z.mod_small in He by lia; lia.
Qed.

Lemma fpHex_plain d : ch "-" ∉ fpHex d.
Proof.
  unfold fpHex, ToUpper, hex_encode. intros H. apply list_elem_of_fmap in H as (x & Hx & H).
  apply list_elem_of_bind in H as (b & Hb & _). pose proof (bval_range b).
  assert (0 ≤ bval b / 16 < 16)%Z by (split; [apply Z.div_pos; lia|apply Z.div_lt_upper_bound; lia]).
  pose proof (Z.mod_pos_bound (bval b) 16 ltac:(lia)).
  repeat (apply elem_of_cons in Hb as [->|Hb]; [by eapply hex_digit_plain; [|symmetry; exact Hx]|]).
  by apply elem_of_nil in Hb.
Qed.

(** A fingerprint pair is recovered from its key. *)
Lemma fp_sk_inj a b id sk :
  ch "-" ∉ id → ch "-" ∉ sk → fp_sk a b = fp_sk id sk → a = id ∧ b = sk.
Proof.
  unfold fp_sk. change (go"-") with [ch "-"]. intros Hi Hs He.
  assert ((id ++ [ch "-"] ++ sk) !! length a = Some (ch "-")) as Hl.
  { rewrite <-He, lookup_app_r, Nat.sub_diag by lia. done. }
  assert (length a = length id) as Hlen.
  { destruct (Nat.lt_trichotomy (length a) (length id)) as [Hlt|[?|Hgt]]; [|done|].
    - rewrite lookup_app_l in Hl by done. by apply list_elem_of_lookup_2 in Hl.
    - rewrite lookup_app_r in Hl by lia. change ([ch "-"] ++ sk) with (ch "-" :: sk) in Hl.
      replace (length a - length id) with (S (length a - length id - 1)) in Hl by lia.
      cbn [lookup list_lookup] in Hl. by apply list_elem_of_lookup_2 in Hl. }
  apply app_inj_1 in He as [-> He]; [|done]. by simplify_list_eq.
Qed.

Lemma byIdent_spec auths i a : byIdent auths !! i = Some a → a ∈ auths ∧ i = ToUpper (V3Ident a).
Proof.
  unfold byIdent. enough (∀ m : gmap bytes Authority, (∀ i a, m !! i = Some a → a ∈ auths ∧ i = ToUpper (V3Ident a)) →
    ∀ l, l ⊆ auths → ∀ i a, foldl (λ m a, <[ToUpper (V3Ident a) := a]> m) m l !! i = Some a →
    a ∈ auths ∧ i = ToUpper (V3Ident a)) as H.
  { apply (H ∅); [by intros ?? ?%lookup_empty_Some|done]. }
  intros m Hm l. revert m Hm. induction l as [|x l IH]; intros m Hm Hl; simpl; [done|].
  apply IH; [|set_solver]. intros j b. rewrite lookup_insert_Some.
  intros [[<- <-]|[_ Hb]]; [split; [set_solver|done]|by apply Hm].
Qed.

(** What a certificate in the trusted map went through. *)
Record trusted (auths : list Authority) (now : Z) (certs : gmap bytes authCert) : Prop := {
  tr_key k cert : certs !! k = Some cert → k = certKey cert ∧ cert_wf cert;
  tr_auth k cert : certs !! k = Some cert →
    ∃ a, a ∈ auths ∧ identityFP cert = ToUpper (V3Ident a) ∧ Verify cert (V3Ident a) now = Ok tt
}.

Lemma Verify_total cert v now : (0 < N (identityKey cert))%Z → panics (Verify cert v now) = false.
Proof.
  intros H. unfold Verify. destruct (negb _); [done|]. destruct (_ || _); [done|].
  pose proof (rsaRecover_total _ (certSig cert) H) as Hp. destruct (rsaRecover _ _); [|done..].
  osimpl. by destruct (negb _).
Qed.

Lemma parseCerts_trusted auths now out segs :
  trusted auths now out → (∀ cert, Some cert ∈ segs → cert_wf cert) →
  ∃ certs, parseCerts (byIdent auths) now out segs = Ok certs ∧ trusted auths now certs.
Proof.
  revert out. induction segs as [|p segs IH]; intros out Ht Hwf; simpl; [by exists out|].
  assert (∃ out', parse_cert_step (byIdent auths) now out p = Ok out' ∧ trusted auths now out')
    as (out' & -> & Ht'); [|osimpl; apply IH; [done|set_solver]].
  unfold parse_cert_step. destruct p as [cert|]; [|by exists out].
  destruct (byIdent auths !! _) as [a|] eqn:Ha; [|by exists out].
  assert (cert_wf cert) as Hc by (apply Hwf; set_solver).
  pose proof (Verify_total cert (V3Ident a) now (wf_idkey _ Hc)) as Hp.
  destruct (Verify _ _ _) as [[]|e|] eqn:Hv; [|by exists out|done].
  eexists. split; [done|]. apply byIdent_spec in Ha as [? ?]. split; intros k x.
  - rewrite lookup_insert_Some. intros [[<- <-]|[_ Hx]]; [done|by apply Ht].
  - rewrite lookup_insert_Some. intros [[<- <-]|[_ Hx]]; [by exists a|by eapply Ht].
Qed.

Lemma trusted_empty auths now : trusted auths now ∅.
Proof. split; intros ?? ?%lookup_empty_Some; done. Qed.

(** The authorities behind an accepted consensus: [t] is when their
    certificates were checked. *)
Definition signed_by_majority (auths : list Authority) (t : Z) (c : Consensus) : Prop :=
  ∃ ids : list bytes, NoDup ids ∧ MajorityThreshold ≤ length ids ∧
    ∀ i, i ∈ ids → ∃ a cert s,
      a ∈ auths ∧ i = ToUpper (V3Ident a) ∧ Verify cert (V3Ident a) t = Ok tt ∧
      s ∈ signatures c ∧ sig_identityFP s = i ∧ sig_signingKeyFP s = signingKeyFP cert ∧
      signed_by c cert s.

(** From trusted certificates to the built-in identities. *)
Lemma trusted_majority auths t certs c now :
  trusted auths t certs → VerifyConsensus c certs now = Ok tt →
  (ValidAfter c ≤ now ≤ ValidUntil c)%Z ∧ signed_by_majority auths t c.
Proof.
  intros Ht.
  assert (keys_ok certs) as Hk by (intros k cert Hc; apply wf_skkey, (tr_key _ _ _ Ht _ _ Hc)).
  unfold VerifyConsensus.
  destruct (Z.ltb_spec now (ValidAfter c)); [done|]. destruct (Z.ltb_spec (ValidUntil c) now); [done|].
  destruct (check_sigs_spec c certs ∅ (signatures c) Hk) as (seen & -> & Hs). osimpl.
  destruct (Nat.ltb_spec (size seen) MajorityThreshold) as [|Hge]; [done|]. intros _.
  split; [lia|]. exists (elements seen). split_and!; [apply NoDup_elements|done|].
  intros i Hi. apply elem_of_elements, Hs in Hi. destruct Hi as [Hi|(s & Hin & -> & Hc)]; [set_solver|].
  destruct Hc as (cert & Hl & Hsig). destruct (tr_key _ _ _ Ht _ _ Hl) as [Hkey Hcw].
  destruct (tr_auth _ _ _ Ht _ _ Hl) as (a & Ha & Hid & Hv).
  destruct (wf_id _ Hcw) as [di Hdi], (wf_sk _ Hcw) as [ds Hds].
  apply fp_sk_inj in Hkey as [Hki Hks]; [|rewrite ?Hdi, ?Hds; apply fpHex_plain..].
  exists a, cert, s. by rewrite Hki.
Qed.

Lemma keys_ok_trusted auths t certs : trusted auths t certs → keys_ok certs.
Proof. intros Ht k cert Hc. apply wf_skkey, (tr_key _ _ _ Ht _ _ Hc). Qed.

(** A consensus is accepted only when at least five different configured
    authorities signed it: each has a certificate among the parsed ones,
    unexpired and self-signed by the key its built-in identity names, whose
    signing key signed the consensus body. *)
Theorem consensus_authenticated (auths : list Authority) (segs : list (option authCert))
    (c : Consensus) (certs : gmap bytes authCert) (now : Z) :
  (∀ cert, Some cert ∈ segs → cert_wf cert) →
  parseCerts (byIdent auths) now ∅ segs = Ok certs →
  VerifyConsensus c certs now = Ok tt →
  (ValidAfter c ≤ now ≤ ValidUntil c)%Z ∧ signed_by_majority auths now c.
Proof.
  intros Hwf Hp. destruct (parseCerts_trusted auths now ∅ segs (trusted_empty _ _) Hwf)
    as (certs' & Hp' & Ht). rewrite Hp in Hp'. injection Hp' as <-. by apply trusted_majority.
Qed.

End Majority.
