(* ===== verification/DirectoryExamples.v ===== *)
(** * Concrete consensuses: the directory theorems at work.

    Five authorities with toy keys (exponent 1, a 40-byte modulus) sign a
    consensus; the theorems are applied to it with the toy primitives. *)

From S2P Require Import Prelude ByteUtil GoNet TorCrypto ToyCrypto Directory.

Definition toy_key : PublicKey := {| N := 2 ^ 320 - 1; E := 1 |}.

(** The block a signer with the toy key produces for a digest. *)
Definition toy_sign (d : bytes) : bytes :=
  [x00; x01] ++ replicate (37 - length d) xff ++ [x00] ++ d.

Definition toy_ident (i : byte) : bytes := fpHex (replicate 20 i).
Definition toy_auths : list Authority :=
  map (λ i, mkAuthority go"auth" (toy_ident i) go"127.0.0.1" 80 443) [x01; x02; x03; x04; x05; x06].

Definition toy_cert (i : byte) : authCert :=
  {| identityFP := toy_ident i; signingKeyFP := fpHex [i]; identityKey := toy_key;
     signingKey := toy_key; expires := 1000; cert_signedBody := [i; x0a];
     certSig := toy_sign (sha1 [i; x0a]) |}.
Definition toy_body : bytes := go"network-status-version 3 microdesc".
Definition toy_dirsig (i : byte) : consensusSig :=
  {| alg := go"sha256"; sig_identityFP := toy_ident i; sig_signingKeyFP := fpHex [i];
     sig := toy_sign (sha256 toy_body) |}.
(** Authority 1 signs twice, authority 6 not at all. *)
Definition toy_consensus : Consensus :=
  {| ValidAfter := 100; FreshUntil := 150; ValidUntil := 200; Routers := []; Weights := ∅;
     SharedRandPrevious := []; SharedRandCurrent := []; signedBody := toy_body;
     signatures := map toy_dirsig [x01; x01; x02; x03; x04; x05] |}.
Definition toy_segments : list (option authCert) :=
  None :: map (Some ∘ toy_cert) [x01; x02; x03; x04; x05; x07].

Lemma toy_cert_wf i : cert_wf (toy_cert i).
Proof. split; [by eexists|by eexists|done|done]. Qed.

Lemma toy_segments_wf cert : Some cert ∈ toy_segments → cert_wf cert.
Proof.
  unfold toy_segments. intros H. apply elem_of_cons in H as [|H]; [done|].
  apply list_elem_of_fmap in H as (i & [= ->] & _). apply toy_cert_wf.
Qed.

Lemma rsaRecover_strict_witness :
  rsaRecover toy_key (toy_sign (sha1 [])) = Ok (sha1 []) ∧
  11 ≤ modulus_len toy_key ∧ length (sha1 []) + 3 ≤ modulus_len toy_key.
Proof.
  assert (rsaRecover toy_key (toy_sign (sha1 [])) = Ok (sha1 [])) as H by (vm_compute; reflexivity).
  split; [exact H|].
  pose proof (proj1 (proj2 (rsaRecover_strict toy_key (toy_sign (sha1 [])) (sha1 []) ltac:(done))) H)
    as (H1 & H2 & _). exact (conj H1 H2).
Defined.

Definition toy_certs : gmap bytes authCert :=
  match parseCerts (byIdent toy_auths) 150 ∅ toy_segments with Ok m => m | _ => ∅ end.

Lemma toy_certs_parsed : parseCerts (byIdent toy_auths) 150 ∅ toy_segments = Ok toy_certs.
Proof.
  assert (is_ok (parseCerts (byIdent toy_auths) 150 ∅ toy_segments) = true) as H
    by (vm_compute; reflexivity).
  unfold toy_certs. revert H. generalize (parseCerts (byIdent toy_auths) 150 ∅ toy_segments).
  intros [m|e|]; [reflexivity|discriminate..].
Qed.

Lemma VerifyConsensus_majority_witness :
  ∃ ids : list bytes, NoDup ids ∧ MajorityThreshold ≤ length ids ∧
    VerifyConsensus toy_consensus toy_certs 150 = Ok tt.
Proof.
  assert (VerifyConsensus toy_consensus toy_certs 150 = Ok tt) as H by (vm_compute; reflexivity).
  assert (keys_ok toy_certs) as Hk.
  { unfold keys_ok. apply (bool_decide_unpack _). vm_compute. exact I. }
  destruct (proj1 (VerifyConsensus_majority toy_consensus toy_certs 150 Hk) H) as (_ & ids & Hn & Hl & _).
  exact (ex_intro _ ids (conj Hn (conj Hl H))).
Defined.

Lemma consensus_authenticated_witness :
  ∃ ids : list bytes, NoDup ids ∧ MajorityThreshold ≤ length ids ∧
    parseCerts (byIdent toy_auths) 150 ∅ toy_segments = Ok toy_certs ∧
    VerifyConsensus toy_consensus toy_certs 150 = Ok tt.
Proof.
  pose proof toy_certs_parsed as Hp.
  assert (VerifyConsensus toy_consensus toy_certs 150 = Ok tt) as H by (vm_compute; reflexivity).
  destruct (consensus_authenticated toy_auths toy_segments toy_consensus toy_certs 150
              toy_segments_wf Hp H) as (_ & ids & Hn & Hl & _).
  exact (ex_intro _ ids (conj Hn (conj Hl (conj Hp H)))).
Defined.
