(* ===== verification/DirParse.v ===== *)
(** * [pkg/directory]: the text parsers.

    [ParseConsensus] (parse.go), the microdescriptor parser (microdesc.go), the
    authority-certificate parser (verify.go) and [splitCerts] (client.go).  The
    scan loop of [ParseConsensus] is a step function on the variables the loop
    keeps.  DER keys are parsed by the caller's [ParsePKCS1PublicKey]. *)

From S2P Require Import Prelude ByteUtil GoNet GoText TorCrypto Directory.

(** ** parse.go *)

Definition dirSigMarker : bytes := go"directory-signature ".

Inductive parse_error :=
| NoSignatures
| ScanTooLong
| NoRouters
| ShortRLine
| BadIdentity.

Definition emptyConsensus : Consensus :=
  {| ValidAfter := 0; FreshUntil := 0; ValidUntil := 0; Routers := []; Weights := ∅;
     SharedRandPrevious := []; SharedRandCurrent := []; signedBody := []; signatures := [] |}.

Definition set_times (va fu vu : Z) (c : Consensus) : Consensus :=
  mkConsensus va fu vu (Routers c) (Weights c) (SharedRandPrevious c) (SharedRandCurrent c)
    (signedBody c) (signatures c).
Definition set_routers (rs : list RouterStatus) (c : Consensus) : Consensus :=
  mkConsensus (ValidAfter c) (FreshUntil c) (ValidUntil c) rs (Weights c) (SharedRandPrevious c)
    (SharedRandCurrent c) (signedBody c) (signatures c).
Definition set_weights (w : gmap bytes Z) (c : Consensus) : Consensus :=
  mkConsensus (ValidAfter c) (FreshUntil c) (ValidUntil c) (Routers c) w (SharedRandPrevious c)
    (SharedRandCurrent c) (signedBody c) (signatures c).
Definition set_srv (prev cur : bytes) (c : Consensus) : Consensus :=
  mkConsensus (ValidAfter c) (FreshUntil c) (ValidUntil c) (Routers c) (Weights c) prev cur
    (signedBody c) (signatures c).
Definition set_body (b : bytes) (c : Consensus) : Consensus :=
  mkConsensus (ValidAfter c) (FreshUntil c) (ValidUntil c) (Routers c) (Weights c)
    (SharedRandPrevious c) (SharedRandCurrent c) b (signatures c).
Definition set_sigs (ss : list consensusSig) (c : Consensus) : Consensus :=
  mkConsensus (ValidAfter c) (FreshUntil c) (ValidUntil c) (Routers c) (Weights c)
    (SharedRandPrevious c) (SharedRandCurrent c) (signedBody c) ss.

Definition splitKV (kv : bytes) : option (bytes * Z) :=
  '(k, vs) ← Cut kv go"=";
  v ← Atoi_checked vs;
  Some (k, v).

(** The fields after the keyword; an error leaves the zero time. *)
Definition parseDirTime (f : list bytes) : Z :=
  match f with
  | f0 :: f1 :: _ => default 0%Z (time_Parse (f0 ++ go" " ++ f1))
  | _ => 0%Z
  end.

Definition parseSigLine (f : list bytes) : option consensusSig :=
  match f with
  | [f0; f1; f2] => Some (mkConsensusSig f0 (ToUpper f1) (ToUpper f2) [])
  | [f0; f1] => Some (mkConsensusSig go"sha1" (ToUpper f0) (ToUpper f1) [])
  | _ => None
  end.

Definition set_bw (bw : Z) (un : bool) (r : RouterStatus) : RouterStatus :=
  mkRouterStatus (Nickname r) (Identity r) (IP r) (ORPort r) (DirPort r) (IPv6 r) (MicrodescHash r)
    (Flags r) bw un.
Definition set_ipv6 (a : bytes) (r : RouterStatus) : RouterStatus :=
  mkRouterStatus (Nickname r) (Identity r) (IP r) (ORPort r) (DirPort r) a (MicrodescHash r)
    (Flags r) (Bandwidth r) (Unmeasured r).
Definition set_md (h : bytes) (r : RouterStatus) : RouterStatus :=
  mkRouterStatus (Nickname r) (Identity r) (IP r) (ORPort r) (DirPort r) (IPv6 r) h
    (Flags r) (Bandwidth r) (Unmeasured r).
Definition set_flags (fl : gmap bytes bool) (r : RouterStatus) : RouterStatus :=
  mkRouterStatus (Nickname r) (Identity r) (IP r) (ORPort r) (DirPort r) (IPv6 r) (MicrodescHash r)
    fl (Bandwidth r) (Unmeasured r).

Definition bandwidth_kv (r : RouterStatus) (kv : bytes) : RouterStatus :=
  match splitKV kv with
  | None => r
  | Some (k, v) =>
      if decide (k = go"Bandwidth") then set_bw v (Unmeasured r) r
      else if decide (k = go"Unmeasured") then set_bw (Bandwidth r) (v =? 1)%Z r
      else r
  end.
Definition parseBandwidthLine (r : RouterStatus) (kvs : list bytes) : RouterStatus :=
  foldl bandwidth_kv r kvs.

Definition parseRouterLine (f : list bytes) : outcome parse_error RouterStatus :=
  match f with
  | _ :: f1 :: f2 :: _ :: _ :: f5 :: f6 :: f7 :: _ =>
      match RawStd_Decode f2 with
      | (_, false) => Err BadIdentity
      | (id, true) =>
          Ok (mkRouterStatus f1 id f5 (Atoi_value f6) (Atoi_value f7) [] [] ∅ 0 false)
      end
  | _ => Err ShortRLine
  end.

(** The variables of the loop. *)
Record loop := mkLoop {
  cons_ : Consensus;
  cur : option RouterStatus;
  inSig : bool;
  sigLines : list bytes;
  pending : option consensusSig
}.

Definition set_cons (c : Consensus) (l : loop) : loop :=
  mkLoop c (cur l) (inSig l) (sigLines l) (pending l).
Definition set_cur (r : option RouterStatus) (l : loop) : loop :=
  mkLoop (cons_ l) r (inSig l) (sigLines l) (pending l).
(** [if cur != nil { cur.f = ... }]. *)
Definition on_cur (f : RouterStatus → RouterStatus) (l : loop) : loop := set_cur (f <$> cur l) l.

Definition flush (l : loop) : loop :=
  match cur l with
  | None => l
  | Some r => set_cur None (set_cons (set_routers (Routers (cons_ l) ++ [r]) (cons_ l)) l)
  end.

(** A line of a signature block. *)
Definition sig_line (l : loop) (line : bytes) : loop :=
  let lines := sigLines l ++ [line] in
  if HasPrefix line go"-----END" then
    let c := match pem_Decode (Join lines [nl] ++ [nl]), pending l with
             | Some block, Some p =>
                 set_sigs (signatures (cons_ l) ++
                   [mkConsensusSig (alg p) (sig_identityFP p) (sig_signingKeyFP p) (b_Bytes block)]) (cons_ l)
             | _, _ => cons_ l
             end in
    mkLoop c (cur l) false [] None
  else mkLoop (cons_ l) (cur l) true lines (pending l).

Definition flag_map (fs : list bytes) : gmap bytes bool := foldl (λ m f, <[f := true]> m) ∅ fs.
Definition weight_map (w : gmap bytes Z) (kvs : list bytes) : gmap bytes Z :=
  foldl (λ w kv, match splitKV kv with Some (k, v) => <[k := v]> w | None => w end) w kvs.

(** The switch on the keyword. *)
Definition keyword_line (l : loop) (kw : bytes) (args : list bytes) : loop :=
  let c := cons_ l in
  if decide (kw = go"valid-after") then
    set_cons (set_times (parseDirTime args) (FreshUntil c) (ValidUntil c) c) l
  else if decide (kw = go"fresh-until") then
    set_cons (set_times (ValidAfter c) (parseDirTime args) (ValidUntil c) c) l
  else if decide (kw = go"valid-until") then
    set_cons (set_times (ValidAfter c) (FreshUntil c) (parseDirTime args) c) l
  else if decide (kw = go"shared-rand-previous-value") then
    match args with
    | _ :: v :: _ => set_cons (set_srv (Std_Decode v).1 (SharedRandCurrent c) c) l
    | _ => l
    end
  else if decide (kw = go"shared-rand-current-value") then
    match args with
    | _ :: v :: _ => set_cons (set_srv (SharedRandPrevious c) (Std_Decode v).1 c) l
    | _ => l
    end
  else if decide (kw = go"r") then
    match parseRouterLine (kw :: args) with
    | Ok r => set_cur (Some r) (flush l)
    | _ => set_cur None (flush l)
    end
  else if decide (kw = go"a") then
    match args with a :: _ => on_cur (set_ipv6 a) l | [] => l end
  else if decide (kw = go"m") then
    match args with h :: _ => on_cur (set_md h) l | [] => l end
  else if decide (kw = go"s") then on_cur (set_flags (flag_map args)) l
  else if decide (kw = go"w") then on_cur (λ r, parseBandwidthLine r args) l
  else if decide (kw = go"bandwidth-weights") then
    let l := flush l in
    set_cons (set_weights (weight_map (Weights (cons_ l)) args) (cons_ l)) l
  else if decide (kw = go"directory-signature") then
    let l := flush l in
    mkLoop (cons_ l) (cur l) true [] (parseSigLine args)
  else l.

Definition scan_line (l : loop) (line : bytes) : loop :=
  if inSig l then sig_line l line
  else match Fields line with
       | [] => l
       | kw :: args => keyword_line l kw args
       end.

Definition maxLine : Z := (4 * 1024 * 1024)%Z.

Definition loop_start (body : bytes) : loop :=
  mkLoop (set_body body emptyConsensus) None false [] None.

Definition signed_part (raw : bytes) : option bytes :=
  i ← Index raw (nl :: dirSigMarker);
  Some (take (i + 1 + length dirSigMarker) raw).

Definition ParseConsensus (raw : bytes) : outcome parse_error Consensus :=
  match signed_part raw with
  | None => Err NoSignatures
  | Some body =>
      let '(lines, tooLong) := Scan maxLine raw in
      let l := flush (foldl scan_line (loop_start body) lines) in
      if tooLong then Err ScanTooLong
      else match Routers (cons_ l) with
           | [] => Err NoRouters
           | _ => Ok (cons_ l)
           end
  end.

(** ** Documents cut at a marker at the start of a line *)

Fixpoint marker_starts (marker : bytes) (i : nat) (bol : bool) (raw : bytes) : list nat :=
  match raw with
  | [] => []
  | b :: t =>
      let rest := marker_starts marker (S i) (bool_decide (b = nl)) t in
      if bol && HasPrefix raw marker then i :: rest else rest
  end.
(** Each segment runs to the next start, the last one to the end. *)
Fixpoint cut_segments (raw : bytes) (starts : list nat) : list bytes :=
  match starts with
  | [] => []
  | s :: rest =>
      let e := match rest with [] => length raw | e :: _ => e end in
      take (e - s) (drop s raw) :: cut_segments raw rest
  end.
Definition split_at_marker (marker raw : bytes) : list bytes :=
  cut_segments raw (marker_starts marker 0 true raw).

Definition splitCerts (raw : bytes) : list bytes :=
  split_at_marker go"dir-key-certificate-version" raw.

(** ** microdesc.go *)

Definition decodeBase64Flex (s : bytes) : bytes :=
  match RawStd_Decode (TrimRight (λ b, bool_decide (b = ch "=")) s) with
  | (b, true) => b
  | (_, false) => []
  end.

Definition port_range (part : bytes) : option PortRange :=
  match part with
  | [] => None
  | _ => Some (match Cut part go"-" with
               | Some (lo, hi) => mkPortRange (Atoi_value lo) (Atoi_value hi)
               | None => mkPortRange (Atoi_value part) (Atoi_value part)
               end)
  end.
Definition parseExitPolicy (action ports : bytes) : ExitPolicy :=
  mkExitPolicy (bool_decide (action = go"accept")) (omap port_range (Split ports (ch ","))).

(** The fingerprint of one member of a family line. *)
Definition family_member (m : bytes) : option bytes :=
  if HasPrefix m go"$" then
    let fp := drop 1 m in
    let fp := match IndexByte (map (λ b, if decide (b = ch "~") then ch "=" else b) fp) (ch "=") with
              | Some i => take i fp
              | None => fp
              end in
    if length fp =? 40 then Some (ToUpper fp) else None
  else None.
Definition parseFamily (members : list bytes) : list bytes := omap family_member members.

Definition microdesc_line (md : Microdescriptor) (line : bytes) : Microdescriptor :=
  match Fields line with
  | [] => md
  | kw :: args =>
      if decide (kw = go"ntor-onion-key") then
        match args with
        | k :: _ => mkMicrodescriptor (decodeBase64Flex k) (Ed25519ID md) (md_ExitPolicy md)
                      (Digest md) (Raw md) (Family md)
        | [] => md
        end
      else if decide (kw = go"id") then
        match args with
        | ty :: id :: _ =>
            if decide (ty = go"ed25519")
            then mkMicrodescriptor (NtorOnionKey md) (decodeBase64Flex id) (md_ExitPolicy md)
                   (Digest md) (Raw md) (Family md)
            else md
        | _ => md
        end
      else if decide (kw = go"p") then
        match args with
        | a :: ps :: _ => mkMicrodescriptor (NtorOnionKey md) (Ed25519ID md) (parseExitPolicy a ps)
                            (Digest md) (Raw md) (Family md)
        | _ => md
        end
      else if decide (kw = go"family") then
        mkMicrodescriptor (NtorOnionKey md) (Ed25519ID md) (md_ExitPolicy md) (Digest md) (Raw md)
          (parseFamily args)
      else md
  end.

(** A line that is too long only ends the scan. *)
Definition parseOneMicrodesc (seg : bytes) : option Microdescriptor :=
  let md := foldl microdesc_line zeroMicrodescriptor (Scan (2 ^ 20) seg).1 in
  if length (NtorOnionKey md) =? 32 then Some md else None.

Section Digests.
Context `{C : Crypto}.

Definition microdesc_of (seg : bytes) : option Microdescriptor :=
  md ← parseOneMicrodesc seg;
  Some (mkMicrodescriptor (NtorOnionKey md) (Ed25519ID md) (md_ExitPolicy md)
          (RawStd_Encode (sha256 seg)) seg (Family md)).
Definition ParseMicrodescriptors (raw : bytes) : list Microdescriptor :=
  omap microdesc_of (split_at_marker (go"onion-key" ++ [nl]) raw).

(** ** Authority certificates (verify.go) *)

Definition extractPEMAfter (raw pemType : bytes) : option bytes :=
  block ← pem_Decode raw;
  if negb (bool_decide (pemType = [])) && negb (bool_decide (b_Type block = pemType)) then None
  else Some (b_Bytes block).
Definition extractPEM (raw keyword pemType : bytes) : option bytes :=
  '(_, after) ← Cut raw (keyword ++ [nl]);
  extractPEMAfter after pemType.

(** The value of a keyword line, empty when there is none. *)
Definition fieldValue (raw key : bytes) : bytes :=
  let kw := nl :: key ++ go" " in
  let line_from (start : nat) :=
    match IndexByte (drop start raw) nl with
    | None => drop start raw
    | Some e => take e (drop start raw)
    end in
  match Index raw kw with
  | None => if HasPrefix raw (key ++ go" ") then line_from (length key + 1) else []
  | Some i => line_from (i + length kw)
  end.

(** [x509.ParsePKCS1PublicKey]. *)
Variable ParsePKCS1PublicKey : bytes → option PublicKey.

Definition certMarker : bytes := go"dir-key-certification" ++ [nl].

(** [None] is any of its errors, which the caller logs and skips. *)
Definition ParseAuthCert (raw : bytes) : option authCert :=
  idDER ← extractPEM raw go"dir-identity-key" go"RSA PUBLIC KEY";
  idKey ← ParsePKCS1PublicKey idDER;
  skDER ← extractPEM raw go"dir-signing-key" go"RSA PUBLIC KEY";
  skKey ← ParsePKCS1PublicKey skDER;
  let exp := fieldValue raw go"dir-key-expires" in
  if bool_decide (exp = []) then None
  else
    expires ← time_Parse exp;
    mi ← Index raw certMarker;
    sigDER ← extractPEMAfter (drop mi raw) go"SIGNATURE";
    Some (mkAuthCert (ToUpper (hex_encode (sha1 idDER))) (ToUpper (hex_encode (sha1 skDER)))
            idKey skKey expires (take (mi + length certMarker) raw) sigDER).

End Digests.
