(* ===== verification/DirParseFacts.v ===== *)
(** * What the directory parsers guarantee.

    Which bytes of a consensus its content comes from, router entries as they
    are printed, and the content addressing of microdescriptors. *)

From S2P Require Import Prelude ByteUtil GoNet GoText GoTextFacts TorCrypto Directory DirParse.

(** ** The scan loop, run on a document *)

Definition run_lines (body : bytes) (ls : list bytes) : loop := foldl scan_line (loop_start body) ls.

Lemma ParseConsensus_Ok raw c :
  ParseConsensus raw = Ok c ↔
  ∃ body, signed_part raw = Some body ∧ (Scan maxLine raw).2 = false ∧
    c = cons_ (flush (run_lines body (Scan maxLine raw).1)) ∧ Routers c ≠ [].
Proof.
  unfold ParseConsensus, run_lines. destruct (signed_part raw) as [body|]; [|naive_solver].
  destruct (Scan maxLine raw) as [ls [|]]; cbn [fst snd].
  - split; [done|]. intros (? & ? & ? & _). done.
  - destruct (Routers (cons_ (flush (foldl scan_line (loop_start body) ls)))) eqn:E; split.
    + done.
    + intros (b' & [= <-] & _ & -> & H). by rewrite E in H.
    + intros [= <-]. exists body. rewrite E. done.
    + intros (b' & [= <-] & _ & -> & _). done.
Qed.

(** The signed part ends inside the document, so that a longer document has the
    same one. *)
Lemma signed_part_app raw t body : signed_part raw = Some body → signed_part (raw ++ t) = Some body.
Proof.
  unfold signed_part. destruct (Index raw (nl :: dirSigMarker)) as [i|] eqn:E; [|done].
  cbn [mbind option_bind]. rewrite (Index_app raw t _ _ E). cbn [mbind option_bind].
  apply Index_Some in E as (Hl & _). rewrite take_app_le; [done|].
  change (length (nl :: dirSigMarker)) with (S (length dirSigMarker)) in Hl. lia.
Qed.

(** ** What signatures do not cover *)

(** Everything of a consensus except the signature blocks. *)
Definition content (c : Consensus) :=
  (ValidAfter c, FreshUntil c, ValidUntil c, Routers c, Weights c,
   SharedRandPrevious c, SharedRandCurrent c, signedBody c).

(** A line outside the signature blocks that adds nothing to the content. *)
Definition content_free (line : bytes) : bool :=
  match Fields line with
  | [] => true
  | kw :: _ => bool_decide (kw = go"directory-signature")
  end.

(** The lines, read from [l] on, are signature blocks and empty lines. *)
Fixpoint only_signatures (l : loop) (ls : list bytes) : bool :=
  match ls with
  | [] => true
  | line :: ls => (inSig l || content_free line) && only_signatures (scan_line l line) ls
  end.

Lemma flush_flush l : flush (flush l) = flush l.
Proof. unfold flush. destruct (cur l) eqn:E; [done|]. by rewrite E. Qed.

Lemma sig_line_content l line : content (cons_ (flush (sig_line l line))) = content (cons_ (flush l)).
Proof.
  unfold sig_line. destruct (HasPrefix line _); [|unfold flush; by destruct (cur l)].
  destruct (pem_Decode _), (pending l); unfold flush; simpl; by destruct (cur l).
Qed.

Lemma scan_line_content l line : inSig l || content_free line = true →
  content (cons_ (flush (scan_line l line))) = content (cons_ (flush l)).
Proof.
  unfold scan_line, content_free. destruct (inSig l); [intros _; apply sig_line_content|].
  destruct (Fields line) as [|kw args]; [done|]. cbn [orb]. intros H%bool_decide_eq_true. subst kw.
  change (keyword_line l go"directory-signature" args)
    with (mkLoop (cons_ (flush l)) (cur (flush l)) true [] (parseSigLine args)).
  unfold flush. destruct (cur l) eqn:E; cbn [cur cons_ set_cur set_cons]; [done|by rewrite E].
Qed.

Lemma only_signatures_content l ls : only_signatures l ls = true →
  content (cons_ (flush (foldl scan_line l ls))) = content (cons_ (flush l)).
Proof.
  revert l. induction ls as [|line ls IH]; intros l; simpl; [done|].
  intros [H1 H2]%andb_true_iff. rewrite IH by done. by apply scan_line_content.
Qed.

(** A document in which only signature blocks follow the first signature line:
    [pre] is the text before that line, with its newline. *)
Definition well_closed (raw : bytes) : bool :=
  match Index raw (nl :: dirSigMarker) with
  | None => false
  | Some i =>
      let body := take (i + 1 + length dirSigMarker) raw in
      only_signatures (run_lines body (Scan maxLine (take (S i) raw)).1)
        (Scan maxLine (drop (S i) raw)).1
  end.

Lemma scan_from_long max cur a rest ls : scan_from max cur (a ++ [nl]) = (ls, true) →
  (scan_from max cur (a ++ [nl] ++ rest)).2 = true.
Proof.
  revert cur ls. induction a as [|b a IH]; intros cur ls; cbn [scan_from app].
  - destruct (decide (nl = nl)); [|done]. intros [=].
  - cbn [app] in IH. case_decide.
    + destruct (scan_from max [] (a ++ [nl])) as [ls1 [|]] eqn:E1; [|done]. intros _.
      specialize (IH _ _ E1). by destruct (scan_from max [] (a ++ nl :: rest)).
    + destruct (_ <? _)%Z; [apply IH|done].
Qed.

Lemma Scan_prefix max a rest : (Scan max (a ++ [nl] ++ rest)).2 = false →
  Scan max (a ++ [nl] ++ rest) =
  ((Scan max (a ++ [nl])).1 ++ (Scan max rest).1, (Scan max rest).2).
Proof.
  intros H. destruct (Scan max (a ++ [nl])) as [ls [|]] eqn:E; unfold Scan in E.
  - by apply scan_from_long with (rest := rest) in E; unfold Scan in H; rewrite E in H.
  - unfold Scan. rewrite (scan_from_app max [] a rest ls E). fold (Scan max rest).
    by destruct (Scan max rest).
Qed.

(** The body without its last, partial line. *)
Lemma signed_part_split raw body : signed_part raw = Some body →
  ∃ pre rest, raw = pre ++ [nl] ++ rest ∧ body = pre ++ [nl] ++ dirSigMarker ∧
    Index raw (nl :: dirSigMarker) = Some (length pre).
Proof.
  unfold signed_part. destruct (Index raw (nl :: dirSigMarker)) as [i|] eqn:E; [|done].
  cbn [mbind option_bind]. intros [= <-]. apply Index_Some in E as (Hl & Hp & _).
  apply HasPrefix_spec in Hp as [t Ht]. exists (take i raw), (dirSigMarker ++ t).
  assert (length (take i raw) = i) as Hti by (rewrite length_take; simpl in Hl; lia).
  split; [|split; [|by rewrite Hti]].
  - rewrite <-(take_drop i raw) at 1. by rewrite Ht.
  - rewrite <-(take_drop i raw) at 1. rewrite take_app, Hti, Ht, take_ge by lia. f_equal.
    match goal with |- take ?n _ = _ => replace n with (length (nl :: dirSigMarker)) by (simpl length; lia) end.
    exact (take_app_length (nl :: dirSigMarker) t).
Qed.

Lemma well_closed_content raw c body : ParseConsensus raw = Ok c → well_closed raw = true →
  signed_part raw = Some body →
  ∃ pre, body = pre ++ [nl] ++ dirSigMarker ∧
    content c = content (cons_ (flush (run_lines body (Scan maxLine (pre ++ [nl])).1))).
Proof.
  intros (body' & Hb' & Hlong & -> & _)%ParseConsensus_Ok Hw Hb. rewrite Hb in Hb'. injection Hb' as <-.
  destruct (signed_part_split raw body Hb) as (pre & rest & Hraw & Hbody & Hi). exists pre.
  split; [done|]. unfold well_closed in Hw. rewrite Hi in Hw. unfold signed_part in Hb. rewrite Hi in Hb.
  cbn [mbind option_bind] in Hb. apply (inj Some) in Hb. rewrite Hb in Hw.
  assert (take (S (length pre)) raw = pre ++ [nl] ∧ drop (S (length pre)) raw = rest) as [Ht Hd].
  { rewrite Hraw, app_assoc. replace (S (length pre)) with (length (pre ++ [nl])) by (rewrite length_app; simpl; lia).
    split; [apply take_app_length|apply drop_app_length]. }
  rewrite Ht, Hd in Hw. rewrite Hraw in Hlong |- *. rewrite Scan_prefix by done. cbn [fst].
  unfold run_lines in *. rewrite foldl_app. by apply only_signatures_content.
Qed.

(** The loop never touches the signed body. *)
Lemma scan_line_body l line : signedBody (cons_ (scan_line l line)) = signedBody (cons_ l).
Proof.
  assert (∀ l, signedBody (cons_ (flush l)) = signedBody (cons_ l)) as Hf
    by (intros l'; unfold flush; by destruct (cur l')).
  unfold scan_line. destruct (inSig l).
  - unfold sig_line. destruct (HasPrefix _ _); [|done]. by destruct (pem_Decode _), (pending l).
  - destruct (Fields line) as [|kw args]; [done|]. unfold keyword_line, on_cur.
    repeat case_decide; try done; repeat case_match; try done; cbn [cons_ set_cur set_cons]; try apply Hf.
Qed.

Lemma ParseConsensus_body raw c : ParseConsensus raw = Ok c → signed_part raw = Some (signedBody c).
Proof.
  intros (body & Hb & _ & -> & _)%ParseConsensus_Ok. rewrite Hb. f_equal. unfold run_lines.
  generalize ((Scan maxLine raw).1). intros ls.
  assert (∀ l, signedBody (cons_ (flush (foldl scan_line l ls))) = signedBody (cons_ l)) as ->; [|done].
  induction ls as [|line ls IH]; intros l; simpl.
  - unfold flush. by destruct (cur l).
  - rewrite IH. apply scan_line_body.
Qed.

(** C26: as long as nothing but signature blocks follows the first signature
    line, everything a parsed consensus says (times, routers, weights, shared
    random values) is determined by the bytes the signatures cover: two such
    documents with the same signed part have the same content. *)
Theorem signed_content_determined raw1 raw2 c1 c2 :
  ParseConsensus raw1 = Ok c1 → ParseConsensus raw2 = Ok c2 →
  well_closed raw1 = true → well_closed raw2 = true →
  signedBody c1 = signedBody c2 → content c1 = content c2.
Proof.
  intros H1 H2 Hw1 Hw2 Hb.
  destruct (well_closed_content raw1 c1 _ H1 Hw1 (ParseConsensus_body _ _ H1)) as (p1 & Hp1 & ->).
  destruct (well_closed_content raw2 c2 _ H2 Hw2 (ParseConsensus_body _ _ H2)) as (p2 & Hp2 & ->).
  rewrite <-Hb in *. rewrite Hp1 in Hp2. by apply app_inv_tail in Hp2 as ->.
Qed.

(** ** Router entries *)

(** A printed entry: the fields of the r line that are kept, the microdescriptor
    hash, the flags and the bandwidth. *)
Record entry := mkEntry {
  e_nick : bytes; e_id : bytes; e_date : bytes; e_time : bytes; e_ip : bytes;
  e_or : Z; e_dir : Z; e_hash : bytes; e_flags : list bytes; e_bw : Z
}.

Definition bandwidth_word (bw : Z) : bytes := go"Bandwidth=" ++ Itoa bw.
Definition entry_words (e : entry) : list (list bytes) :=
  [[go"r"; e_nick e; RawStd_Encode (e_id e); e_date e; e_time e; e_ip e; Itoa (e_or e); Itoa (e_dir e)];
   [go"m"; e_hash e]; go"s" :: e_flags e; [go"w"; bandwidth_word (e_bw e)]].
Definition entry_lines (e : entry) : list bytes := map (λ ws, Join ws [x20]) (entry_words e).

Definition entry_router (e : entry) : RouterStatus :=
  mkRouterStatus (e_nick e) (e_id e) (e_ip e) (e_or e) (e_dir e) [] (e_hash e)
    (flag_map (e_flags e)) (e_bw e) false.

Definition entry_ok (e : entry) : Prop :=
  Forall (λ w, word w = true) ([e_nick e; e_date e; e_time e; e_ip e; e_hash e] ++ e_flags e) ∧
  e_id e ≠ [] ∧ (0 ≤ e_or e < 2 ^ 63)%Z ∧ (0 ≤ e_dir e < 2 ^ 63)%Z ∧ (0 ≤ e_bw e < 2 ^ 63)%Z ∧
  Forall (λ l, (Z.of_nat (length l) < maxLine)%Z) (entry_lines e).

Lemma bandwidth_word_ok bw : (0 ≤ bw < 2 ^ 63)%Z →
  word (bandwidth_word bw) = true ∧ splitKV (bandwidth_word bw) = Some (go"Bandwidth", bw).
Proof.
  intros Hb. split.
  - unfold word, bandwidth_word. pose proof (Itoa_word bw ltac:(lia)) as [_ Hw]%andb_true_iff.
    rewrite forallb_app, Hw. reflexivity.
  - assert (Cut (bandwidth_word bw) go"=" = Some (go"Bandwidth", Itoa bw)) as Hc.
    { unfold Cut, bandwidth_word. assert (Index (go"Bandwidth=" ++ Itoa bw) go"=" = Some 9) as ->
        by (apply Index_app; reflexivity). reflexivity. }
    unfold splitKV. rewrite Hc. cbn [mbind option_bind]. by rewrite Atoi_checked_Itoa.
Qed.

Lemma entry_words_ok e : entry_ok e → Forall (Forall (λ w, word w = true)) (entry_words e).
Proof.
  intros (Hw & Hid & Ho & Hd & Hb & _). apply Forall_app in Hw as [Hw Hf].
  repeat (apply list.Forall_cons in Hw as [? Hw]).
  repeat constructor; try done; [by apply RawStd_Encode_word|apply Itoa_word; lia|apply Itoa_word; lia|].
  by apply bandwidth_word_ok.
Qed.

Lemma entry_lines_clean e : entry_ok e → Forall (clean_line maxLine) (entry_lines e).
Proof.
  intros He. pose proof (entry_words_ok e He) as Hw. destruct He as (_ & _ & _ & _ & _ & Hl).
  unfold entry_lines in *. rewrite Forall_map in Hl |- *. revert Hl. unfold compose.
  induction Hw as [|ws wss Hws _ IH]; [done|]. intros [H1 H2]%list.Forall_cons.
  constructor; [by apply Join_clean|by apply IH].
Qed.

Lemma scan_line_words l ws kw args : inSig l = false → ws = kw :: args →
  Forall (λ w, word w = true) ws → scan_line l (Join ws [x20]) = keyword_line l kw args.
Proof. intros Hs -> Hw. unfold scan_line. by rewrite Hs, Fields_Join. Qed.

(** The loop reads a printed entry as the router it stands for. *)
Lemma entry_scanned l e : entry_ok e → inSig l = false →
  foldl scan_line l (entry_lines e) = set_cur (Some (entry_router e)) (flush l).
Proof.
  intros He Hs. pose proof (entry_words_ok e He) as Hw. destruct He as (_ & _ & Ho & Hd & Hb & _).
  unfold entry_words in Hw. repeat (apply list.Forall_cons in Hw as [? Hw]).
  unfold entry_lines, entry_words. cbn [map foldl].
  assert (inSig (flush l) = false) as Hsf by (unfold flush; by destruct (cur l)).
  erewrite (scan_line_words l) by done.
  assert (∀ args r, parseRouterLine (go"r" :: args) = Ok r →
    keyword_line l go"r" args = set_cur (Some r) (flush l)) as Hr.
  { intros args r Hp. unfold keyword_line. cbv zeta.
    repeat (rewrite decide_False by done). rewrite decide_True by done. by rewrite Hp. }
  erewrite Hr.
  2: { cbn [parseRouterLine]. rewrite RawStd_roundtrip, !Atoi_value_Itoa by done. reflexivity. }
  erewrite (scan_line_words (set_cur _ _)) by done.
  change (keyword_line (set_cur ?o ?f) go"m" [e_hash e]) with (on_cur (set_md (e_hash e)) (set_cur o f)).
  erewrite (scan_line_words (on_cur _ _)) by done.
  change (keyword_line (on_cur ?g ?f) go"s" (e_flags e)) with (on_cur (set_flags (flag_map (e_flags e))) (on_cur g f)).
  erewrite (scan_line_words (on_cur _ _)) by done.
  change (keyword_line (on_cur ?g ?f) go"w" ?a) with (on_cur (λ r, parseBandwidthLine r a) (on_cur g f)).
  unfold on_cur, set_cur. cbn [cur fmap option_fmap option_map cons_ inSig sigLines pending].
  cbn [parseBandwidthLine foldl]. unfold bandwidth_kv. rewrite (proj2 (bandwidth_word_ok _ Hb)).
  reflexivity.
Qed.

(** ** Text behind the signatures *)

Section Tail.
Context `{C : Crypto}.

(** All signature blocks of the document are closed. *)
Definition blocks_closed (raw : bytes) : bool :=
  match signed_part raw with
  | None => false
  | Some body => negb (inSig (run_lines body (Scan maxLine raw).1))
  end.

(** Parsing a document with more lines behind it. *)
Lemma ParseConsensus_more raw c ls : ParseConsensus (raw ++ [nl]) = Ok c →
  blocks_closed (raw ++ [nl]) = true → Forall (clean_line maxLine) ls →
  ∃ l, inSig l = false ∧ c = cons_ (flush l) ∧ Routers c ≠ [] ∧
    (Routers (cons_ (flush (foldl scan_line l ls))) ≠ [] →
     ParseConsensus ((raw ++ [nl]) ++ unlines ls) = Ok (cons_ (flush (foldl scan_line l ls)))).
Proof.
  intros (body & Hb & Hlong & -> & Hne)%ParseConsensus_Ok Hcl Hls.
  unfold blocks_closed in Hcl. rewrite Hb in Hcl. apply negb_true_iff in Hcl.
  eexists. split; [exact Hcl|]. split; [done|]. split; [done|]. intros Hne2.
  apply ParseConsensus_Ok. exists body. split; [by apply signed_part_app|].
  destruct (Scan maxLine (raw ++ [nl])) as [ls0 long] eqn:E. cbn [snd] in Hlong. subst long.
  assert (Scan maxLine ((raw ++ [nl]) ++ unlines ls) = (ls0 ++ ls, false)) as ->.
  { rewrite <-app_assoc. unfold Scan. rewrite (scan_from_app maxLine [] raw (unlines ls) ls0 E).
    rewrite <-(app_nil_r (unlines ls)), Scan_unlines by done. cbn. by rewrite app_nil_r. }
  split; [done|]. cbn [fst]. unfold run_lines in *. by rewrite foldl_app.
Qed.

Lemma check_sigs_body c c' certs seen ss : signedBody c' = signedBody c →
  check_sigs c' certs seen ss = check_sigs c certs seen ss.
Proof.
  intros Hb. revert seen. induction ss as [|s ss IH]; intros seen; [done|]. cbn [check_sigs].
  assert (check_sig c' certs seen s = check_sig c certs seen s) as -> by (unfold check_sig; by rewrite Hb).
  destruct (check_sig c certs seen s); [apply IH|done..].
Qed.

Lemma VerifyConsensus_unsigned c c' certs now :
  signedBody c' = signedBody c → signatures c' = signatures c →
  ValidAfter c' = ValidAfter c → ValidUntil c' = ValidUntil c →
  VerifyConsensus c' certs now = VerifyConsensus c certs now.
Proof.
  intros Hb Hs Ha Hu. unfold VerifyConsensus. by rewrite Hs, Ha, Hu, (check_sigs_body c c').
Qed.

(** C16: what follows the signature blocks is parsed although nothing signs it.
    Whoever serves a consensus can append a router entry of its choice: the
    document parses with that router added, and signature verification gives
    the same verdict as for the original.  An appended valid-until line moves
    the expiry of an old consensus the same way. *)
Theorem unsigned_tail_accepted (raw : bytes) (c : Consensus) (e : entry) (d t : bytes) (until : Z) :
  ParseConsensus (raw ++ [nl]) = Ok c → blocks_closed (raw ++ [nl]) = true → entry_ok e →
  word d = true → word t = true → (Z.of_nat (length d + length t) < 1000)%Z →
  time_Parse (d ++ go" " ++ t) = Some until →
  let c1 := set_routers (Routers c ++ [entry_router e]) c in
  let c2 := set_times (ValidAfter c) (FreshUntil c) until c in
  ParseConsensus ((raw ++ [nl]) ++ unlines (entry_lines e)) = Ok c1 ∧
  (∀ certs now, VerifyConsensus c1 certs now = VerifyConsensus c certs now) ∧
  ParseConsensus ((raw ++ [nl]) ++ unlines [Join [go"valid-until"; d; t] [x20]]) = Ok c2 ∧
  (∀ certs now now', VerifyConsensus c certs now = Ok tt → (now ≤ now' ≤ until)%Z →
     VerifyConsensus c2 certs now' = Ok tt).
Proof.
  intros Hp Hcl He Hd Ht Hlen Htm. cbv zeta. split_and!.
  - destruct (ParseConsensus_more raw c (entry_lines e) Hp Hcl (entry_lines_clean e He))
      as (l & Hs & -> & Hne & Hmore).
    rewrite entry_scanned in Hmore by done. apply Hmore. simpl. by destruct (Routers _).
  - intros certs now. by apply VerifyConsensus_unsigned.
  - destruct (ParseConsensus_more raw c [Join [go"valid-until"; d; t] [x20]] Hp Hcl) as (l & Hs & -> & Hne & Hmore).
    { constructor; [|done]. apply Join_clean; [by repeat constructor|].
      cbn [Join]. rewrite !length_app. unfold maxLine. simpl length. lia. }
    cbn [foldl] in Hmore. erewrite (scan_line_words l) in Hmore by (done || by repeat constructor).
    change (keyword_line l go"valid-until" [d; t]) with
      (set_cons (set_times (ValidAfter (cons_ l)) (FreshUntil (cons_ l)) (parseDirTime [d; t]) (cons_ l)) l) in Hmore.
    cbn [parseDirTime] in Hmore. rewrite Htm in Hmore. cbn [default] in Hmore.
    unfold flush in *. cbn [cur set_cons] in Hmore. destruct (cur l); by apply Hmore.
  - intros certs now now' Hv Hn. revert Hv. unfold VerifyConsensus.
    rewrite (check_sigs_body c (set_times _ _ _ c)) by done. cbn [ValidAfter ValidUntil signatures set_times].
    destruct (Z.ltb_spec now (ValidAfter c)), (Z.ltb_spec (ValidUntil c) now); try done.
    destruct (Z.ltb_spec now' (ValidAfter c)), (Z.ltb_spec until now'); lia || done.
Qed.
End Tail.
