(* ===== verification/MicrodescFacts.v ===== *)
(** * Documents cut at a marker, and the content addressing of
    microdescriptors. *)

From Stdlib Require Import Sorted.
From S2P Require Import Prelude ByteUtil GoNet GoText GoTextFacts TorCrypto Directory DirParse.

(** ** Starts *)

(** [j] is the start of a line that begins with the marker. *)
Definition starts_at (marker : bytes) (bol : bool) (raw : bytes) (j : nat) : Prop :=
  j < length raw ∧ HasPrefix (drop j raw) marker = true ∧
  match j with O => bol = true | S k => raw !! k = Some nl end.

Lemma marker_starts_spec marker i bol raw x :
  x ∈ marker_starts marker i bol raw ↔ ∃ j, x = i + j ∧ starts_at marker bol raw j.
Proof.
  revert i bol. induction raw as [|b t IH]; intros i bol; cbn [marker_starts].
  - split; [set_solver|]. intros (j & _ & Hj & _). simpl in Hj. lia.
  - assert (x ∈ marker_starts marker (S i) (bool_decide (b = nl)) t ↔
      ∃ j, x = i + S j ∧ starts_at marker bol (b :: t) (S j)) as Hrest.
    { rewrite IH. split; intros (j & -> & Hj); exists j; (split; [lia|]); revert Hj; unfold starts_at;
        cbn [length drop]; intros (H1 & H2 & H3); (split; [lia|]); (split; [done|]); destruct j as [|j];
        cbn [lookup list_lookup] in *; try done.
      - apply bool_decide_eq_true in H3. by subst.
      - apply bool_decide_eq_true. by injection H3. }
    destruct (bol && HasPrefix (b :: t) marker) eqn:E.
    + rewrite elem_of_cons, Hrest. split.
      * intros [->|(j & -> & Hj)]; [|by exists (S j)]. exists 0. split; [lia|].
        apply andb_true_iff in E as [-> E]. split; [simpl; lia|]. done.
      * intros ([|j] & -> & Hj); [left; lia|]. right. by exists j.
    + rewrite Hrest. split; [intros (j & -> & Hj); by exists (S j)|].
      intros ([|j] & -> & Hj); [|by exists j]. destruct Hj as (_ & Hp & ->).
      cbn [drop] in Hp. rewrite Hp in E. done.
Qed.

Lemma marker_starts_sorted marker i bol raw :
  StronglySorted lt (marker_starts marker i bol raw).
Proof.
  revert i bol. induction raw as [|b t IH]; intros i bol; cbn [marker_starts]; [constructor|].
  destruct (bol && _); [|apply IH]. constructor; [apply IH|]. apply List.Forall_forall.
  intros x Hx. apply list_elem_of_In, marker_starts_spec in Hx as (j & -> & _). lia.
Qed.

(** ** Segments *)

Lemma cut_segments_elem raw starts seg : StronglySorted lt starts →
  seg ∈ cut_segments raw starts → ∃ s e, s ∈ starts ∧ seg = take (e - s) (drop s raw) ∧
    (e ∈ starts ∧ s < e ∨ e = length raw) ∧ ∀ x, x ∈ starts → x ≤ s ∨ e ≤ x.
Proof.
  induction 1 as [|s rest Hs IH Hall]; cbn [cut_segments]; [set_solver|].
  rewrite List.Forall_forall in Hall. rewrite elem_of_cons. intros [->|Hseg].
  - destruct rest as [|e rest].
    + exists s, (length raw). split; [left|]. split; [done|]. split; [by right|]. intros x ->%list_elem_of_singleton. by left.
    + exists s, e. split; [left|]. split; [done|]. split; [left; split; [set_solver|apply Hall; by left]|].
      intros x [->|[->|Hx]%elem_of_cons]%elem_of_cons; [by left|by right|]. right.
      apply StronglySorted_inv in Hs as [_ He]. rewrite List.Forall_forall in He.
      apply list_elem_of_In, He in Hx. lia.
  - destruct (IH Hseg) as (s' & e & Hs' & -> & He & Hx). exists s', e. split; [by right|].
    split; [done|]. split; [destruct He as [[? ?]|?]; [left; split; [by right|done]|by right]|].
    intros x [->|Hxr]%elem_of_cons; [|by apply Hx]. left.
    apply list_elem_of_In, Hall in Hs'. lia.
Qed.

(** A marker whose newline, if any, is its last byte. *)
Definition marker_ok (marker : bytes) : bool :=
  bool_decide (marker ≠ []) && negb (contains_byte (take (length marker - 1) marker) nl).

Section Split.
Context (marker : bytes) (Hm : marker_ok marker = true).

Lemma marker_nl i : marker !! i = Some nl → S i = length marker.
Proof.
  intros H. apply andb_true_iff in Hm as [_ Hm2]. apply negb_true_iff, contains_byte_false in Hm2.
  pose proof (lookup_lt_Some _ _ _ H). destruct (decide (S i = length marker)) as [|Hne]; [done|].
  destruct Hm2. apply (list_elem_of_lookup_2 _ i). rewrite lookup_take_lt by lia. done.
Qed.

(** A segment starts with the marker and contains it at no other line start. *)
Lemma segment_self raw seg : seg ∈ split_at_marker marker raw →
  marker_starts marker 0 true seg = [0] ∧ ∃ pre post, raw = pre ++ seg ++ post.
Proof.
  intros Hseg. unfold split_at_marker in Hseg.
  apply cut_segments_elem in Hseg as (s & e & Hs & -> & He & Hx); [|apply marker_starts_sorted].
  pose proof Hs as Hs0. apply marker_starts_spec in Hs0 as (? & [= <-] & Hs1 & Hs2 & Hs3).
  split; [|exists (take s raw), (drop (e - s) (drop s raw)); by rewrite !take_drop].
  set (seg := take (e - s) (drop s raw)).
  assert (drop s raw = seg ++ drop (e - s) (drop s raw)) as Hcut by (unfold seg; by rewrite take_drop).
  assert (length marker ≤ length seg) as Hlen.
  { apply HasPrefix_spec in Hs2 as [u Hu]. unfold seg. rewrite length_take, length_drop.
    assert (length marker ≤ length raw - s) as Hl.
    { apply (f_equal length) in Hu. rewrite length_drop, length_app in Hu. lia. }
    destruct He as [[He Hlt]| ->]; [|lia].
    apply marker_starts_spec in He as (? & [= <-] & _ & _ & Hnl). destruct e as [|e]; [lia|].
    destruct (decide (S e - s < length marker)); [|lia].
    assert (marker !! (e - s) = Some nl) as Hmk.
    { rewrite <-Hnl. replace e with (s + (e - s)) at 2 by lia. rewrite <-lookup_drop, Hu.
      by rewrite lookup_app_l by lia. }
    apply marker_nl in Hmk. lia. }
  assert (HasPrefix seg marker = true) as Hpre.
  { apply (HasPrefix_shorter seg (drop (e - s) (drop s raw))); [|done]. by rewrite <-Hcut. }
  assert (length seg ≠ 0) as Hne.
  { apply andb_true_iff in Hm as [Hm1%bool_decide_eq_true _]. destruct marker; [done|]. simpl in Hlen. lia. }
  assert (∀ j, j ∈ marker_starts marker 0 true seg → j = 0) as Honly.
  { intros j (? & [= <-] & Hj1 & Hj2 & Hj3)%marker_starts_spec. destruct j as [|j]; [done|exfalso].
    assert (s + S j ∈ marker_starts marker 0 true raw) as Hin.
    { apply marker_starts_spec. exists (s + S j). split; [done|].
      assert (length seg ≤ length raw - s) by (unfold seg; rewrite length_take, length_drop; lia).
      split; [lia|]. split.
      - rewrite <-drop_drop, Hcut, drop_app_le by lia. apply HasPrefix_spec in Hj2 as [u ->].
        rewrite <-app_assoc. apply HasPrefix_app.
      - destruct (s + S j) as [|k] eqn:Ek; [lia|]. replace k with (s + j) by lia.
        rewrite <-lookup_drop, Hcut, lookup_app_l by lia. done. }
    assert (S j < e - s) by (unfold seg in Hj1; rewrite length_take in Hj1; lia).
    apply Hx in Hin as [?|?]; lia. }
  pose proof (marker_starts_sorted marker 0 true seg) as Hsort.
  assert (0 ∈ marker_starts marker 0 true seg) as H0.
  { apply marker_starts_spec. exists 0. split; [done|]. split; [lia|]. by split. }
  destruct (marker_starts marker 0 true seg) as [|x [|y l]]; [set_solver| |].
  - f_equal. apply Honly. by left.
  - exfalso. apply StronglySorted_inv in Hsort as [_ Hf]. apply List.Forall_cons_iff in Hf as [Hf _].
    rewrite (Honly x), (Honly y) in Hf; [lia|set_solver|set_solver].
Qed.
End Split.

(** ** Microdescriptors *)

Section Microdesc.
Context `{C : Crypto}.

Lemma microdesc_of_Some seg md : microdesc_of seg = Some md →
  Raw md = seg ∧ Digest md = RawStd_Encode (sha256 seg) ∧ length (NtorOnionKey md) = 32.
Proof.
  unfold microdesc_of. destruct (parseOneMicrodesc seg) as [m|] eqn:E; [|done].
  cbn [mbind option_bind]. intros [= <-]. split; [done|]. split; [done|]. simpl. revert E.
  unfold parseOneMicrodesc. destruct (length _ =? 32) eqn:El; [|done]. intros [= <-]. bools. lia.
Qed.

(** A microdescriptor read from a document is exactly a part of it, carries
    the digest of those bytes and a 32-byte onion key, and those bytes alone are
    read back as that one microdescriptor, so that a cached copy is accepted
    under its hash. *)
Theorem microdesc_reparse (raw : bytes) (md : Microdescriptor) :
  md ∈ ParseMicrodescriptors raw →
  ParseMicrodescriptors (Raw md) = [md] ∧ Digest md = RawStd_Encode (sha256 (Raw md)) ∧
  length (NtorOnionKey md) = 32 ∧ ∃ pre post, raw = pre ++ Raw md ++ post.
Proof.
  unfold ParseMicrodescriptors at 1. rewrite list_elem_of_omap. intros (seg & Hseg & Hmd).
  pose proof Hmd as (Hr & Hd & Hk)%microdesc_of_Some. subst seg.
  destruct (segment_self (go"onion-key" ++ [nl]) eq_refl raw (Raw md) Hseg) as [Hs Hpp].
  split; [|by split_and!]. unfold ParseMicrodescriptors, split_at_marker. rewrite Hs.
  cbn [cut_segments]. rewrite Nat.sub_0_r. change (drop 0 (Raw md)) with (Raw md).
  rewrite firstn_all. simpl. by rewrite Hmd.
Qed.
End Microdesc.
