(* ===== verification/DirClient.v ===== *)
(** * [pkg/directory/client.go]: fetching and verifying directory documents.

    The client's fields, its cache, and every fetch as a program on them.  What
    the client does not control is an environment: the answers of the
    authorities' HTTP servers and of the tunnel (which may depend on everything
    requested so far), the clock, the random source, dropped cache writes and
    the decompressors.  Every request is recorded. *)

From S2P Require Import Prelude ByteUtil GoNet GoText GoTextFacts TorCrypto Directory DirParse.

Definition pathConsensusMicrodesc : bytes := go"/tor/status-vote/current/consensus-microdesc".
Definition pathKeysFpSk : bytes := go"/tor/keys/fp-sk/".
Definition pathMicroD : bytes := go"/tor/micro/d/".
Definition maxMicrodescPerRequest : nat := 92.
Definition maxDecompressedSize : Z := Z.shiftl 64 20.

(** A directory request: over plain HTTP to an address, or through the tunnel. *)
Inductive request := Direct (hostport path : bytes) | Tunneled (path : bytes).

(** What a stream yields and whether it ends cleanly. *)
Record stream := mkStream { s_data : bytes; s_clean : bool }.
Record response := mkResponse { StatusCode : Z; ContentEncoding : bytes; Body : stream }.

Record env := mkEnv {
  http_Do : list request → bytes → bytes → option response;
  tunnel_DirGet : list request → bytes → option bytes;
  clock : list request → Z;
  rand_Int : list request → nat → nat;
  put_kept : list request → bytes → bool;
  gzip_NewReader : bytes → option stream;
  zlib_NewReader : bytes → option stream;
  flate_NewReader : bytes → stream;
  ParsePKCS1PublicKey : bytes → option PublicKey
}.

Inductive fetch_error :=
| HttpErr
| HttpStatus (code : Z)
| ReadErr
| GzipErr
| TooLarge
| NoAuthorities
| TunnelFailed
| ConsensusFetch (e : fetch_error)
| ConsensusParse (e : parse_error)
| CertsFetch (e : fetch_error)
| NoKnownSignatures
| CertsMissing
| ConsensusBad (e : dir_error)
| MicrodescsFetch (e : fetch_error).

(** [Client]; [cache = None] is the nil cache, [tunnel] tells whether one is
    set. *)
Record dirclient := mkDir {
  authorities : list Authority;
  cache : option (gmap bytes bytes);
  tunnel : bool;
  allowDirectFallback : bool;
  reqs : list request
}.

Definition set_cache (m : option (gmap bytes bytes)) (c : dirclient) : dirclient :=
  mkDir (authorities c) m (tunnel c) (allowDirectFallback c) (reqs c).
Definition add_req (r : request) (c : dirclient) : dirclient :=
  mkDir (authorities c) (cache c) (tunnel c) (allowDirectFallback c) (reqs c ++ [r]).

Definition UseCache (m : option (gmap bytes bytes)) (c : dirclient) : dirclient := set_cache m c.
Definition UseTunnel (t : bool) (c : dirclient) : dirclient :=
  mkDir (authorities c) (cache c) t (allowDirectFallback c) (reqs c).
Definition AllowDirectFallback (allow : bool) (c : dirclient) : dirclient :=
  mkDir (authorities c) (cache c) (tunnel c) allow (reqs c).
Definition NewClient (auths : list Authority) : dirclient :=
  mkDir (match auths with [] => DefaultAuthorities | _ => auths end) None false false [].

(** The digits are produced while the number is positive. *)
Definition itoa (n : Z) : bytes :=
  if (n =? 0)%Z then go"0" else if (0 <? n)%Z then itoa_fuel 20 n else [].
Definition DirAddr (a : Authority) : bytes := a_IP a ++ go":" ++ itoa (a_DirPort a).

(** ** Reading and decompressing *)

(** At most [n] bytes, without evaluating a large [n] on a short list. *)
Definition take_z (n : Z) (b : bytes) : bytes :=
  if (Z.of_nat (length b) <=? n)%Z then b else take (Z.to_nat n) b.

(** [io.ReadAll(io.LimitReader(r, n))]: an error of the stream behind the limit
    is not seen. *)
Definition ReadAll_Limit (n : Z) (r : stream) : outcome fetch_error bytes :=
  if (n <=? Z.of_nat (length (s_data r)))%Z then Ok (take_z n (s_data r))
  else if s_clean r then Ok (s_data r) else Err ReadErr.

Definition readLimited (limit : Z) (r : stream) : outcome fetch_error bytes :=
  data ← ReadAll_Limit (limit + 1) r;
  if (limit <? Z.of_nat (length data))%Z then Err TooLarge else Ok data.
Definition readAllLimited (r : stream) : outcome fetch_error bytes := readLimited maxDecompressedSize r.

Definition decompress (e : env) (encoding body : bytes) : outcome fetch_error bytes :=
  let enc := ToLower (TrimSpace encoding) in
  if decide (enc = [] ∨ enc = go"identity") then Ok body
  else if decide (enc = go"gzip" ∨ enc = go"x-gzip") then
    match gzip_NewReader e body with
    | None => Err GzipErr
    | Some zr => readAllLimited zr
    end
  else if decide (enc = go"deflate") then
    match zlib_NewReader e body with
    | Some zr => readAllLimited zr
    | None => readAllLimited (flate_NewReader e body)
    end
  else Ok body.
Definition Decompress (e : env) (encoding body : bytes) : outcome fetch_error bytes :=
  decompress e encoding body.

(** ** Random order *)

Definition swap (i j : nat) (l : list nat) : list nat :=
  match l !! i, l !! j with
  | Some x, Some y => <[i := y]> (<[j := x]> l)
  | _, _ => l
  end.
(** The loop from [i] down to 1; [draw i] is [rand.Int] below [i + 1]. *)
Fixpoint shuffle (draw : nat → nat) (i : nat) (l : list nat) : list nat :=
  match i with
  | O => l
  | S k => shuffle draw k (swap i (draw i mod S i) l)
  end.
Definition shuffledIndices (draw : nat → nat) (n : nat) : list nat := shuffle draw (n - 1) (seq 0 n).

Section Client.
Context `{C : Crypto} (e : env).

Implicit Types (c : dirclient).

(** ** Fetching *)

Definition get (hostport path : bytes) : prog dirclient fetch_error bytes :=
  answer ← gets (λ c, http_Do e (reqs c) hostport path);
  _ ← modify (add_req (Direct hostport path));
  match answer with
  | None => throw HttpErr
  | Some resp =>
      if negb (StatusCode resp =? 200)%Z then throw (HttpStatus (StatusCode resp))
      else
        body ← lift (ReadAll_Limit (Z.shiftl 64 20) (Body resp));
        lift (decompress e (ContentEncoding resp) body)
  end.

(** The loop over the authorities in the drawn order. *)
Fixpoint try_authorities (auths : list Authority) (order : list nat) (path : bytes)
    (lastErr : option fetch_error) : prog dirclient fetch_error bytes :=
  match order with
  | [] => throw (default NoAuthorities lastErr)
  | i :: order =>
      match auths !! i with
      | None => panic
      | Some auth =>
          o ← attempt (get (DirAddr auth) path);
          match o with
          | Panic => panic
          | Err er => try_authorities auths order path (Some er)
          | Ok body => mret body
          end
      end
  end.
Definition fetchDirect (path : bytes) : prog dirclient fetch_error bytes :=
  auths ← gets authorities;
  draw ← gets (λ c, rand_Int e (reqs c));
  try_authorities auths (shuffledIndices draw (length auths)) path None.

Definition DirGet (path : bytes) : prog dirclient fetch_error (option bytes) :=
  answer ← gets (λ c, tunnel_DirGet e (reqs c) path);
  _ ← modify (add_req (Tunneled path));
  mret answer.

Definition fetchFromAny (path : bytes) : prog dirclient fetch_error bytes :=
  t ← gets tunnel;
  if t : bool then
    answer ← DirGet path;
    match answer with
    | Some body => mret body
    | None =>
        allow ← gets allowDirectFallback;
        if negb allow then throw TunnelFailed else fetchDirect path
    end
  else fetchDirect path.

Definition cacheGet (key : bytes) : prog dirclient fetch_error (option bytes) :=
  gets (λ c, m ← cache c; m !! key).
Definition cachePut (key data : bytes) : prog dirclient fetch_error unit :=
  modify (λ c, match cache c with
               | None => c
               | Some m => if put_kept e (reqs c) key then set_cache (Some (<[key := data]> m)) c else c
               end).

(** ** The consensus *)

Definition read_certs (raw : bytes) (idents : gmap bytes Authority)
    : prog dirclient fetch_error (gmap bytes authCert) :=
  now ← gets (λ c, clock e (reqs c));
  match parseCerts idents now ∅ (map (ParseAuthCert (ParsePKCS1PublicKey e)) (splitCerts raw)) with
  | Ok certs => mret certs
  | _ => panic
  end.

Definition fetchCerts (sigs : list consensusSig) : prog dirclient fetch_error (gmap bytes authCert) :=
  auths ← gets authorities;
  let idents := byIdent auths in
  let need := needed idents sigs in
  if bool_decide (need = []) then throw NoKnownSignatures
  else
    cached ← cacheGet go"certs";
    fromCache ← match cached with
                | None => mret None
                | Some raw => certs ← read_certs raw idents;
                              mret (if certsCoverAll certs need then Some certs else None)
                end;
    match fromCache with
    | Some certs => mret certs
    | None =>
        raw ← fetchFromAny (pathKeysFpSk ++ Join need go"+");
        certs ← read_certs raw idents;
        if negb (certsCoverAll certs need) then throw CertsMissing
        else _ ← cachePut go"certs" raw; mret certs
    end.

Definition lift_verify (o : outcome dir_error unit) : prog dirclient fetch_error unit :=
  lift (map_err ConsensusBad o).

Definition fetchVerifyConsensus : prog dirclient fetch_error Consensus :=
  raw ← map_error ConsensusFetch (fetchFromAny pathConsensusMicrodesc);
  con ← lift (map_err ConsensusParse (ParseConsensus raw));
  certs ← map_error CertsFetch (fetchCerts (signatures con));
  now ← gets (λ c, clock e (reqs c));
  _ ← lift_verify (VerifyConsensus con certs now);
  _ ← cachePut go"consensus" raw;
  mret con.

Definition cachedConsensus : prog dirclient fetch_error (option Consensus) :=
  cached ← cacheGet go"consensus";
  match cached with
  | None => mret None
  | Some raw =>
      match ParseConsensus raw with
      | Ok con =>
          now ← gets (λ c, clock e (reqs c));
          if (now <? ValidAfter con)%Z || (ValidUntil con <? now)%Z then mret None
          else
            o ← attempt (fetchCerts (signatures con));
            match o with
            | Panic => panic
            | Err _ => mret None
            | Ok certs =>
                match VerifyConsensus con certs now with
                | Panic => panic
                | Err _ => mret None
                | Ok _ => mret (Some con)
                end
            end
      | _ => mret None
      end
  end.

Definition Bootstrap : prog dirclient fetch_error Consensus :=
  cached ← cachedConsensus;
  match cached with
  | Some con => mret con
  | None => fetchVerifyConsensus
  end.
Definition Refresh : prog dirclient fetch_error Consensus := fetchVerifyConsensus.

(** ** Microdescriptors *)

Definition md_key (h : bytes) : bytes := go"md/" ++ h.

(** The loop that serves hashes from the cache: what was found, and what is
    missing. *)
Fixpoint md_cached (hashes : list bytes) (out : gmap bytes Microdescriptor) (missing : list bytes)
    : prog dirclient fetch_error (gmap bytes Microdescriptor * list bytes) :=
  match hashes with
  | [] => mret (out, missing)
  | h :: hashes =>
      raw ← cacheGet (md_key h);
      match ParseMicrodescriptors <$> raw with
      | Some [md] => if bool_decide (Digest md = h) then md_cached hashes (<[h := md]> out) missing
                     else md_cached hashes out (missing ++ [h])
      | _ => md_cached hashes out (missing ++ [h])
      end
  end.

Fixpoint md_store (mds : list Microdescriptor) (out : gmap bytes Microdescriptor)
    : prog dirclient fetch_error (gmap bytes Microdescriptor) :=
  match mds with
  | [] => mret out
  | md :: mds => _ ← cachePut (md_key (Digest md)) (Raw md); md_store mds (<[Digest md := md]> out)
  end.

(** The batches; each takes at least one hash, so their number is enough
    fuel. *)
Fixpoint md_batches (fuel : nat) (missing : list bytes) (out : gmap bytes Microdescriptor)
    (fetch : bytes → prog dirclient fetch_error bytes)
    : prog dirclient fetch_error (gmap bytes Microdescriptor) :=
  match fuel, missing with
  | O, _ | _, [] => mret out
  | S fuel, _ =>
      let batch := take maxMicrodescPerRequest missing in
      raw ← map_error MicrodescsFetch (fetch (pathMicroD ++ Join batch go"-"));
      out ← md_store (ParseMicrodescriptors raw) out;
      md_batches fuel (drop maxMicrodescPerRequest missing) out fetch
  end.

Definition fetchMicrodescriptors (hashes : list bytes) (fetch : bytes → prog dirclient fetch_error bytes)
    : prog dirclient fetch_error (gmap bytes Microdescriptor) :=
  '(out, missing) ← md_cached hashes ∅ [];
  md_batches (length missing) missing out fetch.
Definition FetchMicrodescriptors (hashes : list bytes) := fetchMicrodescriptors hashes fetchFromAny.
Definition FetchMicrodescriptorsDirect (hashes : list bytes) := fetchMicrodescriptors hashes fetchDirect.

End Client.
