(* ===== verification/DirClientFacts.v ===== *)
(** * What the directory client guarantees: no request outside the tunnel, only
    authenticated consensuses, content-addressed microdescriptors, bounded
    responses and a complete round of the authorities. *)

From S2P Require Import Prelude ByteUtil GoNet GoText GoTextFacts TorCrypto Directory DirParse MicrodescFacts DirClient.

Section Facts.
Context `{C : Crypto} (e : env).

(** ** Fail closed *)

Definition is_direct (r : request) : bool := match r with Direct _ _ => true | Tunneled _ => false end.
Definition directs (c : dirclient) : list request := List.filter is_direct (reqs c).

(** The tunnel is set, the fallback is not allowed, and the direct requests
    made so far are [d]. *)
Definition sealed (d : list request) (c : dirclient) : Prop :=
  tunnel c = true ∧ allowDirectFallback c = false ∧ directs c = d.

Lemma fetchFromAny_sealed d path : preserves (sealed d) (fetchFromAny e path).
Proof.
  intros c o c' H (Ht & Ha & Hd). unfold fetchFromAny in H. rewrite prog_bind_eq in H.
  unfold gets at 1 in H. rewrite Ht in H. rewrite prog_bind_eq in H.
  unfold DirGet in H. rewrite prog_bind_eq in H. unfold gets at 1 in H.
  rewrite prog_bind_eq in H. unfold modify at 1 in H.
  assert (sealed d (add_req (Tunneled path) c)) as Hs.
  { split; [done|]. split; [done|]. unfold directs. cbn [reqs add_req].
    rewrite List.filter_app. cbn [List.filter is_direct]. by rewrite app_nil_r. }
  destruct (tunnel_DirGet e (reqs c) path); [by injection H as <- <-|].
  cbn [mret prog_ret] in H. rewrite prog_bind_eq in H. unfold gets in H.
  cbn [allowDirectFallback add_req] in H. rewrite Ha in H. by injection H as <- <-.
Qed.

Lemma cachePut_sealed d k v : preserves (sealed d) (cachePut e k v).
Proof.
  apply preserves_modify. intros c Hc. destruct (cache c); [|done]. by destruct (put_kept e (reqs c) k).
Qed.
Lemma cacheGet_keeps P k : preserves P (cacheGet k).
Proof. apply preserves_gets. Qed.
Lemma read_certs_keeps P raw idents : preserves P (read_certs e raw idents).
Proof.
  apply preserves_bind; [apply preserves_gets|]. intros now.
  destruct (parseCerts _ _ _ _); auto using preserves_ret, preserves_panic.
Qed.

(** What cache writes and fetches keep, all operations keep. *)
Section Keeps.
Context (P : dirclient → Prop) (Hput : ∀ k v, preserves P (cachePut e k v)).

Lemma md_cached_keeps hashes out missing : preserves P (md_cached hashes out missing).
Proof.
  revert out missing. induction hashes as [|h hashes IH]; intros out missing; [apply preserves_ret|].
  cbn [md_cached]. apply preserves_bind; [apply cacheGet_keeps|]. intros raw.
  destruct (ParseMicrodescriptors <$> raw) as [[|md [|md' mds]]|]; try apply IH.
  apply preserves_if; apply IH.
Qed.

Lemma md_store_keeps mds out : preserves P (md_store e mds out).
Proof.
  revert out. induction mds as [|md mds IH]; intros out; [apply preserves_ret|].
  apply preserves_bind; [apply Hput|]. intros _. apply IH.
Qed.

Lemma md_batches_keeps fuel missing out fetch : (∀ path, preserves P (fetch path)) →
  preserves P (md_batches e fuel missing out fetch).
Proof.
  intros Hf. revert missing out. induction fuel as [|fuel IH]; intros missing out; [apply preserves_ret|].
  cbn [md_batches]. destruct missing as [|h missing]; [apply preserves_ret|]. cbv zeta.
  apply preserves_bind; [apply preserves_map_error, Hf|]. intros raw.
  apply preserves_bind; [apply md_store_keeps|]. intros out'. apply IH.
Qed.

Lemma fetchMicrodescriptors_keeps hashes fetch : (∀ path, preserves P (fetch path)) →
  preserves P (fetchMicrodescriptors e hashes fetch).
Proof.
  intros Hf. apply preserves_bind; [apply md_cached_keeps|]. intros [out missing]. by apply md_batches_keeps.
Qed.

Context (Hfetch : ∀ path, preserves P (fetchFromAny e path)).

Lemma fetchCerts_keeps sigs : preserves P (fetchCerts e sigs).
Proof.
  unfold fetchCerts. apply preserves_bind; [apply preserves_gets|]. intros auths. cbv zeta.
  apply preserves_if; [apply preserves_throw|].
  apply preserves_bind; [apply cacheGet_keeps|]. intros cached.
  apply preserves_bind.
  { destruct cached; [|apply preserves_ret]. apply preserves_bind; [apply read_certs_keeps|].
    intros. apply preserves_ret. }
  intros [certs|]; [apply preserves_ret|].
  apply preserves_bind; [apply Hfetch|]. intros raw.
  apply preserves_bind; [apply read_certs_keeps|]. intros certs.
  apply preserves_if; [apply preserves_throw|].
  apply preserves_bind; [apply Hput|]. intros. apply preserves_ret.
Qed.

Lemma fetchVerifyConsensus_keeps : preserves P (fetchVerifyConsensus e).
Proof.
  unfold fetchVerifyConsensus. apply preserves_bind; [apply preserves_map_error, Hfetch|].
  intros raw. apply preserves_bind; [apply preserves_lift|]. intros con.
  apply preserves_bind; [apply preserves_map_error, fetchCerts_keeps|]. intros certs.
  apply preserves_bind; [apply preserves_gets|]. intros now.
  apply preserves_bind; [apply preserves_lift|]. intros _.
  apply preserves_bind; [apply Hput|]. intros _. apply preserves_ret.
Qed.

Lemma cachedConsensus_keeps : preserves P (cachedConsensus e).
Proof.
  unfold cachedConsensus. apply preserves_bind; [apply cacheGet_keeps|]. intros [raw|]; [|apply preserves_ret].
  destruct (ParseConsensus raw) as [con| |]; [|apply preserves_ret..].
  apply preserves_bind; [apply preserves_gets|]. intros now. apply preserves_if; [apply preserves_ret|].
  apply preserves_bind; [apply preserves_attempt, fetchCerts_keeps|].
  intros [certs| |]; [|apply preserves_ret|apply preserves_panic].
  destruct (VerifyConsensus con certs now); auto using preserves_ret, preserves_panic.
Qed.

Lemma Refresh_keeps : preserves P (Refresh e).
Proof. apply fetchVerifyConsensus_keeps. Qed.
Lemma Bootstrap_keeps : preserves P (Bootstrap e).
Proof.
  unfold Bootstrap. apply preserves_bind; [apply cachedConsensus_keeps|].
  intros [con|]; [apply preserves_ret|apply fetchVerifyConsensus_keeps].
Qed.
End Keeps.

(** Nothing changes the authorities. *)
Section Authorities.
Context (auths : list Authority).
Notation same := (λ c, authorities c = auths).

Lemma cachePut_authorities k v : preserves same (cachePut e k v).
Proof. apply preserves_modify. intros c Hc. destruct (cache c); [|done]. by destruct (put_kept e (reqs c) k). Qed.
Lemma get_authorities addr path : preserves same (get e addr path).
Proof.
  unfold get. repeat first [apply preserves_bind; [|intros]|apply preserves_gets|apply preserves_modify; done
    |apply preserves_ret|apply preserves_throw|apply preserves_lift|apply preserves_map_error|apply preserves_if|case_match].
Qed.
Lemma fetchDirect_authorities path : preserves same (fetchDirect e path).
Proof.
  unfold fetchDirect. apply preserves_bind; [apply preserves_gets|]. intros as_. apply preserves_bind; [apply preserves_gets|].
  intros draw. generalize (@None fetch_error). induction (shuffledIndices _ _) as [|i order IH]; intros le; cbn [try_authorities];
    [apply preserves_throw|]. destruct (as_ !! i); [|apply preserves_panic].
  apply preserves_bind; [apply preserves_attempt, get_authorities|].
  intros [b|er|]; [apply preserves_ret|apply IH|apply preserves_panic].
Qed.
Lemma fetchFromAny_authorities path : preserves same (fetchFromAny e path).
Proof.
  unfold fetchFromAny, DirGet. repeat first [apply fetchDirect_authorities|apply preserves_bind; [|intros]|apply preserves_gets
    |apply preserves_modify; done|apply preserves_ret|apply preserves_throw|apply preserves_if|case_match].
Qed.
Lemma Bootstrap_authorities : preserves same (Bootstrap e).
Proof. apply Bootstrap_keeps; [apply cachePut_authorities|apply fetchFromAny_authorities]. Qed.
Lemma Refresh_authorities : preserves same (Refresh e).
Proof. apply Refresh_keeps; [apply cachePut_authorities|apply fetchFromAny_authorities]. Qed.
End Authorities.

(** C20: once a tunnel is set and direct fallback has not been allowed, no
    operation that is meant to go through the tunnel makes a direct request,
    whatever the tunnel, the servers and the cache answer and however the
    operation ends. *)
Theorem tunnel_fail_closed (c c' : dirclient) (hashes : list bytes) :
  tunnel c = true → allowDirectFallback c = false →
  (∀ o, Bootstrap e c = Some (o, c') → directs c' = directs c) ∧
  (∀ o, Refresh e c = Some (o, c') → directs c' = directs c) ∧
  (∀ o, FetchMicrodescriptors e hashes c = Some (o, c') → directs c' = directs c).
Proof.
  intros Ht Ha. assert (sealed (directs c) c) as Hc by done. split_and!; intros o H.
  - eapply (Bootstrap_keeps (sealed (directs c))); [apply cachePut_sealed|apply fetchFromAny_sealed|exact H|done].
  - eapply (Refresh_keeps (sealed (directs c))); [apply cachePut_sealed|apply fetchFromAny_sealed|exact H|done].
  - eapply (fetchMicrodescriptors_keeps (sealed (directs c))); [apply cachePut_sealed|apply fetchFromAny_sealed|exact H|done].
Qed.

(** ** Only authenticated consensuses *)

(** [c'] is [c] after some requests. *)
Definition later (c c' : dirclient) : Prop :=
  authorities c' = authorities c ∧ reqs c `prefix_of` reqs c'.
#[local] Instance later_preorder : PreOrder later.
Proof. split; [by intros c|]. intros c1 c2 c3 [? ?] [? ?]. split; [congruence|by etrans]. Qed.

(** A reading of the clock between [c] and [c']. *)
Definition read_during (c c' : dirclient) (t : Z) : Prop :=
  ∃ h, reqs c `prefix_of` h ∧ h `prefix_of` reqs c' ∧ t = clock e h.

Lemma read_during_weaken c0 c1 c2 c3 t :
  later c0 c1 → later c2 c3 → read_during c1 c2 t → read_during c0 c3 t.
Proof. intros [_ H1] [_ H2] (h & ? & ? & ->). exists h. split_and!; [by etrans|by etrans|done]. Qed.

Lemma later_add_req r c : later c (add_req r c).
Proof. split; [done|]. by eexists. Qed.

Lemma ReadAll_Limit_total n s : ReadAll_Limit n s ≠ Panic.
Proof. unfold ReadAll_Limit. by repeat case_match. Qed.
Lemma readAllLimited_total s : readAllLimited s ≠ Panic.
Proof.
  unfold readAllLimited, readLimited. pose proof (ReadAll_Limit_total (maxDecompressedSize + 1) s).
  destruct (ReadAll_Limit _ _); [|done..]. osimpl. by destruct (_ <? _)%Z.
Qed.
Lemma decompress_total enc body : decompress e enc body ≠ Panic.
Proof.
  unfold decompress. repeat case_match; try done; apply readAllLimited_total.
Qed.

Lemma get_returns hp path c : returns (get e hp path) c (λ _ c', later c c').
Proof.
  unfold get. apply returns_bind, returns_gets, returns_bind, returns_modify.
  pose proof (later_add_req (Direct hp path) c) as Hl.
  destruct (http_Do e (reqs c) hp path) as [resp|]; [|by apply returns_throw].
  destruct (negb _); [by apply returns_throw|]. apply returns_bind.
  apply returns_lift; [apply ReadAll_Limit_total|].
  pose proof (ReadAll_Limit_total (Z.shiftl 64 20) (Body resp)).
  destruct (ReadAll_Limit _ _); [|done..]. apply returns_lift; [apply decompress_total|done].
Qed.
(** *** One round of the authorities *)

Lemma swap_perm i j l : swap i j l ≡ₚ l.
Proof.
  unfold swap. destruct (l !! i) as [x|] eqn:Hi; [|done]. destruct (l !! j) as [y|] eqn:Hj; [|done].
  apply Permutation_inj. split; [by rewrite !length_insert|].
  exists (λ k, if decide (k = i) then j else if decide (k = j) then i else k). split.
  - intros a b. repeat case_decide; congruence.
  - intros k. pose proof (lookup_lt_Some _ _ _ Hi). pose proof (lookup_lt_Some _ _ _ Hj).
    destruct (decide (k = i)) as [->|]; [by rewrite list_lookup_insert_eq by (by rewrite length_insert)|].
    rewrite list_lookup_insert_ne by done. destruct (decide (k = j)) as [->|].
    + by rewrite list_lookup_insert_eq by done.
    + by rewrite list_lookup_insert_ne.
Qed.

Lemma shuffle_perm draw i l : shuffle draw i l ≡ₚ l.
Proof.
  revert l. induction i as [|i IH]; intros l; [done|]. cbn [shuffle]. rewrite IH. apply swap_perm.
Qed.

Lemma try_authorities_returns auths path order lastErr c :
  (∀ i, i ∈ order → i < length auths) →
  returns (try_authorities e auths order path lastErr) c (λ o c', later c c' ∧
    (∀ er, o = Err er → reqs c' = reqs c ++ map (λ i, Direct (from_option DirAddr [] (auths !! i)) path) order)).
Proof.
  revert lastErr c. induction order as [|i order IH]; intros lastErr c Hi; cbn [try_authorities].
  - apply returns_throw. split; [done|]. intros. by rewrite app_nil_r.
  - destruct (lookup_lt_is_Some_2 auths i) as [a Ha]; [apply Hi; by left|]. rewrite Ha. cbn [from_option].
    apply returns_bind, returns_attempt. destruct (get_returns (DirAddr a) path c) as (o & c1 & Hg & Hp & Hl).
    exists o, c1. split; [done|]. split; [done|].
    assert (reqs c1 = reqs c ++ [Direct (DirAddr a) path]) as Hr.
    { revert Hg. unfold get. rewrite prog_bind_eq. unfold gets. rewrite prog_bind_eq. unfold modify.
      destruct (http_Do e (reqs c) (DirAddr a) path) as [resp|]; [|by intros [= _ <-]].
      destruct (negb _); [by intros [= _ <-]|]. rewrite prog_bind_eq. unfold lift.
      destruct (ReadAll_Limit _ _); by intros [= _ <-]. }
    destruct o as [body|er|]; [by apply returns_ret| |done].
    eapply returns_weaken; [apply IH; intros j Hj; apply Hi; by right|].
    intros o2 c2 _ [Hl2 Herr]. split; [by etrans|]. intros er2 Ho. rewrite (Herr er2 Ho), Hr.
    cbn [map]. rewrite Ha. cbn [from_option]. by rewrite <-app_assoc.
Qed.

Lemma shuffled_range draw n i : i ∈ shuffledIndices draw n → i < n.
Proof. unfold shuffledIndices. rewrite shuffle_perm, elem_of_seq. lia. Qed.

Lemma fetchDirect_returns path c : returns (fetchDirect e path) c (λ o c', later c c' ∧
  (∀ er, o = Err er → ∃ rs, reqs c' = reqs c ++ rs ∧
     rs ≡ₚ map (λ a, Direct (DirAddr a) path) (authorities c))).
Proof.
  unfold fetchDirect. apply returns_bind, returns_gets, returns_bind, returns_gets.
  eapply returns_weaken; [apply try_authorities_returns; intros i; apply shuffled_range|].
  intros o c' _ [Hl Herr]. split; [done|]. intros er Ho. eexists. split; [by apply (Herr er)|].
  unfold shuffledIndices. rewrite shuffle_perm. clear. generalize (authorities c). intros auths.
  match goal with |- ?a ≡ₚ ?b => replace a with b; [done|symmetry] end. apply list_eq. intros i. rewrite !list_lookup_fmap.
  destruct (decide (i < length auths)) as [Hi|Hi].
  - rewrite lookup_seq_lt by done. cbn [fmap option_fmap option_map Nat.add].
    by destruct (lookup_lt_is_Some_2 auths i Hi) as [a ->].
  - rewrite lookup_seq_ge by lia. by rewrite (lookup_ge_None_2 auths i) by lia.
Qed.

Lemma fetchFromAny_returns path c : returns (fetchFromAny e path) c (λ _ c', later c c').
Proof.
  assert (∀ c0, later c c0 → returns (fetchDirect e path) c0 (λ _ c', later c c')) as Hd.
  { intros c0 Hc0. eapply returns_weaken; [apply fetchDirect_returns|]. intros o c' _ [Hl _]. by etrans. }
  unfold fetchFromAny. apply returns_bind, returns_gets. destruct (tunnel c); [|by apply Hd].
  apply returns_bind. unfold DirGet. apply returns_bind, returns_gets, returns_bind, returns_modify, returns_ret.
  pose proof (later_add_req (Tunneled path) c) as Hl.
  destruct (tunnel_DirGet e (reqs c) path); [by apply returns_ret|].
  apply returns_bind, returns_gets. destruct (negb _); [by apply returns_throw|by apply Hd].
Qed.
(** *** Certificates *)

(** What [x509.ParsePKCS1PublicKey] promises: the modulus is positive. *)
Context (Hkeys : ∀ der k, ParsePKCS1PublicKey e der = Some k → (0 < N k)%Z).

Lemma ParseAuthCert_wf raw cert : ParseAuthCert (ParsePKCS1PublicKey e) raw = Some cert → cert_wf cert.
Proof.
  unfold ParseAuthCert. intros (idDER & _ & H)%bind_Some. apply bind_Some in H as (ik & Hi & H).
  apply bind_Some in H as (skDER & _ & H). apply bind_Some in H as (sk & Hs & H). cbv zeta in H.
  destruct (bool_decide _); [discriminate H|]. apply bind_Some in H as (t & _ & H).
  apply bind_Some in H as (mi & _ & H). apply bind_Some in H as (sg & _ & H). injection H as <-.
  split; [by exists (sha1 idDER)|by exists (sha1 skDER)|exact (Hkeys _ _ Hi)|exact (Hkeys _ _ Hs)].
Qed.

Lemma read_certs_returns raw c :
  returns (read_certs e raw (byIdent (authorities c))) c (λ o c', c' = c ∧
    ∀ certs, o = Ok certs → trusted (authorities c) (clock e (reqs c)) certs).
Proof.
  unfold read_certs. apply returns_bind, returns_gets.
  destruct (parseCerts_trusted (authorities c) (clock e (reqs c)) ∅
    (map (ParseAuthCert (ParsePKCS1PublicKey e)) (splitCerts raw))) as (certs & -> & Ht).
  - apply trusted_empty.
  - intros cert Hin. apply list_elem_of_fmap in Hin as (seg & Hs & _). by eapply ParseAuthCert_wf.
  - apply returns_ret. split; [done|]. by intros ? [= <-].
Qed.

Definition certs_from (c c' : dirclient) (o : outcome fetch_error (gmap bytes authCert)) : Prop :=
  ∀ certs, o = Ok certs → ∃ t, read_during c c' t ∧ trusted (authorities c) t certs.

Lemma later_read c c' c'' t : later c c' → c'' = c' → t = clock e (reqs c') → read_during c c'' t.
Proof. intros [_ Hl] -> ->. by exists (reqs c'). Qed.

Lemma cachePut_returns k v c : returns (cachePut e k v) c (λ o c', o = Ok tt ∧ later c c').
Proof.
  apply returns_modify. split; [done|]. destruct (cache c); [|done]. by destruct (put_kept _ _ _).
Qed.

Lemma fetchCerts_returns sigs c : returns (fetchCerts e sigs) c (λ o c', later c c' ∧ certs_from c c' o).
Proof.
  unfold fetchCerts. apply returns_bind, returns_gets. cbv zeta.
  destruct (bool_decide _); [by apply returns_throw|]. apply returns_bind. unfold cacheGet at 1. apply returns_gets.
  set (need := needed _ _). set (cached := cache c ≫= _).
  apply returns_bind. eapply (returns_weaken _ c (λ o c1, c1 = c ∧ ∀ certs, o = Ok (Some certs) →
    trusted (authorities c) (clock e (reqs c)) certs)).
  { destruct cached as [raw|]; [|by apply returns_ret]. apply returns_bind.
    eapply returns_weaken; [apply read_certs_returns|]. intros [certs|er|] c1 Hp [-> Ht]; [|done..].
    apply returns_ret. split; [done|]. intros certs' [= H]. destruct (certsCoverAll certs need); [|done].
    injection H as <-. by apply Ht. }
  intros [[certs|]|er|] c1 Hp [-> Ht]; [| |done..].
  - apply returns_ret. split; [done|]. intros certs' [= <-]. exists (clock e (reqs c)).
    split; [by eapply later_read|by apply Ht].
  - clear Ht. apply returns_bind. eapply returns_weaken; [apply fetchFromAny_returns|].
    intros [raw|er|] c1 Hp1 Hl1; [|done..]. apply returns_bind.
    destruct Hl1 as [Ha1 Hr1]. rewrite <-Ha1. eapply returns_weaken; [apply read_certs_returns|].
    intros [certs|er|] c2 Hp2 [-> Ht]; [|done..].
    destruct (negb _); [by apply returns_throw|]. apply returns_bind.
    eapply returns_weaken; [apply cachePut_returns|]. intros o3 c3 _ [-> Hl3]. apply returns_ret.
    assert (later c c1) as Hl1 by done. split; [by etrans|]. intros certs' [= <-].
    exists (clock e (reqs c1)). split; [|rewrite <-Ha1; by apply Ht].
    apply (read_during_weaken c c1 c1 c3); [done|done|]. by exists (reqs c1).
Qed.

(** What an accepted consensus went through: it was parsed from a document, it
    is within its validity at a time read during the call, and a majority of
    the client's authorities signed it, with certificates unexpired at a time
    read during the call. *)
Definition authentic (c c' : dirclient) (con : Consensus) : Prop :=
  (∃ raw, ParseConsensus raw = Ok con) ∧
  (∃ now, read_during c c' now ∧ (ValidAfter con ≤ now ≤ ValidUntil con)%Z) ∧
  ∃ t, read_during c c' t ∧ signed_by_majority (authorities c) t con.

Lemma VerifyConsensus_total con certs now auths t : trusted auths t certs →
  VerifyConsensus con certs now ≠ Panic.
Proof.
  intros Ht. unfold VerifyConsensus. destruct (_ <? _)%Z; [done|]. destruct (_ <? _)%Z; [done|].
  destruct (check_sigs_spec con certs ∅ (signatures con)) as (seen & -> & _); [by eapply keys_ok_trusted|].
  osimpl. by destruct (_ <? _).
Qed.

Lemma ParseConsensus_total raw : ParseConsensus raw ≠ Panic.
Proof. unfold ParseConsensus. by repeat case_match. Qed.

Lemma authentic_weaken c0 c c' c1 con : later c0 c → later c' c1 → authentic c c' con → authentic c0 c1 con.
Proof.
  intros H0 H1 (Hp & (now & Hn & Hv) & (t & Ht & Hm)). split; [done|].
  split; [exists now; split; [by eapply read_during_weaken|done]|].
  exists t. split; [by eapply read_during_weaken|]. destruct H0 as [<- _]. done.
Qed.

Lemma fetchVerifyConsensus_returns c :
  returns (fetchVerifyConsensus e) c (λ o c', later c c' ∧ ∀ con, o = Ok con → authentic c c' con).
Proof.
  unfold fetchVerifyConsensus. apply returns_bind, returns_map_error.
  eapply returns_weaken; [apply fetchFromAny_returns|]. intros [raw|er|] c1 Hp Hl1; [|done..]. cbn [map_err].
  apply returns_bind. pose proof (ParseConsensus_total raw).
  apply returns_lift; [by destruct (ParseConsensus raw)|].
  destruct (ParseConsensus raw) as [con|er|] eqn:Hpc; [|done..]. cbn [map_err].
  apply returns_bind, returns_map_error. eapply returns_weaken; [apply fetchCerts_returns|].
  intros [certs|er|] c2 Hp2 [Hl2 Hc]; [|split; [by etrans|done]|done]. cbn [map_err].
  destruct (Hc certs eq_refl) as (t & Hrt & Htr).
  apply returns_bind, returns_gets, returns_bind. unfold lift_verify.
  pose proof (VerifyConsensus_total con certs (clock e (reqs c2)) _ _ Htr).
  apply returns_lift; [by destruct (VerifyConsensus _ _ _)|].
  destruct (VerifyConsensus con certs (clock e (reqs c2))) as [[]|er|] eqn:Hv; [|split; [by etrans|done]|done].
  cbn [map_err]. apply returns_bind. eapply returns_weaken; [apply cachePut_returns|].
  intros o3 c3 _ [-> Hl3]. apply returns_ret. split; [by do 2 etrans; try done|].
  intros con' [= <-]. destruct (trusted_majority _ _ _ _ _ Htr Hv) as [Hval Hmaj].
  apply (authentic_weaken c c1 c2 c3); [done|done|]. split; [by exists raw|]. split.
  - exists (clock e (reqs c2)). split; [|done]. by apply (later_read c1 c2 c2).
  - by exists t.
Qed.

Lemma cachedConsensus_returns c :
  returns (cachedConsensus e) c (λ o c', later c c' ∧
    ∃ r, o = Ok r ∧ ∀ con, r = Some con → authentic c c' con).
Proof.
  unfold cachedConsensus, cacheGet. apply returns_bind, returns_gets.
  assert (∀ c', later c c' → returns (mret None : prog dirclient fetch_error (option Consensus)) c' (λ o c', later c c' ∧
    ∃ r, o = Ok r ∧ ∀ con, r = Some con → authentic c c' con)) as Hnone.
  { intros c' Hl. apply returns_ret. split; [done|]. by exists None. }
  destruct (cache c ≫= _) as [raw|]; [|by apply Hnone].
  destruct (ParseConsensus raw) as [con|er|] eqn:Hpc; [|by apply Hnone..].
  apply returns_bind, returns_gets. destruct (_ || _); [by apply Hnone|].
  apply returns_bind, returns_attempt. eapply returns_weaken; [apply fetchCerts_returns|].
  intros [certs|er|] c2 Hp2 [Hl2 Hc]; [|by apply Hnone|done].
  destruct (Hc certs eq_refl) as (t & Hrt & Htr).
  pose proof (VerifyConsensus_total con certs (clock e (reqs c)) _ _ Htr).
  destruct (VerifyConsensus con certs (clock e (reqs c))) as [[]|er|] eqn:Hv; [|by apply Hnone|done].
  apply returns_ret. split; [done|]. exists (Some con). split; [done|]. intros con' [= <-].
  destruct (trusted_majority _ _ _ _ _ Htr Hv) as [Hval Hmaj].
  split; [by exists raw|]. split; [|by exists t].
  exists (clock e (reqs c)). split; [|done]. apply (read_during_weaken c c c c2); [done|done|].
  by exists (reqs c).
Qed.

Lemma Bootstrap_returns (c : dirclient) : returns (Bootstrap e) c (λ o c', ∀ con, o = Ok con → authentic c c' con).
Proof.
  unfold Bootstrap. apply returns_bind. eapply returns_weaken; [apply cachedConsensus_returns|].
  intros o c1 _ (Hl & r & -> & Hr). destruct r as [con|].
  - apply returns_ret. intros con' [= <-]. by apply Hr.
  - eapply returns_weaken; [apply fetchVerifyConsensus_returns|]. intros o2 c2 _ [Hl2 Ho] con Hc.
    apply (authentic_weaken c c1 c2 c2); [done|done|by apply Ho].
Qed.
Lemma Refresh_returns (c : dirclient) : returns (Refresh e) c (λ o c', ∀ con, o = Ok con → authentic c c' con).
Proof. eapply returns_weaken; [apply fetchVerifyConsensus_returns|]. intros o c' _ [_ Ho]. done. Qed.

(** C8: whatever is in the cache and whatever the servers and the tunnel answer,
    [Bootstrap] and [Refresh] return without a panic, and a consensus they
    return is authentic: parsed, within its validity, and signed by at least
    five of the client's authorities through unexpired certificates that the
    built-in identities signed. *)
Theorem Bootstrap_authenticated (c : dirclient) :
  returns (Bootstrap e) c (λ o c', ∀ con, o = Ok con → authentic c c' con) ∧
  returns (Refresh e) c (λ o c', ∀ con, o = Ok con → authentic c c' con).
Proof. split; [apply Bootstrap_returns|apply Refresh_returns]. Qed.
End Facts.

Section Fetches.
Context `{C : Crypto} (e : env).

(** A direct fetch fails only after every authority was asked, each exactly
    once. *)
Theorem fetchDirect_complete (path : bytes) (c : dirclient) :
  returns (fetchDirect e path) c (λ o c', ∀ er, o = Err er →
    ∃ rs, reqs c' = reqs c ++ rs ∧ rs ≡ₚ map (λ a, Direct (DirAddr a) path) (authorities c)).
Proof. eapply returns_weaken; [apply fetchDirect_returns|]. by intros o c' _ [_ H]. Qed.

(** ** Bounded responses *)

Lemma take_z_length n b : (0 ≤ n)%Z → (Z.of_nat (length (take_z n b)) ≤ n)%Z.
Proof.
  intros Hn. unfold take_z. destruct (Z.leb_spec (Z.of_nat (length b)) n); [done|].
  rewrite length_take. lia.
Qed.

Lemma ReadAll_Limit_length n s b : (0 ≤ n)%Z → ReadAll_Limit n s = Ok b → (Z.of_nat (length b) ≤ n)%Z.
Proof.
  intros Hn. unfold ReadAll_Limit. destruct (Z.leb_spec n (Z.of_nat (length (s_data s)))).
  - intros [= <-]. by apply take_z_length.
  - destruct (s_clean s); [|done]. intros [= <-]. lia.
Qed.

Lemma readLimited_Ok limit s b : (0 ≤ limit)%Z →
  readLimited limit s = Ok b ↔ s_data s = b ∧ s_clean s = true ∧ (Z.of_nat (length b) ≤ limit)%Z.
Proof.
  intros Hl. unfold readLimited, ReadAll_Limit.
  destruct (Z.leb_spec (limit + 1) (Z.of_nat (length (s_data s)))) as [Hge|Hlt]; osimpl.
  - assert (Z.of_nat (length (take_z (limit + 1) (s_data s))) = limit + 1)%Z as ->.
    { unfold take_z. destruct (Z.leb_spec (Z.of_nat (length (s_data s))) (limit + 1)); [lia|].
      rewrite length_take. lia. }
    destruct (Z.ltb_spec limit (limit + 1)); [|lia]. split; [done|]. intros (<- & _ & ?). lia.
  - destruct (s_clean s); osimpl; [|split; [done|by intros (_ & ? & _)]].
    destruct (Z.ltb_spec limit (Z.of_nat (length (s_data s)))); [lia|].
    split; [intros [= <-]; split_and!; (done || lia)|by intros (-> & _)].
Qed.

(** A decompressed body is accepted only whole and within the limit of 64
    MiB: a stream that inflates past it, or ends in an error, is refused, and
    no answer of a directory server is longer than that. *)
Theorem responses_bounded (limit : Z) (s : stream) (b : bytes) (hp path : bytes) (c c' : dirclient) (body : bytes) :
  (0 ≤ limit)%Z →
  (readLimited limit s = Ok b ↔ s_data s = b ∧ s_clean s = true ∧ (Z.of_nat (length b) ≤ limit)%Z) ∧
  (get e hp path c = Some (Ok body, c') → (Z.of_nat (length body) ≤ maxDecompressedSize)%Z).
Proof.
  intros Hl. split; [by apply readLimited_Ok|].
  assert (0 ≤ maxDecompressedSize)%Z as Hm by done.
  assert (∀ enc b out, (Z.of_nat (length b) ≤ maxDecompressedSize)%Z → decompress e enc b = Ok out →
    (Z.of_nat (length out) ≤ maxDecompressedSize)%Z) as Hd.
  { intros enc b0 out Hb. unfold decompress, readAllLimited.
    repeat case_match; first [by intros [= <-] | done | by intros (_ & _ & ?)%readLimited_Ok]. }
  unfold get. rewrite prog_bind_eq. unfold gets. rewrite prog_bind_eq. unfold modify.
  destruct (http_Do e (reqs c) hp path) as [resp|]; [|done]. destruct (negb _); [done|].
  rewrite prog_bind_eq. unfold lift. destruct (ReadAll_Limit _ _) as [b0| |] eqn:Hb; [|done..].
  intros [= H _]. apply Hd in H; [done|]. by eapply ReadAll_Limit_length in Hb.
Qed.

(** ** Content-addressed microdescriptors *)

Definition addressed (out : gmap bytes Microdescriptor) : Prop :=
  ∀ h md, out !! h = Some md →
    Digest md = h ∧ h = RawStd_Encode (sha256 (Raw md)) ∧ length (NtorOnionKey md) = 32.

Lemma parsed_digest raw md : md ∈ ParseMicrodescriptors raw →
  Digest md = RawStd_Encode (sha256 (Raw md)) ∧ length (NtorOnionKey md) = 32.
Proof.
  unfold ParseMicrodescriptors. rewrite list_elem_of_omap. intros (seg & _ & Hmd).
  by apply microdesc_of_Some in Hmd as (-> & ? & ?).
Qed.

Lemma addressed_insert out md raw : addressed out → md ∈ ParseMicrodescriptors raw →
  addressed (<[Digest md := md]> out).
Proof.
  intros Ho [Hd Hk]%parsed_digest h x. rewrite lookup_insert_Some.
  intros [[<- <-]|[_ Hx]]; [done|by apply Ho].
Qed.

Definition covers (out out' : gmap bytes Microdescriptor) : Prop :=
  ∀ h, is_Some (out !! h) → is_Some (out' !! h).
Lemma covers_refl out : covers out out.
Proof. intros h Hh. exact Hh. Qed.
Lemma covers_insert out h md : covers out (<[h := md]> out).
Proof. intros k Hk. destruct (decide (h = k)) as [->|]; [by rewrite lookup_insert_eq|by rewrite lookup_insert_ne]. Qed.

(** The loop over the cache: what it does not find is missing, in order. *)
Lemma md_cached_returns hashes out missing0 c : addressed out →
  returns (md_cached hashes out missing0) c (λ o c', c' = c ∧ ∃ out' missing,
    o = Ok (out', missing0 ++ missing) ∧ missing `sublist_of` hashes ∧ addressed out' ∧ covers out out' ∧
    ∀ h, h ∈ hashes → h ∈ missing ∨ is_Some (out' !! h)).
Proof.
  revert out missing0. induction hashes as [|h hashes IH]; intros out missing0 Ho; cbn [md_cached].
  { apply returns_ret. split; [done|]. exists out, []. rewrite app_nil_r.
    split_and!; [done|reflexivity|done|apply covers_refl|set_solver]. }
  assert (∀ out1, addressed out1 → covers out out1 → is_Some (out1 !! h) →
    returns (md_cached hashes out1 missing0) c (λ o c', c' = c ∧ ∃ out' missing,
      o = Ok (out', missing0 ++ missing) ∧ missing `sublist_of` h :: hashes ∧ addressed out' ∧ covers out out' ∧
      ∀ k, k ∈ h :: hashes → k ∈ missing ∨ is_Some (out' !! k))) as Hhit.
  { intros out1 Ha Hc Hh. eapply returns_weaken; [by apply IH|].
    intros o c' _ (-> & out' & missing & -> & Hs & Ha' & Hc' & Hall). split; [done|].
    exists out', missing. split_and!; [done|by apply sublist_cons|done|intros k Hk; by apply Hc', Hc|].
    intros k [->|Hk]%elem_of_cons; [right; by apply Hc'|by apply Hall]. }
  assert (returns (md_cached hashes out (missing0 ++ [h])) c (λ o c', c' = c ∧ ∃ out' missing,
      o = Ok (out', missing0 ++ missing) ∧ missing `sublist_of` h :: hashes ∧ addressed out' ∧ covers out out' ∧
      ∀ k, k ∈ h :: hashes → k ∈ missing ∨ is_Some (out' !! k))) as Hmiss.
  { eapply returns_weaken; [by apply IH|].
    intros o c' _ (-> & out' & missing & -> & Hs & Ha' & Hc' & Hall). split; [done|].
    exists out', (h :: missing). rewrite <-app_assoc. split_and!; [done|by apply sublist_skip|done|done|].
    intros k [->|Hk]%elem_of_cons; [left; by left|]. destruct (Hall k Hk); [left; by right|by right]. }
  apply returns_bind. unfold cacheGet. apply returns_gets.
  destruct (cache c ≫= _) as [raw|]; cbn [fmap option_fmap option_map]; [|apply Hmiss].
  destruct (ParseMicrodescriptors raw) as [|md [|md' mds]] eqn:Hp; [apply Hmiss| |apply Hmiss].
  destruct (bool_decide _) eqn:Hb; [|apply Hmiss]. apply bool_decide_eq_true in Hb. subst h. apply Hhit.
  - apply (addressed_insert out md raw); [done|]. rewrite Hp. by left.
  - apply covers_insert.
  - by rewrite lookup_insert_eq.
Qed.

(** The same requests and settings. *)
Definition same_net (c c' : dirclient) : Prop :=
  reqs c' = reqs c ∧ tunnel c' = tunnel c ∧ allowDirectFallback c' = allowDirectFallback c.

Lemma cachePut_same k v c : returns (cachePut e k v) c (λ o c', o = Ok tt ∧ same_net c c').
Proof.
  apply returns_modify. split; [done|]. destruct (cache c); [|done]. by destruct (put_kept _ _ _).
Qed.

Lemma md_store_returns raw mds out c : mds ⊆ ParseMicrodescriptors raw → addressed out →
  returns (md_store e mds out) c (λ o c', same_net c c' ∧ ∃ out', o = Ok out' ∧ addressed out' ∧ covers out out').
Proof.
  revert out c. induction mds as [|md mds IH]; intros out c Hs Ho; cbn [md_store].
  - apply returns_ret. split; [done|]. exists out. auto using covers_refl.
  - apply returns_bind. eapply returns_weaken; [apply cachePut_same|].
    intros o1 c1 _ [-> (R1 & R2 & R3)]. eapply returns_weaken.
    + apply IH; [set_solver|]. apply (addressed_insert out md raw); [done|]. set_solver.
    + intros o c' _ ((Q1 & Q2 & Q3) & out' & -> & Ha & Hc). split; [split_and!; congruence|].
      exists out'. split_and!; [done..|]. intros k Hk. by apply Hc, covers_insert.
Qed.

Lemma fetchFromAny_tunneled path c : tunnel c = true → allowDirectFallback c = false →
  returns (fetchFromAny e path) c (λ _ c', reqs c' = reqs c ++ [Tunneled path] ∧
    tunnel c' = true ∧ allowDirectFallback c' = false).
Proof.
  intros Ht Ha. unfold fetchFromAny. apply returns_bind, returns_gets. rewrite Ht. apply returns_bind.
  unfold DirGet. apply returns_bind, returns_gets, returns_bind, returns_modify, returns_ret.
  destruct (tunnel_DirGet e (reqs c) path); [by apply returns_ret|]. apply returns_bind, returns_gets.
  cbn [allowDirectFallback add_req]. rewrite Ha. by apply returns_throw.
Qed.

Definition md_request (batch : list bytes) : request := Tunneled (pathMicroD ++ Join batch go"-").

Lemma md_batches_returns fuel missing out c : length missing ≤ fuel → addressed out →
  tunnel c = true → allowDirectFallback c = false →
  returns (md_batches e fuel missing out (fetchFromAny e)) c (λ o c', ∃ batches,
    reqs c' = reqs c ++ map md_request batches ∧
    Forall (λ b, 1 ≤ length b ≤ maxMicrodescPerRequest) batches ∧ List.concat batches `prefix_of` missing ∧
    ∀ out', o = Ok out' → List.concat batches = missing ∧ addressed out' ∧ covers out out').
Proof.
  revert missing out c. induction fuel as [|fuel IH]; intros missing out c Hl Ho Ht Ha.
  { destruct missing; [|simpl in Hl; lia]. apply returns_ret. exists [].
    split_and!; [by rewrite app_nil_r|done|done|]. intros out' [= <-]. split_and!; auto using covers_refl. }
  cbn [md_batches]. destruct missing as [|h rest].
  { apply returns_ret. exists []. split_and!; [by rewrite app_nil_r|done|done|]. intros out' [= <-].
    split_and!; auto using covers_refl. }
  cbv zeta. set (missing := h :: rest) in *. set (batch := take maxMicrodescPerRequest missing).
  assert (1 ≤ length batch ≤ maxMicrodescPerRequest) as Hb.
  { unfold batch, missing, maxMicrodescPerRequest. rewrite length_take. simpl length. lia. }
  apply returns_bind, returns_map_error. eapply returns_weaken; [by apply fetchFromAny_tunneled|].
  intros o1 c1 Hp1 (R1 & R2 & R3). fold (md_request batch) in R1.
  destruct o1 as [raw|er|]; [| |done]; cbn [map_err].
  2: { exists [batch]. split_and!; [done|by apply Forall_singleton| |done].
       cbn [List.concat]. rewrite app_nil_r. apply (prefix_take missing). }
  apply returns_bind. eapply returns_weaken; [by apply (md_store_returns raw)|].
  intros o2 c2 _ ((Q1 & Q2 & Q3) & out2 & -> & Ha2 & Hc2).
  eapply returns_weaken; [apply IH; [|done|congruence|congruence]|].
  { rewrite length_drop. unfold missing, maxMicrodescPerRequest in *. simpl length in *. lia. }
  intros o3 c3 _ (bs & S1 & S2 & S3 & S4). exists (batch :: bs). split_and!.
  - rewrite S1, Q1, R1, <-app_assoc. done.
  - by constructor.
  - cbn [List.concat]. rewrite <-(take_drop maxMicrodescPerRequest missing). by apply prefix_app.
  - intros out' Ho3. destruct (S4 out' Ho3) as (E & ? & Hc3). split_and!; [|done|].
    + cbn [List.concat]. rewrite E. apply take_drop.
    + intros k Hk. by apply Hc3, Hc2.
Qed.

(** Whichever way the documents are fetched, what is returned is filed under the
    hash of its own bytes. *)
Lemma md_batches_addressed fuel missing out fetch c out' c' : addressed out →
  md_batches e fuel missing out fetch c = Some (Ok out', c') → addressed out'.
Proof.
  revert missing out c. induction fuel as [|fuel IH]; intros missing out c Ho; [by intros [= <- _]|].
  cbn [md_batches]. destruct missing as [|h missing]; [by intros [= <- _]|]. cbv zeta.
  rewrite prog_bind_eq. unfold map_error. destruct (fetch _ c) as [[[raw|er|] c1]|]; [|done..]. cbn [map_err].
  rewrite prog_bind_eq. destruct (md_store_returns raw (ParseMicrodescriptors raw) out c1) as (o2 & c2 & E2 & _ & _ & out2 & -> & Ha & _); [done..|].
  rewrite E2. by apply IH.
Qed.
Lemma fetchMicrodescriptors_addressed hashes fetch c out c' :
  fetchMicrodescriptors e hashes fetch c = Some (Ok out, c') → addressed out.
Proof.
  unfold fetchMicrodescriptors. rewrite prog_bind_eq.
  destruct (md_cached_returns hashes ∅ [] c) as (o1 & c1 & E1 & _ & _ & out1 & missing & -> & _ & Ha & _).
  { intros k x Hk. by apply lookup_empty_Some in Hk. }
  rewrite E1. by apply md_batches_addressed.
Qed.

(** A tunneled microdescriptor fetch asks for every hash the cache does not
    have, each in one request, at most 92 at a time and in order; it returns
    every hash as found or asked for, and everything it returns is filed under
    the hash of its own bytes, so that neither a relay nor the cache can
    substitute a descriptor. *)
Theorem FetchMicrodescriptors_addressed (hashes : list bytes) (c : dirclient) :
  tunnel c = true → allowDirectFallback c = false →
  returns (FetchMicrodescriptors e hashes) c (λ o c', ∃ batches,
    reqs c' = reqs c ++ map md_request batches ∧
    Forall (λ b, 1 ≤ length b ≤ maxMicrodescPerRequest) batches ∧
    (∃ missing, missing `sublist_of` hashes ∧ List.concat batches `prefix_of` missing) ∧
    ∀ out, o = Ok out → addressed out ∧ ∀ h, h ∈ hashes → h ∈ List.concat batches ∨ is_Some (out !! h)).
Proof.
  intros Ht Ha. unfold FetchMicrodescriptors, fetchMicrodescriptors. apply returns_bind.
  eapply returns_weaken; [apply (md_cached_returns hashes ∅ [])|].
  { intros h md H. by apply lookup_empty_Some in H. }
  intros o c1 _ (-> & out1 & missing & -> & Hs & Ha1 & _ & Hall). cbn [app].
  eapply returns_weaken; [by apply md_batches_returns|].
  intros o2 c2 _ (bs & R1 & R2 & R3 & R4). exists bs. split_and!; [done|done|by exists missing|].
  intros out Ho. destruct (R4 out Ho) as (-> & ? & Hc). split; [done|]. intros h Hh.
  destruct (Hall h Hh) as [?|?]; [by left|right; by apply Hc].
Qed.

End Fetches.
