(* ===== verification/DiskCache.v ===== *)
(** * [pkg/directory/cache.go]: the cache of directory documents on disk.

    Lexical path cleaning as [path/filepath] does it, the mapping of keys to
    files, and [Get] and [Put] over an interface of file operations.  The disk
    cache implements the map with droppable writes that the directory client is
    verified against. *)

From S2P Require Import Prelude ByteUtil GoNet GoText GoTextFacts.

(** ** [path/filepath] on Unix *)

Definition slash : byte := ch "/".
Definition dot : byte := ch ".".
Definition dotdot : bytes := [dot; dot].

(** One element of a path; [stack] holds the elements kept so far, the last one
    first. *)
Definition clean_step (rooted : bool) (stack : list bytes) (c : bytes) : list bytes :=
  if decide (c = [] ∨ c = [dot]) then stack
  else if decide (c = dotdot) then
    match stack with
    | [] => if rooted then [] else [dotdot]
    | top :: below => if decide (top = dotdot) then dotdot :: stack else below
    end
  else c :: stack.

Definition render (rooted : bool) (elems : list bytes) : bytes :=
  if rooted then slash :: Join elems [slash]
  else match elems with [] => [dot] | _ => Join elems [slash] end.

Definition Clean (p : bytes) : bytes :=
  let rooted := HasPrefix p [slash] in
  render rooted (reverse (foldl (clean_step rooted) [] (Split p slash))).

(** [filepath.Join]: empty elements in front are skipped. *)
Fixpoint filepath_Join (elems : list bytes) : bytes :=
  match elems with
  | [] => []
  | [] :: rest => filepath_Join rest
  | _ => Clean (Join elems [slash])
  end.

(** ** Keys and files *)

(** [strings.NewReplacer] with its four pairs, none a prefix of another. *)
Fixpoint sanitizeKey (s : bytes) : bytes :=
  match s with
  | [] => []
  | b :: t =>
      if decide (b = slash) then ch "_" :: sanitizeKey t
      else if decide (b = ch "\") then ch "_" :: sanitizeKey t
      else if decide (b = ch "+") then ch "-" :: sanitizeKey t
      else if decide (b = dot) then
        match t with
        | c :: u => if decide (c = dot) then ch "_" :: ch "_" :: sanitizeKey u else b :: sanitizeKey t
        | [] => [b]
        end
      else b :: sanitizeKey t
  end.

(** [DiskCache] is its cleaned root directory (and a mutex around [Put]). *)
Record DiskCache := mkDiskCache { dir : bytes }.

Definition path (d : DiskCache) (key : bytes) : option bytes :=
  let p := match Cut key [slash] with
           | None => filepath_Join [dir d; sanitizeKey key]
           | Some (prefix, rest) => filepath_Join [dir d; sanitizeKey prefix; sanitizeKey rest]
           end in
  if negb (bool_decide (p = dir d)) && negb (HasPrefix p (dir d ++ [slash])) then None else Some p.

(** [filepath.Dir] of a cleaned path: what is before the last slash, cleaned. *)
Definition filepath_Dir (p : bytes) : bytes :=
  Clean (reverse (match IndexByte (reverse p) slash with Some k => drop k (reverse p) | None => [] end)).

(** ** The file system *)

(** The calls of package [os]; the boolean tells whether the call succeeded. *)
Class OS (FS : Type) := {
  ReadFile : FS → bytes → option bytes;
  MkdirAll : FS → bytes → bool * FS;
  WriteFile : FS → bytes → bytes → bool * FS;
  Rename : FS → bytes → bytes → bool * FS
}.

(** What they do to the files that can be read: creating directories changes
    none; a write changes only its file, even when it fails half way; a rename
    moves a file over another or changes nothing. *)
Class OSLaws (FS : Type) `{!OS FS} : Prop := {
  MkdirAll_files fs p q : ReadFile (MkdirAll fs p).2 q = ReadFile fs q;
  WriteFile_done fs p b : (WriteFile fs p b).1 = true → ReadFile (WriteFile fs p b).2 p = Some b;
  WriteFile_other fs p b q : q ≠ p → ReadFile (WriteFile fs p b).2 q = ReadFile fs q;
  Rename_done fs p q : (Rename fs p q).1 = true → ReadFile (Rename fs p q).2 q = ReadFile fs p;
  Rename_failed fs p q r : (Rename fs p q).1 = false → ReadFile (Rename fs p q).2 r = ReadFile fs r;
  Rename_other fs p q r : r ≠ p → r ≠ q → ReadFile (Rename fs p q).2 r = ReadFile fs r
}.

Section Cache.
Context {FS : Type} `{!OS FS}.

Definition NewDiskCache (fs : FS) (d : bytes) : option DiskCache * FS :=
  let '(ok, fs) := MkdirAll fs d in
  if ok then (Some (mkDiskCache (Clean d)), fs) else (None, fs).

Definition Get (d : DiskCache) (fs : FS) (key : bytes) : option bytes :=
  p ← path d key; ReadFile fs p.

(** [Put]: whether the rename succeeded, and the files. *)
Definition Put (d : DiskCache) (fs : FS) (key data : bytes) : bool * FS :=
  match path d key with
  | None => (false, fs)
  | Some p =>
      let '(ok, fs) := MkdirAll fs (filepath_Dir p) in
      if negb ok then (false, fs)
      else
        let tmp := p ++ go".tmp" in
        let '(ok, fs) := WriteFile fs tmp data in
        if negb ok then (false, fs) else Rename fs tmp p
  end.

(** [resolveCache] of guard.go: the configured cache, the disk cache below the data
    directory, or none. *)
Definition resolveCache {X : Type} (cfg_Cache : option X) (dataDir : bytes) (fs : FS) : option (X + DiskCache) * FS :=
  match cfg_Cache with
  | Some c => (Some (inl c), fs)
  | None =>
      if decide (dataDir = []) then (None, fs)
      else let '(dc, fs) := NewDiskCache fs (filepath_Join [dataDir; go"cache"]) in (inr <$> dc, fs)
  end.
End Cache.

(** ** Splitting and cleaning *)

Lemma split_byte_plain c cur s : c ∉ s → split_byte c cur s = [cur ++ s].
Proof.
  revert cur. induction s as [|b s IH]; intros cur H; cbn [split_byte]; [by rewrite app_nil_r|].
  apply not_elem_of_cons in H as [Hb H]. rewrite decide_False by done.
  rewrite IH by done. by rewrite <-app_assoc.
Qed.

Lemma split_byte_cons c cur s t : split_byte c cur (s ++ c :: t) = split_byte c cur s ++ Split t c.
Proof.
  revert cur. induction s as [|b s IH]; intros cur; cbn [app split_byte].
  - by rewrite decide_True by done.
  - case_decide; cbn [app]; by rewrite IH.
Qed.

(** A list of elements none of which has the separator splits back. *)
Lemma Split_Join c ls : ls ≠ [] → Forall (λ l, c ∉ l) ls → Split (Join ls [c]) c = ls.
Proof.
  intros Hne Hf. induction Hf as [|l ls Hl Hls IH]; [done|]. destruct ls as [|l' ls].
  - cbn [Join]. unfold Split. by rewrite split_byte_plain.
  - change (Join (l :: l' :: ls) [c]) with (l ++ c :: Join (l' :: ls) [c]).
    unfold Split at 1. rewrite split_byte_cons, split_byte_plain by done. cbn [app]. by rewrite IH.
Qed.

(** An element that cleaning keeps. *)
Definition plain_elem (c : bytes) : Prop := c ≠ [] ∧ c ≠ [dot] ∧ c ≠ dotdot ∧ slash ∉ c.

(** A stack that cleaning leaves: parent references only at the bottom, and
    none in a rooted path. *)
Inductive clean_stack (rooted : bool) : list bytes → Prop :=
| cs_nil : clean_stack rooted []
| cs_plain c st : plain_elem c → clean_stack rooted st → clean_stack rooted (c :: st)
| cs_up n : rooted = false → clean_stack rooted (replicate (S n) dotdot).

Lemma clean_step_plain r st c : plain_elem c → clean_step r st c = c :: st.
Proof. intros (H1 & H2 & H3 & _). unfold clean_step. rewrite decide_False by naive_solver. by rewrite decide_False. Qed.

Lemma clean_step_clean r st c : slash ∉ c → clean_stack r st → clean_stack r (clean_step r st c).
Proof.
  intros Hc Hs. unfold clean_step. case_decide as H1; [done|]. case_decide as H2.
  - inversion Hs as [|top below Htop Hbelow|n Hr]; subst.
    + destruct r; [constructor|by apply (cs_up _ 0)].
    + cbv match. rewrite decide_False by apply Htop. done.
    + cbn [replicate]. rewrite decide_True by reflexivity. by apply (cs_up _ (S n)).
  - constructor; [|done]. unfold plain_elem. naive_solver.
Qed.

Lemma Split_no_sep c s : Forall (λ l, c ∉ l) (Split s c).
Proof.
  unfold Split. assert (∀ cur, c ∉ cur → Forall (λ l, c ∉ l) (split_byte c cur s)) as H; [|by apply H; set_solver].
  induction s as [|b s IH]; intros cur Hcur; cbn [split_byte]; [by constructor|].
  case_decide; [constructor; [done|apply IH; set_solver]|]. apply IH. set_solver.
Qed.

Lemma foldl_clean r st ls : Forall (λ l, slash ∉ l) ls → clean_stack r st →
  clean_stack r (foldl (clean_step r) st ls).
Proof.
  intros Hls. revert st. induction Hls as [|l ls Hl Hls IH]; intros st Hs; cbn [foldl]; [done|].
  apply IH. by apply clean_step_clean.
Qed.

(** Cleaning the elements of a clean stack gives it back. *)
Lemma foldl_clean_stack r st : clean_stack r st → foldl (clean_step r) [] (reverse st) = st.
Proof.
  induction 1 as [|c st Hc Hst IH|n Hr]; [done|..].
  - rewrite reverse_cons, foldl_app, IH. cbn [foldl]. by apply clean_step_plain.
  - assert (∀ m, reverse (replicate m dotdot) = replicate m dotdot) as Hrev.
    { intros m. apply reverse_replicate. }
    rewrite Hrev. assert (∀ m k, foldl (clean_step r) (replicate k dotdot) (replicate m dotdot) =
      replicate (m + k) dotdot) as H; [|by rewrite (H _ 0), Nat.add_0_r].
    induction m as [|m IH]; intros k; [done|]. cbn [replicate foldl].
    replace (clean_step r (replicate k dotdot) dotdot) with (replicate (S k) dotdot).
    + rewrite IH. f_equal. lia.
    + destruct k; [by rewrite Hr|]. reflexivity.
Qed.

Lemma clean_stack_no_slash r st : clean_stack r st → Forall (λ l, slash ∉ l) (reverse st).
Proof.
  intros H. apply Forall_reverse. induction H as [|c st Hc _ IH|n _]; [done|constructor; [apply Hc|done]|].
  apply Forall_replicate. intros [H|[H|H]%elem_of_cons]%elem_of_cons; [done..|set_solver].
Qed.

Lemma render_nonempty r st : clean_stack r st → render r (reverse st) ≠ [].
Proof.
  intros H. destruct r; [done|]. unfold render. destruct H as [|c st Hc Hst|n _]; [done|..].
  - rewrite reverse_cons. destruct (reverse st) as [|x l]; cbn [app Join]; [apply Hc|].
    destruct (l ++ [c]) eqn:E; [by destruct l|]. by destruct x.
  - rewrite reverse_replicate. by destruct n.
Qed.

Lemma HasPrefix1 s c : HasPrefix s [c] = match s with [] => false | b :: _ => bool_decide (c = b) end.
Proof.
  destruct s as [|b s]; [done|]. cbn [HasPrefix].
  case_decide; [rewrite bool_decide_true by done; by destruct s|by rewrite bool_decide_false].
Qed.

(** Splitting what was rendered gives the elements back, up to the empty
    element in front of a rooted path. *)
Lemma fold_render r st : clean_stack r st →
  HasPrefix (render r (reverse st)) [slash] = r ∧
  foldl (clean_step r) [] (Split (render r (reverse st)) slash) = st.
Proof.
  intros H. pose proof (clean_stack_no_slash _ _ H) as Hns. pose proof (foldl_clean_stack _ _ H) as Hf.
  destruct r; cbn [render].
  - split; [rewrite HasPrefix1; by apply bool_decide_eq_true|]. change (slash :: Join (reverse st) [slash]) with ([] ++ slash :: Join (reverse st) [slash]).
    unfold Split. rewrite split_byte_cons. cbn [split_byte app]. cbn [foldl].
    change (clean_step true [] []) with (@nil bytes).
    destruct (reverse st) as [|x l] eqn:E; [done|]. rewrite Split_Join by done. done.
  - destruct (reverse st) as [|x l] eqn:E; [by rewrite <-Hf|]. rewrite Split_Join by done. split; [|done].
    rewrite HasPrefix1. apply list.Forall_cons in Hns as [Hx _].
    assert (x ≠ []) as Hne.
    { assert (x ∈ st) as Hin by (apply elem_of_reverse; rewrite E; by left). clear -H Hin.
      induction H as [|c st Hc _ IH|n _]; [set_solver| |].
      - apply elem_of_cons in Hin as [->|?]; [apply Hc|auto].
      - by apply elem_of_replicate in Hin as [-> _]. }
    destruct x as [|b x]; [done|]. destruct l; cbn [Join app]; apply bool_decide_eq_false; set_solver.
Qed.

(** A cleaned directory, by its elements. *)
Lemma Clean_form p : ∃ r st, clean_stack r st ∧ Clean p = render r (reverse st).
Proof.
  unfold Clean. cbv zeta. set (r := HasPrefix p [slash]). eexists r, _. split; [|reflexivity].
  apply foldl_clean; [apply Split_no_sep|constructor].
Qed.

Lemma Clean_idem p : Clean (Clean p) = Clean p.
Proof.
  destruct (Clean_form p) as (r & st & Hs & ->). destruct (fold_render r st Hs) as [Hr Hf].
  unfold Clean. by rewrite Hr, Hf.
Qed.

(** Joining slash-free elements to a cleaned directory adds those that are
    neither empty nor the directory itself. *)
Definition kept (segs : list bytes) : list bytes :=
  List.filter (λ s, negb (bool_decide (s = [] ∨ s = [dot]))) segs.

Definition extend (d : bytes) (segs : list bytes) : bytes :=
  match segs with
  | [] => d
  | _ => if decide (d = [dot]) then Join segs [slash]
         else if decide (d = [slash]) then slash :: Join segs [slash]
         else d ++ slash :: Join segs [slash]
  end.

Lemma Join_app_slash a b : a ≠ [] → b ≠ [] → Join (a ++ b) [slash] = Join a [slash] ++ slash :: Join b [slash].
Proof.
  intros Ha Hb. induction a as [|x a IH]; [done|]. destruct a as [|y a].
  - cbn [app]. destruct b; done.
  - change (Join ((x :: y :: a) ++ b) [slash]) with (x ++ [slash] ++ Join ((y :: a) ++ b) [slash]).
    rewrite IH by done. change (Join (x :: y :: a) [slash]) with (x ++ [slash] ++ Join (y :: a) [slash]).
    by rewrite <-!app_assoc.
Qed.

Lemma foldl_kept r st segs : Forall (λ s, slash ∉ s ∧ s ≠ dotdot) segs →
  foldl (clean_step r) st segs = reverse (kept segs) ++ st.
Proof.
  intros H. revert st. induction H as [|s segs [Hs1 Hs2] _ IH]; intros st; [done|]. cbn [foldl]. rewrite IH.
  unfold kept, clean_step. cbn [List.filter]. case_bool_decide; cbn [negb].
  - by rewrite decide_True.
  - rewrite decide_False by done. rewrite decide_False by done. rewrite reverse_cons. by rewrite <-app_assoc.
Qed.

Lemma kept_plain segs : Forall (λ s, slash ∉ s ∧ s ≠ dotdot) segs → Forall plain_elem (kept segs).
Proof.
  intros H. apply List.Forall_forall. intros s [Hin Hs]%filter_In. rewrite List.Forall_forall in H.
  destruct (H s Hin) as [? ?]. apply negb_true_iff, bool_decide_eq_false in Hs. unfold plain_elem. naive_solver.
Qed.

(** A cleaned unrooted path is the directory itself only when it has no
    elements. *)
Lemma render_dot st : clean_stack false st → render false (reverse st) = [dot] → st = [].
Proof. intros Hs E. destruct (fold_render false st Hs) as [_ Hf]. rewrite E in Hf. by rewrite <-Hf. Qed.
Lemma render_slash st : clean_stack true st → render true (reverse st) = [slash] → st = [].
Proof. intros Hs E. destruct (fold_render true st Hs) as [_ Hf]. rewrite E in Hf. by rewrite <-Hf. Qed.

Lemma render_extend r st ks : clean_stack r st → Forall plain_elem ks →
  render r (reverse st ++ ks) = extend (render r (reverse st)) ks.
Proof.
  intros Hs Hk. destruct ks as [|k ks]; [by rewrite app_nil_r|]. unfold extend.
  pose proof (fold_render r st Hs) as [Hr _]. destruct (decide (st = [])) as [->|Hne].
  { destruct r; reflexivity. }
  assert (reverse st ≠ []) as Hrev by (intros E; apply Hne; by rewrite <-(reverse_involutive st), E).
  rewrite decide_False.
  2: { destruct r; [done|]. intros E. by apply Hne, render_dot. }
  rewrite decide_False.
  2: { destruct r; [intros E; by apply Hne, render_slash|]. intros E. by rewrite E in Hr. }
  destruct r; unfold render; [by rewrite Join_app_slash|].
  destruct (reverse st ++ k :: ks) eqn:E; [by destruct (reverse st)|]. rewrite <-E, Join_app_slash by done.
  by destruct (reverse st).
Qed.

Lemma filepath_Join_clean root segs : segs ≠ [] → Forall (λ s, slash ∉ s ∧ s ≠ dotdot) segs →
  filepath_Join (Clean root :: segs) = extend (Clean root) (kept segs).
Proof.
  intros Hne Hseg. destruct (Clean_form root) as (r & st & Hs & ->).
  pose proof (render_nonempty r st Hs) as Hd. destruct (fold_render r st Hs) as [Hr Hf].
  set (d := render r (reverse st)) in *.
  assert (filepath_Join (d :: segs) = Clean (d ++ slash :: Join segs [slash])) as ->.
  { unfold filepath_Join. destruct d; [done|]. by destruct segs. }
  unfold Clean. cbv zeta. assert (HasPrefix (d ++ slash :: Join segs [slash]) [slash] = r) as ->.
  { rewrite HasPrefix1 in *. by destruct d. }
  unfold Split. rewrite split_byte_cons. fold (Split d slash). rewrite Split_Join; [|done|].
  2: { eapply list.Forall_impl; [exact Hseg|]. by intros s [? _]. }
  rewrite foldl_app, Hf, foldl_kept by done. rewrite reverse_app, reverse_involutive.
  by apply render_extend; [|apply kept_plain].
Qed.

(** ** Keys *)

(** A dot is kept only when no other dot follows it. *)
Lemma sanitizeKey_dot t : sanitizeKey (dot :: t) =
  match t with c :: u => if decide (c = dot) then ch "_" :: ch "_" :: sanitizeKey u else dot :: sanitizeKey t | [] => [dot] end.
Proof. done. Qed.

Lemma sanitizeKey_other b t : b ≠ dot → ∃ c, sanitizeKey (b :: t) = c :: sanitizeKey t ∧ c ≠ slash ∧ c ≠ dot ∧ (c = b ∨ b ∈ go"/\+").
Proof.
  intros Hb. cbn [sanitizeKey]. case_decide as H1; [exists (ch "_"); subst; split_and!; [done..|right; left]|].
  case_decide as H2; [exists (ch "_"); subst; split_and!; [done..|right; right; left]|].
  case_decide as H3; [exists (ch "-"); subst; split_and!; [done..|right; right; right; left]|].
  rewrite decide_False by done. exists b. by split_and!; [..|left].
Qed.

(** Two dots in a row. *)
Fixpoint has_dotdot (s : bytes) : bool :=
  match s with
  | b :: t => (bool_decide (b = dot) && match t with c :: _ => bool_decide (c = dot) | [] => false end) || has_dotdot t
  | [] => false
  end.

(** No slash is left, nor two dots in a row. *)
Lemma sanitizeKey_safe s : slash ∉ sanitizeKey s ∧ has_dotdot (sanitizeKey s) = false.
Proof.
  revert s. assert (∀ n s, length s ≤ n → slash ∉ sanitizeKey s ∧ has_dotdot (sanitizeKey s) = false) as H;
    [|intros s; by apply (H (length s))].
  induction n as [|n IH]; intros [|b t] Hl; cbn [length] in Hl; [split; [set_solver|done]|lia|split; [set_solver|done]|].
  destruct (decide (b = dot)) as [->|Hb].
  - rewrite sanitizeKey_dot. destruct t as [|c u]; [split; [set_solver by done|done]|]. case_decide as Hc.
    + destruct (IH u) as [IH1 IH2]; [simpl in Hl; lia|]. split; [|exact IH2].
      rewrite !not_elem_of_cons. by split_and!.
    + destruct (IH (c :: u)) as [IH1 IH2]; [lia|]. split; [by apply not_elem_of_cons|].
      destruct (sanitizeKey_other c u Hc) as (c' & E & _ & Hc' & _). rewrite E in *.
      change (has_dotdot (dot :: c' :: sanitizeKey u)) with
        ((bool_decide (dot = dot) && bool_decide (c' = dot)) || has_dotdot (c' :: sanitizeKey u)).
      rewrite IH2, (bool_decide_false (c' = dot)) by done. by rewrite andb_false_r.
  - destruct (sanitizeKey_other b t Hb) as (c' & -> & Hs & Hc' & _). destruct (IH t) as [IH1 IH2]; [lia|].
    split; [by apply not_elem_of_cons|]. cbn [has_dotdot]. by rewrite (bool_decide_false (c' = dot)).
Qed.

(** The elements of a key's file name. *)
Definition segments (key : bytes) : list bytes :=
  match Cut key [slash] with
  | None => [sanitizeKey key]
  | Some (prefix, rest) => [sanitizeKey prefix; sanitizeKey rest]
  end.

Lemma segments_safe key : segments key ≠ [] ∧ length (segments key) ≤ 2 ∧
  Forall (λ s, slash ∉ s ∧ s ≠ dotdot) (segments key).
Proof.
  assert (∀ s, slash ∉ sanitizeKey s ∧ sanitizeKey s ≠ dotdot) as H.
  { intros s. destruct (sanitizeKey_safe s) as [H1 H2]. split; [done|]. intros E. by rewrite E in H2. }
  unfold segments. destruct (Cut key [slash]) as [[a b]|]; 
    (split_and!; [done|simpl; lia|]; repeat (apply List.Forall_cons; [apply H|]); apply List.Forall_nil).
Qed.

Lemma Join_first ks : Forall plain_elem ks → ks ≠ [] →
  ∃ b t, Join ks [slash] = b :: t ∧ b ≠ slash ∧ (b = dot → t ≠ [] ∧ head t ≠ Some slash).
Proof.
  intros H Hne. destruct H as [|k ks (H1 & H2 & H3 & H4) _]; [done|]. destruct k as [|b k]; [done|].
  assert (∃ t, Join ((b :: k) :: ks) [slash] = b :: t ∧ (k ≠ [] → ∃ c u, k = c :: u ∧ head t = Some c)) as (t & E & Ht).
  { destruct ks as [|k' ks]; cbn [Join app]; (eexists; split; [reflexivity|]); by destruct k as [|c u]; [|exists c, u]. }
  exists b, t. apply not_elem_of_cons in H4 as [Hb Hk]. split_and!; [done..|]. intros ->.
  destruct k as [|c u]; [done|]. destruct Ht as (c' & u' & [= <- <-] & Hh); [done|].
  split; [by intros ->|]. rewrite Hh. intros [= ->]. apply Hk. by left.
Qed.

(** Where a key goes: below the root, element by element; a root that is [.] or
    [/] takes nothing. *)
Definition file_of (d : bytes) (ks : list bytes) : option bytes :=
  if decide (ks = []) then Some d
  else if decide (d = [dot] ∨ d = [slash]) then None else Some (d ++ slash :: Join ks [slash]).

Lemma path_eq root key : path (mkDiskCache (Clean root)) key = file_of (Clean root) (kept (segments key)).
Proof.
  set (d := Clean root). unfold file_of. destruct (segments_safe key) as (H1 & _ & H2). unfold path. cbn [dir].
  assert (match Cut key [slash] with
          | None => filepath_Join [d; sanitizeKey key]
          | Some (prefix, rest) => filepath_Join [d; sanitizeKey prefix; sanitizeKey rest]
          end = filepath_Join (d :: segments key)) as ->.
  { unfold segments. by destruct (Cut key [slash]) as [[a b]|]. }
  rewrite (filepath_Join_clean root) by done. fold d. pose proof (kept_plain _ H2) as Hk.
  destruct (kept (segments key)) as [|k ks] eqn:E; cbn [extend]; [by rewrite bool_decide_true, decide_True|].
  rewrite (decide_False (P := k :: ks = [])) by done.
  destruct (Join_first _ Hk) as (b & t & -> & Hb & Hd); [done|].
  destruct (decide (d = [dot])) as [->|Hd1].
  { rewrite decide_True by (by left). rewrite bool_decide_false.
    2: { intros [= -> ->]. by destruct (Hd eq_refl). }
    cbn [negb andb app HasPrefix]. case_decide as Eb; [|done]. subst b.
    destruct (Hd eq_refl) as [Ht Hh]. destruct t as [|c t]; [done|]. cbn [HasPrefix].
    rewrite decide_False by (intros <-; by apply Hh). done. }
  destruct (decide (d = [slash])) as [->|Hd2].
  { rewrite decide_True by (by right). rewrite bool_decide_false by (by intros [=]).
    cbn [negb andb app HasPrefix]. rewrite decide_True by done. by rewrite decide_False. }
  rewrite decide_False by naive_solver.
  assert (HasPrefix (d ++ slash :: b :: t) (d ++ [slash]) = true) as ->; [|by rewrite andb_false_r].
  apply HasPrefix_spec. exists (b :: t). by rewrite <-app_assoc.
Qed.

(** Whatever the key, the cache reads and writes only its root directory or
    a file at most two levels below it, whose path has no parent reference. *)
Theorem path_confined (root key p : bytes) :
  path (mkDiskCache (Clean root)) key = Some p →
  p = Clean root ∨
  ∃ segs, p = Clean root ++ slash :: Join segs [slash] ∧ 1 ≤ length segs ≤ 2 ∧ Forall plain_elem segs.
Proof.
  rewrite path_eq. destruct (segments_safe key) as (_ & Hl & Hs). pose proof (kept_plain _ Hs) as Hp.
  assert (length (kept (segments key)) ≤ length (segments key)) as Hlen by apply filter_length_le.
  unfold file_of. destruct (kept (segments key)) as [|k ks]; [by intros [= <-]; left|].
  rewrite decide_False by done. case_decide; [done|]. intros [= <-]. right. exists (k :: ks). split_and!; [done|simpl; lia|lia|done].
Qed.

(** ** The keys of the directory client *)

(** [consensus], [certs], and [md/] with a base64 digest. *)
Definition client_key (key : bytes) : Prop :=
  key = go"consensus" ∨ key = go"certs" ∨
  ∃ h, key = go"md/" ++ h ∧ h ≠ [] ∧ Forall (λ b, b ∈ b64_alphabet) h.

Definition san1 (b : byte) : byte :=
  if decide (b = slash) then ch "_" else if decide (b = ch "+") then ch "-" else b.

Lemma alphabet_facts : Forall (λ b, b ≠ dot ∧ b ≠ ch "\" ∧ san1 b ≠ dot ∧ san1 b ≠ slash) b64_alphabet ∧
  NoDup (map san1 b64_alphabet).
Proof.
  split; [apply (bool_decide_unpack _); vm_compute; exact I|apply (bool_decide_unpack _); vm_compute; exact I].
Qed.

Lemma san1_inj a b : a ∈ b64_alphabet → b ∈ b64_alphabet → san1 a = san1 b → a = b.
Proof.
  intros Ha Hb E. apply list_elem_of_lookup in Ha as [i Hi], Hb as [j Hj].
  assert (i = j) as Eij; [|rewrite Eij, Hj in Hi; by injection Hi].
  apply (NoDup_lookup _ i j (san1 a) (proj2 alphabet_facts)); rewrite list_lookup_fmap; [by rewrite Hi|].
  by rewrite Hj, E.
Qed.

Lemma alphabet_elem b : b ∈ b64_alphabet → b ≠ dot ∧ b ≠ ch "\" ∧ san1 b ≠ dot ∧ san1 b ≠ slash.
Proof. intros Hb. pose proof (proj1 alphabet_facts) as H. rewrite list.Forall_forall in H. by apply H. Qed.

Lemma sanitizeKey_digest h : Forall (λ b, b ∈ b64_alphabet) h → sanitizeKey h = map san1 h.
Proof.
  induction 1 as [|b h Hb _ IH]; [done|]. destruct (alphabet_elem b Hb) as (H1 & H2 & _).
  cbn [sanitizeKey map]. unfold san1 at 1. rewrite IH. repeat case_decide; congruence.
Qed.

Lemma segments_digest h : Forall (λ b, b ∈ b64_alphabet) h → segments (go"md/" ++ h) = [go"md"; map san1 h].
Proof.
  intros Hh. unfold segments. assert (Cut (go"md/" ++ h) [slash] = Some (go"md", h)) as -> by by destruct h.
  by rewrite (sanitizeKey_digest h).
Qed.

(** The file names of client keys: elements that are kept, without a dot, and
    different for different keys. *)
Lemma client_segments key : client_key key →
  kept (segments key) = segments key ∧ Forall (λ s, slash ∉ s ∧ dot ∉ s) (segments key).
Proof.
  assert (∀ s, s ≠ [] → dot ∉ s → negb (bool_decide (s = [] ∨ s = [dot])) = true) as Hk.
  { intros s H1 H2. apply negb_true_iff, bool_decide_eq_false. intros [?| ->]; [done|]. apply H2. by left. }
  intros [->|[->|(h & -> & Hne & Hh)]].
  1-2: split; [vm_compute; reflexivity|apply (bool_decide_unpack _); vm_compute; exact I].
  rewrite segments_digest by done.
  assert (slash ∉ map san1 h ∧ dot ∉ map san1 h) as [H1 H2].
  { rewrite list.Forall_forall in Hh. split; intros (b & E & Hb)%list_elem_of_fmap;
      destruct (alphabet_elem b (Hh b Hb)) as (_ & _ & H1 & H2); by rewrite <-E in *. }
  split; [|apply List.Forall_cons; [split; by apply (bool_decide_unpack _)|by apply List.Forall_cons; [|constructor]]].
  unfold kept. cbn [List.filter]. rewrite (Hk (map san1 h)); [done|by destruct h|done].
Qed.

Lemma segments_inj k k' : client_key k → client_key k' → segments k = segments k' → k = k'.
Proof.
  intros [->|[->|(h & -> & _ & Hh)]] [->|[->|(h' & -> & _ & Hh')]]; rewrite ?segments_digest by done; try done.
  intros E. injection E as E. f_equal. revert h' Hh' E.
  induction Hh as [|b h Hb _ IH]; intros [|b' h'] Hh' E; try done. apply list.Forall_cons in Hh' as [Hb' Hh'].
  injection E as E1 E2. f_equal; [by apply san1_inj|by apply IH].
Qed.

Lemma client_paths root k k' p p' : client_key k → client_key k' →
  path (mkDiskCache (Clean root)) k = Some p → path (mkDiskCache (Clean root)) k' = Some p' →
  (p' = p → k' = k) ∧ p' ≠ p ++ go".tmp".
Proof.
  intros Hk Hk'. rewrite !path_eq. destruct (client_segments k Hk) as [-> Hs], (client_segments k' Hk') as [-> Hs'].
  destruct (segments_safe k) as (Hn & _), (segments_safe k') as (Hn' & _).
  unfold file_of. rewrite !(decide_False (P := segments _ = [])) by done. case_decide; [done|]. intros [= <-] [= <-].
  assert (∀ l : list bytes, Forall (λ s, slash ∉ s ∧ dot ∉ s) l → Forall (λ s, slash ∉ s) l) as Hf.
  { intros s H1. eapply list.Forall_impl; [exact H1|]. by intros ? [? _]. }
  split.
  - intros E%app_inv_head. injection E as E. apply segments_inj; [done..|].
    rewrite <-(Split_Join slash (segments k')), E, Split_Join by auto. done.
  - rewrite <-app_assoc. intros E%app_inv_head. cbn [app] in E. injection E as E.
    assert (dot ∈ Join (segments k') [slash]) as Hin by (rewrite E; apply elem_of_app; right; by left).
    revert Hin. clear -Hs'. induction Hs' as [|s ss [_ Hs] _ IH]; [set_solver|]. destruct ss as [|s' ss]; [done|].
    change (Join (s :: s' :: ss) [slash]) with (s ++ slash :: Join (s' :: ss) [slash]).
    intros [?|[?|?]%elem_of_cons]%elem_of_app; [done..|auto].
Qed.

(** ** Refinement *)

(** The files hold the map [m] at every key the directory client uses. *)
Definition holds {FS} `{!OS FS} (d : DiskCache) (fs : FS) (m : gmap bytes bytes) : Prop :=
  ∀ key, client_key key → Get d fs key = m !! key.

(** C29: The disk cache implements the map the directory client is verified
    against: whatever file operations fail, storing a document leaves the files
    holding either the map with the document under its key, which is the case
    when [Put] got to the end, or the map as it was; no other key changes and
    no half-written document is ever read. *)
Theorem DiskCache_refines {FS : Type} `{O : !OS FS} `{OL : !OSLaws FS} (root key data : bytes) (fs : FS) (m : gmap bytes bytes) :
  let d := mkDiskCache (Clean root) in
  holds d fs m → client_key key →
  holds d (Put d fs key data).2 (if (Put d fs key data).1 then <[key := data]> m else m).
Proof.
  intros d Hm Hk. unfold Put. destruct (path d key) as [p|] eqn:Ep; [|done].
  pose proof (MkdirAll_files fs (filepath_Dir p)) as Hmk. destruct (MkdirAll fs (filepath_Dir p)) as [ok fs1].
  cbn [snd] in Hmk. destruct ok; cbn [negb fst snd].
  2: { intros k Hc. rewrite <-(Hm k Hc). unfold Get. destruct (path d k); cbn [mbind option_bind]; [by rewrite Hmk|done]. }
  set (tmp := p ++ go".tmp").
  pose proof (WriteFile_done fs1 tmp data) as Hw. pose proof (WriteFile_other fs1 tmp data) as Hwo.
  destruct (WriteFile fs1 tmp data) as [ok fs2]. cbn [fst snd] in Hw, Hwo.
  assert (∀ k p', client_key k → path d k = Some p' → ReadFile fs2 p' = m !! k) as H2.
  { intros k p' Hc Hp. rewrite Hwo by apply (client_paths root key k p p' Hk Hc Ep Hp). rewrite Hmk, <-(Hm k Hc).
    unfold Get. by rewrite Hp. }
  assert (∀ k, client_key k → path d k = None → m !! k = None) as H3.
  { intros k Hc Hp. rewrite <-(Hm k Hc). unfold Get. by rewrite Hp. }
  destruct ok; cbn [negb fst snd].
  2: { intros k Hc. unfold Get. destruct (path d k) eqn:Ep'; cbn [mbind option_bind]; [by apply H2|by rewrite H3]. }
  intros k Hc. unfold Get. destruct (path d k) as [p'|] eqn:Ep'; cbn [mbind option_bind].
  - destruct (client_paths root key k p p' Hk Hc Ep Ep') as [Hsame Htmp].
    destruct ((Rename fs2 tmp p).1) eqn:Er.
    + destruct (decide (p' = p)) as [->|Hne].
      * rewrite Rename_done by done. rewrite Hw by done. rewrite (Hsame eq_refl). by rewrite lookup_insert_eq.
      * rewrite Rename_other by done. rewrite lookup_insert_ne by congruence. by apply H2.
    + rewrite Rename_failed by done. by apply H2.
  - assert (k ≠ key) by congruence. destruct ((Rename fs2 tmp p).1); [rewrite lookup_insert_ne by done|]; by rewrite H3.
Qed.

(** ** A file system that fails on demand *)

(** Files by path, and which of the next calls succeed (all, when the list is
    over).  A write that fails leaves half of the data. *)
Record tfs := mkTfs { t_files : gmap bytes bytes; t_ok : list bool }.

Definition t_next (fs : tfs) : bool * list bool :=
  match t_ok fs with [] => (true, []) | b :: l => (b, l) end.

#[export] Instance tfs_OS : OS tfs := {|
  ReadFile fs p := t_files fs !! p;
  MkdirAll fs p := let '(ok, l) := t_next fs in (ok, mkTfs (t_files fs) l);
  WriteFile fs p b := let '(ok, l) := t_next fs in
    (ok, mkTfs (<[p := if ok then b else take (Nat.div (length b) 2) b]> (t_files fs)) l);
  Rename fs p q := let '(ok, l) := t_next fs in
    match t_files fs !! p with
    | Some b => (ok, mkTfs (if ok then <[q := b]> (delete p (t_files fs)) else t_files fs) l)
    | None => (false, mkTfs (t_files fs) l)
    end
|}.

#[export] Instance tfs_OSLaws : OSLaws tfs.
Proof.
  split; intros; cbn [ReadFile MkdirAll WriteFile Rename tfs_OS] in *; destruct (t_next fs) as [ok l]; cbn [fst snd t_files] in *.
  - done.
  - subst ok. by rewrite lookup_insert_eq.
  - by rewrite lookup_insert_ne.
  - destruct (t_files fs !! p) as [b|] eqn:E; cbn [fst snd t_files] in *; [subst ok; by rewrite lookup_insert_eq|done].
  - destruct (t_files fs !! p) as [b|] eqn:E; cbn [fst snd t_files] in *; [by subst ok|done].
  - destruct (t_files fs !! p) as [b|] eqn:E; cbn [fst snd t_files] in *; [|done].
    destruct ok; [|done]. by rewrite lookup_insert_ne, lookup_delete_ne.
Qed.

Definition t_cache : DiskCache := mkDiskCache (Clean go"/home/u/.tor/./cache/").
Definition t_old : bytes := go"the old consensus".
Definition t_new : bytes := go"the new consensus".
Definition t_fs (ok : list bool) : tfs := mkTfs {[ go"/home/u/.tor/cache/consensus" := t_old ]} ok.

Lemma path_confined_witness :
  path t_cache go"md/../../etc/passwd" = Some go"/home/u/.tor/cache/md/______etc_passwd" ∧
  ∃ segs, go"/home/u/.tor/cache/md/______etc_passwd" = dir t_cache ++ slash :: Join segs [slash] ∧ length segs ≤ 2.
Proof.
  split; [reflexivity|].
  destruct (path_confined go"/home/u/.tor/./cache/" go"md/../../etc/passwd" go"/home/u/.tor/cache/md/______etc_passwd")
    as [H|(segs & H1 & H2 & _)]; [reflexivity|discriminate|].
  exists segs. split; [exact H1|exact (proj2 H2)].
Defined.

Lemma t_holds ok : holds t_cache (t_fs ok) {[ go"consensus" := t_old ]}.
Proof.
  intros key Hk. unfold Get. destruct (decide (key = go"consensus")) as [->|Hne]; [reflexivity|].
  rewrite lookup_singleton_ne by done. destruct (path t_cache key) as [p|] eqn:Ep; [|done].
  cbn [mbind option_bind]. cbn [ReadFile tfs_OS t_files t_fs]. apply lookup_singleton_ne. intros <-.
  apply Hne. destruct (client_paths go"/home/u/.tor/./cache/" go"consensus" key
    go"/home/u/.tor/cache/consensus" go"/home/u/.tor/cache/consensus") as [H _]; [by left|done|done|done|by apply H].
Qed.

(** The document replaces the old one; when the write fails half way the old
    one is still read. *)
Lemma DiskCache_refines_witness :
  Get t_cache (Put t_cache (t_fs []) go"consensus" t_new).2 go"consensus" = Some t_new ∧
  Get t_cache (Put t_cache (t_fs [true; false]) go"consensus" t_new).2 go"consensus" = Some t_old.
Proof.
  split.
  - etrans; [exact (DiskCache_refines go"/home/u/.tor/./cache/" go"consensus" t_new (t_fs []) {[ go"consensus" := t_old ]}
      (t_holds []) (or_introl eq_refl) go"consensus" (or_introl eq_refl))|vm_compute; reflexivity].
  - etrans; [exact (DiskCache_refines go"/home/u/.tor/./cache/" go"consensus" t_new (t_fs [true; false])
      {[ go"consensus" := t_old ]} (t_holds [true; false]) (or_introl eq_refl) go"consensus" (or_introl eq_refl))|].
    vm_compute. reflexivity.
Defined.
