(* ===== verification/PathSel.v ===== *)
(** * [pkg/pathsel]: bandwidth-weighted relay selection from a consensus.

    Filtering by flags, exclusion of relays already on the path and of their
    /16 networks, and the weighted draw with its [int64] arithmetic.  The
    random source is an argument: [rand n] is what [rand.Int] returned for the
    bound [n]. *)

From S2P Require Import Prelude ByteUtil GoNet TorCrypto Directory.

Inductive pathsel_error := ErrNoRelay.

Section PathSel.
(** The selector's consensus and the draw. *)
Context (cons : Consensus) (rand : Z → Z).

Definition middleWeightKey (r : RouterStatus) : bytes :=
  let guard := HasFlag r go"Guard" in
  let exit := HasFlag r go"Exit" in
  if guard && exit then go"Wmd"
  else if guard then go"Wmg"
  else if exit then go"Wme"
  else go"Wmm".

(** [int64(r.Bandwidth) * int64(w) / 10000]: the product wraps, the division
    truncates toward zero. *)
Definition weightedBw (r : RouterStatus) (key : bytes) : Z :=
  let w := default 10000%Z (Weights cons !! key) in
  Z.quot (i64 (Bandwidth r * w)) 10000.

Definition baseEligible (r : RouterStatus) : bool :=
  HasFlag r go"Running" && HasFlag r go"Valid" && (0 <? Bandwidth r)%Z &&
  negb (bool_decide (MicrodescHash r = [])).

(** Both operands are results of [net.ParseIP], so a [To4] has four bytes. *)
Definition sameSlash16 (a b : option bytes) : bool :=
  match To4 a, To4 b with
  | Some a4, Some b4 => bool_decide (a4 !! 0 = b4 !! 0) && bool_decide (a4 !! 1 = b4 !! 1)
  | _, _ => false
  end.

(** A nil entry of [exclude] is [None]. *)
Fixpoint excludedBy (r : RouterStatus) (exclude : list (option RouterStatus)) : bool :=
  match exclude with
  | [] => false
  | None :: exclude => excludedBy r exclude
  | Some e :: exclude =>
      if decide (Identity r = Identity e) then true
      else if sameSlash16 (ParseIP (IP r)) (ParseIP (IP e)) then true
      else excludedBy r exclude
  end.

Definition randInt63n (n : Z) : Z := if (n <=? 0)%Z then 0 else rand n.

Section Weighted.
Context (eligible : RouterStatus → bool) (weight : RouterStatus → Z)
        (exclude : list (option RouterStatus)).

(** The candidate loop: candidates with their weights, and their [int64]
    total. *)
Fixpoint candidates (rs : list RouterStatus) (cands : list (RouterStatus * Z)) (total : Z)
    : list (RouterStatus * Z) * Z :=
  match rs with
  | [] => (cands, total)
  | r :: rs =>
      if negb (baseEligible r) || negb (eligible r) then candidates rs cands total
      else if excludedBy r exclude then candidates rs cands total
      else
        let w := weight r in
        if (w <=? 0)%Z then candidates rs cands total
        else candidates rs (cands ++ [(r, w)]) (i64 (total + w))
  end.

(** The walk along the candidates. *)
Fixpoint pick_from (pick : Z) (cands : list (RouterStatus * Z)) : option RouterStatus :=
  match cands with
  | [] => None
  | (r, w) :: cands => if (pick <? w)%Z then Some r else pick_from (i64 (pick - w)) cands
  end.

Definition selectWeighted : outcome pathsel_error RouterStatus :=
  let '(cands, total) := candidates (Routers cons) [] 0 in
  if (total =? 0)%Z then Err ErrNoRelay
  else match pick_from (randInt63n total) cands with
       | Some r => Ok r
       | None => match cands !! (length cands - 1) with Some c => Ok c.1 | None => Panic end
       end.
End Weighted.

(** ** Positions *)

Definition guardOK (r : RouterStatus) : bool :=
  HasFlag r go"Guard" && HasFlag r go"Fast" && HasFlag r go"Stable".
Definition guardWeight (r : RouterStatus) : Z :=
  let key := if HasFlag r go"Exit" then go"Wgd" else go"Wgg" in weightedBw r key.
Definition SelectGuard (exclude : list (option RouterStatus)) : outcome pathsel_error RouterStatus :=
  selectWeighted guardOK guardWeight exclude.

Definition middleOK (r : RouterStatus) : bool := HasFlag r go"Fast".
Definition middleWeight (r : RouterStatus) : Z := weightedBw r (middleWeightKey r).
Definition SelectMiddle (exclude : list (option RouterStatus)) : outcome pathsel_error RouterStatus :=
  selectWeighted middleOK middleWeight exclude.

(** [allow] may be nil. *)
Definition exitOK (allow : option (RouterStatus → bool)) (r : RouterStatus) : bool :=
  if negb (HasFlag r go"Exit") || negb (HasFlag r go"Fast") || HasFlag r go"BadExit" then false
  else match allow with None => true | Some f => f r end.
Definition exitWeight (r : RouterStatus) : Z :=
  let key := if HasFlag r go"Guard" then go"Wed" else go"Wee" in weightedBw r key.
Definition SelectExit (allow : option (RouterStatus → bool)) (exclude : list (option RouterStatus))
    : outcome pathsel_error RouterStatus :=
  selectWeighted (exitOK allow) exitWeight exclude.

Definition dirCacheOK (r : RouterStatus) : bool := HasFlag r go"Fast" && HasFlag r go"V2Dir".
Definition SelectDirCache (exclude : list (option RouterStatus))
    : outcome pathsel_error RouterStatus :=
  selectWeighted dirCacheOK middleWeight exclude.

(** ** Facts *)

(** A relay that may be drawn. *)
Definition drawable (eligible : RouterStatus → bool) (weight : RouterStatus → Z)
    (exclude : list (option RouterStatus)) (r : RouterStatus) : bool :=
  baseEligible r && eligible r && negb (excludedBy r exclude) && (0 <? weight r)%Z.

Lemma excludedBy_false r exclude e :
  excludedBy r exclude = false → Some e ∈ exclude →
  Identity r ≠ Identity e ∧ sameSlash16 (ParseIP (IP r)) (ParseIP (IP e)) = false.
Proof.
  induction exclude as [|[x|] t IH]; simpl; [set_solver| |].
  - case_decide as Hi; [done|].
    destruct (sameSlash16 (ParseIP (IP r)) (ParseIP (IP x))) eqn:Hs; [done|]. intros Ht.
    rewrite elem_of_cons. intros [H|H]; [|by apply IH]. by injection H as ->.
  - intros Ht. rewrite elem_of_cons. intros [?|?]; [done|by apply IH].
Qed.

Section Draw.
Context (eligible : RouterStatus → bool) (weight : RouterStatus → Z)
        (exclude : list (option RouterStatus)).
Notation ok := (drawable eligible weight exclude).

(** The candidates in consensus order. *)
Definition cand_list (rs : list RouterStatus) : list (RouterStatus * Z) :=
  map (λ r, (r, weight r)) (List.filter ok rs).
Definition sum_weights (cs : list (RouterStatus * Z)) : Z := foldr (λ c acc, c.2 + acc)%Z 0%Z cs.

Lemma i64_add_l a b : i64 (i64 a + b) = i64 (a + b).
Proof.
  unfold i64. replace ((a + 2 ^ 63) mod 2 ^ 64 - 2 ^ 63 + b + 2 ^ 63)%Z
    with ((a + 2 ^ 63) mod 2 ^ 64 + b)%Z by lia.
  rewrite Zplus_mod_idemp_l. f_equal. f_equal. lia.
Qed.

Lemma candidates_spec rs cs t :
  candidates eligible weight exclude rs cs (i64 t) =
  (cs ++ cand_list rs, i64 (t + sum_weights (cand_list rs))).
Proof.
  revert cs t. induction rs as [|r rs IH]; intros cs t; simpl.
  { unfold cand_list. simpl. by rewrite app_nil_r, Z.add_0_r. }
  unfold cand_list. simpl List.filter. unfold drawable at 1 4.
  destruct (baseEligible r); simpl; [|apply IH].
  destruct (eligible r); simpl; [|apply IH].
  destruct (excludedBy r exclude); simpl; [apply IH|].
  destruct (Z.leb_spec (weight r) 0), (Z.ltb_spec 0 (weight r)); try lia; [apply IH|].
  rewrite i64_add_l, IH. simpl. rewrite <-app_assoc. simpl. by rewrite Z.add_assoc.
Qed.

Lemma candidates_eq rs :
  candidates eligible weight exclude rs [] 0 =
  (cand_list rs, i64 (sum_weights (cand_list rs))).
Proof. exact (candidates_spec rs [] 0). Qed.

Lemma cand_list_elem rs r w : (r, w) ∈ cand_list rs → r ∈ rs ∧ ok r = true ∧ w = weight r.
Proof.
  unfold cand_list. intros H. apply list_elem_of_fmap in H as (x & [= -> ->] & H).
  apply list_elem_of_In, List.filter_In in H as [H ?]. by apply list_elem_of_In in H.
Qed.

Lemma cand_list_pos rs : List.Forall (λ c, 0 < c.2)%Z (cand_list rs).
Proof.
  apply List.Forall_forall. intros [r w] H. apply list_elem_of_In, cand_list_elem in H as (_&H&->).
  unfold drawable in H. bools. done.
Qed.

Lemma sum_weights_nonneg cs : List.Forall (λ c, 0 < c.2)%Z cs → (0 ≤ sum_weights cs)%Z.
Proof. induction 1; simpl; lia. Qed.

Lemma pick_from_elem p cs r : pick_from p cs = Some r → ∃ w, (r, w) ∈ cs.
Proof.
  revert p. induction cs as [|[x w] cs IH]; intros p; simpl; [done|].
  destruct (p <? w)%Z; [intros [= ->]; exists w; set_solver|].
  intros H. destruct (IH _ H) as [w' ?]. exists w'. set_solver.
Qed.

(** The draw lands in the candidate's own interval. *)
Lemma pick_from_interval cs p k r w :
  List.Forall (λ c, 0 < c.2)%Z cs → (sum_weights cs < 2 ^ 63)%Z →
  cs !! k = Some (r, w) →
  (sum_weights (take k cs) ≤ p < sum_weights (take k cs) + w)%Z →
  pick_from p cs = Some r.
Proof.
  intros Hpos. revert p k. induction Hpos as [|[x v] cs Hv Hpos IH]; intros p k Hsum Hk Hp; [done|].
  simpl in Hv, Hsum. destruct k as [|k]; simpl in Hk, Hp; cbn [pick_from].
  - injection Hk as -> ->. by destruct (Z.ltb_spec p w); [|lia].
  - assert (0 ≤ sum_weights (take k cs))%Z
      by (apply sum_weights_nonneg; by apply Forall_take).
    pose proof (sum_weights_nonneg cs Hpos).
    assert (sum_weights (take k cs) + w ≤ sum_weights cs)%Z.
    { clear -Hk Hpos. revert k Hk. induction Hpos as [|c cs Hc Hp IH]; intros [|k] Hk; try done; simpl in *.
      - injection Hk as ->. simpl in *. pose proof (sum_weights_nonneg cs Hp). lia.
      - specialize (IH k Hk). lia. }
    destruct (Z.ltb_spec p v); [lia|]. rewrite i64_small by lia. eapply IH; [lia|done|lia].
Qed.

Lemma selectWeighted_eq :
  selectWeighted eligible weight exclude =
  let cs := cand_list (Routers cons) in
  let total := i64 (sum_weights cs) in
  if (total =? 0)%Z then Err ErrNoRelay
  else match pick_from (randInt63n total) cs with
       | Some r => Ok r
       | None => match cs !! (length cs - 1) with Some c => Ok c.1 | None => Panic end
       end.
Proof. unfold selectWeighted. by rewrite candidates_eq. Qed.

(** Whatever the draw and whether or not the total overflows. *)
Lemma selectWeighted_drawable r :
  selectWeighted eligible weight exclude = Ok r → r ∈ Routers cons ∧ ok r = true.
Proof.
  rewrite selectWeighted_eq. cbv zeta. destruct (_ =? 0)%Z; [done|].
  destruct (pick_from _ _) as [x|] eqn:Hp.
  - intros [= ->]. apply pick_from_elem in Hp as [w Hw]. by apply cand_list_elem in Hw as (?&?&_).
  - destruct (_ !! _) as [[x w]|] eqn:Hl; [|done]. intros [= ->].
    apply list_elem_of_lookup_2 in Hl. by apply cand_list_elem in Hl as (?&?&_).
Qed.

Lemma selectWeighted_total : panics (selectWeighted eligible weight exclude) = false.
Proof.
  rewrite selectWeighted_eq. cbv zeta. destruct (cand_list _) as [|c cs] eqn:Hc; [done|].
  destruct (_ =? 0)%Z; [done|]. destruct (pick_from _ _); [done|].
  destruct (_ !! _) eqn:Hl; [done|]. apply lookup_ge_None in Hl. simpl in Hl. lia.
Qed.
End Draw.

End PathSel.

(** C37: relay selection is exact.  While the total weight fits an [int64], a
    draw fails exactly when no relay is drawable, never panics, and every draw
    that falls in a candidate's interval returns that candidate: each candidate
    is returned for exactly as many of the equally likely draws as its
    weight. *)
Theorem selectWeighted_exact (cons : Consensus) (eligible : RouterStatus → bool)
    (weight : RouterStatus → Z) (exclude : list (option RouterStatus)) :
  let cs := cand_list eligible weight exclude (Routers cons) in
  (sum_weights cs < 2 ^ 63)%Z →
  (∀ rand, selectWeighted cons rand eligible weight exclude = Err ErrNoRelay ↔
     ∀ r, r ∈ Routers cons → drawable eligible weight exclude r = false) ∧
  (∀ rand, panics (selectWeighted cons rand eligible weight exclude) = false) ∧
  (∀ rand k r w, cs !! k = Some (r, w) →
     (sum_weights (take k cs) ≤ rand (sum_weights cs) < sum_weights (take k cs) + w)%Z →
     selectWeighted cons rand eligible weight exclude = Ok r).
Proof.
  intros cs Hsum. pose proof (cand_list_pos eligible weight exclude (Routers cons)) as Hpos.
  fold cs in Hpos. pose proof (sum_weights_nonneg cs Hpos).
  split_and!; [intros rand|intros rand; apply selectWeighted_total|intros rand k r w Hk Hp];
    [rewrite selectWeighted_eq; cbv zeta; fold cs; rewrite i64_small by lia..].
  - split.
    + destruct (Z.eqb_spec (sum_weights cs) 0) as [H0|H0].
      * intros _ r Hr. destruct (drawable _ _ _ r) eqn:Hd; [|done]. exfalso.
        assert ((r, weight r) ∈ cs) as Hin.
        { subst cs. apply list_elem_of_fmap. exists r. split; [done|].
          apply list_elem_of_In, List.filter_In. split; [by apply list_elem_of_In|done]. }
        destruct cs as [|c cs']; [set_solver|].
        inversion Hpos as [|? ? Hc Hcs]. simpl in H0. pose proof (sum_weights_nonneg _ Hcs). lia.
      * destruct (pick_from _ _); [done|]. by destruct (cs !! _).
    + intros Hn. assert (cs = []) as Hcs; [|by rewrite Hcs].
      destruct cs as [|[r w] cs'] eqn:Hcs; [done|]. exfalso.
      assert ((r, w) ∈ cand_list eligible weight exclude (Routers cons)) as Hin
        by (subst cs; rewrite Hcs; set_solver).
      apply cand_list_elem in Hin as (Hr & Hd & _). by rewrite (Hn r Hr) in Hd.
  - assert (0 < sum_weights cs)%Z.
    { destruct cs as [|c cs']; [done|]. inversion Hpos as [|? ? Hc Hcs].
      pose proof (sum_weights_nonneg _ Hcs). simpl. lia. }
    destruct (Z.eqb_spec (sum_weights cs) 0); [lia|]. unfold randInt63n.
    destruct (Z.leb_spec (sum_weights cs) 0); [lia|].
    by rewrite (pick_from_interval cs _ k r w).
Qed.
