(* ===== verification/Path.v ===== *)
(** * [client.go]: choosing the relays of an exit circuit.

    Microdescriptor lookup through the client's cache, the sampling loop that
    rejects relays of a family already on the path, and the selection part of
    [buildExitCircuit].  The directory client's fetches and the random source
    are the interface [World]. *)

From S2P Require Import Prelude ByteUtil GoNet TorCrypto RelayInfo Directory PathSel.

(** What the path selection calls outside the client: the random source behind
    [pathsel] and the two fetch methods of the directory client. *)
Class World (W FE : Type) := {
  draw : W → (Z → Z) * W;
  FetchMicrodescriptors : list bytes → W → outcome FE (gmap bytes Microdescriptor) * W;
  FetchMicrodescriptorsDirect : list bytes → W → outcome FE (gmap bytes Microdescriptor) * W
}.

Section Path.
Context {W FE : Type} `{!World W FE}.

Inductive tor_error :=
| SelectErr (e : pathsel_error)
| FetchErr (e : FE)
| NotReturned
| IncompleteMD
| GuardNotInConsensus
| NoEligibleRelay
| ClientClosed
| NoExitPermits (e : tor_error).

(** The fields of [Client] used here: the selector's consensus, the
    microdescriptor cache, the guard, and the world. *)
Record client := mkClient {
  consensus : Consensus;
  mdCache : gmap bytes Microdescriptor;
  guardOpen : bool;  (* [guardChan != nil] *)
  guardInfo : RelayInfo;
  world : W
}.

Definition set_cache (m : gmap bytes Microdescriptor) (c : client) : client :=
  mkClient (consensus c) m (guardOpen c) (guardInfo c) (world c).
Definition set_world (w : W) (c : client) : client :=
  mkClient (consensus c) (mdCache c) (guardOpen c) (guardInfo c) w.

(** A call on the world. *)
Definition on_world {E A} (f : W → outcome E A * W) : prog client E A :=
  λ c, let '(o, w) := f (world c) in Some (o, set_world w c).

Definition microdescVia (rs : RouterStatus)
    (fetch : list bytes → prog client FE (gmap bytes Microdescriptor))
    : prog client tor_error Microdescriptor :=
  cached ← gets (λ c, mdCache c !! MicrodescHash rs);
  match cached with
  | Some md => mret md
  | None =>
      mds ← map_error FetchErr (fetch [MicrodescHash rs]);
      match mds !! MicrodescHash rs with
      | None => throw NotReturned
      | Some md =>
          if negb (bool_decide (length (Ed25519ID md) = 32)) ||
             negb (bool_decide (length (Directory.NtorOnionKey md) = 32))
          then throw IncompleteMD
          else
            _ ← modify (λ c, set_cache (<[MicrodescHash rs := md]> (mdCache c)) c);
            mret md
      end
  end.

Definition microdesc (rs : RouterStatus) : prog client tor_error Microdescriptor :=
  microdescVia rs (λ hs, on_world (FetchMicrodescriptors hs)).
Definition microdescDirect (rs : RouterStatus) : prog client tor_error Microdescriptor :=
  microdescVia rs (λ hs, on_world (FetchMicrodescriptorsDirect hs)).

Definition toRelayInfo (rs : RouterStatus) (md : Microdescriptor) : RelayInfo :=
  {| RelayInfo.Nickname := Directory.Nickname rs;
     ORAddr := JoinHostPort (IP rs) (Itoa (ORPort rs));
     RSAIDDigest := Identity rs;
     EdIdentity := Ed25519ID md;
     RelayInfo.NtorOnionKey := Directory.NtorOnionKey md |}.

Definition relayInfo (rs : RouterStatus) : prog client tor_error RelayInfo :=
  md ← microdesc rs; mret (toRelayInfo rs md).

Record selectedRelay := mkSelected { rs : RouterStatus; md : Microdescriptor }.

Definition selectedGuard (guardRS : option RouterStatus) : prog client tor_error selectedRelay :=
  match guardRS with
  | None => throw GuardNotInConsensus
  | Some g => m ← microdesc g; mret (mkSelected g m)
  end.
Definition selectedRelayDirect (r : option RouterStatus) : prog client tor_error selectedRelay :=
  match r with
  | None => throw GuardNotInConsensus
  | Some r => m ← microdescDirect r; mret (mkSelected r m)
  end.

Fixpoint familyConflict (r : RouterStatus) (m : Microdescriptor) (chosen : list selectedRelay)
    : bool :=
  match chosen with
  | [] => false
  | ch :: chosen =>
      if SameFamily m (Identity r) (md ch) (Identity (rs ch)) then true
      else familyConflict r m chosen
  end.

(** The attempts of [pickRelayVia]. *)
Fixpoint pick_attempts (attempts : nat)
    (sel : list (option RouterStatus) → prog client tor_error RouterStatus)
    (chosen : list selectedRelay) (mdOK : option (Microdescriptor → bool))
    (mdFetch : RouterStatus → prog client tor_error Microdescriptor)
    (exclude : list (option RouterStatus)) (lastErr : option tor_error)
    : prog client tor_error selectedRelay :=
  match attempts with
  | O => throw (default NoEligibleRelay lastErr)
  | S attempts =>
      r ← sel exclude;
      o ← attempt (mdFetch r);
      match o with
      | Panic => panic
      | Err e =>
          pick_attempts attempts sel chosen mdOK mdFetch (exclude ++ [Some r]) (Some e)
      | Ok m =>
          if match mdOK with Some f => negb (f m) | None => false end || familyConflict r m chosen
          then pick_attempts attempts sel chosen mdOK mdFetch (exclude ++ [Some r]) lastErr
          else mret (mkSelected r m)
      end
  end.

Definition pickRelayVia (sel : list (option RouterStatus) → prog client tor_error RouterStatus)
    (chosen : list selectedRelay) (mdOK : option (Microdescriptor → bool))
    (mdFetch : RouterStatus → prog client tor_error Microdescriptor)
    : prog client tor_error selectedRelay :=
  pick_attempts 20 sel chosen mdOK mdFetch (map (λ ch, Some (rs ch)) chosen) None.
Definition pickRelay (sel : list (option RouterStatus) → prog client tor_error RouterStatus)
    (chosen : list selectedRelay) (mdOK : option (Microdescriptor → bool))
    : prog client tor_error selectedRelay :=
  pickRelayVia sel chosen mdOK microdesc.

Definition find_router (test : RouterStatus → bool) (rsl : list RouterStatus)
    : option RouterStatus := List.find test rsl.
Definition findRouterByIdentity (c : client) (i : bytes) : option RouterStatus :=
  find_router (λ r, bool_decide (Identity r = i)) (Routers (consensus c)).
(** [strings.EqualFold] of two ASCII strings. *)
Definition findRouterByIdentityHex (c : client) (hexID : bytes) : option RouterStatus :=
  find_router (λ r, bool_decide (ToLower (hex_encode (Identity r)) = ToLower hexID))
    (Routers (consensus c)).

(** A method of the selector over the consensus [cons], drawing once. *)
Definition selector_call (cons : Consensus)
    (f : Consensus → (Z → Z) → outcome pathsel_error RouterStatus)
    : prog client tor_error RouterStatus :=
  rnd ← on_world (λ w, let '(g, w) := draw w in (Ok g, w));
  lift (map_err SelectErr (f cons rnd)).

(** [buildExitCircuit] up to [circuit.New]: the guard, the middle and the exit
    it will build through. *)
Definition buildExitCircuit_path (port : Z)
    : prog client tor_error (selectedRelay * selectedRelay * selectedRelay) :=
  guardRS ← gets (λ c, findRouterByIdentity c (RSAIDDigest (guardInfo c)));
  open ← gets guardOpen;
  if negb open then throw ClientClosed else
  guardSel ← selectedGuard guardRS;
  cons ← gets consensus;
  middle ← pickRelay (λ ex, selector_call cons (λ s g, SelectMiddle s g ex)) [guardSel] None;
  exit ← map_error NoExitPermits
    (pickRelay (λ ex, selector_call cons (λ s g, SelectExit s g None ex)) [guardSel; middle]
       (Some (λ m, Allows (md_ExitPolicy m) port)));
  mret (guardSel, middle, exit).

(** ** Facts *)

(** Two relays that may share a circuit. *)
Definition independent (a b : selectedRelay) : Prop :=
  Identity (rs a) ≠ Identity (rs b) ∧
  sameSlash16 (ParseIP (IP (rs a))) (ParseIP (IP (rs b))) = false ∧
  SameFamily (md a) (Identity (rs a)) (md b) (Identity (rs b)) = false.

Lemma familyConflict_false r m chosen ch :
  familyConflict r m chosen = false → ch ∈ chosen →
  SameFamily m (Identity r) (md ch) (Identity (rs ch)) = false.
Proof.
  induction chosen as [|x t IH]; simpl; [set_solver|].
  destruct (SameFamily m (Identity r) (md x) (Identity (rs x))) eqn:E; [done|].
  intros Ht H. apply elem_of_cons in H as [->|H]; [done|by apply IH].
Qed.

(** A relay the sampling loop returns was drawn with at least the chosen relays
    excluded, and passed the tests. *)
Lemma pick_attempts_sound (Q : list (option RouterStatus) → RouterStatus → Prop)
    n sel chosen mdOK mdFetch exclude lastErr c c' s :
  (∀ ex c r c', sel ex c = Some (Ok r, c') → Q ex r) →
  pick_attempts n sel chosen mdOK mdFetch exclude lastErr c = Some (Ok s, c') →
  (∃ ex, exclude ⊆ ex ∧ Q ex (rs s)) ∧
  (∀ f, mdOK = Some f → f (md s) = true) ∧ familyConflict (rs s) (md s) chosen = false.
Proof.
  intros Hsel. revert exclude lastErr c. induction n as [|n IH]; intros exclude lastErr c; [done|].
  cbn [pick_attempts]. rewrite prog_bind_eq.
  destruct (sel exclude c) as [[[r|e|] c1]|] eqn:Hs; try done. rewrite prog_bind_eq. unfold attempt.
  destruct (mdFetch r c1) as [[o c2]|]; [|done].
  assert (∀ le, pick_attempts n sel chosen mdOK mdFetch (exclude ++ [Some r]) le c2 = Some (Ok s, c') →
    (∃ ex, exclude ⊆ ex ∧ Q ex (rs s)) ∧
    (∀ f, mdOK = Some f → f (md s) = true) ∧ familyConflict (rs s) (md s) chosen = false) as Hrec.
  { intros le H. destruct (IH _ _ _ H) as ((ex & Hex & Hq) & ?). split; [|done].
    exists ex. split; [set_solver|done]. }
  destruct o as [m|e|]; [|by apply Hrec|done].
  destruct (_ || _) eqn:Hc; [by apply Hrec|]. intros [= <- <-]. bools.
  split_and!; [by exists exclude; split; [|by eapply Hsel]| |done].
  intros f ->. by bools.
Qed.

Lemma selector_call_sound cons f c r c' :
  selector_call cons f c = Some (Ok r, c') → ∃ g, f cons g = Ok r.
Proof.
  unfold selector_call. rewrite prog_bind_eq. unfold on_world. destruct (draw (world c)) as [g w].
  unfold lift. destruct (f cons g) eqn:E; [|done..]. intros [= <- <-]. by exists g.
Qed.

(** [pickRelay] through a position of the selector. *)
Lemma pickRelay_sound cons ok wt chosen mdOK c s c' :
  pickRelay (λ ex, selector_call cons (λ k g, selectWeighted k g ok (wt k) ex)) chosen mdOK c
    = Some (Ok s, c') →
  rs s ∈ Routers cons ∧ baseEligible (rs s) = true ∧ ok (rs s) = true ∧
  (∀ f, mdOK = Some f → f (md s) = true) ∧
  ∀ ch, ch ∈ chosen → independent s ch.
Proof.
  unfold pickRelay, pickRelayVia. generalize 20. intros n H.
  apply (pick_attempts_sound (λ ex r, ∃ g, selectWeighted cons g ok (wt cons) ex = Ok r))
    in H as ((ex & Hex & g & Hg) & Hmd & Hfam).
  2: { intros ex c0 r c1 Hs. by apply selector_call_sound in Hs. }
  apply selectWeighted_drawable in Hg as [Hr Hd]. unfold drawable in Hd. bools.
  split_and!; [done..|]. intros ch Hch.
  destruct (excludedBy_false (rs s) ex (rs ch)) as [Hi Hs16]; [done| |].
  { apply Hex, list_elem_of_fmap. by exists ch. }
  split_and!; [done..|by eapply familyConflict_false].
Qed.

(** C22: the three relays of an exit circuit are pairwise different, in
    different /16 networks and not in a common family; middle and exit are
    running, valid relays of the consensus with the flags of their position,
    the exit is not a bad exit, and its policy permits the port. *)
Theorem exit_path_independent (port : Z) (c c' : client) (g m x : selectedRelay) :
  buildExitCircuit_path port c = Some (Ok (g, m, x), c') →
  Identity (rs g) = RSAIDDigest (guardInfo c) ∧
  independent m g ∧ independent x g ∧ independent x m ∧
  baseEligible (rs m) = true ∧ baseEligible (rs x) = true ∧
  HasFlag (rs m) go"Fast" = true ∧ HasFlag (rs x) go"Exit" = true ∧
  HasFlag (rs x) go"Fast" = true ∧ HasFlag (rs x) go"BadExit" = false ∧
  Allows (md_ExitPolicy (md x)) port = true.
Proof.
  unfold buildExitCircuit_path. rewrite !prog_bind_eq. unfold gets at 1.
  rewrite prog_bind_eq. unfold gets at 1. destruct (negb (guardOpen c)); [done|].
  rewrite prog_bind_eq. destruct (findRouterByIdentity c _) as [gr|] eqn:Hfind; [|done].
  assert (Identity gr = RSAIDDigest (guardInfo c)) as Hid.
  { unfold findRouterByIdentity, find_router in Hfind. apply List.find_some in Hfind as [_ Hf].
    by apply bool_decide_eq_true in Hf. }
  unfold selectedGuard. rewrite prog_bind_eq.
  destruct (microdesc gr c) as [[[gm|e|] c1]|]; try done. unfold mret at 1, prog_ret at 1.
  rewrite prog_bind_eq. unfold gets at 1. rewrite prog_bind_eq.
  destruct (pickRelay _ [mkSelected gr gm] None c1) as [[[mid|e|] c2]|] eqn:Hm; try done.
  apply (pickRelay_sound (consensus c1) middleOK middleWeight) in Hm as (_ & Hmb & Hmo & _ & Hmi).
  rewrite prog_bind_eq. unfold map_error.
  destruct (pickRelay _ [mkSelected gr gm; mid] _ c2) as [[[ex|e|] c3]|] eqn:Hx; try done.
  apply (pickRelay_sound (consensus c1) (exitOK None) exitWeight) in Hx as (_ & Hxb & Hxo & Hpol & Hxi).
  intros [= <- <- <- <-]. unfold exitOK in Hxo.
  destruct (_ || _) eqn:Hfl in Hxo; [done|]. bools.
  split_and!; try done; [apply Hmi; set_solver|apply Hxi; set_solver|apply Hxi; set_solver|].
  by apply (Hpol _ eq_refl).
Qed.

(** ** The cache only holds complete microdescriptors *)

Definition md_complete (m : Microdescriptor) : Prop :=
  length (Ed25519ID m) = 32 ∧ length (Directory.NtorOnionKey m) = 32.
Definition cache_ok (c : client) : Prop := map_Forall (λ _ m, md_complete m) (mdCache c).

Lemma microdescVia_complete r fetch c o c' :
  (∀ hs, preserves cache_ok (fetch hs)) → cache_ok c →
  microdescVia r fetch c = Some (o, c') →
  cache_ok c' ∧ ∀ m, o = Ok m → md_complete m ∧ mdCache c' !! MicrodescHash r = Some m.
Proof.
  intros Hf Hc. unfold microdescVia. rewrite prog_bind_eq. unfold gets.
  destruct (mdCache c !! MicrodescHash r) as [m0|] eqn:Hm0.
  { intros [= <- <-]. split; [done|]. intros m [= <-]. split; [by eapply Hc|done]. }
  rewrite prog_bind_eq. unfold map_error. destruct (fetch _ c) as [[o1 c1]|] eqn:E1; [|done].
  pose proof (Hf _ _ _ _ E1 Hc) as Hc1.
  destruct o1 as [mds|e|]; simpl; [|by intros [= <- <-]..].
  destruct (mds !! MicrodescHash r) as [m1|]; [|by intros [= <- <-]].
  destruct (_ || _) eqn:Hlen; [by intros [= <- <-]|]. bools.
  rewrite prog_bind_eq. unfold modify. intros [= <- <-]. split.
  - by apply map_Forall_insert_2.
  - intros m [= <-]. split; [done|]. simpl. apply lookup_insert_eq.
Qed.

End Path.
