(* ===== verification/PathExamples.v ===== *)
(** * A small consensus: the path-selection theorems at work. *)

From S2P Require Import Prelude ByteUtil GoNet TorCrypto RelayInfo Directory PathSel Path.

Definition toy_router (i : byte) (ip : bytes) (flags : list bytes) (bw : Z) : RouterStatus :=
  {| Directory.Nickname := go"relay"; Identity := replicate 20 i; IP := ip; ORPort := 9001;
     DirPort := 0; IPv6 := []; MicrodescHash := [i];
     Flags := list_to_map (map (λ f, (f, true)) ([go"Running"; go"Valid"; go"Fast"] ++ flags));
     Bandwidth := bw; Unmeasured := false |}.

Definition toy_guard : RouterStatus := toy_router x01 go"10.1.0.1" [go"Guard"; go"Stable"] 100.
(** In the guard's /16. *)
Definition toy_near : RouterStatus := toy_router x02 go"10.1.0.2" [] 1000.
Definition toy_middle : RouterStatus := toy_router x03 go"10.2.0.1" [] 50.
(** Declares, and is declared by, the middle. *)
Definition toy_kin : RouterStatus := toy_router x04 go"10.3.0.1" [go"Exit"] 30.
Definition toy_exit : RouterStatus := toy_router x05 go"10.4.0.1" [go"Exit"] 20.
Definition toy_bad : RouterStatus := toy_router x06 go"10.5.0.1" [go"Exit"; go"BadExit"] 20.

Definition toy_net : Consensus :=
  {| ValidAfter := 0; FreshUntil := 0; ValidUntil := 0;
     Routers := [toy_guard; toy_near; toy_middle; toy_kin; toy_exit; toy_bad];
     Weights := {[go"Wmm" := 10000%Z; go"Wee" := 5000%Z]}; SharedRandPrevious := []; SharedRandCurrent := [];
     signedBody := []; signatures := [] |}.

Definition toy_md (i : byte) (fam : list bytes) : Microdescriptor :=
  {| Directory.NtorOnionKey := replicate 32 i; Ed25519ID := replicate 32 i;
     md_ExitPolicy := {| IsAccept := true; Ports := [mkPortRange 80 80; mkPortRange 443 443] |};
     Digest := [i]; Raw := []; Family := fam |}.
Definition toy_mds : gmap bytes Microdescriptor :=
  list_to_map [([x01], toy_md x01 []); ([x03], toy_md x03 [fpHex (replicate 20 x04)]);
               ([x04], toy_md x04 [fpHex (replicate 20 x03)]); ([x05], toy_md x05 [])].

(** Every draw is the lowest value; every fetch returns all it has. *)
#[local] Instance toy_world : World unit unit := {|
  draw w := (λ n, 0%Z, w);
  FetchMicrodescriptors hs w := (Ok toy_mds, w);
  FetchMicrodescriptorsDirect hs w := (Ok toy_mds, w)
|}.

Definition toy_client : client (W:=unit) :=
  mkClient toy_net ∅ true
    {| RelayInfo.Nickname := []; ORAddr := go"10.1.0.1:9001"; RSAIDDigest := replicate 20 x01;
       EdIdentity := replicate 32 x01; RelayInfo.NtorOnionKey := replicate 32 x01 |} tt.

(** The digests of the relays chosen for a port. *)
Definition toy_path (port : Z) : option (bytes * bytes * bytes) :=
  match buildExitCircuit_path (FE:=unit) port toy_client with
  | Some (Ok (g, m, x), _) =>
      Some (MicrodescHash (rs g), MicrodescHash (rs m), MicrodescHash (rs x))
  | _ => None
  end.

(** The exit of the middle's family is drawn first and rejected. *)
Lemma exit_path_independent_witness :
  toy_path 443 = Some ([x01], [x03], [x05]) ∧
  ∃ m x, independent x m ∧ MicrodescHash (rs m) = [x03] ∧ MicrodescHash (rs x) = [x05].
Proof.
  assert (toy_path 443 = Some ([x01], [x03], [x05])) as H by (vm_compute; reflexivity).
  split; [exact H|]. unfold toy_path in H.
  destruct (buildExitCircuit_path (FE:=unit) 443 toy_client) as [[[[[g m] x]|e|] c']|] eqn:E;
    [|discriminate H..].
  injection H as _ Hm Hx. exists m, x.
  destruct (exit_path_independent (FE:=unit) 443 toy_client c' g m x E) as (_ & _ & _ & Hi & _).
  exact (conj Hi (conj Hm Hx)).
Defined.

(** Guard excluded, the draw 85 falls in the interval of the exit. *)
Lemma selectWeighted_exact_witness :
  selectWeighted toy_net (λ n, 85%Z) middleOK (middleWeight toy_net) [Some toy_guard] = Ok toy_exit.
Proof.
  set (cs := cand_list middleOK (middleWeight toy_net) [Some toy_guard] (Routers toy_net)).
  destruct (selectWeighted_exact toy_net middleOK (middleWeight toy_net) [Some toy_guard])
    as (_ & _ & H).
  { vm_compute. reflexivity. }
  apply (H (λ n, 85%Z) 2 toy_exit 20%Z); vm_compute; [reflexivity|].
  split; [discriminate|reflexivity].
Defined.
