(* ===== verification/DirPath.v ===== *)
(** * The directory client behind path selection.

    [Path] chooses relays over an abstract source of microdescriptors and random
    numbers; here the directory client of [DirClient] is that source, and the
    guarantees of both are put together. *)

From S2P Require Import Prelude ByteUtil GoNet GoText TorCrypto RelayInfo Directory DirParse MicrodescFacts DirClient DirClientFacts PathSel Path.

Section DirPath.
Context `{C : Crypto} (e : env).

(** The directory client and the random numbers still to come. *)
Record dir_world := mkWorld { dirc : dirclient; draws : nat → Z → Z; drawn : nat }.

(** A call on the directory client inside the world; these calls always return. *)
Definition on_dir {A} (m : prog dirclient fetch_error A) (w : dir_world)
    : outcome fetch_error A * dir_world :=
  match m (dirc w) with
  | Some (o, c) => (o, mkWorld c (draws w) (drawn w))
  | None => (Panic, w)
  end.

#[local] Instance dir_World : World dir_world fetch_error := {|
  draw w := (draws w (drawn w), mkWorld (dirc w) (draws w) (S (drawn w)));
  FetchMicrodescriptors hs := on_dir (DirClient.FetchMicrodescriptors e hs);
  FetchMicrodescriptorsDirect hs := on_dir (DirClient.FetchMicrodescriptorsDirect e hs)
|}.

(** The hash in the consensus is the hash of the microdescriptor's bytes. *)
Definition committed (h : bytes) (m : Microdescriptor) : Prop :=
  h = RawStd_Encode (sha256 (Raw m)).

(** The client's microdescriptors are the ones their hashes commit to. *)
Definition good (c : client (W := dir_world)) : Prop := ∀ h m, mdCache c !! h = Some m → committed h m.

Lemma fetch_committed hs fetch w out w' h m :
  on_dir (fetchMicrodescriptors e hs fetch) w = (Ok out, w') → out !! h = Some m → committed h m.
Proof.
  unfold on_dir. destruct (fetchMicrodescriptors e hs fetch (dirc w)) as [[o c]|] eqn:E; [|done]. intros [= -> _] Hm.
  by destruct (fetchMicrodescriptors_addressed e _ _ _ _ _ E h m Hm) as (_ & ? & _).
Qed.
(** Caching what was fetched. *)
Lemma good_cached hs fetch c out w h m : on_dir (fetchMicrodescriptors e hs fetch) (world c) = (Ok out, w) →
  out !! h = Some m → good c → good (set_cache (<[h := m]> (mdCache c)) (set_world w c)).
Proof.
  intros H Ho Hg k x. cbn [mdCache set_cache]. rewrite lookup_insert_Some. intros [[<- <-]|[_ Hx]]; [|by apply Hg].
  by eapply fetch_committed.
Qed.

(** What [microdesc] returns is what the consensus entry commits to. *)
Lemma microdesc_good r c o c' : good c → microdesc (FE := fetch_error) r c = Some (o, c') →
  good c' ∧ consensus c' = consensus c ∧ ∀ m, o = Ok m → committed (MicrodescHash r) m.
Proof.
  intros Hg. unfold microdesc, microdescVia. rewrite prog_bind_eq. unfold gets.
  destruct (mdCache c !! MicrodescHash r) as [m|] eqn:Em.
  { intros [= <- <-]. split_and!; [done..|]. intros m' [= <-]. by apply Hg. }
  rewrite prog_bind_eq. unfold map_error, on_world, FetchMicrodescriptors, dir_World.
  destruct (on_dir (DirClient.FetchMicrodescriptors e [MicrodescHash r]) (world c)) as [o1 w] eqn:Ef.
  destruct o1 as [out|er|]; cbn [map_err]; [|by intros [= <- <-]..].
  destruct (out !! MicrodescHash r) as [m|] eqn:Eo; [|by intros [= <- <-]].
  destruct (_ || _); [by intros [= <- <-]|]. rewrite prog_bind_eq. unfold modify.
  intros [= <- <-]. split_and!; [by eapply good_cached|done|]. intros m' [= <-]. by eapply fetch_committed.
Qed.

(** The sampling loop returns what the fetch returned. *)
Lemma pick_attempts_good n sel chosen mdOK ex le :
  (∀ ex, preserves good (sel ex)) →
  preserves good (pick_attempts (FE := fetch_error) n sel chosen mdOK microdesc ex le) ∧
  ∀ c s c', good c → pick_attempts (FE := fetch_error) n sel chosen mdOK microdesc ex le c = Some (Ok s, c') →
    committed (MicrodescHash (rs s)) (md s).
Proof.
  intros Hsel. revert ex le. induction n as [|n IH]; intros ex le.
  { split; [apply preserves_throw|done]. }
  split.
  - cbn [pick_attempts]. apply preserves_bind; [apply Hsel|]. intros r.
    apply preserves_bind; [apply preserves_attempt; intros c o c' H Hg; by apply (microdesc_good r c o c')|].
    intros [m|er|]; [|apply IH|apply preserves_panic]. apply preserves_if; [apply IH|apply preserves_ret].
  - intros c s c' Hg. cbn [pick_attempts]. rewrite prog_bind_eq.
    destruct (sel ex c) as [[[r|er|] c1]|] eqn:Es; try done.
    pose proof (Hsel ex _ _ _ Es Hg) as Hg1. rewrite prog_bind_eq. unfold attempt.
    destruct (microdesc r c1) as [[o c2]|] eqn:Em; [|done].
    destruct (microdesc_good r _ _ _ Hg1 Em) as (Hg2 & _ & Hm).
    destruct o as [m|er|]; [|by apply IH|done]. destruct (_ || _); [by apply IH|].
    intros [= <- <-]. by apply Hm.
Qed.

Lemma selector_call_good con f : preserves good (selector_call (FE := fetch_error) con f).
Proof.
  apply preserves_bind; [|intros; apply preserves_lift]. intros c o c' [= _ <-] Hg. done.
Qed.

Lemma pickRelay_eq sel chosen mdOK :
  pickRelay (FE := fetch_error) sel chosen mdOK =
  pick_attempts 20 sel chosen mdOK microdesc (map (λ ch, Some (rs ch)) chosen) None.
Proof. reflexivity. Qed.

Lemma pickRelay_good f con chosen mdOK c s c' : good c →
  pickRelay (FE := fetch_error) (λ ex, selector_call con (f ex)) chosen mdOK c = Some (Ok s, c') →
  good c' ∧ committed (MicrodescHash (rs s)) (md s).
Proof.
  intros Hg H. rewrite pickRelay_eq in H. destruct (pick_attempts_good 20 (λ ex, selector_call con (f ex)) chosen mdOK
    (map (λ ch, Some (rs ch)) chosen) None (λ ex, selector_call_good con (f ex))) as [K Y].
  split; [by eapply K|by eapply Y].
Qed.

(** The relays of an exit circuit are relays of the consensus and come with exactly the microdescriptors (onion
    keys, identities, exit policy) whose hashes the consensus lists for them. *)
Lemma exit_path_good (port : Z) (c c' : client (W := dir_world)) (g m x : selectedRelay) :
  good c → buildExitCircuit_path (FE := fetch_error) port c = Some (Ok (g, m, x), c') →
  Forall (λ s, rs s ∈ Routers (consensus c) ∧ committed (MicrodescHash (rs s)) (md s)) [g; m; x].
Proof.
  intros Hg. unfold buildExitCircuit_path. rewrite prog_bind_eq. unfold gets at 1. rewrite prog_bind_eq.
  unfold gets at 1. destruct (negb (guardOpen c)); [done|]. rewrite prog_bind_eq. unfold selectedGuard.
  destruct (findRouterByIdentity c _) as [r|] eqn:Er; [|done]. rewrite prog_bind_eq.
  destruct (microdesc r c) as [[[gm|er|] c1]|] eqn:E1; try done.
  destruct (microdesc_good r _ _ _ Hg E1) as (Hg1 & Hcon & Hc1).
  unfold mret, prog_ret. rewrite prog_bind_eq. unfold gets at 1. rewrite prog_bind_eq.
  destruct (pickRelay _ _ _ c1) as [[[ms|er|] c2]|] eqn:E2; try done.
  pose proof (pickRelay_sound (consensus c1) middleOK middleWeight _ _ _ _ _ E2) as [Hin2 _].
  apply (pickRelay_good (λ ex s g, SelectMiddle s g ex)) in E2 as [Hg2 Hc2]; [|done].
  rewrite prog_bind_eq. unfold map_error.
  destruct (pickRelay _ _ _ c2) as [[[xs|er|] c3]|] eqn:E3; try done.
  pose proof (pickRelay_sound (consensus c1) (exitOK None) exitWeight _ _ _ _ _ E3) as [Hin3 _].
  apply (pickRelay_good (λ ex s g, SelectExit s g None ex)) in E3 as [Hg3 Hc3]; [|done].
  rewrite Hcon in *. intros [= <- <- <- <-]. unfold findRouterByIdentity, find_router in Er.
  apply List.find_some in Er as [Er%list_elem_of_In _].
  apply List.Forall_cons; [split; [done|by apply Hc1]|]. by repeat (apply List.Forall_cons; [by split|]).
Qed.

End DirPath.
