(* ===== verification/DirTextExamples.v ===== *)
(** * A directory in text: documents of toy authorities, parsed, verified and
    fetched by the executable definitions. *)

From S2P Require Import Prelude ByteUtil GoNet GoText GoTextFacts TorCrypto ToyCrypto RelayInfo Directory DirectoryExamples DirParse DirParseFacts MicrodescFacts DirClient DirClientFacts PathSel Path DirPath.

(** ** Authorities and their certificates *)

Definition id_der (i : byte) : bytes := [i; i; i].
Definition sk_der (i : byte) : bytes := [i; x00; i].
Definition t_auth (i : byte) : Authority :=
  mkAuthority go"auth" (fpHex (sha1 (id_der i))) go"127.0.0.1" 80 443.
Definition t_auths : list Authority := map t_auth [x01; x02; x03; x04; x05; x06].

Definition cert_body (i : byte) : bytes :=
  line go"dir-key-certificate-version 3" ++ line go"dir-key-expires 2030-01-01 00:00:00" ++
  line go"dir-identity-key" ++ pem go"RSA PUBLIC KEY" (id_der i) ++
  line go"dir-signing-key" ++ pem go"RSA PUBLIC KEY" (sk_der i) ++ line go"dir-key-certification".
Definition cert_text (i : byte) : bytes :=
  cert_body i ++ pem go"SIGNATURE" (toy_sign (sha1 (cert_body i))).
Definition certs_text : bytes := [x01; x02; x03; x04; x05] ≫= cert_text.

(** ** Microdescriptors and the consensus that lists their hashes *)

Definition md_text (i : byte) (extra : bytes) : bytes :=
  line go"onion-key" ++ line (go"ntor-onion-key " ++ RawStd_Encode (replicate 32 i)) ++
  extra ++ line (go"id ed25519 " ++ RawStd_Encode (replicate 32 i)).
Definition md_guard : bytes := md_text x01 [].
Definition md_middle : bytes := md_text x02 [].
Definition md_exit : bytes := md_text x03 (line go"p accept 80,443,8000-8100").
Definition md_hash (t : bytes) : bytes := RawStd_Encode (sha256 t).

Definition t_entry (i : byte) (ip : bytes) (md : bytes) (flags : list bytes) : entry :=
  mkEntry go"relay" (replicate 20 i) go"2024-01-01" go"00:00:00" ip 9001 0 (md_hash md)
    ([go"Fast"; go"Running"; go"Valid"] ++ flags) 100.
Definition e_guard : entry := t_entry x01 go"10.1.0.1" md_guard [go"Guard"; go"Stable"].
Definition e_middle : entry := t_entry x02 go"10.2.0.1" md_middle [].
Definition e_exit : entry := t_entry x03 go"10.3.0.1" md_exit [go"Exit"].

Definition con_pre : bytes :=
  line go"network-status-version 3 microdesc" ++ line go"valid-after 2024-01-01 00:00:00" ++
  line go"fresh-until 2024-01-01 01:00:00" ++ line go"valid-until 2024-01-01 03:00:00" ++
  unlines (entry_lines e_guard ++ entry_lines e_middle ++ entry_lines e_exit) ++
  line go"directory-footer" ++ line go"bandwidth-weights Wmm=10000 Wee=10000 Wgg=10000".
Definition con_signed : bytes := con_pre ++ dirSigMarker.
Definition con_sig (i : byte) : bytes :=
  line (go"directory-signature sha256 " ++ fpHex (sha1 (id_der i)) ++ go" " ++ fpHex (sha1 (sk_der i))) ++
  pem go"SIGNATURE" (toy_sign (sha256 con_signed)).
Definition con_text : bytes := con_pre ++ ([x01; x02; x03; x04; x05] ≫= con_sig).

Definition noon : Z := default 0%Z (time_Parse go"2024-01-01 02:00:00").

(** ** The network *)

(** The tunnel serves the three documents. *)
Definition serve (path : bytes) : option bytes :=
  if HasPrefix path pathConsensusMicrodesc then Some con_text
  else if HasPrefix path pathKeysFpSk then Some certs_text
  else if HasPrefix path pathMicroD then Some (md_guard ++ md_middle ++ md_exit)
  else None.
Definition t_env : env := {|
  http_Do := λ _ _ _, None;
  tunnel_DirGet := λ _ path, serve path;
  clock := λ _, noon;
  rand_Int := λ _ _, 0;
  put_kept := λ _ _, true;
  gzip_NewReader := λ _, None;
  zlib_NewReader := λ _, None;
  flate_NewReader := λ b, mkStream b true;
  ParsePKCS1PublicKey := λ _, Some toy_key
|}.
Definition t_client : dirclient := mkDir t_auths (Some ∅) true false [].

Definition run_ok {S E A} (r : option (outcome E A * S)) : bool :=
  match r with Some (o, _) => is_ok o | None => false end.

Lemma t_env_keys der k : ParsePKCS1PublicKey t_env der = Some k → (0 < N k)%Z.
Proof. intros [= <-]. reflexivity. Qed.

(** ** The theorems at work *)

Definition con_raw : bytes := take (length con_text - 1) con_text.
Definition t_con : Consensus := match ParseConsensus (con_raw ++ [nl]) with Ok c => c | _ => emptyConsensus end.

Lemma is_ok_parsed {E A} (o : outcome E A) (d : A) : is_ok o = true →
  o = Ok (match o with Ok a => a | _ => d end).
Proof. by destruct o. Qed.

Lemma t_con_parsed : ParseConsensus (con_raw ++ [nl]) = Ok t_con.
Proof. apply is_ok_parsed. vm_compute. reflexivity. Qed.

Lemma t_entry_ok i ip md flags : word ip = true → word (md_hash md) = true → forallb word flags = true →
  forallb (λ l, (Z.of_nat (length l) <? maxLine)%Z) (entry_lines (t_entry i ip md flags)) = true →
  entry_ok (t_entry i ip md flags).
Proof.
  intros Hip Hmd Hf Hl. split; [|split; [done|split_and!; try (simpl; lia)]].
  - apply List.Forall_forall. intros w Hw. apply list_elem_of_In in Hw.
    repeat (apply elem_of_cons in Hw as [->|Hw]; [done|]). rewrite forallb_forall in Hf.
    apply Hf. by apply list_elem_of_In.
  - apply List.Forall_forall. rewrite forallb_forall in Hl. intros l H. by apply Z.ltb_lt, Hl.
Qed.

(** A relay nobody voted for, and an expiry nobody signed. *)
Definition evil : entry := t_entry xee go"66.6.6.6" md_guard [go"Guard"; go"Exit"; go"Stable"].

Lemma unsigned_tail_accepted_witness :
  VerifyConsensus t_con (match read_certs t_env certs_text (byIdent t_auths) t_client with
                         | Some (Ok m, _) => m | _ => ∅ end) noon = Ok tt ∧
  ParseConsensus ((con_raw ++ [nl]) ++ unlines (entry_lines evil)) =
    Ok (set_routers (Routers t_con ++ [entry_router evil]) t_con) ∧
  ∀ certs now, VerifyConsensus (set_routers (Routers t_con ++ [entry_router evil]) t_con) certs now =
    VerifyConsensus t_con certs now.
Proof.
  assert (VerifyConsensus t_con (match read_certs t_env certs_text (byIdent t_auths) t_client with
    | Some (Ok m, _) => m | _ => ∅ end) noon = Ok tt) as Hv by (vm_compute; reflexivity).
  assert (entry_ok evil) as He by (apply t_entry_ok; vm_compute; reflexivity).
  assert (blocks_closed (con_raw ++ [nl]) = true) as Hb by (vm_compute; reflexivity).
  destruct (unsigned_tail_accepted con_raw t_con evil go"2099-01-01" go"00:00:00"
    (default 0%Z (time_Parse go"2099-01-01 00:00:00")) t_con_parsed Hb He eq_refl eq_refl eq_refl
    ltac:(vm_compute; reflexivity)) as (H1 & H2 & _).
  exact (conj Hv (conj H1 H2)).
Defined.

(** The same signed part with one signature left out. *)
Definition con_text4 : bytes := con_pre ++ ([x01; x02; x03; x04] ≫= con_sig).
Definition t_con4 : Consensus := match ParseConsensus con_text4 with Ok c => c | _ => emptyConsensus end.

Lemma signed_content_determined_witness :
  length (signatures t_con) = 5 ∧ length (signatures t_con4) = 4 ∧ content t_con = content t_con4.
Proof.
  assert (length (signatures t_con) = 5) as H5 by (vm_compute; reflexivity).
  assert (length (signatures t_con4) = 4) as H4 by (vm_compute; reflexivity).
  assert (ParseConsensus con_text4 = Ok t_con4) as Hp by (apply is_ok_parsed; vm_compute; reflexivity).
  assert (well_closed (con_raw ++ [nl]) = true) as Hw1 by (vm_compute; reflexivity).
  assert (well_closed con_text4 = true) as Hw2 by (vm_compute; reflexivity).
  assert (signedBody t_con = signedBody t_con4) as Hb by (vm_compute; reflexivity).
  exact (conj H5 (conj H4 (signed_content_determined (con_raw ++ [nl]) con_text4 t_con t_con4 t_con_parsed Hp Hw1 Hw2 Hb))).
Defined.

Definition t_mds : list Microdescriptor := ParseMicrodescriptors (md_guard ++ md_middle ++ md_exit).
Definition t_md (i : nat) : Microdescriptor := nth i t_mds zeroMicrodescriptor.

Lemma microdesc_reparse_witness :
  Raw (t_md 2) = md_exit ∧ Allows (md_ExitPolicy (t_md 2)) 8080 = true ∧
  ParseMicrodescriptors (Raw (t_md 2)) = [t_md 2].
Proof.
  assert (Raw (t_md 2) = md_exit) as Hr by (vm_compute; reflexivity).
  assert (Allows (md_ExitPolicy (t_md 2)) 8080 = true) as Ha by (vm_compute; reflexivity).
  assert (t_md 2 ∈ t_mds) as Hin.
  { apply list_elem_of_In, nth_In. vm_compute. lia. }
  exact (conj Hr (conj Ha (proj1 (microdesc_reparse (md_guard ++ md_middle ++ md_exit) (t_md 2) Hin)))).
Defined.

(** Bootstrap succeeds over the tunnel. *)
Lemma Bootstrap_authenticated_witness :
  run_ok (Bootstrap t_env t_client) = true ∧
  returns (Bootstrap t_env) t_client (λ o c', ∀ con, o = Ok con → authentic t_env t_client c' con).
Proof.
  split; [vm_compute; reflexivity|].
  exact (proj1 (Bootstrap_authenticated t_env t_env_keys t_client)).
Defined.

Definition after_bootstrap : dirclient :=
  match Bootstrap t_env t_client with Some (_, c) => c | None => t_client end.

Lemma tunnel_fail_closed_witness :
  length (reqs after_bootstrap) = 2 ∧ directs after_bootstrap = [].
Proof.
  assert (length (reqs after_bootstrap) = 2) as Hl by (vm_compute; reflexivity).
  split; [exact Hl|].
  destruct (tunnel_fail_closed t_env t_client after_bootstrap [] eq_refl eq_refl) as (Hb & _ & _).
  assert (∃ o, Bootstrap t_env t_client = Some (o, after_bootstrap)) as [o Ho].
  { destruct (Bootstrap_authenticated_witness) as [_ (o & c' & H & _)]. exists o.
    unfold after_bootstrap. rewrite H. reflexivity. }
  exact (Hb o Ho).
Defined.

Lemma responses_bounded_witness :
  readLimited 3 (mkStream [x01; x02; x03] true) = Ok [x01; x02; x03] ∧
  readLimited 3 (mkStream [x01; x02; x03; x04] true) ≠ Ok [x01; x02; x03; x04].
Proof.
  split.
  - apply (proj1 (responses_bounded t_env 3 (mkStream [x01; x02; x03] true) [x01; x02; x03] [] [] t_client t_client []
      ltac:(lia))). vm_compute. split_and!; (reflexivity || discriminate).
  - vm_compute. discriminate.
Defined.

Lemma FetchMicrodescriptors_addressed_witness :
  run_ok (DirClient.FetchMicrodescriptors t_env (map md_hash [md_guard; md_exit]) t_client) = true ∧
  returns (DirClient.FetchMicrodescriptors t_env (map md_hash [md_guard; md_exit])) t_client (λ o c',
    ∀ out, o = Ok out → addressed out).
Proof.
  split; [vm_compute; reflexivity|].
  destruct (FetchMicrodescriptors_addressed t_env (map md_hash [md_guard; md_exit]) t_client eq_refl eq_refl)
    as (o & c' & H & Hp & bs & _ & _ & _ & Ho).
  exists o, c'. split; [exact H|]. split; [exact Hp|]. intros out Hout. exact (proj1 (Ho out Hout)).
Defined.

(** ** A path over the parsed consensus *)

Definition t_world : dir_world := mkWorld t_client (λ _ _, 0%Z) 0.
Definition t_tor : client (W := dir_world) :=
  mkClient t_con ∅ true
    {| RelayInfo.Nickname := []; ORAddr := go"10.1.0.1:9001"; RSAIDDigest := replicate 20 x01;
       EdIdentity := replicate 32 x01; RelayInfo.NtorOnionKey := replicate 32 x01 |} t_world.
Definition t_path : option (outcome (tor_error (FE := fetch_error)) (selectedRelay * selectedRelay * selectedRelay) * client) :=
  buildExitCircuit_path (W := dir_world) (FE := fetch_error) (World0 := dir_World t_env) 443 t_tor.

(** The path is found and its relays have the committed microdescriptors. *)
Example exit_path_found : run_ok t_path = true.
Proof. vm_compute. reflexivity. Qed.
