(* ===== verification/Pool.v ===== *)
(** * [pool.go]: the pool of reusable circuits, with the calls of client.go that
    clear it.

    Pooled circuits are shared objects: pools hold pointers into a heap of
    [pooledCircuit] records, and a connection keeps the pointer it was given.
    Each definition is one section that the code runs under [poolMu]; the
    clock reading is an argument.  Circuits themselves are the interface
    [Circuits]. *)

From S2P Require Import Prelude ByteUtil GoNet TorCrypto Directory.

(** The circuits and channels of a client, by handle. *)
Class Circuits (W : Type) := {
  Closed : nat → W → bool;
  Destroy : nat → W → W;
  CloseChannel : nat → W → bool * W  (* whether it returned an error *)
}.

(** Destroying a circuit closes it and no other one. *)
Class CircuitsLaws (W : Type) `{!Circuits W} : Prop := {
  Destroy_closes k w : Closed k (Destroy k w) = true;
  Destroy_other k j w : j ≠ k → Closed j (Destroy k w) = Closed j w
}.

(** ** Constants (nanoseconds) *)
Definition defaultMaxCircuitDirtiness : Z := 600000000000.
Definition maxClearnetCircuits : nat := 32.
Definition maxOnionCircuitsPerHost : nat := 8.
Definition maxOnionHosts : nat := 64.

(** [t.Sub(u)]: the difference saturates at the ends of [int64]. *)
Definition time_Sub (t u : Z) : Z := Z.max (- 2 ^ 63) (Z.min (2 ^ 63 - 1) (t - u)).

(** [circ] is the handle of the circuit, and stands for its stream manager
    too: there is one manager per circuit. *)
Record pooledCircuit := mkPooled {
  circ : nat;
  born : Z;
  onion : bytes;
  exitMD : Microdescriptor;
  streams : Z;
  retired : bool
}.

Definition set_streams (n : Z) (pc : pooledCircuit) : pooledCircuit :=
  mkPooled (circ pc) (born pc) (onion pc) (exitMD pc) n (retired pc).
Definition set_retired (pc : pooledCircuit) : pooledCircuit :=
  mkPooled (circ pc) (born pc) (onion pc) (exitMD pc) (streams pc) true.

Section Pool.
Context {W : Type} `{!Circuits W}.

(** The pool fields of [Client] (and the fields its closing calls touch), the
    heap of pooled circuits with the next free address, and the world. *)
Record Client := mkClient {
  clearnetPool : list nat;
  onionPool : gmap bytes (list nat);
  built : Z;
  reused : Z;
  maxDirty : Z;
  dirCirc : option nat;
  guardChan : option nat;
  closed : bool;
  heap : nat → pooledCircuit;
  next : nat;
  world : W
}.

Definition set_clearnet l (c : Client) : Client :=
  mkClient l (onionPool c) (built c) (reused c) (maxDirty c) (dirCirc c) (guardChan c)
    (closed c) (heap c) (next c) (world c).
Definition set_onion m (c : Client) : Client :=
  mkClient (clearnetPool c) m (built c) (reused c) (maxDirty c) (dirCirc c) (guardChan c)
    (closed c) (heap c) (next c) (world c).
Definition incr_built (c : Client) : Client :=
  mkClient (clearnetPool c) (onionPool c) (built c + 1) (reused c) (maxDirty c) (dirCirc c)
    (guardChan c) (closed c) (heap c) (next c) (world c).
Definition incr_reused (c : Client) : Client :=
  mkClient (clearnetPool c) (onionPool c) (built c) (reused c + 1) (maxDirty c) (dirCirc c)
    (guardChan c) (closed c) (heap c) (next c) (world c).
Definition set_dirCirc d (c : Client) : Client :=
  mkClient (clearnetPool c) (onionPool c) (built c) (reused c) (maxDirty c) d (guardChan c)
    (closed c) (heap c) (next c) (world c).
Definition set_closed (c : Client) : Client :=
  mkClient (clearnetPool c) (onionPool c) (built c) (reused c) (maxDirty c) (dirCirc c)
    (guardChan c) true (heap c) (next c) (world c).
Definition set_world w (c : Client) : Client :=
  mkClient (clearnetPool c) (onionPool c) (built c) (reused c) (maxDirty c) (dirCirc c)
    (guardChan c) (closed c) (heap c) (next c) w.
(** Assignment through a pointer. *)
Definition update (p : nat) (f : pooledCircuit → pooledCircuit) (c : Client) : Client :=
  mkClient (clearnetPool c) (onionPool c) (built c) (reused c) (maxDirty c) (dirCirc c)
    (guardChan c) (closed c) (λ q, if decide (q = p) then f (heap c p) else heap c q)
    (next c) (world c).
(** [&pooledCircuit{...}]. *)
Definition alloc (pc : pooledCircuit) (c : Client) : Client :=
  mkClient (clearnetPool c) (onionPool c) (built c) (reused c) (maxDirty c) (dirCirc c)
    (guardChan c) (closed c) (λ q, if decide (q = next c) then pc else heap c q)
    (S (next c)) (world c).

(** ** Reuse *)

Definition circuitReusable (born now maxDirty : Z) (retired closed matches : bool) : bool :=
  negb closed && negb retired && (time_Sub now born <? maxDirty)%Z && matches.

Definition is_reusable (c : Client) (p : nat) : bool := negb (retired (heap c p)).

Definition reusableClearnetLocked (c : Client) : nat :=
  length (List.filter (is_reusable c) (clearnetPool c)).
(** A host that is not in the map has a nil slice. *)
Definition reusableOnionLocked (host : bytes) (c : Client) : nat :=
  length (List.filter (is_reusable c) (default [] (onionPool c !! host))).

Definition retireNewClearnetLocked (c : Client) : bool :=
  maxClearnetCircuits <=? reusableClearnetLocked c.
(** No slice stored in the map is nil. *)
Definition retireNewOnionLocked (host : bytes) (c : Client) : bool :=
  let newHost := bool_decide (onionPool c !! host = None) in
  (maxOnionCircuitsPerHost <=? reusableOnionLocked host c) ||
  (newHost && (maxOnionHosts <=? size (onionPool c))).

Record Stats := mkStats { ClearnetCircuits : nat; OnionCircuits : nat; Built : Z; Reused : Z }.
Definition get_Stats (c : Client) : Stats :=
  {| ClearnetCircuits := length (clearnetPool c);
     OnionCircuits := map_fold (λ _ pcs n, n + length pcs) 0 (onionPool c);
     Built := built c; Reused := reused c |}.

(** The search loop of the two acquire methods: the first pooled circuit that
    qualifies takes one more stream. *)
Fixpoint acquire_from (now : Z) (matches : pooledCircuit → bool) (ps : list nat) (c : Client)
    : option nat * Client :=
  match ps with
  | [] => (None, c)
  | p :: ps =>
      let pc := heap c p in
      if circuitReusable (born pc) now (maxDirty c) (retired pc) (Closed (circ pc) (world c))
           (matches pc)
      then (Some p, incr_reused (update p (λ pc, set_streams (streams pc + 1) pc) c))
      else acquire_from now matches ps c
  end.
Definition acquireClearnet (now port : Z) (c : Client) : option nat * Client :=
  acquire_from now (λ pc, Allows (md_ExitPolicy (exitMD pc)) port) (clearnetPool c) c.
Definition acquireOnion (now : Z) (host : bytes) (c : Client) : option nat * Client :=
  acquire_from now (λ _, true) (default [] (onionPool c !! host)) c.

(** ** New circuits *)

(** [dialClearnet] once its circuit [k] is built: the new entry, retired when
    the pool is at capacity. *)
Definition insertClearnet (now : Z) (k : nat) (md : Microdescriptor) (c : Client) : nat * Client :=
  let p := next c in
  let c := alloc (mkPooled k now [] md 1 false) c in
  let c := if retireNewClearnetLocked c then update p set_retired c else c in
  (p, incr_built (set_clearnet (clearnetPool c ++ [p]) c)).

(** [dialOnionViaDescriptor] once its circuit [k] is built. *)
Definition insertOnion (now : Z) (host : bytes) (k : nat) (c : Client) : nat * Client :=
  let p := next c in
  let c := alloc (mkPooled k now host zeroMicrodescriptor 1 false) c in
  let c := if retireNewOnionLocked host c then update p set_retired c else c in
  (p, incr_built (set_onion (<[host := default [] (onionPool c !! host) ++ [p]]> (onionPool c)) c)).

(** ** Teardown *)

Definition removePooled (s : list nat) (p : nat) : list nat :=
  List.filter (λ q, negb (q =? p)) s.

Definition removeLocked (p : nat) (c : Client) : Client :=
  if decide (onion (heap c p) = []) then set_clearnet (removePooled (clearnetPool c) p) c
  else
    let host := onion (heap c p) in
    let rest := removePooled (default [] (onionPool c !! host)) p in
    if decide (length rest = 0) then set_onion (delete host (onionPool c)) c
    else set_onion (<[host := rest]> (onionPool c)) c.

Definition destroyLocked (p : nat) (c : Client) : Client :=
  removeLocked p (set_world (Destroy (circ (heap c p)) (world c)) c).

(** [time.Since(pc.born) >= c.maxDirty]. *)
Definition expiredLocked (now : Z) (p : nat) (c : Client) : bool :=
  (maxDirty c <=? time_Sub now (born (heap c p)))%Z.

Definition releaseStream (now : Z) (p : nat) (c : Client) : Client :=
  let c := if (0 <? streams (heap c p))%Z
           then update p (λ pc, set_streams (streams pc - 1) pc) c else c in
  if (streams (heap c p) =? 0)%Z && (retired (heap c p) || expiredLocked now p c)
  then destroyLocked p c else c.

(** Go ranges over a map in any order: [hosts] is the order taken. *)
Definition allPooledLocked (hosts : list bytes) (c : Client) : list nat :=
  clearnetPool c ++ (hosts ≫= λ h, default [] (onionPool c !! h)).

Definition reap_one (now : Z) (c : Client) (p : nat) : Client :=
  let idle := (streams (heap c p) =? 0)%Z in
  let dead := Closed (circ (heap c p)) (world c) in
  if dead || (idle && (retired (heap c p) || (maxDirty c <=? time_Sub now (born (heap c p)))%Z))
  then destroyLocked p c else c.
Definition reap (now : Z) (hosts : list bytes) (c : Client) : Client :=
  foldl (reap_one now) c (allPooledLocked hosts c).

(** [maintain]: what the janitor's select sees, a tick of the ticker or the end
    of the client, which ends the loop. *)
Inductive janitor_event := Tick (now : Z) (hosts : list bytes) | ClientDone.
Fixpoint maintain (evs : list janitor_event) (c : Client) : Client :=
  match evs with
  | [] => c
  | Tick now hosts :: evs => maintain evs (reap now hosts c)
  | ClientDone :: _ => c
  end.

(** ** Clearing the pool (client.go) *)

Definition retire_one (c : Client) (p : nat) : Client :=
  let c := update p set_retired c in
  if (streams (heap c p) =? 0)%Z then destroyLocked p c else c.
(** The loop of [NewIdentity] over the pool. *)
Definition retireAll (hosts : list bytes) (c : Client) : Client :=
  foldl retire_one c (allPooledLocked hosts c).

Definition NewIdentity (hosts : list bytes) (c : Client) : Client :=
  let c := retireAll hosts c in
  match dirCirc c with
  | None => c
  | Some d => let c := set_dirCirc None c in set_world (Destroy d (world c)) c
  end.

(** The loop of [Close] and [RotateGuard] over the pool. *)
Definition destroyAll (hosts : list bytes) (c : Client) : Client :=
  foldl (λ c p, destroyLocked p c) c (allPooledLocked hosts c).

(** [Close]: whether it returned an error, and the client. *)
Definition Close (hosts : list bytes) (c : Client) : bool * Client :=
  if closed c then (false, c)
  else
    let guard := guardChan c in
    let c := destroyAll hosts (set_closed c) in
    match guard with
    | None => (false, c)
    | Some g => let '(err, w) := CloseChannel g (world c) in (err, set_world w c)
    end.

(** ** Connections *)

(** [trackedConn]: the circuit's pointer and whether [closeOnce] has run. *)
Record trackedConn := mkTracked { pc : nat; closeOnce : bool }.

Definition newTrackedConn (p : nat) : trackedConn := {| pc := p; closeOnce := false |}.

(** [trackedConn.Close]; the underlying stream's own [Close] is the stream
    layer's. *)
Definition tracked_Close (now : Z) (t : trackedConn) (c : Client) : trackedConn * Client :=
  if closeOnce t then (t, c)
  else ({| pc := pc t; closeOnce := true |}, releaseStream now (pc t) c).

(** ** Dials *)

(** [dialClearnet]: [build] is what [buildExitCircuit] returned (it is called
    only when no pooled circuit qualifies), [begin_ok] whether [Begin]
    succeeded; the three clock readings follow the code. *)
Definition dialClearnet (now1 now2 now3 port : Z) (build : option (nat * Microdescriptor))
    (begin_ok : bool) (c : Client) : option trackedConn * Client :=
  let finish p c :=
    if begin_ok : bool then (Some (newTrackedConn p), c) else (None, releaseStream now3 p c) in
  match acquireClearnet now1 port c with
  | (Some p, c) => finish p c
  | (None, c) =>
      match build with
      | None => (None, c)
      | Some (k, md) => let '(p, c) := insertClearnet now2 k md c in finish p c
      end
  end.

(** [dialOnionViaDescriptor]. *)
Definition dialOnionViaDescriptor (now2 now3 : Z) (host : bytes) (build : option nat)
    (begin_ok : bool) (c : Client) : option trackedConn * Client :=
  match build with
  | None => (None, c)
  | Some k =>
      let '(p, c) := insertOnion now2 host k c in
      if begin_ok : bool then (Some (newTrackedConn p), c) else (None, releaseStream now3 p c)
  end.

End Pool.
