(* ===== verification/PoolFacts.v ===== *)
(** * Correctness of the circuit pool.

    The goroutines of a client run the pool's critical sections in any order:
    [step] is one of them, together with the list of stream slots handed out
    and not yet returned.  The invariant ties the counters to that list,
    bounds what is kept for reuse, and shows that no circuit is leaked. *)

From S2P Require Import Prelude ByteUtil GoNet TorCrypto Directory Pool.

Section Facts.
Context {W : Type} `{!Circuits W} `{!CircuitsLaws W}.
Notation Client := (Client (W:=W)).
Implicit Types (c : Client) (p q : nat).

(** ** Where a circuit is pooled *)

(** The slice that holds [p]. *)
Definition slot c p : list nat :=
  if decide (onion (heap c p) = []) then clearnetPool c
  else default [] (onionPool c !! onion (heap c p)).
Definition pooled c p : Prop := p ∈ slot c p.

Record wf c : Prop := {
  wf_clear_nodup : NoDup (clearnetPool c);
  wf_clear p : p ∈ clearnetPool c → p < next c ∧ onion (heap c p) = [];
  wf_onion h l : onionPool c !! h = Some l →
    h ≠ [] ∧ l ≠ [] ∧ NoDup l ∧ ∀ p, p ∈ l → p < next c ∧ onion (heap c p) = h;
  wf_circ p q : p < next c → q < next c → circ (heap c p) = circ (heap c q) → p = q;
  (** no leak: what is not in the pool is closed *)
  wf_leak p : p < next c → pooled c p ∨ Closed (circ (heap c p)) (world c) = true;
  wf_cap : reusableClearnetLocked c ≤ maxClearnetCircuits;
  wf_onion_cap h : reusableOnionLocked h c ≤ maxOnionCircuitsPerHost
}.

Lemma removePooled_elem s p q : q ∈ removePooled s p ↔ q ∈ s ∧ q ≠ p.
Proof.
  unfold removePooled. rewrite !list_elem_of_In, List.filter_In, negb_true_iff, Nat.eqb_neq. done.
Qed.

Lemma NoDup_filter_bool {A} (f : A → bool) l : NoDup l → NoDup (List.filter f l).
Proof.
  rewrite !NoDup_ListNoDup. apply List.NoDup_filter.
Qed.

Lemma length_filter_weaker {A} (f g : A → bool) l :
  (∀ x, x ∈ l → f x = true → g x = true) →
  length (List.filter f l) ≤ length (List.filter g l).
Proof.
  induction l as [|x l IH]; simpl; [lia|]. intros H.
  assert (length (List.filter f l) ≤ length (List.filter g l)) by (apply IH; set_solver).
  destruct (f x) eqn:E; [rewrite (H x); [simpl; lia|set_solver|done]|]. destruct (g x); simpl; lia.
Qed.

Lemma filter_remove_le (f : nat → bool) s p :
  length (List.filter f (removePooled s p)) ≤ length (List.filter f s).
Proof.
  unfold removePooled. induction s as [|x s IH]; simpl; [lia|].
  destruct (negb (x =? p)); simpl; destruct (f x); simpl; lia.
Qed.

(** ** Pointer updates *)

(** An update that keeps which circuit it is and where it is pooled, and does
    not make it reusable again. *)
Definition mild (f : pooledCircuit → pooledCircuit) : Prop :=
  ∀ x, circ (f x) = circ x ∧ onion (f x) = onion x ∧ (retired x = true → retired (f x) = true).

Lemma heap_update c p f q :
  heap (update p f c) q = if decide (q = p) then f (heap c p) else heap c q.
Proof. done. Qed.

Lemma mild_heap c p f q : mild f →
  circ (heap (update p f c) q) = circ (heap c q) ∧
  onion (heap (update p f c) q) = onion (heap c q) ∧
  (is_reusable (update p f c) q = true → is_reusable c q = true).
Proof.
  intros Hf. unfold is_reusable. rewrite heap_update. case_decide; [|done]. subst.
  destruct (Hf (heap c p)) as (-> & -> & Hr). split_and!; [done..|].
  destruct (retired (heap c p)); [|done]. by rewrite Hr.
Qed.

Lemma slot_update c p f q : mild f → slot (update p f c) q = slot c q.
Proof. intros Hf. unfold slot. by rewrite (proj1 (proj2 (mild_heap c p f q Hf))). Qed.

Lemma update_wf c p f : mild f → wf c → wf (update p f c).
Proof.
  intros Hf [Hn Hc Ho Hi Hl Hcap Hocap].
  assert (∀ q, circ (heap (update p f c) q) = circ (heap c q)) as Ec by (intros; by apply mild_heap).
  assert (∀ q, onion (heap (update p f c) q) = onion (heap c q)) as Eo by (intros; by apply mild_heap).
  split; try done.
  - intros q. rewrite Eo. apply Hc.
  - intros h l Hl'. setoid_rewrite Eo. by apply Ho.
  - intros q r. rewrite !Ec. apply Hi.
  - intros q Hq. unfold pooled. rewrite slot_update, Ec by done. by apply Hl.
  - etrans; [|exact Hcap]. apply length_filter_weaker. intros q _. by apply mild_heap.
  - intros h. etrans; [|exact (Hocap h)]. apply length_filter_weaker. intros q _. by apply mild_heap.
Qed.

Lemma mild_streams n : mild (λ x, set_streams (n x) x).
Proof. by intros x. Qed.
Lemma mild_retired : mild set_retired.
Proof. by intros x. Qed.

(** ** Removal *)

Lemma removeLocked_frame c p :
  heap (removeLocked p c) = heap c ∧ next (removeLocked p c) = next c ∧
  world (removeLocked p c) = world c ∧ maxDirty (removeLocked p c) = maxDirty c.
Proof. unfold removeLocked. repeat case_decide; done. Qed.

(** Every slice loses [p] and nothing else. *)
Lemma removeLocked_slot c p q : wf c → p < next c →
  ∀ x, x ∈ slot (removeLocked p c) q ↔ x ∈ slot c q ∧ x ≠ p.
Proof.
  intros Hwf Hp x. destruct (removeLocked_frame c p) as (Hh & _). unfold slot. rewrite Hh.
  assert (∀ h, x ∈ default [] (onionPool c !! h) → x = p → h = onion (heap c p)) as Hx.
  { intros h. destruct (onionPool c !! h) as [l|] eqn:El; simpl; [|set_solver].
    intros Hin ->. destruct (wf_onion _ Hwf _ _ El) as (_ & _ & _ & H). symmetry. exact (proj2 (H _ Hin)). }
  assert (onion (heap c p) ≠ [] → x ∈ clearnetPool c → x ≠ p) as Hxc
    by (intros Hne Hin ->; by apply Hne, (proj2 (wf_clear _ Hwf _ Hin))).
  unfold removeLocked. destruct (decide (onion (heap c p) = [])) as [Hop|Hop].
  - simpl. destruct (decide (onion (heap c q) = [])) as [Hoq|Hoq]; [apply removePooled_elem|].
    split; [|by intros [? _]].
    intros Hin. split; [done|]. intros ->. by apply Hoq; rewrite (Hx _ Hin).
  - destruct (decide (onion (heap c q) = [])) as [Hoq|Hoq].
    { assert (∀ m, clearnetPool (set_onion m c) = clearnetPool c) as Hsame by done.
      case_decide; rewrite Hsame; (split; [|by intros [? _]]); intros ?; (split; [done|by apply Hxc]). }
    destruct (decide (onion (heap c q) = onion (heap c p))) as [E|E].
    + rewrite E. rewrite <-removePooled_elem.
      case_decide as Hr; simpl; [|by rewrite lookup_insert_eq].
      apply length_zero_iff_nil in Hr. by rewrite lookup_delete_eq, Hr.
    + assert (x ∈ default [] (onionPool c !! onion (heap c q)) → x ≠ p) as Hxp
        by (intros Hin ->; by apply E, Hx).
      case_decide; simpl; [rewrite lookup_delete_ne by done|rewrite lookup_insert_ne by done]; tauto.
Qed.

Lemma removeLocked_sublists c p h :
  (∀ (f : nat → bool), length (List.filter f (clearnetPool (removeLocked p c))) ≤
        length (List.filter f (clearnetPool c))) ∧
  (∀ (f : nat → bool), length (List.filter f (default [] (onionPool (removeLocked p c) !! h))) ≤
        length (List.filter f (default [] (onionPool c !! h)))).
Proof.
  unfold removeLocked. case_decide as Ho; simpl.
  - split; [intros; apply filter_remove_le|done].
  - case_decide as Hl; simpl; (split; [done|]); intros f.
    + destruct (decide (h = onion (heap c p))) as [->|]; [rewrite lookup_delete_eq; simpl; lia|].
      by rewrite lookup_delete_ne.
    + destruct (decide (h = onion (heap c p))) as [->|]; [|by rewrite lookup_insert_ne].
      rewrite lookup_insert_eq. simpl. apply filter_remove_le.
Qed.

Lemma destroyLocked_frame c p :
  heap (destroyLocked p c) = heap c ∧ next (destroyLocked p c) = next c ∧
  world (destroyLocked p c) = Destroy (circ (heap c p)) (world c) ∧
  maxDirty (destroyLocked p c) = maxDirty c.
Proof. unfold destroyLocked. apply (removeLocked_frame (set_world _ c)). Qed.

Lemma set_world_wf c w :
  (∀ p, p < next c → Closed (circ (heap c p)) (world c) = true → Closed (circ (heap c p)) w = true) →
  wf c → wf (set_world w c).
Proof.
  intros Hw [Hn Hc Ho Hi Hl Hcap Hocap]. split; try done.
  intros p Hp. destruct (Hl p Hp) as [?|?]; [by left|right; by apply Hw].
Qed.

Lemma Destroy_mono k j w : Closed j w = true → Closed j (Destroy k w) = true.
Proof.
  intros H. destruct (decide (j = k)) as [->|]; [apply Destroy_closes|by rewrite Destroy_other].
Qed.

Lemma destroyLocked_slot c p q : wf c → p < next c →
  ∀ x, x ∈ slot (destroyLocked p c) q ↔ x ∈ slot c q ∧ x ≠ p.
Proof.
  intros Hwf Hp x. unfold destroyLocked. rewrite removeLocked_slot; [done| |done].
  apply set_world_wf; [|done]. intros. by apply Destroy_mono.
Qed.

Lemma removeLocked_structure c p : wf c →
  NoDup (clearnetPool (removeLocked p c)) ∧
  (clearnetPool (removeLocked p c) ⊆ clearnetPool c) ∧
  ∀ h l, onionPool (removeLocked p c) !! h = Some l →
    l ≠ [] ∧ NoDup l ∧ ∃ l', onionPool c !! h = Some l' ∧ l ⊆ l'.
Proof.
  intros [Hn Hc Ho _ _ _ _].
  assert (∀ h l, onionPool c !! h = Some l → l ≠ [] ∧ NoDup l ∧ ∃ l', onionPool c !! h = Some l' ∧ l ⊆ l')
    as Hsame by (intros h l E; destruct (Ho _ _ E) as (_ & ? & ? & _); split_and!; [done..|by exists l]).
  unfold removeLocked. case_decide as Hop; simpl.
  { split_and!; [by apply NoDup_filter_bool|intros x; rewrite removePooled_elem; tauto|done]. }
  case_decide as Hl; simpl; (split_and!; [done..|]); intros h l.
  - rewrite lookup_delete_Some. intros [_ ?]. by apply Hsame.
  - rewrite lookup_insert_Some. intros [[<- <-]|[_ ?]]; [|by apply Hsame].
    destruct (onionPool c !! onion (heap c p)) as [l0|] eqn:E; [|done].
    destruct (Ho _ _ E) as (_ & _ & Hnd & _). change (default [] (Some l0)) with l0 in *.
    split_and!; [intros Hz; by rewrite Hz in Hl|by apply NoDup_filter_bool|].
    exists l0. split; [done|]. intros x. rewrite removePooled_elem. tauto.
Qed.

Lemma destroyLocked_wf c p : p < next c → wf c → wf (destroyLocked p c).
Proof.
  intros Hp Hwf. destruct (destroyLocked_frame c p) as (Hh & Hnx & Hw & Hmd).
  pose proof (λ q, destroyLocked_slot c p q Hwf Hp) as Hslot.
  set (c1 := set_world (Destroy (circ (heap c p)) (world c)) c).
  assert (wf c1) as Hwf1 by (apply set_world_wf; [intros; by apply Destroy_mono|done]).
  destruct (removeLocked_structure c1 p Hwf1) as (Hnd & Hsub & Hon).
  fold (destroyLocked p c) in Hnd, Hsub, Hon.
  pose proof (removeLocked_sublists c1 p) as Hle. unfold c1 in Hle. fold (destroyLocked p c) in Hle.
  destruct Hwf as [_ Hc Ho Hi Hl Hcap Hocap]. split; rewrite ?Hh, ?Hnx, ?Hw.
  - exact Hnd.
  - intros q Hq. by apply Hc, Hsub.
  - intros h l Hhl. destruct (Hon h l Hhl) as (? & ? & l' & Hl' & Hs).
    destruct (Ho h l' Hl') as (? & _ & _ & Hm). split_and!; [done..|]. intros q Hq. by apply Hm, Hs.
  - done.
  - intros q Hq. unfold pooled. rewrite Hslot. destruct (decide (q = p)) as [->|Hne].
    + right. apply Destroy_closes.
    + rewrite Destroy_other by (intros E; by apply Hne, Hi). destruct (Hl q Hq); tauto.
  - unfold reusableClearnetLocked in *. etrans; [|exact Hcap].
    unfold is_reusable. rewrite Hh. apply (Hle []).
  - intros h. unfold reusableOnionLocked in *. etrans; [|exact (Hocap h)].
    unfold is_reusable. rewrite Hh. apply (Hle h).
Qed.

(** ** New circuits *)

Definition fresh (k : nat) c : Prop := ∀ p, p < next c → circ (heap c p) ≠ k.

Lemma filter_reusable_ext c c' l :
  (∀ q, q ∈ l → retired (heap c' q) = retired (heap c q)) →
  List.filter (is_reusable c') l = List.filter (is_reusable c) l.
Proof.
  intros H. apply List.filter_ext_in. intros q Hq. unfold is_reusable. f_equal.
  apply H. by apply list_elem_of_In.
Qed.

Lemma onion_slice_lt c h p : wf c → p ∈ default [] (onionPool c !! h) → p < next c ∧ onion (heap c p) = h.
Proof.
  intros Hwf. destruct (onionPool c !! h) as [l|] eqn:E; simpl; [|set_solver].
  by apply (wf_onion _ Hwf _ _ E).
Qed.

(** The entry is retired exactly when the pool was at capacity before. *)
Lemma insertClearnet_eq now k md c : wf c →
  let c' := (insertClearnet now k md c).2 in
  (insertClearnet now k md c).1 = next c ∧
  clearnetPool c' = clearnetPool c ++ [next c] ∧ onionPool c' = onionPool c ∧
  next c' = S (next c) ∧ world c' = world c ∧ maxDirty c' = maxDirty c ∧
  ∀ q, heap c' q = if decide (q = next c)
                   then mkPooled k now [] md 1 (retireNewClearnetLocked c) else heap c q.
Proof.
  intros Hwf. unfold insertClearnet. set (c1 := alloc _ c).
  assert (retireNewClearnetLocked c1 = retireNewClearnetLocked c) as ->.
  { unfold retireNewClearnetLocked, reusableClearnetLocked. do 2 f_equal.
    apply filter_reusable_ext. intros q Hq. subst c1. simpl. rewrite decide_False; [done|].
    apply (wf_clear _ Hwf) in Hq. lia. }
  destruct (retireNewClearnetLocked c); split_and!; try done.
  intros q. simpl. rewrite (decide_True (P := next c = next c)) by done. repeat case_decide; done.
Qed.

Lemma insertOnion_eq now h k c : wf c →
  let c' := (insertOnion now h k c).2 in
  (insertOnion now h k c).1 = next c ∧
  clearnetPool c' = clearnetPool c ∧
  onionPool c' = <[h := default [] (onionPool c !! h) ++ [next c]]> (onionPool c) ∧
  next c' = S (next c) ∧ world c' = world c ∧ maxDirty c' = maxDirty c ∧
  ∀ q, heap c' q = if decide (q = next c)
                   then mkPooled k now h zeroMicrodescriptor 1 (retireNewOnionLocked h c)
                   else heap c q.
Proof.
  intros Hwf. unfold insertOnion. set (c1 := alloc _ c).
  assert (retireNewOnionLocked h c1 = retireNewOnionLocked h c) as ->.
  { unfold retireNewOnionLocked, reusableOnionLocked. do 3 f_equal.
    apply filter_reusable_ext. intros q Hq. subst c1. simpl in Hq |- *. rewrite decide_False; [done|].
    apply (onion_slice_lt _ _ _ Hwf) in Hq. lia. }
  destruct (retireNewOnionLocked h c); split_and!; try done.
  intros q. simpl. rewrite (decide_True (P := next c = next c)) by done. repeat case_decide; done.
Qed.

Lemma filter_snoc_reusable c l p :
  length (List.filter (is_reusable c) (l ++ [p])) =
  length (List.filter (is_reusable c) l) + (if retired (heap c p) then 0 else 1).
Proof.
  rewrite List.filter_app, length_app. f_equal. simpl. unfold is_reusable. by destruct (retired _).
Qed.

Lemma insertClearnet_wf now k md c :
  fresh k c → wf c → wf (insertClearnet now k md c).2.
Proof.
  intros Hk Hwf. destruct (insertClearnet_eq now k md c Hwf) as (_ & Hcl & Hon & Hnx & Hw & _ & Hh).
  set (c' := (insertClearnet now k md c).2) in *. clearbody c'.
  assert (∀ q, q < next c → heap c' q = heap c q) as Hold by (intros; rewrite Hh; by rewrite decide_False by lia).
  assert (∀ l, (∀ q, q ∈ l → q < next c) →
    List.filter (is_reusable c') l = List.filter (is_reusable c) l) as Hfl.
  { intros l Hl. apply filter_reusable_ext. intros. by rewrite Hold by auto. }
  pose proof Hwf as [Hn Hc Ho Hi Hl Hcap Hocap]. split.
  - rewrite Hcl, list.NoDup_app. split_and!; [done| |apply NoDup_singleton].
    intros q Hq. rewrite list_elem_of_singleton. apply Hc in Hq. lia.
  - intros q. rewrite Hcl, Hnx, elem_of_app, list_elem_of_singleton. intros [Hq| ->].
    + destruct (Hc q Hq). rewrite Hold by lia. split; [lia|done].
    + rewrite Hh, (decide_True (P := next c = next c)) by done. split; [lia|done].
  - intros h l. rewrite Hon, Hnx. intros E. destruct (Ho h l E) as (? & ? & ? & Hm). split_and!; [done..|].
    intros q Hq. destruct (Hm q Hq). rewrite Hold by done. split; [lia|done].
  - rewrite Hnx. intros p q Hp Hq. rewrite !Hh. repeat case_decide; simpl; subst; try done.
    + intros E. exfalso. apply (Hk q); [lia|done].
    + intros E. exfalso. apply (Hk p); [lia|done].
    + apply Hi; lia.
  - rewrite Hnx, Hw. intros q Hq. destruct (decide (q = next c)) as [->|Hne].
    + left. unfold pooled, slot. rewrite Hh, (decide_True (P := next c = next c)) by done. simpl. rewrite Hcl. set_solver.
    + assert (q < next c) by lia. unfold pooled, slot. rewrite Hold, Hcl, Hon by done.
      destruct (Hl q) as [Hp|]; [done| |by right]. left. unfold pooled, slot in Hp.
      case_decide; [set_solver|done].
  - unfold reusableClearnetLocked. rewrite Hcl, filter_snoc_reusable, Hfl by (intros; by apply Hc).
    fold (reusableClearnetLocked c). rewrite Hh, (decide_True (P := next c = next c)) by done. simpl.
    unfold retireNewClearnetLocked. destruct (Nat.leb_spec maxClearnetCircuits (reusableClearnetLocked c)); lia.
  - intros h. unfold reusableOnionLocked. rewrite Hon, Hfl by (intros q; by apply onion_slice_lt).
    apply Hocap.
Qed.

Lemma insertOnion_wf now h k c :
  h ≠ [] → fresh k c → wf c → wf (insertOnion now h k c).2.
Proof.
  intros Hne Hk Hwf. destruct (insertOnion_eq now h k c Hwf) as (_ & Hcl & Hon & Hnx & Hw & _ & Hh).
  set (c' := (insertOnion now h k c).2) in *. clearbody c'.
  assert (∀ q, q < next c → heap c' q = heap c q) as Hold by (intros; rewrite Hh; by rewrite decide_False by lia).
  assert (∀ l, (∀ q, q ∈ l → q < next c) →
    List.filter (is_reusable c') l = List.filter (is_reusable c) l) as Hfl.
  { intros l Hl. apply filter_reusable_ext. intros. by rewrite Hold by auto. }
  pose proof Hwf as [Hn Hc Ho Hi Hl Hcap Hocap]. split.
  - by rewrite Hcl.
  - intros q. rewrite Hcl, Hnx. intros Hq. destruct (Hc q Hq). rewrite Hold by done. split; [lia|done].
  - intros h' l. rewrite Hon, Hnx, lookup_insert_Some. intros [[<- <-]|[_ E]].
    + split_and!; [done|by destruct (default _ _)| |].
      * apply list.NoDup_app. split_and!; [|intros q Hq; apply (onion_slice_lt _ _ _ Hwf) in Hq;
          rewrite list_elem_of_singleton; lia|apply NoDup_singleton].
        destruct (onionPool c !! h) eqn:E; [by apply (Ho h _ E)|apply NoDup_nil_2].
      * intros q. rewrite elem_of_app, list_elem_of_singleton. intros [Hq| ->].
        -- destruct (onion_slice_lt _ _ _ Hwf Hq). rewrite Hold by done. split; [lia|done].
        -- rewrite Hh, (decide_True (P := next c = next c)) by done. split; [lia|done].
    + destruct (Ho h' l E) as (? & ? & ? & Hm). split_and!; [done..|].
      intros q Hq. destruct (Hm q Hq). rewrite Hold by done. split; [lia|done].
  - rewrite Hnx. intros p q Hp Hq. rewrite !Hh. repeat case_decide; simpl; subst; try done.
    + intros E. exfalso. apply (Hk q); [lia|done].
    + intros E. exfalso. apply (Hk p); [lia|done].
    + apply Hi; lia.
  - rewrite Hnx, Hw. intros q Hq. destruct (decide (q = next c)) as [->|Hne'].
    + left. unfold pooled, slot. rewrite Hh, (decide_True (P := next c = next c)) by done. simpl. rewrite decide_False by done.
      rewrite Hon, lookup_insert_eq. simpl. set_solver.
    + assert (q < next c) by lia. unfold pooled, slot. rewrite Hold, Hcl, Hon by done.
      destruct (Hl q) as [Hp|]; [done| |by right]. left. unfold pooled, slot in Hp.
      case_decide; [done|]. destruct (decide (h = onion (heap c q))) as [->|].
      * rewrite lookup_insert_eq. simpl. set_solver.
      * by rewrite lookup_insert_ne.
  - unfold reusableClearnetLocked. rewrite Hcl, Hfl by (intros; by apply Hc). exact Hcap.
  - intros h'. unfold reusableOnionLocked. rewrite Hon. destruct (decide (h = h')) as [<-|].
    + rewrite lookup_insert_eq. change (default [] (Some ?l)) with l.
      rewrite filter_snoc_reusable, Hfl by (intros q; by apply onion_slice_lt).
      fold (reusableOnionLocked h c). rewrite Hh, (decide_True (P := next c = next c)) by done. cbn [retired].
      unfold retireNewOnionLocked. specialize (Hocap h).
      destruct (Nat.leb_spec maxOnionCircuitsPerHost (reusableOnionLocked h c)); simpl orb; cbn iota;
        [lia|]. destruct (_ && _); lia.
    + rewrite lookup_insert_ne by done. rewrite Hfl by (intros q; by apply onion_slice_lt). apply Hocap.
Qed.

(** ** The snapshot *)

(** An order in which Go may range over the onion map. *)
Definition map_order (hosts : list bytes) c : Prop := ∀ h, h ∈ hosts ↔ is_Some (onionPool c !! h).

Lemma allPooled_elem hosts c p : wf c → map_order hosts c →
  p ∈ allPooledLocked hosts c ↔ p < next c ∧ pooled c p.
Proof.
  intros Hwf Ho. unfold allPooledLocked, pooled, slot. rewrite elem_of_app, list_elem_of_bind.
  split.
  - intros [Hp|(h & Hp & Hh)].
    + destruct (wf_clear _ Hwf _ Hp) as [? Hon]. by rewrite decide_True.
    + destruct (onion_slice_lt _ _ _ Hwf Hp) as [? Hon]. split; [done|].
      apply Ho in Hh as [l Hl]. rewrite Hon, Hl. destruct (wf_onion _ Hwf _ _ Hl) as [? _].
      rewrite Hl in Hp. by rewrite decide_False.
  - intros [_ Hp]. case_decide; [by left|]. right. exists (onion (heap c p)). split; [done|].
    apply Ho. destruct (onionPool c !! _); [done|set_solver].
Qed.

(** ** Slots handed out *)

Definition slots_out (hs : list nat) p : Z := Z.of_nat (length (List.filter (Nat.eqb p) hs)).

Lemma slots_out_cons q hs p : slots_out (q :: hs) p = (slots_out hs p + (if decide (p = q) then 1 else 0))%Z.
Proof.
  unfold slots_out. simpl. destruct (Nat.eqb_spec p q); case_decide; simpl; lia.
Qed.

Lemma slots_out_perm hs hs' p : hs ≡ₚ hs' → slots_out hs p = slots_out hs' p.
Proof. intros H. unfold slots_out. f_equal. apply Permutation_length. induction H; simpl; repeat case_match; eauto using Permutation. Qed.

Lemma slots_out_pos hs p : p ∈ hs → (0 < slots_out hs p)%Z.
Proof.
  induction hs as [|q hs IH]; [set_solver|]. rewrite slots_out_cons, elem_of_cons. unfold slots_out in *.
  intros [->|H]; [rewrite decide_True by done; lia|]. specialize (IH H). case_decide; lia.
Qed.

(** The counters agree with the slots [hs] that are out. *)
Record accounted c (hs : list nat) : Prop := {
  acc_wf : wf c;
  acc_streams p : p < next c → streams (heap c p) = slots_out hs p;
  acc_alloc p : p ∈ hs → p < next c
}.

Lemma acquire_from_Some now m ps c p c' :
  acquire_from now m ps c = (Some p, c') →
  p ∈ ps ∧ Closed (circ (heap c p)) (world c) = false ∧ retired (heap c p) = false ∧
  (time_Sub now (born (heap c p)) < maxDirty c)%Z ∧ m (heap c p) = true ∧
  c' = incr_reused (update p (λ x, set_streams (streams x + 1) x) c).
Proof using Type.
  induction ps as [|q ps IH]; simpl; [done|]. destruct (circuitReusable _ _ _ _ _ _) eqn:E.
  - intros H. injection H as <- <-. unfold circuitReusable in E. bools. split_and!; try done. by left.
  - intros H. destruct (IH H) as (? & ?). split; [by right|done].
Qed.

Lemma acquire_from_None now m ps c c' : acquire_from now m ps c = (None, c') → c' = c.
Proof.
  induction ps as [|q ps IH]; simpl; [by intros [= <-]|]. by destruct (circuitReusable _ _ _ _ _ _).
Qed.

Lemma incr_reused_wf c : wf (incr_reused c) ↔ wf c.
Proof. split; intros [? ? ? ? ? ? ?]; by split. Qed.

Lemma acquired_accounted c hs p :
  p < next c → accounted c hs →
  accounted (incr_reused (update p (λ x, set_streams (streams x + 1) x) c)) (p :: hs).
Proof.
  intros Hp [Hwf Hs Ha]. split.
  - apply incr_reused_wf, (update_wf c p _ (mild_streams (λ x, streams x + 1)%Z) Hwf).
  - intros q Hq. rewrite slots_out_cons. simpl in Hq |- *. case_decide; subst; simpl; rewrite Hs by done; lia.
  - intros q. rewrite elem_of_cons. intros [->|?]; [done|by apply Ha].
Qed.

Lemma inserted_accounted c c' hs p pc0 :
  wf c' → p = next c → next c' = S (next c) → streams pc0 = 1%Z →
  (∀ q, heap c' q = if decide (q = next c) then pc0 else heap c q) →
  accounted c hs → accounted c' (p :: hs).
Proof.
  intros Hwf' -> Hn Hpc Hh [Hwf Hs Ha]. split; [done| |].
  - intros q Hq. rewrite slots_out_cons, Hh. case_decide; subst.
    + assert (slots_out hs (next c) = 0)%Z as ->; [|lia].
      unfold slots_out. destruct (List.filter _ hs) as [|x l] eqn:E; [done|].
      assert (x ∈ hs ∧ (next c =? x) = true) as [Hx Hx'].
      { rewrite list_elem_of_In, <-List.filter_In, E. by left. }
      apply Ha in Hx. bools. lia.
    + rewrite Hs by lia. lia.
  - intros q. rewrite elem_of_cons. intros [->|Hq]; [lia|]. apply Ha in Hq. lia.
Qed.

Lemma destroyed_accounted c hs p : p < next c → accounted c hs → accounted (destroyLocked p c) hs.
Proof.
  intros Hp [Hwf Hs Ha]. destruct (destroyLocked_frame c p) as (Hh & Hn & _).
  split; [by apply destroyLocked_wf|by rewrite Hh, Hn|by rewrite Hn].
Qed.

Lemma retired_accounted c hs p : accounted c hs → accounted (update p set_retired c) hs.
Proof.
  intros [Hwf Hs Ha]. split; [by apply update_wf|intros q Hq|done]. simpl in Hq |- *.
  case_decide; subst; simpl; by apply Hs.
Qed.

Lemma world_accounted c hs w :
  (∀ p, p < next c → Closed (circ (heap c p)) (world c) = true → Closed (circ (heap c p)) w = true) →
  accounted c hs → accounted (set_world w c) hs.
Proof. intros Hw [? ? ?]. split; [by apply set_world_wf|done..]. Qed.

(** The first half of [releaseStream]: the slot is given back. *)
Lemma slot_returned c hs p :
  p ∈ hs → accounted c hs → ∀ hs', hs ≡ₚ p :: hs' →
  let c1 := if (0 <? streams (heap c p))%Z
            then update p (λ x, set_streams (streams x - 1) x) c else c in
  accounted c1 hs' ∧ next c1 = next c ∧ world c1 = world c ∧
  (∀ q, circ (heap c1 q) = circ (heap c q) ∧ retired (heap c1 q) = retired (heap c q) ∧
        onion (heap c1 q) = onion (heap c q)) ∧ (∀ q, slot c1 q = slot c q).
Proof.
  intros Hp [Hwf Hs Ha] hs' Hperm. pose proof (Ha p Hp) as Hlt.
  rewrite (Hs p Hlt). pose proof (slots_out_pos hs p Hp) as Hpos.
  destruct (Z.ltb_spec 0 (slots_out hs p)); [|lia]. cbv zeta. split_and!; try done.
  - split.
    + apply (update_wf c p _ (mild_streams (λ x, streams x - 1)%Z) Hwf).
    + intros q Hq. simpl in Hq |- *. pose proof (slots_out_perm _ _ q Hperm) as Hq'.
      rewrite slots_out_cons in Hq'. case_decide; subst; simpl; rewrite ?decide_True, ?decide_False in Hq' by done;
        rewrite Hs by done; lia.
    + intros q Hq. apply Ha. rewrite Hperm. set_solver.
  - intros q. simpl. case_decide; by subst.
  - intros q. apply (slot_update c p _ q (mild_streams (λ x, streams x - 1)%Z)).
Qed.

Lemma released_accounted now c hs p hs' :
  hs ≡ₚ p :: hs' → accounted c hs → accounted (releaseStream now p c) hs'.
Proof.
  intros Hperm Hacc. assert (p ∈ hs) as Hp by (rewrite Hperm; set_solver).
  destruct (slot_returned c hs p Hp Hacc hs' Hperm) as (Hacc1 & Hn & _).
  unfold releaseStream. set (c1 := if (0 <? _)%Z then _ else c) in *. clearbody c1.
  destruct (_ && _); [|done]. apply destroyed_accounted; [|done]. rewrite Hn. by apply (acc_alloc _ _ Hacc).
Qed.

(** Loops over a snapshot. *)
Lemma foldl_accounted (f : Client → nat → Client) hs l c :
  (∀ c p, p < next c → accounted c hs → accounted (f c p) hs ∧ next (f c p) = next c) →
  (∀ p, p ∈ l → p < next c) → accounted c hs →
  accounted (foldl f c l) hs ∧ next (foldl f c l) = next c.
Proof.
  intros Hf. revert c. induction l as [|p l IH]; intros c Hl Hc; simpl; [done|].
  destruct (Hf c p) as [H1 H2]; [apply Hl; set_solver|done|].
  destruct (IH (f c p)) as [H3 H4]; [intros q Hq; rewrite H2; apply Hl; set_solver|done|].
  split; [done|]. by rewrite H4, H2.
Qed.

Lemma reap_one_accounted now c hs p :
  p < next c → accounted c hs → accounted (reap_one now c p) hs ∧ next (reap_one now c p) = next c.
Proof.
  intros Hp Hacc. unfold reap_one. destruct (_ || _); [|done].
  split; [by apply destroyed_accounted|apply destroyLocked_frame].
Qed.

Lemma retire_one_accounted c hs p :
  p < next c → accounted c hs → accounted (retire_one c p) hs ∧ next (retire_one c p) = next c.
Proof.
  intros Hp Hacc. unfold retire_one. pose proof (retired_accounted c hs p Hacc) as H1.
  destruct (_ =? 0)%Z; [|done]. split; [by apply destroyed_accounted|].
  exact (proj1 (proj2 (destroyLocked_frame (update p set_retired c) p))).
Qed.

Lemma snapshot_lt hosts c : wf c → map_order hosts c → ∀ p, p ∈ allPooledLocked hosts c → p < next c.
Proof. intros Hwf Ho p Hp. by apply (allPooled_elem hosts c p Hwf Ho) in Hp as [? _]. Qed.

(** ** Runs *)

(** One critical section, or a change of the world (a circuit closes or a new
    one is built), with the slots that are out. *)
Inductive step : Client * list nat → Client * list nat → Prop :=
| S_acquireClearnet now port c hs p c' :
    acquireClearnet now port c = (Some p, c') → step (c, hs) (c', p :: hs)
| S_acquireOnion now host c hs p c' :
    acquireOnion now host c = (Some p, c') → step (c, hs) (c', p :: hs)
| S_insertClearnet now k md c hs p c' :
    fresh k c → insertClearnet now k md c = (p, c') → step (c, hs) (c', p :: hs)
| S_insertOnion now host k c hs p c' :
    host ≠ [] → fresh k c → insertOnion now host k c = (p, c') → step (c, hs) (c', p :: hs)
| S_release now p c hs hs' :
    hs ≡ₚ p :: hs' → step (c, hs) (releaseStream now p c, hs')
| S_reap now hosts c hs :
    map_order hosts c → step (c, hs) (reap now hosts c, hs)
| S_retireAll hosts c hs :
    map_order hosts c → step (c, hs) (retireAll hosts c, hs)
| S_destroyAll hosts c hs :
    map_order hosts c → step (c, hs) (destroyAll hosts c, hs)
| S_world w c hs :
    (∀ p, p < next c → Closed (circ (heap c p)) (world c) = true → Closed (circ (heap c p)) w = true) →
    step (c, hs) (set_world w c, hs).

Lemma step_accounted s s' : step s s' → accounted s.1 s.2 → accounted s'.1 s'.2.
Proof.
  destruct 1 as [now port c hs p c' H|now h c hs p c' H|now k md c hs p c' Hk H|now h k c hs p c' Hh Hk H
    |now p c hs hs' H|now hosts c hs H|hosts c hs H|hosts c hs H|w c hs H]; simpl; intros Hacc;
    pose proof (acc_wf _ _ Hacc) as Hwf.
  - apply acquire_from_Some in H as (Hp & _ & _ & _ & _ & ->).
    apply acquired_accounted; [by apply (wf_clear _ Hwf)|done].
  - apply acquire_from_Some in H as (Hp & _ & _ & _ & _ & ->).
    apply acquired_accounted; [by eapply onion_slice_lt|done].
  - destruct (insertClearnet_eq now k md c Hwf) as (H1 & _ & _ & H2 & _ & _ & H3).
    pose proof (insertClearnet_wf now k md c Hk Hwf) as H4. rewrite H in H1, H2, H3, H4. simpl in *.
    eapply inserted_accounted; [exact H4|exact H1|exact H2| |exact H3|exact Hacc]. done.
  - destruct (insertOnion_eq now h k c Hwf) as (H1 & _ & _ & H2 & _ & _ & H3).
    pose proof (insertOnion_wf now h k c Hh Hk Hwf) as H4. rewrite H in H1, H2, H3, H4. simpl in *.
    eapply inserted_accounted; [exact H4|exact H1|exact H2| |exact H3|exact Hacc]. done.
  - by eapply released_accounted.
  - apply foldl_accounted; [intros; by apply reap_one_accounted|by apply snapshot_lt|done].
  - apply foldl_accounted; [intros; by apply retire_one_accounted|by apply snapshot_lt|done].
  - apply foldl_accounted; [|by apply snapshot_lt|done]. intros c0 q Hq Hc0.
    split; [by apply destroyed_accounted|apply destroyLocked_frame].
  - by apply world_accounted.
Qed.

(** The janitor, whatever order it ranges over the hosts in, keeps the accounts. *)
Fixpoint ticks_ordered (evs : list janitor_event) c : Prop :=
  match evs with
  | Tick now hosts :: evs => map_order hosts c ∧ ticks_ordered evs (reap now hosts c)
  | _ => True
  end.
Lemma maintain_accounted evs c hs : ticks_ordered evs c → accounted c hs → accounted (maintain evs c) hs.
Proof.
  revert c. induction evs as [|[now hosts|] evs IH]; intros c; [done| |done]. intros [Ho Hr] Hacc. apply IH; [done|].
  by apply (step_accounted (c, hs) (reap now hosts c, hs)); [constructor|].
Qed.

(** A client with an empty pool, as [NewClient] makes it. *)
Definition empty_pool c : Prop := clearnetPool c = [] ∧ onionPool c = ∅ ∧ next c = 0.

Lemma empty_accounted c : empty_pool c → accounted c [].
Proof.
  intros (H1 & H2 & H3). split; [|intros; lia|set_solver]. split.
  - rewrite H1. apply NoDup_nil_2.
  - rewrite H1. set_solver.
  - rewrite H2. intros h l Hl. by apply lookup_empty_Some in Hl.
  - intros; lia.
  - intros; lia.
  - unfold reusableClearnetLocked. rewrite H1. apply Nat.le_0_l.
  - intros h. unfold reusableOnionLocked. rewrite H2. apply Nat.le_0_l.
Qed.

(** ** What one section does to the circuits already there *)

Lemma destroyLocked_pooled c p q : wf c → p < next c → pooled (destroyLocked p c) q → pooled c q ∧ q ≠ p.
Proof. intros Hwf Hp. unfold pooled. by apply destroyLocked_slot. Qed.

(** Existing circuits stay retired, and do not come back to the pool. *)
Definition shrinks c c' : Prop :=
  next c ≤ next c' ∧
  ∀ p, p < next c → (retired (heap c p) = true → retired (heap c' p) = true) ∧
                    (pooled c' p → pooled c p).

Lemma shrinks_refl c : shrinks c c.
Proof. split; [lia|done]. Qed.
Lemma shrinks_trans c1 c2 c3 : shrinks c1 c2 → shrinks c2 c3 → shrinks c1 c3.
Proof.
  intros [Hn1 H1] [Hn2 H2]. split; [lia|]. intros p Hp.
  destruct (H1 p Hp), (H2 p ltac:(lia)). auto.
Qed.

Lemma update_shrinks c p f : mild f → shrinks c (update p f c).
Proof.
  intros Hf. split; [done|]. intros q _. unfold pooled. rewrite slot_update by done. split; [|done].
  rewrite heap_update. case_decide; subst; [apply Hf|done].
Qed.

Lemma destroy_shrinks c p : wf c → p < next c → shrinks c (destroyLocked p c).
Proof.
  intros Hwf Hp. destruct (destroyLocked_frame c p) as (Hh & Hn & _). split; [lia|].
  intros q _. rewrite Hh. split; [done|]. intros H. by apply destroyLocked_pooled in H as [? _].
Qed.

Lemma retire_one_shrinks c p : wf c → p < next c → shrinks c (retire_one c p).
Proof.
  intros Hwf Hp. unfold retire_one. pose proof (update_shrinks c p _ mild_retired) as Hu.
  destruct (_ =? 0)%Z; [|done]. eapply shrinks_trans; [exact Hu|].
  apply destroy_shrinks; [|done]. apply update_wf; [apply mild_retired|done].
Qed.

Lemma reap_one_shrinks now c p : wf c → p < next c → shrinks c (reap_one now c p).
Proof.
  intros Hwf Hp. unfold reap_one. destruct (_ || _); [by apply destroy_shrinks|apply shrinks_refl].
Qed.

Lemma foldl_shrinks (f : Client → nat → Client) hs l c :
  (∀ c p, p < next c → accounted c hs → accounted (f c p) hs ∧ next (f c p) = next c) →
  (∀ c p, wf c → p < next c → shrinks c (f c p)) →
  (∀ p, p ∈ l → p < next c) → accounted c hs → shrinks c (foldl f c l).
Proof.
  intros Hf Hs. revert c. induction l as [|p l IH]; intros c Hl Hc; simpl; [apply shrinks_refl|].
  assert (p < next c) by (apply Hl; set_solver). destruct (Hf c p) as [H1 H2]; [done..|].
  eapply shrinks_trans; [apply Hs; [apply Hc|done]|].
  apply IH; [|done]. intros q Hq. rewrite H2. apply Hl. set_solver.
Qed.

Lemma insert_shrinks c c' pc0 :
  next c' = S (next c) →
  (∀ q, heap c' q = if decide (q = next c) then pc0 else heap c q) →
  (∀ q, q < next c → q ∈ slot c' q → q ∈ slot c q) → shrinks c c'.
Proof.
  intros Hn Hh Hs. split; [lia|]. intros q Hq. rewrite Hh, decide_False by lia.
  split; [done|by apply Hs].
Qed.

Lemma insertClearnet_slot now k md c q : wf c → q < next c →
  q ∈ slot (insertClearnet now k md c).2 q → q ∈ slot c q.
Proof.
  intros Hwf Hq. destruct (insertClearnet_eq now k md c Hwf) as (_ & Hcl & Hon & _ & _ & _ & Hh).
  unfold slot. rewrite Hh, Hcl, Hon. rewrite (decide_False (P := q = next c)) by lia.
  case_decide; [|done]. rewrite elem_of_app, list_elem_of_singleton. intros [?|?]; [done|lia].
Qed.

Lemma insertOnion_slot now h k c q : wf c → q < next c →
  q ∈ slot (insertOnion now h k c).2 q → q ∈ slot c q.
Proof.
  intros Hwf Hq. destruct (insertOnion_eq now h k c Hwf) as (_ & Hcl & Hon & _ & _ & _ & Hh).
  unfold slot. rewrite Hh, Hcl, Hon. rewrite (decide_False (P := q = next c)) by lia.
  case_decide; [done|]. destruct (decide (h = onion (heap c q))) as [->|Hne];
    [|by rewrite lookup_insert_ne].
  rewrite lookup_insert_eq. change (default [] (Some ?l)) with l.
  rewrite elem_of_app, list_elem_of_singleton. intros [?|?]; [done|lia].
Qed.

Lemma releaseStream_shrinks now c hs p hs' :
  hs ≡ₚ p :: hs' → accounted c hs → shrinks c (releaseStream now p c).
Proof.
  intros Hperm Hacc. assert (p ∈ hs) as Hp by (rewrite Hperm; set_solver).
  destruct (slot_returned c hs p Hp Hacc hs' Hperm) as (Hacc1 & Hn & _ & Hh & Hs).
  unfold releaseStream. set (c1 := if (0 <? _)%Z then _ else c) in *. clearbody c1.
  assert (shrinks c c1) as H1.
  { split; [lia|]. intros q _. unfold pooled. rewrite Hs. destruct (Hh q) as (_ & -> & _). done. }
  destruct (_ && _); [|done]. eapply shrinks_trans; [exact H1|].
  apply destroy_shrinks; [apply Hacc1|]. rewrite Hn. by apply (acc_alloc _ _ Hacc).
Qed.

Lemma step_shrinks s s' : step s s' → accounted s.1 s.2 → shrinks s.1 s'.1.
Proof.
  destruct 1 as [now port c hs p c' H|now h c hs p c' H|now k md c hs p c' Hk H|now h k c hs p c' Hh Hk H
    |now p c hs hs' H|now hosts c hs H|hosts c hs H|hosts c hs H|w c hs H]; simpl; intros Hacc;
    pose proof (acc_wf _ _ Hacc) as Hwf.
  - apply acquire_from_Some in H as (_ & _ & _ & _ & _ & ->).
    apply (update_shrinks c p _ (mild_streams (λ x, streams x + 1)%Z)).
  - apply acquire_from_Some in H as (_ & _ & _ & _ & _ & ->).
    apply (update_shrinks c p _ (mild_streams (λ x, streams x + 1)%Z)).
  - destruct (insertClearnet_eq now k md c Hwf) as (_ & _ & _ & H2 & _ & _ & H3).
    pose proof (λ q, insertClearnet_slot now k md c q Hwf) as Hs.
    rewrite H in H2, H3, Hs. by eapply insert_shrinks.
  - destruct (insertOnion_eq now h k c Hwf) as (_ & _ & _ & H2 & _ & _ & H3).
    pose proof (λ q, insertOnion_slot now h k c q Hwf) as Hs.
    rewrite H in H2, H3, Hs. by eapply insert_shrinks.
  - by eapply releaseStream_shrinks.
  - eapply foldl_shrinks; [intros; by apply reap_one_accounted|intros; by apply reap_one_shrinks
      |by apply snapshot_lt|done].
  - eapply foldl_shrinks; [intros; by apply retire_one_accounted|intros; by apply retire_one_shrinks
      |by apply snapshot_lt|done].
  - eapply foldl_shrinks; [|intros; by apply destroy_shrinks|by apply snapshot_lt|done].
    intros c0 q Hq Hc0. split; [by apply destroyed_accounted|apply destroyLocked_frame].
  - split; [done|]. intros q _. done.
Qed.

Lemma run_accounted s s' : rtc step s s' → accounted s.1 s.2 → accounted s'.1 s'.2 ∧ shrinks s.1 s'.1.
Proof.
  induction 1 as [s|s s1 s2 Hs _ IH]; intros Ha; [split; [done|apply shrinks_refl]|].
  destruct (IH (step_accounted _ _ Hs Ha)) as [H1 H2]. split; [done|].
  eapply shrinks_trans; [by apply step_shrinks|done].
Qed.

(** ** The pool's guarantees *)

(** C32: in every state a client's pool can reach, each circuit's stream count is
    the number of its slots that are out, at most 32 reusable clearnet circuits
    and 8 per onion host are kept, no circuit is in the pool twice, and every
    circuit ever pooled is either still in the pool or closed. *)
Theorem pool_invariant (c0 c : Client) (hs : list nat) :
  empty_pool c0 → rtc step (c0, []) (c, hs) →
  (∀ p, p < next c → streams (heap c p) = slots_out hs p) ∧
  reusableClearnetLocked c ≤ maxClearnetCircuits ∧
  (∀ h, reusableOnionLocked h c ≤ maxOnionCircuitsPerHost) ∧
  NoDup (clearnetPool c) ∧
  ∀ p, p < next c → pooled c p ∨ Closed (circ (heap c p)) (world c) = true.
Proof.
  intros H0 Hr. destruct (run_accounted _ _ Hr (empty_accounted _ H0)) as [[Hwf Hs _] _].
  simpl in Hwf, Hs. destruct Hwf. done.
Qed.

(** Every circuit of the pool is retired or gone after the loop. *)
Lemma retireAll_retires hosts c hs p :
  accounted c hs → map_order hosts c → p < next c →
  retired (heap (retireAll hosts c) p) = true ∨ ¬ pooled (retireAll hosts c) p.
Proof.
  intros Hacc Ho Hp. destruct (decide (p ∈ allPooledLocked hosts c)) as [Hin|Hin].
  2: { right. intros H. apply Hin, (allPooled_elem hosts c p (acc_wf _ _ Hacc) Ho). split; [done|].
       eapply (foldl_shrinks retire_one); [intros; by apply retire_one_accounted
         |intros; by apply retire_one_shrinks|by apply snapshot_lt, Ho; apply Hacc|done|done|exact H]. }
  left. unfold retireAll. pose proof (snapshot_lt hosts c (acc_wf _ _ Hacc) Ho) as Hlt.
  revert Hin Hlt. generalize (allPooledLocked hosts c). intros l. clear Ho. revert c Hacc Hp.
  induction l as [|q l IH]; intros c Hacc Hp Hin Hlt; [set_solver|]. cbn [foldl].
  assert (q < next c) as Hq by (apply Hlt; set_solver).
  destruct (retire_one_accounted c hs q Hq Hacc) as [Hacc1 Hn].
  assert (∀ r, r ∈ l → r < next (retire_one c q)) as Hlt1
    by (intros r Hr; rewrite Hn; apply Hlt; set_solver).
  destruct (decide (p = q)) as [->|Hne]; [|apply IH; [done|by rewrite Hn|set_solver|done]].
  eapply (foldl_shrinks retire_one); [intros; by apply retire_one_accounted
    |intros; by apply retire_one_shrinks|exact Hlt1|exact Hacc1|by rewrite Hn|].
  unfold retire_one. set (c1 := update q set_retired c).
  assert (retired (heap c1 q) = true) as Hr by (subst c1; simpl; by rewrite decide_True).
  destruct (_ =? 0)%Z; [|done]. by rewrite (proj1 (destroyLocked_frame c1 q)).
Qed.

(** C14: after [NewIdentity], whatever the pool goes through, no dial is ever
    given a circuit that was pooled before the call. *)
Theorem NewIdentity_isolates (c0 c c2 : Client) (hs hs2 : list nat) (hosts : list bytes) :
  empty_pool c0 → rtc step (c0, []) (c, hs) → map_order hosts c →
  rtc step (retireAll hosts c, hs) (c2, hs2) →
  (∀ now port p c3, acquireClearnet now port c2 = (Some p, c3) → next c ≤ p) ∧
  (∀ now host p c3, acquireOnion now host c2 = (Some p, c3) → next c ≤ p).
Proof.
  intros H0 Hr Ho Hr2. destruct (run_accounted _ _ Hr (empty_accounted _ H0)) as [Hacc _].
  simpl in Hacc. pose proof (step_accounted _ _ (S_retireAll hosts c hs Ho) Hacc) as Hacc1.
  simpl in Hacc1. destruct (run_accounted _ _ Hr2 Hacc1) as [Hacc2 [_ Hsh]]. simpl in Hacc2, Hsh.
  assert (next (retireAll hosts c) = next c) as Hn.
  { unfold retireAll. apply (foldl_accounted _ hs); [intros; by apply retire_one_accounted
      |apply snapshot_lt; [apply Hacc|done]|done]. }
  assert (∀ p, p < next c → retired (heap c2 p) = false → pooled c2 p → False) as Hno.
  { intros p Hp Hret Hpo. destruct (Hsh p ltac:(lia)) as [H1 H2].
    destruct (retireAll_retires hosts c hs p Hacc Ho Hp) as [Hx|Hx]; [|by apply Hx, H2].
    by rewrite H1 in Hret. }
  pose proof (acc_wf _ _ Hacc2) as Hwf2.
  split; intros now x p c3 H; apply acquire_from_Some in H as (Hp & _ & Hret & _ & _ & _);
    (destruct (Nat.le_gt_cases (next c) p) as [|Hlt]; [done|]); exfalso; apply (Hno p Hlt Hret).
  - destruct (wf_clear _ Hwf2 _ Hp) as [_ Hon]. unfold pooled, slot. by rewrite decide_True.
  - destruct (onionPool c2 !! x) as [l|] eqn:El; [|set_solver].
    destruct (wf_onion _ Hwf2 _ _ El) as (Hne & _ & _ & Hm). unfold pooled, slot.
    rewrite (proj2 (Hm p Hp)), decide_False, El by done. done.
Qed.

(** *** A circuit in use *)

(** [p] is open and has a slot out. *)
Definition busy c p : Prop :=
  p < next c ∧ (0 < streams (heap c p))%Z ∧ Closed (circ (heap c p)) (world c) = false.

Lemma destroy_other_busy c p q : wf c → p ≠ q → q < next c → busy c p → busy (destroyLocked q c) p.
Proof.
  intros Hwf Hne Hq (Hp & Hs & Hc). destruct (destroyLocked_frame c q) as (Hh & Hn & Hw & _).
  split_and!; [by rewrite Hn|by rewrite Hh|]. rewrite Hh, Hw, Destroy_other; [done|].
  intros E. by apply Hne, (wf_circ _ Hwf).
Qed.

Lemma reap_one_busy now c p q : wf c → q < next c → busy c p → busy (reap_one now c q) p.
Proof.
  intros Hwf Hq Hb. unfold reap_one. destruct (_ || _) eqn:E; [|done].
  apply destroy_other_busy; [done| |done|done]. intros ->. destruct Hb as (_ & Hs & Hc).
  rewrite Hc in E. simpl in E. bools. lia.
Qed.

Lemma retire_one_busy c p q : wf c → q < next c → busy c p → busy (retire_one c q) p.
Proof.
  intros Hwf Hq Hb. unfold retire_one. set (c1 := update q set_retired c).
  assert (streams (heap c1 p) = streams (heap c p) ∧ circ (heap c1 p) = circ (heap c p)) as [E1 E2]
    by (subst c1; rewrite heap_update; case_decide; by subst).
  assert (busy c1 p) as Hb1 by (unfold busy; rewrite E1, E2; exact Hb).
  destruct (_ =? 0)%Z eqn:E; [|done].
  apply destroy_other_busy; [by apply update_wf|intros ->|done|done].
  destruct Hb as (_ & Hs & _). bools. lia.
Qed.

Lemma foldl_busy (f : Client → nat → Client) hs l c p :
  (∀ c p, p < next c → accounted c hs → accounted (f c p) hs ∧ next (f c p) = next c) →
  (∀ c q, wf c → q < next c → busy c p → busy (f c q) p) →
  (∀ q, q ∈ l → q < next c) → accounted c hs → busy c p → busy (foldl f c l) p.
Proof.
  intros Hf Hb. revert c. induction l as [|q l IH]; intros c Hl Hc Hbu; simpl; [done|].
  assert (q < next c) by (apply Hl; set_solver). destruct (Hf c q) as [H1 H2]; [done..|].
  apply IH; [|done|apply Hb; [apply Hc|done..]]. intros r Hr. rewrite H2. apply Hl. set_solver.
Qed.

(** A circuit that carries a stream is not torn down under it: as long as one
    of its slots is out and it is open, the janitor, [NewIdentity] and the return
    of any other slot leave it open. *)
Theorem busy_circuit_survives (c0 c : Client) (hs : list nat) (p : nat) :
  empty_pool c0 → rtc step (c0, []) (c, hs) →
  p ∈ hs → Closed (circ (heap c p)) (world c) = false →
  (∀ now hosts, map_order hosts c → busy (reap now hosts c) p) ∧
  (∀ hosts, map_order hosts c → busy (retireAll hosts c) p) ∧
  (∀ now q hs', hs ≡ₚ q :: hs' → p ∈ hs' → busy (releaseStream now q c) p).
Proof.
  intros H0 Hr Hp Hc. destruct (run_accounted _ _ Hr (empty_accounted _ H0)) as [Hacc _]. simpl in Hacc.
  pose proof (acc_wf _ _ Hacc) as Hwf. pose proof (acc_alloc _ _ Hacc p Hp) as Hlt.
  assert (busy c p) as Hb.
  { split_and!; [done| |done]. rewrite (acc_streams _ _ Hacc p Hlt). by apply slots_out_pos. }
  split_and!.
  - intros now hosts Ho. eapply foldl_busy; [intros; by apply reap_one_accounted
      |intros; by apply reap_one_busy|by apply snapshot_lt|done|done].
  - intros hosts Ho. eapply foldl_busy; [intros; by apply retire_one_accounted
      |intros; by apply retire_one_busy|by apply snapshot_lt|done|done].
  - intros now q hs' Hperm Hp'. assert (q ∈ hs) as Hq by (rewrite Hperm; set_solver).
    destruct (slot_returned c hs q Hq Hacc hs' Hperm) as (Hacc1 & Hn & Hw & Hh & _).
    unfold releaseStream. set (c1 := if (0 <? streams (heap c q))%Z then _ else c) in *. clearbody c1.
    assert (busy c1 p) as Hb1.
    { split_and!; [by rewrite Hn| |by rewrite Hw, (proj1 (Hh p))].
      rewrite (acc_streams _ _ Hacc1) by (by rewrite Hn). by apply slots_out_pos. }
    destruct (_ && _) eqn:E; [|done]. apply destroy_other_busy; [apply Hacc1| | |done].
    + intros ->. destruct Hb1 as (_ & Hs & _). bools. lia.
    + rewrite Hn. by apply (acc_alloc _ _ Hacc).
Qed.

(** *** The janitor *)

(** What [reap] leaves alone. *)
Definition kept now c p : Prop :=
  Closed (circ (heap c p)) (world c) = false ∧
  (streams (heap c p) = 0%Z → retired (heap c p) = false ∧ (time_Sub now (born (heap c p)) < maxDirty c)%Z).

Lemma reap_one_frame now c q :
  heap (reap_one now c q) = heap c ∧ next (reap_one now c q) = next c ∧
  maxDirty (reap_one now c q) = maxDirty c.
Proof.
  unfold reap_one. destruct (_ || _); [|done]. destruct (destroyLocked_frame c q) as (? & ? & _ & ?). done.
Qed.

Lemma reap_one_self now c p : wf c → p < next c →
  pooled (reap_one now c p) p → kept now (reap_one now c p) p.
Proof.
  intros Hwf Hp. unfold reap_one. destruct (_ || _) eqn:E.
  - intros H. by apply destroyLocked_pooled in H as [_ ?].
  - intros _. apply orb_false_iff in E as [E1 E2]. split; [done|]. intros Hz.
    rewrite Hz in E2. simpl in E2. bools. done.
Qed.

Lemma reap_one_kept now c p q : wf c → p ≠ q → p < next c → q < next c →
  kept now c p → kept now (reap_one now c q) p.
Proof.
  intros Hwf Hne Hp Hq [Hc Hk]. destruct (reap_one_frame now c q) as (Hh & _ & Hm).
  unfold kept. rewrite Hh, Hm. split; [|done]. unfold reap_one. destruct (_ || _); [|done].
  rewrite (proj1 (proj2 (proj2 (destroyLocked_frame c q)))), Destroy_other; [done|].
  intros E. by apply Hne, (wf_circ _ Hwf).
Qed.

Lemma reap_loop now hs l c : accounted c hs → (∀ q, q ∈ l → q < next c) →
  ∀ p, p < next c → p ∈ l ∨ kept now c p → pooled (foldl (reap_one now) c l) p →
  kept now (foldl (reap_one now) c l) p.
Proof.
  revert c. induction l as [|q l IH]; intros c Hacc Hl p Hp Hor Hpo; simpl in *; [set_solver|].
  assert (q < next c) as Hq by (apply Hl; set_solver).
  destruct (reap_one_accounted now c hs q Hq Hacc) as [Hacc1 Hn].
  assert (∀ r, r ∈ l → r < next (reap_one now c q)) as Hl1
    by (intros r Hr; rewrite Hn; apply Hl; set_solver).
  apply IH; [done|done|by rewrite Hn| |done].
  destruct (decide (p = q)) as [->|Hne].
  - right. apply reap_one_self; [apply Hacc|done|].
    eapply (foldl_shrinks (reap_one now)); [intros; by apply reap_one_accounted
      |intros; by apply reap_one_shrinks|exact Hl1|exact Hacc1|by rewrite Hn|exact Hpo].
  - destruct Hor as [Hin|Hk]; [left; set_solver|]. right. by apply reap_one_kept; [apply Hacc|..].
Qed.

(** The janitor is complete: after [reap] every circuit left in the pool is
    open, and one without streams is neither retired nor older than the
    dirtiness bound, whatever the order in which the onion map was ranged
    over. *)
Theorem reap_complete (c0 c : Client) (hs : list nat) (now : Z) (hosts : list bytes) (p : nat) :
  empty_pool c0 → rtc step (c0, []) (c, hs) → map_order hosts c →
  p < next c → pooled (reap now hosts c) p → kept now (reap now hosts c) p.
Proof.
  intros H0 Hr Ho Hp Hpo. destruct (run_accounted _ _ Hr (empty_accounted _ H0)) as [Hacc _]. simpl in Hacc.
  pose proof (snapshot_lt hosts c (acc_wf _ _ Hacc) Ho) as Hlt.
  eapply (reap_loop now hs); [done|done|done| |exact Hpo]. left.
  apply allPooled_elem; [apply Hacc|done|]. split; [done|].
  eapply (foldl_shrinks (reap_one now)); [intros; by apply reap_one_accounted
    |intros; by apply reap_one_shrinks|exact Hlt|exact Hacc|done|exact Hpo].
Qed.

(** *** The cap on onion hosts *)

(** The cap on the number of onion hosts does not hold.  With the cap
    reached, the first circuit to a new host is retired as intended; but it
    still enters the map, so the host is no longer new, and while its stream is
    open the next circuit to that host is kept for reuse: one host more than
    the cap has a reusable circuit. *)
Theorem onion_host_cap_exceeded (c : Client) (h : bytes) (k1 k2 : nat) (now1 now2 : Z) :
  wf c → h ≠ [] → fresh k1 c → onionPool c !! h = None → maxOnionHosts ≤ size (onionPool c) →
  let c1 := (insertOnion now1 h k1 c).2 in
  let p1 := (insertOnion now1 h k1 c).1 in
  let c2 := (insertOnion now2 h k2 c1).2 in
  let p2 := (insertOnion now2 h k2 c1).1 in
  retired (heap c1 p1) = true ∧
  acquireOnion now2 h c1 = (None, c1) ∧
  retired (heap c2 p2) = false ∧ reusableOnionLocked h c2 = 1 ∧
  size (onionPool c2) = S (size (onionPool c)).
Proof.
  intros Hwf Hne Hk Hnone Hcap. destruct (insertOnion_eq now1 h k1 c Hwf) as (E1 & _ & E2 & E3 & _ & _ & E4).
  pose proof (insertOnion_wf now1 h k1 c Hne Hk Hwf) as Hwf1. cbv zeta.
  set (c1 := (insertOnion now1 h k1 c).2) in *. rewrite E1.
  destruct (insertOnion_eq now2 h k2 c1 Hwf1) as (F1 & _ & F2 & F3 & _ & _ & F4).
  set (c2 := (insertOnion now2 h k2 c1).2) in *. rewrite F1. clearbody c1 c2.
  rewrite Hnone in E2. simpl in E2.
  assert (retireNewOnionLocked h c = true) as Hr1.
  { unfold retireNewOnionLocked. rewrite bool_decide_true by done.
    apply Nat.leb_le in Hcap. rewrite Hcap. apply orb_true_r. }
  assert (retired (heap c1 (next c)) = true) as Hret
    by (rewrite E4, (decide_True (P := next c = next c)) by done; exact Hr1).
  assert (reusableOnionLocked h c1 = 0) as Hz.
  { unfold reusableOnionLocked. rewrite E2, lookup_insert_eq. simpl. unfold is_reusable. by rewrite Hret. }
  assert (retireNewOnionLocked h c1 = false) as Hr2.
  { unfold retireNewOnionLocked. rewrite Hz, E2, lookup_insert_eq. done. }
  split_and!; [done| | | |].
  - unfold acquireOnion. rewrite E2, lookup_insert_eq. simpl. unfold circuitReusable. rewrite Hret.
    simpl negb. by rewrite andb_false_r.
  - by rewrite F4, (decide_True (P := next c1 = next c1)) by done.
  - unfold reusableOnionLocked. rewrite F2, lookup_insert_eq, E2, lookup_insert_eq.
    simpl. unfold is_reusable. rewrite !F4, E3. rewrite decide_False, decide_True by lia.
    rewrite Hret, Hr2. done.
  - rewrite F2, E2. rewrite insert_insert_eq. by rewrite map_size_insert_None.
Qed.

(** ** Emptying the pool *)

Lemma destroy_list l c : wf c → (∀ p, p ∈ l → p < next c) →
  let c' := foldl (λ c p, destroyLocked p c) c l in
  wf c' ∧ heap c' = heap c ∧ next c' = next c ∧ (∀ q x, x ∈ slot c' q ↔ x ∈ slot c q ∧ x ∉ l) ∧
  world c' = foldl (λ w p, Destroy (circ (heap c p)) w) (world c) l ∧ guardChan c' = guardChan c ∧
  dirCirc c' = dirCirc c.
Proof.
  cbv zeta. revert c. induction l as [|p l IH]; intros c Hwf Hl; cbn [foldl].
  { split_and!; try done. intros q x. split; [|by intros [? _]]. intros ?. split; [done|set_solver]. }
  assert (p < next c) as Hp by (apply Hl; by left). destruct (destroyLocked_frame c p) as (Hh & Hn & Hw & _).
  destruct (IH (destroyLocked p c)) as (H1 & H2 & H3 & H4 & H5 & H6 & H7).
  { by apply destroyLocked_wf. }
  { intros q Hq. rewrite Hn. apply Hl. by right. }
  split_and!; [done|by rewrite H2|by rewrite H3| | | |].
  - intros q x. rewrite H4, destroyLocked_slot by done. rewrite not_elem_of_cons. tauto.
  - rewrite H5, Hh, Hw. done.
  - rewrite H6. unfold destroyLocked, removeLocked. by repeat case_decide.
  - rewrite H7. unfold destroyLocked, removeLocked. by repeat case_decide.
Qed.

(** Destroying every pooled circuit leaves both pools empty. *)
Lemma destroyAll_empties hosts c : wf c → map_order hosts c →
  let c' := destroyAll hosts c in
  clearnetPool c' = [] ∧ onionPool c' = ∅ ∧ guardChan c' = guardChan c ∧ dirCirc c' = dirCirc c ∧
  world c' = foldl (λ w p, Destroy (circ (heap c p)) w) (world c) (allPooledLocked hosts c).
Proof.
  intros Hwf Ho c'. assert (∀ p, p ∈ allPooledLocked hosts c → p < next c) as Hlt.
  { intros p Hp. by apply (allPooled_elem hosts c p Hwf Ho) in Hp as [? _]. }
  destruct (destroy_list _ c Hwf Hlt) as (Hwf' & Hh & Hn & Hs & Hw & Hg & Hd). fold (destroyAll hosts c) in Hwf', Hh, Hn, Hs, Hw, Hg, Hd.
  fold c' in Hwf', Hh, Hn, Hs, Hw, Hg, Hd.
  assert (∀ x, ¬ (x < next c' ∧ pooled c' x)) as Hnone.
  { intros x [Hx Hp]. unfold pooled in Hp. rewrite Hs in Hp. destruct Hp as [Hp Hno]. apply Hno.
    apply allPooled_elem; [done..|]. by rewrite Hn in Hx. }
  split_and!; try done.
  - destruct (clearnetPool c') as [|x l] eqn:E; [done|]. exfalso. apply (Hnone x).
    destruct (wf_clear _ Hwf' x) as [Hx Hox]; [rewrite E; by left|]. split; [done|].
    unfold pooled, slot. rewrite decide_True by done. rewrite E. by left.
  - apply map_empty. intros h. destruct (onionPool c' !! h) as [l|] eqn:E; [|done]. exfalso.
    destruct (wf_onion _ Hwf' _ _ E) as (Hne & Hl & _ & Hx). destruct l as [|x l]; [done|].
    destruct (Hx x) as [Hlx Hox]; [by left|]. apply (Hnone x). split; [done|].
    unfold pooled, slot. rewrite Hox, decide_False by done. rewrite E. by left.
Qed.

End Facts.
