(* ===== verification/PoolCircuits.v ===== *)
(** * The pool's interface discharged by the circuit model, and concrete pools.

    The circuits of [Circuit.v], on the link they share, implement what the
    pool asks of circuits; so the pool's theorems hold of a pool of them.  The
    witnesses run the pool over a table of open flags. *)

From S2P Require Import Prelude ByteUtil GoNet Cell TorCrypto RelayInfo OnionCrypto Circuit ToyCrypto Directory Pool PoolFacts.

Section OverCircuits.
Context `{C : Crypto} {L LE : Type} `{!Link L LE}.

(** The circuits of a client by handle, their link, and the error of closing
    the link. *)
Record circuits := mkCircuits { on_link : L; table : gmap nat (Circuit (LE:=LE)) }.
Context (close_link : nat → L → bool * L).

(** A handle without a circuit reads as closed. *)
Definition table_Closed (k : nat) (w : circuits) : bool :=
  match table w !! k with Some c => Circuit.Closed c | None => true end.
Definition table_Destroy (k : nat) (w : circuits) : circuits :=
  match table w !! k with
  | None => w
  | Some c =>
      match Circuit.Destroy (mkNode c (on_link w) []) with
      | Some (_, n) => mkCircuits (link n) (<[k := Circuit.circ n]> (table w))
      | None => w
      end
  end.

#[export] Instance circuit_table : Circuits circuits := {|
  Pool.Closed := table_Closed;
  Pool.Destroy := table_Destroy;
  CloseChannel k w := let '(e, l) := close_link k (on_link w) in (e, mkCircuits l (table w))
|}.

(** [Destroy] returns, and leaves the circuit closed. *)
Lemma Destroy_returns (n : node (L:=L) (LE:=LE)) :
  ∃ o n', Circuit.Destroy n = Some (o, n') ∧ Circuit.closed (Circuit.circ n') = true.
Proof.
  destruct n as [c l tr]. unfold Circuit.Destroy. rewrite prog_bind_eq. unfold gets at 1.
  rewrite prog_bind_eq. unfold gets at 1. rewrite prog_bind_eq.
  assert (∀ c : Circuit (LE:=LE), Circuit.closed (fail ErrCircuitClosed c) = true) as Hf.
  { intros c0. unfold fail. by destruct (Circuit.closed c0) eqn:E. }
  simpl. destruct (Circuit.closed c) eqn:Hc.
  - eexists _, _. split; [reflexivity|]. simpl. apply Hf.
  - unfold attempt, link_send. simpl. rewrite !prog_bind_eq. simpl.
    destruct (SendCell l _) as [[e|] l']; (eexists _, _; split; [reflexivity|]; simpl; apply Hf).
Qed.

#[export] Instance circuit_table_laws : CircuitsLaws circuits.
Proof.
  split; simpl; unfold table_Closed, table_Destroy.
  - intros k w. destruct (table w !! k) as [c|] eqn:E; [|by rewrite E].
    destruct (Destroy_returns (mkNode c (on_link w) [])) as (o & n & -> & Hc). simpl.
    by rewrite lookup_insert_eq.
  - intros k j w Hne. destruct (table w !! k) as [c|] eqn:E; [|done].
    destruct (Destroy_returns (mkNode c (on_link w) [])) as (o & n & -> & Hc). simpl.
    by rewrite lookup_insert_ne.
Qed.

(** A pool of the circuits of [pkg/circuit]: when the janitor or a released
    stream tears a pooled circuit down, the circuit's own state is closed, so
    that its later sends are refused, and the other circuits of the table are
    untouched. *)
Theorem pool_destroys_circuits (c : Pool.Client (W:=circuits)) (p : nat) (cc : Circuit (LE:=LE)) :
  table (world c) !! Pool.circ (heap c p) = Some cc →
  ∃ cc', table (world (destroyLocked p c)) !! Pool.circ (heap c p) = Some cc' ∧
    Circuit.closed cc' = true ∧ hops cc' = hops cc ∧
    ∀ j, j ≠ Pool.circ (heap c p) → table (world (destroyLocked p c)) !! j = table (world c) !! j.
Proof.
  intros E. destruct (destroyLocked_frame c p) as (_ & _ & Hw & _). rewrite Hw. clear Hw.
  simpl. unfold table_Destroy. rewrite E.
  destruct (Destroy_returns (mkNode cc (on_link (world c)) [])) as (o & n & Hd & Hc). rewrite Hd. simpl.
  exists (Circuit.circ n). rewrite lookup_insert_eq. split_and!; [done|done| |].
  - revert Hd. unfold Circuit.Destroy. rewrite prog_bind_eq. unfold gets at 1.
    rewrite prog_bind_eq. unfold gets at 1. rewrite prog_bind_eq. simpl.
    assert (hops (fail ErrCircuitClosed cc) = hops cc) as Hh by (unfold fail; by destruct (Circuit.closed cc)).
    destruct (Circuit.closed cc); [intros H; by injection H as _ <-|].
    unfold attempt, link_send. simpl. rewrite !prog_bind_eq. simpl.
    destruct (SendCell _ _) as [[e|] l']; intros H; by injection H as _ <-.
  - intros j Hj. by rewrite lookup_insert_ne.
Qed.

End OverCircuits.

(** ** Concrete pools *)

(** Circuits as the set of closed handles. *)
#[local] Instance closed_set : Circuits (gset nat) := {|
  Pool.Closed k w := bool_decide (k ∈ w);
  Pool.Destroy k w := {[k]} ∪ w;
  CloseChannel k w := (false, w)
|}.
#[local] Instance closed_set_laws : CircuitsLaws (gset nat).
Proof.
  split; simpl.
  - intros k w. apply bool_decide_eq_true. set_solver.
  - intros k j w Hne. apply bool_decide_ext. set_solver.
Qed.

Definition toy_pool : Pool.Client (W:=gset nat) :=
  {| clearnetPool := []; onionPool := ∅; built := 0; reused := 0;
     maxDirty := defaultMaxCircuitDirtiness; dirCirc := None; guardChan := Some 0; Pool.closed := false;
     heap := λ _, mkPooled 0 0 [] zeroMicrodescriptor 0 false; next := 0; world := ∅ |}.

Lemma toy_pool_empty : empty_pool toy_pool.
Proof. done. Qed.

(** A circuit (handle 7) is built and pooled, then shared by a second dial, and
    an onion circuit (handle 8) is pooled beside it. *)
Definition pool1 := (insertClearnet 10 7 zeroMicrodescriptor toy_pool).2.
Definition pool2 := (acquireClearnet 20 443 pool1).2.
Definition pool3 := (insertOnion 30 go"x.onion" 8 pool2).2.

Lemma pool_run : rtc step (toy_pool, []) (pool3, [1; 0; 0]).
Proof.
  eapply rtc_l; [apply (S_insertClearnet 10 7 zeroMicrodescriptor toy_pool [] 0 pool1);
    [intros p Hp; simpl in Hp; lia|reflexivity]|].
  eapply rtc_l; [apply (S_acquireClearnet 20 443 pool1 [0] 0 pool2); reflexivity|].
  eapply rtc_l; [apply (S_insertOnion 30 go"x.onion" 8 pool2 [0; 0] 1 pool3);
    [discriminate| |reflexivity]|apply rtc_refl].
  intros p Hp. destruct p as [|p]; [discriminate|vm_compute in Hp; lia].
Qed.

Lemma pool3_order : map_order [go"x.onion"] pool3.
Proof.
  intros h. change (onionPool pool3) with ({[go"x.onion" := [1]]} : gmap bytes (list nat)).
  rewrite list_elem_of_singleton. split; [intros ->; rewrite lookup_singleton_eq; by eexists|].
  intros [l Hl]. by apply lookup_singleton_Some in Hl as [<- _].
Qed.

Lemma pool_invariant_witness :
  streams (heap pool3 0) = 2%Z ∧ reusableClearnetLocked pool3 ≤ maxClearnetCircuits.
Proof.
  destruct (pool_invariant toy_pool pool3 [1; 0; 0] toy_pool_empty pool_run) as (H1 & H2 & _).
  split; [rewrite (H1 0); [reflexivity|vm_compute; lia]|exact H2].
Defined.

Lemma NewIdentity_isolates_witness :
  (acquireClearnet 40 443 (retireAll [go"x.onion"] pool3)).1 = None ∧
  ∃ p c3, acquireClearnet 40 443 (insertClearnet 35 9 zeroMicrodescriptor (retireAll [go"x.onion"] pool3)).2
          = (Some p, c3) ∧ 2 ≤ p.
Proof.
  split; [reflexivity|]. eexists _, _. split; [reflexivity|].
  set (c1 := retireAll [go"x.onion"] pool3).
  set (c2 := (insertClearnet 35 9 zeroMicrodescriptor c1).2).
  assert (rtc step (c1, [1; 0; 0]) (c2, [2; 1; 0; 0])) as Hr.
  { apply rtc_once. apply (S_insertClearnet 35 9 zeroMicrodescriptor c1 [1; 0; 0] 2 c2); [|reflexivity].
    intros p Hp. destruct p as [|[|p]]; [vm_compute; discriminate..|vm_compute in Hp; lia]. }
  destruct (NewIdentity_isolates toy_pool pool3 c2 [1; 0; 0] [2; 1; 0; 0] [go"x.onion"]
              toy_pool_empty pool_run pool3_order Hr) as [H _].
  exact (H 40%Z 443%Z 2 _ eq_refl).
Defined.

Lemma busy_circuit_survives_witness :
  busy (reap (10 ^ 15) [go"x.onion"] pool3) 0 ∧ busy (retireAll [go"x.onion"] pool3) 0.
Proof.
  assert (0 ∈ [1; 0; 0]) as Hin by (right; left).
  destruct (busy_circuit_survives toy_pool pool3 [1; 0; 0] 0 toy_pool_empty pool_run Hin eq_refl)
    as (H1 & H2 & _).
  exact (conj (H1 (10 ^ 15)%Z [go"x.onion"] pool3_order) (H2 [go"x.onion"] pool3_order)).
Defined.

Lemma reap_complete_witness : kept 50 (reap 50 [go"x.onion"] pool3) 0.
Proof.
  apply (reap_complete toy_pool pool3 [1; 0; 0] 50 [go"x.onion"] 0 toy_pool_empty pool_run pool3_order).
  - vm_compute. lia.
  - vm_compute. left.
Defined.

(** *** A pool at the cap of onion hosts *)

Definition toy_host (n : nat) : bytes := [to_byte (Z.of_nat n)].
Fixpoint fill (n : nat) : Pool.Client (W:=gset nat) :=
  match n with
  | O => toy_pool
  | S m => (insertOnion 0 (toy_host m) m (fill m)).2
  end.

Lemma fill_wf n : wf (fill n) ∧ next (fill n) = n ∧ ∀ p, p < n → Pool.circ (heap (fill n) p) = p.
Proof.
  induction n as [|n (Hwf & Hn & Hc)].
  { split_and!; [apply (acc_wf _ _ (empty_accounted _ toy_pool_empty))|done|lia]. }
  cbn [fill]. destruct (insertOnion_eq 0 (toy_host n) n (fill n) Hwf) as (_ & _ & _ & E3 & _ & _ & E4).
  split_and!.
  - apply insertOnion_wf; [done| |done]. intros p Hp. rewrite Hn in Hp. rewrite Hc by done. lia.
  - by rewrite E3, Hn.
  - intros p Hp. rewrite E4. case_decide; simpl; [lia|]. apply Hc. lia.
Qed.

Lemma onion_host_cap_exceeded_witness :
  let full := fill 64 in
  let c1 := (insertOnion 1 go"y.onion" 100 full).2 in
  let c2 := (insertOnion 2 go"y.onion" 101 c1).2 in
  maxOnionHosts ≤ size (onionPool full) ∧
  reusableOnionLocked go"y.onion" c2 = 1 ∧ size (onionPool c2) = S (size (onionPool full)).
Proof.
  destruct (fill_wf 64) as (Hwf & Hn & Hc).
  assert (maxOnionHosts ≤ size (onionPool (fill 64))) as Hs by (vm_compute; lia).
  assert (onionPool (fill 64) !! go"y.onion" = None) as Hnone by (vm_compute; reflexivity).
  assert (fresh 100 (fill 64)) as Hf.
  { intros p Hp. rewrite Hn in Hp. rewrite Hc by exact Hp. lia. }
  destruct (onion_host_cap_exceeded (fill 64) go"y.onion" 100 101 1 2 Hwf ltac:(discriminate) Hf Hnone Hs)
    as (_ & _ & _ & H1 & H2).
  exact (conj Hs (conj H1 H2)).
Defined.

(** *** A pool of circuits proper *)

(** A link that accepts everything. *)
#[local] Instance sink_link : Link unit unit := {|
  SendCell l _ := (None, l);
  AllocCircuit l := Some (Ok (2147483649%Z, 0), l);
  FreeCircuit l _ := l
|}.

Definition toy_circuit : Circuit (LE:=unit) :=
  mkCircuit 2147483649 0 [] 0 false None 0 0 None None false (Tokens.mkTokens 1000 1000) 1000 false false.
Definition table_pool : Pool.Client (W:=circuits (L:=unit) (LE:=unit)) :=
  {| clearnetPool := [0]; onionPool := ∅; built := 1; reused := 0;
     maxDirty := defaultMaxCircuitDirtiness; dirCirc := None; guardChan := Some 0; Pool.closed := false;
     heap := λ _, mkPooled 7 0 [] zeroMicrodescriptor 0 false; next := 1;
     world := mkCircuits tt {[7 := toy_circuit; 8 := toy_circuit]} |}.

Lemma pool_destroys_circuits_witness :
  let _ := circuit_table (λ _ l, (false, l)) in
  ∃ cc', table (world (destroyLocked 0 table_pool)) !! 7 = Some cc' ∧ Circuit.closed cc' = true ∧
    table (world (destroyLocked 0 table_pool)) !! 8 = Some toy_circuit.
Proof.
  intros I.
  destruct (pool_destroys_circuits (λ _ l, (false, l)) table_pool 0 toy_circuit eq_refl)
    as (cc' & H1 & H2 & _ & H3).
  exists cc'. split; [exact H1|]. split; [exact H2|]. exact (H3 8 ltac:(discriminate)).
Defined.
