(* ===== verification/HashRing.v ===== *)
(** * [pkg/onion/hashring.go] and [timeperiod.go]: where a descriptor is stored.

    The HSDir ring with Go's [sort.Search] binary search and the walk around
    the ring.  [sort.Slice] may put entries with equal indices in any order, so
    it is an argument, with its documented contract as hypotheses.  The ring is
    shown to implement the clockwise rule of the specification, and its result
    not to depend on the order in which the relays are listed. *)

From stdpp Require Import sorting.
From S2P Require Import Prelude ByteUtil GoNet TorCrypto.

(** ** [bytes.Compare] and [sort.Search] *)

Fixpoint bytes_Compare (a b : bytes) : Z :=
  match a, b with
  | [], [] => 0
  | [], _ :: _ => -1
  | _ :: _, [] => 1
  | x :: a, y :: b =>
      if (bval x <? bval y)%Z then -1 else if (bval y <? bval x)%Z then 1 else bytes_Compare a b
  end%Z.

(** The loop of [sort.Search]: [f(i-1)] is false and [f(j)] is true.  The gap
    shrinks in every turn, so [j - i] turns are enough. *)
Fixpoint search_loop (fuel i j : nat) (f : nat → bool) : nat :=
  match fuel with
  | O => i
  | S fuel =>
      if i <? j then
        let h := (i + j) / 2 in
        if negb (f h) then search_loop fuel (h + 1) j f else search_loop fuel i h f
      else i
  end.
Definition sort_Search (n : nat) (f : nat → bool) : nat := search_loop n 0 n f.

(** ** timeperiod.go *)

Definition periodLengthMinutes : Z := 1440.
Definition rotationOffsetMin : Z := 720.
Definition hsDirNReplicas : nat := 2.
Definition hsDirSpreadFetch : nat := 3.

(** [now.Unix()] as a signed number of seconds; all else is [uint64]. *)
Definition TimePeriod (unix : Z) : Z * Z :=
  let minutes := (u64 unix / 60)%Z in
  (u64 (minutes - rotationOffsetMin) / periodLengthMinutes, periodLengthMinutes)%Z.

(** The hour of the day, in UTC. *)
Definition utc_Hour (unix : Z) : Z := ((unix mod 86400) / 3600)%Z.

Definition SRVForFetch (validAfter : Z) (currentSRV previousSRV : bytes) : bytes :=
  if (12 <=? utc_Hour validAfter)%Z then
    if decide (length currentSRV = 32) then currentSRV else previousSRV
  else if decide (length previousSRV = 32) then previousSRV else currentSRV.

Definition int8be (v : Z) : bytes := be_encode 8 v.

Section Ring.
Context `{C : Crypto} {A : Type}.

Definition DisasterSRV (periodNum periodLength : Z) : bytes :=
  SHA3_256 [go"shared-random-disaster"; int8be periodLength; int8be periodNum].

(** ** hashring.go *)

Record RingNode := mkRingNode { EdID : bytes; rn_Payload : A }.
Record ringEntry := mkRingEntry { idx_ : bytes; node : RingNode }.

Definition serviceIndex (blindedKey : bytes) (replica periodLength periodNum : Z) : bytes :=
  SHA3_256 [go"store-at-idx"; blindedKey; int8be replica; int8be periodLength; int8be periodNum].
Definition nodeIndex (edID srv : bytes) (periodNum periodLength : Z) : bytes :=
  SHA3_256 [go"node-idx"; edID; srv; int8be periodNum; int8be periodLength].

(** The entries before sorting: nodes without a 32-byte identity are left
    out. *)
Definition ring_entries (srv : bytes) (periodNum periodLength : Z) (nodes : list RingNode)
    : list ringEntry :=
  map (λ n, mkRingEntry (nodeIndex (EdID n) srv periodNum periodLength) n)
      (List.filter (λ n, bool_decide (length (EdID n) = 32)) nodes).

(** The walk of one replica from [start]: [n] offsets are left, [off] is the
    next one.  The index is in range because of the modulus. *)
Fixpoint ring_walk (ring : list ringEntry) (start n off taken : nat) (chosen : gset bytes)
    (out : list RingNode) : gset bytes * list RingNode :=
  match n with
  | O => (chosen, out)
  | S n =>
      if hsDirSpreadFetch <=? taken then (chosen, out)
      else match ring !! ((start + off) mod length ring) with
           | None => (chosen, out)
           | Some e =>
               let key := EdID (node e) in
               if decide (key ∈ chosen) then ring_walk ring start n (S off) taken chosen out
               else ring_walk ring start n (S off) (S taken) ({[key]} ∪ chosen) (out ++ [node e])
           end
  end.

(** First entry whose index is greater than the service index. *)
Definition ring_start (ring : list ringEntry) (svcIdx : bytes) : nat :=
  sort_Search (length ring) (λ i,
    match ring !! i with Some e => (0 <? bytes_Compare (idx_ e) svcIdx)%Z | None => true end).

(** The loop over the replicas, from [replica] on. *)
Fixpoint ring_replicas (k : nat) (replica : Z) (ring : list ringEntry) (blindedKey : bytes)
    (periodNum periodLength : Z) (chosen : gset bytes) (out : list RingNode) : list RingNode :=
  match k with
  | O => out
  | S k =>
      let svcIdx := serviceIndex blindedKey replica periodLength periodNum in
      let '(chosen, out) :=
        ring_walk ring (ring_start ring svcIdx) (length ring) 0 0 chosen out in
      ring_replicas k (replica + 1) ring blindedKey periodNum periodLength chosen out
  end.

Definition ResponsibleHSDirs (sort_Slice : list ringEntry → list ringEntry) (blindedKey : bytes)
    (periodNum periodLength : Z) (srv : bytes) (nodes : list RingNode) : list RingNode :=
  let ring := sort_Slice (ring_entries srv periodNum periodLength nodes) in
  if length ring =? 0 then []
  else ring_replicas hsDirNReplicas 1 ring blindedKey periodNum periodLength ∅ [].

End Ring.
Arguments RingNode : clear implicits.
Arguments ringEntry : clear implicits.

(** ** The order on indices *)

Lemma Compare_refl a : bytes_Compare a a = 0%Z.
Proof. induction a as [|x a IH]; simpl; [done|]. by rewrite Z.ltb_irrefl. Qed.

Lemma Compare_antisym a b : bytes_Compare b a = (- bytes_Compare a b)%Z.
Proof.
  revert b. induction a as [|x a IH]; intros [|y b]; simpl; try done.
  destruct (Z.ltb_spec (bval x) (bval y)), (Z.ltb_spec (bval y) (bval x)); try lia; try done.
Qed.

Lemma Compare_eq a b : bytes_Compare a b = 0%Z → a = b.
Proof.
  revert b. induction a as [|x a IH]; intros [|y b]; simpl; try done.
  destruct (Z.ltb_spec (bval x) (bval y)), (Z.ltb_spec (bval y) (bval x)); try done.
  intros ?. f_equal; [apply bval_inj; lia|by apply IH].
Qed.

Lemma Compare_trans a b c :
  (bytes_Compare a b ≤ 0)%Z → (bytes_Compare b c ≤ 0)%Z → (bytes_Compare a c ≤ 0)%Z.
Proof.
  revert b c. induction a as [|x a IH]; intros [|y b] [|z c]; simpl; try lia.
  repeat match goal with |- context [(?p <? ?q)%Z] => destruct (Z.ltb_spec p q) end; try lia.
  apply IH.
Qed.

Definition idx_le {A} (x y : ringEntry A) : Prop := (bytes_Compare (idx_ x) (idx_ y) ≤ 0)%Z.

(** ** Binary search *)

Lemma search_loop_spec fuel i j f :
  i ≤ j → j - i ≤ fuel →
  (∀ k, k < i → f k = false) → (∀ k, j ≤ k → f k = true) →
  (∀ k l, k ≤ l → f k = true → f l = true) →
  i ≤ search_loop fuel i j f ≤ j ∧
  (∀ k, k < search_loop fuel i j f → f k = false) ∧
  (∀ k, search_loop fuel i j f ≤ k → f k = true).
Proof.
  revert i j. induction fuel as [|fuel IH]; intros i j Hij Hf Hlo Hhi Hm; cbn [search_loop]; cbv zeta.
  { split; [lia|]. split; [done|]. intros k Hk. apply Hhi. lia. }
  destruct (Nat.ltb_spec i j) as [Hlt|Hge].
  2: { split; [lia|]. split; [done|]. intros k Hk. apply Hhi. lia. }
  assert (i ≤ (i + j) / 2 < j) as Hh.
  { split; [apply Nat.div_le_lower_bound; lia|apply Nat.Div0.div_lt_upper_bound; lia]. }
  destruct (f ((i + j) / 2)) eqn:E; cbn [negb].
  - destruct (IH i ((i + j) / 2)) as (H1 & H2 & H3); [lia|lia|done| |done|].
    { intros k Hk. by apply (Hm _ _ Hk). }
    split; [lia|done].
  - destruct (IH ((i + j) / 2 + 1) j) as (H1 & H2 & H3); [lia|lia| |done|done|].
    { intros k Hk. destruct (f k) eqn:Ek; [|done]. rewrite (Hm k ((i + j) / 2)) in E; [done|lia|done]. }
    split; [lia|done].
Qed.

(** [sort.Search] finds the boundary of a monotone predicate that is true from
    [n] on. *)
Lemma sort_Search_spec n f :
  (∀ k, n ≤ k → f k = true) → (∀ k l, k ≤ l → f k = true → f l = true) →
  sort_Search n f ≤ n ∧ (∀ k, k < sort_Search n f → f k = false) ∧
  (∀ k, sort_Search n f ≤ k → f k = true).
Proof.
  intros H1 H2. destruct (search_loop_spec n 0 n f) as ((_ & ?) & ? & ?); [lia|lia|lia|done|done|].
  done.
Qed.

(** ** The specification: first nodes clockwise from the service index *)

Section Spec.
Context `{C : Crypto} {A : Type}.
Notation RingNode := (RingNode A).
Notation ringEntry := (ringEntry A).
Implicit Types (ring : list ringEntry).

Definition after (svc : bytes) (e : ringEntry) : bool := (0 <? bytes_Compare (idx_ e) svc)%Z.
(** A sorted ring read clockwise from just after [svc]. *)
Definition clockwise (svc : bytes) ring : list RingNode :=
  map node (List.filter (after svc) ring ++ List.filter (λ e, negb (after svc e)) ring).

(** The first [n] nodes whose identities are not in [chosen] and not repeated. *)
Fixpoint pick_distinct (n : nat) (chosen : gset bytes) (l : list RingNode)
    : gset bytes * list RingNode :=
  match l with
  | [] => (chosen, [])
  | x :: l =>
      match n with
      | O => (chosen, [])
      | S n' =>
          if decide (EdID x ∈ chosen) then pick_distinct n chosen l
          else let '(c, o) := pick_distinct n' ({[EdID x]} ∪ chosen) l in (c, x :: o)
      end
  end.

Fixpoint replicas_spec (k : nat) (replica : Z) ring (blinded : bytes) (num len : Z)
    (chosen : gset bytes) : list RingNode :=
  match k with
  | O => []
  | S k =>
      let '(c, o) := pick_distinct hsDirSpreadFetch chosen
                       (clockwise (serviceIndex blinded replica len num) ring) in
      o ++ replicas_spec k (replica + 1) ring blinded num len c
  end.

(** *** The walk *)

Lemma ring_walk_eq ring start off taken chosen out (visit : list ringEntry) :
  taken ≤ hsDirSpreadFetch →
  (∀ i, i < length visit → ring !! ((start + (off + i)) mod length ring) = visit !! i) →
  ring_walk ring start (length visit) off taken chosen out =
  let '(c, o) := pick_distinct (hsDirSpreadFetch - taken) chosen (map node visit) in (c, out ++ o).
Proof.
  revert off taken chosen out. induction visit as [|e visit IH]; intros off taken chosen out Ht Hv.
  { cbn. by rewrite app_nil_r. }
  cbn [length ring_walk map].
  assert (ring !! ((start + off) mod length ring) = Some e) as He
    by (rewrite <-(Nat.add_0_r off); apply (Hv 0); simpl; lia).
  assert (∀ i, i < length visit → ring !! ((start + (S off + i)) mod length ring) = visit !! i) as Hv'.
  { intros i Hi. change (visit !! i) with ((e :: visit) !! S i).
    rewrite <-(Hv (S i)) by (simpl; lia). do 2 f_equal. lia. }
  destruct (Nat.leb_spec hsDirSpreadFetch taken) as [Hle|Hlt].
  { replace (hsDirSpreadFetch - taken) with 0 by lia. cbn. by rewrite app_nil_r. }
  rewrite He. destruct (hsDirSpreadFetch - taken) as [|m] eqn:Em; [lia|].
  cbn [pick_distinct]. case_decide.
  - rewrite IH by done. by rewrite Em.
  - rewrite IH by (done || lia). replace (hsDirSpreadFetch - S taken) with m by lia.
    destruct (pick_distinct m _ _). by rewrite <-app_assoc.
Qed.

Lemma rotate_visit {B} (l : list B) start i :
  i < length l → rotate start l !! i = l !! ((start + i) mod length l).
Proof.
  intros Hi. rewrite lookup_rotate_r by done. unfold rotate_nat_add. f_equal.
  rewrite <-Nat2Z.inj_add, <-Nat2Z.inj_mod. apply Nat2Z.id.
Qed.

(** *** The start *)

Lemma filter_all {B} (f : B → bool) l : (∀ x, x ∈ l → f x = true) → List.filter f l = l.
Proof.
  induction l as [|x l IH]; simpl; [done|]. intros H. rewrite (H x) by set_solver. f_equal.
  apply IH. set_solver.
Qed.
Lemma filter_none {B} (f : B → bool) l : (∀ x, x ∈ l → f x = false) → List.filter f l = [].
Proof.
  induction l as [|x l IH]; simpl; [done|]. intros H. rewrite (H x) by set_solver. apply IH. set_solver.
Qed.

(** The binary search splits a sorted ring at the service index. *)
Lemma ring_start_split ring svc : StronglySorted idx_le ring →
  ring_start ring svc ≤ length ring ∧
  drop (ring_start ring svc) ring = List.filter (after svc) ring ∧
  take (ring_start ring svc) ring = List.filter (λ e, negb (after svc e)) ring.
Proof.
  intros Hs. unfold ring_start.
  set (f i := match ring !! i with Some e => (0 <? bytes_Compare (idx_ e) svc)%Z | None => true end).
  destruct (sort_Search_spec (length ring) f) as (Hle & Hlo & Hhi).
  - intros k Hk. unfold f. by rewrite lookup_ge_None_2.
  - intros k l Hkl. unfold f. destruct (ring !! l) as [el|] eqn:El; [|done].
    destruct (lookup_lt_is_Some_2 ring k) as [ek Ek]; [apply lookup_lt_Some in El; lia|].
    rewrite Ek, !Z.ltb_lt. intros Hk. destruct (decide (k = l)) as [->|]; [by simplify_eq|].
    assert (idx_le ek el) as Hle.
    { eapply (StronglySorted_app_1_elem_of idx_le (take l ring) (drop l ring)).
      - by rewrite take_drop.
      - apply list_elem_of_lookup. exists k. rewrite lookup_take_lt by lia. done.
      - apply list_elem_of_lookup. exists 0. rewrite lookup_drop, Nat.add_0_r. done. }
    unfold idx_le in Hle. destruct (Z.lt_ge_cases 0 (bytes_Compare (idx_ el) svc)) as [|Hge]; [done|].
    exfalso. pose proof (Compare_trans _ _ _ Hle Hge). lia.
  - set (s := sort_Search (length ring) f) in *. split; [done|].
    assert (∀ x, x ∈ take s ring → after svc x = false) as Ht.
    { intros x Hx. apply list_elem_of_lookup in Hx as [i Hi]. apply lookup_take_Some in Hi as [Hi Hlt].
      specialize (Hlo i Hlt). unfold f in Hlo. rewrite Hi in Hlo. done. }
    assert (∀ x, x ∈ drop s ring → after svc x = true) as Hd.
    { intros x Hx. apply list_elem_of_lookup in Hx as [i Hi]. rewrite lookup_drop in Hi.
      specialize (Hhi (s + i) ltac:(lia)). unfold f in Hhi. rewrite Hi in Hhi. done. }
    assert (ring = take s ring ++ drop s ring) as E by (by rewrite take_drop).
    split; rewrite E at 2; rewrite List.filter_app.
    + by rewrite filter_none, filter_all by done.
    + rewrite filter_all, filter_none, app_nil_r; [done|intros x Hx; by rewrite Hd|].
      intros x Hx. by rewrite Ht.
Qed.

Lemma rotate_clockwise ring svc : StronglySorted idx_le ring →
  map node (rotate (ring_start ring svc) ring) = clockwise svc ring.
Proof.
  intros Hs. destruct (ring_start_split ring svc Hs) as (Hle & Hd & Ht). unfold clockwise.
  rewrite <-Hd, <-Ht. unfold rotate. f_equal.
  destruct (decide (ring_start ring svc = length ring)) as [->|].
  - destruct (decide (length ring = 0)) as [->|]; [by rewrite Nat.Div0.mod_0_l|].
    rewrite Nat.Div0.mod_same, drop_0, drop_all, firstn_all. simpl. by rewrite app_nil_r.
  - by rewrite Nat.mod_small by lia.
Qed.

Lemma ring_replicas_spec k replica ring blinded num len chosen out :
  StronglySorted idx_le ring →
  ring_replicas k replica ring blinded num len chosen out =
  out ++ replicas_spec k replica ring blinded num len chosen.
Proof.
  intros Hs. revert replica chosen out. induction k as [|k IH]; intros replica chosen out;
    cbn [ring_replicas replicas_spec]; [by rewrite app_nil_r|]. cbv zeta.
  set (svc := serviceIndex blinded replica len num).
  pose proof (ring_walk_eq ring (ring_start ring svc) 0 0 chosen out (rotate (ring_start ring svc) ring)) as Hw.
  rewrite length_rotate, rotate_clockwise in Hw by done. rewrite Hw.
  - rewrite Nat.sub_0_r. destruct (pick_distinct _ _ _) as [c o]. by rewrite IH, app_assoc.
  - lia.
  - intros i Hi. simpl. symmetry. by apply rotate_visit.
Qed.
End Spec.

(** ** What the ring guarantees *)

Section Guarantees.
Context `{C : Crypto} {A : Type}.
Notation RingNode := (RingNode A).
Notation ringEntry := (ringEntry A).

(** The documented contract of [sort.Slice] with the ring's comparison. *)
Definition sorts (sort : list ringEntry → list ringEntry) : Prop :=
  ∀ l, sort l ≡ₚ l ∧ StronglySorted idx_le (sort l).

Lemma ResponsibleHSDirs_spec sort blinded num len srv (nodes : list RingNode) : sorts sort →
  ResponsibleHSDirs sort blinded num len srv nodes =
  replicas_spec hsDirNReplicas 1 (sort (ring_entries srv num len nodes)) blinded num len ∅.
Proof.
  intros Hs. unfold ResponsibleHSDirs. cbv zeta. destruct (Hs (ring_entries srv num len nodes)) as [_ Hsorted].
  destruct (Nat.eqb_spec (length (sort (ring_entries srv num len nodes))) 0) as [H0|_].
  - apply length_zero_iff_nil in H0. by rewrite H0.
  - by rewrite ring_replicas_spec.
Qed.

(** C27: the ring code implements the placement rule of the specification: for
    each replica, the three nodes that follow the service index clockwise and
    were not chosen already, for whatever way [sort.Slice] orders equal
    indices. *)
Theorem ResponsibleHSDirs_clockwise (sort : list ringEntry → list ringEntry)
    (blinded srv : bytes) (num len : Z) (nodes : list RingNode) :
  sorts sort →
  let ring := sort (ring_entries srv num len nodes) in
  let r1 := pick_distinct 3 ∅ (clockwise (serviceIndex blinded 1 len num) ring) in
  let r2 := pick_distinct 3 r1.1 (clockwise (serviceIndex blinded 2 len num) ring) in
  ResponsibleHSDirs sort blinded num len srv nodes = r1.2 ++ r2.2.
Proof.
  intros Hs. cbv zeta. rewrite ResponsibleHSDirs_spec by done.
  unfold hsDirNReplicas. cbn [replicas_spec]. unfold hsDirSpreadFetch.
  change (1 + 1)%Z with 2%Z. destruct (pick_distinct 3 ∅ _) as [c1 o1]. cbn [fst snd].
  destruct (pick_distinct 3 c1 _) as [c2 o2]. cbn [fst snd]. by rewrite app_nil_r.
Qed.

Lemma ring_entries_perm srv num len (nodes nodes' : list RingNode) :
  nodes ≡ₚ nodes' → ring_entries srv num len nodes ≡ₚ ring_entries srv num len nodes'.
Proof.
  intros H. unfold ring_entries. apply Permutation_map.
  induction H; simpl; repeat case_match; eauto using Permutation.
Qed.

(** Services and clients agree: two parties that know the same relays, listed
    in any order and sorted by any correct sort, compute the same responsible
    directories in the same order, as long as no two relays share a ring
    index. *)
Theorem ResponsibleHSDirs_agree (sort sort' : list ringEntry → list ringEntry)
    (blinded srv : bytes) (num len : Z) (nodes nodes' : list RingNode) :
  sorts sort → sorts sort' → nodes ≡ₚ nodes' →
  (∀ n1 n2, n1 ∈ nodes → n2 ∈ nodes →
     nodeIndex (EdID n1) srv num len = nodeIndex (EdID n2) srv num len → n1 = n2) →
  ResponsibleHSDirs sort blinded num len srv nodes =
  ResponsibleHSDirs sort' blinded num len srv nodes'.
Proof.
  intros Hs Hs' Hp Hinj. rewrite !ResponsibleHSDirs_spec by done. f_equal.
  destruct (Hs (ring_entries srv num len nodes)) as [P1 S1].
  destruct (Hs' (ring_entries srv num len nodes')) as [P2 S2].
  assert (∀ e, e ∈ ring_entries srv num len nodes →
    node e ∈ nodes ∧ idx_ e = nodeIndex (EdID (node e)) srv num len) as Hin.
  { intros e He. unfold ring_entries in He. apply list_elem_of_fmap in He as (n & -> & Hn).
    apply list_elem_of_In, List.filter_In in Hn as [Hn _]. by apply list_elem_of_In in Hn. }
  eapply StronglySorted_unique_strong; [|exact S1|exact S2|].
  - intros x1 x2 Hx1 Hx2 Hle1 Hle2. rewrite P1 in Hx1. rewrite P2, <-ring_entries_perm in Hx2 by done.
    destruct (Hin x1 Hx1) as [N1 I1], (Hin x2 Hx2) as [N2 I2].
    unfold idx_le in Hle1, Hle2. rewrite (Compare_antisym (idx_ x1)) in Hle2.
    assert (idx_ x1 = idx_ x2) as E by (apply Compare_eq; lia).
    rewrite I1, I2 in E. apply Hinj in E; [|done..]. destruct x1, x2; simpl in *; by subst.
  - rewrite P1, P2. by apply ring_entries_perm.
Qed.

Definition ids (l : list RingNode) : gset bytes := list_to_set (map EdID l).

Lemma size_cons_difference (x : bytes) (X chosen : gset bytes) :
  x ∉ chosen → size (({[x]} ∪ X) ∖ chosen) = S (size (X ∖ ({[x]} ∪ chosen))).
Proof.
  intros H. replace (({[x]} ∪ X) ∖ chosen) with ({[x]} ∪ (X ∖ ({[x]} ∪ chosen))).
  - rewrite size_union by set_solver. by rewrite size_singleton.
  - apply set_eq. intros y. destruct (decide (y = x)); set_solver.
Qed.

Lemma pick_distinct_spec n chosen (l : list RingNode) :
  let r := pick_distinct n chosen l in
  r.1 = chosen ∪ ids r.2 ∧ NoDup (map EdID r.2) ∧ ids r.2 ## chosen ∧ r.2 ⊆ l ∧
  length r.2 = Nat.min n (size (ids l ∖ chosen)).
Proof.
  cbv zeta. revert n chosen. induction l as [|x l IH]; intros n chosen.
  { simpl. unfold ids. simpl. rewrite empty_difference_L, size_empty, Nat.min_0_r.
    split_and!; [set_solver|constructor|set_solver|done|done]. }
  cbn [pick_distinct]. destruct n as [|n].
  { simpl. unfold ids. simpl. split_and!; [set_solver|constructor|set_solver|set_solver|done]. }
  case_decide as Hin.
  - destruct (IH (S n) chosen) as (H1 & H2 & H3 & H4 & H5). split_and!; [done..|set_solver|].
    rewrite H5. do 2 f_equal. unfold ids. simpl. set_solver.
  - destruct (IH n ({[EdID x]} ∪ chosen)) as (H1 & H2 & H3 & H4 & H5).
    destruct (pick_distinct n _ l) as [c o]. cbn [fst snd] in *. unfold ids in *.
    cbn [map length]. change (list_to_set (EdID x :: ?t)) with ({[EdID x]} ∪ list_to_set (C:=gset bytes) t).
    split_and!.
    + set_solver.
    + apply list.NoDup_cons. split; [|done]. intros Hx. apply (H3 (EdID x)); [|set_solver].
      by apply elem_of_list_to_set.
    + set_solver.
    + set_solver.
    + rewrite H5. pose proof (size_cons_difference (EdID x) (list_to_set (map EdID l)) chosen Hin). lia.
Qed.

Lemma clockwise_perm svc ring : clockwise svc ring ≡ₚ map (node (A:=A)) ring.
Proof.
  unfold clockwise. apply Permutation_map. induction ring as [|e ring IH]; simpl; [done|].
  destruct (after svc e); simpl; [by constructor|].
  rewrite <-Permutation_middle. by constructor.
Qed.

Lemma ids_perm l l' : l ≡ₚ l' → ids l = ids l'.
Proof. intros H. unfold ids. apply set_eq. intros x. rewrite !elem_of_list_to_set. by rewrite H. Qed.

(** The responsible directories are distinct relays of the list with 32-byte
    identities, and there are six of them, or all the relays when fewer than six
    different ones exist. *)
Theorem ResponsibleHSDirs_count (sort : list ringEntry → list ringEntry)
    (blinded srv : bytes) (num len : Z) (nodes : list RingNode) :
  sorts sort →
  let out := ResponsibleHSDirs sort blinded num len srv nodes in
  let usable := List.filter (λ n, bool_decide (length (EdID n) = 32)) nodes in
  NoDup (map EdID out) ∧ out ⊆ usable ∧ length out = Nat.min 6 (size (ids usable)).
Proof.
  intros Hs. cbv zeta. rewrite ResponsibleHSDirs_spec by done.
  unfold hsDirNReplicas. cbn [replicas_spec]. unfold hsDirSpreadFetch. change (1 + 1)%Z with 2%Z.
  set (usable := List.filter _ nodes).
  destruct (Hs (ring_entries srv num len nodes)) as [Hp _].
  set (ring := sort _) in *.
  assert (∀ svc, clockwise svc ring ≡ₚ usable) as Hcw.
  { intros svc. rewrite clockwise_perm, Hp. unfold ring_entries. fold usable.
    rewrite List.map_map. simpl. by rewrite List.map_id. }
  destruct (pick_distinct_spec 3 ∅ (clockwise (serviceIndex blinded 1 len num) ring)) as (A1 & A2 & A3 & A4 & A5).
  destruct (pick_distinct 3 ∅ _) as [c1 o1]. cbn [fst snd] in *.
  destruct (pick_distinct_spec 3 c1 (clockwise (serviceIndex blinded 2 len num) ring)) as (B1 & B2 & B3 & B4 & B5).
  destruct (pick_distinct 3 c1 _) as [c2 o2]. cbn [fst snd] in *. rewrite app_nil_r.
  rewrite (ids_perm _ _ (Hcw _)) in A5. rewrite (ids_perm _ _ (Hcw _)) in B5.
  assert (ids o1 ⊆ ids usable) as Hsub.
  { intros x. unfold ids. rewrite !elem_of_list_to_set, !list_elem_of_fmap. intros (n & -> & Hn).
    exists n. split; [done|]. apply A4 in Hn. by rewrite Hcw in Hn. }
  assert (length o1 = size (ids o1)) as Hl1.
  { unfold ids. rewrite size_list_to_set by done. by rewrite length_map. }
  split_and!.
  - rewrite map_app, list.NoDup_app. split_and!; [done| |done]. intros x Hx1 Hx2.
    apply (B3 x); [by apply elem_of_list_to_set|]. rewrite A1. apply elem_of_union_r. by apply elem_of_list_to_set.
  - intros x. rewrite elem_of_app. intros [Hx|Hx]; [apply A4 in Hx|apply B4 in Hx]; by rewrite Hcw in Hx.
  - rewrite length_app, B5, A1, union_empty_l_L, size_difference by done.
    rewrite difference_empty_L in A5. lia.
Qed.
End Guarantees.

(** ** Time periods *)

(** A time period runs from noon to noon UTC, and within it the shared random
    value a client fetches with changes at midnight: the current one in the
    first half of the period, the previous one in the second. *)
Theorem time_period_noon (unix day : Z) (cur prev : bytes) :
  (0 ≤ day)%Z → (day * 86400 + 43200 ≤ unix < (day + 1) * 86400 + 43200)%Z → (unix < 2 ^ 63)%Z →
  length cur = 32 → length prev = 32 →
  TimePeriod unix = (day, 1440%Z) ∧
  SRVForFetch unix cur prev = if (unix <? (day + 1) * 86400)%Z then cur else prev.
Proof.
  intros Hd Hu Hmax Hc Hp. split.
  - unfold TimePeriod, u64, rotationOffsetMin, periodLengthMinutes.
    rewrite (Z.mod_small unix) by lia. pose proof (Z.div_mod unix 60 ltac:(lia)).
    pose proof (Z.mod_pos_bound unix 60 ltac:(lia)).
    rewrite Z.mod_small by lia. f_equal. symmetry. apply Z.div_unique with (unix / 60 - 720 - 1440 * day)%Z; lia.
  - unfold SRVForFetch. rewrite !decide_True by done. unfold utc_Hour.
    destruct (Z.ltb_spec unix ((day + 1) * 86400)).
    + assert (unix mod 86400 = unix - day * 86400)%Z as ->.
      { symmetry. apply Z.mod_unique with day; lia. }
      destruct (Z.leb_spec 12 ((unix - day * 86400) / 3600)) as [|Hlt]; [done|].
      exfalso. assert (12 ≤ (unix - day * 86400) / 3600)%Z by (apply Z.div_le_lower_bound; lia). lia.
    + assert (unix mod 86400 = unix - (day + 1) * 86400)%Z as ->.
      { symmetry. apply Z.mod_unique with (day + 1)%Z; lia. }
      destruct (Z.leb_spec 12 ((unix - (day + 1) * 86400) / 3600)) as [Hge|]; [|done].
      exfalso. assert ((unix - (day + 1) * 86400) / 3600 < 12)%Z by (apply Z.div_lt_upper_bound; lia). lia.
Qed.

Lemma time_period_noon_witness :
  TimePeriod 1700000000 = (19675, 1440)%Z ∧ SRVForFetch 1700000000 (replicate 32 x01) (replicate 32 x02) = replicate 32 x01.
Proof.
  destruct (time_period_noon 1700000000 19675 (replicate 32 x01) (replicate 32 x02)
    ltac:(lia) ltac:(lia) ltac:(lia) eq_refl eq_refl) as [H1 H2].
  split; [exact H1|]. rewrite H2. reflexivity.
Defined.
