(* ===== verification/OnionAddr.v ===== *)
(** * [pkg/onion/address.go] and [intro.go]: v3 addresses and the introduction
    cell.

    Base32 as [encoding/base32] computes it without padding, the address
    checksum, and the INTRODUCE1 body with its encrypted and authenticated
    part.  Letter case is modelled for ASCII hosts. *)

From S2P Require Import Prelude ByteUtil GoNet TorCrypto Directory.

(** ** [base32.StdEncoding.WithPadding(base32.NoPadding)] *)

(** The [n] base-32 digits of a number, most significant first. *)
Fixpoint digits32 (n : nat) (v : Z) : list Z :=
  match n with
  | O => []
  | S n => digits32 n (v / 32) ++ [(v mod 32)%Z]
  end.
Definition value32 (ds : list Z) : Z := foldl (λ acc d, acc * 32 + d)%Z 0%Z ds.

Definition b32_char (d : Z) : byte := to_byte (if (d <? 26)%Z then 65 + d else 24 + d).
(** The decoding table; [None] is its 0xFF. *)
Definition b32_digit (c : byte) : option Z :=
  let v := bval c in
  if (65 <=? v)%Z && (v <=? 90)%Z then Some (v - 65)%Z
  else if (50 <=? v)%Z && (v <=? 55)%Z then Some (v - 24)%Z
  else None.

(** How many characters a group of bytes takes, and how many bytes a group of
    characters gives (none for the lengths no encoder produces). *)
Definition b32_chars (n : nat) : nat :=
  match n with 0 => 0 | 1 => 2 | 2 => 4 | 3 => 5 | 4 => 7 | _ => 8 end.
Definition b32_bytes (n : nat) : nat :=
  match n with 8 => 5 | 7 => 4 | 5 => 3 | 4 => 2 | 2 => 1 | _ => 0 end.

(** One group of at most five bytes, low bits zero. *)
Definition b32_encode_group (g : bytes) : bytes :=
  take (b32_chars (length g)) (map b32_char (digits32 8 (be_decode (g ++ zeros (5 - length g))))).
(** One group of at most eight digits. *)
Definition b32_decode_group (g : list Z) : bytes :=
  take (b32_bytes (length g)) (be_encode 5 (value32 (g ++ replicate (8 - length g) 0%Z))).

(** [EncodeToString] and [DecodeString], a group at a time; [fuel] bounds the
    number of groups, so the length of the input is enough. *)
Fixpoint b32_encode (fuel : nat) (b : bytes) : bytes :=
  match fuel with
  | O => []
  | S fuel => match b with
              | [] => []
              | _ => b32_encode_group (take 5 b) ++ b32_encode fuel (drop 5 b)
              end
  end.
Definition EncodeToString (b : bytes) : bytes := b32_encode (length b) b.

Fixpoint b32_decode (fuel : nat) (ds : list Z) : bytes :=
  match fuel with
  | O => []
  | S fuel => match ds with
              | [] => []
              | _ => b32_decode_group (take 8 ds) ++ b32_decode fuel (drop 8 ds)
              end
  end.
(** Line breaks are dropped first; any other byte outside the alphabet is an
    error. *)
Definition DecodeString (s : bytes) : option bytes :=
  let s := List.filter (λ c, negb (bool_decide (c = x0a ∨ c = x0d))) s in
  ds ← mapM b32_digit s; Some (b32_decode (length ds) ds).

(** [strings.TrimSuffix]. *)
Definition TrimSuffix (s suffix : bytes) : bytes :=
  if decide (length suffix ≤ length s ∧ drop (length s - length suffix) s = suffix)
  then take (length s - length suffix) s else s.

(** ** address.go *)

Definition onionSuffix : bytes := go".onion".
Definition addressB32Len : nat := 56.
Definition versionV3 : byte := x03.
Definition pubKeyLen : nat := 32.
Definition checksumPrefix : bytes := go".onion checksum".

Record Address := mkAddress { PublicKey : bytes }.

Inductive address_error := BadLength | BadBase32 | BadDecodedLength | BadVersion | BadChecksum.

Section Address.
Context `{C : Crypto}.

Definition addressChecksum (pub : bytes) : bytes :=
  take 2 (SHA3_256 [checksumPrefix; pub; [versionV3]]).

Definition ParseAddress (host : bytes) : outcome address_error Address :=
  let h := ToLower (TrimSuffix (ToLower host) onionSuffix) in
  if negb (length h =? addressB32Len) then Err BadLength
  else match DecodeString (ToUpper h) with
  | None => Err BadBase32
  | Some raw =>
      if negb (length raw =? pubKeyLen + 2 + 1) then Err BadDecodedLength
      else
        let pub := take pubKeyLen raw in
        checksum ← slice raw pubKeyLen (pubKeyLen + 2);
        version ← idx raw (pubKeyLen + 2);
        if negb (bool_decide (version = versionV3)) then Err BadVersion
        else
          let want := addressChecksum pub in
          w0 ← idx want 0; c0 ← idx checksum 0;
          if negb (bool_decide (w0 = c0)) then Err BadChecksum
          else
            w1 ← idx want 1; c1 ← idx checksum 1;
            if negb (bool_decide (w1 = c1)) then Err BadChecksum
            else Ok {| PublicKey := pub |}
  end.

(** [cs[0], cs[1]] of the two-byte checksum. *)
Definition Address_String (a : Address) : bytes :=
  let buf := PublicKey a ++ addressChecksum (PublicKey a) ++ [versionV3] in
  ToLower (EncodeToString buf) ++ onionSuffix.

Definition Credential (identityPub : bytes) : bytes := SHA3_256 [go"credential"; identityPub].
Definition Subcredential (identityPub blindedPub : bytes) : bytes :=
  let cred := Credential identityPub in SHA3_256 [go"subcredential"; cred; blindedPub].

(** ** intro.go *)

Definition introAuthKeyTypeEd25519 : byte := x02.
Definition introOnionKeyTypeNtor : byte := x01.
Definition rendezvousCookieLen : nat := 20.
Definition introPlaintextPad : nat := 246.

Definition BuildIntroduce1Plaintext (cookie rpNtorKey rpLinkSpecs : bytes) : bytes :=
  let w := Writer.NewWriter 64 in
  let w := Writer.Write w cookie in
  let w := Writer.Byte w x00 in
  let w := Writer.Byte w introOnionKeyTypeNtor in
  let w := Writer.U16 w (u16 (Z.of_nat (length rpNtorKey))) in
  let w := Writer.Write w rpNtorKey in
  let w := Writer.Write w rpLinkSpecs in
  let body := Writer.Bytes w in
  if length body <? introPlaintextPad then body ++ zeros (introPlaintextPad - length body) else body.

Definition intro_header (authKey : bytes) : bytes :=
  Writer.Bytes (Writer.Byte (Writer.Write (Writer.U16 (Writer.Byte
    (Writer.Write (Writer.NewWriter 56) (zeros 20)) introAuthKeyTypeEd25519)
    (u16 (Z.of_nat (length authKey)))) authKey) x00).

Definition BuildIntroduce1 (authKey encKey macKey clientX plaintext : bytes)
    : outcome crypto_error bytes :=
  let header := intro_header authKey in
  block ← NewCTR encKey;
  let encrypted := (XORKeyStream block plaintext).1 in
  let mac := HSNtor.HSMac macKey [header; clientX; encrypted] in
  Ok (Writer.Bytes (Writer.Write (Writer.Write (Writer.Write (Writer.Write
    (Writer.NewWriter (length header + length clientX + length encrypted + length mac))
    header) clientX) encrypted) mac)).

(** [ok = false] is [None]. *)
Definition ParseRendezvous2 (body : bytes) : option (bytes * bytes) :=
  if length body <? 64 then None else Some (take 32 body, take 32 (drop 32 body)).

End Address.

(** ** Base32 round trips *)

Lemma length_digits32 n v : length (digits32 n v) = n.
Proof.
  revert v. induction n as [|n IH]; intros v; simpl; [done|]. rewrite length_app, IH. simpl. lia.
Qed.

Lemma value32_snoc ds d : value32 (ds ++ [d]) = (value32 ds * 32 + d)%Z.
Proof. unfold value32. by rewrite foldl_app. Qed.

Lemma value32_digits n v : value32 (digits32 n v) = (v mod 32 ^ Z.of_nat n)%Z.
Proof.
  revert v. induction n as [|n IH]; intros v; cbn [digits32].
  { cbn. by rewrite Z.mod_1_r. }
  rewrite value32_snoc, IH, Nat2Z.inj_succ, Z.pow_succ_r by lia. rewrite Z.rem_mul_r by lia. lia.
Qed.

Definition digit32 (d : Z) : Prop := (0 ≤ d < 32)%Z.

Lemma digits32_range n v : List.Forall digit32 (digits32 n v).
Proof.
  revert v. induction n as [|n IH]; intros v; cbn [digits32]; [constructor|].
  apply List.Forall_app. split; [apply IH|]. repeat constructor; apply Z.mod_pos_bound; lia.
Qed.

Lemma value32_range ds : List.Forall digit32 ds → (0 ≤ value32 ds < 32 ^ Z.of_nat (length ds))%Z.
Proof.
  induction ds as [|d ds IH] using rev_ind; [done|]. intros H. apply List.Forall_app in H as [H1 H2].
  inversion H2 as [|? ? Hd _]; subst. specialize (IH H1). unfold digit32 in Hd.
  rewrite value32_snoc, length_app, Nat2Z.inj_add, Z.pow_add_r by lia. simpl. lia.
Qed.

Lemma digits32_value ds : List.Forall digit32 ds → digits32 (length ds) (value32 ds) = ds.
Proof.
  induction ds as [|d ds IH] using rev_ind; [done|]. intros H. apply List.Forall_app in H as [H1 H2].
  inversion H2 as [|? ? Hd _]; subst. unfold digit32 in Hd.
  rewrite length_app, Nat.add_comm. cbn [length Nat.add digits32]. rewrite value32_snoc.
  rewrite Z.div_add_l, (Z.div_small d), Z.add_0_r by lia. rewrite IH by done.
  f_equal. f_equal. rewrite Z.add_comm, Z.mod_add, Z.mod_small by lia. done.
Qed.

Lemma b32_digit_char d : digit32 d → b32_digit (b32_char d) = Some d.
Proof.
  intros H. unfold digit32 in H. unfold b32_char, b32_digit. rewrite bval_to_byte.
  destruct (Z.ltb_spec d 26); rewrite Z.mod_small by lia;
    repeat match goal with |- context [(?a <=? ?b)%Z] => destruct (Z.leb_spec a b); try lia end;
    simpl; f_equal; lia.
Qed.

Lemma b32_char_digit c d : b32_digit c = Some d → b32_char d = c ∧ digit32 d.
Proof.
  unfold b32_digit, b32_char, digit32. intros H.
  destruct ((65 <=? bval c)%Z && (bval c <=? 90)%Z) eqn:E1; [|destruct ((50 <=? bval c)%Z && (bval c <=? 55)%Z) eqn:E2; [|done]];
    injection H as <-; bools; (split; [|lia]);
    match goal with |- context [(?a <? ?b)%Z] => destruct (Z.ltb_spec a b); try lia end;
    apply bval_inj; rewrite bval_to_byte, Z.mod_small; lia.
Qed.

(** A full group of five bytes is eight digits, both ways. *)
Lemma group_roundtrip g : length g = 5 →
  b32_decode_group (digits32 8 (be_decode g)) = g.
Proof.
  intros Hg. unfold b32_decode_group. rewrite length_digits32. change (b32_bytes 8) with 5.
  change (8 - 8) with 0. cbn [replicate]. rewrite app_nil_r, value32_digits.
  pose proof (be_decode_range g) as Hr. rewrite Hg in Hr. rewrite Z.mod_small by lia.
  rewrite <-Hg at 1 2. rewrite be_encode_decode. apply take_ge. lia.
Qed.

Lemma group_inverse ds : length ds = 8 → List.Forall digit32 ds →
  digits32 8 (be_decode (b32_decode_group ds)) = ds.
Proof.
  intros Hl Hd. unfold b32_decode_group. rewrite Hl. change (b32_bytes 8) with 5. change (8 - 8) with 0.
  cbn [replicate]. rewrite app_nil_r, take_ge by (rewrite length_be_encode; lia).
  rewrite be_decode_encode. pose proof (value32_range ds Hd) as Hr. rewrite Hl in Hr.
  rewrite Z.mod_small by lia. rewrite <-Hl at 1. by apply digits32_value.
Qed.

Lemma length_decode_group ds : length ds = 8 → length (b32_decode_group ds) = 5.
Proof.
  intros Hl. unfold b32_decode_group. rewrite Hl. change (b32_bytes 8) with 5.
  rewrite take_ge; rewrite length_be_encode; lia.
Qed.

(** The digits of whole groups. *)
Fixpoint group_digits (k : nat) (b : bytes) : list Z :=
  match k with
  | O => []
  | S k => digits32 8 (be_decode (take 5 b)) ++ group_digits k (drop 5 b)
  end.

Lemma b32_encode_groups k fuel b : length b = 5 * k → k ≤ fuel →
  b32_encode fuel b = map b32_char (group_digits k b).
Proof.
  revert fuel b. induction k as [|k IH]; intros fuel b Hb Hf.
  { destruct b; [|simpl in Hb; lia]. by destruct fuel. }
  destruct fuel as [|fuel]; [lia|]. cbn [group_digits]. rewrite map_app, <-(IH fuel) by
    (rewrite ?length_drop; lia).
  assert (length (take 5 b) = 5) as Hl by (rewrite length_take; lia).
  assert (map b32_char (digits32 8 (be_decode (take 5 b))) = b32_encode_group (take 5 b)) as ->.
  { unfold b32_encode_group. rewrite Hl. change (b32_chars 5) with 8. change (5 - 5) with 0.
    unfold zeros. cbn [replicate]. rewrite app_nil_r. symmetry. apply take_ge.
    rewrite length_map, length_digits32. lia. }
  destruct b; [simpl in Hb; lia|done].
Qed.

Lemma b32_decode_groups k fuel b : length b = 5 * k → k ≤ fuel →
  b32_decode fuel (group_digits k b) = b.
Proof.
  revert fuel b. induction k as [|k IH]; intros fuel b Hb Hf.
  { destruct b; [|simpl in Hb; lia]. by destruct fuel. }
  destruct fuel as [|fuel]; [lia|]. cbn [b32_decode group_digits].
  set (ds := digits32 8 _) in *. assert (length ds = 8) as Hl by apply length_digits32.
  destruct (ds ++ group_digits k (drop 5 b)) as [|d l] eqn:E.
  { apply (f_equal length) in E. rewrite length_app, Hl in E. simpl in E. lia. }
  rewrite <-E. rewrite take_app_exact, drop_app_exact by done. unfold ds.
  rewrite group_roundtrip by (rewrite length_take; lia).
  rewrite IH by (rewrite ?length_drop; lia). apply take_drop.
Qed.

Lemma group_digits_range k b : List.Forall digit32 (group_digits k b).
Proof.
  revert b. induction k as [|k IH]; intros b; cbn [group_digits]; [constructor|].
  apply List.Forall_app. split; [apply digits32_range|apply IH].
Qed.

Lemma length_group_digits k b : length (group_digits k b) = 8 * k.
Proof.
  revert b. induction k as [|k IH]; intros b; cbn [group_digits]; [done|].
  rewrite length_app, length_digits32, IH. lia.
Qed.

Lemma group_digits_decode k fuel ds : length ds = 8 * k → k ≤ fuel → List.Forall digit32 ds →
  group_digits k (b32_decode fuel ds) = ds ∧ length (b32_decode fuel ds) = 5 * k.
Proof.
  revert fuel ds. induction k as [|k IH]; intros fuel ds Hl Hf Hd.
  { destruct ds; [|simpl in Hl; lia]. by destruct fuel. }
  destruct fuel as [|fuel]; [lia|]. cbn [b32_decode group_digits].
  destruct ds as [|d0 ds0] eqn:Eds; [simpl in Hl; lia|]. rewrite <-Eds. rewrite <-Eds in Hl, Hd.
  assert (length (take 8 ds) = 8) as H8 by (rewrite length_take; lia).
  pose proof (length_decode_group _ H8) as H5.
  rewrite take_app_exact, drop_app_exact by done.
  rewrite group_inverse; [|done|by apply Forall_take].
  destruct (IH fuel (drop 8 ds)) as [I1 I2];
    [rewrite length_drop; lia|lia|by apply Forall_drop|].
  rewrite I1, length_app, H5, I2. split; [apply take_drop|lia].
Qed.

(** ** Letter case *)

Lemma bval_upper b :
  bval (upper_byte b) = if (97 <=? bval b)%Z && (bval b <=? 122)%Z then (bval b - 32)%Z else bval b.
Proof.
  unfold upper_byte. destruct (_ && _) eqn:E; [|done]. bools. rewrite bval_to_byte, Z.mod_small; lia.
Qed.
Lemma bval_lower b :
  bval (lower_byte b) = if (65 <=? bval b)%Z && (bval b <=? 90)%Z then (bval b + 32)%Z else bval b.
Proof.
  unfold lower_byte. destruct (_ && _) eqn:E; [|done]. bools. rewrite bval_to_byte, Z.mod_small; lia.
Qed.

(** Case analysis on the conditions of nested conditionals, innermost first. *)
Ltac split_ifs :=
  repeat match goal with
         | |- context [if ?c then _ else _] =>
             lazymatch c with context [if _ then _ else _] => fail | _ => destruct c eqn:? end
         end.

Ltac letter_case :=
  intros; apply bval_inj; repeat (rewrite bval_upper || rewrite bval_lower); split_ifs; bools; lia.

Lemma lower_idem b : lower_byte (lower_byte b) = lower_byte b.
Proof. letter_case. Qed.
Lemma lower_upper_lower b : lower_byte (upper_byte (lower_byte b)) = lower_byte b.
Proof. letter_case. Qed.
Lemma upper_lower_char d : digit32 d → upper_byte (lower_byte (b32_char d)) = b32_char d.
Proof.
  intros H. unfold digit32 in H. apply bval_inj. rewrite bval_upper, bval_lower. unfold b32_char.
  rewrite bval_to_byte. destruct (Z.ltb_spec d 26); rewrite Z.mod_small by lia; split_ifs; bools; lia.
Qed.

Lemma ToLower_idem s : ToLower (ToLower s) = ToLower s.
Proof. unfold ToLower. rewrite List.map_map. apply map_ext. apply lower_idem. Qed.
Lemma ToLower_app s t : ToLower (s ++ t) = ToLower s ++ ToLower t.
Proof. apply map_app. Qed.

Lemma TrimSuffix_app s t : TrimSuffix (s ++ t) t = s.
Proof.
  unfold TrimSuffix. rewrite length_app. replace (length s + length t - length t) with (length s) by lia.
  rewrite drop_app_length, take_app_length, decide_True; [done|]. split; [lia|done].
Qed.

(** ** The decoder on and off the alphabet *)

Lemma mapM_b32_char ds : List.Forall digit32 ds → mapM b32_digit (map b32_char ds) = Some ds.
Proof.
  induction 1 as [|d ds Hd Hds IH]; [done|]. cbn [map mapM]. rewrite b32_digit_char by done.
  cbn [mbind option_bind]. by rewrite IH.
Qed.

Lemma mapM_b32_inv s ds : mapM b32_digit s = Some ds → s = map b32_char ds ∧ List.Forall digit32 ds.
Proof.
  revert ds. induction s as [|c s IH]; intros ds; cbn [mapM].
  { intros H. injection H as <-. by split; [|constructor]. }
  destruct (b32_digit c) as [d|] eqn:Ed; cbn [mbind option_bind]; [|done].
  destruct (mapM b32_digit s) as [ds'|]; cbn [mbind option_bind]; [|done].
  intros H. injection H as <-. destruct (IH ds' eq_refl) as [-> ?].
  apply b32_char_digit in Ed as [<- ?]. split; [done|by constructor].
Qed.

Lemma b32_char_no_break d : digit32 d → b32_char d ≠ x0a ∧ b32_char d ≠ x0d.
Proof.
  intros H. unfold digit32 in H.
  assert (50 ≤ bval (b32_char d))%Z as Hb.
  { unfold b32_char. rewrite bval_to_byte. destruct (Z.ltb_spec d 26); rewrite Z.mod_small; lia. }
  split; intros E; rewrite E in Hb; vm_compute in Hb; by apply Hb.
Qed.

Lemma DecodeString_chars ds : List.Forall digit32 ds →
  DecodeString (map b32_char ds) = Some (b32_decode (length ds) ds).
Proof.
  intros H. unfold DecodeString.
  assert (List.filter (λ c, negb (bool_decide (c = x0a ∨ c = x0d))) (map b32_char ds) = map b32_char ds) as ->.
  { induction H as [|d ds Hd Hds IH]; [done|]. cbn [map List.filter].
    destruct (b32_char_no_break d Hd). rewrite bool_decide_false by tauto. cbn [negb]. by rewrite IH. }
  by rewrite mapM_b32_char.
Qed.

Lemma length_b32_decode fuel ds : 8 * length (b32_decode fuel ds) ≤ 5 * length ds.
Proof.
  revert ds. induction fuel as [|fuel IH]; intros ds; [simpl; lia|]. cbn [b32_decode].
  destruct ds as [|d ds'] eqn:E; [simpl; lia|]. rewrite <-E. clear d ds' E.
  rewrite length_app. specialize (IH (drop 8 ds)). rewrite length_drop in IH.
  assert (8 * length (b32_decode_group (take 8 ds)) ≤ 5 * length (take 8 ds)) as Hg.
  { unfold b32_decode_group. rewrite length_take, length_be_encode.
    remember (length (take 8 ds)) as n eqn:En. assert (n ≤ 8) by (subst; apply length_take_le). clear En.
    do 9 (destruct n as [|n]; [simpl; lia|]). lia. }
  rewrite length_take in Hg. lia.
Qed.

Lemma filter_length_le {B} (f : B → bool) l : length (List.filter f l) ≤ length l.
Proof. induction l; simpl; [lia|]. destruct (f _); simpl; lia. Qed.
Lemma filter_full {B} (f : B → bool) l : length (List.filter f l) = length l → List.filter f l = l.
Proof.
  induction l as [|x l IH]; simpl; [done|]. pose proof (filter_length_le f l).
  destruct (f x); simpl; intros; [f_equal; apply IH; lia|lia].
Qed.

(** A text of 56 characters that decodes to 35 bytes has no line breaks, and is
    the encoding of what it decodes to. *)
Lemma DecodeString_35 s raw : length s = 56 → DecodeString s = Some raw → length raw = 35 →
  EncodeToString raw = s.
Proof.
  intros Hs Hd Hr. unfold DecodeString in Hd.
  set (f := List.filter _ s) in Hd. destruct (mapM b32_digit f) as [ds|] eqn:Em; [|done].
  injection Hd as <-. apply mapM_b32_inv in Em as [Ef Hds].
  pose proof (length_b32_decode (length ds) ds) as Hle. rewrite Hr in Hle.
  assert (length f = length ds) as Hlf by (by rewrite Ef, length_map).
  pose proof (filter_length_le (λ c, negb (bool_decide (c = x0a ∨ c = x0d))) s) as Hf.
  fold f in Hf. assert (f = s) as Hfs by (unfold f; apply filter_full; fold f; lia).
  assert (length ds = 56) as H56 by lia.
  destruct (group_digits_decode 7 (length ds) ds) as [G1 G2]; [done|lia|done|].
  unfold EncodeToString. rewrite (b32_encode_groups 7) by lia. by rewrite G1, <-Ef.
Qed.

Section AddressFacts.
Context `{C : Crypto} `{!CryptoLaws C}.

Lemma length_addressChecksum pub : length (addressChecksum pub) = 2.
Proof. unfold addressChecksum, SHA3_256. rewrite length_take, sha3_256_length. done. Qed.

(** An address prints and parses back: for a 32-byte key, parsing the printed
    host gives the key again. *)
Theorem address_roundtrip (pub : bytes) :
  length pub = 32 → ParseAddress (Address_String (mkAddress pub)) = Ok (mkAddress pub).
Proof.
  intros Hp. unfold Address_String. cbn [PublicKey].
  set (buf := pub ++ addressChecksum pub ++ [versionV3]).
  assert (length buf = 35) as Hbuf
    by (unfold buf; rewrite !length_app, Hp, length_addressChecksum; done).
  assert (EncodeToString buf = map b32_char (group_digits 7 buf)) as He
    by (unfold EncodeToString; apply b32_encode_groups; lia).
  pose proof (group_digits_range 7 buf) as Hr. pose proof (length_group_digits 7 buf) as Hlg.
  unfold ParseAddress. cbv zeta. rewrite ToLower_app, ToLower_idem.
  change (ToLower onionSuffix) with onionSuffix. rewrite TrimSuffix_app, ToLower_idem.
  assert (length (ToLower (EncodeToString buf)) = 56) as Hl
    by (unfold ToLower; rewrite length_map, He, length_map; lia).
  rewrite Hl. change (negb (56 =? addressB32Len)) with false. cbn iota.
  assert (ToUpper (ToLower (EncodeToString buf)) = map b32_char (group_digits 7 buf)) as ->.
  { rewrite He. unfold ToUpper, ToLower. rewrite !List.map_map. apply map_ext_in. intros d Hd.
    apply upper_lower_char. rewrite List.Forall_forall in Hr. by apply Hr. }
  rewrite DecodeString_chars by done. rewrite b32_decode_groups by lia. cbn iota.
  rewrite Hbuf. change (negb (35 =? pubKeyLen + 2 + 1)) with false. cbn iota.
  change pubKeyLen with 32. change (32 + 2) with 34.
  assert (take 32 buf = pub) as -> by (by apply take_app_exact).
  rewrite slice_in_range by lia. change (34 - 32) with 2. osimpl.
  assert (drop 32 buf = addressChecksum pub ++ [versionV3]) as Hd by (by apply drop_app_exact).
  rewrite Hd, take_app_exact by apply length_addressChecksum.
  assert (buf !! 34 = Some versionV3) as Hv.
  { change 34 with (32 + 2). rewrite <-lookup_drop, Hd.
    rewrite lookup_app_r; rewrite length_addressChecksum; [done|lia]. }
  rewrite (proj2 (idx_Ok buf 34 versionV3)) by done. osimpl.
  rewrite bool_decide_true by done. osimpl.
  pose proof (length_addressChecksum pub) as Hcs.
  destruct (addressChecksum pub) as [|a [|b [|]]]; try (simpl in Hcs; lia).
  unfold idx. cbn [lookup list_lookup]. osimpl. rewrite !bool_decide_true by done. done.
Qed.

(** C40: parsing is canonical: a host that is accepted is, up to letter case and
    the optional suffix, the printed form of the address it gave; so an address
    has one spelling. *)
Theorem address_canonical (host : bytes) (a : Address) :
  ParseAddress host = Ok a →
  length (PublicKey a) = 32 ∧
  Address_String a = ToLower (TrimSuffix (ToLower host) onionSuffix) ++ onionSuffix.
Proof.
  unfold ParseAddress. cbv zeta. set (h := ToLower (TrimSuffix (ToLower host) onionSuffix)).
  assert (ToLower (ToUpper h) = h) as Hcase.
  { unfold h, ToLower, ToUpper. rewrite !List.map_map. apply map_ext. intros x. apply lower_upper_lower. }
  clearbody h. destruct (Nat.eqb_spec (length h) addressB32Len) as [Hl|]; cbn [negb]; [|done].
  destruct (DecodeString (ToUpper h)) as [raw|] eqn:Hd; [|done].
  destruct (Nat.eqb_spec (length raw) (pubKeyLen + 2 + 1)) as [Hr|]; cbn [negb]; [|done].
  change (pubKeyLen + 2 + 1) with 35 in Hr. change pubKeyLen with 32. change (32 + 2) with 34.
  rewrite slice_in_range by lia. osimpl. change (34 - 32) with 2.
  destruct (idx_in_range (E:=address_error) raw 34) as [v Hv]; [lia|]. rewrite Hv. osimpl.
  apply idx_Ok in Hv. destruct (bool_decide (v = versionV3)) eqn:Ev; osimpl; [|done]. bools. subst v.
  set (pub := take 32 raw). set (cs := take 2 (drop 32 raw)).
  assert (length pub = 32) as Hp by (unfold pub; rewrite length_take; lia).
  assert (length cs = 2) as Hc by (unfold cs; rewrite length_take, length_drop; lia).
  assert (raw = pub ++ cs ++ [versionV3]) as Hraw.
  { rewrite <-(take_drop 32 raw) at 1. fold pub. f_equal.
    rewrite <-(take_drop 2 (drop 32 raw)) at 1. fold cs. f_equal. rewrite drop_drop.
    rewrite (drop_S raw versionV3) by done. change (S (32 + 2)) with 35. by rewrite drop_ge by lia. }
  pose proof (length_addressChecksum pub) as Hw. clearbody pub cs.
  destruct (addressChecksum pub) as [|w0 [|w1 [|]]] eqn:Ew; try (simpl in Hw; lia).
  destruct cs as [|c0 [|c1 [|]]]; try (simpl in Hc; lia).
  unfold idx. cbn [lookup list_lookup]. osimpl.
  destruct (bool_decide (w0 = c0)) eqn:E0; osimpl; [|done]. bools.
  destruct (bool_decide (w1 = c1)) eqn:E1; osimpl; [|done]. bools.
  intros H. injection H as <-. cbn [PublicKey]. split; [done|]. unfold Address_String. cbn [PublicKey].
  rewrite Ew, E0, E1, <-Hraw. f_equal.
  rewrite (DecodeString_35 (ToUpper h) raw); [done| |done|done].
  unfold ToUpper. by rewrite length_map.
Qed.

(** ** The introduction cell *)

Lemma Writer_fields (n : nat) (a b c d : bytes) :
  Writer.Bytes (Writer.Write (Writer.Write (Writer.Write (Writer.Write (Writer.NewWriter n) a) b) c) d) =
  a ++ b ++ c ++ d.
Proof. unfold Writer.Bytes. simpl. by rewrite <-!app_assoc. Qed.

(** What a service does with an INTRODUCE1 body: split off the header, the
    client's key and the trailing MAC, check it, and decrypt. *)
Definition open_introduce1 (hlen : nat) (encKey macKey body : bytes) : option (bytes * bytes) :=
  let rest := drop hlen body in
  let clientX := take 32 rest in
  let enc := take (length rest - 32 - 32) (drop 32 rest) in
  let mac := drop (length rest - 32) rest in
  if decide (mac = HSNtor.HSMac macKey [take hlen body; clientX; enc]) then
    match NewCTR encKey with
    | Ok s => Some (clientX, (XORKeyStream s enc).1)
    | _ => None
    end
  else None.

(** An INTRODUCE1 cell can be opened by the service: with the derived keys it
    authenticates, and gives the client's key and exactly the plaintext that
    was built in, with the header naming the introduction point's key. *)
Theorem introduce1_opens (authKey encKey macKey clientX plaintext : bytes) :
  length clientX = 32 → aes_key_ok encKey = true →
  ∃ body, BuildIntroduce1 authKey encKey macKey clientX plaintext = Ok body ∧
    take (length (intro_header authKey)) body = intro_header authKey ∧
    open_introduce1 (length (intro_header authKey)) encKey macKey body = Some (clientX, plaintext).
Proof.
  intros Hx Hk. unfold BuildIntroduce1, NewCTR, NewCTRWithIV. rewrite Hk. cbv zeta. osimpl.
  set (s := {| skey := encKey; siv := zeros 16; soff := 0 |}).
  set (header := intro_header authKey). set (enc := (XORKeyStream s plaintext).1).
  set (mac := HSNtor.HSMac macKey [header; clientX; enc]).
  assert (length mac = 32) as Hm by apply sha3_256_length.
  eexists. split; [reflexivity|]. rewrite Writer_fields. split; [apply take_app_length|].
  unfold open_introduce1. cbv zeta. rewrite drop_app_length, take_app_length.
  rewrite (take_app_exact 32 clientX), (drop_app_exact 32 clientX) by done.
  replace (length (clientX ++ enc ++ mac) - 32 - 32) with (length enc) by (rewrite !length_app; lia).
  rewrite take_app_length.
  replace (length (clientX ++ enc ++ mac) - 32) with (length (clientX ++ enc)) by (rewrite !length_app; lia).
  rewrite app_assoc, drop_app_length. rewrite decide_True by done.
  unfold NewCTR, NewCTRWithIV. rewrite Hk. fold s. do 2 f_equal. unfold enc.
  by rewrite (XORKeyStream_inverse s plaintext).
Qed.

(** The padded plaintext holds the cookie, the key and the link specifiers at
    the offsets the service reads, and is never shorter than the pad. *)
Lemma introduce1_plaintext cookie key specs :
  length cookie = rendezvousCookieLen → length key = 32 →
  let p := BuildIntroduce1Plaintext cookie key specs in
  take 20 p = cookie ∧ take 32 (drop 24 p) = key ∧ take (length specs) (drop 56 p) = specs ∧
  introPlaintextPad ≤ length p.
Proof.
  intros Hc Hk. unfold BuildIntroduce1Plaintext. cbv zeta. rewrite Hk.
  set (body := Writer.Bytes _).
  assert (body = cookie ++ [x00; introOnionKeyTypeNtor; x00; x20] ++ key ++ specs) as Hb.
  { unfold body, Writer.Bytes. simpl. rewrite <-!app_assoc. do 2 f_equal. }
  clearbody body. unfold rendezvousCookieLen in Hc.
  assert (∀ tail, let p := body ++ tail in take 20 p = cookie ∧ take 32 (drop 24 p) = key ∧
    take (length specs) (drop 56 p) = specs) as Hp.
  { intros tail. cbv zeta. rewrite Hb, <-!app_assoc. split_and!.
    - by apply take_app_exact.
    - rewrite (app_assoc cookie), drop_app_exact by (rewrite length_app, Hc; done). by apply take_app_exact.
    - rewrite (app_assoc cookie), (app_assoc _ key), drop_app_exact by (rewrite !length_app, Hc, Hk; done).
      apply take_app_length. }
  destruct (Nat.ltb_spec (length body) introPlaintextPad).
  - destruct (Hp (zeros (introPlaintextPad - length body))) as (? & ? & ?). split_and!; try done.
    unfold zeros. rewrite length_app, length_replicate. lia.
  - destruct (Hp []) as (? & ? & ?). rewrite app_nil_r in *. split_and!; done.
Qed.
End AddressFacts.
