(* ===== verification/OnionExamples.v ===== *)
(** * Concrete onion addresses, rings and introduction cells.

    A merge sort meets the contract of [sort.Slice]; the ring, address and
    introduction theorems are applied with the toy primitives. *)

From stdpp Require Import sorting.
From S2P Require Import Prelude ByteUtil GoNet TorCrypto ToyCrypto Directory HashRing OnionAddr.

Section Sort.
Context {A : Type}.
#[export] Instance idx_le_dec (x y : ringEntry A) : Decision (idx_le x y).
Proof. unfold idx_le. apply _. Defined.
#[export] Instance idx_le_trans : Transitive (idx_le (A:=A)).
Proof. intros x y z. unfold idx_le. apply Compare_trans. Qed.
#[export] Instance idx_le_total : Total (idx_le (A:=A)).
Proof. intros x y. unfold idx_le. rewrite (Compare_antisym (idx_ x) (idx_ y)). lia. Qed.

Lemma merge_sort_sorts : sorts (A:=A) (merge_sort idx_le).
Proof.
  intros l. split; [apply merge_sort_Permutation|]. apply StronglySorted_merge_sort; apply _.
Qed.
End Sort.

Definition toy_nodes : list (RingNode nat) :=
  map (λ i, mkRingNode (replicate 32 (to_byte (Z.of_nat i))) i) (seq 1 8).
Definition toy_sort : list (ringEntry nat) → list (ringEntry nat) := merge_sort idx_le.
(** A second sort: of the reversed list. *)
Definition toy_sort' (l : list (ringEntry nat)) : list (ringEntry nat) := merge_sort idx_le (reverse l).

Lemma toy_sort'_sorts : sorts toy_sort'.
Proof.
  intros l. destruct (merge_sort_sorts (A:=nat) (reverse l)) as [H1 H2]. split; [|exact H2].
  unfold toy_sort'. rewrite H1. apply reverse_Permutation.
Qed.

Lemma ResponsibleHSDirs_clockwise_witness :
  let ring := toy_sort (ring_entries go"srv" 5 1440 toy_nodes) in
  let r1 := pick_distinct 3 ∅ (clockwise (serviceIndex go"blinded" 1 1440 5) ring) in
  let r2 := pick_distinct 3 r1.1 (clockwise (serviceIndex go"blinded" 2 1440 5) ring) in
  ResponsibleHSDirs toy_sort go"blinded" 5 1440 go"srv" toy_nodes = r1.2 ++ r2.2 ∧ length (r1.2 ++ r2.2) = 6.
Proof.
  split; [|vm_compute; reflexivity].
  exact (ResponsibleHSDirs_clockwise toy_sort go"blinded" go"srv" 5 1440 toy_nodes merge_sort_sorts).
Defined.

Lemma toy_indices_distinct (n1 n2 : RingNode nat) :
  n1 ∈ toy_nodes → n2 ∈ toy_nodes →
  nodeIndex (EdID n1) go"srv" 5 1440 = nodeIndex (EdID n2) go"srv" 5 1440 → n1 = n2.
Proof.
  assert (bool_decide (NoDup (map (λ n, nodeIndex (EdID n) go"srv" 5 1440) toy_nodes)) = true) as H
    by (vm_compute; reflexivity).
  apply bool_decide_eq_true in H. intros H1 H2 He.
  apply list_elem_of_lookup in H1 as [i Hi], H2 as [j Hj].
  assert (i = j) as Eij; [|rewrite Eij, Hj in Hi; injection Hi as ->; reflexivity].
  apply (NoDup_lookup _ i j (nodeIndex (EdID n1) go"srv" 5 1440) H); rewrite list_lookup_fmap.
  - by rewrite Hi.
  - rewrite Hj, He. reflexivity.
Qed.

Lemma ResponsibleHSDirs_agree_witness :
  ResponsibleHSDirs toy_sort go"blinded" 5 1440 go"srv" toy_nodes =
  ResponsibleHSDirs toy_sort' go"blinded" 5 1440 go"srv" (reverse toy_nodes).
Proof.
  apply (ResponsibleHSDirs_agree toy_sort toy_sort' go"blinded" go"srv" 5 1440 toy_nodes (reverse toy_nodes)
    merge_sort_sorts toy_sort'_sorts).
  - symmetry. apply reverse_Permutation.
  - exact toy_indices_distinct.
Defined.

Lemma ResponsibleHSDirs_count_witness :
  length (ResponsibleHSDirs toy_sort go"blinded" 5 1440 go"srv" toy_nodes) = 6.
Proof.
  destruct (ResponsibleHSDirs_count toy_sort go"blinded" go"srv" 5 1440 toy_nodes merge_sort_sorts)
    as (_ & _ & H). etrans; [exact H|]. vm_compute. reflexivity.
Defined.

Definition toy_pub : bytes := replicate 16 x2a ++ replicate 16 xc3.

Lemma address_roundtrip_witness :
  ParseAddress (Address_String (mkAddress toy_pub)) = Ok (mkAddress toy_pub).
Proof. apply (address_roundtrip toy_pub). vm_compute. reflexivity. Defined.

Lemma address_canonical_witness :
  let host := ToUpper (Address_String (mkAddress toy_pub)) in
  ParseAddress host = Ok (mkAddress toy_pub) ∧
  Address_String (mkAddress toy_pub) = ToLower (TrimSuffix (ToLower host) onionSuffix) ++ onionSuffix.
Proof.
  intros host. assert (ParseAddress host = Ok (mkAddress toy_pub)) as H by (vm_compute; reflexivity).
  split; [exact H|]. exact (proj2 (address_canonical host (mkAddress toy_pub) H)).
Defined.

Lemma introduce1_opens_witness :
  ∃ body, BuildIntroduce1 (replicate 32 x05) (replicate 32 x06) (replicate 32 x07) (replicate 32 x08)
            (BuildIntroduce1Plaintext (replicate 20 x09) (replicate 32 x0a) [x01]) = Ok body ∧
    open_introduce1 56 (replicate 32 x06) (replicate 32 x07) body =
    Some (replicate 32 x08, BuildIntroduce1Plaintext (replicate 20 x09) (replicate 32 x0a) [x01]).
Proof.
  destruct (introduce1_opens (replicate 32 x05) (replicate 32 x06) (replicate 32 x07) (replicate 32 x08)
    (BuildIntroduce1Plaintext (replicate 20 x09) (replicate 32 x0a) [x01]) eq_refl eq_refl)
    as (body & H1 & _ & H2).
  exists body. split; [exact H1|].
  replace 56 with (length (intro_header (replicate 32 x05))) by (vm_compute; reflexivity). exact H2.
Defined.
