(* ===== verification/Rendezvous.v ===== *)
(** * The rendezvous handshake against a service that follows the
    specification.

    The service's two steps are written from rend-spec-v3: opening INTRODUCE1
    with the keys derived from its encryption key, and answering with the public
    key and the authentication tag that go into RENDEZVOUS2. *)

From S2P Require Import Prelude ByteUtil GoNet TorCrypto ToyCrypto HashRing OnionAddr.

Section Rendezvous.
Context `{C : Crypto}.

(** What the service reads from an introduction. *)
Record introduction := mkIntroduction { in_X : bytes; in_cookie : bytes; in_rpKey : bytes; in_rest : bytes }.

(** The service with encryption key pair [b] behind introduction key [authKey]. *)
Definition service_open (b : X25519KeyPair) (authKey subcred body : bytes) : option introduction :=
  let hlen := length (intro_header authKey) in
  let X := take 32 (drop hlen body) in
  match ECDH b X with
  | Ok secret =>
      let keys := SHAKE256 64 [concat [secret; authKey; X; Public b; HSNtor.hsProtoB];
                               HSNtor.hsTEnc; HSNtor.hsMExpand; subcred] in
      match open_introduce1 hlen (take 32 keys) (drop 32 keys) body with
      | Some (X, p) => Some (mkIntroduction X (take 20 p) (take 32 (drop 24 p)) (drop 56 p))
      | None => None
      end
  | _ => None
  end.

(** RENDEZVOUS2 and the key seed, with ephemeral key pair [y]. *)
Definition service_answer (b y : X25519KeyPair) (authKey X : bytes) : option (bytes * bytes) :=
  match ECDH y X, ECDH b X with
  | Ok xy, Ok xb =>
      let secret := concat [xy; xb; authKey; Public b; X; Public y; HSNtor.hsProtoB] in
      let seed := HSNtor.hsMac secret [HSNtor.hsTEnc] in
      let verify := HSNtor.hsMac secret [HSNtor.hsTVerify] in
      let auth := HSNtor.hsMac (concat [verify; authKey; Public b; Public y; X; HSNtor.hsProtoB; HSNtor.hsServerL])
                    [HSNtor.hsTMac] in
      Some (Public y ++ auth, seed)
  | _, _ => None
  end.

Context `{!CryptoLaws C}.

Lemma ExpandKeys_total seed : ∃ df db kf kb, HSNtor.HSNtorExpandKeys seed = Ok (df, db, kf, kb) ∧
  length df = 32 ∧ length db = 32 ∧ length kf = 32 ∧ length kb = 32.
Proof.
  unfold HSNtor.HSNtorExpandKeys. cbv zeta. set (k := SHAKE256 _ _).
  assert (length k = 128) as Hk by apply shake256_length.
  rewrite !slice_in_range by (rewrite ?Hk; lia). osimpl. do 4 eexists. split; [reflexivity|].
  rewrite !length_take, !length_drop, Hk. lia.
Qed.

(** The introduction keys are the two halves of the derived block. *)
Lemma intro_keys random b authKey subcred encK macK X st :
  HSNtor.HSNtorClientIntro random (Public b) authKey subcred = Ok (encK, macK, X, st) →
  let x := GenerateX25519 random in
  X = Public x ∧ st = HSNtor.mkHSNtorClient x (Public b) authKey X ∧
  ∃ secret, ECDH b X = Ok secret ∧ ECDH x (Public b) = Ok secret ∧
    let keys := SHAKE256 64 [concat [secret; authKey; X; Public b; HSNtor.hsProtoB]; HSNtor.hsTEnc; HSNtor.hsMExpand; subcred] in
    encK = take 32 keys ∧ macK = drop 32 keys.
Proof.
  unfold HSNtor.HSNtorClientIntro, HSNtor.hsNtorIntroWith. set (x := GenerateX25519 random).
  destruct (bool_decide_reflect (length (Public b) = Curve25519KeyLen)); [|done].
  destruct (bool_decide_reflect (length authKey = HSNtor.Ed25519PubKeyLen)); [|done]. cbn [negb]. cbv zeta.
  rewrite <-(ECDH_agree b x). destruct (ECDH b (Public x)) as [secret|er|] eqn:Es; [|done..].
  cbn [HSNtor.clientX mbind outcome_bind]. set (keys := SHAKE256 _ _).
  assert (length keys = 64) as Hk by apply shake256_length.
  rewrite !slice_in_range by (rewrite ?Hk; compute; lia). osimpl. intros [= <- <- <- <-].
  split_and!; [done..|]. exists secret. split_and!; [done..|]. rewrite take_ge; [done|]. rewrite length_drop, Hk. compute; lia.
Qed.

(** C24: Introduction and rendezvous with a service that follows the
    specification.  The service whose encryption key is in the introduction
    point opens the INTRODUCE1 cell and reads the cookie, the rendezvous point's
    key and its link specifiers that the client put in; whatever ephemeral key
    it answers with, the client accepts the RENDEZVOUS2 (extra bytes behind it
    included) and both have the same seed, from which the keys of the hop
    expand. *)
Theorem rendezvous_agreement (random authKey subcred cookie rpKey specs tail : bytes) (b y : X25519KeyPair)
    (encK macK X rend2 seed : bytes) (st : HSNtor.HSNtorClient) :
  length cookie = 20 → length rpKey = 32 →
  HSNtor.HSNtorClientIntro random (Public b) authKey subcred = Ok (encK, macK, X, st) →
  service_answer b y authKey X = Some (rend2, seed) →
  (∃ intro1 i, BuildIntroduce1 authKey encK macK X (BuildIntroduce1Plaintext cookie rpKey specs) = Ok intro1 ∧
     service_open b authKey subcred intro1 = Some i ∧
     in_X i = X ∧ in_cookie i = cookie ∧ in_rpKey i = rpKey ∧ take (length specs) (in_rest i) = specs) ∧
  (∃ pk auth, ParseRendezvous2 (rend2 ++ tail) = Some (pk, auth) ∧ HSNtor.Finish st pk auth = Ok seed) ∧
  ∃ df db kf kb, HSNtor.HSNtorExpandKeys seed = Ok (df, db, kf, kb).
Proof.
  intros Hc Hr Hi Ha. destruct (intro_keys _ _ _ _ _ _ _ _ Hi) as (HX & -> & secret & Hs & Hs' & -> & ->).
  assert (length X = 32) as HXl by (rewrite HX; apply x25519_base_length).
  split_and!.
  - set (keys := SHAKE256 _ _). assert (length keys = 64) as Hk by apply shake256_length.
    destruct (introduce1_opens authKey (take 32 keys) (drop 32 keys) X (BuildIntroduce1Plaintext cookie rpKey specs))
      as (body & Hb & Hh & Ho); [done|unfold aes_key_ok; by rewrite length_take, Hk|].
    destruct (introduce1_plaintext cookie rpKey specs Hc Hr) as (P1 & P2 & P3 & _).
    assert (take 32 (drop (length (intro_header authKey)) body) = X) as Hx.
    { revert Ho. unfold open_introduce1. cbv zeta. case_decide; [|done]. destruct (NewCTR _); [|done..]. by intros [= ? _]. }
    exists body. eexists. split; [exact Hb|]. unfold service_open. cbv zeta. rewrite Hx, Hs. fold keys. rewrite Ho.
    split; [reflexivity|]. done.
  - revert Ha. unfold service_answer. rewrite Hs, HX, <-(ECDH_agree (GenerateX25519 random) y).
    destruct (ECDH (GenerateX25519 random) (Public y)) as [xy|er|] eqn:Exy; [|done..]. cbv zeta. intros [= <- <-].
    assert (length (Public y) = 32) as Hy by apply x25519_base_length.
    set (auth := HSNtor.hsMac _ [HSNtor.hsTMac]). assert (length auth = 32) as Hal by apply sha3_256_length.
    exists (Public y), auth. split.
    + unfold ParseRendezvous2. rewrite !length_app, Hy, Hal.
      destruct (Nat.ltb_spec (32 + 32 + length tail) 64); [lia|].
      rewrite <-app_assoc, take_app_exact, drop_app_exact, take_app_exact by done. done.
    + unfold HSNtor.Finish. rewrite Hy, bool_decide_true by done. cbn [negb HSNtor.eph HSNtor.encKey HSNtor.authKey HSNtor.clientX].
      rewrite Exy, Hs'. cbn [mbind outcome_bind]. by rewrite bool_decide_true by done.
  - destruct (ExpandKeys_total seed) as (df & db & kf & kb & H & _). by exists df, db, kf, kb.
Qed.

End Rendezvous.

(** A run with concrete keys. *)
Lemma rendezvous_agreement_witness :
  let b := {| priv := be_encode 32 5 |} in
  let authKey := replicate 32 x05 in
  match HSNtor.HSNtorClientIntro (be_encode 32 3) (Public b) authKey (replicate 32 x0d) with
  | Ok (encK, macK, X, st) =>
      match service_answer b {| priv := be_encode 32 9 |} authKey X with
      | Some (rend2, seed) =>
          ∃ pk auth, ParseRendezvous2 (rend2 ++ [x01]) = Some (pk, auth) ∧ HSNtor.Finish st pk auth = Ok seed
      | None => False
      end
  | _ => False
  end.
Proof.
  intros b authKey.
  destruct (HSNtor.HSNtorClientIntro _ _ _ _) as [[[[encK macK] X] st]|er|] eqn:E1; [|vm_compute in E1; discriminate..].
  destruct (service_answer _ _ _ _) as [[rend2 seed]|] eqn:E2.
  - exact (proj1 (proj2 (rendezvous_agreement (be_encode 32 3) authKey (replicate 32 x0d) (replicate 20 x09) (replicate 32 x0a) [x01]
      [x01] b {| priv := be_encode 32 9 |} encK macK X rend2 seed st eq_refl eq_refl E1 E2))).
  - vm_compute in E1. injection E1 as <- <- <- <-. vm_compute in E2. discriminate.
Defined.
