(* ===== verification/OnionDesc.v ===== *)
(** * [pkg/onion]: descriptors of onion services.

    descriptor.go (both encrypted layers and the introduction points),
    sigverify.go (the signature chain from the blinded key) and clientauth.go
    (the cookie of restricted services).  Times are nanoseconds since the Unix
    epoch. *)

From S2P Require Import Prelude ByteUtil GoNet GoText GoTextFacts TorCrypto HashRing OnionAddr.

Definition descSaltLen : nat := 16.
Definition descMacLen : nat := 32.
Definition descKeyLen : nat := 32.
Definition descIVLen : nat := 16.
Definition descMacKeyLen : nat := 32.
Definition constSuperencrypted : bytes := go"hsdir-superencrypted-data".
Definition constEncrypted : bytes := go"hsdir-encrypted-data".

Record IntroPoint := mkIntroPoint {
  LinkSpecifiers : bytes;
  OnionKey : bytes;
  AuthKey : bytes;
  EncKey : bytes
}.
Record Descriptor := mkDescriptor { RevisionCounter : Z; IntroPoints : list IntroPoint }.

Definition descSigPrefix : bytes := go"Tor onion service descriptor sig v3".
Definition descCertVersion : byte := x01.
Definition descCertType : byte := x08.
Definition introAuthCertID : byte := x09.
Definition descCertKeyType : byte := x01.
Definition certExtSignerKey : byte := x04.

Definition descCookieLen : nat := 16.
Definition authClientIDLen : nat := 8.
Definition authIVLen : nat := 16.
Definition authKeysLen : nat := 40.

Inductive onion_error :=
| ShortCert | CertVersion | CertType | CertKeyType | CertExpired | TruncatedExt | ExtOverflow
| NoSigner | WrongSigner | NoCertSignature | BadCertSignature
| NoSigningCert | NoSignatureLine | BadSigLength | BadSignature
| KeywordNotFound | NoMessage | UnterminatedMessage | MessageBase64
| BlobTooShort | MacMismatch | CipherErr (e : crypto_error) | ClientAuthECDH (e : crypto_error)
| OuterLayer (e : onion_error) | FirstLayer (e : onion_error) | MiddleLayer (e : onion_error)
| SecondLayer (e : onion_error) | NoIntroPoints.

(** ** Text helpers *)

Definition decodeB64 (s : bytes) : bytes :=
  match RawStd_Decode (TrimRight (λ b, bool_decide (b = ch "=")) (TrimSpace s)) with
  | (b, true) => b
  | (_, false) => []
  end.

Definition b64_space (c : byte) : bool :=
  bool_decide (c = nl) || bool_decide (c = cr) || bool_decide (c = x20) || bool_decide (c = x09).
Definition stripBase64Whitespace (b : bytes) : bytes := List.filter (λ c, negb (b64_space c)) b.

(** Where the text behind a keyword line starts. *)
Definition keyword_start (raw keyword : bytes) : option nat :=
  let kw := nl :: keyword ++ [nl] in
  match Index raw kw with
  | None => if HasPrefix raw (keyword ++ [nl]) then Some (length keyword + 1) else None
  | Some i => Some (i + length kw)
  end.

Definition extractMessage (raw keyword : bytes) : outcome onion_error bytes :=
  match keyword_start raw keyword with
  | None => Err KeywordNotFound
  | Some start =>
      match Cut (drop start raw) go"-----BEGIN MESSAGE-----" with
      | None => Err NoMessage
      | Some (_, afterBegin) =>
          match Cut afterBegin go"-----END MESSAGE-----" with
          | None => Err UnterminatedMessage
          | Some (body, _) =>
              match Std_Decode (stripBase64Whitespace body) with
              | (dec, true) => Ok dec
              | (_, false) => Err MessageBase64
              end
          end
      end
  end.

Definition certBegin : bytes := go"-----BEGIN ED25519 CERT-----".
Definition certEnd : bytes := go"-----END ED25519 CERT-----".

(** [None] is the nil slice.  The END marker is searched from the BEGIN marker
    on, so it may overlap it: the slice between them is then out of range. *)
Definition extractCert (raw keyword : bytes) : outcome onion_error (option bytes) :=
  match keyword_start raw keyword with
  | None => Ok None
  | Some start =>
      match Index (drop start raw) certBegin with
      | None => Ok None
      | Some bIdx =>
          let bIdx := bIdx + start in
          match Index (drop bIdx raw) certEnd with
          | None => Ok None
          | Some eIdx =>
              b64 ← slice raw (bIdx + length certBegin) (bIdx + eIdx);
              match Std_Decode (TrimSpace (List.filter (λ c, negb (is_nl c)) b64)) with
              | (dec, true) => Ok (Some dec)
              | (_, false) => Ok None
              end
          end
      end
  end.

(** The value [strconv.ParseUint(s, 10, 64)] returns, its error dropped. *)
Definition ParseUint_value (s : bytes) : Z :=
  match s with
  | [] => 0%Z
  | _ => match parse_u64 0 s with
         | NumOk v => v
         | NumSyntax => 0%Z
         | NumRange => (2 ^ 64 - 1)%Z
         end
  end.

Definition revision_line (rev : Z) (line : bytes) : Z :=
  if HasPrefix line go"revision-counter "
  then ParseUint_value (TrimSpace (drop (length go"revision-counter ") line)) else rev.

Definition parseOuter (raw : bytes) : outcome onion_error (Z * bytes) :=
  let rev := foldl revision_line 0%Z (Scan (4 * 1024 * 1024) raw).1 in
  blob ← map_err OuterLayer (extractMessage raw go"superencrypted");
  Ok (rev, blob).

Section Crypt.
Context `{C : Crypto}.

(** ** Certificates and signatures *)

(** [ed25519.Verify] panics on a key of the wrong length. *)
Definition ed25519_Verify (pub msg sig : bytes) : outcome onion_error bool :=
  if length pub =? 32 then Ok (ed25519_verify pub msg sig) else Panic.

(** The loop over the extensions: the signer key and where the loop stopped. *)
Fixpoint cert_exts (n : nat) (cert : bytes) (pos : nat) (signer : option bytes)
    : outcome onion_error (option bytes * nat) :=
  match n with
  | O => Ok (signer, pos)
  | S n =>
      if length cert <? pos + 4 then Err TruncatedExt
      else
        l0 ← idx cert pos; l1 ← idx cert (pos + 1); extType ← idx cert (pos + 2);
        let extLen := Z.to_nat (Z.lor (Z.shiftl (bval l0) 8) (bval l1)) in
        let pos := pos + 4 in
        if length cert <? pos + extLen then Err ExtOverflow
        else
          signer ← (if bool_decide (extType = certExtSignerKey) && (extLen =? 32)
                    then Some <$> slice cert pos (pos + 32) else Ok signer);
          cert_exts n cert (pos + extLen) signer
  end.

(** Nanoseconds of [time.Unix(hours*3600, 0)]. *)
Definition cert_expiry (b : bytes) : Z := (BE_Uint32 b * 3600 * 1000000000)%Z.

Definition verifyTorCert (cert : bytes) (expectedSigner : option bytes) (wantType : byte) (now : Z)
    : outcome onion_error bytes :=
  if length cert <? 1 + 1 + 4 + 1 + 32 + 1 + 64 then Err ShortCert
  else
    v ← idx cert 0;
    if negb (bool_decide (v = descCertVersion)) then Err CertVersion else
    t ← idx cert 1;
    if negb (bool_decide (t = wantType)) then Err CertType else
    kt ← idx cert 6;
    if negb (bool_decide (kt = descCertKeyType)) then Err CertKeyType else
    e ← slice cert 2 6;
    if (cert_expiry e <? now)%Z then Err CertExpired else
    certifiedKey ← slice cert 7 39;
    nExt ← idx cert 39;
    '(signer, pos) ← cert_exts (Z.to_nat (bval nExt)) cert 40 None;
    match signer with
    | None => Err NoSigner
    | Some signer =>
        if match expectedSigner with Some k => negb (bool_decide (signer = k)) | None => false end
        then Err WrongSigner
        else if length cert <? pos + 64 then Err NoCertSignature
        else
          sig ← slice cert (length cert - 64) (length cert);
          signed ← slice cert 0 (length cert - 64);
          ok ← ed25519_Verify signer signed sig;
          if negb ok then Err BadCertSignature else Ok certifiedKey
    end.

Definition signature_marker : bytes := nl :: go"signature ".

Definition verifyDescriptorSignature (raw blindedKey : bytes) (now : Z) : outcome onion_error bytes :=
  cert ← extractCert raw go"descriptor-signing-key-cert";
  match cert with
  | None => Err NoSigningCert
  | Some certDER =>
      signingKey ← verifyTorCert certDER (Some blindedKey) descCertType now;
      match Index raw signature_marker with
      | None => Err NoSignatureLine
      | Some i =>
          let signed := descSigPrefix ++ take (i + 1) raw in
          let rest := drop (i + length signature_marker) raw in
          let rest := match IndexByte rest nl with Some k => take k rest | None => rest end in
          let sig := decodeB64 (TrimSpace rest) in
          if negb (length sig =? 64) then Err BadSigLength
          else
            ok ← ed25519_Verify signingKey signed sig;
            if negb ok then Err BadSignature else Ok signingKey
      end
  end.
Definition VerifyDescriptorSignature (raw blindedKey : bytes) (now : Z) : outcome onion_error unit :=
  _ ← verifyDescriptorSignature raw blindedKey now; Ok tt.

(** ** The encrypted layers *)

Definition concatBytes (parts : list bytes) : bytes := mjoin parts.

Definition decryptLayer (blob secretData subcred : bytes) (revCounter : Z) (stringConst : bytes)
    : outcome onion_error bytes :=
  if length blob <? descSaltLen + descMacLen then Err BlobTooShort
  else
    salt ← slice blob 0 descSaltLen;
    enc ← slice blob descSaltLen (length blob - descMacLen);
    mac ← slice blob (length blob - descMacLen) (length blob);
    let secretInput := concatBytes [secretData; subcred; int8be revCounter] in
    let keys := SHAKE256 (descKeyLen + descIVLen + descMacKeyLen) [secretInput; salt; stringConst] in
    secretKey ← slice keys 0 descKeyLen;
    secretIV ← slice keys descKeyLen (descKeyLen + descIVLen);
    macKey ← slice keys (descKeyLen + descIVLen) (length keys);
    let wantMac := SHA3_256 [int8be (Z.of_nat (length macKey)); macKey; int8be (Z.of_nat (length salt)); salt; enc] in
    if negb (bool_decide (wantMac = mac)) then Err MacMismatch
    else
      block ← map_err CipherErr (NewCTRWithIV secretKey secretIV);
      Ok (XORKeyStream block enc).1.

(** ** Client authorization *)

Record authClient := mkAuthClient { clientID : bytes; iv : bytes; encryptedCookie : bytes }.

Definition auth_line (acc : bytes * list authClient) (line : bytes) : bytes * list authClient :=
  let '(ephemPub, clients) := acc in
  match Fields line with
  | f0 :: f1 :: rest =>
      if decide (f0 = go"desc-auth-ephemeral-key") then (decodeB64 f1, clients)
      else if decide (f0 = go"auth-client") then
        match rest with
        | f2 :: f3 :: _ => (ephemPub, clients ++ [mkAuthClient (decodeB64 f1) (decodeB64 f2) (decodeB64 f3)])
        | _ => acc
        end
      else acc
  | _ => acc
  end.
Definition parseAuthClients (middle : bytes) : bytes * list authClient :=
  foldl auth_line ([], []) (Scan (2 ^ 20) middle).1.

Fixpoint find_cookie (clients : list authClient) (wantClientID cookieKey : bytes)
    : outcome onion_error (option bytes) :=
  match clients with
  | [] => Ok None
  | ac :: clients =>
      if negb (bool_decide (clientID ac = wantClientID)) then find_cookie clients wantClientID cookieKey
      else if negb (length (iv ac) =? authIVLen) || negb (length (encryptedCookie ac) =? descCookieLen)
      then find_cookie clients wantClientID cookieKey
      else
        block ← map_err CipherErr (NewCTRWithIV cookieKey (iv ac));
        Ok (Some (XORKeyStream block (encryptedCookie ac)).1)
  end.

Definition decryptDescriptorCookie (middle subcred clientAuthKey : bytes)
    : outcome onion_error (option bytes) :=
  if length clientAuthKey =? 0 then Ok None
  else
    let '(ephemPub, clients) := parseAuthClients middle in
    if negb (length ephemPub =? 32) || (length clients =? 0) then Ok None
    else
      secretSeed ← map_err ClientAuthECDH (X25519SharedSecret clientAuthKey ephemPub);
      let keys := SHAKE256 authKeysLen [subcred; secretSeed] in
      wantClientID ← slice keys 0 authClientIDLen;
      cookieKey ← slice keys authClientIDLen authKeysLen;
      find_cookie clients wantClientID cookieKey.

(** ** Introduction points *)

(** [strings.ReplaceAll(s, "\r\n", "\n")]. *)
Fixpoint crlf_to_lf (s : bytes) : bytes :=
  match s with
  | [] => []
  | b :: t =>
      match t with
      | c :: u => if decide (b = cr ∧ c = nl) then nl :: crlf_to_lf u else b :: crlf_to_lf t
      | [] => [b]
      end
  end.
Definition splitLines (b : bytes) : list bytes := Split (crlf_to_lf b) nl.

Definition isIntroKeyword (line : bytes) : bool :=
  match Fields line with
  | [] => false
  | f :: _ => bool_decide (f ∈ [go"introduction-point"; go"onion-key"; go"auth-key"; go"enc-key";
                                go"enc-key-cert"; go"legacy-key"; go"legacy-key-cert"])
  end.

(** The lines behind the BEGIN line; [block] is what was read of the block. *)
Fixpoint cert_block (block lines : list bytes) : option bytes * list bytes :=
  match lines with
  | [] => (None, [])
  | l :: rest =>
      if HasPrefix l go"-----END" then
        (b_Bytes <$> pem_Decode (Join (block ++ [l]) [nl] ++ [nl]), rest)
      else if HasPrefix l go"-----BEGIN" || isIntroKeyword l then (None, lines)
      else cert_block (block ++ [l]) rest
  end.
(** [readCertBlock] on the lines from [start] on: the block, and the lines
    behind it. *)
Definition readCertBlock (lines : list bytes) : option bytes * list bytes :=
  match lines with
  | l :: rest => if HasPrefix l go"-----BEGIN" then cert_block [l] rest else (None, lines)
  | [] => (None, [])
  end.

Definition emptyIntro : IntroPoint := mkIntroPoint [] [] [] [].
Definition set_onionKey (k : bytes) (p : IntroPoint) : IntroPoint :=
  mkIntroPoint (LinkSpecifiers p) k (AuthKey p) (EncKey p).
Definition set_authKey (k : bytes) (p : IntroPoint) : IntroPoint :=
  mkIntroPoint (LinkSpecifiers p) (OnionKey p) k (EncKey p).
Definition set_encKey (k : bytes) (p : IntroPoint) : IntroPoint :=
  mkIntroPoint (LinkSpecifiers p) (OnionKey p) (AuthKey p) k.

Definition flush_intro (cur : option IntroPoint) (intros : list IntroPoint) : list IntroPoint :=
  match cur with Some p => intros ++ [p] | None => intros end.

(** The loop over the lines; every turn consumes one, so their number is
    enough fuel. *)
Fixpoint intro_loop (fuel : nat) (signingKey : bytes) (now : Z) (lines : list bytes)
    (cur : option IntroPoint) (intros : list IntroPoint) : outcome onion_error (list IntroPoint) :=
  match fuel, lines with
  | O, _ | _, [] => Ok (flush_intro cur intros)
  | S fuel, l :: rest =>
      let next := intro_loop fuel signingKey now rest in
      match Fields l with
      | [] => next cur intros
      | f0 :: args =>
          if decide (f0 = go"introduction-point") then
            next (Some (mkIntroPoint (match args with f1 :: _ => decodeB64 f1 | [] => [] end) [] [] []))
              (flush_intro cur intros)
          else if decide (f0 = go"onion-key") then
            match cur, args with
            | Some p, f1 :: f2 :: _ =>
                next (Some (if decide (f1 = go"ntor") then set_onionKey (decodeB64 f2) p else p)) intros
            | _, _ => next cur intros
            end
          else if decide (f0 = go"auth-key") then
            match cur with
            | None => next cur intros
            | Some p =>
                let '(cert, after) := readCertBlock rest in
                p ← match cert with
                    | None => Ok p
                    | Some cert =>
                        match verifyTorCert cert (Some signingKey) introAuthCertID now with
                        | Ok key => Ok (set_authKey key p)
                        | Err _ => Ok p
                        | Panic => Panic
                        end
                    end;
                intro_loop fuel signingKey now after (Some p) intros
            end
          else if decide (f0 = go"enc-key") then
            match cur, args with
            | Some p, f1 :: f2 :: _ =>
                next (Some (if decide (f1 = go"ntor") then set_encKey (decodeB64 f2) p else p)) intros
            | _, _ => next cur intros
            end
          else next cur intros
      end
  end.

Definition usable (p : IntroPoint) : bool :=
  (length (OnionKey p) =? 32) && (length (AuthKey p) =? 32) && (length (EncKey p) =? 32) &&
  (0 <? length (LinkSpecifiers p)).

Definition parseIntroPoints (inner signingKey : bytes) (now : Z) : outcome onion_error (list IntroPoint) :=
  let lines := splitLines inner in
  intros ← intro_loop (length lines) signingKey now lines None [];
  match List.filter usable intros with
  | [] => Err NoIntroPoints
  | valid => Ok valid
  end.

Definition DecodeDescriptor (raw blindedKey subcred clientAuthKey : bytes) (now : Z)
    : outcome onion_error Descriptor :=
  signingKey ← verifyDescriptorSignature raw blindedKey now;
  '(revCounter, superBlob) ← parseOuter raw;
  middle ← map_err FirstLayer (decryptLayer superBlob blindedKey subcred revCounter constSuperencrypted);
  cookie ← decryptDescriptorCookie middle subcred clientAuthKey;
  let secretData2 := match cookie with Some c => blindedKey ++ c | None => blindedKey end in
  encBlob ← map_err MiddleLayer (extractMessage middle go"encrypted");
  inner ← map_err SecondLayer (decryptLayer encBlob secretData2 subcred revCounter constEncrypted);
  intros ← parseIntroPoints inner signingKey now;
  Ok (mkDescriptor revCounter intros).

End Crypt.
