(* ===== verification/OnionDescFacts.v ===== *)
(** * What decoding a descriptor guarantees: the signature chain from the
    blinded key, the sealed layers, the client's cookie, and the one way it can
    panic. *)

From S2P Require Import Prelude ByteUtil GoNet GoText GoTextFacts TorCrypto HashRing OnionAddr OnionDesc.

(** ** Outcomes without a panic *)

(** [o] is no panic, and a value it returns satisfies [Q]. *)
Definition safe {E A} (o : outcome E A) (Q : A → Prop) : Prop :=
  match o with Ok a => Q a | Err _ => True | Panic => False end.

Section Safe.
Context {E : Type}.

Lemma safe_bind {A B} (o : outcome E A) (f : A → outcome E B) Q :
  safe o (λ a, safe (f a) Q) → safe (o ≫= f) Q.
Proof. by destruct o. Qed.
Lemma safe_weaken {A} (o : outcome E A) (Q Q' : A → Prop) : safe o Q → (∀ a, Q a → Q' a) → safe o Q'.
Proof. destruct o; simpl; auto. Qed.
Lemma safe_map_err {F A} (f : E → F) (o : outcome E A) Q : safe o Q → safe (map_err f o) Q.
Proof. by destruct o. Qed.
Lemma safe_idx (b : bytes) i (Q : byte → Prop) : i < length b → (∀ x, b !! i = Some x → Q x) → safe (idx (E := E) b i) Q.
Proof. intros Hi HQ. destruct (idx_in_range (E := E) b i Hi) as [x Hx]. rewrite Hx. apply HQ. by apply idx_Ok in Hx. Qed.
Lemma safe_slice (b : bytes) i j (Q : bytes → Prop) : i ≤ j → j ≤ length b →
  Q (take (j - i) (drop i b)) → safe (slice (E := E) b i j) Q.
Proof. intros Hi Hj HQ. by rewrite slice_in_range. Qed.
Lemma safe_Ok {A} (o : outcome E A) Q a : safe o Q → o = Ok a → Q a.
Proof. by intros H ->. Qed.
Lemma safe_no_panic {A} (o : outcome E A) Q : safe o Q → o ≠ Panic.
Proof. by intros H ->. Qed.
End Safe.

Section Desc.
Context `{C : Crypto}.

(** ** Certificates *)

(** [key] is certified by [signer]: the certificate is of the type, unexpired,
    and the signature over all of it but the last 64 bytes, where the key
    lies, verifies. *)
Definition certified (signer : bytes) (typ : byte) (now : Z) (cert key : bytes) : Prop :=
  104 ≤ length cert ∧ cert !! 0 = Some descCertVersion ∧ cert !! 1 = Some typ ∧
  cert !! 6 = Some descCertKeyType ∧ (now ≤ cert_expiry (take 4 (drop 2 cert)))%Z ∧
  key = take 32 (drop 7 cert) ∧ length key = 32 ∧
  ed25519_verify signer (take (length cert - 64) cert) (drop (length cert - 64) cert) = true.

Lemma cert_exts_safe n cert pos signer : (∀ s, signer = Some s → length s = 32) →
  safe (cert_exts n cert pos signer) (λ r, ∀ s, r.1 = Some s → length s = 32).
Proof.
  revert pos signer. induction n as [|n IH]; intros pos signer Hs; cbn [cert_exts]; [done|].
  destruct (Nat.ltb_spec (length cert) (pos + 4)); [done|].
  apply safe_bind, safe_idx; [lia|]. intros l0 _. apply safe_bind, safe_idx; [lia|]. intros l1 _.
  apply safe_bind, safe_idx; [lia|]. intros ty _. cbv zeta. set (el := Z.to_nat _).
  destruct (Nat.ltb_spec (length cert) (pos + 4 + el)); [done|]. apply safe_bind.
  destruct (bool_decide _ && (el =? 32)) eqn:Hb; [|by apply IH]. bools. subst el.
  rewrite slice_in_range by lia. apply IH. intros s [= <-]. rewrite length_take, length_drop. lia.
Qed.

Lemma verifyTorCert_safe cert signer typ now :
  safe (verifyTorCert cert (Some signer) typ now) (certified signer typ now cert).
Proof.
  unfold verifyTorCert. destruct (Nat.ltb_spec (length cert) (1 + 1 + 4 + 1 + 32 + 1 + 64)) as [|Hl]; [done|].
  apply safe_bind, safe_idx; [lia|]. intros v Hv. destruct (bool_decide (v = _)) eqn:Ev; [|done]. cbn [negb].
  apply safe_bind, safe_idx; [lia|]. intros t Ht. destruct (bool_decide (t = _)) eqn:Et; [|done]. cbn [negb].
  apply safe_bind, safe_idx; [lia|]. intros k Hk. destruct (bool_decide (k = _)) eqn:Ek; [|done]. cbn [negb].
  apply safe_bind, safe_slice; [lia..|]. destruct (Z.ltb_spec (cert_expiry (take (6 - 2) (drop 2 cert))) now) as [|He]; [done|].
  apply safe_bind, safe_slice; [lia..|]. apply safe_bind, safe_idx; [lia|]. intros n _. apply safe_bind.
  eapply safe_weaken; [by apply cert_exts_safe|]. intros [sg pos] Hsg. cbn [fst] in Hsg.
  destruct sg as [sg|]; [|done]. destruct (bool_decide (sg = signer)) eqn:Es; [|done]. cbn [negb].
  destruct (Nat.ltb_spec (length cert) (pos + 64)) as [|Hp]; [done|].
  apply safe_bind, safe_slice; [lia..|]. apply safe_bind, safe_slice; [lia..|]. apply safe_bind.
  unfold ed25519_Verify. rewrite (Hsg sg eq_refl). cbn [Nat.eqb]. cbn [safe].
  destruct (ed25519_verify sg _ _) eqn:Hv2; [|done]. cbn [negb safe]. bools. subst v t k sg.
  rewrite Nat.sub_0_r, drop_0 in Hv2. rewrite (take_ge (drop _ cert)) in Hv2 by (rewrite length_drop; lia).
  split_and!; try done. rewrite length_take, length_drop. lia.
Qed.

(** ** The signature *)

(** The END marker found from the BEGIN marker on overlaps it. *)
Definition cert_overlaps (raw : bytes) : Prop :=
  ∃ start bIdx eIdx, keyword_start raw go"descriptor-signing-key-cert" = Some start ∧
    Index (drop start raw) certBegin = Some bIdx ∧ Index (drop (bIdx + start) raw) certEnd = Some eIdx ∧
    eIdx < length certBegin.

Lemma extractCert_panic raw :
  extractCert raw go"descriptor-signing-key-cert" = Panic ↔ cert_overlaps raw.
Proof.
  unfold extractCert, cert_overlaps. destruct (keyword_start raw _) as [start|]; [|naive_solver].
  destruct (Index (drop start raw) certBegin) as [b|] eqn:Eb; [|naive_solver].
  destruct (Index (drop (b + start) raw) certEnd) as [e|] eqn:Ee; [|naive_solver]. cbv zeta.
  pose proof (Index_Some _ _ _ Ee) as (Hl & _). rewrite length_drop in Hl.
  destruct (decide (e < length certBegin)) as [Ho|Hn].
  - unfold slice. rewrite decide_False by lia. split; [|done]. intros _. by exists start, b, e.
  - rewrite slice_in_range; [|lia|change (length certEnd) with 26 in Hl; lia].
    osimpl. destruct (Std_Decode _) as [d [|]]; (split; [done|]); intros (s' & b' & e' & [= <-] & H1 & H2 & H3);
      rewrite Eb in H1; injection H1 as <-; rewrite Ee in H2; injection H2 as <-; lia.
Qed.

(** What the signature line at offset [i] gives: the text up to its end,
    decoded. *)
Definition line_signature (raw : bytes) (i : nat) : bytes :=
  let rest := drop (i + length signature_marker) raw in
  decodeB64 (TrimSpace (match IndexByte rest nl with Some k => take k rest | None => rest end)).

(** [sk] is the key certified by the blinded key, and the signature on the
    signature line is its signature of the descriptor up to that line. *)
Definition authentic_outer (raw blinded : bytes) (now : Z) (sk : bytes) : Prop :=
  ∃ cert i, extractCert raw go"descriptor-signing-key-cert" = Ok (Some cert) ∧
    certified blinded descCertType now cert sk ∧ Index raw signature_marker = Some i ∧
    length (line_signature raw i) = 64 ∧
    ed25519_verify sk (descSigPrefix ++ take (i + 1) raw) (line_signature raw i) = true.

Lemma verifyDescriptorSignature_safe raw blinded now : ¬ cert_overlaps raw →
  safe (verifyDescriptorSignature raw blinded now) (authentic_outer raw blinded now).
Proof.
  intros Ho. unfold verifyDescriptorSignature.
  destruct (extractCert raw _) as [[cert|]|er|] eqn:Ec; [|done|done|by apply extractCert_panic in Ec].
  cbn [mbind outcome_bind]. apply safe_bind. eapply safe_weaken; [apply verifyTorCert_safe|].
  intros sk Hsk. destruct (Index raw signature_marker) as [i|] eqn:Ei; [|done]. cbv zeta.
  fold (line_signature raw i). set (sig := line_signature raw i).
  destruct (Nat.eqb_spec (length sig) 64) as [Hs|]; [|done]. cbn [negb].
  apply safe_bind. unfold ed25519_Verify. pose proof Hsk as (_ & _ & _ & _ & _ & _ & Hk & _).
  rewrite Hk. cbn [Nat.eqb safe]. destruct (ed25519_verify sk _ sig) eqn:Hv; [|done].
  cbn [negb safe]. by exists cert, i.
Qed.

(** ** The layers *)

Context `{L : !CryptoLaws C}.

Definition layer_keys (secretData subcred : bytes) (rev : Z) (salt stringConst : bytes) : bytes :=
  SHAKE256 80 [concatBytes [secretData; subcred; int8be rev]; salt; stringConst].
Definition layer_mac (keys salt enc : bytes) : bytes :=
  SHA3_256 [int8be 32; drop 48 keys; int8be 16; salt; enc].
Definition layer_stream (keys : bytes) : Stream :=
  {| skey := take 32 keys; siv := take 16 (drop 32 keys); soff := 0 |}.

(** What a service does: encrypt, then authenticate. *)
Definition seal_layer (salt plain secretData subcred : bytes) (rev : Z) (stringConst : bytes) : bytes :=
  let keys := layer_keys secretData subcred rev salt stringConst in
  let enc := (XORKeyStream (layer_stream keys) plain).1 in
  salt ++ enc ++ layer_mac keys salt enc.

Lemma decryptLayer_eq blob sd sc rev k :
  decryptLayer blob sd sc rev k =
  if length blob <? 48 then Err BlobTooShort
  else
    let salt := take 16 blob in
    let enc := take (length blob - 48) (drop 16 blob) in
    let keys := layer_keys sd sc rev salt k in
    if bool_decide (layer_mac keys salt enc = drop (length blob - 32) blob)
    then Ok (XORKeyStream (layer_stream keys) enc).1 else Err MacMismatch.
Proof.
  unfold decryptLayer. change (descSaltLen + descMacLen) with 48.
  destruct (Nat.ltb_spec (length blob) 48) as [|Hl]; [done|].
  unfold descSaltLen, descMacLen, descKeyLen, descIVLen, descMacKeyLen.
  rewrite !slice_in_range by lia. osimpl. cbv zeta. rewrite Nat.sub_0_r, drop_0.
  change (32 + 16 + 32) with 80. fold (layer_keys sd sc rev (take 16 blob) k).
  set (keys := layer_keys sd sc rev (take 16 blob) k).
  assert (length keys = 80) as Hk by apply shake256_length.
  rewrite !slice_in_range by lia. osimpl. rewrite Hk, Nat.sub_0_r, drop_0.
  change (32 + 16) with 48. change (80 - 48) with 32. change (48 - 32) with 16.
  replace (length blob - 32 - 16) with (length blob - 48) by lia.
  rewrite (take_ge (drop 48 keys)) by (rewrite length_drop; lia).
  rewrite (take_ge (drop (length blob - 32) blob)) by (rewrite length_drop; lia).
  rewrite length_drop, Hk, length_take, (Nat.min_l 16) by lia.
  change (Z.of_nat (80 - 48)) with 32%Z. change (Z.of_nat 16) with 16%Z.
  fold (layer_mac keys (take 16 blob) (take (length blob - 48) (drop 16 blob))).
  destruct (bool_decide _); [|done]. cbn [negb]. unfold NewCTRWithIV, aes_key_ok.
  rewrite bool_decide_true by (right; right; rewrite length_take; lia). done.
Qed.

(** A layer that is accepted is a sealed layer, and its plaintext the sealed
    one. *)
Lemma decryptLayer_exact blob sd sc rev k plain :
  decryptLayer blob sd sc rev k = Ok plain ↔
  ∃ salt, length salt = 16 ∧ blob = seal_layer salt plain sd sc rev k.
Proof.
  rewrite decryptLayer_eq. cbv zeta. split.
  - destruct (Nat.ltb_spec (length blob) 48) as [|Hl]; [done|].
    destruct (bool_decide _) eqn:Hm; [|done]. apply bool_decide_eq_true in Hm.
    set (p := (XORKeyStream _ _).1). intros [= <-].
    exists (take 16 blob). split; [rewrite length_take; lia|]. unfold seal_layer, p. cbv zeta.
    rewrite XORKeyStream_inverse. cbn [fst]. rewrite Hm.
    rewrite <-(take_drop 16 blob) at 1. f_equal.
    rewrite <-(take_drop (length blob - 48) (drop 16 blob)) at 1. f_equal.
    rewrite drop_drop. f_equal. lia.
  - intros (salt & Hs & ->). unfold seal_layer. cbv zeta.
    set (keys := layer_keys sd sc rev salt k). set (enc := (XORKeyStream (layer_stream keys) plain).1).
    set (mac := layer_mac keys salt enc). assert (length mac = 32) as Hm by apply sha3_256_length.
    assert (length (salt ++ enc ++ mac) = 48 + length enc) as Hl by (rewrite !length_app; lia).
    rewrite Hl. destruct (Nat.ltb_spec (48 + length enc) 48); [lia|].
    rewrite (take_app_exact 16 salt), (drop_app_exact 16 salt) by done. fold keys.
    replace (48 + length enc - 48) with (length enc) by lia. rewrite take_app_length.
    replace (48 + length enc - 32) with (length (salt ++ enc)) by (rewrite length_app; lia).
    rewrite app_assoc, drop_app_length. fold mac. rewrite bool_decide_true by done.
    unfold enc. by rewrite XORKeyStream_inverse.
Qed.

Lemma decryptLayer_safe blob sd sc rev k :
  safe (decryptLayer blob sd sc rev k)
    (λ plain, ∃ salt, length salt = 16 ∧ blob = seal_layer salt plain sd sc rev k).
Proof.
  destruct (decryptLayer blob sd sc rev k) as [plain|er|] eqn:E; [|done|].
  - by apply decryptLayer_exact.
  - rewrite decryptLayer_eq in E. cbv zeta in E. repeat case_match; discriminate.
Qed.

(** ** The cookie *)

Lemma find_cookie_safe clients want key : length key = 32 → safe (find_cookie clients want key) (λ _, True).
Proof.
  intros Hk. induction clients as [|ac clients IH]; cbn [find_cookie]; [done|].
  destruct (negb (bool_decide _)); [apply IH|]. destruct (_ || _); [apply IH|].
  unfold NewCTRWithIV, aes_key_ok. rewrite bool_decide_true by (right; by right). done.
Qed.

Lemma X25519SharedSecret_safe k p : safe (X25519SharedSecret k p) (λ _, True).
Proof.
  unfold X25519SharedSecret, newX25519FromSeed, ECDH. apply safe_bind.
  destruct (bool_decide (length k = _)); [|done]. cbn [safe]. destruct (negb _); [done|].
  cbv zeta. by destruct (bool_decide _).
Qed.

Lemma decryptDescriptorCookie_safe middle sc key : safe (decryptDescriptorCookie middle sc key) (λ _, True).
Proof.
  unfold decryptDescriptorCookie. destruct (length key =? 0); [done|].
  destruct (parseAuthClients middle) as [eph clients]. destruct (_ || _); [done|].
  apply safe_bind, safe_map_err. eapply safe_weaken; [apply X25519SharedSecret_safe|]. intros seed _. cbv zeta.
  set (keys := SHAKE256 _ _). assert (length keys = 40) as Hk by apply shake256_length.
  unfold authClientIDLen, authKeysLen. apply safe_bind, safe_slice; [lia..|]. apply safe_bind, safe_slice; [lia..|].
  apply find_cookie_safe. rewrite length_take, length_drop, Hk. done.
Qed.

(** ** Introduction points *)

(** The auth key of an introduction point is missing or certified by the
    descriptor's signing key. *)
Definition auth_ok (sk : bytes) (now : Z) (p : IntroPoint) : Prop :=
  AuthKey p = [] ∨ ∃ cert, certified sk introAuthCertID now cert (AuthKey p).

Lemma flush_intro_ok sk now cur intros : (∀ p, cur = Some p → auth_ok sk now p) →
  Forall (auth_ok sk now) intros → Forall (auth_ok sk now) (flush_intro cur intros).
Proof.
  intros Hc Hi. destruct cur as [p|]; [|done]. apply Forall_app. split; [done|].
  apply Forall_singleton. by apply Hc.
Qed.

Lemma intro_loop_safe fuel sk now lines cur intros :
  (∀ p, cur = Some p → auth_ok sk now p) → Forall (auth_ok sk now) intros →
  safe (intro_loop fuel sk now lines cur intros) (Forall (auth_ok sk now)).
Proof.
  revert lines cur intros. induction fuel as [|fuel IH]; intros lines cur intros Hc Hi.
  { by apply flush_intro_ok. }
  destruct lines as [|l rest]; [by apply flush_intro_ok|]. cbn [intro_loop].
  destruct (Fields l) as [|f0 args]; [by apply IH|]. cbv zeta.
  case_decide; [apply IH; [by intros p [= <-]; left|by apply flush_intro_ok]|].
  case_decide.
  { destruct cur as [p|]; [|by apply IH]. destruct args as [|f1 [|f2 args]]; [by apply IH..|].
    apply IH; [|done]. intros q [= <-]. case_decide; by apply (Hc p). }
  case_decide.
  { destruct cur as [p|]; [|by apply IH]. destruct (readCertBlock rest) as [cert after].
    apply safe_bind. destruct cert as [cert|]; [|cbn [safe]; by apply IH].
    pose proof (verifyTorCert_safe cert sk introAuthCertID now) as Hv.
    destruct (verifyTorCert _ _ _ _) as [key|er|]; cbn [safe] in *; [|by apply IH|done].
    apply IH; [|done]. intros q [= <-]. right. by exists cert. }
  case_decide; [|by apply IH].
  destruct cur as [p|]; [|by apply IH]. destruct args as [|f1 [|f2 args]]; [by apply IH..|].
  apply IH; [|done]. intros q [= <-]. case_decide; by apply (Hc p).
Qed.

(** A usable introduction point whose auth key the signing key certifies. *)
Definition intro_good (sk : bytes) (now : Z) (p : IntroPoint) : Prop :=
  length (OnionKey p) = 32 ∧ length (EncKey p) = 32 ∧ LinkSpecifiers p ≠ [] ∧
  ∃ cert, certified sk introAuthCertID now cert (AuthKey p).

Lemma parseIntroPoints_safe inner sk now :
  safe (parseIntroPoints inner sk now) (λ ps, ps ≠ [] ∧ Forall (intro_good sk now) ps).
Proof.
  unfold parseIntroPoints. cbv zeta. apply safe_bind.
  eapply safe_weaken; [by apply intro_loop_safe|]. intros intros_ Hi.
  assert (Forall (intro_good sk now) (List.filter usable intros_)) as Hg.
  { apply List.Forall_forall. intros p [Hin Hu]%filter_In. rewrite List.Forall_forall in Hi.
    unfold usable in Hu. bools. destruct (Hi p Hin) as [Hnil|Hc].
    - rewrite Hnil in *. done.
    - split_and!; try done. intros Hnil. rewrite Hnil in *. simpl in *. lia. }
  destruct (List.filter usable intros_) as [|p ps]; [done|]. by split.
Qed.

(** The descriptor [d] was read from [raw] with every part authenticated. *)
Definition authentic_descriptor (raw blinded subcred clientAuth : bytes) (now : Z) (d : Descriptor) : Prop :=
  ∃ sk, authentic_outer raw blinded now sk ∧ IntroPoints d ≠ [] ∧
    Forall (intro_good sk now) (IntroPoints d) ∧
    ∃ salt1 salt2 middle inner cookie, length salt1 = 16 ∧ length salt2 = 16 ∧
      extractMessage raw go"superencrypted" =
        Ok (seal_layer salt1 middle blinded subcred (RevisionCounter d) constSuperencrypted) ∧
      decryptDescriptorCookie middle subcred clientAuth = Ok cookie ∧
      extractMessage middle go"encrypted" =
        Ok (seal_layer salt2 inner (blinded ++ default [] cookie) subcred (RevisionCounter d) constEncrypted) ∧
      parseIntroPoints inner sk now = Ok (IntroPoints d).

Lemma DecodeDescriptor_sound raw blinded subcred clientAuth now d :
  DecodeDescriptor raw blinded subcred clientAuth now = Ok d → authentic_descriptor raw blinded subcred clientAuth now d.
Proof.
  intros H. assert (¬ cert_overlaps raw) as Ho.
  { intros Ho%extractCert_panic. unfold DecodeDescriptor, verifyDescriptorSignature in H.
    rewrite Ho in H. discriminate H. }
  unfold DecodeDescriptor in H. apply bind_Ok in H as (sk & Hsk & H).
  pose proof (safe_Ok _ _ _ (verifyDescriptorSignature_safe raw blinded now Ho) Hsk) as Ha.
  apply bind_Ok in H as ([rev blob] & Hout & H). unfold parseOuter in Hout.
  apply bind_Ok in Hout as (blob' & Hb & Hout). apply map_err_Ok in Hb. injection Hout as Hrev ->.
  apply bind_Ok in H as (middle & Hm & H). apply map_err_Ok, decryptLayer_exact in Hm as (s1 & Hs1 & ->).
  apply bind_Ok in H as (cookie & Hck & H). cbv zeta in H.
  apply bind_Ok in H as (eb & He & H). apply map_err_Ok in He.
  apply bind_Ok in H as (inner & Hi & H). apply map_err_Ok, decryptLayer_exact in Hi as (s2 & Hs2 & ->).
  apply bind_Ok in H as (ps & Hp & H). injection H as <-.
  destruct (safe_Ok _ _ _ (parseIntroPoints_safe inner sk now) Hp) as [Hne Hf].
  exists sk. split; [done|]. split; [done|]. split; [done|]. cbn [RevisionCounter].
  exists s1, s2, middle, inner, cookie. split_and!; try done.
  rewrite He. destruct cookie; [done|]. cbn [default]. by rewrite app_nil_r.
Qed.

(** C15: a descriptor that decodes was authenticated end to end: a certificate
    signed by the period's blinded key certifies a signing key, that key signed
    the document up to its signature line, both encrypted layers were sealed
    under keys derived from the blinded key, the subcredential and the revision
    counter, the inner one also from the client's cookie where there is one,
    and every introduction point returned has full-length keys and an
    auth key certified by the signing key. *)
Theorem DecodeDescriptor_authenticated (raw blinded subcred clientAuth : bytes) (now : Z) (d : Descriptor) :
  DecodeDescriptor raw blinded subcred clientAuth now = Ok d →
  ∃ sk, authentic_outer raw blinded now sk ∧ IntroPoints d ≠ [] ∧
    Forall (intro_good sk now) (IntroPoints d) ∧
    ∃ salt1 salt2 middle inner cookie, length salt1 = 16 ∧ length salt2 = 16 ∧
      extractMessage raw go"superencrypted" =
        Ok (seal_layer salt1 middle blinded subcred (RevisionCounter d) constSuperencrypted) ∧
      decryptDescriptorCookie middle subcred clientAuth = Ok cookie ∧
      extractMessage middle go"encrypted" =
        Ok (seal_layer salt2 inner (blinded ++ default [] cookie) subcred (RevisionCounter d) constEncrypted) ∧
      parseIntroPoints inner sk now = Ok (IntroPoints d).
Proof. apply DecodeDescriptor_sound. Qed.

(** C18: decoding a descriptor panics exactly when the END marker of the signing
    certificate overlaps its BEGIN marker, which happens before anything is
    authenticated: any directory that serves a descriptor can crash the
    client. *)
Theorem DecodeDescriptor_panics (raw blinded subcred clientAuth : bytes) (now : Z) :
  (DecodeDescriptor raw blinded subcred clientAuth now = Panic ↔ cert_overlaps raw) ∧
  ∀ rest, cert_overlaps ([nl] ++ go"descriptor-signing-key-cert" ++ [nl] ++ certBegin ++
    go"END ED25519 CERT-----" ++ rest).
Proof.
  split; [split|].
  - intros H. apply extractCert_panic.
    destruct (panics (extractCert raw go"descriptor-signing-key-cert")) eqn:E;
      [by destruct (extractCert raw _)|]. exfalso. revert H.
    assert (¬ cert_overlaps raw) as Ho by (intros Ho%extractCert_panic; by rewrite Ho in E).
    apply (safe_no_panic _ (λ _, True)). unfold DecodeDescriptor. apply safe_bind.
    eapply safe_weaken; [by apply verifyDescriptorSignature_safe|]. intros sk _.
    apply safe_bind. assert (∀ r k, safe (extractMessage r k) (λ _, True)) as Hx.
    { intros r k. unfold extractMessage. by repeat case_match. }
    eapply (safe_weaken _ (λ _, True)).
    { unfold parseOuter. cbv zeta. apply safe_bind, safe_map_err. by eapply safe_weaken; [apply Hx|]. }
    intros [rev blob] _. apply safe_bind, safe_map_err. eapply safe_weaken; [apply decryptLayer_safe|].
    intros middle _. apply safe_bind. eapply safe_weaken; [apply decryptDescriptorCookie_safe|]. intros ck _.
    cbv zeta. apply safe_bind, safe_map_err. eapply safe_weaken; [apply Hx|]. intros eb _.
    apply safe_bind, safe_map_err. eapply safe_weaken; [apply decryptLayer_safe|]. intros inner _.
    apply safe_bind. by eapply safe_weaken; [apply parseIntroPoints_safe|].
  - intros H%extractCert_panic. unfold DecodeDescriptor, verifyDescriptorSignature. by rewrite H.
  - intros rest. set (raw' := _ ++ _). exists 29, 0, 23.
    assert (keyword_start raw' go"descriptor-signing-key-cert" = Some 29) as Hk.
    { unfold keyword_start. cbv zeta. assert (Index raw' (nl :: go"descriptor-signing-key-cert" ++ [nl]) = Some 0) as ->;
        [|reflexivity].
      apply (Index_app (nl :: go"descriptor-signing-key-cert" ++ [nl])). reflexivity. }
    assert (drop 29 raw' = (certBegin ++ go"END ED25519 CERT-----") ++ rest) as Hd by reflexivity.
    split; [exact Hk|]. rewrite Hd. change (0 + 29) with 29. rewrite Hd.
    split; [apply Index_app; reflexivity|]. split; [apply Index_app; reflexivity|]. vm_compute. lia.
Qed.

(** ** Client authorization *)

Lemma decodeB64_Encode b : decodeB64 (RawStd_Encode b) = b.
Proof.
  unfold decodeB64. rewrite TrimSpace_printing by apply RawStd_Encode_printing.
  rewrite TrimRight_none; [by rewrite RawStd_roundtrip|].
  intros c Hc. apply bool_decide_eq_false. by eapply RawStd_Encode_no_pad.
Qed.

Definition eph_line (pub : bytes) : bytes := Join [go"desc-auth-ephemeral-key"; RawStd_Encode pub] [x20].
Definition client_line (ac : authClient) : bytes :=
  Join [go"auth-client"; RawStd_Encode (clientID ac); RawStd_Encode (iv ac); RawStd_Encode (encryptedCookie ac)] [x20].

Definition client_ok (ac : authClient) : Prop :=
  clientID ac ≠ [] ∧ iv ac ≠ [] ∧ encryptedCookie ac ≠ [] ∧ clean_line (2 ^ 20) (client_line ac).

(** A line the parser passes over. *)
Definition other_line (l : bytes) : Prop := clean_line (2 ^ 20) l ∧ ∀ acc, auth_line acc l = acc.

Lemma auth_line_client acc ac : client_ok ac → auth_line acc (client_line ac) = (acc.1, acc.2 ++ [ac]).
Proof.
  intros (H1 & H2 & H3 & _). unfold auth_line, client_line. destruct acc as [eph cs].
  rewrite Fields_Join by (repeat constructor; by apply RawStd_Encode_word).
  rewrite decide_False by done. rewrite decide_True by done. rewrite !decodeB64_Encode. by destruct ac.
Qed.

Lemma auth_line_eph acc pub : pub ≠ [] → auth_line acc (eph_line pub) = (pub, acc.2).
Proof.
  intros H. unfold auth_line, eph_line. destruct acc as [eph cs].
  rewrite Fields_Join by (repeat constructor; by apply RawStd_Encode_word).
  rewrite decide_True by done. by rewrite decodeB64_Encode.
Qed.

(** The first layer of a restricted service is read as it was written. *)
Lemma parseAuthClients_text pub acs before after rest : pub ≠ [] → clean_line (2 ^ 20) (eph_line pub) →
  Forall client_ok acs → Forall other_line before → Forall other_line after →
  foldl auth_line (pub, acs) (Scan (2 ^ 20) rest).1 = (pub, acs) →
  parseAuthClients (unlines (before ++ [eph_line pub] ++ map client_line acs ++ after) ++ rest) = (pub, acs).
Proof.
  intros Hp Hcl Hac Hb Ha Hrest. unfold parseAuthClients.
  assert (∀ ls acc, Forall other_line ls → foldl auth_line acc ls = acc) as Hother.
  { induction ls as [|l ls IH]; intros acc Hl; [done|]. apply list.Forall_cons in Hl as [[_ Hl] Hls].
    cbn [foldl]. rewrite Hl. by apply IH. }
  assert (∀ xs acc, Forall client_ok xs → foldl auth_line acc (map client_line xs) = (acc.1, acc.2 ++ xs)) as Hcs.
  { induction xs as [|x xs IH]; intros [a b] Hx; cbn [map foldl]; [by rewrite app_nil_r|].
    apply list.Forall_cons in Hx as [Hx Hxs]. rewrite auth_line_client by done. rewrite IH by done.
    cbn [fst snd]. by rewrite <-app_assoc. }
  rewrite Scan_unlines.
  2: { rewrite !Forall_app. split_and!; [|by apply Forall_singleton| |].
       - eapply list.Forall_impl; [exact Hb|]. by intros l [? _].
       - apply Forall_map. eapply list.Forall_impl; [exact Hac|]. by intros ac (_ & _ & _ & ?).
       - eapply list.Forall_impl; [exact Ha|]. by intros l [? _]. }
  destruct (Scan (2 ^ 20) rest) as [ls long]. cbn [fst] in *. rewrite !foldl_app.
  rewrite (Hother before) by done. cbn [foldl]. rewrite auth_line_eph by done. rewrite Hcs by done.
  cbn [fst snd app]. rewrite (Hother after) by done. done.
Qed.

(** How a service authorizes a client: the shared secret of its ephemeral key
    and the client's public key gives the client's ID and the key that hides
    the cookie. *)
Definition auth_keys (subcred eph clientPub : bytes) : bytes := SHAKE256 40 [subcred; x25519 eph clientPub].
Definition authorize (subcred eph clientPub iv cookie : bytes) : authClient :=
  let keys := auth_keys subcred eph clientPub in
  mkAuthClient (take 8 keys) iv
    (XORKeyStream {| skey := drop 8 keys; siv := iv; soff := 0 |} cookie).1.

Lemma find_cookie_hit acs1 acs2 want key iv0 cookie :
  length key = 32 → length iv0 = 16 → length cookie = 16 → Forall (λ ac, clientID ac ≠ want) acs1 →
  find_cookie (acs1 ++ mkAuthClient want iv0 (XORKeyStream {| skey := key; siv := iv0; soff := 0 |} cookie).1 :: acs2)
    want key = Ok (Some cookie).
Proof.
  intros Hk Hi Hc. induction 1 as [|ac acs Hne _ IH]; cbn [app find_cookie].
  - cbn [clientID iv encryptedCookie]. rewrite bool_decide_true by done. cbn [negb].
    rewrite length_XORKeyStream, Hi, Hc. cbn [Nat.eqb negb orb authIVLen descCookieLen].
    unfold NewCTRWithIV, aes_key_ok. rewrite bool_decide_true by (right; by right). osimpl.
    by rewrite XORKeyStream_inverse.
  - rewrite bool_decide_false by done. exact IH.
Qed.

(** An authorized client recovers the cookie: whatever other clients are
    authorized and whatever other lines the first layer has, the entry made
    for the client's public key opens, with the client's private key, to the
    cookie the service chose. *)
Theorem cookie_recovered (subcred eph client iv0 cookie rest : bytes) (acs1 acs2 : list authClient)
    (before after : list bytes) :
  let pub := x25519_base eph in
  let mine := authorize subcred eph (x25519_base client) iv0 cookie in
  let acs := acs1 ++ mine :: acs2 in
  length client = 32 → length iv0 = 16 → length cookie = 16 →
  x25519 eph (x25519_base client) ≠ zeros 32 →
  Forall (λ ac, clientID ac ≠ clientID mine) acs1 →
  clean_line (2 ^ 20) (eph_line pub) → Forall client_ok acs →
  Forall other_line before → Forall other_line after →
  foldl auth_line (pub, acs) (Scan (2 ^ 20) rest).1 = (pub, acs) →
  decryptDescriptorCookie
    (unlines (before ++ [eph_line pub] ++ map client_line acs ++ after) ++ rest) subcred client = Ok (Some cookie).
Proof.
  intros pub mine acs Hcl Hiv Hck Hsec Hids Hline Hac Hb Ha Hrest.
  assert (length pub = 32) as Hpl by apply x25519_base_length.
  unfold decryptDescriptorCookie. rewrite Hcl. cbn [Nat.eqb].
  rewrite (parseAuthClients_text pub acs before after rest); try done; [|by destruct pub].
  rewrite Hpl. cbn [Nat.eqb negb orb].
  assert (length acs =? 0 = false) as -> by (apply Nat.eqb_neq; unfold acs; rewrite length_app; simpl; lia).
  unfold X25519SharedSecret, newX25519FromSeed, ECDH. rewrite bool_decide_true by done. osimpl.
  rewrite bool_decide_true by done. cbn [negb]. cbv zeta. cbn [mbind outcome_bind priv].
  assert (x25519 client pub = x25519 eph (x25519_base client)) as -> by apply x25519_agree.
  rewrite bool_decide_false by done. osimpl. fold (auth_keys subcred eph (x25519_base client)).
  change (SHAKE256 authKeysLen [subcred; x25519 eph (x25519_base client)])
    with (auth_keys subcred eph (x25519_base client)).
  set (keys := auth_keys subcred eph (x25519_base client)) in *.
  assert (length keys = 40) as Hkl by apply shake256_length.
  unfold authClientIDLen, authKeysLen. rewrite !slice_in_range by lia. osimpl.
  rewrite Nat.sub_0_r, drop_0. rewrite (take_ge (drop 8 keys)) by (rewrite length_drop; lia).
  unfold acs. apply (find_cookie_hit acs1 acs2 (take 8 keys) (drop 8 keys) iv0 cookie); try done.
  rewrite length_drop, Hkl. done.
Qed.
End Desc.
