(* ===== verification/OnionDescExamples.v ===== *)
(** * A descriptor of a restricted onion service, built with the toy primitives
    and decoded by the executable definitions. *)

From S2P Require Import Prelude ByteUtil GoNet GoText GoTextFacts TorCrypto ToyCrypto HashRing OnionAddr OnionDesc OnionDescFacts.

(** ** Writing a descriptor *)

Definition toy_ed25519_sign (pk msg : bytes) : bytes := toy_hash 64 (be_decode pk) msg.

(** A certificate with one extension, the signer's key. *)
Definition toy_cert (signer : bytes) (typ : byte) (hours : Z) (key : bytes) : bytes :=
  let body := [x01; typ] ++ be_encode 4 hours ++ [x01] ++ key ++ [x01] ++ [x00; x20; x04; x00] ++ signer in
  body ++ toy_ed25519_sign signer body.

Definition d_blinded : bytes := replicate 32 x07.
Definition d_signing : bytes := replicate 32 x0b.
Definition d_subcred : bytes := replicate 32 x0d.
Definition d_salt : bytes := replicate 16 x55.
Definition d_rev : Z := 42.
Definition d_now : Z := 1700000000000000000.
Definition d_hours : Z := 500000.

(** The service authorizes one client, next to an entry for another. *)
Definition d_eph : bytes := be_encode 32 1001.
Definition d_client : bytes := be_encode 32 2002.
Definition d_cookie : bytes := replicate 16 x99.
Definition d_iv : bytes := replicate 16 x11.
Definition d_other : authClient := mkAuthClient (replicate 8 x01) d_iv (replicate 16 x02).
Definition d_mine : authClient := authorize d_subcred d_eph (x25519_base d_client) d_iv d_cookie.
Definition d_before : list bytes := [go"desc-auth-type x25519"].
Definition d_clients : list authClient := [d_other; d_mine].
Definition d_auth_text : bytes :=
  unlines (d_before ++ [eph_line (x25519_base d_eph)] ++ map client_line d_clients ++ []).

Definition intro_text (n : byte) (signer : bytes) : bytes :=
  line (go"introduction-point " ++ RawStd_Encode [x01; x00; x06; n; n; n; n; x00; x50]) ++
  line (go"onion-key ntor " ++ RawStd_Encode (replicate 32 n)) ++
  line go"auth-key" ++ pem go"ED25519 CERT" (toy_cert signer introAuthCertID d_hours (replicate 32 (to_byte (bval n + 1)))) ++
  line (go"enc-key ntor " ++ RawStd_Encode (replicate 32 n)).

(** The second introduction point's certificate is signed by another key. *)
Definition d_inner : bytes :=
  line go"create2-formats 2" ++ intro_text x21 d_signing ++ intro_text x31 d_blinded ++ intro_text x41 d_signing.
Definition d_enc : bytes :=
  line go"encrypted" ++ pem go"MESSAGE" (seal_layer d_salt d_inner (d_blinded ++ d_cookie) d_subcred d_rev constEncrypted).
Definition d_middle : bytes := d_auth_text ++ d_enc.
Definition d_signed : bytes :=
  line go"hs-descriptor 3" ++ line go"descriptor-lifetime 180" ++
  line go"descriptor-signing-key-cert" ++ pem go"ED25519 CERT" (toy_cert d_blinded descCertType d_hours d_signing) ++
  line go"revision-counter 42" ++ line go"superencrypted" ++
  pem go"MESSAGE" (seal_layer d_salt d_middle d_blinded d_subcred d_rev constSuperencrypted).
Definition d_raw : bytes :=
  d_signed ++ line (go"signature " ++ RawStd_Encode (toy_ed25519_sign d_signing (descSigPrefix ++ d_signed))).

Definition d_intro (n : byte) : IntroPoint :=
  mkIntroPoint [x01; x00; x06; n; n; n; n; x00; x50] (replicate 32 n) (replicate 32 (to_byte (bval n + 1))) (replicate 32 n).
Definition d_desc : Descriptor := mkDescriptor 42 [d_intro x21; d_intro x41].

Lemma d_decodes : DecodeDescriptor d_raw d_blinded d_subcred d_client d_now = Ok d_desc.
Proof. vm_compute. reflexivity. Qed.

(** Without the cookie, with another blinded key, or past the certificate's
    end the descriptor is refused. *)
Lemma d_refused :
  DecodeDescriptor d_raw d_blinded d_subcred [] d_now = Err (SecondLayer MacMismatch) ∧
  DecodeDescriptor d_raw d_signing d_subcred d_client d_now = Err WrongSigner ∧
  DecodeDescriptor d_raw d_blinded d_subcred d_client (d_now + 10 ^ 18) = Err CertExpired.
Proof. vm_compute. done. Qed.

Lemma DecodeDescriptor_authenticated_witness :
  ∃ sk, authentic_outer d_raw d_blinded d_now sk ∧ Forall (intro_good sk d_now) (IntroPoints d_desc) ∧
    length (IntroPoints d_desc) = 2.
Proof.
  destruct (DecodeDescriptor_authenticated d_raw d_blinded d_subcred d_client d_now d_desc d_decodes)
    as (sk & H1 & _ & H2 & _).
  exists sk. split; [exact H1|]. split; [exact H2|reflexivity].
Defined.

(** A directory answers with two lines. *)
Definition d_crash : bytes :=
  [nl] ++ go"descriptor-signing-key-cert" ++ [nl] ++ certBegin ++ go"END ED25519 CERT-----" ++ [].

Lemma DecodeDescriptor_panics_witness :
  DecodeDescriptor d_crash d_blinded d_subcred [] d_now = Panic.
Proof.
  destruct (DecodeDescriptor_panics d_crash d_blinded d_subcred [] d_now) as [H1 H2].
  apply H1. exact (H2 []).
Defined.

Lemma clean_line_check l :
  (Z.of_nat (length l) <? 2 ^ 20)%Z && forallb (λ b, negb (is_nl b)) l && bool_decide (dropCR l = l) = true →
  clean_line (2 ^ 20) l.
Proof.
  intros H. bools. split_and!; [|done|lia]. intros Hin%list_elem_of_In.
  match goal with H : forallb _ _ = true |- _ => rewrite forallb_forall in H; by apply H in Hin end.
Qed.

Lemma cookie_recovered_witness :
  decryptDescriptorCookie d_middle d_subcred d_client = Ok (Some d_cookie).
Proof.
  apply (cookie_recovered d_subcred d_eph d_client d_iv d_cookie d_enc [d_other] [] d_before []).
  - reflexivity.
  - reflexivity.
  - reflexivity.
  - vm_compute. discriminate.
  - repeat constructor. vm_compute. discriminate.
  - apply clean_line_check. vm_compute. reflexivity.
  - repeat constructor; try (vm_compute; discriminate); apply clean_line_check; vm_compute; reflexivity.
  - repeat constructor. 1: apply clean_line_check; vm_compute; reflexivity.
    intros [eph cs]. reflexivity.
  - constructor.
  - vm_compute. reflexivity.
Defined.
