(* ===== verification/Client.v ===== *)
(** * [client.go], [guard.go] and [dirtunnel.go]: the Tor client.

    Bootstrapping, the entry guard and its rotation, consensus refresh, exit
    circuits and the shared directory circuit, over the path selection of
    [Path] and the circuit pool of [Pool].  Calls on circuits, channels and
    files are recorded with their results in a history; whether they succeed is
    decided by an environment that sees the history.  The random source and the
    directory client are the interfaces [World] and [DirService]; what a fetch
    through the tunnel does on the shared directory circuit is inside them and
    not in the history, where that circuit appears when it is built, replaced
    or destroyed. *)

From S2P Require Import Prelude ByteUtil GoNet GoText Cell TorCrypto RelayInfo Directory DirClient PathSel Path Pool HashRing OnionAddr.

(** What the client asks of the directory client besides microdescriptors. *)
Class DirService (W FE : Type) := {
  dir_Bootstrap : W → outcome FE Consensus * W;
  dir_Refresh : W → outcome FE Consensus * W;
  dir_UseTunnel : W → W
}.

(** ** The outside *)

(** Calls on circuits (by handle), channels, streams and the guard file. *)
Inductive event :=
| ENew (k : nat)                             (* [circuit.New] on the guard channel *)
| EBuild (k : nat) (path : list RelayInfo)   (* [Build] *)
| EDestroy (k : nat)
| ESend (k hop : nat) (cmd : byte) (data : bytes)  (* [SendRelayToHop] *)
| EAddHop (k : nat) (df db kf kb : bytes)    (* [AddRendezvousHop] *)
| EWait (k : nat)                            (* waiting for a control cell *)
| EBegin (k : nat) (target : bytes)          (* [mgr.Begin] *)
| EBeginDir (k : nat)                        (* [mgr.BeginDir] *)
| EWrite (k : nat) (b : bytes)               (* on that stream *)
| EResponse (k : nat)                        (* [http.ReadResponse] *)
| EDial (ch : nat) (addr ed25519 : bytes)    (* [channel.Dial] *)
| EClose (ch : nat)                          (* closing a channel *)
| EReadGuard
| ESaveGuard (id : bytes)
| ERand.

Notation history := (list (event * bool)).

Record net := mkNet {
  n_ok : history → event → bool;
  n_died : history → nat → bool;                (* a circuit that failed on its own *)
  n_cells : history → list Relay.RelayCell;     (* control cells until a wait ends *)
  n_done : history → bool;                      (* the context or a timer ended it *)
  n_response : history → option response;
  n_rand : history → nat → byte;
  n_now : history → Z;
  n_guard_file : history → bytes
}.

Definition is_new (e : event * bool) : bool := match e.1 with ENew _ => true | _ => false end.
Definition is_dial (e : event * bool) : bool := match e.1 with EDial _ _ _ => true | _ => false end.
(** Handles are never used twice. *)
Definition fresh_circ (h : history) : nat := length (List.filter is_new h).
Definition fresh_chan (h : history) : nat := length (List.filter is_dial h).

(** Circuits as the pool sees them. *)
Definition is_destroy (k : nat) (e : event * bool) : bool :=
  match e.1 with EDestroy j => j =? k | _ => false end.
Definition circuit_closed (N : net) (k : nat) (h : history) : bool :=
  existsb (is_destroy k) h || n_died N h k.

Definition net_Circuits (N : net) : Circuits history := {|
  Pool.Closed := circuit_closed N;
  Pool.Destroy k h := h ++ [(EDestroy k, true)];
  CloseChannel g h := let ok := n_ok N h (EClose g) in (negb ok, h ++ [(EClose g, ok)])
|}.

(** [hsDirRingNode]. *)
Record hsDirRingNode := mkHSDir { hn_rs : RouterStatus; hn_md : Microdescriptor }.

Section Client.
Context {W FE : Type} `{!World W FE, !DirService W FE} (N : net).
#[local] Instance circuits : Circuits history := net_Circuits N.

Inductive client_error :=
| PathErr (e : tor_error (FE := FE))
| DirErr (e : FE)
| NewFailed | BuildFailed | SendFailed | BeginFailed | WaitFailed | ClosedErr
| NoGuard (last : option client_error)
| RotateErr (e : client_error)
| BadNetwork | BadAddress | BadPortNumber
| StreamWrite | NoResponse | BadStatus (code : Z) | BodyErr (e : fetch_error)
| OtherErr (what : bytes).

(** [Client]: the fields path selection uses, the pool (which holds the history
    as its world), and the rest. *)
Record Tor := mkTor {
  cl : Path.client (W := W);
  pool : Pool.Client (W := history);
  ringCache : option (list (RingNode hsDirRingNode));
  onionAuth : gmap bytes bytes;
  dataDir : bytes
}.

Definition hist (t : Tor) : history := Pool.world (pool t).
Definition set_cl (c : Path.client (W := W)) (t : Tor) : Tor := 
  mkTor c (pool t) (ringCache t) (onionAuth t) (dataDir t).
Definition set_pool (p : Pool.Client (W := history)) (t : Tor) : Tor := 
  mkTor (cl t) p (ringCache t) (onionAuth t) (dataDir t).
Definition set_ring (r : option (list (RingNode hsDirRingNode))) (t : Tor) : Tor :=
  mkTor (cl t) (pool t) r (onionAuth t) (dataDir t).
Definition set_hist (h : history) (t : Tor) : Tor := set_pool (Pool.set_world h (pool t)) t.

(** A call outside: its result, recorded. *)
Definition call (e : event) : prog Tor client_error bool :=
  λ t, let ok := n_ok N (hist t) e in Some (Ok ok, set_hist (hist t ++ [(e, ok)]) t).
(** A call that cannot fail. *)
Definition note (e : event) : prog Tor client_error unit :=
  modify (λ t, set_hist (hist t ++ [(e, true)]) t).
Definition destroy (k : nat) : prog Tor client_error unit := note (EDestroy k).

(** Calls of the layers below. *)
Definition on_path {A} (m : prog (Path.client (W := W)) (tor_error (FE := FE)) A) : prog Tor client_error A :=
  λ t, match m (cl t) with
       | Some (o, c) => Some (map_err PathErr o, set_cl c t)
       | None => None
       end.
Definition on_dir {A} (f : W → outcome FE A * W) : prog Tor client_error A :=
  λ t, let '(o, w) := f (Path.world (cl t)) in Some (map_err DirErr o, set_cl (Path.set_world w (cl t)) t).
Definition on_pool {A} (f : Pool.Client (W := history) → A * Pool.Client (W := history)) : prog Tor client_error A :=
  λ t, let '(a, p) := f (pool t) in Some (Ok a, set_pool p t).

(** [circuit.New] and [Build]; a circuit that fails to build is destroyed. *)
Definition new_circuit : prog Tor client_error nat :=
  k ← gets (λ t, fresh_circ (hist t));
  ok ← call (ENew k);
  if negb ok then throw NewFailed else mret k.
Definition build_circuit (path : list RelayInfo) : prog Tor client_error nat :=
  k ← new_circuit;
  ok ← call (EBuild k path);
  if negb ok then _ ← destroy k; throw BuildFailed else mret k.

(** ** Exit circuits *)

Definition buildExitCircuit (port : Z) : prog Tor client_error (nat * Microdescriptor) :=
  guardInfo ← gets (λ t, Path.guardInfo (cl t));
  '(_, middle, exit) ← on_path (buildExitCircuit_path port);
  k ← build_circuit [guardInfo; toRelayInfo (rs middle) (md middle); toRelayInfo (rs exit) (md exit)];
  mret (k, md exit).

Definition releaseStream (p : nat) : prog Tor client_error unit :=
  now ← gets (λ t, n_now N (hist t)); on_pool (λ c, (tt, Pool.releaseStream now p c)).

(** [mgr.Begin] on a pooled circuit whose stream slot is taken. *)
Definition begin_stream (p : nat) (target : bytes) : prog Tor client_error trackedConn :=
  k ← gets (λ t, Pool.circ (heap (pool t) p));
  ok ← call (EBegin k target);
  if negb ok then _ ← releaseStream p; throw BeginFailed else mret (newTrackedConn p).

Definition dialClearnet (addr : bytes) (port : Z) : prog Tor client_error trackedConn :=
  now ← gets (λ t, n_now N (hist t));
  hit ← on_pool (acquireClearnet now port);
  p ← match hit with
      | Some p => mret p
      | None =>
          '(k, m) ← buildExitCircuit port;
          now ← gets (λ t, n_now N (hist t));
          on_pool (insertClearnet now k m)
      end;
  begin_stream p addr.

(** ** The guard *)

Definition loadGuard (dataDir : bytes) : prog Tor client_error bytes :=
  if decide (dataDir = []) then mret []
  else
    ok ← call EReadGuard;
    if negb ok then mret [] else gets (λ t, TrimSpace (n_guard_file N (hist t))).
(** Errors are ignored. *)
Definition saveGuard (dataDir identity : bytes) : prog Tor client_error unit :=
  if decide (dataDir = []) then mret tt else _ ← call (ESaveGuard (hex_encode identity)); mret tt.

(** [c.guardChan = ch; c.guardInfo = info]. *)
Definition set_guard (ch : nat) (info : RelayInfo) (t : Tor) : Tor :=
  let c := cl t in
  let p := pool t in
  mkTor (Path.mkClient (consensus c) (Path.mdCache c) true info (Path.world c))
    (Pool.mkClient (clearnetPool p) (onionPool p) (built p) (reused p) (maxDirty p) (dirCirc p) (Some ch)
       (Pool.closed p) (heap p) (next p) (Pool.world p))
    (ringCache t) (onionAuth t) (dataDir t).

Definition maxAttempts : nat := 8.

(** The attempts of [connectGuard]; [avoid] is nil for [None]. *)
Fixpoint guard_attempts (n : nat) (first : bool) (persisted : bytes) (avoid : option bytes)
    (exclude : list (option RouterStatus)) (lastErr : option client_error) : prog Tor client_error unit :=
  match n with
  | O => throw (NoGuard lastErr)
  | S n =>
      known ← gets (λ t, if first && negb (bool_decide (persisted = []))
                         then findRouterByIdentityHex (cl t) persisted else None);
      r ← match known with
          | Some r => mret r
          | None =>
              cons ← gets (λ t, consensus (cl t));
              on_path (selector_call cons (λ s g, SelectGuard s g exclude))
          end;
      if match avoid with Some a => bool_decide (Identity r = a) | None => false end
      then guard_attempts n false persisted avoid exclude lastErr
      else
        o ← attempt (on_path (relayInfo r));
        match o with
        | Panic => panic
        | Err e => guard_attempts n false persisted avoid exclude (Some e)
        | Ok info =>
            ch ← gets (λ t, fresh_chan (hist t));
            ok ← call (EDial ch (ORAddr info) (EdIdentity info));
            if negb ok then guard_attempts n false persisted avoid exclude (Some (OtherErr go"dial"))
            else
              _ ← modify (set_guard ch info);
              d ← gets dataDir;
              saveGuard d (Identity r)
        end
  end.

Definition connectGuard (avoid : option bytes) : prog Tor client_error unit :=
  d ← gets dataDir;
  persisted ← match avoid with None => loadGuard d | Some _ => mret [] end;
  exclude ← gets (λ t, match avoid with
                       | Some a => match findRouterByIdentity (cl t) a with Some r => [Some r] | None => [] end
                       | None => []
                       end);
  guard_attempts maxAttempts true persisted avoid exclude None.

(** A copy of the old identity: [append] to nil of nothing is nil. *)
Definition copy_id (id : bytes) : option bytes := match id with [] => None | _ => Some id end.

(** [RotateGuard]; [hosts] is the order the pool's map is ranged over in. *)
Definition RotateGuard (hosts : list bytes) : prog Tor client_error unit :=
  oldChan ← gets (λ t, guardChan (pool t));
  oldID ← gets (λ t, copy_id (RSAIDDigest (Path.guardInfo (cl t))));
  _ ← map_error RotateErr (connectGuard oldID);
  _ ← on_pool (λ c, (tt, set_dirCirc None c));
  _ ← on_pool (λ c, (tt, destroyAll hosts c));
  match oldChan with
  | None => mret tt
  | Some g => _ ← on_pool (λ c, let '(err, w) := CloseChannel g (Pool.world c) in (err, Pool.set_world w c)); mret tt
  end.

(** ** Consensus *)

Definition refreshConsensus : prog Tor client_error unit :=
  cons ← on_dir dir_Refresh;
  modify (λ t, let c := cl t in
    set_ring None (set_cl (Path.mkClient cons ∅ (guardOpen c) (Path.guardInfo c) (Path.world c)) t)).

(** [c.selector().Consensus().ValidUntil.After(time.Now())]. *)
Definition fresh_consensus (t : Tor) : bool := (n_now N (hist t) <? ValidUntil (consensus (cl t)))%Z.

(** [wait] tells whether the semaphore was acquired before the context ended;
    a failed refresh is ignored. *)
Definition ensureFreshConsensus (wait : bool) : prog Tor client_error unit :=
  ok ← gets fresh_consensus;
  if ok : bool then mret tt
  else if negb wait then mret tt
  else
    ok ← gets fresh_consensus;
    if ok : bool then mret tt
    else
      o ← attempt refreshConsensus;
      match o with Panic => panic | _ => mret tt end.

(** ** Starting *)

(** [OnionClientAuth] in the order the map is ranged over. *)
Record Config := mkConfig { cfg_DataDir : bytes; MaxCircuitDirtiness : Z; OnionClientAuth : list (bytes * bytes) }.

(** The label of an onion host: lower case, without the suffix. *)
Definition onion_label (host : bytes) : bytes := TrimSuffix (ToLower host) onionSuffix.
Definition normalizeOnionAuth (l : list (bytes * bytes)) : gmap bytes bytes :=
  foldl (λ out kv, <[onion_label kv.1 := kv.2]> out) ∅ l.
Definition onionAuthKey (host : bytes) (t : Tor) : bytes := default [] (onionAuth t !! onion_label host).

(** [NewClient] behind the construction of the directory client, which is in
    the world [w]. *)
Definition NewClient (cfg : Config) (w : W) : option (outcome client_error Tor) :=
  match dir_Bootstrap w with
  | (Err e, _) => Some (Err (DirErr e))
  | (Panic, _) => Some Panic
  | (Ok con, w) =>
      let maxDirty := if (MaxCircuitDirtiness cfg <=? 0)%Z then defaultMaxCircuitDirtiness else MaxCircuitDirtiness cfg in
      let t := mkTor (Path.mkClient con ∅ false zeroRelayInfo w)
                 (Pool.mkClient [] ∅ 0 0 maxDirty None None false (λ _, mkPooled 0 0 [] zeroMicrodescriptor 0 false) 0 [])
                 None (normalizeOnionAuth (OnionClientAuth cfg)) (cfg_DataDir cfg) in
      match connectGuard None t with
      | None => None
      | Some (Ok _, t) => Some (Ok (set_cl (Path.set_world (dir_UseTunnel (Path.world (cl t))) (cl t)) t))
      | Some (Err e, _) => Some (Err e)
      | Some (Panic, _) => Some Panic
      end
  end.

(** ** The shared directory circuit (dirtunnel.go) *)

Definition buildDirCircuit : prog Tor client_error nat :=
  guardRS ← gets (λ t, findRouterByIdentity (cl t) (RSAIDDigest (Path.guardInfo (cl t))));
  guardInfo ← gets (λ t, Path.guardInfo (cl t));
  open ← gets (λ t, guardOpen (cl t));
  if negb open then throw ClosedErr else
  guardSel ← on_path (selectedRelayDirect guardRS);
  cons ← gets (λ t, consensus (cl t));
  middle ← on_path (pickRelayVia (λ ex, selector_call cons (λ s g, SelectMiddle s g ex)) [guardSel] None microdescDirect);
  dirRelay ← on_path (pickRelayVia (λ ex, selector_call cons (λ s g, SelectDirCache s g ex)) [guardSel; middle] None
                        microdescDirect);
  build_circuit [guardInfo; toRelayInfo (rs middle) (md middle); toRelayInfo (rs dirRelay) (md dirRelay)].

Definition live_dir (t : Tor) : option nat :=
  match dirCirc (pool t) with
  | Some k => if circuit_closed N k (hist t) then None else Some k
  | None => None
  end.

(** [dirCircuit]; [others] is what the other goroutines do while the lock is
    not held for the build. *)
Definition dirCircuit (others : Tor → Tor) : prog Tor client_error nat :=
  hit ← gets live_dir;
  match hit with
  | Some k => mret k
  | None =>
      k ← buildDirCircuit;
      _ ← modify others;
      closed ← gets (λ t, Pool.closed (pool t));
      if closed : bool then _ ← destroy k; throw ClosedErr
      else
        hit ← gets live_dir;
        match hit with
        | Some existing => _ ← destroy k; mret existing
        | None => _ ← on_pool (λ c, (tt, set_dirCirc (Some k) c)); mret k
        end
  end.

(** [dirGet] over circuit [k]; [e] gives the decompressors. *)
Definition dirGet (e : env) (k : nat) (path : bytes) : prog Tor client_error bytes :=
  ok ← call (EBeginDir k);
  if negb ok then throw BeginFailed else
  let req := go"GET " ++ path ++ go" HTTP/1.0" ++ [x0d; x0a] ++ go"Host: tor" ++ [x0d; x0a] ++
             go"Accept-Encoding: gzip, deflate, identity" ++ [x0d; x0a; x0d; x0a] in
  ok ← call (EWrite k req);
  if negb ok then throw StreamWrite else
  resp ← gets (λ t, n_response N (hist t));
  _ ← note (EResponse k);
  match resp with
  | None => throw NoResponse
  | Some resp =>
      if negb (StatusCode resp =? 200)%Z then throw (BadStatus (StatusCode resp))
      else
        body ← lift (map_err BodyErr (ReadAll_Limit (Z.shiftl 8 20) (Body resp)));
        lift (map_err BodyErr (Decompress e (ContentEncoding resp) body))
  end.

(** [DirGet]: a directory circuit that died is forgotten and destroyed. *)
Definition DirGet (e : env) (others : Tor → Tor) (path : bytes) : prog Tor client_error bytes :=
  k ← dirCircuit others;
  o ← attempt (dirGet e k path);
  dead ← gets (λ t, circuit_closed N k (hist t));
  match o with
  | Ok body => mret body
  | Panic => panic
  | Err er =>
      if dead : bool then
        _ ← modify (λ t, if decide (dirCirc (pool t) = Some k) then set_pool (set_dirCirc None (pool t)) t else t);
        _ ← destroy k; throw er
      else throw er
  end.

End Client.
