(* ===== verification/OnionDial.v ===== *)
(** * [onion_dial.go]: dialing onion services.

    The ring of directories, descriptor fetches, introduction and rendezvous,
    composed from the circuits of [Client], the descriptors of [OnionDesc] and
    the cells of [OnionAddr]; and [DialContext], which chooses between onion
    services and exit circuits. *)

From S2P Require Import Prelude ByteUtil GoNet GoText GoTextFacts Cell TorCrypto RelayInfo Directory DirClient PathSel Path Pool HashRing OnionAddr OnionDesc Client.

(** ** Control cells *)

(** [onionControl]: three channels of capacity one. *)
Record onionControl := mkControl {
  oc_established : bool;
  oc_rendezvous2 : option bytes;
  oc_introAck : option Z
}.
Definition newOnionControl : onionControl := mkControl false None None.

(** A cell that finds its channel full is dropped. *)
Definition oc_handle (oc : onionControl) (rc : Relay.RelayCell) : onionControl :=
  if decide (Relay.Cmd rc = Relay.RelayRendezvousEstablished) then
    mkControl true (oc_rendezvous2 oc) (oc_introAck oc)
  else if decide (Relay.Cmd rc = Relay.RelayRendezvous2) then
    mkControl (oc_established oc) (Some (default (Relay.Data rc) (oc_rendezvous2 oc))) (oc_introAck oc)
  else if decide (Relay.Cmd rc = Relay.RelayIntroduceAck) then
    let status := if 2 <=? length (Relay.Data rc) then BE_Uint16 (Relay.Data rc) else 0%Z in
    mkControl (oc_established oc) (oc_rendezvous2 oc) (Some (default status (oc_introAck oc)))
  else oc.

Definition onionRendezvousAttempts : nat := 3.

Fixpoint dedupeSRVs_from (seen : gset bytes) (srvs : list bytes) : list bytes :=
  match srvs with
  | [] => []
  | s :: srvs =>
      if negb (length s =? 32) || bool_decide (s ∈ seen) then dedupeSRVs_from seen srvs
      else s :: dedupeSRVs_from ({[s]} ∪ seen) srvs
  end.
Definition dedupeSRVs (srvs : list bytes) : list bytes := dedupeSRVs_from ∅ srvs.

(** Seconds since the epoch of a time in nanoseconds. *)
Definition unix (t : Z) : Z := (t / 1000000000)%Z.

Section OnionDial.
Context `{C : Crypto} {W FE : Type} `{!World W FE, !DirService W FE}.
Context (N : net) (e : env) (sort_Slice : list (ringEntry hsDirRingNode) → list (ringEntry hsDirRingNode)).
#[local] Instance circuits' : Circuits history := net_Circuits N.
Notation Tor := (Tor (W := W)).
Notation client_error := (client_error (FE := FE)).

Inductive dial_error :=
| ClientErr (e : client_error)
| AddressErr (e : address_error)
| BlindErr (e : crypto_error)
| DescErr (e : onion_error)
| LinkSpecErr (e : LinkSpec.error)
| RelayInfoErr (e : relayinfo_error)
| HandshakeErr (e : crypto_error)
| MissingEdIdentity | AckStatus (status : Z) | ContextDone | RandErr | MalformedRendezvous2
| NoHSDirs
| IntroFailed (last : option dial_error)
| FetchFailed (last : option dial_error)
| NoDescriptor (last : option dial_error).

Definition up {A} (m : prog Tor client_error A) : prog Tor dial_error A := map_error ClientErr m.

(** ** The ring of directories *)

Definition hsdir_candidate (r : RouterStatus) : bool :=
  HasFlag r go"HSDir" && HasFlag r go"Running" && HasFlag r go"Valid" &&
  negb (bool_decide (MicrodescHash r = [])).

Definition ring_nodes (candidates : list RouterStatus) (mds : gmap bytes Microdescriptor) : list (RingNode hsDirRingNode) :=
  candidates ≫= λ r,
    match mds !! MicrodescHash r with
    | Some m => if length (Ed25519ID m) =? 32 then [mkRingNode (Ed25519ID m) (mkHSDir r m)] else []
    | None => []
    end.

(** [hsDirRing]; [others] is what other goroutines do between the reading of the
    consensus and the storing of the ring, when the client's lock is not held. *)
Definition hsDirRing (others : Tor → Tor) : prog Tor dial_error (list (RingNode hsDirRingNode)) :=
  hit ← gets ringCache;
  match hit with
  | Some ring => mret ring
  | None =>
      candidates ← gets (λ t, List.filter hsdir_candidate (Routers (consensus (cl t))));
      mds ← up (on_dir (FetchMicrodescriptors (map MicrodescHash candidates)));
      let ring := ring_nodes candidates mds in
      if length ring =? 0 then throw NoHSDirs
      else _ ← modify others; _ ← modify (set_ring (Some ring)); mret ring
  end.

(** ** Circuits to a given relay *)

Definition buildCircuitVia (third : RelayInfo) : prog Tor client_error nat :=
  guardRS ← gets (λ t, findRouterByIdentity (cl t) (RSAIDDigest (Path.guardInfo (cl t))));
  guardInfo ← gets (λ t, Path.guardInfo (cl t));
  open ← gets (λ t, guardOpen (cl t));
  if negb open then throw ClosedErr else
  og ← attempt (E := client_error) (on_path (selectedGuard guardRS));
  thirdRS ← gets (λ t, findRouterByIdentity (cl t) (RSAIDDigest third));
  o3 ← match thirdRS with
       | None => mret None
       | Some r => o ← attempt (E := client_error) (on_path (microdesc r));
                   match o with Ok m => mret (Some (mkSelected r m)) | Err _ => mret None | Panic => panic end
       end;
  chosen ← match og with
           | Ok gs => mret (gs :: option_list o3)
           | Err _ => mret (option_list o3)
           | Panic => panic
           end;
  con ← gets (λ t, consensus (cl t));
  middle ← on_path (pickRelay (λ ex, selector_call con (λ s g, SelectMiddle s g ex)) chosen None);
  build_circuit N [guardInfo; toRelayInfo (rs middle) (md middle); third].

(** ** Descriptors *)

Definition descriptor_path (blinded : bytes) : bytes := go"/tor/hs/3/" ++ RawStd_Encode blinded.

Fixpoint fetchDescriptor (dirs : list (RingNode hsDirRingNode)) (blinded subcred clientAuthKey : bytes)
    (lastErr : option dial_error) : prog Tor dial_error Descriptor :=
  match dirs with
  | [] => throw (FetchFailed lastErr)
  | node :: dirs =>
      let n := rn_Payload node in
      let info := toRelayInfo (hn_rs n) (hn_md n) in
      o ← attempt (up (buildCircuitVia info));
      match o with
      | Panic => panic
      | Err er => fetchDescriptor dirs blinded subcred clientAuthKey (Some er)
      | Ok k =>
          o ← attempt (up (dirGet N e k (descriptor_path blinded)));
          _ ← up (destroy k);
          match o with
          | Panic => panic
          | Err er => fetchDescriptor dirs blinded subcred clientAuthKey (Some er)
          | Ok raw =>
              now ← gets (λ t, n_now N (hist t));
              match DecodeDescriptor raw blinded subcred clientAuthKey now with
              | Panic => panic
              | Err er => fetchDescriptor dirs blinded subcred clientAuthKey (Some (DescErr er))
              | Ok desc => mret desc
              end
          end
      end
  end.

(** ** Introduction and rendezvous *)

(** Random bytes; [None] is the error of the source. *)
Definition rand_Read (n : nat) : prog Tor dial_error (option bytes) :=
  ok ← up (call N ERand);
  if ok : bool then gets (λ t, Some (map (n_rand N (hist t)) (seq 0 n))) else mret None.

(** Wait for a control cell of circuit [k]: the control state with what arrived,
    and whether the context or the timer ended the wait. *)
Definition await (k : nat) (oc : onionControl) : prog Tor dial_error (onionControl * bool) :=
  cells ← gets (λ t, n_cells N (hist t));
  done ← gets (λ t, n_done N (hist t));
  _ ← up (note (EWait k));
  mret (foldl oc_handle oc cells, done).

Definition rpHop : nat := 2.
Definition introHop : nat := 2.

(** [SendRelayToHop] of a control cell; an error tears the circuit down. *)
Definition send_or_destroy (k hop : nat) (cmd : byte) (data : bytes) : prog Tor dial_error bool :=
  ok ← up (call N (ESend k hop cmd data));
  if negb ok then _ ← up (destroy k); mret false else mret true.

(** The introduction points from [ips] on. *)
Fixpoint introduce (ips : list IntroPoint) (subcred cookie rpNtorKey rpLinkSpecs : bytes)
    (lastErr : option dial_error) : prog Tor dial_error HSNtor.HSNtorClient :=
  match ips with
  | [] => throw (IntroFailed lastErr)
  | ip :: ips =>
      let next er := introduce ips subcred cookie rpNtorKey rpLinkSpecs (Some er) in
      match LinkSpec.ParseLinkSpecifiers (OnionDesc.LinkSpecifiers ip) with
      | Panic => panic
      | Err er => next (LinkSpecErr er)
      | Ok ls =>
          let introInfo := mkRelayInfo go"intro" (LinkSpec.ORAddr ls) (LinkSpec.RSAID ls) (LinkSpec.EdID ls) (OnionKey ip) in
          if negb (length (EdIdentity introInfo) =? 32) then next MissingEdIdentity
          else
            o ← attempt (up (buildCircuitVia introInfo));
            match o with
            | Panic => panic
            | Err er => next er
            | Ok k =>
                random ← gets (λ t, map (n_rand N (hist t)) (seq 0 32));
                match HSNtor.HSNtorClientIntro random (EncKey ip) (AuthKey ip) subcred with
                | Panic => panic
                | Err er => _ ← up (destroy k); next (HandshakeErr er)
                | Ok (encKey, macKey, clientX, state) =>
                    match BuildIntroduce1 (AuthKey ip) encKey macKey clientX
                            (BuildIntroduce1Plaintext cookie rpNtorKey rpLinkSpecs) with
                    | Panic => panic
                    | Err er => _ ← up (destroy k); next (HandshakeErr er)
                    | Ok intro1 =>
                        sent ← send_or_destroy k introHop Relay.RelayIntroduce1 intro1;
                        if negb sent then next (ClientErr SendFailed)
                        else
                          '(oc, done) ← await k newOnionControl;
                          _ ← up (destroy k);
                          match oc_introAck oc with
                          | Some status =>
                              if done : bool then throw ContextDone
                              else if negb (status =? 0)%Z then next (AckStatus status)
                              else mret state
                          | None => throw ContextDone
                          end
                    end
                end
            end
      end
  end.

Definition pickRendezvousPoint : prog Tor dial_error RelayInfo :=
  guardRS ← gets (λ t, findRouterByIdentity (cl t) (RSAIDDigest (Path.guardInfo (cl t))));
  con ← gets (λ t, consensus (cl t));
  rp ← up (on_path (selector_call con (λ s g, SelectMiddle s g [guardRS])));
  up (on_path (relayInfo rp)).

(** Tear the circuit down and return the error. *)
Definition abort {A} (k : nat) (er : dial_error) : prog Tor dial_error A :=
  _ ← up (destroy k); throw er.
Definition or_abort {E A} (k : nat) (f : E → dial_error) (o : outcome E A) : prog Tor dial_error A :=
  match o with Ok a => mret a | Err er => abort k (f er) | Panic => panic end.

(** The third step of [buildOnionCircuit]: await RENDEZVOUS2, finish hs-ntor and
    add the service's hop. *)
Definition await_rendezvous (k : nat) (oc : onionControl) (state : HSNtor.HSNtorClient) : prog Tor dial_error nat :=
  '(oc, done) ← await k (mkControl false (oc_rendezvous2 oc) (oc_introAck oc));
  match oc_rendezvous2 oc with
  | None => abort k ContextDone
  | Some rend2 =>
      if done : bool then abort k ContextDone
      else
        match ParseRendezvous2 rend2 with
        | None => abort k MalformedRendezvous2
        | Some (serverPK, auth) =>
            seed ← or_abort k HandshakeErr (HSNtor.Finish state serverPK auth);
            '(df, db, kf, kb) ← lift (map_err HandshakeErr (HSNtor.HSNtorExpandKeys seed));
            ok ← up (call N (EAddHop k df db kf kb));
            if negb ok then abort k (ClientErr BuildFailed) else mret k
        end
  end.

Definition buildOnionCircuit (desc : Descriptor) (subcred : bytes) : prog Tor dial_error nat :=
  rpInfo ← pickRendezvousPoint;
  k ← up (buildCircuitVia rpInfo);
  cookie ← rand_Read 20;
  match cookie with
  | None => abort k RandErr
  | Some cookie =>
      sent ← send_or_destroy k rpHop Relay.RelayEstablishRendezvous cookie;
      if negb sent then throw (ClientErr SendFailed)
      else
        '(oc, done) ← await k newOnionControl;
        if negb (oc_established oc) || done then abort k ContextDone
        else
          rpLinkSpecs ← or_abort k RelayInfoErr (RelayInfo.LinkSpecifiers rpInfo);
          o ← attempt (introduce (IntroPoints desc) subcred cookie (RelayInfo.NtorOnionKey rpInfo) rpLinkSpecs None);
          state ← or_abort k id o;
          await_rendezvous k oc state
  end.

(** [alive] tells for every attempt whether the parent context is alive when it
    starts. *)
Fixpoint onion_attempts (n : nat) (alive : nat → bool) (desc : Descriptor) (subcred : bytes) (lastErr : option dial_error)
    : prog Tor dial_error nat :=
  match n with
  | O => throw (default ContextDone lastErr)
  | S n =>
      if negb (alive n) then throw (default ContextDone lastErr)
      else
        o ← attempt (buildOnionCircuit desc subcred);
        match o with
        | Panic => panic
        | Ok k => mret k
        | Err er => onion_attempts n alive desc subcred (Some er)
        end
  end.
Definition buildOnionCircuitWithRetry (alive : nat → bool) (desc : Descriptor) (subcred : bytes) : prog Tor dial_error nat :=
  onion_attempts onionRendezvousAttempts alive desc subcred None.

(** ** Dialing *)

Definition onion_target (port : Z) : bytes := go":" ++ Itoa port.

Definition dialOnionViaDescriptor (alive : nat → bool) (host : bytes) (desc : Descriptor) (subcred : bytes) (port : Z)
    : prog Tor dial_error trackedConn :=
  k ← buildOnionCircuitWithRetry alive desc subcred;
  now ← gets (λ t, n_now N (hist t));
  p ← up (on_pool (insertOnion now host k));
  up (begin_stream N p (onion_target port)).

(** The attempts of [dialOnion], each a period and a shared random value. *)
Definition onion_periods (con : Consensus) : list (Z * bytes) :=
  let '(tpCur, plen) := TimePeriod (unix (ValidAfter con)) in
  let srvFor := SRVForFetch (unix (ValidAfter con)) (SharedRandCurrent con) (SharedRandPrevious con) in
  let srvs := dedupeSRVs [srvFor; SharedRandCurrent con; SharedRandPrevious con] in
  [tpCur; u64 (tpCur - 1)] ≫= λ tp,
    map (λ srv, (tp, srv)) (if length srvs =? 0 then [DisasterSRV tp plen] else srvs).

Fixpoint period_attempts (attempts : list (Z * bytes)) (alive : nat → bool) (host pub clientAuthKey : bytes) (plen : Z)
    (ring : list (RingNode hsDirRingNode)) (port : Z) (lastErr : option dial_error) : prog Tor dial_error trackedConn :=
  match attempts with
  | [] => throw (NoDescriptor lastErr)
  | (tp, srv) :: attempts =>
      let next le := period_attempts attempts alive host pub clientAuthKey plen ring port le in
      match Blind.BlindPublicKey pub tp plen with
      | Panic => panic
      | Err er => next (Some (BlindErr er))
      | Ok blinded =>
          let subcred := Subcredential pub blinded in
          let responsible := ResponsibleHSDirs sort_Slice blinded tp plen srv ring in
          if length responsible =? 0 then next lastErr
          else
            o ← attempt (fetchDescriptor responsible blinded subcred clientAuthKey None);
            match o with
            | Panic => panic
            | Err er => next (Some er)
            | Ok desc => dialOnionViaDescriptor alive host desc subcred port
            end
      end
  end.

Definition dialOnion (alive : nat → bool) (host : bytes) (port : Z) : prog Tor dial_error trackedConn :=
  now ← gets (λ t, n_now N (hist t));
  hit ← up (on_pool (acquireOnion now host));
  match hit with
  | Some p => up (begin_stream N p (onion_target port))
  | None =>
      addr ← lift (map_err AddressErr (ParseAddress host));
      con ← gets (λ t, consensus (cl t));
      clientAuthKey ← gets (onionAuthKey host);
      ring ← hsDirRing id;
      period_attempts (onion_periods con) alive host (PublicKey addr) clientAuthKey
        (TimePeriod (unix (ValidAfter con))).2 ring port None
  end.

(** [DialContext]; [wait] as in [ensureFreshConsensus]. *)
Definition DialContext (wait : bool) (alive : nat → bool) (network addr : bytes) : prog Tor dial_error trackedConn :=
  if negb (bool_decide (network ∈ [go"tcp"; go"tcp4"; go"tcp6"])) then throw (ClientErr BadNetwork)
  else
    _ ← up (ensureFreshConsensus N wait);
    match SplitHostPort addr with
    | Panic => panic
    | Err _ => throw (ClientErr BadAddress)
    | Ok (host, portStr) =>
        match Atoi portStr with
        | None => throw (ClientErr BadPortNumber)
        | Some port =>
            if HasSuffix (ToLower host) go".onion" then dialOnion alive host port
            else up (dialClearnet N addr port)
        end
    end.

End OnionDial.
