(* ===== verification/ClientFacts.v ===== *)
(** * What the client's operations do: circuits are not leaked, a guard is
    connected to as the consensus describes it, a failed rotation changes
    nothing and a successful one leaves nothing of the old guard behind. *)

From S2P Require Import Prelude ByteUtil GoNet GoText Cell TorCrypto RelayInfo Directory DirClient PathSel Path Pool PoolFacts HashRing OnionAddr Client.

(** Circuits fail on their own, not because another one is destroyed, and a
    circuit that failed stays so. *)
Class NetLaws (N : net) : Prop := {
  died_other h j k : j ≠ k → n_died N (h ++ [(EDestroy k, true)]) j = n_died N h j;
  died_final h ext k : n_died N h k = true → n_died N (h ++ ext) k = true
}.

(** ** Circuits created and destroyed *)

(** Every circuit created in [ext] is destroyed in it, but for those in
    [keep]. *)
Definition balanced (ext : history) (keep : list nat) : Prop :=
  ∀ k, (ENew k, true) ∈ ext → (EDestroy k, true) ∈ ext ∨ k ∈ keep.

Lemma balanced_nil keep : balanced [] keep.
Proof. intros k H. by apply not_elem_of_nil in H. Qed.
Lemma balanced_app e1 e2 keep : balanced e1 keep → balanced e2 keep → balanced (e1 ++ e2) keep.
Proof. intros H1 H2 k [H|H]%elem_of_app; [destruct (H1 k H)|destruct (H2 k H)]; set_solver. Qed.
Lemma balanced_weaken ext k1 k2 : balanced ext k1 → k1 ⊆ k2 → balanced ext k2.
Proof. intros H Hs k Hk. destruct (H k Hk); [by left|right; by apply Hs]. Qed.
(** The circuit kept so far is destroyed. *)
Lemma balanced_destroy e1 e2 k keep : balanced e1 (k :: keep) → balanced e2 keep → (EDestroy k, true) ∈ e2 →
  balanced (e1 ++ e2) keep.
Proof.
  intros H1 H2 Hd j [H|H]%elem_of_app.
  - destruct (H1 j H) as [?|[->|?]%elem_of_cons]; set_solver.
  - destruct (H2 j H); set_solver.
Qed.
(** The calls of connecting a guard: none touches a circuit or closes a channel. *)
Definition guard_call (e : event) : bool :=
  match e with EDial _ _ _ | EReadGuard | ESaveGuard _ | ERand => true | _ => false end.
Definition quiet (ext : history) : Prop := List.Forall (λ e, guard_call e.1 = true) ext.
Lemma quiet_balanced ext keep : quiet ext → balanced ext keep.
Proof. intros H k Hk. apply (proj1 (list.Forall_forall _ _) H) in Hk. done. Qed.
Lemma quiet_nil : quiet [].
Proof. apply List.Forall_nil. Qed.
Lemma quiet_app e1 e2 : quiet e1 → quiet e2 → quiet (e1 ++ e2).
Proof. intros H1 H2. by apply list.Forall_app. Qed.
Ltac solve_quiet := cbn [app]; repeat (apply List.Forall_cons; [reflexivity|]); apply List.Forall_nil.
(** Events that neither create nor build nor destroy a circuit and dial no relay. *)
Definition plain (e : event) : bool :=
  match e with ENew _ | EBuild _ _ | EDestroy _ | EDial _ _ _ => false | _ => true end.
Definition harmless (ext : history) : Prop := List.Forall (λ e, plain e.1 = true) ext.
Ltac solve_harmless := cbn [app]; repeat (apply List.Forall_cons; [reflexivity|]); apply List.Forall_nil.
(** The events of building one circuit. *)
Definition builds (path : list RelayInfo) (k : nat) (ext : history) : Prop :=
  (∃ b, ext = [(ENew k, b)]) ∨ (∃ b, ext = [(ENew k, true); (EBuild k path, b)]) ∨
  ext = [(ENew k, true); (EBuild k path, false); (EDestroy k, true)].
#[export] Hint Resolve balanced_nil quiet_nil quiet_balanced : gotor.

Section Facts.
Context {W FE : Type} `{!World W FE, !DirService W FE} (N : net).
#[local] Instance circs : Circuits history := net_Circuits N.
Notation Tor := (Tor (W := W)).
Notation client_error := (client_error (FE := FE)).
Notation pathclient := (Path.client (W := W)).

(** ** Path selection leaves the client's other fields alone *)

(** A property that drawing random numbers, fetching microdescriptors and
    caching those that were fetched preserves; path selection does nothing else. *)
Class PathStable (P : pathclient → Prop) : Prop := {
  ps_draw c : P c → P (Path.set_world (draw (Path.world c)).2 c);
  ps_fetch hs c : P c → P (Path.set_world (FetchMicrodescriptors hs (Path.world c)).2 c);
  ps_direct hs c : P c → P (Path.set_world (FetchMicrodescriptorsDirect hs (Path.world c)).2 c);
  ps_cache hs c out w h m : FetchMicrodescriptors hs (Path.world c) = (Ok out, w) → out !! h = Some m →
    P (Path.set_world w c) → P (Path.set_cache (<[h := m]> (Path.mdCache c)) (Path.set_world w c));
  ps_cache_direct hs c out w h m : FetchMicrodescriptorsDirect hs (Path.world c) = (Ok out, w) → out !! h = Some m →
    P (Path.set_world w c) → P (Path.set_cache (<[h := m]> (Path.mdCache c)) (Path.set_world w c))
}.

Definition path_frame (c0 c : pathclient) : Prop :=
  consensus c = consensus c0 ∧ Path.guardInfo c = Path.guardInfo c0 ∧ guardOpen c = guardOpen c0.

#[export] Instance path_frame_stable c0 : PathStable (path_frame c0).
Proof. by split. Qed.

Section Stable.
Context (P : pathclient → Prop) `{!PathStable P}.

Lemma on_world_frame {E A} (f : W → outcome E A * W) : (∀ c, P c → P (Path.set_world (f (Path.world c)).2 c)) →
  preserves P (on_world f).
Proof. intros H c o c'. unfold on_world. specialize (H c). destruct (f _) as [o1 w]. by intros [= <- <-]. Qed.

Lemma microdescVia_frame (r : RouterStatus) (f : list bytes → W → outcome FE (gmap bytes Microdescriptor) * W) :
  (∀ hs c, P c → P (Path.set_world (f hs (Path.world c)).2 c)) →
  (∀ hs c (out : gmap bytes Microdescriptor) w h m, f hs (Path.world c) = (Ok out, w) → out !! h = Some m → P (Path.set_world w c) →
    P (Path.set_cache (<[h := m]> (Path.mdCache c)) (Path.set_world w c))) →
  preserves P (microdescVia (FE := FE) r (λ hs, on_world (f hs))).
Proof.
  intros Hf Hc c o c'. unfold microdescVia. rewrite prog_bind_eq. cbn [gets].
  destruct (Path.mdCache c !! MicrodescHash r) as [m|]; [by intros [= _ <-]|].
  rewrite prog_bind_eq. unfold map_error, on_world. specialize (Hf [MicrodescHash r] c).
  destruct (f [MicrodescHash r] (Path.world c)) as [o1 w] eqn:Ef. cbn [snd] in Hf.
  destruct o1 as [out|er|]; cbn [map_err]; [|intros [= _ <-]; exact Hf..].
  destruct (out !! MicrodescHash r) as [m|] eqn:Em; [|intros [= _ <-]; exact Hf].
  destruct (_ || _); [intros [= _ <-]; exact Hf|]. rewrite prog_bind_eq. unfold modify.
  intros [= _ <-] Hp. by apply (Hc _ _ _ _ _ _ Ef Em), Hf.
Qed.
Lemma microdesc_frame r : preserves P (microdesc (FE := FE) r).
Proof. apply microdescVia_frame; [apply ps_fetch|apply ps_cache]. Qed.
Lemma microdescDirect_frame r : preserves P (microdescDirect (FE := FE) r).
Proof. apply microdescVia_frame; [apply ps_direct|apply ps_cache_direct]. Qed.
Lemma selector_call_frame con f : preserves P (selector_call (FE := FE) con f).
Proof.
  apply preserves_bind; [|intros g; apply preserves_lift]. apply on_world_frame. intros c Hc.
  pose proof (ps_draw c Hc) as H. by destruct (draw (Path.world c)).
Qed.
Lemma relayInfo_frame r : preserves P (relayInfo (FE := FE) r).
Proof. apply preserves_bind; [apply microdesc_frame|]. intros m. apply preserves_ret. Qed.

Lemma pickRelayVia_frame sel chosen mdOK fetch : (∀ ex, preserves P (sel ex)) →
  (∀ r, preserves P (fetch r)) → preserves P (pickRelayVia (FE := FE) sel chosen mdOK fetch).
Proof.
  intros Hs Hf. unfold pickRelayVia. generalize 20, (map (λ ch, Some (rs ch)) chosen), (@None (tor_error (FE := FE))).
  induction n as [|n IH]; intros ex le; cbn [pick_attempts]; [apply preserves_throw|].
  apply preserves_bind; [apply Hs|]. intros r. apply preserves_bind; [apply preserves_attempt, Hf|].
  intros [m|er|]; [apply preserves_if; [apply IH|apply preserves_ret]|apply IH|apply preserves_panic].
Qed.

Lemma selectedGuard_frame g : preserves P (selectedGuard (FE := FE) g).
Proof.
  destruct g; [|apply preserves_throw]. apply preserves_bind; [apply microdesc_frame|]. intros; apply preserves_ret.
Qed.
Lemma selectedRelayDirect_frame g : preserves P (selectedRelayDirect (FE := FE) g).
Proof.
  destruct g; [|apply preserves_throw]. apply preserves_bind; [apply microdescDirect_frame|]. intros; apply preserves_ret.
Qed.
Lemma exit_path_frame port : preserves P (buildExitCircuit_path (FE := FE) port).
Proof.
  unfold buildExitCircuit_path. apply preserves_bind; [apply preserves_gets|]. intros g.
  apply preserves_bind; [apply preserves_gets|]. intros op. apply preserves_if; [apply preserves_throw|].
  apply preserves_bind; [apply selectedGuard_frame|]. intros gs. apply preserves_bind; [apply preserves_gets|]. intros con.
  apply preserves_bind; [apply pickRelayVia_frame; intros; [apply selector_call_frame|apply microdesc_frame]|]. intros m.
  apply preserves_bind; [|intros; apply preserves_ret].
  apply preserves_map_error, pickRelayVia_frame; intros; [apply selector_call_frame|apply microdesc_frame].
Qed.
End Stable.

(** ** What a call changes *)

(** The history grew by [ext]; the pool, the caches' owners and the guard are as
    they were. *)
Record step_to (t : Tor) (ext : history) (t' : Tor) : Prop := {
  st_hist : hist t' = hist t ++ ext;
  st_pool : pool t' = Pool.set_world (hist t') (pool t);
  st_path : path_frame (cl t) (cl t');
  st_rest : ringCache t' = ringCache t ∧ onionAuth t' = onionAuth t ∧ dataDir t' = dataDir t
}.

Lemma set_world_id (p : Pool.Client (W := history)) : Pool.set_world (Pool.world p) p = p.
Proof. by destruct p. Qed.

Lemma step_refl t : step_to t [] t.
Proof. split; try done; [by rewrite app_nil_r|unfold hist; by rewrite set_world_id]. Qed.
Lemma step_trans t1 e1 t2 e2 t3 : step_to t1 e1 t2 → step_to t2 e2 t3 → step_to t1 (e1 ++ e2) t3.
Proof.
  intros [A1 A2 (A3 & A4 & A5) (A6 & A7 & A8)] [B1 B2 (B3 & B4 & B5) (B6 & B7 & B8)].
  split; [by rewrite B1, A1, app_assoc|by rewrite B2, A2|split_and!; congruence|split_and!; congruence].
Qed.

Lemma call_post e t (Q : outcome client_error bool → Tor → Prop) :
  (∀ ok t', step_to t [(e, ok)] t' → Q (Ok ok) t') → post (call N e) t Q.
Proof. intros H o t' [= <- <-]. by apply H. Qed.
Lemma note_post e t (Q : outcome client_error unit → Tor → Prop) :
  (∀ t', step_to t [(e, true)] t' → Q (Ok tt) t') → post (note e) t Q.
Proof. intros H o t' [= <- <-]. by apply H. Qed.

Lemma on_path_post {A} (m : prog pathclient (tor_error (FE := FE)) A) t (Q : outcome client_error A → Tor → Prop) :
  preserves (path_frame (cl t)) m →
  (∀ o t', step_to t [] t' → m (cl t) = Some (o, cl t') → Q (map_err PathErr o) t') → post (on_path m) t Q.
Proof.
  intros Hp H o t'. unfold on_path. destruct (m (cl t)) as [[o1 c]|] eqn:E; [|done]. intros [= <- <-].
  apply H; [|done]. destruct (step_refl t) as [H1 H2 _ H4]. split; [done|done| |done]. by eapply Hp.
Qed.

Lemma on_dir_post {A} (f : W → outcome FE A * W) t (Q : outcome client_error A → Tor → Prop) :
  (∀ o t', step_to t [] t' → (f (Path.world (cl t))).1 = o → Q (map_err DirErr o) t') → post (on_dir f) t Q.
Proof.
  intros H o t'. unfold on_dir. destruct (f _) as [o1 w] eqn:E. intros [= <- <-]. apply H; [|done].
  by destruct (step_refl t) as [H1 H2 _ H4].
Qed.

(** ** Building circuits *)

Lemma build_circuit_post path t (Q : outcome client_error nat → Tor → Prop) :
  (∀ o t' ext, step_to t ext t' → builds path (fresh_circ (hist t)) ext →
    match o with
    | Ok k => ext = [(ENew (fresh_circ (hist t)), true); (EBuild k path, true)] ∧ k = fresh_circ (hist t)
    | Err _ => balanced ext []
    | Panic => False
    end → Q o t') →
  post (build_circuit N path) t Q.
Proof.
  intros H. unfold build_circuit, new_circuit. apply post_bind, post_bind, post_gets, post_bind, call_post.
  intros ok1 t1 S1. set (k := fresh_circ (hist t)) in *. destruct ok1; cbn [negb].
  2: { apply post_throw. apply (H _ _ _ S1); [left; by eexists|]. intros j Hj. set_solver. }
  apply post_ret, post_bind, call_post. intros ok2 t2 S2. pose proof (step_trans _ _ _ _ _ S1 S2) as S12.
  destruct ok2; cbn [negb].
  - apply post_ret. apply (H _ _ _ S12); [right; left; by eexists|done].
  - apply post_bind, note_post. intros t3 S3. apply post_throw.
    apply (H _ _ _ (step_trans _ _ _ _ _ S12 S3)); [by right; right|]. intros j Hj. left. set_solver.
Qed.

Lemma dirGet_post e k path t (Q : outcome client_error bytes → Tor → Prop) :
  (∀ o t' ext, step_to t ext t' → harmless ext → Q o t') → post (dirGet N e k path) t Q.
Proof.
  intros H. unfold dirGet. cbv zeta. apply post_bind, call_post. intros [|] t1 S1; cbn [negb].
  2: { apply post_throw. apply (H _ _ _ S1). solve_harmless. }
  apply post_bind, call_post. intros [|] t2 S2; cbn [negb].
  2: { apply post_throw. apply (H _ _ _ (step_trans _ _ _ _ _ S1 S2)). solve_harmless. }
  apply post_bind, post_gets, post_bind, note_post. intros t3 S3.
  assert (∀ o : outcome client_error bytes, Q o t3) as HQ.
  { intros o. apply (H _ _ _ (step_trans _ _ _ _ _ (step_trans _ _ _ _ _ S1 S2) S3)). solve_harmless. }
  destruct (n_response N (hist t2)) as [resp|]; [|apply post_throw, HQ].
  destruct (negb _); [apply post_throw, HQ|]. apply post_bind, post_lift.
  destruct (map_err _ _); [apply post_lift, HQ|apply HQ..].
Qed.

(** ** The guard *)

(** A relay [connectGuard] may take: a guard by its flags, or the one that was
    persisted. *)
Definition may_guard (persisted : bytes) (r : RouterStatus) : Prop :=
  (baseEligible r = true ∧ guardOK r = true) ∨
  (persisted ≠ [] ∧ ToLower (hex_encode (Identity r)) = ToLower persisted).

(** From [t] a guard was found, dialed for the identity its microdescriptor
    gives, and installed. *)
Inductive connected (t : Tor) (persisted : bytes) (avoid : option bytes) (t' : Tor) : Prop :=
| mkConnected (mid : Tor) (ext ext' : history) (r : RouterStatus) (m : Microdescriptor) (ch : nat)
    (_ : step_to t ext mid)
    (_ : quiet ext ∧ quiet ext')
    (_ : r ∈ Routers (consensus (cl t)))
    (_ : may_guard persisted r)
    (_ : avoid ≠ Some (Identity r))
    (_ : (EDial ch (ORAddr (toRelayInfo r m)) (Ed25519ID m), true) ∈ ext)
    (_ : fresh_chan (hist t) ≤ ch)
    (_ : step_to (set_guard ch (toRelayInfo r m) mid) ext' t').

Lemma find_router_Some test l r : find_router test l = Some r → r ∈ l ∧ test r = true.
Proof. intros H. apply List.find_some in H as [H ?]. split; [by apply list_elem_of_In|done]. Qed.

Lemma fresh_chan_mono h ext : fresh_chan h ≤ fresh_chan (h ++ ext).
Proof. unfold fresh_chan. rewrite filter_app, length_app. lia. Qed.

Lemma connected_later t e t1 persisted avoid t' :
  step_to t e t1 → quiet e → connected t1 persisted avoid t' → connected t persisted avoid t'.
Proof.
  intros S Hq [mid ext ext' r m ch Hs [Hq1 Hq2] Hk Hm Ha Hd Hf He].
  refine (mkConnected t persisted avoid t' mid (e ++ ext) ext' r m ch _ _ _ Hm Ha _ _ He).
  - by eapply step_trans.
  - split; [by apply quiet_app|done].
  - by rewrite <-(proj1 (st_path _ _ _ S)).
  - apply elem_of_app. by right.
  - etrans; [|exact Hf]. rewrite (st_hist _ _ _ S). apply fresh_chan_mono.
Qed.

Lemma saveGuard_post d i t (Q : outcome client_error unit → Tor → Prop) :
  (∀ t' ext, step_to t ext t' → quiet ext → Q (Ok tt) t') → post (saveGuard N d i) t Q.
Proof.
  intros H. unfold saveGuard. case_decide; [apply post_ret; by eapply H; [apply step_refl|apply quiet_nil]|].
  apply post_bind, call_post. intros ok t' S. apply post_ret. eapply H; [exact S|solve_quiet].
Qed.

(** Guard, channel, pools, directory circuit and caches are as before, and
    meanwhile no circuit was created, used or destroyed and no channel closed:
    only the guard file was read or written and relays were dialed. *)
Definition unchanged (t t' : Tor) : Prop := ∃ ext, step_to t ext t' ∧ quiet ext.

Lemma guard_attempts_post n first persisted avoid exclude le t :
  post (guard_attempts N n first persisted avoid exclude le) t
    (λ o t', match o with Ok _ => connected t persisted avoid t' | _ => unchanged t t' end).
Proof.
  revert first le t. induction n as [|n IH]; intros first le t; cbn [guard_attempts].
  { apply post_throw. exists []. split; [apply step_refl|apply quiet_nil]. }
  assert (∀ e t1 le', step_to t e t1 → quiet e → post (guard_attempts N n false persisted avoid exclude le') t1
    (λ o t', match o with Ok _ => connected t persisted avoid t' | _ => unchanged t t' end)) as Hrec.
  { intros e t1 le' S Hq. eapply post_weaken; [apply IH|]. intros [[]|er|] t'; [intros Hc; exact (connected_later t e t1 _ _ _ S Hq Hc)|..];
      intros (e' & S' & Hq'); exists (e ++ e'); (split; [by eapply step_trans|by apply quiet_app]). }
  apply post_bind, post_gets. apply post_bind.
  eapply (post_weaken _ _ (λ o t1, step_to t [] t1 ∧ ∀ r, o = Ok r → r ∈ Routers (consensus (cl t)) ∧ may_guard persisted r)).
  { destruct (if first && _ then _ else _) as [r|] eqn:Ek.
    - apply post_ret. split; [apply step_refl|]. intros r' [= <-].
      destruct (first && _) eqn:Ef; [|done]. unfold findRouterByIdentityHex in Ek.
      apply find_router_Some in Ek as [Hin Hb]. bools. split; [done|]. right. by split.
    - apply post_bind, post_gets, on_path_post; [apply selector_call_frame; apply _|]. intros o t1 S Hrun.
      split; [done|]. intros r Hr. destruct o as [r'|er|]; [|done..]. injection Hr as ->.
      apply selector_call_sound in Hrun as [g Hg]. unfold SelectGuard in Hg.
      apply selectWeighted_drawable in Hg as [Hin Hd]. split; [done|]. left. unfold drawable in Hd. by bools. }
  intros [r|er|] t1 [S1 Hr]; [|exists []; (split; [done|apply quiet_nil])..].
  destruct (Hr r eq_refl) as [Hin Hmay]. clear Hr.
  destruct (match avoid with Some a => bool_decide (Identity r = a) | None => false end) eqn:Ea.
  { by apply (Hrec []); [|apply quiet_nil]. }
  assert (avoid ≠ Some (Identity r)) as Hav.
  { intros ->. by rewrite bool_decide_true in Ea. }
  apply post_bind, post_attempt, on_path_post; [apply relayInfo_frame; apply _|]. intros o t2 S2 Hrun.
  pose proof (step_trans _ _ _ _ _ S1 S2) as S12. cbn [app] in S12.
  destruct o as [info|er|]; cbn [map_err]; [|by apply (Hrec []); [|apply quiet_nil]|].
  2: { apply post_panic. exists []. split; [done|apply quiet_nil]. }
  assert (∃ m, info = toRelayInfo r m) as [m ->].
  { unfold relayInfo in Hrun. rewrite prog_bind_eq in Hrun. destruct (microdesc r (cl t1)) as [[[m|er|] c]|]; try done.
    injection Hrun as <- _. by exists m. }
  apply post_bind, post_gets, post_bind, call_post. intros ok t3 S3.
  pose proof (step_trans _ _ _ _ _ S12 S3) as S. cbn [app] in S. destruct ok; cbn [negb].
  2: { apply (Hrec _ _ _ S). solve_quiet. }
  apply post_bind, post_modify, post_bind, post_gets, saveGuard_post. intros t4 e4 S4 Hq4.
  refine (mkConnected t persisted avoid t4 t3 _ e4 r m _ S _ Hin Hmay Hav _ _ S4).
  - split; [solve_quiet|done].
  - by left.
  - by rewrite (st_hist _ _ _ S12), app_nil_r.
Qed.

(** What [loadGuard] may return: nothing, or what the guard file holds. *)
Definition from_file (persisted : bytes) : Prop :=
  persisted = [] ∨ ∃ h, persisted = TrimSpace (n_guard_file N h).

Lemma connectGuard_post avoid t :
  post (connectGuard N avoid) t (λ o t', match o with
    | Ok _ => ∃ persisted, connected t persisted avoid t' ∧ from_file persisted ∧ (avoid ≠ None → persisted = [])
    | _ => unchanged t t'
    end).
Proof.
  unfold connectGuard. apply post_bind, post_gets, post_bind.
  eapply (post_weaken _ _ (λ o t1, ∃ ext, step_to t ext t1 ∧ quiet ext ∧
    ∃ persisted, o = Ok persisted ∧ from_file persisted ∧ (avoid ≠ None → persisted = []))).
  { assert (from_file []) as H0 by by left.
    destruct avoid as [a|]; [apply post_ret; exists []; split_and!; [apply step_refl|apply quiet_nil|by exists []]|].
    unfold loadGuard. case_decide; [apply post_ret; exists []; split_and!; [apply step_refl|apply quiet_nil|by exists []]|].
    apply post_bind, call_post. intros ok t1 S. destruct ok; cbn [negb]; [apply post_gets|apply post_ret];
      (eexists; split_and!; [exact S|solve_quiet|eexists; split_and!; [reflexivity| |done]]); [right; by eexists|done]. }
  intros o t1 (e1 & S1 & Hq1 & persisted & -> & Hff & Hnil). apply post_bind, post_gets.
  eapply post_weaken; [apply guard_attempts_post|]. intros [[]|er|] t'.
  - intros Hc. exists persisted. split; [exact (connected_later t e1 t1 _ _ _ S1 Hq1 Hc)|by split].
  - intros (e & S & Hq). exists (e1 ++ e). split; [by eapply step_trans|by apply quiet_app].
  - intros (e & S & Hq). exists (e1 ++ e). split; [by eapply step_trans|by apply quiet_app].
Qed.

(** ** Starting *)

(** A client that [NewClient] returns: the bootstrapped consensus, a guard of it
    on a channel dialed for that relay's identity, and nothing else yet. *)
Lemma NewClient_ready (cfg : Config) (w : W) (t : Tor) :
  NewClient N cfg w = Some (Ok t) →
  (dir_Bootstrap w).1 = Ok (consensus (cl t)) ∧
  (∃ w', Path.world (cl t) = dir_UseTunnel w') ∧
  (∃ r m ch persisted, r ∈ Routers (consensus (cl t)) ∧ from_file persisted ∧ may_guard persisted r ∧
    Path.guardInfo (cl t) = toRelayInfo r m ∧ guardOpen (cl t) = true ∧ guardChan (pool t) = Some ch ∧
    (EDial ch (ORAddr (toRelayInfo r m)) (Ed25519ID m), true) ∈ hist t) ∧
  quiet (hist t) ∧ clearnetPool (pool t) = [] ∧ onionPool (pool t) = ∅ ∧ dirCirc (pool t) = None ∧
  ringCache t = None ∧ (0 < maxDirty (pool t))%Z.
Proof.
  unfold NewClient. destruct (dir_Bootstrap w) as [[con|er|] w1] eqn:Eb; [|done..]. cbv zeta.
  set (t0 := mkTor _ _ None _ _). pose proof (connectGuard_post None t0) as Hpost.
  destruct (connectGuard N None t0) as [[[[]|er|] t1]|] eqn:Ec; [|done..]. specialize (Hpost _ _ Ec). cbv beta iota in Hpost.
  destruct Hpost as (persisted & [mid ext ext' r m ch S [Hq1 Hq2] Hin Hmay _ Hd _ Se] & Hff & _).
  intros [= <-]. destruct Se as [Sh Sp (Sc & Sg & So) (Sr & _ & _)], S as [Mh Mp (Mc & Mg & Mo) (Mr & _ & _)].
  cbn [cl set_cl pool set_guard consensus Path.set_world Path.guardInfo guardOpen ringCache Path.world] in *.
  rewrite Sp, Mp. cbn [Pool.set_world guardChan clearnetPool onionPool dirCirc maxDirty].
  assert (hist t1 = ext ++ ext') as Hh.
  { rewrite Sh. change (hist (set_guard _ _ _)) with (hist mid). by rewrite Mh. }
  rewrite Sc, Mc, Sg, So. change (hist (set_cl _ _)) with (hist t1).
  split_and!; try done.
  - by eexists.
  - exists r, m, ch, persisted. split_and!; try done. rewrite Hh. apply elem_of_app. by left.
  - rewrite Hh. by apply quiet_app.
  - by rewrite Sr, Mr.
  - cbn [pool t0 maxDirty]. destruct (Z.leb_spec (MaxCircuitDirtiness cfg) 0); [done|lia].
Qed.

(** ** Consensus refresh *)

(** Refreshing is best effort and consistent: a dial goes on whether the
    refresh worked or not; either nothing but the directory client's own state
    changed, or the client has the refreshed consensus and no microdescriptor
    or ring derived from the old one; the guard, the pool and the history are
    the same either way. *)
Theorem ensureFreshConsensus_consistent (wait : bool) (t t' : Tor) (o : outcome client_error unit) :
  ensureFreshConsensus N wait t = Some (o, t') → o ≠ Panic →
  o = Ok tt ∧ pool t' = pool t ∧ Path.guardInfo (cl t') = Path.guardInfo (cl t) ∧
  ((consensus (cl t') = consensus (cl t) ∧ ringCache t' = ringCache t ∧ Path.mdCache (cl t') = Path.mdCache (cl t)) ∨
   (fresh_consensus N t = false ∧ (dir_Refresh (Path.world (cl t))).1 = Ok (consensus (cl t')) ∧
    ringCache t' = None ∧ Path.mdCache (cl t') = ∅)).
Proof.
  unfold ensureFreshConsensus. rewrite prog_bind_eq. unfold gets at 1.
  destruct (fresh_consensus N t) eqn:Ef; [intros [= <- <-] _; tauto|].
  destruct wait; cbn [negb]; [|intros [= <- <-] _; tauto]. rewrite prog_bind_eq. unfold gets at 1. rewrite Ef.
  rewrite prog_bind_eq. unfold attempt, refreshConsensus. rewrite prog_bind_eq. unfold on_dir.
  destruct (dir_Refresh (Path.world (cl t))) as [[con|er|] w1] eqn:Er; cbn [map_err fst].
  - intros [= <- <-] _. split_and!; try done. right. by split_and!.
  - intros [= <- <-] _. split_and!; try done. left. by split_and!.
  - by intros [= <- <-].
Qed.

(** ** The directory circuit *)

Lemma buildDirCircuit_post t : post (buildDirCircuit N) t (λ o t', ∃ ext, step_to t ext t' ∧
  match o with
  | Ok k => balanced ext [k] ∧ (ENew k, true) ∈ ext
  | _ => balanced ext []
  end).
Proof.
  unfold buildDirCircuit. apply post_bind, post_gets, post_bind, post_gets, post_bind, post_gets.
  destruct (negb _); [apply post_throw; exists []; split; [apply step_refl|auto with gotor]|].
  apply post_bind, on_path_post; [apply selectedRelayDirect_frame; apply _|]. intros o1 t1 S1 _.
  destruct o1 as [gs|er|]; cbn [map_err]; [|by exists []; auto with gotor..].
  apply post_bind, post_gets, post_bind, on_path_post.
  { apply pickRelayVia_frame; intros; [apply selector_call_frame; apply _|apply microdescDirect_frame; apply _|apply _..]. }
  intros o2 t2 S2 _. pose proof (step_trans _ _ _ _ _ S1 S2) as S12. cbn [app] in S12.
  destruct o2 as [ms|er|]; cbn [map_err]; [|by exists []; auto with gotor..].
  apply post_bind, on_path_post.
  { apply pickRelayVia_frame; intros; [apply selector_call_frame; apply _|apply microdescDirect_frame; apply _|apply _..]. }
  intros o3 t3 S3 _. pose proof (step_trans _ _ _ _ _ S12 S3) as S. cbn [app] in S.
  destruct o3 as [ds|er|]; cbn [map_err]; [|by exists []; auto with gotor..].
  apply build_circuit_post. intros o4 t4 e4 S4 _ H4. exists e4. split; [exact (step_trans _ _ _ _ _ S S4)|].
  destruct o4 as [k|er|]; [|done..]. destruct H4 as [-> <-]. split; [|by left].
  intros j [[= ->]|[[=]|Hj%not_elem_of_nil]%elem_of_cons]%elem_of_cons; [|done]. right. by left.
Qed.

(** The shared directory circuit, whatever other goroutines do while this one
    builds: the circuit returned is the stored one; a circuit built here is the
    stored one or was destroyed (when the client was closed meanwhile, when the
    build failed, or when another goroutine stored one first). *)
Theorem dirCircuit_single (others : Tor → Tor) (t t' : Tor) (o : outcome client_error nat) :
  dirCircuit N others t = Some (o, t') → o ≠ Panic →
  (∀ k, o = Ok k → dirCirc (pool t') = Some k) ∧
  ((o = Ok (default 0 (live_dir N t)) ∧ t' = t ∧ live_dir N t ≠ None) ∨
   ∃ t1 built after, step_to t built t1 ∧
     (hist t' = hist t1 ∧ after = [] ∨ hist t' = hist (others t1) ++ after) ∧
     ∀ k, (ENew k, true) ∈ built → (EDestroy k, true) ∈ built ++ after ∨ o = Ok k).
Proof.
  revert o t'. change (post (dirCircuit N others) t (λ o t', o ≠ Panic →
    (∀ k, o = Ok k → dirCirc (pool t') = Some k) ∧
    ((o = Ok (default 0 (live_dir N t)) ∧ t' = t ∧ live_dir N t ≠ None) ∨
     ∃ t1 built after, step_to t built t1 ∧
       (hist t' = hist t1 ∧ after = [] ∨ hist t' = hist (others t1) ++ after) ∧
       ∀ k, (ENew k, true) ∈ built → (EDestroy k, true) ∈ built ++ after ∨ o = Ok k))).
  assert (∀ (t : Tor) k, live_dir N t = Some k → dirCirc (pool t) = Some k) as Hlive.
  { intros t0 k. unfold live_dir. destruct (dirCirc (pool t0)) as [j|]; [|done]. by destruct (circuit_closed N j _); [|intros [= ->]]. }
  unfold dirCircuit. apply post_bind, post_gets. destruct (live_dir N t) as [k|] eqn:El.
  { apply post_ret. intros _. split; [intros k' [= <-]; by apply Hlive|]. by left. }
  apply post_bind. eapply post_weaken; [apply buildDirCircuit_post|]. intros o1 t1 (built & S & Hb).
  destruct o1 as [k|er|]; [| |done].
  2: { intros _. split; [done|]. right. exists t1, built, []. split_and!; [done|by left|].
       intros k Hk. rewrite app_nil_r. destruct (Hb k Hk) as [?|Hn]; [by left|by apply not_elem_of_nil in Hn]. }
  destruct Hb as [Hb Hnew]. apply post_bind, post_modify, post_bind, post_gets.
  assert (∀ j, (ENew j, true) ∈ built → (EDestroy j, true) ∈ built ∨ j = k) as Hb'.
  { intros j Hj. destruct (Hb j Hj) as [?|?%list_elem_of_singleton]; auto. }
  destruct (Pool.closed _).
  { apply post_bind, note_post. intros t2 S2. apply post_throw. intros _. split; [done|]. right.
    exists t1, built, [(EDestroy k, true)]. split_and!; [done|right; apply S2|]. intros j Hj. left. rewrite elem_of_app.
    destruct (Hb' j Hj) as [?| ->]; [by left|right; by left]. }
  apply post_bind, post_gets. destruct (live_dir N (others t1)) as [j|] eqn:Ej.
  - apply post_bind, note_post. intros t2 S2. apply post_ret. intros _. split.
    + intros j' [= <-]. rewrite (st_pool _ _ _ S2). by apply Hlive.
    + right. exists t1, built, [(EDestroy k, true)]. split_and!; [done|right; apply S2|]. intros i Hi. left. rewrite elem_of_app.
      destruct (Hb' i Hi) as [?| ->]; [by left|right; by left].
  - apply post_bind. intros o2 t2 [= <- <-]. apply post_ret. intros _. split; [by intros k' [= <-]|]. right.
    exists t1, built, []. split_and!; [done|right; by rewrite app_nil_r|]. intros i Hi. rewrite app_nil_r.
    destruct (Hb' i Hi) as [?| ->]; [by left|by right].
Qed.

Context `{NL : !NetLaws N}.

#[local] Instance net_laws : CircuitsLaws history.
Proof.
  split; cbn [Pool.Closed Pool.Destroy circs net_Circuits]; unfold circuit_closed.
  - intros k h. rewrite existsb_app. cbn [existsb is_destroy fst]. rewrite Nat.eqb_refl. by rewrite orb_true_r.
  - intros k j h Hne. rewrite existsb_app. cbn [existsb is_destroy fst].
    assert ((k =? j) = false) as -> by (by apply Nat.eqb_neq). rewrite !orb_false_r. by rewrite died_other.
Qed.

(** The circuits destroyed one after the other. *)
Lemma destroys_recorded (ks : nat → nat) l (h : history) :
  ∃ ext, foldl (λ w p, Pool.Destroy (ks p) w) h l = h ++ ext ∧
    ∀ p, p ∈ l → (EDestroy (ks p), true) ∈ ext.
Proof.
  revert h. induction l as [|p l IH]; intros h; cbn [foldl].
  { exists []. rewrite app_nil_r. split; [done|set_solver]. }
  destruct (IH (Pool.Destroy (ks p) h)) as (ext & -> & Hin). exists ((EDestroy (ks p), true) :: ext).
  cbn [Pool.Destroy circs net_Circuits]. rewrite <-app_assoc. split; [done|].
  intros q [->|Hq']%elem_of_cons; [by left|right; by apply Hin].
Qed.

(** A well-formed pool stays so while the history grows. *)
Lemma wf_later (p p' : Pool.Client (W := history)) ext : wf p → Pool.world p' = Pool.world p ++ ext →
  (clearnetPool p', onionPool p', heap p', next p') = (clearnetPool p, onionPool p, heap p, next p) → wf p'.
Proof.
  intros [W1 W2 W3 W4 W5 W6 W7] Hw [= Ec Eo Eh En].
  split; unfold pooled, slot, reusableClearnetLocked, reusableOnionLocked, is_reusable in *; rewrite ?Ec, ?Eo, ?Eh, ?En; try done.
  intros q Hq. destruct (W5 q Hq) as [?|Hc]; [by left|right]. rewrite Hw. revert Hc.
  cbn [Pool.Closed circs net_Circuits]. unfold circuit_closed. rewrite existsb_app, !orb_true_iff.
  intros [?|?]; [by left; left|right; by apply died_final].
Qed.

(** The outcome of a guard rotation: [r] with microdescriptor [m] is the new
    guard on channel [ch]. *)
Definition rotated (hosts : list bytes) (t t' : Tor) (r : RouterStatus) (m : Microdescriptor) (ch : nat) : Prop :=
  r ∈ Routers (consensus (cl t)) ∧ guardOK r = true ∧ Identity r ≠ RSAIDDigest (Path.guardInfo (cl t)) ∧
  Path.guardInfo (cl t') = toRelayInfo r m ∧ guardChan (pool t') = Some ch ∧
  (EDial ch (ORAddr (toRelayInfo r m)) (Ed25519ID m), true) ∈ hist t' ∧
  clearnetPool (pool t') = [] ∧ onionPool (pool t') = ∅ ∧ dirCirc (pool t') = None ∧
  (∀ p, p ∈ allPooledLocked hosts (pool t) → (EDestroy (Pool.circ (heap (pool t) p)), true) ∈ hist t') ∧
  (∀ g, guardChan (pool t) = Some g → g ≠ ch ∧ ∃ ok, (EClose g, ok) ∈ hist t').

(** The state right after [connectGuard] put the guard [r] on channel [ch]: only
    the guard and the history differ. *)
Record installed (t t1 : Tor) (r : RouterStatus) (m : Microdescriptor) (ch : nat) (e : history) : Prop := {
  in_info : Path.guardInfo (cl t1) = toRelayInfo r m;
  in_hist : hist t1 = hist t ++ e;
  in_dial : (EDial ch (ORAddr (toRelayInfo r m)) (Ed25519ID m), true) ∈ e;
  in_pool : pool t1 = Pool.mkClient (clearnetPool (pool t)) (onionPool (pool t)) (built (pool t)) (reused (pool t))
    (maxDirty (pool t)) (dirCirc (pool t)) (Some ch) (Pool.closed (pool t)) (heap (pool t)) (next (pool t)) (hist t1)
}.

Lemma connected_installed t persisted avoid t1 : connected t persisted avoid t1 →
  ∃ r m ch e, installed t t1 r m ch e ∧ r ∈ Routers (consensus (cl t)) ∧ may_guard persisted r ∧
    avoid ≠ Some (Identity r) ∧ fresh_chan (hist t) ≤ ch.
Proof.
  intros [mid ext ext' r m ch S _ Hin Hmay Hav Hd Hf Se]. exists r, m, ch, (ext ++ ext').
  assert (hist t1 = hist t ++ ext ++ ext') as Hh.
  { rewrite (st_hist _ _ _ Se), app_assoc. f_equal. by rewrite <-(st_hist _ _ _ S). }
  split_and!; [constructor|done..].
  - by rewrite (proj1 (proj2 (st_path _ _ _ Se))).
  - exact Hh.
  - apply elem_of_app. by left.
  - rewrite (st_pool _ _ _ Se). unfold set_guard. cbn [pool]. by rewrite (st_pool _ _ _ S).
Qed.

(** Clearing the directory circuit and destroying the pools. *)
Lemma teardown_rotated hosts t t1 t' r m ch e e4 : wf (pool t) → map_order hosts (pool t) → installed t t1 r m ch e →
  r ∈ Routers (consensus (cl t)) → guardOK r = true → Identity r ≠ RSAIDDigest (Path.guardInfo (cl t)) →
  let p3 := destroyAll hosts (set_dirCirc None (pool t1)) in
  pool t' = Pool.set_world (Pool.world p3 ++ e4) p3 → cl t' = cl t1 →
  (∀ g, guardChan (pool t) = Some g → g ≠ ch ∧ ∃ ok, (EClose g, ok) ∈ e4) → rotated hosts t t' r m ch.
Proof.
  intros Hwf Hord [Hi Hh Hd Hp] Hin Hok Hne p3 Hpf Hcl Hclose. set (p2 := set_dirCirc None (pool t1)) in *.
  assert (heap p2 = heap (pool t) ∧ onionPool p2 = onionPool (pool t) ∧ clearnetPool p2 = clearnetPool (pool t) ∧
    Pool.world p2 = hist t1 ∧ guardChan p2 = Some ch) as (Ph & Po & Pc & Pw & Pg) by (unfold p2; by rewrite Hp).
  assert (wf p2) as Hwf2 by (eapply wf_later; [exact Hwf|exact Hh|unfold p2; by rewrite Hp]).
  assert (map_order hosts p2) as Hord2 by (intros h; by rewrite Po).
  destruct (destroyAll_empties hosts p2 Hwf2 Hord2) as (E1 & E2 & E3 & E4 & E5).
  destruct (destroys_recorded (λ p, Pool.circ (heap p2 p)) (allPooledLocked hosts p2) (Pool.world p2)) as (e3 & Hw3 & Hds).
  rewrite Hw3, Pw in E5. unfold rotated, hist. rewrite Hpf, Hcl.
  cbn [Pool.world guardChan clearnetPool onionPool dirCirc Pool.set_world].
  unfold p3. rewrite E1, E2, E3, E4, E5, Hh. split_and!; try done.
  - rewrite !elem_of_app. tauto.
  - intros p Hpp. assert (allPooledLocked hosts p2 = allPooledLocked hosts (pool t)) as Eall.
    { unfold allPooledLocked. by rewrite Po, Pc. }
    rewrite Eall, Ph in Hds. rewrite !elem_of_app. left. right. by apply Hds.
  - intros g Hg. destruct (Hclose g Hg) as [? [ok Hc]]. split; [done|]. exists ok. rewrite !elem_of_app. by right.
Qed.


End Facts.
