(* ===== verification/OnionDialFacts.v ===== *)
(** * Onion services are dialed through authenticated rendezvous, and circuits
    are accounted for.

    Rules for the operations of [OnionDial], from circuits to the dial itself;
    every rule says what was appended to the history. *)

From S2P Require Import Prelude ByteUtil GoNet GoText GoTextFacts Cell TorCrypto RelayInfo Directory DirClient PathSel Path Pool PoolFacts HashRing OnionAddr OnionDesc OnionDescFacts Client ClientFacts OnionDial.

(** ** Traffic *)

(** What an operation may append: circuits built on the guard [g], every one
    destroyed again but for those in [keep]; no other relay dialed; only
    circuits created since handle [base] destroyed. *)
Record traffic (g : RelayInfo) (base : nat) (ext : history) (keep : list nat) : Prop := {
  tr_balanced : balanced ext keep;
  tr_guard k path b : (EBuild k path, b) ∈ ext → ∃ m third, path = [g; m; third];
  tr_nodial ch a i b : (EDial ch a i, b) ∉ ext;
  tr_own k b : (EDestroy k, b) ∈ ext → base ≤ k < base + fresh_circ ext
}.

Lemma traffic_harmless g base ext keep : harmless ext → traffic g base ext keep.
Proof.
  unfold harmless. rewrite List.Forall_forall. intros H.
  assert (∀ e b, (e, b) ∈ ext → plain e = true) as He by (intros e b Hin; by apply (H (e, b)), list_elem_of_In).
  split; [intros k Hk; by apply He in Hk|intros k p b Hk; by apply He in Hk|intros c a i b Hk; by apply He in Hk|].
  intros k b Hk; by apply He in Hk.
Qed.
Lemma traffic_nil g base keep : traffic g base [] keep.
Proof. apply traffic_harmless, List.Forall_nil. Qed.

Lemma fresh_circ_app h ext : fresh_circ (h ++ ext) = fresh_circ h + fresh_circ ext.
Proof. unfold fresh_circ. by rewrite filter_app, length_app. Qed.

Lemma traffic_app g base e1 e2 keep : traffic g base e1 keep → traffic g (base + fresh_circ e1) e2 keep →
  traffic g base (e1 ++ e2) keep.
Proof.
  intros [A1 A2 A3 A4] [B1 B2 B3 B4]. split.
  - by apply balanced_app.
  - intros k p b [H|H]%elem_of_app; eauto.
  - intros c a i b [H|H]%elem_of_app; [by apply A3 in H|by apply B3 in H].
  - intros k b. rewrite fresh_circ_app. intros [H|H]%elem_of_app; [apply A4 in H|apply B4 in H]; lia.
Qed.
Lemma traffic_weaken g base ext keep : traffic g base ext [] → traffic g base ext keep.
Proof. intros [A1 A2 A3 A4]. split; try done. eapply balanced_weaken; [exact A1|set_solver]. Qed.

(** The circuit kept so far is destroyed. *)
Lemma traffic_destroy g base e1 e2 k : base ≤ k < base + fresh_circ e1 → traffic g base e1 [k] →
  traffic g (base + fresh_circ e1) e2 [] → traffic g base (e1 ++ e2 ++ [(EDestroy k, true)]) [].
Proof.
  intros Hk T1 T2. pose proof (traffic_app _ _ _ _ _ T1 (traffic_weaken _ _ _ [k] T2)) as [A1 A2 A3 A4].
  assert (∀ ev b, (ev, b) ∈ e1 ++ e2 ++ [(EDestroy k, true)] → (ev, b) ∈ e1 ++ e2 ∨ ev = EDestroy k ∧ b = true) as Hin.
  { intros ev b. rewrite app_assoc, elem_of_app. intros [?|[= -> ->]%list_elem_of_singleton]; auto. }
  split.
  - intros j [H|[[=] _]]%Hin. rewrite app_assoc, elem_of_app, list_elem_of_singleton. left.
    destruct (A1 j H) as [?| ->%list_elem_of_singleton]; auto.
  - intros j p b [H|[[=] _]]%Hin. eauto.
  - intros c a i b [H|[[=] _]]%Hin. by apply A3 in H.
  - intros j b [H|[[= ->] _]]%Hin; rewrite app_assoc, fresh_circ_app; [apply A4 in H; lia|].
    rewrite fresh_circ_app. lia.
Qed.

Lemma traffic_builds g m third k ext keep : builds [g; m; third] k ext → balanced ext keep → traffic g k ext keep.
Proof.
  intros H Hbal. assert (∀ ev b, (ev, b) ∈ ext → ev = ENew k ∨ ev = EBuild k [g; m; third] ∨
    (ev = EDestroy k ∧ fresh_circ ext = 1)) as He.
  { intros ev b. destruct H as [[b1 ->]|[[b2 ->]| ->]]; rewrite !elem_of_cons, ?elem_of_nil; [intuition congruence..|].
    intros [[= -> _]|[[= -> _]|[[= -> _]|[]]]]; auto. }
  split; [done| | |].
  - intros j p b [[=]|[[= -> ->]|[[=] _]]]%He. by eexists _, _.
  - intros c a i b [[=]|[[=]|[[=] _]]]%He.
  - intros j b [[=]|[[=]|[[= ->] ->]]]%He. lia.
Qed.

Section Facts.
Context `{C : Crypto} {W FE : Type} `{!World W FE, !DirService W FE}.
Context (N : net) (e : env) (sort_Slice : list (ringEntry hsDirRingNode) → list (ringEntry hsDirRingNode)).
#[local] Instance circs : Circuits history := net_Circuits N.
Notation Tor := (Tor (W := W)).
Notation client_error := (client_error (FE := FE)).
Notation dial_error := (dial_error (FE := FE)).
Notation step_to := (step_to (W := W)).
Notation ginfo t := (Path.guardInfo (cl t)).
Notation fresh t := (fresh_circ (hist t)).

Lemma step_fresh t ext t' : step_to t ext t' → fresh t' = fresh t + fresh_circ ext.
Proof. intros S. by rewrite (st_hist _ _ _ S), fresh_circ_app. Qed.
Lemma step_guard t ext t' : step_to t ext t' → ginfo t' = ginfo t.
Proof. intros S. apply (st_path _ _ _ S). Qed.

(** The operation went from [t] to a state, appending [traffic]. *)
Definition moved (t t' : Tor) (keep : list nat) (P : history → Prop) : Prop :=
  ∃ ext, step_to t ext t' ∧ traffic (ginfo t) (fresh t) ext keep ∧ P ext.

Lemma moved_refl t keep (P : history → Prop) : P [] → moved t t keep P.
Proof. intros HP. exists []. split_and!; [apply step_refl|apply traffic_nil|done]. Qed.
Lemma moved_step t ext t' keep (P : history → Prop) : step_to t ext t' → harmless ext → P ext → moved t t' keep P.
Proof. intros S H HP. exists ext. split_and!; [done|by apply traffic_harmless|done]. Qed.
Lemma moved_exactly t ext t' keep : step_to t ext t' → harmless ext → moved t t' keep (λ x, x = ext).
Proof. intros S H. by eapply moved_step. Qed.
Lemma moved_after t t1 t' keep (P1 P P' : history → Prop) : moved t t1 keep P1 → moved t1 t' keep P →
  (∀ e1 e2, P1 e1 → P e2 → P' (e1 ++ e2)) → moved t t' keep P'.
Proof.
  intros (e1 & S1 & T1 & H1) (e2 & S2 & T2 & H2) HP. exists (e1 ++ e2).
  split_and!; [by eapply step_trans| |by apply HP]. rewrite (step_guard _ _ _ S1), (step_fresh _ _ _ S1) in T2.
  by apply traffic_app.
Qed.
(** A circuit kept so far is destroyed. *)
Lemma moved_destroy t t1 t2 t' k (P1 P2 P' : history → Prop) : moved t t1 [k] P1 → fresh t ≤ k < fresh t1 → moved t1 t2 [] P2 →
  step_to t2 [(EDestroy k, true)] t' →
  (∀ e1 e2, P1 e1 → P2 e2 → P' (e1 ++ e2 ++ [(EDestroy k, true)])) → moved t t' [] P'.
Proof.
  intros (e1 & S1 & T1 & H1) Hk (e2 & S2 & T2 & H2) S3 HP. exists (e1 ++ e2 ++ [(EDestroy k, true)]).
  split_and!; [eapply step_trans; [done|by eapply step_trans]| |by apply HP].
  rewrite (step_guard _ _ _ S1), (step_fresh _ _ _ S1) in T2. rewrite (step_fresh _ _ _ S1) in Hk. by apply traffic_destroy.
Qed.

Definition anything (ext : history) : Prop := True.

(** ** Circuits to a given relay *)

(** The circuit [k] to [third] was built. *)
Definition circuit_to (k : nat) (g third : RelayInfo) (ext : history) : Prop :=
  ∃ m, ext = [(ENew k, true); (EBuild k [g; m; third], true)].

Lemma traffic_circuit g k third ext : circuit_to k g third ext → traffic g k ext [k].
Proof.
  intros [m ->]. eapply (traffic_builds g m third k).
  - right; left. by eexists.
  - intros j [[= ->]|[[=]|[]%not_elem_of_nil]%elem_of_cons]%elem_of_cons. right. by left.
Qed.

Lemma buildCircuitVia_post third t : post (buildCircuitVia N third) t (λ o t',
  match o with
  | Ok k => moved t t' [k] (circuit_to k (ginfo t) third) ∧ k = fresh t ∧ fresh t' = S k
  | _ => moved t t' [] anything
  end).
Proof.
  assert (∀ t', step_to t [] t' → moved t t' [] anything) as Hno.
  { intros t' S. by apply (moved_step _ _ _ _ _ S); [apply List.Forall_nil|]. }
  unfold buildCircuitVia. apply post_bind, post_gets, post_bind, post_gets, post_bind, post_gets.
  destruct (negb _); [by apply post_throw, Hno, step_refl|].
  apply post_bind, post_attempt, on_path_post; [apply selectedGuard_frame; apply _|]. intros og t1 S1 _.
  apply post_bind, post_gets, post_bind.
  eapply (post_weaken _ _ (λ o t2, step_to t [] t2)).
  { destruct (findRouterByIdentity _ _) as [r|]; [|by apply post_ret].
    apply post_bind, post_attempt, on_path_post; [apply microdesc_frame; apply _|]. intros o2 t2 S2 _.
    destruct o2 as [m|er|]; cbn [map_err]; [apply post_ret|apply post_ret|apply post_panic]; exact (step_trans _ _ _ _ _ S1 S2). }
  intros o3 t2 S2. destruct o3 as [o3|er|]; [|by apply Hno..]. apply post_bind.
  eapply (post_weaken _ _ (λ o t2, step_to t [] t2)).
  { destruct og; cbn [map_err]; [by apply post_ret|by apply post_ret|by apply post_panic]. }
  intros o4 t3 S3. destruct o4 as [chosen|er|]; [|by apply Hno..].
  apply post_bind, post_gets, post_bind, on_path_post.
  { apply pickRelayVia_frame; intros; [apply selector_call_frame; apply _|apply microdesc_frame; apply _|apply _..]. }
  intros o5 t4 S4 _. pose proof (step_trans _ _ _ _ _ S3 S4) as S. cbn [app] in S.
  destruct o5 as [mid|er|]; cbn [map_err]; [|by apply Hno..].
  assert (fresh t4 = fresh t) as Hf by (by rewrite (st_hist _ _ _ S), app_nil_r).
  apply build_circuit_post. intros o t5 ext S5 Hb Ho. rewrite Hf in *.
  pose proof (step_trans _ _ _ _ _ S S5) as S05. cbn [app] in S05.
  destruct o as [k|er|]; [|by exists ext; split_and!; [|eapply traffic_builds|]|done].
  destruct Ho as [-> ->]. split; [|split; [done|rewrite (step_fresh _ _ _ S05); cbn; lia]]. eexists.
  assert (circuit_to (fresh t) (ginfo t) third [(ENew (fresh t), true); (EBuild (fresh t) [ginfo t; toRelayInfo (rs mid) (md mid); third], true)])
    as Hc by by eexists.
  split_and!; [exact S05|by eapply traffic_circuit|done].
Qed.

Lemma up_destroy_post k t (Q : outcome dial_error unit → Tor → Prop) :
  (∀ t', step_to t [(EDestroy k, true)] t' → Q (Ok tt) t') → post (up (destroy k)) t Q.
Proof. intros H. apply post_map_error, note_post. intros t' S. by apply H. Qed.
Lemma up_call_post ev t (Q : outcome dial_error bool → Tor → Prop) :
  (∀ ok t', step_to t [(ev, ok)] t' → Q (Ok ok) t') → post (up (call N ev)) t Q.
Proof. intros H. apply post_map_error, call_post. intros ok t' S. by apply H. Qed.

(** ** Descriptors *)

Lemma fetchDescriptor_post dirs blinded subcred key le t :
  post (fetchDescriptor N e dirs blinded subcred key le) t (λ o t', moved t t' [] anything ∧
    ∀ desc, o = Ok desc → ∃ raw now, DecodeDescriptor raw blinded subcred key now = Ok desc).
Proof.
  revert le t. induction dirs as [|node dirs IH]; intros le t; cbn [fetchDescriptor].
  { apply post_throw. split; [by apply moved_refl|done]. }
  assert (∀ t1 le', moved t t1 [] anything → post (fetchDescriptor N e dirs blinded subcred key le') t1
    (λ o t', moved t t' [] anything ∧ ∀ desc, o = Ok desc → ∃ raw now, DecodeDescriptor raw blinded subcred key now = Ok desc))
    as Hrec.
  { intros t1 le' M. eapply post_weaken; [apply IH|]. intros o t' [M' ?]. by split; [eapply moved_after|]. }
  cbv zeta. apply post_bind, post_attempt, post_map_error.
  eapply post_weaken; [apply buildCircuitVia_post|]. intros [k|er|] t1; cbn [map_err].
  2: { apply Hrec. }
  2: { intros M. by apply post_panic. }
  intros [M [-> Hf]]. apply post_bind, post_attempt, post_map_error, dirGet_post. intros o t2 eh S2 Hh.
  apply post_bind, up_destroy_post. intros t3 S3.
  assert (moved t t3 [] anything) as M3.
  { eapply moved_destroy; [exact M|lia|apply (moved_step _ _ _ _ anything S2 Hh); done|exact S3|done]. }
  destruct o as [raw|er|]; cbn [map_err]; [|by apply Hrec|by apply post_panic].
  apply post_bind, post_gets. destruct (DecodeDescriptor _ _ _ _ _) as [desc|er|] eqn:Ed.
  - apply post_ret. split; [done|]. intros ? [= <-]. by eexists _, _.
  - by apply Hrec.
  - by apply post_panic.
Qed.

(** ** Introduction *)

(** The relay an introduction point names. *)
Definition intro_relay (ip : IntroPoint) (ls : LinkSpec.LinkSpecAddr) : RelayInfo :=
  mkRelayInfo go"intro" (LinkSpec.ORAddr ls) (LinkSpec.RSAID ls) (LinkSpec.EdID ls) (OnionKey ip).

(** INTRODUCE1 with the rendezvous cookie went out over a circuit to one of
    the introduction points, sealed for its service. *)
Definition introduced (g : RelayInfo) (ips : list IntroPoint) (subcred cookie rpKey rpSpecs : bytes)
    (st : HSNtor.HSNtorClient) (ext : history) : Prop :=
  ∃ ip ls m j random encKey macKey X intro1,
    ip ∈ ips ∧ LinkSpec.ParseLinkSpecifiers (OnionDesc.LinkSpecifiers ip) = Ok ls ∧
    HSNtor.HSNtorClientIntro random (EncKey ip) (AuthKey ip) subcred = Ok (encKey, macKey, X, st) ∧
    BuildIntroduce1 (AuthKey ip) encKey macKey X (BuildIntroduce1Plaintext cookie rpKey rpSpecs) = Ok intro1 ∧
    (EBuild j [g; m; intro_relay ip ls], true) ∈ ext ∧
    (ESend j introHop Relay.RelayIntroduce1 intro1, true) ∈ ext.

Lemma introduced_mono g ips ips' subcred cookie k s st ext ext' : ips ⊆ ips' → ext ⊆ ext' →
  introduced g ips subcred cookie k s st ext → introduced g ips' subcred cookie k s st ext'.
Proof.
  intros Hs He (ip & ls & m & j & rnd & ek & mk & X & i1 & ? & ? & ? & ? & ? & ?).
  exists ip, ls, m, j, rnd, ek, mk, X, i1. split_and!; auto.
Qed.

Lemma introduce_post ips subcred cookie rpKey rpSpecs le t :
  post (introduce N ips subcred cookie rpKey rpSpecs le) t (λ o t',
    match o with
    | Ok st => moved t t' [] (introduced (ginfo t) ips subcred cookie rpKey rpSpecs st)
    | Err _ => moved t t' [] anything
    | Panic => True
    end).
Proof.
  revert le t. induction ips as [|ip ips IH]; intros le t; cbn [introduce].
  { apply post_throw. by apply moved_refl. }
  assert (∀ t1 er, moved t t1 [] anything → post (introduce N ips subcred cookie rpKey rpSpecs (Some er)) t1
    (λ o t', match o with
             | Ok st => moved t t' [] (introduced (ginfo t) (ip :: ips) subcred cookie rpKey rpSpecs st)
             | Err _ => moved t t' [] anything
             | Panic => True
             end)) as Hrec.
  { intros t1 er M. assert (ginfo t1 = ginfo t) as Hg by (destruct M as (? & S & _); by eapply step_guard).
    eapply post_weaken; [apply IH|]. rewrite Hg. intros [st|er'|] t' M'; [|by eapply moved_after|done].
    eapply moved_after; [exact M|exact M'|]. intros e1 e2 _. apply introduced_mono; set_solver. }
  cbv zeta. destruct (LinkSpec.ParseLinkSpecifiers _) as [ls|er|] eqn:El; [|by apply Hrec, moved_refl|by apply post_panic].
  destruct (negb _); [by apply Hrec, moved_refl|]. apply post_bind, post_attempt, post_map_error.
  eapply post_weaken; [apply buildCircuitVia_post|]. intros [k|er|] t1; cbn [map_err].
  2: { apply Hrec. }
  2: { intros M. by apply post_panic. }
  intros [M [Hk Hf]]. apply post_bind, post_gets.
  assert (∀ t2 t3 P1, step_to t2 [(EDestroy k, true)] t3 → moved t1 t2 [] P1 → moved t t3 [] (λ ext, ∃ e1 e2,
    circuit_to k (ginfo t) (intro_relay ip ls) e1 ∧ P1 e2 ∧ ext = e1 ++ e2 ++ [(EDestroy k, true)])) as Hdone.
  { intros t2 t3 P1 S M1. eapply moved_destroy; [exact M|lia|exact M1|exact S|]. intros e1 e2 ? ?. by exists e1, e2. }
  assert (∀ t3 P, moved t t3 [] P → moved t t3 [] anything) as Hany.
  { intros t3 P (ext & ? & ? & _). by exists ext. }
  destruct (HSNtor.HSNtorClientIntro _ _ _ _) as [[[[ek mk] X] st]|er|] eqn:Eh; [| |by apply post_panic].
  2: { apply post_bind, up_destroy_post. intros t3 S3. by eapply Hrec, Hany, Hdone; [exact S3|apply (moved_refl _ _ anything)]. }
  destruct (BuildIntroduce1 _ _ _ _ _) as [intro1|er|] eqn:Ei; [| |by apply post_panic].
  2: { apply post_bind, up_destroy_post. intros t3 S3. by eapply Hrec, Hany, Hdone; [exact S3|apply (moved_refl _ _ anything)]. }
  apply post_bind. unfold send_or_destroy. apply post_bind, up_call_post. intros ok t2 S2.
  assert (moved t1 t2 [] (λ ext, ext = [(ESend k introHop Relay.RelayIntroduce1 intro1, ok)])) as M2.
  { eapply moved_step; [exact S2|solve_harmless|done]. }
  destruct ok; cbn [negb].
  2: { apply post_bind, up_destroy_post. intros t3 S3. apply post_ret. cbn [negb]. by eapply Hrec, Hany, Hdone. }
  apply post_ret. cbn [negb]. apply post_bind. unfold await. apply post_bind, post_gets, post_bind, post_gets.
  apply post_bind, post_map_error, note_post. intros t3 S3. apply post_ret. apply post_bind, up_destroy_post. intros t4 S4.
  assert (moved t1 t3 [] (λ ext, ext = [(ESend k introHop Relay.RelayIntroduce1 intro1, true); (EWait k, true)])) as M3.
  { eapply moved_step; [exact (step_trans _ _ _ _ _ S2 S3)|solve_harmless|done]. }
  pose proof (Hdone _ _ _ S4 M3) as M4.
  destruct (oc_introAck _) as [status|]; [|by eapply post_throw, Hany].
  destruct (n_done _ _); [by eapply post_throw, Hany|]. destruct (negb _); [by eapply Hrec, Hany|].
  apply post_ret. destruct M4 as (ext & S & T & (e1 & e2 & [m Hc] & -> & ->)). exists (e1 ++ [(ESend k introHop Relay.RelayIntroduce1 intro1, true); (EWait k, true)] ++ [(EDestroy k, true)]).
  split_and!; [done|done|]. exists ip, ls, m, k, (map (n_rand N (hist t1)) (seq 0 32)), ek, mk, X, intro1.
  rewrite Hc. split_and!; try done; [by left|right; by left|right; right; by left].
Qed.

(** ** Rendezvous *)

Lemma moved_fresh t t' keep (P : history → Prop) : moved t t' keep P → fresh t ≤ fresh t'.
Proof. intros (ext & S & _). rewrite (step_fresh _ _ _ S). lia. Qed.
Lemma moved_weaken t t' keep (P P' : history → Prop) : moved t t' [] P → (∀ ext, P ext → P' ext) → moved t t' keep P'.
Proof. intros (ext & S & T & HP) H. exists ext. split_and!; [done|by apply traffic_weaken|auto]. Qed.

Lemma oc_handle_rendezvous2 cells oc d : oc_rendezvous2 (foldl oc_handle oc cells) = Some d →
  oc_rendezvous2 oc = Some d ∨ ∃ rc, rc ∈ cells ∧ Relay.Cmd rc = Relay.RelayRendezvous2 ∧ Relay.Data rc = d.
Proof.
  revert oc. induction cells as [|rc cells IH]; intros oc; cbn [foldl]; [by left|].
  intros [H|(rc' & ? & ?)]%IH; [|right; exists rc'; split; [by right|done]].
  unfold oc_handle in H. case_decide; [by left|]. case_decide as Hc.
  - cbn [oc_rendezvous2] in H. destruct (oc_rendezvous2 oc); cbn [default] in H; [by left|].
    right. exists rc. injection H as <-. split; [by left|done].
  - case_decide; by left.
Qed.

Lemma await_post k oc t (Q : outcome dial_error (onionControl * bool) → Tor → Prop) :
  (∀ t', step_to t [(EWait k, true)] t' →
    Q (Ok (foldl oc_handle oc (n_cells N (hist t)), n_done N (hist t))) t') → post (await N k oc) t Q.
Proof.
  intros H. unfold await. apply post_bind, post_gets, post_bind, post_gets, post_bind, post_map_error, note_post.
  intros t' S. apply post_ret. by apply H.
Qed.
Lemma pickRendezvousPoint_post t (Q : outcome dial_error RelayInfo → Tor → Prop) :
  (∀ o t', step_to t [] t' → Q o t') → post pickRendezvousPoint t Q.
Proof.
  intros H. unfold pickRendezvousPoint. apply post_bind, post_gets, post_bind, post_gets, post_bind, post_map_error, on_path_post.
  { apply selector_call_frame; apply _. }
  intros o t1 S1 _. destruct o; [|by apply H..]. apply post_map_error, on_path_post; [apply relayInfo_frame; apply _|].
  intros o t2 S2 _. apply H. exact (step_trans _ _ _ _ _ S1 S2).
Qed.

(** [finished k st]: the service answered the handshake of [st] and its hop was
    added to circuit [k]. *)
Definition finished (k : nat) (st : HSNtor.HSNtorClient) (ext : history) : Prop :=
  ∃ h rc pk auth seed df db kf kb,
    rc ∈ n_cells N h ∧ Relay.Cmd rc = Relay.RelayRendezvous2 ∧ ParseRendezvous2 (Relay.Data rc) = Some (pk, auth) ∧
    HSNtor.Finish st pk auth = Ok seed ∧ HSNtor.HSNtorExpandKeys seed = Ok (df, db, kf, kb) ∧
    (EAddHop k df db kf kb, true) ∈ ext.

Lemma finished_mono k st ext ext' : ext ⊆ ext' → finished k st ext → finished k st ext'.
Proof.
  intros He (h & rc & pk & au & sd & df & db & kf & kb & H). exists h, rc, pk, au, sd, df, db, kf, kb.
  destruct H as (? & ? & ? & ? & ? & ?). split_and!; auto.
Qed.

(** Circuit [k], which is still up, was joined with the service that [desc]
    describes: the cookie established at its last relay is the one the service
    was told, and the keys of the hop added come from a handshake answered with
    the key in the introduction point. *)
Definition joined (g : RelayInfo) (desc : Descriptor) (subcred : bytes) (k : nat) (ext : history) : Prop :=
  ∃ rp m cookie specs st,
    (EBuild k [g; m; rp], true) ∈ ext ∧ (∀ b, (EDestroy k, b) ∉ ext) ∧
    length cookie = 20 ∧ (ESend k rpHop Relay.RelayEstablishRendezvous cookie, true) ∈ ext ∧
    RelayInfo.LinkSpecifiers rp = Ok specs ∧
    introduced g (IntroPoints desc) subcred cookie (RelayInfo.NtorOnionKey rp) specs st ext ∧
    finished k st ext.

Lemma joined_later g desc subcred k base e1 e2 : traffic g base e1 [] → base + fresh_circ e1 ≤ k →
  joined g desc subcred k e2 → joined g desc subcred k (e1 ++ e2).
Proof.
  intros T Hk (rp & m & ck & sp & st & H1 & H2 & H3 & H4 & H5 & H6 & H7). exists rp, m, ck, sp, st.
  split_and!; try done; try (apply elem_of_app; by right).
  - intros b [Hd|Hd]%elem_of_app; [apply (tr_own _ _ _ _ T) in Hd; lia|by apply H2 in Hd].
  - eapply introduced_mono; [done| |exact H6]. set_solver.
  - eapply finished_mono; [|exact H7]. set_solver.
Qed.

Definition rendezvous_result (desc : Descriptor) (subcred : bytes) (t : Tor) (o : outcome dial_error nat) (t' : Tor) : Prop :=
  match o with
  | Ok k => moved t t' [k] (joined (ginfo t) desc subcred k) ∧ fresh t ≤ k < fresh t'
  | Err _ => moved t t' [] anything
  | Panic => True
  end.

Lemma abort_post {A} k er t (Q : outcome dial_error A → Tor → Prop) :
  (∀ t', step_to t [(EDestroy k, true)] t' → Q (Err er) t') → post (abort k er) t Q.
Proof. intros H. apply post_bind, up_destroy_post. intros t' S. apply post_throw. by apply H. Qed.

Lemma rendezvous_later desc subcred t t1 o t' : moved t t1 [] anything → rendezvous_result desc subcred t1 o t' →
  rendezvous_result desc subcred t o t'.
Proof.
  intros M. unfold rendezvous_result. destruct o as [k|er|]; [|intros M'; by eapply moved_after|done].
  destruct M as (e1 & S1 & T1 & _).
  intros [(e2 & S2 & T2 & J) Hk]. pose proof (step_fresh _ _ _ S1). split; [|lia].
  exists (e1 ++ e2). rewrite (step_guard _ _ _ S1) in *. rewrite (step_fresh _ _ _ S1) in T2.
  split_and!; [by eapply step_trans|by apply traffic_app; [apply traffic_weaken|]|eapply joined_later; [done|lia|done]].
Qed.

Lemma HSNtorExpandKeys_no_error seed er : HSNtor.HSNtorExpandKeys seed ≠ Err er.
Proof.
  unfold HSNtor.HSNtorExpandKeys, slice. cbv zeta. repeat (case_match; cbn [mbind outcome_bind]; try discriminate).
Qed.

Lemma await_rendezvous_post k oc st t : (∀ d, oc_rendezvous2 oc = Some d →
    ∃ h rc, rc ∈ n_cells N h ∧ Relay.Cmd rc = Relay.RelayRendezvous2 ∧ Relay.Data rc = d) →
  post (await_rendezvous (FE := FE) N k oc st) t (λ o t', match o with
    | Ok k' => k' = k ∧ moved t t' [] (finished k st)
    | Err _ => ∃ t1, moved t t1 [] anything ∧ step_to t1 [(EDestroy k, true)] t'
    | Panic => True
    end).
Proof.
  intros Hoc. unfold await_rendezvous. apply post_bind, await_post. intros t1 S1.
  assert (moved t t1 [] anything) as M1 by (eapply moved_step; [exact S1|solve_harmless|done]).
  set (oc1 := foldl _ _ _). cbv beta iota. destruct (oc_rendezvous2 oc1) as [d|] eqn:Er; [|apply abort_post; eauto].
  destruct (n_done _ _); [apply abort_post; eauto|].
  assert (∃ h rc, rc ∈ n_cells N h ∧ Relay.Cmd rc = Relay.RelayRendezvous2 ∧ Relay.Data rc = d) as (h & rc & Hrc & Hcmd & <-).
  { apply oc_handle_rendezvous2 in Er as [Er|(rc & ?)]; [by apply Hoc|by exists (hist t), rc]. }
  destruct (ParseRendezvous2 _) as [[pk auth]|] eqn:Ep; [|apply abort_post; eauto]. apply post_bind.
  destruct (HSNtor.Finish st pk auth) as [seed|er|] eqn:Ef; unfold or_abort; [|apply abort_post; eauto|by apply post_panic].
  apply post_ret, post_bind, post_lift.
  destruct (HSNtor.HSNtorExpandKeys seed) as [[[[df db] kf] kb]|er|] eqn:Ek; cbn [map_err]; [| |done].
  2: { by apply HSNtorExpandKeys_no_error in Ek. }
  apply post_bind, up_call_post. intros ok t2 S2.
  assert (moved t t2 [] (λ ext, ext = [(EWait k, true); (EAddHop k df db kf kb, ok)])) as M2.
  { eapply moved_step; [exact (step_trans _ _ _ _ _ S1 S2)|solve_harmless|done]. }
  destruct ok; cbn [negb]; [|apply abort_post; intros t3 S3; exists t2; split; [by eapply moved_weaken|done]].
  apply post_ret. split; [done|]. eapply moved_weaken; [exact M2|]. intros ext ->.
  exists h, rc, pk, auth, seed, df, db, kf, kb. split_and!; try done. right. by left.
Qed.

Lemma joined_together t t1 t2 t3 t' g k rp desc subcred cookie specs st ck :
  moved t t1 [k] (circuit_to k g rp) → fresh t1 = S k →
  moved t1 t2 [] (λ ext, ext = [(ERand, true); (ESend k rpHop Relay.RelayEstablishRendezvous cookie, true); ck]) →
  length cookie = 20 → RelayInfo.LinkSpecifiers rp = Ok specs →
  moved t2 t3 [] (introduced g (IntroPoints desc) subcred cookie (RelayInfo.NtorOnionKey rp) specs st) →
  moved t3 t' [] (finished k st) → moved t t' [k] (joined g desc subcred k).
Proof.
  intros M1 Hf M2 Hc Hs M3 M4.
  assert (moved t1 t' [] (λ ext, (ESend k rpHop Relay.RelayEstablishRendezvous cookie, true) ∈ ext ∧
    introduced g (IntroPoints desc) subcred cookie (RelayInfo.NtorOnionKey rp) specs st ext ∧ finished k st ext)) as M.
  { eapply moved_after; [exact M2| |].
    - eapply (moved_after _ _ _ _ _ _ (λ ext, introduced g (IntroPoints desc) subcred cookie (RelayInfo.NtorOnionKey rp) specs st ext ∧
        finished k st ext)); [exact M3|exact M4|].
      intros e3 e4 H3 H4. split; [eapply introduced_mono; [done| |exact H3]|eapply finished_mono; [|exact H4]]; set_solver.
    - intros e2 e34 -> [H3 H4]. split; [set_solver|].
      split; [eapply introduced_mono; [done| |exact H3]|eapply finished_mono; [|exact H4]]; set_solver. }
  destruct M1 as (e1 & S1 & T1 & m & ->), M as (e2 & S2 & T2 & H1 & H2 & H3).
  rewrite (step_guard _ _ _ S1) in T2. eexists. split_and!; [by eapply step_trans| |].
  { apply traffic_app; [done|]. rewrite <-(step_fresh _ _ _ S1). by apply traffic_weaken. }
  exists rp, m, cookie, specs, st. split_and!; try done; [set_solver| |set_solver| |].
  - intros b [Hd|Hd]%elem_of_app; [set_solver|]. apply (tr_own _ _ _ _ T2) in Hd. lia.
  - eapply introduced_mono; [done| |exact H2]. set_solver.
  - eapply finished_mono; [|exact H3]. set_solver.
Qed.

Lemma buildOnionCircuit_post desc subcred t :
  post (buildOnionCircuit N desc subcred) t (rendezvous_result desc subcred t).
Proof.
  unfold buildOnionCircuit. apply post_bind, pickRendezvousPoint_post. intros o t0 S0.
  assert (moved t t0 [] anything) as M0 by (by apply (moved_step _ _ _ _ _ S0); [apply List.Forall_nil|]).
  destruct o as [rp|er|]; [|done..]. apply (post_weaken _ _ (rendezvous_result desc subcred t0)).
  2: { intros o t'. by apply rendezvous_later. }
  clear M0 S0 t. apply post_bind, post_map_error. eapply post_weaken; [apply buildCircuitVia_post|].
  intros [k|er|] t1; cbn [map_err]; [|done..]. intros (M1 & Hk & Hf).
  assert (∀ t2 t3 P, moved t1 t2 [] P → step_to t2 [(EDestroy k, true)] t3 → moved t0 t3 [] anything) as Hfail.
  { intros t2 t3 P M S. eapply moved_destroy; [exact M1|lia|exact M|exact S|done]. }
  assert (∀ A (er : dial_error) t2 P (Q : outcome dial_error A → Tor → Prop), moved t1 t2 [] P →
    (∀ t', moved t0 t' [] anything → Q (Err er) t') → post (abort k er) t2 Q) as Habort.
  { intros A er t2 P Q M HQ. apply abort_post. intros t3 S3. by eapply HQ, Hfail. }
  apply post_bind. unfold rand_Read. apply post_bind, up_call_post. intros ok t2 S2. destruct ok.
  2: { apply post_ret. eapply Habort; [apply (moved_step _ _ _ _ anything S2); [solve_harmless|done]|done]. }
  apply post_gets. cbv beta iota. set (cookie := map _ _).
  assert (length cookie = 20) as Hcl by (unfold cookie; by rewrite length_map).
  apply post_bind. unfold send_or_destroy. apply post_bind, up_call_post. intros ok t3 S3.
  pose proof (step_trans _ _ _ _ _ S2 S3) as S23. cbn [app] in S23. destruct ok; cbn [negb].
  2: { apply post_bind, up_destroy_post. intros t4 S4. apply post_ret, post_throw. cbn [rendezvous_result].
       eapply Hfail; [apply (moved_step _ _ _ _ anything S23); [solve_harmless|done]|exact S4]. }
  apply post_ret. cbn [negb]. apply post_bind, await_post. intros t4 S4.
  pose proof (step_trans _ _ _ _ _ S23 S4) as S14. cbn [app] in S14.
  pose proof (moved_exactly _ _ _ [] S14 ltac:(solve_harmless)) as M14.
  cbv beta iota. destruct (_ || _); [by eapply Habort|]. apply post_bind.
  destruct (RelayInfo.LinkSpecifiers rp) as [specs|er|] eqn:Es; unfold or_abort; [|by eapply Habort|by apply post_panic].
  apply post_ret, post_bind, post_attempt. eapply post_weaken; [apply introduce_post|].
  intros o t5 M5. apply post_bind. destruct o as [st|er|]; [| |by apply post_panic].
  2: { eapply Habort; [|done]. eapply (moved_after _ _ _ _ _ _ anything); [exact M14|exact M5|done]. }
  apply post_ret. eapply post_weaken; [apply await_rendezvous_post|].
  { intros d [H|(rc & ?)]%oc_handle_rendezvous2; [done|]. by exists (hist t3), rc. }
  assert (ginfo t4 = ginfo t0) as Hg.
  { destruct M1 as (? & S1 & _). by rewrite (step_guard _ _ _ S14), (step_guard _ _ _ S1). }
  rewrite Hg in M5. intros [k'|er|] t6; [| |done].
  - intros [-> M6]. assert (moved t0 t6 [k] (joined (ginfo t0) desc subcred k)) as M by by eapply joined_together.
    split; [exact M|]. apply moved_fresh in M14, M5, M6. lia.
  - intros (t7 & M7 & S7). eapply (Hfail _ _ anything); [|exact S7]. eapply moved_after; [exact M14| |done].
    eapply (moved_after _ _ _ _ _ _ anything); [exact M5|exact M7|done].
Qed.

Lemma onion_attempts_post n alive desc subcred le t :
  post (onion_attempts N n alive desc subcred le) t (rendezvous_result desc subcred t).
Proof.
  revert le t. induction n as [|n IH]; intros le t; cbn [onion_attempts]; [by apply post_throw, moved_refl|].
  destruct (negb _); [by apply post_throw, moved_refl|]. apply post_bind, post_attempt.
  eapply post_weaken; [apply buildOnionCircuit_post|]. intros [k|er|] t1 H.
  - by apply post_ret.
  - eapply post_weaken; [apply IH|]. intros o t'. by apply rendezvous_later.
  - by apply post_panic.
Qed.

(** ** Dialing *)

(** Circuit [k] is in the pool for [host]. *)
Definition pooled_for (host : bytes) (t : Tor) (k : nat) : Prop :=
  ∃ p, p ∈ default [] (onionPool (pool t) !! host) ∧ Pool.circ (heap (pool t) p) = k.

(** The circuits created are destroyed or pooled for [host]. *)
Definition served (host : bytes) (t t' : Tor) (P : history → Prop) : Prop :=
  ∃ ext keep, hist t' = hist t ++ ext ∧ traffic (ginfo t) (fresh t) ext keep ∧
    Forall (pooled_for host t') keep ∧ P ext.

Lemma served_after host t t1 t' (P1 P P' : history → Prop) : moved t t1 [] P1 → served host t1 t' P →
  (∀ e1 e2, traffic (ginfo t) (fresh t) e1 [] → fresh t1 = fresh t + fresh_circ e1 → P1 e1 → P e2 → P' (e1 ++ e2)) →
  served host t t' P'.
Proof.
  intros (e1 & S1 & T1 & H1) (e2 & keep & Hh & T2 & Hk & H2) HP. pose proof (step_fresh _ _ _ S1) as Hf.
  exists (e1 ++ e2), keep. rewrite (step_guard _ _ _ S1), Hf in T2.
  split_and!; [by rewrite Hh, (st_hist _ _ _ S1), app_assoc| |done|by apply HP].
  by apply traffic_app; [apply traffic_weaken|].
Qed.

Lemma begin_stream_post p target t (Q : outcome client_error trackedConn → Tor → Prop) :
  let k := Pool.circ (heap (pool t) p) in
  (∀ t', step_to t [(EBegin k target, true)] t' → Q (Ok (newTrackedConn p)) t') →
  (∀ now t1, step_to t [(EBegin k target, false)] t1 →
     Q (Err BeginFailed) (set_pool (Pool.releaseStream now p (pool t1)) t1)) →
  post (begin_stream N p target) t Q.
Proof.
  intros k H1 H2. unfold begin_stream. apply post_bind, post_gets, post_bind, call_post. intros [|] t1 S1; cbn [negb].
  - by apply post_ret, H1.
  - apply post_bind. unfold Client.releaseStream. apply post_bind, post_gets. intros o t2 [= <- <-]. apply post_throw. by apply H2.
Qed.

(** Giving a stream slot back destroys the circuit, or leaves the pool's lists
    alone. *)
Lemma releaseStream_cases now p (c : Pool.Client (W := history)) :
  let c' := Pool.releaseStream now p c in
  Pool.world c' = Pool.world c ++ [(EDestroy (Pool.circ (heap c p)), true)] ∨
  (Pool.world c' = Pool.world c ∧ onionPool c' = onionPool c ∧ ∀ q, Pool.circ (heap c' q) = Pool.circ (heap c q)).
Proof.
  cbv zeta. unfold Pool.releaseStream. set (c1 := if (0 <? _)%Z then _ else c).
  assert (Pool.world c1 = Pool.world c ∧ onionPool c1 = onionPool c ∧ ∀ q, Pool.circ (heap c1 q) = Pool.circ (heap c q))
    as (Hw & Ho & Hc).
  { unfold c1. destruct (_ <? _)%Z; [|done]. split_and!; try done. intros q. cbn [update heap]. by case_decide; subst. }
  destruct (_ && _); [left|by right]. unfold destroyLocked.
  match goal with |- context [removeLocked p ?c2] => destruct (removeLocked_frame c2 p) as (_ & _ & -> & _) end.
  cbn [Pool.world Pool.set_world Pool.Destroy circs net_Circuits]. by rewrite Hw, Hc.
Qed.

Lemma insertOnion_pooled now host k (c : Pool.Client (W := history)) :
  let '(p, c') := insertOnion now host k c in
  Pool.world c' = Pool.world c ∧ p ∈ default [] (onionPool c' !! host) ∧ Pool.circ (heap c' p) = k.
Proof.
  unfold insertOnion. set (c1 := alloc _ c). set (c2 := if retireNewOnionLocked host c1 then _ else c1).
  assert (Pool.world c2 = Pool.world c ∧ onionPool c2 = onionPool c ∧ Pool.circ (heap c2 (next c)) = k) as (Hw & Ho & Hc).
  { unfold c2, c1. destruct (retireNewOnionLocked _ _); cbn [update alloc Pool.world onionPool heap];
      repeat (rewrite (decide_True (P := next c = next c)) by done); done. }
  cbn [incr_built set_onion Pool.world onionPool heap]. split_and!; [done| |done].
  rewrite lookup_insert, decide_True by done. cbn [default]. apply elem_of_app. right. by left.
Qed.

(** The connection's circuit was joined with the service of [desc] and a stream
    to [port] was begun on it. *)
Definition connected_to (host : bytes) (desc : Descriptor) (subcred : bytes) (port : Z) (t : Tor) (conn : trackedConn)
    (t' : Tor) (ext : history) : Prop :=
  let k := Pool.circ (heap (pool t') (pc conn)) in
  let g := ginfo t in
  fresh t ≤ k ∧ joined g desc subcred k ext ∧ (EBegin k (onion_target port), true) ∈ ext ∧
  pc conn ∈ default [] (onionPool (pool t') !! host) ∧ closeOnce conn = false.

Definition conn_result (host : bytes) (t : Tor) (P : trackedConn → Tor → history → Prop) (o : outcome dial_error trackedConn)
    (t' : Tor) : Prop :=
  match o with
  | Ok conn => served host t t' (P conn t')
  | Err _ => served host t t' anything
  | Panic => True
  end.

Lemma moved_served host t t' : moved t t' [] anything → served host t t' anything.
Proof. intros (ext & S & T & _). exists ext, []. split_and!; [apply S|done|apply List.Forall_nil|done]. Qed.

Lemma joined_mono g desc subcred k ext ext' : ext ⊆ ext' → (∀ b, (EDestroy k, b) ∉ ext') →
  joined g desc subcred k ext → joined g desc subcred k ext'.
Proof.
  intros Hs Hd (rp & m & ck & sp & st & H1 & H2 & H3 & H4 & H5 & H6 & H7). exists rp, m, ck, sp, st.
  split_and!; try done; try (by apply Hs); [by eapply introduced_mono|by eapply finished_mono].
Qed.

Lemma dialOnionViaDescriptor_post alive host desc subcred port t :
  post (dialOnionViaDescriptor N alive host desc subcred port) t
    (conn_result host t (connected_to host desc subcred port t)).
Proof.
  unfold dialOnionViaDescriptor, buildOnionCircuitWithRetry. apply post_bind.
  eapply post_weaken; [apply onion_attempts_post|]. intros [k|er|] t1; [|by apply moved_served|done].
  intros [(e1 & S1 & T1 & J) Hk]. apply post_bind, post_gets, post_bind, post_map_error.
  unfold on_pool. intros o t2. pose proof (insertOnion_pooled (n_now N (hist t1)) host k (pool t1)) as Hi.
  destruct (insertOnion _ _ _ _) as [p c]. destruct Hi as (Hw & Hp & Hc). intros [= <- <-]. cbn [map_err].
  apply post_map_error, begin_stream_post; cbn [pool set_pool]; rewrite Hc.
  - intros t3 S3. cbn [map_err conn_result]. pose proof (st_pool _ _ _ S3) as Hpool. cbn [pool set_pool] in Hpool.
    exists (e1 ++ [(EBegin k (onion_target port), true)]), [k].
    assert (hist (set_pool c t1) = hist t1) as Hh by done.
    split_and!.
    + by rewrite (st_hist _ _ _ S3), Hh, (st_hist _ _ _ S1), app_assoc.
    + apply traffic_app; [done|]. apply traffic_harmless. solve_harmless.
    + apply List.Forall_cons; [|apply List.Forall_nil]. exists p. by rewrite Hpool.
    + unfold connected_to. cbn [pc newTrackedConn closeOnce]. rewrite Hpool. cbn [heap Pool.set_world onionPool]. rewrite Hc.
      split_and!; [lia| |set_solver|done|done]. eapply joined_mono; [| |exact J]; [set_solver|].
      intros b [Hd|Hd]%elem_of_app; [|set_solver]. by destruct J as (? & ? & ? & ? & ? & ? & J & _); apply J in Hd.
  - intros now t3 S3. cbn [map_err conn_result]. pose proof (st_pool _ _ _ S3) as Hpool. cbn [pool set_pool] in Hpool.
    assert (hist (set_pool c t1) = hist t1) as Hh by done.
    assert (hist t3 = hist t ++ e1 ++ [(EBegin k (onion_target port), false)]) as Hh3.
    { by rewrite (st_hist _ _ _ S3), Hh, (st_hist _ _ _ S1), app_assoc. }
    assert (traffic (ginfo t) (fresh t) (e1 ++ [(EBegin k (onion_target port), false)]) [k]) as T.
    { apply traffic_app; [done|]. apply traffic_harmless. solve_harmless. }
    assert (Pool.circ (heap (pool t3) p) = k) as Hc3 by (by rewrite Hpool).
    destruct (releaseStream_cases now p (pool t3)) as [Hd|(Hsame & Ho & Hcs)].
    + exists ((e1 ++ [(EBegin k (onion_target port), false)]) ++ [] ++ [(EDestroy k, true)]), [].
      split_and!; [|eapply traffic_destroy; [|exact T|apply traffic_nil]|apply List.Forall_nil|done].
      * unfold hist at 1. cbn [pool set_pool app]. rewrite Hd, Hc3. unfold hist in Hh3. by rewrite Hh3, <-!app_assoc.
      * by rewrite fresh_circ_app, Nat.add_0_r, <-(step_fresh _ _ _ S1).
    + exists (e1 ++ [(EBegin k (onion_target port), false)]), [k].
      split_and!; [|done| |done].
      * unfold hist at 1. cbn [pool set_pool]. by rewrite Hsame.
      * apply List.Forall_cons; [|apply List.Forall_nil]. exists p. cbn [pool set_pool]. by rewrite Ho, Hcs, Hpool.
Qed.

(** A period was tried whose descriptor, fetched and decoded under the period's
    blinded key, led to the connection. *)
Definition via_period (attempts : list (Z * bytes)) (host pub key : bytes) (plen port : Z) (t : Tor) (conn : trackedConn)
    (t' : Tor) (ext : history) : Prop :=
  ∃ tp srv blinded raw now desc, (tp, srv) ∈ attempts ∧ Blind.BlindPublicKey pub tp plen = Ok blinded ∧
    DecodeDescriptor raw blinded (Subcredential pub blinded) key now = Ok desc ∧
    connected_to host desc (Subcredential pub blinded) port t conn t' ext.

Lemma via_period_later attempts attempts' host pub key plen port t t1 conn t' e1 e2 : attempts ⊆ attempts' →
  ginfo t1 = ginfo t → traffic (ginfo t) (fresh t) e1 [] → fresh t1 = fresh t + fresh_circ e1 →
  via_period attempts host pub key plen port t1 conn t' e2 → via_period attempts' host pub key plen port t conn t' (e1 ++ e2).
Proof.
  intros Hs Hg T Hf (tp & srv & bl & raw & now & desc & H1 & H2 & H3 & Hk & J & Hb & H4).
  exists tp, srv, bl, raw, now, desc. split_and!; [by apply Hs|done|done|]. rewrite Hg in J.
  split_and!; [lia|eapply joined_later; [exact T|lia|exact J]|set_solver|apply H4|apply H4].
Qed.

Lemma period_attempts_post attempts alive host pub key plen ring port le t :
  post (period_attempts N e sort_Slice attempts alive host pub key plen ring port le) t
    (conn_result host t (via_period attempts host pub key plen port t)).
Proof.
  revert le t. induction attempts as [|[tp srv] attempts IH]; intros le t; cbn [period_attempts].
  { by apply post_throw, moved_served, moved_refl. }
  assert (∀ t1 le', moved t t1 [] anything → post (period_attempts N e sort_Slice attempts alive host pub key plen ring port le') t1
    (conn_result host t (via_period ((tp, srv) :: attempts) host pub key plen port t))) as Hrec.
  { intros t1 le' M. assert (ginfo t1 = ginfo t) as Hg by (destruct M as (? & S & _); by eapply step_guard).
    eapply post_weaken; [apply IH|]. intros [conn|er|] t' H; [|by eapply served_after|done].
    eapply served_after; [exact M|exact H|]. intros e1 e2 T Hf _. apply via_period_later; [set_solver|done..]. }
  cbv zeta. destruct (Blind.BlindPublicKey pub tp plen) as [bl|er|] eqn:Eb; [|by apply Hrec, moved_refl|by apply post_panic].
  destruct (_ =? 0); [by apply Hrec, moved_refl|]. apply post_bind, post_attempt.
  eapply post_weaken; [apply fetchDescriptor_post|]. intros o t1 [M Hd].
  destruct o as [desc|er|]; [|by apply Hrec|by apply post_panic]. destruct (Hd desc eq_refl) as (raw & now & Hdec).
  assert (ginfo t1 = ginfo t) as Hg by (destruct M as (? & S & _); by eapply step_guard).
  eapply post_weaken; [apply dialOnionViaDescriptor_post|]. intros [conn|er|] t' H; [|by eapply served_after|done].
  eapply served_after; [exact M|exact H|]. intros e1 e2 T Hf _ H'.
  eapply (via_period_later [(tp, srv)]); [set_solver|exact Hg|done|done|].
  exists tp, srv, bl, raw, now, desc. by split_and!; [left|..].
Qed.

Lemma hsDirRing_post t : post (hsDirRing (FE := FE) id) t (λ _ t', pool t' = pool t ∧ path_frame (cl t) (cl t')).
Proof.
  unfold hsDirRing. apply post_bind, post_gets. destruct (ringCache t) as [ring|]; [by apply post_ret|].
  apply post_bind, post_gets, post_bind, post_map_error, on_dir_post. intros o t1 S _.
  assert (pool t1 = pool t) as Hp.
  { rewrite (st_pool _ _ _ S), (st_hist _ _ _ S), app_nil_r. apply set_world_id. }
  pose proof (st_path _ _ _ S). destruct o as [mds|er|]; cbn [map_err]; [|done..]. cbv zeta.
  destruct (_ =? 0); [by apply post_throw|]. apply post_bind, post_modify, post_bind, post_modify, post_ret. done.
Qed.

(** Another goroutine's refresh. *)
Definition refresh (t : Tor) : Tor := match refreshConsensus (FE := FE) t with Some (_, t') => t' | None => t end.

(** C36: A refresh that runs while the ring is being built is undone for the ring:
    [refreshConsensus] clears the cached ring, but the builder then stores the
    ring of the consensus it had read, and every later dial uses this ring with
    the new consensus. *)
Theorem hsDirRing_stale (t : Tor) (con' : Consensus) (mds : gmap bytes Microdescriptor) (w w' : W) :
  let old := List.filter hsdir_candidate (Routers (consensus (cl t))) in
  ringCache t = None → FetchMicrodescriptors (map MicrodescHash old) (Path.world (cl t)) = (Ok mds, w) →
  ring_nodes old mds ≠ [] → dir_Refresh w = (Ok con', w') →
  ∃ t', hsDirRing (FE := FE) refresh t = Some (Ok (ring_nodes old mds), t') ∧ consensus (cl t') = con' ∧
    hsDirRing (FE := FE) id t' = Some (Ok (ring_nodes old mds), t').
Proof.
  intros old Hr Hf Hn Hd. unfold hsDirRing at 1. rewrite prog_bind_eq. unfold gets at 1. rewrite Hr, prog_bind_eq.
  unfold gets at 1. fold old. rewrite prog_bind_eq. unfold up, map_error, on_dir. rewrite Hf. cbn [map_err]. cbv zeta.
  destruct (ring_nodes old mds) as [|n ns] eqn:E; [done|]. cbn [length Nat.eqb]. rewrite prog_bind_eq. unfold modify at 1.
  assert (∀ t1, Path.world (cl t1) = w → consensus (cl (refresh t1)) = con') as Hc.
  { intros t1 Hw. unfold refresh, refreshConsensus. rewrite prog_bind_eq. unfold on_dir. by rewrite Hw, Hd. }
  eexists. split; [reflexivity|]. split; [by apply Hc|done].
Qed.

(** A pooled circuit of the host is used again. *)
Definition reused_for (host : bytes) (t : Tor) (now : Z) (conn : trackedConn) : Prop :=
  pc conn ∈ default [] (onionPool (pool t) !! host) ∧ retired (heap (pool t) (pc conn)) = false ∧
  circuit_closed N (Pool.circ (heap (pool t) (pc conn))) (hist t) = false ∧
  (time_Sub now (born (heap (pool t) (pc conn))) < maxDirty (pool t))%Z.

Lemma dialOnion_fresh alive host port t :
  (acquireOnion (n_now N (hist t)) host (pool t)).1 = None →
  post (dialOnion N e sort_Slice alive host port) t (λ o t', match o with
    | Ok conn => ∃ addr, ParseAddress host = Ok addr ∧ served host t t' (via_period (onion_periods (consensus (cl t))) host
                   (PublicKey addr) (onionAuthKey host t) (TimePeriod (unix (ValidAfter (consensus (cl t))))).2 port t conn t')
    | Err _ => served host t t' anything
    | Panic => True
    end).
Proof.
  intros Ha. unfold dialOnion. apply post_bind, post_gets, post_bind, post_map_error. unfold on_pool. intros o t1.
  destruct (acquireOnion _ _ _) as [hit c] eqn:Eq. cbn [fst] in Ha. subst hit. unfold acquireOnion in Eq.
  apply acquire_from_None in Eq as ->. intros [= <- <-]. cbn [map_err].
  assert (set_pool (pool t) t = t) as -> by (by destruct t).
  apply post_bind, post_lift. destruct (ParseAddress host) as [addr|er|] eqn:Ep; cbn [map_err]; [| |done].
  2: { by apply moved_served, moved_refl. }
  apply post_bind, post_gets, post_bind, post_gets, post_bind. eapply post_weaken; [apply hsDirRing_post|].
  intros o t1 (Hp & _ & Hg & _).
  assert (hist t1 = hist t) as Hh by (unfold hist; by rewrite Hp).
  assert (∀ t' P, served host t1 t' P → served host t t' P) as Hs.
  { intros t' P (ext & keep & H1 & H2 & H3). exists ext, keep. by rewrite Hh, Hg in *. }
  destruct o as [ring|er|]; [| |done].
  2: { apply Hs. by apply moved_served, moved_refl. }
  eapply post_weaken; [apply period_attempts_post|]. intros [conn|er|] t' H; [|by apply Hs|done].
  exists addr. split; [done|]. apply Hs. destruct H as (ext & keep & H1 & H2 & H3 & H4). exists ext, keep.
  split_and!; [done..|]. unfold via_period, connected_to in *. by rewrite Hh, Hg in *.
Qed.

Lemma dialOnion_reused alive host port t p c :
  acquireOnion (n_now N (hist t)) host (pool t) = (Some p, c) →
  post (dialOnion N e sort_Slice alive host port) t (λ o t', ∃ ext, hist t' = hist t ++ ext ∧
    List.Forall (λ ev, ev.1 = EBegin (Pool.circ (heap (pool t) p)) (onion_target port) ∨
                       ev.1 = EDestroy (Pool.circ (heap (pool t) p))) ext ∧
    ∀ conn, o = Ok conn → conn = newTrackedConn p ∧ ext = [(EBegin (Pool.circ (heap (pool t) p)) (onion_target port), true)]).
Proof.
  intros Eq. unfold dialOnion. apply post_bind, post_gets, post_bind, post_map_error. unfold on_pool. intros o t1.
  change (OnionDial.circuits' N) with circs. rewrite Eq. intros [= <- <-]. cbn [map_err]. unfold acquireOnion in Eq. apply acquire_from_Some in Eq as (_ & _ & _ & _ & _ & ->).
  set (c := incr_reused _). assert (Pool.circ (heap c p) = Pool.circ (heap (pool t) p)) as Hc.
  { cbn [c incr_reused update heap]. by rewrite decide_True. }
  apply post_map_error, begin_stream_post; cbn [pool set_pool]; rewrite Hc.
  - intros t' S. eexists. split_and!; [apply S| |by intros conn [= <-]].
    apply List.Forall_cons; [by left|apply List.Forall_nil].
  - intros now t1 S. assert (hist t1 = hist t ++ [(EBegin (Pool.circ (heap (pool t) p)) (onion_target port), false)]) as Hh by apply S.
    assert (Pool.circ (heap (pool t1) p) = Pool.circ (heap (pool t) p)) as Hc1 by (by rewrite (st_pool _ _ _ S)).
    destruct (releaseStream_cases now p (pool t1)) as [Hd|(Hw & _)]; eexists; (split_and!; [|..|done]).
    + unfold hist at 1. cbn [pool set_pool]. rewrite Hd, Hc1. change (Pool.world (pool t1)) with (hist t1).
      by rewrite Hh, <-app_assoc.
    + apply List.Forall_cons; [by left|apply List.Forall_cons; [by right|apply List.Forall_nil]].
    + unfold hist at 1. cbn [pool set_pool]. by rewrite Hw.
    + apply List.Forall_cons; [by left|apply List.Forall_nil].
Qed.

(** C13: Dialing an onion service leaks nothing, whatever fails on the way: every
    circuit the dial creates (to directories, introduction points and rendezvous
    points, over all periods and retries) is destroyed by the end or is in the
    pool for this host; each was built on the guard as a path of three; and no
    relay is dialed directly.  The directory circuit that microdescriptor
    fetches share is the client's, not the dial's. *)
Theorem onion_no_leak (alive : nat → bool) (host : bytes) (port : Z) (t t' : Tor) (o : outcome dial_error trackedConn) :
  dialOnion N e sort_Slice alive host port t = Some (o, t') → o ≠ Panic →
  ∃ ext, hist t' = hist t ++ ext ∧
    (∀ k, (ENew k, true) ∈ ext → (EDestroy k, true) ∈ ext ∨
       ∃ p, p ∈ default [] (onionPool (pool t') !! host) ∧ Pool.circ (heap (pool t') p) = k) ∧
    (∀ k path b, (EBuild k path, b) ∈ ext → ∃ m third, path = [Path.guardInfo (cl t); m; third]) ∧
    (∀ ch a i b, (EDial ch a i, b) ∉ ext).
Proof.
  intros Hrun Hnp. destruct (acquireOnion (n_now N (hist t)) host (pool t)) as [[p|] c] eqn:Eq.
  - destruct (dialOnion_reused alive host port t p c Eq _ _ Hrun) as (ext & Hh & Hf & _). exists ext. split; [done|].
    rewrite List.Forall_forall in Hf.
    split_and!; intros * H%list_elem_of_In%Hf; cbn [fst] in H; destruct H as [[=]|[=]].
  - assert (served host t t' anything) as (ext & keep & Hh & [T1 T2 T3 _] & Hk & _).
    { pose proof (dialOnion_fresh alive host port t) as H. rewrite Eq in H. specialize (H eq_refl _ _ Hrun).
      destruct o as [conn|er|]; [|done..]. destruct H as (addr & _ & ext & keep & ? & ? & ? & _). by exists ext, keep. }
    exists ext. split_and!; [done| |done|done]. intros k [?|Hin]%T1; [by left|right].
    rewrite List.Forall_forall in Hk. by apply Hk, list_elem_of_In.
Qed.

(** C7: A connection to an onion service is to that service.  It is on a pooled
    circuit of the same host that is usable, or on a circuit made by this dial:
    the host is a valid address; a descriptor was decoded that is authenticated
    end to end under the address's key, blinded for the current or the previous
    period; the rendezvous cookie sent to the circuit's last relay was sent,
    sealed with hs-ntor, to an introduction point of that descriptor; the answer
    on the circuit completed that same handshake, and the keys of the hop added
    to the circuit are those the handshake gave. *)
Theorem dialOnion_authenticated `{!CryptoLaws C} (alive : nat → bool) (host : bytes) (port : Z) (t t' : Tor) (conn : trackedConn) :
  dialOnion N e sort_Slice alive host port t = Some (Ok conn, t') →
  reused_for host t (n_now N (hist t)) conn ∨
  ∃ addr tp srv blinded raw now desc ext,
    hist t' = hist t ++ ext ∧ ParseAddress host = Ok addr ∧
    (tp, srv) ∈ onion_periods (consensus (cl t)) ∧
    Blind.BlindPublicKey (PublicKey addr) tp (TimePeriod (unix (ValidAfter (consensus (cl t))))).2 = Ok blinded ∧
    authentic_descriptor raw blinded (Subcredential (PublicKey addr) blinded) (onionAuthKey host t) now desc ∧
    connected_to host desc (Subcredential (PublicKey addr) blinded) port t conn t' ext.
Proof.
  intros Hrun. destruct (acquireOnion (n_now N (hist t)) host (pool t)) as [[p|] c] eqn:Eq.
  - left. destruct (dialOnion_reused alive host port t p c Eq _ _ Hrun) as (ext & _ & _ & Hconn).
    destruct (Hconn _ eq_refl) as [-> _]. unfold acquireOnion in Eq.
    apply acquire_from_Some in Eq as (? & ? & ? & ? & _). by split_and!.
  - right. pose proof (dialOnion_fresh alive host port t) as H. rewrite Eq in H.
    destruct (H eq_refl _ _ Hrun) as (addr & Ha & ext & keep & Hh & _ & _ & tp & srv & bl & raw & now & desc & H1 & H2 & H3 & H4).
    exists addr, tp, srv, bl, raw, now, desc, ext. split_and!; [done..|by apply DecodeDescriptor_sound|done].
Qed.

End Facts.
