(* ===== verification/ClientDir.v ===== *)
(** * The Tor client over the directory client.

    The directory client of [DirClient] is the one [Client] and [OnionDial] are
    run with.  An invariant of every history of operations: the consensus in use
    is one that the directory client verified, and the guard is a relay of a
    verified consensus. *)

From S2P Require Import Prelude ByteUtil GoNet GoText GoTextFacts Cell TorCrypto RelayInfo Directory DirParse DirClient DirClientFacts PathSel Path DirPath Pool PoolFacts HashRing OnionAddr OnionDesc Client ClientFacts OnionDial.

(** ** Fields that path selection and circuits leave alone *)

Section Frames.
Context `{C : Crypto} {W FE : Type} `{!World W FE, !DirService W FE}.
Context (N : net) (e : env) (sort_Slice : list (ringEntry hsDirRingNode) → list (ringEntry hsDirRingNode)).
Notation Tor := (Tor (W := W)).
Notation client_error := (client_error (FE := FE)).
Notation dial_error := (dial_error (FE := FE)).

(** A property of what path selection works on. *)
Context (P : Path.client (W := W) → Prop) `{!PathStable P}.
Definition framed (t : Tor) : Prop := P (cl t).

Lemma call_framed ev : preserves framed (call N ev : prog Tor client_error bool).
Proof. by intros t o t' [= _ <-]. Qed.
Lemma note_framed ev : preserves framed (note ev : prog Tor client_error unit).
Proof. by intros t o t' [= _ <-]. Qed.
Lemma destroy_framed k : preserves framed (destroy k : prog Tor client_error unit).
Proof. apply note_framed. Qed.
Lemma on_pool_framed {A} f : preserves framed (on_pool f : prog Tor client_error A).
Proof. intros t o t'. unfold on_pool. destruct (f (pool t)). by intros [= _ <-]. Qed.
Lemma on_dir_framed {A} (f : W → outcome FE A * W) : (∀ c, P c → P (Path.set_world (f (Path.world c)).2 c)) →
  preserves framed (on_dir f : prog Tor client_error A).
Proof. intros H t o t'. unfold Client.on_dir. specialize (H (cl t)). destruct (f _). by intros [= _ <-]. Qed.
Lemma on_path_framed {A} (m : prog (Path.client (W := W)) (tor_error (FE := FE)) A) :
  preserves P m → preserves framed (on_path m).
Proof.
  intros Hm t o t'. unfold on_path. destruct (m (cl t)) as [[o1 c]|] eqn:E; [|done]. intros [= _ <-]. by apply (Hm _ _ _ E).
Qed.

(** [known] closes the goals of the operations proved already. *)
Ltac framed_with known :=
  repeat first
    [ known | simple apply preserves_bind; [|intros] | apply preserves_ret | apply preserves_throw | apply preserves_panic | apply preserves_gets | apply preserves_lift
    | apply call_framed | apply note_framed | apply destroy_framed | apply on_pool_framed | apply on_dir_framed, ps_fetch
    | apply on_path_framed | apply preserves_attempt | apply preserves_map_error | apply preserves_if
    | apply selectedGuard_frame; apply _ | apply microdesc_frame; apply _ | apply relayInfo_frame; apply _
    | apply selector_call_frame; apply _ | apply exit_path_frame; apply _ | apply selectedRelayDirect_frame; apply _
    | apply microdescDirect_frame; apply _ | apply pickRelayVia_frame; intros; try apply _
    | progress (cbv zeta) | case_match ].
Ltac framed := framed_with fail.

Lemma build_circuit_framed path : preserves framed (build_circuit N path : prog Tor client_error nat).
Proof. unfold build_circuit, new_circuit. framed. Qed.
Lemma begin_stream_framed p target : preserves framed (begin_stream N p target : prog Tor client_error trackedConn).
Proof. unfold begin_stream, Client.releaseStream. framed. Qed.
Lemma dirGet_framed k path : preserves framed (dirGet N e k path : prog Tor client_error bytes).
Proof. unfold dirGet. framed. Qed.
Lemma buildCircuitVia_framed third : preserves framed (buildCircuitVia N third : prog Tor client_error nat).
Proof. unfold buildCircuitVia. framed_with ltac:(apply build_circuit_framed). Qed.

Lemma dialClearnet_framed addr port : preserves framed (dialClearnet N addr port : prog Tor client_error trackedConn).
Proof.
  unfold Client.dialClearnet, buildExitCircuit. framed_with ltac:(first [apply build_circuit_framed|apply begin_stream_framed]).
Qed.

Lemma fetchDescriptor_framed dirs b s k le : preserves framed (fetchDescriptor N e dirs b s k le : prog Tor dial_error Descriptor).
Proof.
  revert le. induction dirs as [|n dirs IH]; intros le; cbn [fetchDescriptor]; [apply preserves_throw|]. unfold up.
  framed_with ltac:(first [apply IH|apply buildCircuitVia_framed|apply dirGet_framed]).
Qed.

Lemma introduce_framed ips s c k l le : preserves framed (introduce N ips s c k l le : prog Tor dial_error HSNtor.HSNtorClient).
Proof.
  revert le. induction ips as [|ip ips IH]; intros le; cbn [introduce]; [apply preserves_throw|].
  unfold send_or_destroy, await, up. framed_with ltac:(first [apply IH|apply buildCircuitVia_framed]).
Qed.

Lemma onion_attempts_framed n alive desc s le : preserves framed (onion_attempts N n alive desc s le : prog Tor dial_error nat).
Proof.
  revert le. induction n as [|n IH]; intros le; cbn [onion_attempts]; [apply preserves_throw|].
  unfold buildOnionCircuit, pickRendezvousPoint, rand_Read, send_or_destroy, await_rendezvous, await, or_abort, abort, up.
  framed_with ltac:(first [apply IH|apply buildCircuitVia_framed|apply introduce_framed]).
Qed.

Lemma period_attempts_framed l alive host pub key plen ring port le :
  preserves framed (period_attempts N e sort_Slice l alive host pub key plen ring port le : prog Tor dial_error trackedConn).
Proof.
  revert le. induction l as [|[tp srv] l IH]; intros le; cbn [period_attempts]; [apply preserves_throw|].
  unfold dialOnionViaDescriptor, buildOnionCircuitWithRetry, up.
  framed_with ltac:(first [apply IH|apply fetchDescriptor_framed|apply onion_attempts_framed|apply begin_stream_framed]).
Qed.

Lemma dialOnion_framed alive host port : preserves framed (dialOnion N e sort_Slice alive host port : prog Tor dial_error trackedConn).
Proof.
  unfold dialOnion, hsDirRing, up.
  framed_with ltac:(first [apply period_attempts_framed|apply begin_stream_framed|apply preserves_modify; done]).
Qed.

Lemma DirGet_framed path : preserves framed (DirGet N e id path : prog Tor client_error bytes).
Proof.
  unfold DirGet, dirCircuit, buildDirCircuit.
  framed_with ltac:(first [apply build_circuit_framed|apply dirGet_framed|apply preserves_modify; intros t Ht; by case_match
                          |apply preserves_modify; done]).
Qed.

(** Connecting a guard changes the guard besides. *)
Lemma connectGuard_framed avoid : (∀ ch info t, framed t → framed (set_guard ch info t)) →
  preserves framed (connectGuard N avoid : prog Tor client_error unit).
Proof.
  intros Hg. unfold connectGuard, loadGuard. framed. generalize maxAttempts at 1, true, (@None client_error).
  intros n. induction n as [|n IH]; intros first le; cbn [guard_attempts]; unfold saveGuard;
    framed_with ltac:(first [apply IH|apply preserves_modify; intros; by apply Hg]).
Qed.

End Frames.

(** ** The directory client as the client's directory *)

Section ClientDir.
Context `{C : Crypto} (e : env) (N : net).
Context (sort_Slice : list (ringEntry hsDirRingNode) → list (ringEntry hsDirRingNode)).
(** Public keys that parse have a positive modulus. *)
Context (Hkeys : ∀ der k, ParsePKCS1PublicKey e der = Some k → (0 < Directory.N k)%Z).

#[local] Instance dirs_World : World dir_world fetch_error := dir_World e.
#[local] Instance dirs_DirService : DirService dir_world fetch_error := {|
  dir_Bootstrap := DirPath.on_dir (Bootstrap e);
  dir_Refresh := DirPath.on_dir (Refresh e);
  dir_UseTunnel w := mkWorld (UseTunnel true (dirc w)) (draws w) (drawn w)
|}.
#[local] Instance circs : Circuits history := net_Circuits N.
Notation Tor := (Tor (W := dir_world)).

(** Operations on the pool alone. *)
Inductive maintenance : (Pool.Client (W := history) → Pool.Client (W := history)) → Prop :=
| m_reap now hosts : maintenance (reap now hosts)
| m_identity hosts : maintenance (NewIdentity hosts)
| m_close hosts : maintenance (λ p, (Pool.Close hosts p).2)
| m_conn now conn : maintenance (λ p, (tracked_Close now conn p).2).

(** The operations of a client, one after the other. *)
Inductive client_step (t : Tor) : Tor → Prop :=
| cs_dial wait alive network addr o t' :
    DialContext (FE := fetch_error) N e sort_Slice wait alive network addr t = Some (o, t') → client_step t t'
| cs_dirget path o t' : DirGet (FE := fetch_error) N e id path t = Some (o, t') → client_step t t'
| cs_rotate hosts o t' : RotateGuard (FE := fetch_error) N hosts t = Some (o, t') → client_step t t'
| cs_pool f : maintenance f → client_step t (set_pool (f (pool t)) t).

(** A consensus that a directory client with the authorities [auths] accepted. *)
Definition verified (auths : list Authority) (con : Consensus) : Prop :=
  ∃ c c', authorities c = auths ∧ authentic e c c' con.
(** A relay that may be a guard, listed by such a consensus. *)
Definition verified_guard (auths : list Authority) (info : RelayInfo) : Prop :=
  ∃ con r m persisted, verified auths con ∧ r ∈ Routers con ∧ from_file N persisted ∧ may_guard persisted r ∧
    info = toRelayInfo r m.
Definition trustworthy (auths : list Authority) (t : Tor) : Prop :=
  verified auths (consensus (cl t)) ∧ verified_guard auths (Path.guardInfo (cl t)).

(** The authorities of the client's directory client. *)
Definition client_authorities (c : Path.client (W := dir_world)) : list Authority := authorities (dirc (Path.world c)).

Section Authorities.
Context (auths : list Authority).

Definition trusting (c : Path.client (W := dir_world)) : Prop := client_authorities c = auths.
Definition sound (c : Path.client (W := dir_world)) : Prop :=
  trusting c ∧ good c ∧ verified auths (consensus c) ∧ verified_guard auths (Path.guardInfo c).

Lemma on_dir_authorities {A} (m : prog dirclient fetch_error A) w :
  preserves (λ c, authorities c = authorities (dirc w)) m →
  authorities (dirc (DirPath.on_dir m w).2) = authorities (dirc w).
Proof. intros Hm. unfold DirPath.on_dir. destruct (m (dirc w)) as [[o c]|] eqn:E; [|done]. by apply (Hm _ _ _ E). Qed.

#[local] Instance trusting_stable : PathStable trusting.
Proof.
  split; unfold trusting, client_authorities; [done| | |done|done]; intros hs c <-; cbn [Path.world Path.set_world].
  - apply on_dir_authorities, (fetchMicrodescriptors_keeps e); [apply cachePut_authorities|apply fetchFromAny_authorities].
  - apply on_dir_authorities, (fetchMicrodescriptors_keeps e); [apply cachePut_authorities|apply fetchDirect_authorities].
Qed.
#[local] Instance good_stable : PathStable good.
Proof.
  split; [done..| |]; intros hs c out w h m H Ho Hg; exact (good_cached e hs _ c out w h m H Ho Hg).
Qed.
#[local] Instance sound_stable : PathStable sound.
Proof.
  split; unfold sound; intros *; [intros (Ht & Hg & Hs)..|intros H Ho (Ht & Hg & Hs)|intros H Ho (Ht & Hg & Hs)]; (split_and!; [| |exact (proj1 Hs)|exact (proj2 Hs)]); try done.
  - by apply (ps_fetch (P := trusting)).
  - by apply (ps_direct (P := trusting)).
  - by eapply (ps_cache (P := good)).
  - by eapply (ps_cache_direct (P := good)).
Qed.

Lemma on_dir_verified m w con : authorities (dirc w) = auths →
  (∀ c, returns m c (λ o c', ∀ con, o = Ok con → authentic e c c' con)) →
  (DirPath.on_dir m w).1 = Ok con → verified auths con.
Proof.
  intros Ha Hm. destruct (Hm (dirc w)) as (o & c' & H & _ & Ho). unfold DirPath.on_dir. rewrite H. cbn [fst]. intros ->.
  exists (dirc w), c'. split; [done|]. by apply Ho.
Qed.

Lemma connectGuard_sound avoid : preserves (framed sound) (connectGuard (FE := fetch_error) N avoid).
Proof.
  intros t o t' Hrun (Ha & Hm & Hv & Hg).
  assert (good (cl t')) as Hm' by (eapply (connectGuard_framed N good avoid); [done|exact Hrun|exact Hm]).
  assert (trusting (cl t')) as Ha' by (eapply (connectGuard_framed N trusting avoid); [done|exact Hrun|exact Ha]).
  pose proof (connectGuard_post N avoid t o t' Hrun) as Hpost. cbv beta in Hpost. split; [done|]. split; [done|].
  assert (unchanged t t' → verified auths (consensus (cl t')) ∧ verified_guard auths (Path.guardInfo (cl t'))) as Hsame.
  { intros (ext & S & _). destruct (st_path _ _ _ S) as (H1 & H2 & _). by rewrite H1, H2. }
  destruct o as [[]|er|]; [|by apply Hsame..].
  destruct Hpost as (persisted & [mid ext ext' r m ch S _ Hin Hmay _ _ _ Se] & Hff & _).
  destruct (st_path _ _ _ Se) as (H1 & H2 & _), (st_path _ _ _ S) as (H3 & _).
  rewrite H1, H2. cbn [cl set_guard consensus Path.guardInfo]. rewrite H3. split; [done|].
  by exists (consensus (cl t)), r, m, persisted.
Qed.

Lemma RotateGuard_sound hosts : preserves (framed sound) (RotateGuard (FE := fetch_error) N hosts).
Proof.
  unfold RotateGuard. apply preserves_bind; [apply preserves_gets|]. intros old.
  apply preserves_bind; [apply preserves_gets|]. intros oldID.
  apply preserves_bind; [apply preserves_map_error, connectGuard_sound|]. intros _.
  repeat first [apply preserves_bind; [apply on_pool_framed|intros ?]|apply preserves_ret|case_match].
Qed.

Lemma ensureFresh_sound wait : preserves (framed sound) (ensureFreshConsensus (FE := fetch_error) N wait).
Proof.
  unfold ensureFreshConsensus. apply preserves_bind; [apply preserves_gets|]. intros [|]; [apply preserves_ret|].
  destruct wait; cbn [negb]; [|apply preserves_ret]. apply preserves_bind; [apply preserves_gets|]. intros [|]; [apply preserves_ret|].
  apply preserves_bind; [apply preserves_attempt|intros [[]|er|]; [apply preserves_ret|apply preserves_ret|apply preserves_panic]].
  intros t o t'. unfold refreshConsensus. rewrite prog_bind_eq. unfold Client.on_dir.
  intros Hrun (Ha & Hm & Hv & Hg). pose proof (on_dir_authorities (Refresh e) (Path.world (cl t)) (Refresh_authorities e _)) as Haw.
  change (DirPath.on_dir (Refresh e) (Path.world (cl t))) with (dir_Refresh (Path.world (cl t))) in Haw.
  destruct (dir_Refresh (Path.world (cl t))) as [o1 w] eqn:Ed. cbn [snd] in Haw.
  assert (authorities (dirc w) = auths) as Hw by (rewrite Haw; exact Ha).
  destruct o1 as [con|er|]; cbn [map_err] in Hrun; injection Hrun as _ <-; [|by split_and!..].
  split_and!; [exact Hw| | |exact Hg].
  { intros h m H. change ((∅ : gmap bytes Microdescriptor) !! h = Some m) in H. by apply lookup_empty_Some in H. }
  cbn [cl set_ring set_cl consensus].
  apply (on_dir_verified (Refresh e) (Path.world (cl t))); [exact Ha|apply (Refresh_returns e Hkeys)|].
  change (DirPath.on_dir (Refresh e) (Path.world (cl t))) with (dir_Refresh (Path.world (cl t))). by rewrite Ed.
Qed.

Lemma step_sound t t' : client_step t t' → framed sound t → framed sound t'.
Proof.
  intros [wait alive network addr o t1 H|path o t1 H|hosts o t1 H|f Hf]; [| | |done].
  - revert t o t1 H. unfold DialContext. apply preserves_if; [apply preserves_throw|].
    apply preserves_bind; [apply preserves_map_error, ensureFresh_sound|]. intros _.
    destruct (SplitHostPort addr) as [[host ps]|er|]; [|apply preserves_throw|apply preserves_panic].
    destruct (Atoi ps); [|apply preserves_throw]. apply preserves_if; [apply dialOnion_framed; apply _|].
    apply preserves_map_error, dialClearnet_framed; apply _.
  - revert t o t1 H. apply DirGet_framed; apply _.
  - revert t o t1 H. apply RotateGuard_sound.
Qed.

(** A new client. *)
Lemma NewClient_sound cfg w t0 : authorities (dirc w) = auths →
  NewClient (FE := fetch_error) N cfg w = Some (Ok t0) → framed sound t0.
Proof.
  intros Ha. unfold NewClient. pose proof (on_dir_authorities (Bootstrap e) w (Bootstrap_authorities e _)) as Haw.
  pose proof (λ con, on_dir_verified (Bootstrap e) w con Ha (Bootstrap_returns e Hkeys)) as Hv.
  change (DirPath.on_dir (Bootstrap e) w) with (dir_Bootstrap w) in *.
  destruct (dir_Bootstrap w) as [[con|er|] w1]; [|done..]. cbn [fst snd] in *. cbv zeta. set (t := mkTor _ _ _ _ _).
  destruct (connectGuard N None t) as [[[[]|er|] t1]|] eqn:Ec; [|done..]. intros [= <-].
  assert (trusting (cl t1)) as Ht1.
  { eapply (connectGuard_framed N trusting None); [done|exact Ec|]. unfold framed, trusting, client_authorities. cbn. congruence. }
  destruct (connectGuard_post N None t _ _ Ec) as (persisted & [mid ext ext' r m ch S _ Hin Hmay _ _ _ Se] & Hff & _).
  destruct (st_path _ _ _ Se) as (H1 & H2 & _), (st_path _ _ _ S) as (H3 & _).
  assert (good (cl t1)) as Hm1.
  { eapply (connectGuard_framed N good None); [done|exact Ec|]. intros h x H. change ((∅ : gmap bytes Microdescriptor) !! h = Some x) in H. by apply lookup_empty_Some in H. }
  split; [exact Ht1|]. split; [exact Hm1|]. cbn [cl set_cl consensus Path.set_world Path.guardInfo]. rewrite H1, H2. cbn [cl set_guard consensus Path.guardInfo].
  rewrite H3. assert (verified auths (consensus (cl t))) as Hvc by (by apply Hv). split; [done|]. by exists (consensus (cl t)), r, m, persisted.
Qed.

End Authorities.

Lemma reached_sound cfg w t0 t : NewClient (FE := fetch_error) N cfg w = Some (Ok t0) → rtc client_step t0 t →
  sound (authorities (dirc w)) (cl t).
Proof.
  intros Hnew Hrun. pose proof (NewClient_sound _ _ _ _ eq_refl Hnew) as H0. change (framed (sound (authorities (dirc w))) t).
  clear - H0 Hrun Hkeys. induction Hrun as [t|t1 t2 t3 Hs _ IH]; [done|]. apply IH. by eapply step_sound.
Qed.

(** C6: From its start on, whatever it dials, fetches, rotates or cleans up, and
    whatever the network and the directory servers answer, the client works
    with a consensus that a majority of its own authorities signed, those its
    directory client was created with, and with a guard that such a consensus
    lists and flags as one (or that the guard file named). *)
Theorem client_trustworthy (cfg : Config) (w : dir_world) (t0 t : Tor) :
  NewClient (FE := fetch_error) N cfg w = Some (Ok t0) → rtc client_step t0 t →
  trustworthy (authorities (dirc w)) t ∧ client_authorities (cl t) = authorities (dirc w).
Proof. intros Hnew Hrun. by destruct (reached_sound _ _ _ _ Hnew Hrun) as (H1 & _ & H2 & H3). Qed.


End ClientDir.
