(* ===== verification/DirTunnelFacts.v ===== *)
(** * The circuit under the directory tunnel is built with direct requests. *)

From S2P Require Import Prelude ByteUtil GoNet GoText GoTextFacts Cell TorCrypto RelayInfo Directory DirParse DirClient DirClientFacts PathSel Path DirPath Pool PoolFacts HashRing OnionAddr Client ClientFacts ClientDir.

Section DirTunnel.
Context `{C : Crypto} (e : env) (N : net).

(** At least [n] direct requests were made, [q] among all of them. *)
Definition asked (n : nat) (q : request) (c : dirclient) : Prop := n ≤ length (directs c) ∧ q ∈ reqs c.

Lemma add_req_asked n q r c : asked n q c → asked n q (add_req r c).
Proof.
  intros [H1 H2]. split; cbn [add_req reqs]; [|apply elem_of_app; by left].
  unfold directs in *. cbn [add_req reqs]. rewrite filter_app, length_app. lia.
Qed.

Lemma get_asked n q host path : preserves (asked n q) (get e host path).
Proof.
  unfold get. apply preserves_bind; [apply preserves_gets|]. intros ans.
  apply preserves_bind; [apply preserves_modify; intros c; apply add_req_asked|]. intros _.
  destruct ans as [resp|]; [|apply preserves_throw]. apply preserves_if; [apply preserves_throw|].
  apply preserves_bind; [apply preserves_lift|]. intros; apply preserves_lift.
Qed.

Lemma try_authorities_asked n q auths order path le : preserves (asked n q) (try_authorities e auths order path le).
Proof.
  revert le. induction order as [|i order IH]; intros le; cbn [try_authorities]; [apply preserves_throw|].
  destruct (auths !! i); [|apply preserves_panic]. apply preserves_bind; [apply preserves_attempt, get_asked|].
  intros [b|er|]; [apply preserves_ret|apply IH|apply preserves_panic].
Qed.
Lemma fetchDirect_asked n q path : preserves (asked n q) (fetchDirect e path).
Proof.
  unfold fetchDirect. apply preserves_bind; [apply preserves_gets|]. intros auths.
  apply preserves_bind; [apply preserves_gets|]. intros d. apply try_authorities_asked.
Qed.
Lemma cachePut_asked n q k v : preserves (asked n q) (cachePut e k v).
Proof. apply preserves_modify. intros c Hc. destruct (cache c); [|done]. by destruct (put_kept e (reqs c) k). Qed.

(** A direct fetch asks an authority. *)
Lemma fetchDirect_asks path c o c' : authorities c ≠ [] → fetchDirect e path c = Some (o, c') →
  ∃ a, a ∈ authorities c ∧ asked (S (length (directs c))) (Direct (DirAddr a) path) c'.
Proof.
  intros Hne. unfold fetchDirect. rewrite prog_bind_eq. unfold gets at 1. rewrite prog_bind_eq. unfold gets at 1.
  destruct (shuffledIndices (rand_Int e (reqs c)) (length (authorities c))) as [|i order] eqn:Es.
  { apply (f_equal length) in Es. unfold shuffledIndices in Es. rewrite shuffle_perm, length_seq in Es.
    destruct (authorities c); [done|discriminate Es]. }
  assert (i < length (authorities c)) as Hi.
  { apply (shuffled_range (rand_Int e (reqs c))). rewrite Es. by left. }
  destruct (lookup_lt_is_Some_2 _ i Hi) as [a Ha]. intros H. exists a. split; [by eapply list_elem_of_lookup_2|].
  cbn [try_authorities] in H. rewrite Ha, prog_bind_eq in H. unfold attempt in H.
  destruct (get e (DirAddr a) path c) as [[o1 c1]|] eqn:Eg; [|done].
  assert (asked (S (length (directs c))) (Direct (DirAddr a) path) c1) as H1.
  { unfold get in Eg. rewrite prog_bind_eq in Eg. unfold gets at 1 in Eg. rewrite prog_bind_eq in Eg. unfold modify at 1 in Eg.
    assert (c1 = add_req (Direct (DirAddr a) path) c) as ->.
    { destruct (http_Do e (reqs c) (DirAddr a) path) as [resp|]; [|by injection Eg]. destruct (negb _); [by injection Eg|].
      rewrite prog_bind_eq in Eg. unfold lift in Eg. destruct (ReadAll_Limit _ _); by injection Eg. }
    split; cbn [add_req reqs]; [|apply elem_of_app; right; by left].
    unfold directs. cbn [add_req reqs]. rewrite filter_app, length_app. cbn. lia. }
  destruct o1 as [b|er|]; [by injection H as <- <-|by eapply try_authorities_asked|by injection H as <- <-].
Qed.

#[local] Instance dt_World : World dir_world fetch_error := dirs_World e.
#[local] Instance dt_DirService : DirService dir_world fetch_error := dirs_DirService e.
Notation Tor := (Tor (W := dir_world)).

Definition asked_path (n : nat) (q : request) (c : Path.client (W := dir_world)) : Prop := asked n q (dirc (Path.world c)).

Lemma microdescDirect_asked n q r : preserves (asked_path n q) (microdescDirect (FE := fetch_error) r).
Proof.
  unfold microdescDirect, microdescVia. apply preserves_bind; [apply preserves_gets|]. intros [m|]; [apply preserves_ret|].
  apply preserves_bind.
  { apply preserves_map_error. intros c o c'. unfold on_world. cbn [FetchMicrodescriptorsDirect dt_World dirs_World dir_World].
    unfold DirPath.on_dir. destruct (DirClient.FetchMicrodescriptorsDirect e _ _) as [[o1 c1]|] eqn:E; intros [= _ <-]; [|done].
    intros H. eapply (fetchMicrodescriptors_keeps e (asked n q)); [apply cachePut_asked|apply fetchDirect_asked|exact E|exact H]. }
  intros mds. destruct (mds !! MicrodescHash r); [|apply preserves_throw]. apply preserves_if; [apply preserves_throw|].
  apply preserves_bind; [apply preserves_modify; by intros c|]. intros; apply preserves_ret.
Qed.
Lemma selector_call_asked n q con f : preserves (asked_path n q) (selector_call (FE := fetch_error) con f).
Proof. apply preserves_bind; [|intros; apply preserves_lift]. by intros c o c' [= _ <-]. Qed.
Lemma pickDirect_asked n q con f chosen : preserves (asked_path n q)
  (pickRelayVia (FE := fetch_error) (λ ex, selector_call con (f ex)) chosen None microdescDirect).
Proof.
  unfold pickRelayVia. generalize 20, (map (λ ch, Some (rs ch)) chosen), (@None (tor_error (FE := fetch_error))).
  induction n0 as [|k IH]; intros ex le; cbn [pick_attempts]; [apply preserves_throw|].
  apply preserves_bind; [apply selector_call_asked|]. intros r.
  apply preserves_bind; [apply preserves_attempt, microdescDirect_asked|].
  intros [m|er|]; [apply preserves_if; [apply IH|apply preserves_ret]|apply IH|apply preserves_panic].
Qed.

(** The disk cache, if there is one, has no usable document for the hash [h]. *)
Definition cache_misses (h : bytes) (c : dirclient) : Prop :=
  match ParseMicrodescriptors <$> (m ← cache c; m !! md_key h) with
  | Some [md] => Digest md ≠ h
  | _ => True
  end.

(** Without a disk cache, or when it has nothing stored under the hash. *)
Lemma cache_misses_absent h c : (∀ m, cache c = Some m → m !! md_key h = None) → cache_misses h c.
Proof.
  intros H. unfold cache_misses. destruct (cache c) as [m|]; [|done].
  change (Some m ≫= (λ m, m !! md_key h)) with (m !! md_key h). by rewrite (H m).
Qed.

Lemma FetchDirect_asks h c : cache_misses h c → authorities c ≠ [] →
  ∃ o c' a, DirClient.FetchMicrodescriptorsDirect e [h] c = Some (o, c') ∧ a ∈ authorities c ∧
    asked (S (length (directs c))) (Direct (DirAddr a) (pathMicroD ++ h)) c'.
Proof.
  intros Hc Ha. destruct (fetchDirect_returns e (pathMicroD ++ h) c) as (o1 & c1 & H1 & Hp & _).
  destruct (fetchDirect_asks _ _ _ _ Ha H1) as (a & Hin & Hk).
  unfold DirClient.FetchMicrodescriptorsDirect, fetchMicrodescriptors. rewrite prog_bind_eq.
  assert (md_cached [h] ∅ [] c = Some (Ok (∅, [h]), c)) as ->.
  { cbn [md_cached]. rewrite prog_bind_eq. unfold cacheGet, gets at 1. unfold cache_misses in Hc.
    destruct (ParseMicrodescriptors <$> _) as [[|md [|]]|]; [done| |done..]. by rewrite bool_decide_false. }
  cbn [length md_batches]. cbv zeta. rewrite prog_bind_eq. unfold map_error.
  change (pathMicroD ++ Join (take maxMicrodescPerRequest [h]) go"-") with (pathMicroD ++ h). rewrite H1.
  destruct o1 as [raw|er|]; cbn [map_err]; [|by eexists _, _, a|done].
  destruct (md_store_returns e raw (ParseMicrodescriptors raw) ∅ c1) as (o2 & c2 & H2 & _ & _ & out & -> & _); [done| |].
  { intros k m Hm. by apply lookup_empty_Some in Hm. }
  rewrite prog_bind_eq, H2. eexists _, _, a. split_and!; [reflexivity|done|].
  by eapply md_store_keeps; [apply cachePut_asked|exact H2|].
Qed.

(** The microdescriptor of a relay that is in no cache is asked for directly. *)
Lemma microdescDirect_asks r c o c' : mdCache c !! MicrodescHash r = None → cache_misses (MicrodescHash r) (dirc (Path.world c)) →
  authorities (dirc (Path.world c)) ≠ [] → microdescDirect (FE := fetch_error) r c = Some (o, c') →
  ∃ a, a ∈ authorities (dirc (Path.world c)) ∧
    asked_path (S (length (directs (dirc (Path.world c))))) (Direct (DirAddr a) (pathMicroD ++ MicrodescHash r)) c'.
Proof.
  intros Hm Hc Ha. destruct (FetchDirect_asks (MicrodescHash r) _ Hc Ha) as (o1 & c1 & a & H1 & Hin & Hk).
  unfold microdescDirect, microdescVia. rewrite prog_bind_eq. unfold gets at 1. rewrite Hm, prog_bind_eq.
  unfold map_error, on_world. cbn [FetchMicrodescriptorsDirect dt_World dirs_World dir_World]. unfold DirPath.on_dir. rewrite H1.
  intros H. exists a. split; [done|].
  destruct o1 as [mds|er|]; cbn [map_err] in H; [|by injection H as <- <-..].
  destruct (mds !! MicrodescHash r); [|by injection H as <- <-]. destruct (_ || _); [by injection H as <- <-|].
  rewrite prog_bind_eq in H. unfold modify in H. by injection H as <- <-.
Qed.

(** C21: The circuit under the directory tunnel is built with requests outside it.
    When a client whose guard is up and listed in its consensus builds a
    directory circuit and finds the guard's microdescriptor neither in its
    memory, as after every consensus refresh, nor in its disk cache, if it has
    one, it asks an authority for it over direct HTTP from its own address, with
    the tunnel set and the fallback disallowed, and however the build ends. *)
Theorem dir_circuit_direct (t t' : Tor) (r : RouterStatus) (o : outcome client_error nat) :
  let d := dirc (Path.world (cl t)) in
  tunnel d = true → allowDirectFallback d = false →
  guardOpen (cl t) = true → findRouterByIdentity (cl t) (RSAIDDigest (Path.guardInfo (cl t))) = Some r →
  mdCache (cl t) !! MicrodescHash r = None → cache_misses (MicrodescHash r) d → authorities d ≠ [] →
  buildDirCircuit (FE := fetch_error) N t = Some (o, t') →
  let d' := dirc (Path.world (cl t')) in
  length (directs d) < length (directs d') ∧
  ∃ a, a ∈ authorities d ∧ Direct (DirAddr a) (pathMicroD ++ MicrodescHash r) ∈ reqs d'.
Proof.
  intros d _ _ Ho Hr Hm Hc Ha. unfold buildDirCircuit. rewrite prog_bind_eq. unfold gets at 1. rewrite Hr, prog_bind_eq.
  unfold gets at 1. rewrite prog_bind_eq. unfold gets at 1. rewrite Ho. cbn [negb]. rewrite prog_bind_eq. unfold on_path at 1.
  cbn [selectedRelayDirect]. rewrite prog_bind_eq.
  destruct (microdescDirect (FE := fetch_error) r (cl t)) as [[o1 c1]|] eqn:E1; [|done].
  destruct (microdescDirect_asks _ _ _ _ Hm Hc Ha E1) as (a & Hin & Hk). intros H.
  set (q := Direct (DirAddr a) (pathMicroD ++ MicrodescHash r)) in *. set (n := S (length (directs _))) in *.
  assert (asked_path n q (cl t')) as [H1 H2]; [|split; [exact H1|by exists a]].
  destruct o1 as [m|er|]; [|by injection H as _ <-..]. revert H Hk. cbn [mret prog_ret map_err].
  assert (∀ {A} (mm : prog _ _ A), preserves (asked_path n q) mm →
    preserves (λ t : Tor, asked_path n q (cl t)) (on_path (FE := fetch_error) mm)) as Hp.
  { intros A mm Hmm s os s'. unfold on_path. destruct (mm (cl s)) as [[? ?]|] eqn:Em; [|done]. intros [= _ <-]. by eapply Hmm. }
  match goal with |- ?f ?s = _ → _ => assert (preserves (λ t : Tor, asked_path n q (cl t)) f) as Hf end.
  { apply preserves_bind; [apply preserves_gets|]. intros con.
    apply preserves_bind; [apply Hp, pickDirect_asked|]. intros mid.
    apply preserves_bind; [apply Hp, pickDirect_asked|]. intros dir.
    unfold build_circuit, new_circuit, destroy.
    repeat first [apply preserves_bind; [|intros ?]|apply preserves_gets|apply preserves_if|apply preserves_ret|apply preserves_throw
      |by intros ? ? ? [= _ <-]]. }
  intros H Hk. by apply (Hf _ _ _ H).
Qed.
End DirTunnel.
