(* ===== verification/ClientExamples.v ===== *)
(** * A small network around the client: it starts, rotates its guard, refreshes
    its consensus and dials an onion service, all by evaluation. *)

From stdpp Require Import sorting.
From S2P Require Import Prelude ByteUtil GoNet GoText GoTextFacts Cell TorCrypto ToyCrypto RelayInfo Directory DirClient PathSel Path PathExamples Pool PoolFacts HashRing OnionAddr OnionExamples Rendezvous OnionDesc OnionDescFacts OnionDescExamples Client OnionDial ClientFacts OnionDialFacts.

(** ** Relays *)

Definition x_relay (i : byte) (ip : bytes) (flags : list bytes) : RouterStatus := toy_router i ip flags 100.
Definition x_con : Consensus :=
  {| ValidAfter := 1700000000000000000; FreshUntil := 0; ValidUntil := 1700003600000000000;
     Routers := [x_relay x01 go"10.1.0.1" [go"Guard"; go"Stable"; go"HSDir"; go"V2Dir"];
                 x_relay x02 go"10.2.0.1" [go"HSDir"; go"V2Dir"];
                 x_relay x03 go"10.3.0.1" [go"HSDir"; go"V2Dir"];
                 x_relay x04 go"10.4.0.1" [go"Guard"; go"Stable"; go"HSDir"; go"V2Dir"];
                 x_relay x05 go"10.5.0.1" [go"HSDir"; go"V2Dir"]];
     Weights := {[go"Wmm" := 10000%Z; go"Wgg" := 10000%Z]}; SharedRandPrevious := replicate 32 x02;
     SharedRandCurrent := replicate 32 x01; signedBody := []; signatures := [] |}.
(** The next one: a relay less. *)
Definition x_con' : Consensus :=
  {| ValidAfter := 1700003600000000000; FreshUntil := 0; ValidUntil := 1700007200000000000;
     Routers := take 4 (Routers x_con); Weights := Weights x_con; SharedRandPrevious := replicate 32 x02;
     SharedRandCurrent := replicate 32 x01; signedBody := []; signatures := [] |}.
Definition x_mds : gmap bytes Microdescriptor :=
  list_to_map (map (λ i, ([i], toy_md i [])) [x01; x02; x03; x04; x05]).

(** The directory serves every microdescriptor; draws are the lowest value. *)
#[local] Instance x_world : World unit unit := {|
  draw w := (λ n, 0%Z, w);
  FetchMicrodescriptors hs w := (Ok x_mds, w);
  FetchMicrodescriptorsDirect hs w := (Ok x_mds, w)
|}.
#[local] Instance x_dirs : DirService unit unit := {|
  dir_Bootstrap w := (Ok x_con, w);
  dir_Refresh w := (Ok x_con', w);
  dir_UseTunnel w := w
|}.

(** ** The onion service *)

Definition x_host : bytes := Address_String (mkAddress toy_pub).
Definition x_tp : Z := 19675.
Definition x_blinded : bytes := match Blind.BlindPublicKey toy_pub x_tp 1440 with Ok b => b | _ => [] end.
Definition x_subcred : bytes := Subcredential toy_pub x_blinded.
Definition x_b : X25519KeyPair := {| priv := be_encode 32 777 |}.
Definition x_y : X25519KeyPair := {| priv := be_encode 32 888 |}.
Definition x_auth : bytes := replicate 32 x61.

(** An introduction point: address, RSA and Ed25519 identities. *)
Definition x_specs : bytes :=
  [x03; x00; x06; x0a; x05; x00; x01; x00; x50] ++ [x02; x14] ++ replicate 20 x05 ++ [x03; x20] ++ replicate 32 x05.
Definition x_intro : bytes :=
  line (go"introduction-point " ++ RawStd_Encode x_specs) ++
  line (go"onion-key ntor " ++ RawStd_Encode (replicate 32 x05)) ++
  line go"auth-key" ++ pem go"ED25519 CERT" (toy_cert d_signing introAuthCertID d_hours x_auth) ++
  line (go"enc-key ntor " ++ RawStd_Encode (Public x_b)).
Definition x_inner : bytes := line go"create2-formats 2" ++ x_intro.
Definition x_middle : bytes :=
  unlines [go"desc-auth-type x25519"; eph_line (x25519_base d_eph)] ++
  line go"encrypted" ++ pem go"MESSAGE" (seal_layer d_salt x_inner x_blinded x_subcred d_rev constEncrypted).
Definition x_signed : bytes :=
  line go"hs-descriptor 3" ++ line go"descriptor-lifetime 180" ++
  line go"descriptor-signing-key-cert" ++ pem go"ED25519 CERT" (toy_cert x_blinded descCertType d_hours d_signing) ++
  line go"revision-counter 42" ++ line go"superencrypted" ++
  pem go"MESSAGE" (seal_layer d_salt x_middle x_blinded x_subcred d_rev constSuperencrypted).
Definition x_raw : bytes :=
  x_signed ++ line (go"signature " ++ RawStd_Encode (toy_ed25519_sign d_signing (descSigPrefix ++ x_signed))).

(** ** The network *)

Definition x_cell (cmd : byte) (data : bytes) : Relay.RelayCell := Relay.mkRelayCell cmd 0 0 [] data.
Fixpoint x_intro1 (h : history) : option bytes :=
  match h with
  | [] => None
  | (ESend _ _ cmd data, _) :: h => if decide (cmd = Relay.RelayIntroduce1) then Some data else x_intro1 h
  | _ :: h => x_intro1 h
  end.
(** The rendezvous point and the introduction point acknowledge; the service
    answers the introduction it got. *)
Definition x_cells (h : history) : list Relay.RelayCell :=
  match reverse h !! 0 with
  | Some (ESend _ _ cmd _, _) =>
      if decide (cmd = Relay.RelayIntroduce1) then [x_cell Relay.RelayIntroduceAck [x00; x00]]
      else [x_cell Relay.RelayRendezvousEstablished []]
  | _ =>
      match x_intro1 h with
      | Some body =>
          match service_answer x_b x_y x_auth (take 32 (drop (length (intro_header x_auth)) body)) with
          | Some (rend2, _) => [x_cell Relay.RelayRendezvous2 rend2]
          | None => []
          end
      | None => []
      end
  end.
Definition x_net : net := {|
  n_ok h ev := true;
  n_died h k := false;
  n_cells := x_cells;
  n_done h := false;
  n_response h := Some (mkResponse 200 [] (mkStream x_raw true));
  n_rand h i := to_byte (Z.of_nat (length h + i));
  n_now h := 1700000000000000000%Z;
  n_guard_file h := []
|}.
Definition x_env : env := {|
  http_Do := λ _ _ _, None; tunnel_DirGet := λ _ _, None; clock := λ _, 0%Z; rand_Int := λ _ _, 0;
  put_kept := λ _ _, true; gzip_NewReader := λ _, None; zlib_NewReader := λ _, None;
  flate_NewReader := λ b, mkStream b true; ParsePKCS1PublicKey := λ _, None
|}.
Definition x_sort : list (ringEntry hsDirRingNode) → list (ringEntry hsDirRingNode) := merge_sort idx_le.

Definition x_start : option (outcome client_error (Tor (W := unit))) :=
  NewClient (FE := unit) x_net (mkConfig go"dir" 0 []) tt.
Definition x_tor0 : Tor (W := unit) :=
  mkTor (Path.mkClient x_con ∅ false zeroRelayInfo tt)
    (Pool.mkClient [] ∅ 0 0 0 None None false (λ _, mkPooled 0 0 [] zeroMicrodescriptor 0 false) 0 [])
    None ∅ [].
Definition x_tor : Tor (W := unit) := match x_start with Some (Ok t) => t | _ => x_tor0 end.
Notation x_dial t := (dialOnion (FE := unit) x_net x_env x_sort (λ _, true) x_host 443 t).
Definition good_run {S E A} (r : option (outcome E A * S)) : bool :=
  match r with Some (o, _) => is_ok o | None => false end.

#[local] Instance x_laws : NetLaws x_net.
Proof. split; [reflexivity|discriminate]. Qed.

#[local] Instance x_circuits : Circuits history := net_Circuits x_net.
#[local] Instance x_circuit_laws : CircuitsLaws history := net_laws x_net.

(** ** Starting and rotating *)

Lemma x_started : x_start = Some (Ok x_tor).
Proof.
  assert (match x_start with Some (Ok _) => true | _ => false end = true) as H by (vm_compute; reflexivity).
  unfold x_tor. destruct x_start as [[t|er|]|]; [reflexivity|discriminate H..].
Qed.

Lemma Ok_inj {E A} (a b : A) : (Ok a : outcome E A) = Ok b → b = a.
Proof. by intros [= ->]. Qed.

Lemma x_consensus : consensus (cl x_tor) = x_con.
Proof.
  destruct (NewClient_ready (FE := unit) x_net (mkConfig go"dir" 0 []) tt x_tor x_started) as (H & _).
  exact (Ok_inj _ _ H).
Qed.
Lemma x_onions : onionPool (pool x_tor) = ∅.
Proof. vm_compute. reflexivity. Qed.

Lemma x_pool_wf : wf (pool x_tor).
Proof.
  apply (acc_wf _ []), empty_accounted. split_and!; vm_compute; reflexivity.
Qed.

Definition x_rotate : option (outcome client_error unit * Tor) := RotateGuard (FE := unit) x_net [] x_tor.


(** ** Refreshing *)

(** The consensus has run out. *)
Definition x_late : net := {|
  n_ok h ev := true; n_died h k := false; n_cells := x_cells; n_done h := false; n_response h := None;
  n_rand h i := x00; n_now h := 1700004000000000000%Z; n_guard_file h := []
|}.
Definition x_fresh : option (outcome client_error unit * Tor) := ensureFreshConsensus (FE := unit) x_late true x_tor.

Lemma ensureFreshConsensus_consistent_witness :
  ∃ t', x_fresh = Some (Ok tt, t') ∧ consensus (cl t') = x_con' ∧ Path.mdCache (cl t') = ∅ ∧
    size (Path.mdCache (cl x_tor)) = 1 ∧ pool t' = pool x_tor.
Proof.
  assert (match x_fresh with Some (Ok _, t') => ValidAfter (consensus (cl t')) | _ => 0%Z end = ValidAfter x_con') as H
    by (vm_compute; reflexivity).
  destruct x_fresh as [[[[]|er|] t']|] eqn:E; [|discriminate H..].
  destruct (ensureFreshConsensus_consistent (FE := unit) x_late true x_tor t' (Ok tt) E ltac:(discriminate))
    as (_ & Hp & _ & [[Hc _]|(_ & Hr & _ & Hm)]).
  - exfalso. rewrite Hc, x_consensus in H. discriminate H.
  - exists t'. split; [reflexivity|]. split; [exact (Ok_inj _ _ Hr)|]. split; [exact Hm|].
    split; [vm_compute; reflexivity|exact Hp].
Defined.

Lemma hsDirRing_stale_witness :
  ∃ t', consensus (cl t') = x_con' ∧
    hsDirRing (FE := unit) id t' = Some (Ok (ring_nodes (List.filter hsdir_candidate (Routers x_con)) x_mds), t') ∧
    length (ring_nodes (List.filter hsdir_candidate (Routers x_con)) x_mds) = 5 ∧
    length (Routers (consensus (cl t'))) = 4.
Proof.
  pose proof x_consensus as Hx.
  destruct (hsDirRing_stale (FE := unit) x_tor x_con' x_mds tt tt) as (t' & _ & Hc & Hr).
  - vm_compute. reflexivity.
  - reflexivity.
  - intros Hn. apply (f_equal length) in Hn. rewrite Hx in Hn. vm_compute in Hn. discriminate.
  - reflexivity.
  - exists t'. split; [exact Hc|]. rewrite Hx in Hr. split; [exact Hr|]. split; [vm_compute; reflexivity|].
    rewrite Hc. vm_compute. reflexivity.
Defined.

(** ** The directory circuit *)

(** Another goroutine stored a circuit while this one was building. *)
Definition x_others (t : Tor (W := unit)) : Tor := set_pool (set_dirCirc (Some 7) (pool t)) t.
Definition x_dir : option (outcome client_error nat * Tor) := dirCircuit (FE := unit) x_net x_others x_tor.

Lemma dirCircuit_single_witness :
  ∃ t', x_dir = Some (Ok 7, t') ∧ dirCirc (pool t') = Some 7 ∧ existsb (is_destroy 0) (hist t') = true.
Proof.
  assert (match x_dir with Some (Ok k, t') => Some (k, existsb (is_destroy 0) (hist t')) | _ => None end = Some (7, true)) as H
    by (vm_compute; reflexivity).
  destruct x_dir as [[[k|er|] t']|] eqn:E; [|discriminate H..]. injection H as -> Hd.
  exists t'. split; [reflexivity|].
  destruct (dirCircuit_single (FE := unit) x_net x_others x_tor t' (Ok 7) E ltac:(discriminate)) as [Hk _].
  split; [exact (Hk 7 eq_refl)|exact Hd].
Defined.

(** ** An onion service *)

Lemma x_dialed : ∃ conn t', x_dial x_tor = Some (Ok conn, t').
Proof.
  assert (good_run (x_dial x_tor) = true) as H by (vm_compute; reflexivity).
  destruct (x_dial x_tor) as [[[conn|er|] t']|]; [|discriminate H..]. by exists conn, t'.
Qed.

Lemma onion_no_leak_witness :
  ∃ conn t', x_dial x_tor = Some (Ok conn, t') ∧ ∃ ext, hist t' = hist x_tor ++ ext ∧
    ∀ k, (ENew k, true) ∈ ext → (EDestroy k, true) ∈ ext ∨
      ∃ p, p ∈ default [] (onionPool (pool t') !! x_host) ∧ Pool.circ (heap (pool t') p) = k.
Proof.
  destruct x_dialed as (conn & t' & H). exists conn, t'. split; [exact H|].
  destruct (onion_no_leak (FE := unit) x_net x_env x_sort (λ _, true) x_host 443 x_tor t' (Ok conn) H ltac:(discriminate))
    as (ext & Hh & Hk & _).
  exists ext. split; [exact Hh|exact Hk].
Defined.

Lemma dialOnion_authenticated_witness :
  ∃ conn t' raw now desc ext, x_dial x_tor = Some (Ok conn, t') ∧
    (∃ tp blinded, Blind.BlindPublicKey toy_pub tp 1440 = Ok blinded ∧
      authentic_descriptor raw blinded (Subcredential toy_pub blinded) [] now desc ∧
      connected_to x_net x_host desc (Subcredential toy_pub blinded) 443 x_tor conn t' ext).
Proof.
  destruct x_dialed as (conn & t' & H).
  destruct (dialOnion_authenticated (FE := unit) x_net x_env x_sort (λ _, true) x_host 443 x_tor t' conn H) as [(Hp & _)|Hf].
  - exfalso. assert (default [] (onionPool (pool x_tor) !! x_host) = []) as E by (vm_compute; reflexivity).
    rewrite E in Hp. by apply elem_of_nil in Hp.
  - destruct Hf as (addr & tp & srv & blinded & raw & now & desc & ext & _ & Ha & _ & Hb & Hd & Hc).
    assert (ParseAddress x_host = Ok (mkAddress toy_pub)) as Hx by (vm_compute; reflexivity).
    rewrite Hx in Ha. injection Ha as <-.
    exists conn, t', raw, now, desc, ext. split; [exact H|]. exists tp, blinded.
    split; [exact Hb|]. split; [exact Hd|exact Hc].
Defined.
