(* ===== verification/ClientDirExamples.v ===== *)
(** * The client over the directory client, on the documents of
    [DirTextExamples]: it bootstraps, finds its consensus stale, refreshes it and
    dials. *)

From S2P Require Import Prelude ByteUtil GoNet GoText GoTextFacts Cell TorCrypto ToyCrypto RelayInfo Directory DirParse DirClient DirClientFacts PathSel Path DirPath DirTextExamples Pool HashRing OnionAddr OnionDesc Client ClientFacts OnionDial ClientDir DirTunnelFacts.

(** After the end of the consensus. *)
Definition y_net : net := {|
  n_ok h ev := true; n_died h k := false; n_cells h := []; n_done h := false; n_response h := None;
  n_rand h i := x00; n_now h := (noon + 4000 * 1000000000)%Z; n_guard_file h := []
|}.
#[local] Instance y_world : World dir_world fetch_error := dirs_World t_env.
#[local] Instance y_dirs : DirService dir_world fetch_error := dirs_DirService t_env.

Definition y_start : option (outcome client_error (Tor (W := dir_world))) :=
  NewClient (FE := fetch_error) y_net (mkConfig [] 0 []) t_world.
Definition y_tor : Tor (W := dir_world) :=
  match y_start with
  | Some (Ok t) => t
  | _ => mkTor t_tor (Pool.mkClient [] ∅ 0 0 0 None None false (λ _, mkPooled 0 0 [] zeroMicrodescriptor 0 false) 0 []) None ∅ []
  end.
Notation y_dial := (DialContext (FE := fetch_error) y_net t_env id true (λ _, true) go"tcp" go"192.0.2.1:443" y_tor).

Lemma y_started : y_start = Some (Ok y_tor).
Proof.
  assert (match y_start with Some (Ok _) => true | _ => false end = true) as H by (vm_compute; reflexivity).
  unfold y_tor. destruct y_start as [[t|er|]|]; [reflexivity|discriminate H..].
Qed.

Lemma client_trustworthy_witness :
  ∃ t, client_step t_env y_net id y_tor t ∧ length (reqs (dirc (Path.world (cl t)))) = 4 ∧
    trustworthy t_env y_net t_auths t.
Proof.
  assert (match y_dial with Some (Ok _, t) => length (reqs (dirc (Path.world (cl t)))) | _ => 0 end = 4) as H
    by (vm_compute; reflexivity).
  destruct y_dial as [[[conn|er|] t]|] eqn:E; [|discriminate H..].
  assert (client_step t_env y_net id y_tor t) as Hs by (exact (cs_dial t_env y_net id y_tor _ _ _ _ _ _ E)).
  exists t. split; [exact Hs|]. split; [exact H|].
  apply (client_trustworthy t_env y_net id t_env_keys (mkConfig [] 0 []) t_world y_tor t).
  - exact y_started.
  - exact (rtc_once _ _ Hs).
Defined.

(** The path of an exit circuit of the new client. *)
Notation y_path := (buildExitCircuit_path (W := dir_world) (FE := fetch_error) (World0 := dir_World t_env) 443 (cl y_tor)).


(** ** The directory circuit *)

(** A client whose microdescriptors were cleared, with an empty disk cache. *)
Definition z_tor : Tor (W := dir_world) :=
  mkTor (Path.mkClient t_con ∅ true (Path.guardInfo t_tor) (mkWorld (mkDir t_auths (Some ∅) true false []) (λ _ _, 0%Z) 0))
    (pool y_tor) None ∅ [].
Notation z_build := (buildDirCircuit (FE := fetch_error) y_net z_tor).

Lemma dir_circuit_direct_witness :
  ∃ o t', z_build = Some (o, t') ∧ length (directs (dirc (Path.world (cl z_tor)))) = 0 ∧
    0 < length (directs (dirc (Path.world (cl t')))).
Proof.
  assert (match z_build with Some _ => true | None => false end = true) as H by (vm_compute; reflexivity).
  destruct z_build as [[o t']|] eqn:E; [|discriminate H].
  exists o, t'. split; [reflexivity|]. split; [reflexivity|].
  destruct (findRouterByIdentity (cl z_tor) (RSAIDDigest (Path.guardInfo (cl z_tor)))) as [r|] eqn:Er.
  - destruct (dir_circuit_direct t_env y_net z_tor t' r o eq_refl eq_refl eq_refl Er) as [Hl _].
    + apply lookup_empty.
    + apply cache_misses_absent. intros m [= <-]. apply lookup_empty.
    + discriminate.
    + exact E.
    + exact Hl.
  - exfalso. assert (match findRouterByIdentity (cl z_tor) (RSAIDDigest (Path.guardInfo (cl z_tor))) with
      | Some _ => true | None => false end = true) as H2 by (vm_compute; reflexivity).
    rewrite Er in H2. discriminate H2.
Defined.
