(* ===== verification/ByteRelay.v ===== *)
(** * [internal/relay]: copying between two connections until one side ends.

    The two goroutines of [Bidirectional] interleave with each other and with the
    two peers.  A goroutine runs [io.Copy], one chunk at a time, and then closes
    both connections. *)

From S2P Require Import Prelude.
From stdpp Require Import relations.

(** A connection: what its peer sent that is still unread, whether the peer ended
    its side, what was written to it, how much more the peer takes before a write
    blocks, whether the connection broke, and whether it was closed here; [sent]
    is all its peer ever sent. *)
Record conn := mkConn {
  inq : bytes; eof : bool; outq : bytes; room : nat; broken : bool; cclosed : bool; sent : bytes
}.
Definition new_conn : conn := mkConn [] false [] 0 false false [].

(** Where a goroutine is: reading, about to write a chunk, before the first and
    the second [Close], or done. *)
Inductive phase := Reading | Writing (chunk : bytes) | ClosingA | ClosingB | Done.

(** Connections [false] and [true] are [a] and [b]; goroutine [g] copies to
    connection [g] from the other. *)
Record relay := mkRelay { conns : bool → conn; phases : bool → phase }.
Definition upd {A} (f : bool → A) (i : bool) (v : A) (j : bool) : A := if eqb j i then v else f j.
Definition set_conn (i : bool) (c : conn) (s : relay) : relay := mkRelay (upd (conns s) i c) (phases s).
Definition set_phase (g : bool) (p : phase) (s : relay) : relay := mkRelay (conns s) (upd (phases s) g p).

Definition start : relay := mkRelay (λ _, new_conn) (λ _, Reading).

(** The buffer of [io.Copy]. *)
Definition copyBuf : nat := 32768.

(** A read of at most [n] bytes: it fails on a closed or broken connection, ends
    the copy when the peer ended its side and all was read, and blocks while
    there is nothing to read. *)
Definition cp_read (g : bool) (n : nat) (s : relay) : option relay :=
  let src := conns s (negb g) in
  match phases s g with
  | Reading =>
      if cclosed src || broken src then Some (set_phase g ClosingA s)
      else
        match inq src with
        | [] => if eof src then Some (set_phase g ClosingA s) else None
        | _ =>
            let k := S (n mod copyBuf) in
            Some (set_phase g (Writing (take k (inq src)))
                    (set_conn (negb g) (mkConn (drop k (inq src)) (eof src) (outq src) (room src) false false (sent src)) s))
        end
  | _ => None
  end.

(** The write of the chunk: it fails on a closed or broken connection, and
    blocks while the peer takes nothing. *)
Definition cp_write (g : bool) (s : relay) : option relay :=
  let dst := conns s g in
  match phases s g with
  | Writing chunk =>
      if cclosed dst || broken dst then Some (set_phase g ClosingA s)
      else
        match room dst with
        | O => None
        | k =>
            let dst' := mkConn (inq dst) (eof dst) (outq dst ++ take k chunk) (k - length chunk) false false (sent dst) in
            Some (set_phase g (if k <? length chunk then Writing (drop k chunk) else Reading) (set_conn g dst' s))
        end
  | _ => None
  end.

Definition close_conn (c : conn) : conn := mkConn (inq c) (eof c) (outq c) (room c) (broken c) true (sent c).
Definition cp_close (g : bool) (s : relay) : option relay :=
  match phases s g with
  | ClosingA => Some (set_phase g ClosingB (set_conn false (close_conn (conns s false)) s))
  | ClosingB => Some (set_phase g Done (set_conn true (close_conn (conns s true)) s))
  | _ => None
  end.

(** The peers and the network: data arrives, a peer ends its side, takes more
    data, or the connection breaks. *)
Inductive peer_event := PeerSend (b : bytes) | PeerEnd | PeerTake (n : nat) | PeerReset.
Definition peer_step (i : bool) (ev : peer_event) (s : relay) : option relay :=
  let c := conns s i in
  match ev with
  | PeerSend b => if eof c then None
                  else Some (set_conn i (mkConn (inq c ++ b) false (outq c) (room c) (broken c) (cclosed c) (sent c ++ b)) s)
  | PeerEnd => Some (set_conn i (mkConn (inq c) true (outq c) (room c) (broken c) (cclosed c) (sent c)) s)
  | PeerTake n => Some (set_conn i (mkConn (inq c) (eof c) (outq c) (room c + n) (broken c) (cclosed c) (sent c)) s)
  | PeerReset => Some (set_conn i (mkConn (inq c) (eof c) (outq c) (room c) true (cclosed c) (sent c)) s)
  end.

(** Steps of one goroutine, of [Bidirectional], and of the world. *)
Inductive go_step (g : bool) (s s' : relay) : Prop :=
| gs_read n : cp_read g n s = Some s' → go_step g s s'
| gs_write : cp_write g s = Some s' → go_step g s s'
| gs_close : cp_close g s = Some s' → go_step g s s'.
Definition own_step (s s' : relay) : Prop := ∃ g, go_step g s s'.
Inductive step (s s' : relay) : Prop :=
| st_own g : go_step g s s' → step s s'
| st_peer i ev : peer_step i ev s = Some s' → step s s'.

(** [wg.Wait] returns. *)
Definition returned (s : relay) : Prop := ∀ g, phases s g = Done.

(** ** Invariant *)

(** What goroutine [g] holds. *)
Definition held (p : phase) : bytes := match p with Writing c => c | _ => [] end.
Definition copying (p : phase) : Prop := match p with Reading | Writing _ => True | _ => False end.
Definition closed_a (p : phase) : Prop := match p with ClosingB | Done => True | _ => False end.

Record inv (s : relay) : Prop := {
  i_copied g : copying (phases s g) →
    sent (conns s (negb g)) = outq (conns s g) ++ held (phases s g) ++ inq (conns s (negb g));
  i_prefix g : outq (conns s g) `prefix_of` sent (conns s (negb g));
  i_closed : cclosed (conns s false) = true → ∃ g, closed_a (phases s g);
  i_closed' : cclosed (conns s true) = true → ∃ g, phases s g = Done;
  i_a g : closed_a (phases s g) → cclosed (conns s false) = true;
  i_b g : phases s g = Done → cclosed (conns s true) = true
}.

Lemma upd_same {A} (f : bool → A) i v : upd f i v i = v.
Proof. unfold upd. by rewrite eqb_reflx. Qed.
Lemma upd_other {A} (f : bool → A) i v : upd f i v (negb i) = f (negb i).
Proof. by destruct i. Qed.

Lemma relay_start_inv : inv start.
Proof. split; done || (intros; by destruct g). Qed.

(** A goroutine moves on. *)
Lemma set_phase_inv g p s : inv s →
  (copying p → sent (conns s (negb g)) = outq (conns s g) ++ held p ++ inq (conns s (negb g))) →
  (closed_a (phases s g) → closed_a p) → (phases s g = Done → p = Done) →
  (closed_a p → cclosed (conns s false) = true) → (p = Done → cclosed (conns s true) = true) → inv (set_phase g p s).
Proof.
  intros [I1 I2 I3 I4 I5 I6] Hc Ha Hd Ha' Hd'. split; cbn [set_phase conns phases].
  - intros h. unfold upd. destruct (eqb_spec h g) as [->|]; [done|apply I1].
  - done.
  - intros H. destruct (I3 H) as [h Hh]. exists h. unfold upd. destruct (eqb_spec h g) as [->|]; auto.
  - intros H. destruct (I4 H) as [h Hh]. exists h. unfold upd. destruct (eqb_spec h g) as [->|]; auto.
  - intros h. unfold upd. destruct (eqb_spec h g) as [->|]; [done|apply I5].
  - intros h. unfold upd. destruct (eqb_spec h g) as [->|]; [done|apply I6].
Qed.

(** A connection changes but for what was written to it and, of its input, what
    goroutine [g] has taken. *)
Lemma set_conn_inv i c s : inv s → outq (conns s i) `prefix_of` outq c → outq c `prefix_of` sent (conns s (negb i)) →
  sent (conns s i) `prefix_of` sent c →
  (copying (phases s (negb i)) → sent c = outq (conns s (negb i)) ++ held (phases s (negb i)) ++ inq c) →
  (copying (phases s i) → sent (conns s (negb i)) = outq c ++ held (phases s i) ++ inq (conns s (negb i))) →
  (cclosed c = true → if i then ∃ g, phases s g = Done else ∃ g, closed_a (phases s g)) →
  (cclosed (conns s i) = true → cclosed c = true) → inv (set_conn i c s).
Proof.
  intros [I1 I2 I3 I4 I5 I6] Ho Ho' Hs Hr Hw Hc Hc'. split; cbn [set_conn conns phases].
  - intros g Hg. unfold upd. destruct g, i; cbn [negb eqb] in *; auto.
  - intros g. unfold upd. destruct g, i; cbn [negb eqb] in *; try done; try (by apply (I2 true)); try (by apply (I2 false)).
    + etrans; [apply (I2 true)|done].
    + etrans; [apply (I2 false)|done].
  - unfold upd. destruct i; cbn [eqb]; auto.
  - unfold upd. destruct i; cbn [eqb]; auto.
  - intros g Hg. unfold upd. destruct i; cbn [eqb]; eauto.
  - intros g Hg. unfold upd. destruct i; cbn [eqb]; eauto.
Qed.

(** States are compared pointwise. *)
#[export] Instance relay_equiv : Equiv relay := λ s t,
  (∀ i, conns s i = conns t i) ∧ (∀ g, phases s g = phases t g).
#[export] Instance relay_equivalence : Equivalence (≡@{relay}).
Proof.
  split; [by intros s|intros s t [H1 H2]; by split|].
  intros s t u [H1 H2] [H3 H4]. split; intros; [by rewrite H1, H3|by rewrite H2, H4].
Qed.
#[export] Instance inv_proper : Proper ((≡) ==> iff) inv.
Proof.
  assert (∀ s t : relay, s ≡ t → inv s → inv t) as H.
  { intros s t [Hc Hp] [I1 I2 I3 I4 I5 I6].
    split; intros *; rewrite <-?Hc, <-?Hp; [apply I1|apply I2| | |apply I5|apply I6].
    - intros [g Hg]%I3. exists g. by rewrite <-Hp.
    - intros [g Hg]%I4. exists g. by rewrite <-Hp. }
  intros s t Hst. split; apply H; [done|by symmetry].
Qed.

Lemma phase_phase g p q i c s : set_phase g p (set_conn i c (set_phase g q s)) ≡ set_phase g p (set_conn i c s).
Proof.
  split; intros j; cbn [set_phase set_conn conns phases]; [done|]. unfold upd. by destruct (eqb j g).
Qed.

Lemma read_inv g n s s' : inv s → cp_read g n s = Some s' → inv s'.
Proof.
  intros Hi. unfold cp_read. destruct (phases s g) eqn:Ep; try done. cbv zeta.
  assert (inv (set_phase g ClosingA s)) as Hend by (apply set_phase_inv; by rewrite ?Ep).
  destruct (_ || _) eqn:Ec; [by intros [= <-]|]. destruct (inq (conns s (negb g))) as [|x l] eqn:Eq.
  { destruct (eof _); [by intros [= <-]|done]. }
  rewrite <-Eq. clear Eq x l. set (k := S _). intros [= <-]. apply orb_false_iff in Ec as [Ec _].
  pose proof (i_copied s Hi g) as Hg. rewrite Ep in Hg. specialize (Hg I). cbn [held app] in Hg.
  set (c := mkConn _ _ _ _ _ _ _). rewrite <-(phase_phase g _ ClosingA).
  apply set_phase_inv; [| |cbn [set_phase set_conn phases]; by rewrite upd_same|cbn [set_phase set_conn phases]; by rewrite upd_same|done|done].
  - apply set_conn_inv; cbn [set_phase conns phases c outq sent inq cclosed]; rewrite ?negb_involutive, ?upd_same, ?upd_other; try done.
    + pose proof (i_prefix s Hi (negb g)) as H. by rewrite negb_involutive in H.
    + intros Hc. pose proof (i_copied s Hi (negb g) Hc) as H. by rewrite negb_involutive in H.
    + by rewrite Ec.
  - intros _. cbn [set_phase set_conn conns held]. rewrite upd_same. cbn [c sent inq].
    replace (upd (conns s) (negb g) c g) with (conns s g) by (by destruct g). by rewrite take_drop.
Qed.

Lemma write_inv g s s' : inv s → cp_write g s = Some s' → inv s'.
Proof.
  intros Hi. unfold cp_write. destruct (phases s g) as [|chunk| | |] eqn:Ep; try done. cbv zeta.
  assert (inv (set_phase g ClosingA s)) as Hend by (apply set_phase_inv; by rewrite ?Ep).
  destruct (_ || _) eqn:Ec; [by intros [= <-]|]. apply orb_false_iff in Ec as [Ec _].
  destruct (room (conns s g)) as [|k0]; [done|]. set (k := S k0). intros [= <-].
  pose proof (i_copied s Hi g) as Hg. rewrite Ep in Hg. specialize (Hg I). cbn [held] in Hg.
  set (c := mkConn _ _ _ _ _ _ _). set (p := if _ <? _ then _ else _). rewrite <-(phase_phase g _ ClosingA).
  assert (closed_a p → False) as Hp by (unfold p; by destruct (_ <? _)).
  assert (p = Done → False) as Hp' by (unfold p; by destruct (_ <? _)).
  apply set_phase_inv; [| |cbn [set_phase set_conn phases]; by rewrite upd_same|cbn [set_phase set_conn phases]; by rewrite upd_same|by intros ?%Hp|by intros ?%Hp'].
  - apply set_conn_inv; cbn [set_phase conns phases c outq sent inq cclosed]; rewrite ?upd_same, ?upd_other; try done.
    + by eexists.
    + rewrite Hg. exists (drop k chunk ++ inq (conns s (negb g))). by rewrite <-app_assoc, (app_assoc (take k chunk)), take_drop.
    + apply (i_copied s Hi (negb g)) || (intros Hc; pose proof (i_copied s Hi (negb g) Hc) as H; by rewrite negb_involutive in H).
    + by rewrite Ec.
  - intros Hc. cbn [set_phase set_conn conns]. rewrite upd_same, upd_other. cbn [c outq]. rewrite Hg. unfold p.
    destruct (Nat.ltb_spec k (length chunk)); cbn [held app].
    + by rewrite <-app_assoc, (app_assoc (take k chunk)), take_drop.
    + by rewrite take_ge, <-app_assoc by lia.
Qed.

(** Closing changes nothing else of a connection. *)
Lemma upd_close f i j : let c := upd f i (close_conn (f i)) j in
  sent c = sent (f j) ∧ outq c = outq (f j) ∧ inq c = inq (f j) ∧ (cclosed (f j) = true → cclosed c = true).
Proof. unfold upd. destruct i, j; cbn; done. Qed.

Lemma close_inv g s s' : inv s → cp_close g s = Some s' → inv s'.
Proof.
  intros Hi. unfold cp_close.
  assert (∀ (i : bool) p, phases s g = (if i then ClosingB else ClosingA) → p = (if i then Done else ClosingB) →
    inv (set_phase g p (set_conn i (close_conn (conns s i)) s))) as H.
  { intros i p Ep ->. destruct Hi as [I1 I2 I3 I4 I5 I6]. pose proof (upd_close (conns s) i) as Hu.
    split; cbn [set_phase set_conn conns phases].
    - intros h. destruct (Hu h) as (_ & -> & _), (Hu (negb h)) as (-> & _ & -> & _). unfold upd.
      destruct (eqb_spec h g) as [->|]; [by destruct i|apply I1].
    - intros h. destruct (Hu h) as (_ & -> & _), (Hu (negb h)) as (-> & _). apply I2.
    - intros Hc. exists g. unfold upd. rewrite eqb_reflx. by destruct i.
    - intros Hc. destruct i; [exists g; unfold upd; by rewrite eqb_reflx|].
      destruct (I4 Hc) as [h Hh]. exists h. unfold upd. destruct (eqb_spec h g) as [->|]; [congruence|done].
    - intros h. unfold upd. destruct i; cbn [eqb]; [|done].
      destruct (eqb_spec h g) as [->|]; [intros _; apply (I5 g); by rewrite Ep|apply (I5 h)].
    - intros h. unfold upd. destruct i; cbn [eqb]; [done|].
      destruct (eqb_spec h g) as [->|]; [done|apply (I6 h)]. }
  destruct (phases s g) eqn:Ep; try done; intros [= <-]; [by apply (H false)|by apply (H true)].
Qed.

Lemma peer_inv i ev s s' : inv s → peer_step i ev s = Some s' → inv s'.
Proof.
  intros Hi H. assert (cclosed (conns s i) = true → if i then ∃ g, phases s g = Done else ∃ g, closed_a (phases s g)) as Hcl.
  { destruct i; [apply (i_closed' s Hi)|apply (i_closed s Hi)]. }
  assert (copying (phases s (negb i)) → sent (conns s i) = outq (conns s (negb i)) ++ held (phases s (negb i)) ++ inq (conns s i)) as Hc.
  { intros Hc. pose proof (i_copied s Hi (negb i) Hc) as E. by rewrite negb_involutive in E. }
  destruct ev; cbn [peer_step] in H; [destruct (eof (conns s i)); [done|]|..]; injection H as <-;
    (apply set_conn_inv; cbn [outq sent inq cclosed]; try done; [apply (i_prefix s Hi)|..|apply (i_copied s Hi)]).
  - by exists b.
  - intros E%Hc. rewrite E. by rewrite !app_assoc.
Qed.

Lemma relay_step_inv s s' : step s s' → inv s → inv s'.
Proof. intros [g [n H|H|H]|i ev H] Hi; [by eapply read_inv|by eapply write_inv|by eapply close_inv|by eapply peer_inv]. Qed.

Lemma reachable_inv s : rtc step start s → inv s.
Proof.
  intros H. cut (∀ s0, rtc step s0 s → inv s0 → inv s); [intros Hc; apply (Hc start H relay_start_inv)|].
  clear H. intros s0 H. induction H as [s|s1 s2 s3 Hs _ IH]; [done|]. intros Hi. by apply IH, (relay_step_inv s1).
Qed.

(** In every interleaving with the peers and for every behaviour of the
    connections, what is written to a connection is a prefix of what the other
    one's peer sent: nothing is lost inside, repeated or reordered, and while a
    direction is copying every byte is either delivered or still to come.  No
    connection is closed before a direction ended, and both are when
    [Bidirectional] returns. *)
Theorem relay_faithful (s : relay) :
  rtc step start s →
  (∀ g, outq (conns s g) `prefix_of` sent (conns s (negb g))) ∧
  (∀ g, phases s g = Reading → sent (conns s (negb g)) = outq (conns s g) ++ inq (conns s (negb g))) ∧
  (∀ i, cclosed (conns s i) = true → ∃ g, ¬ copying (phases s g)) ∧
  (returned s → ∀ i, cclosed (conns s i) = true).
Proof.
  intros H. apply reachable_inv in H as [I1 I2 I3 I4 I5 I6]. split_and!.
  - exact I2.
  - intros g Hg. specialize (I1 g). rewrite Hg in I1. by apply I1.
  - intros [|] Hc; [destruct (I4 Hc) as [g Hg]|destruct (I3 Hc) as [g Hg]]; exists g; intros Hcp; by destruct (phases s g).
  - intros Hr [|]; [by apply (I6 false)|by apply (I5 false); rewrite (Hr false)].
Qed.

(** ** Returning *)

Definition rank (p : phase) : nat := match p with Reading | Writing _ => 3 | ClosingA => 2 | ClosingB => 1 | Done => 0 end.
Definition total (s : relay) : nat := rank (phases s false) + rank (phases s true).

(** A run of the whole system, with the number of steps [Bidirectional] took. *)
Inductive run : nat → relay → relay → Prop :=
| run_nil s : run 0 s s
| run_own n s s1 s2 : own_step s s1 → run n s1 s2 → run (S n) s s2
| run_peer n s i ev s1 s2 : peer_step i ev s = Some s1 → run n s1 s2 → run n s s2.

(** A step of a goroutine changes no other one's phase, and none of the peers
    changes any. *)
Lemma go_step_other g s s' : go_step g s s' → phases s' (negb g) = phases s (negb g).
Proof.
  intros [n H|H|H]; [unfold cp_read in H|unfold cp_write in H|unfold cp_close in H];
    repeat case_match; try discriminate; injection H as <-; cbn [set_phase set_conn phases]; apply upd_other.
Qed.
Lemma peer_step_phases i ev s s' : peer_step i ev s = Some s' → phases s' = phases s.
Proof. destruct ev; cbn [peer_step]; [destruct (eof _); [done|]|..]; by intros [= <-]. Qed.
Lemma peer_step_closed i ev s s' j : peer_step i ev s = Some s' → cclosed (conns s' j) = cclosed (conns s j).
Proof.
  destruct ev; cbn [peer_step]; [destruct (eof _); [done|]|..]; intros [= <-];
    cbn [set_conn conns]; unfold upd; destruct (eqb_spec j i) as [->|]; done.
Qed.

(** A goroutine that stopped copying takes only its closes. *)
Lemma go_step_closing g s s' : go_step g s s' → ¬ copying (phases s g) →
  cp_close g s = Some s' ∧ rank (phases s' g) < rank (phases s g).
Proof.
  intros [n H|H|H] Hc.
  - unfold cp_read in H. destruct (phases s g); done || by destruct Hc.
  - unfold cp_write in H. destruct (phases s g); done || by destruct Hc.
  - split; [done|]. unfold cp_close in H. destruct (phases s g); try done; injection H as <-;
      cbn [set_phase phases rank]; rewrite upd_same; cbn; lia.
Qed.

Lemma step_rank g s s' : step s s' → ¬ copying (phases s g) → rank (phases s' g) ≤ rank (phases s g).
Proof.
  intros [h H|i ev H] Hc; [|by rewrite (peer_step_phases _ _ _ _ H)]. destruct (decide (h = g)) as [->|Hne].
  - apply go_step_closing in H; [lia|done].
  - apply go_step_other in H. destruct h, g; cbn [negb] in H; by rewrite ?H.
Qed.

Lemma not_copying p : ¬ copying p ↔ rank p ≤ 2.
Proof. destruct p; cbn; split; intros; lia || tauto. Qed.

(** Once both connections are closed no goroutine blocks, and every step it takes
    brings the end nearer. *)
Definition shut (s : relay) : Prop := ∀ i, cclosed (conns s i) = true.

Lemma shut_moves g s : shut s → phases s g ≠ Done → ∃ s', go_step g s s'.
Proof.
  intros Hs Hd. destruct (phases s g) eqn:Ep; [| | | |done].
  - eexists. apply (gs_read _ _ _ 0). unfold cp_read. by rewrite Ep, Hs.
  - eexists. apply gs_write. unfold cp_write. by rewrite Ep, Hs.
  - eexists. apply gs_close. unfold cp_close. by rewrite Ep.
  - eexists. apply gs_close. unfold cp_close. by rewrite Ep.
Qed.

Lemma go_step_shut g s s' : go_step g s s' → shut s → shut s' ∧ rank (phases s' g) < rank (phases s g).
Proof.
  intros [n H|H|H] Hs.
  - unfold cp_read in H. destruct (phases s g) eqn:Ep; try done. rewrite Hs in H. injection H as <-.
    split; [done|]. cbn [set_phase phases]. rewrite upd_same. cbn. lia.
  - unfold cp_write in H. destruct (phases s g) eqn:Ep; try done. rewrite Hs in H. injection H as <-.
    split; [done|]. cbn [set_phase phases]. rewrite upd_same. cbn. lia.
  - split; [|apply go_step_closing; [by apply gs_close|intros Hc; unfold cp_close in H; by destruct (phases s g)]].
    intros i. unfold cp_close in H. destruct (phases s g); try done; injection H as <-; cbn [set_phase set_conn conns]; by apply upd_close.
Qed.

Lemma shut_run n s s' : run n s s' → shut s → shut s' ∧ n + total s' ≤ total s.
Proof.
  induction 1 as [s|n s s1 s2 [g Hg] _ IH|n s i ev s1 s2 Hp _ IH]; intros Hs; [by split|..].
  - destruct (go_step_shut _ _ _ Hg Hs) as [Hs1 Hlt]. pose proof (go_step_other _ _ _ Hg) as Ho.
    destruct (IH Hs1) as [? ?]. split; [done|]. unfold total in *. destruct g; cbn [negb] in Ho; rewrite Ho in *; lia.
  - destruct IH as [? ?]; [intros j; by rewrite (peer_step_closed _ _ _ _ _ Hp)|]. split; [done|].
    unfold total in *. by rewrite (peer_step_phases _ _ _ _ Hp) in *.
Qed.


(** ** A run *)

(** Peer [a] sends and ends; the chunk is delivered in two writes, and goroutine
    [true] closes both connections while the other one waits for [b]. *)
Definition run1 : option relay :=
  s ← peer_step false (PeerSend [x01; x02]) start; s ← cp_read true 7 s; s ← peer_step true (PeerTake 1) s;
  s ← cp_write true s; s ← peer_step true (PeerTake 5) s; s ← cp_write true s;
  s ← peer_step false PeerEnd s; s ← cp_read true 7 s; s ← cp_close true s; cp_close true s.
Definition state1 : relay := default start run1.

Lemma state1_reachable : rtc step start state1.
Proof.
  eapply rtc_l; [apply (st_peer _ _ false (PeerSend [x01; x02])); reflexivity|].
  eapply rtc_l; [apply (st_own _ _ true), (gs_read _ _ _ 7); reflexivity|].
  eapply rtc_l; [apply (st_peer _ _ true (PeerTake 1)); reflexivity|].
  eapply rtc_l; [apply (st_own _ _ true), gs_write; reflexivity|].
  eapply rtc_l; [apply (st_peer _ _ true (PeerTake 5)); reflexivity|].
  eapply rtc_l; [apply (st_own _ _ true), gs_write; reflexivity|].
  eapply rtc_l; [apply (st_peer _ _ false PeerEnd); reflexivity|].
  eapply rtc_l; [apply (st_own _ _ true), (gs_read _ _ _ 7); reflexivity|].
  eapply rtc_l; [apply (st_own _ _ true), gs_close; reflexivity|].
  apply rtc_once, (st_own _ _ true), gs_close. reflexivity.
Qed.

Lemma relay_faithful_witness :
  outq (conns state1 true) = [x01; x02] ∧ outq (conns state1 true) `prefix_of` sent (conns state1 false).
Proof. split; [reflexivity|]. exact (proj1 (relay_faithful state1 state1_reachable) true). Defined.

