(* ===== verification/Socks.v ===== *)
(** * [pkg/socks] and [pkg/proxyauth]: the SOCKS5 proxy.

    One connection is the bytes the client still sends, the bytes written to
    it, and how many more writes succeed; the whole exchange of [handle] is a
    program on it, with the calls to the dialer factory and the dialer in a
    log.  A read that finds too few bytes stands for end of file as well as for
    the handshake deadline.  The accept loop is a step function on its
    events. *)

From S2P Require Import Prelude ByteUtil GoNet.

(** ** [net.IP.String] *)

Definition hex_lower (v : Z) : byte := to_byte (if (v <? 10)%Z then 48 + v else 87 + v).
(** A 16-bit group without leading zeros. *)
Fixpoint hex_fuel (fuel : nat) (v : Z) : bytes :=
  match fuel with
  | O => []
  | S fuel => (if (v <? 16)%Z then [] else hex_fuel fuel (v / 16)) ++ [hex_lower (v mod 16)]
  end.
Definition appendHex (v : Z) : bytes := hex_fuel 4 v.

Definition v6_groups (ip : bytes) : list Z :=
  map (λ i, be_decode (take 2 (drop (2 * i) ip))) (seq 0 8).

(** Length of the run of zero groups at the front. *)
Fixpoint zero_run (gs : list Z) : nat :=
  match gs with
  | [] => 0
  | g :: gs => if (g =? 0)%Z then S (zero_run gs) else 0
  end.
(** The first longest run of at least two zero groups: start and length. *)
Fixpoint longest_zeros (gs : list Z) (i : nat) (best : nat * nat) : nat * nat :=
  match gs with
  | [] => best
  | _ :: gs' =>
      let l := zero_run gs in
      longest_zeros gs' (S i) (if (2 <=? l) && (best.2 <? l) then (i, l) else best)
  end.

Fixpoint join_colon (gs : list Z) : bytes :=
  match gs with
  | [] => []
  | [g] => appendHex g
  | g :: gs => appendHex g ++ [ch ":"] ++ join_colon gs
  end.

Definition v6_string (ip : bytes) : bytes :=
  let gs := v6_groups ip in
  match longest_zeros gs 0 (0, 0) with
  | (_, 0) => join_colon gs
  | (s, l) => join_colon (take s gs) ++ [ch ":"; ch ":"] ++ join_colon (drop (s + l) gs)
  end.

(** A 4- or 16-byte address; a mapped IPv4 address prints in dotted form. *)
Definition IP_String (ip : bytes) : bytes :=
  match To4 (Some ip) with
  | Some [a; b; c; d] => dotted a b c d
  | _ => v6_string ip
  end.

(** ** proxyauth.go *)

Definition IsoKey (user pass : bytes) : bytes :=
  if decide (user = [] ∧ pass = []) then [] else user ++ [x00] ++ pass.

(** ** Constants *)

Definition version5 : byte := x05.
Definition authVersion : byte := x01.
Definition methodNoAuth : byte := x00.
Definition methodUserPass : byte := x02.
Definition methodNoAcceptable : byte := xff.
Definition cmdConnect : byte := x01.
Definition atypIPv4 : byte := x01.
Definition atypDomain : byte := x03.
Definition atypIPv6 : byte := x04.
Definition replySuccess : byte := x00.
Definition replyGeneralFailure : byte := x01.
Definition replyCommandNotSupported : byte := x07.
Definition replyAddrTypeNotSupported : byte := x08.
Definition replyTTLExpired : byte := x06.
Definition authStatusSuccess : byte := x00.
Definition maxConcurrentConns : nat := 1024.
(** Durations in milliseconds. *)
Definition maxAcceptBackoff : Z := 1000.

(** ** One connection *)

Inductive dial_error := DeadlineExceeded | OtherDialError.

Inductive socks_error :=
| ReadErr (e : io_error)
| WriteErr
| BadVersion (v : byte)
| BadAuthVersion (v : byte)
| NoAcceptableMethod
| errUnsupportedAddrType
| UnsupportedCommand (cmd : byte)
| FactoryErr
| DialErr (e : dial_error).

(** What the server did besides reading and writing. *)
Inductive action :=
| CallFactory (user pass : bytes)
| CallDial (dialer : nat) (target : bytes)
| CallRelay (dialer : nat).

Record conn := mkConn {
  rd : bytes;            (* what the client still sends *)
  wr : bytes;            (* what was written to the client *)
  writes : option nat;   (* how many more writes succeed; [None]: all *)
  log : list action
}.

(** The caller's [DialerFactory] and the dialers it returns. *)
Record upstream := mkUpstream {
  Factory : bytes → bytes → option nat;
  DialContext : nat → bytes → option dial_error
}.

Definition io_ReadFull (n : nat) : prog conn socks_error bytes :=
  λ c, match ReadFull (rd c) n with
       | Ok (b, rest) => Some (Ok b, mkConn rest (wr c) (writes c) (log c))
       | Err e => Some (Err (ReadErr e), mkConn [] (wr c) (writes c) (log c))
       | Panic => Some (Panic, c)
       end.
Definition conn_Write (b : bytes) : prog conn socks_error unit :=
  λ c, match writes c with
       | Some 0 => Some (Err WriteErr, c)
       | Some (S n) => Some (Ok tt, mkConn (rd c) (wr c ++ b) (Some n) (log c))
       | None => Some (Ok tt, mkConn (rd c) (wr c ++ b) None (log c))
       end.
Definition act (a : action) : prog conn socks_error unit :=
  modify (λ c, mkConn (rd c) (wr c) (writes c) (log c ++ [a])).
(** [_, _ = conn.Write(...)]: the error is dropped. *)
Definition ignore_err {A} (m : prog conn socks_error A) : prog conn socks_error unit :=
  _ ← attempt m; mret tt.
Definition at_ (b : bytes) (i : nat) : prog conn socks_error byte := lift (idx b i).

Definition sendReply (code : byte) : prog conn socks_error unit :=
  conn_Write [version5; code; x00; atypIPv4; x00; x00; x00; x00; x00; x00].

Definition dialErrorReply (e : dial_error) : byte :=
  match e with DeadlineExceeded => replyTTLExpired | OtherDialError => replyGeneralFailure end.

Definition readUserPass : prog conn socks_error (bytes * bytes) :=
  header ← io_ReadFull 2;
  v ← at_ header 0;
  if negb (bool_decide (v = authVersion)) then throw (BadAuthVersion v) else
  ulen ← at_ header 1;
  uname ← io_ReadFull (Z.to_nat (bval ulen));
  plenB ← io_ReadFull 1;
  plen ← at_ plenB 0;
  passwd ← io_ReadFull (Z.to_nat (bval plen));
  _ ← conn_Write [authVersion; authStatusSuccess];
  mret (uname, passwd).

Definition negotiate : prog conn socks_error (bytes * bytes) :=
  header ← io_ReadFull 2;
  v ← at_ header 0;
  if negb (bool_decide (v = version5)) then throw (BadVersion v) else
  n ← at_ header 1;
  methods ← io_ReadFull (Z.to_nat (bval n));
  if contains_byte methods methodUserPass then
    _ ← conn_Write [version5; methodUserPass]; readUserPass
  else if contains_byte methods methodNoAuth then
    _ ← conn_Write [version5; methodNoAuth]; mret ([], [])
  else
    _ ← ignore_err (conn_Write [version5; methodNoAcceptable]); throw NoAcceptableMethod.

Definition readAddr (atyp : byte) : prog conn socks_error bytes :=
  if decide (atyp = atypIPv4) then buf ← io_ReadFull 4; mret (IP_String buf)
  else if decide (atyp = atypIPv6) then buf ← io_ReadFull 16; mret (IP_String buf)
  else if decide (atyp = atypDomain) then
    lenBuf ← io_ReadFull 1;
    n ← at_ lenBuf 0;
    io_ReadFull (Z.to_nat (bval n))
  else throw errUnsupportedAddrType.

Definition readRequest : prog conn socks_error (byte * bytes * bytes) :=
  header ← io_ReadFull 4;
  v ← at_ header 0;
  if negb (bool_decide (v = version5)) then throw (BadVersion v) else
  cmd ← at_ header 1;
  atyp ← at_ header 3;
  host ← readAddr atyp;
  portBuf ← io_ReadFull 2;
  mret (cmd, host, Itoa (BE_Uint16 portBuf)).

(** [handle]; the deferred closes end both connections when it returns. *)
Definition handle (up : upstream) : prog conn socks_error unit :=
  '(user, pass) ← negotiate;
  o ← attempt readRequest;
  match o with
  | Panic => panic
  | Err e =>
      match e with
      | errUnsupportedAddrType =>
          _ ← ignore_err (sendReply replyAddrTypeNotSupported); throw e
      | _ => throw e
      end
  | Ok (cmd, host, port) =>
      if negb (bool_decide (cmd = cmdConnect)) then
        _ ← ignore_err (sendReply replyCommandNotSupported); throw (UnsupportedCommand cmd)
      else
        _ ← act (CallFactory user pass);
        match Factory up user pass with
        | None => _ ← ignore_err (sendReply replyGeneralFailure); throw FactoryErr
        | Some dialer =>
            let target := JoinHostPort host port in
            _ ← act (CallDial dialer target);
            match DialContext up dialer target with
            | Some e => _ ← ignore_err (sendReply (dialErrorReply e)); throw (DialErr e)
            | None => _ ← sendReply replySuccess; act (CallRelay dialer)
            end
        end
  end.

(** ** The server's limits *)

Definition second_ms : Z := 1000.
Definition handshakeTimeout : Z := 30 * second_ms.

(** [Server]: the factory is the environment's; the test hooks are zero unless a
    test sets them. *)
Record Server := mkServer { testHandshakeTimeout : Z; testMaxConns : Z }.
Definition hsTimeout (s : Server) : Z :=
  if (0 <? testHandshakeTimeout s)%Z then testHandshakeTimeout s else handshakeTimeout.
Definition maxConns (s : Server) : nat :=
  if (0 <? testMaxConns s)%Z then Z.to_nat (testMaxConns s) else maxConcurrentConns.

(** ** The accept loop *)

Inductive errno := ECONNABORTED | ECONNRESET | EMFILE | ENFILE | ENOBUFS | ENOMEM | OtherErrno.

Definition isTemporaryAcceptErr (e : errno) : bool :=
  match e with
  | ECONNABORTED | ECONNRESET | EMFILE | ENFILE | ENOBUFS | ENOMEM => true
  | OtherErrno => false
  end.

(** What happens at the loop: an [Accept] error (with whether the context was
    done by then), a connection for which a slot is free, or a context that ends
    while waiting for a slot or for the backoff; and a connection's goroutine
    finishing. *)
Inductive serve_event :=
| AcceptErr (e : errno) (ctxDone : bool)
| BackoffCancelled
| AcceptConn
| SlotCancelled
| ConnDone.

Inductive serve_result := Running | StoppedClean | StoppedErr (e : errno).

Record serve := mkServe { backoff : Z; inflight : nat; result : serve_result }.

Definition next_backoff (b : Z) : Z :=
  if (b =? 0)%Z then 5 else if (maxAcceptBackoff <? b * 2)%Z then maxAcceptBackoff else (b * 2)%Z.

(** [None]: the event cannot happen in that state. *)
Definition serve_step (maxConns : nat) (s : serve) (ev : serve_event) : option serve :=
  match result s, ev with
  | _, ConnDone =>
      match inflight s with
      | O => None
      | S n => Some (mkServe (backoff s) n (result s))
      end
  | Running, AcceptErr e ctxDone =>
      if ctxDone : bool then Some (mkServe (backoff s) (inflight s) StoppedClean)
      else if isTemporaryAcceptErr e
      then Some (mkServe (next_backoff (backoff s)) (inflight s) Running)
      else Some (mkServe (backoff s) (inflight s) (StoppedErr e))
  | Running, BackoffCancelled => Some (mkServe (backoff s) (inflight s) StoppedClean)
  | Running, AcceptConn =>
      if inflight s <? maxConns then Some (mkServe 0 (S (inflight s)) Running) else None
  | Running, SlotCancelled => Some (mkServe 0 (inflight s) StoppedClean)
  | _, _ => None
  end.

(** ** Reasoning about one connection *)

Definition set_rd (b : bytes) (c : conn) : conn := mkConn b (wr c) (writes c) (log c).

Lemma io_ReadFull_app c p rest n :
  rd c = p ++ rest → length p = n → io_ReadFull n c = Some (Ok p, set_rd rest c).
Proof. intros H Hn. unfold io_ReadFull. by rewrite H, ReadFull_app. Qed.

Lemma returns_read n c :
  returns (io_ReadFull n) c (λ o c', log c' = log c ∧ wr c' = wr c ∧ ∀ b, o = Ok b → length b = n).
Proof.
  unfold returns, io_ReadFull. destruct (ReadFull (rd c) n) as [[b rest]|e|] eqn:E.
  - eexists _, _. split; [done|]. split; [done|]. apply ReadFull_Ok in E as [_ ?]. naive_solver.
  - eexists _, _. split; [done|]. split; [done|]. naive_solver.
  - unfold ReadFull in E. destruct (n <=? length (rd c)); [done|]. by destruct (rd c).
Qed.

Lemma returns_at b i c : i < length b →
  returns (at_ b i) c (λ o c', c' = c ∧ ∃ x, o = Ok x ∧ b !! i = Some x).
Proof.
  intros H. destruct (idx_in_range (E:=socks_error) b i H) as [x Hx]. unfold at_, lift.
  exists (Ok x), c. rewrite Hx. apply idx_Ok in Hx. naive_solver.
Qed.

(** A write appends all of its bytes or fails and appends nothing. *)
Lemma returns_write b c :
  returns (conn_Write b) c (λ o c', log c' = log c ∧ rd c' = rd c ∧
    ((o = Ok tt ∧ wr c' = wr c ++ b) ∨ (o = Err WriteErr ∧ wr c' = wr c))).
Proof.
  unfold returns, conn_Write. destruct (writes c) as [[|n]|]; eexists _, _; (split; [done|]); (split; [done|]); naive_solver.
Qed.

Lemma returns_ignore_write b c :
  returns (ignore_err (conn_Write b)) c (λ o c', o = Ok tt ∧ log c' = log c ∧
    (wr c' = wr c ++ b ∨ wr c' = wr c)).
Proof.
  unfold ignore_err. destruct (returns_write b c) as (o & c' & Hw & _ & Hl & _ & H).
  exists (Ok tt), c'. rewrite prog_bind_eq. unfold attempt. rewrite Hw. naive_solver.
Qed.

(** What a call leaves alone: it returns, dials nothing, and writes at most the
    given replies. *)
Definition quiet {A} (m : prog conn socks_error A) (replies : list bytes) : Prop :=
  ∀ c, returns m c (λ _ c', log c' = log c ∧ ∃ r, r ∈ replies ∧ wr c' = wr c ++ r).

Lemma quiet_weaken {A} (m : prog conn socks_error A) rs rs' : quiet m rs → rs ⊆ rs' → quiet m rs'.
Proof.
  intros H Hs c. eapply returns_weaken; [apply H|]. intros o c' _ (? & r & ? & ?). split; [done|].
  exists r. split; [by apply Hs|done].
Qed.

Section Quiet.
Context {B : Type}.
Implicit Types (f : bytes → prog conn socks_error B) (rs : list bytes).

Lemma quiet_throw e rs : [] ∈ rs → quiet (throw e : prog conn socks_error B) rs.
Proof. intros H c. apply returns_throw. split; [done|]. exists []. by rewrite app_nil_r. Qed.
Lemma quiet_ret (a : B) rs : [] ∈ rs → quiet (mret a) rs.
Proof. intros H c. apply returns_ret. split; [done|]. exists []. by rewrite app_nil_r. Qed.

Lemma quiet_read n f rs :
  [] ∈ rs → (∀ b, length b = n → quiet (f b) rs) → quiet (io_ReadFull n ≫= f) rs.
Proof.
  intros Hnil Hf c. apply returns_bind. eapply returns_weaken; [apply returns_read|].
  intros o c1 Hp (Hl & Hw & Hb). destruct o as [b|e|]; [|split; [done|]; exists []; by rewrite app_nil_r|done].
  eapply returns_weaken; [apply (Hf b (Hb b eq_refl))|]. intros o2 c2 _ (? & r & ? & ?).
  split; [congruence|]. exists r. split; [done|congruence].
Qed.

Lemma quiet_at b i (f : byte → prog conn socks_error B) rs :
  i < length b → (∀ x, quiet (f x) rs) → quiet (at_ b i ≫= f) rs.
Proof.
  intros Hi Hf c. apply returns_bind. eapply returns_weaken; [by apply returns_at|].
  intros o c1 _ (-> & x & -> & _). apply Hf.
Qed.

Lemma quiet_write b (f : unit → prog conn socks_error B) rs :
  [] ∈ rs → quiet (f tt) rs → quiet (conn_Write b ≫= f) ([] :: map (app b) rs).
Proof.
  intros Hnil Hf c. apply returns_bind. eapply returns_weaken; [apply returns_write|].
  intros o c1 _ (Hl & _ & [[-> Hw]|[-> Hw]]).
  - eapply returns_weaken; [apply Hf|]. intros o2 c2 _ (Hl2 & r & Hr & Hw2). split; [congruence|].
    exists (b ++ r). split; [right; apply list_elem_of_fmap; by exists r|]. by rewrite Hw2, Hw, app_assoc.
  - split; [done|]. exists []. split; [left|]. by rewrite app_nil_r.
Qed.

Lemma quiet_ignore_write b (m : prog conn socks_error B) :
  quiet m [[]] → quiet (ignore_err (conn_Write b) ≫= λ _, m) [[]; b].
Proof.
  intros Hm c. apply returns_bind. eapply returns_weaken; [apply returns_ignore_write|].
  intros o c1 _ (-> & Hl & Hw). eapply returns_weaken; [apply Hm|].
  intros o2 c2 _ (Hl2 & r & Hr & Hw2). apply list_elem_of_singleton in Hr as ->.
  rewrite app_nil_r in Hw2. split; [congruence|]. destruct Hw as [Hw|Hw].
  - exists b. split; [set_solver|congruence].
  - exists []. split; [set_solver|]. rewrite app_nil_r. congruence.
Qed.
End Quiet.

Lemma quiet_ReadFull n rs : [] ∈ rs → quiet (io_ReadFull n) rs.
Proof.
  intros H c. eapply returns_weaken; [apply returns_read|]. intros o c' _ (? & ? & _). split; [done|].
  exists []. by rewrite app_nil_r.
Qed.

(** What the server may write before the request. *)
Definition greetings : list bytes :=
  [[]; [version5; methodUserPass]; [version5; methodUserPass; authVersion; authStatusSuccess];
   [version5; methodNoAuth]; [version5; methodNoAcceptable]].
Definition reply_bytes (code : byte) : bytes :=
  [version5; code; x00; atypIPv4; x00; x00; x00; x00; x00; x00].

Lemma readUserPass_quiet : quiet readUserPass [[]; [authVersion; authStatusSuccess]].
Proof.
  unfold readUserPass. apply quiet_read; [set_solver|]. intros h Hh.
  apply quiet_at; [lia|]. intros v. destruct (negb _); [apply quiet_throw; set_solver|].
  apply quiet_at; [lia|]. intros ul. apply quiet_read; [set_solver|]. intros un _.
  apply quiet_read; [set_solver|]. intros pb Hpb. apply quiet_at; [lia|]. intros pl.
  apply quiet_read; [set_solver|]. intros pw _.
  eapply quiet_weaken; [apply (quiet_write _ _ [[]]); [set_solver|apply quiet_ret; set_solver]|].
  simpl. set_solver.
Qed.

Lemma negotiate_quiet : quiet negotiate greetings.
Proof.
  unfold negotiate. assert ([] ∈ greetings) as Hnil by (unfold greetings; set_solver).
  apply quiet_read; [done|]. intros h Hh. apply quiet_at; [lia|]. intros v.
  destruct (negb _); [by apply quiet_throw|]. apply quiet_at; [lia|]. intros n.
  apply quiet_read; [done|]. intros ms _. destruct (contains_byte ms methodUserPass).
  - eapply quiet_weaken; [eapply (quiet_write _ (λ _, readUserPass)); [|apply readUserPass_quiet]; set_solver|].
    unfold greetings. simpl. set_solver.
  - destruct (contains_byte ms methodNoAuth).
    + eapply quiet_weaken; [eapply (quiet_write _ _ [[]]); [set_solver|apply quiet_ret; set_solver]|].
      unfold greetings. simpl. set_solver.
    + eapply quiet_weaken; [apply quiet_ignore_write, quiet_throw; set_solver|].
      unfold greetings. set_solver.
Qed.

Lemma readRequest_quiet : quiet readRequest [[]].
Proof.
  unfold readRequest. apply quiet_read; [set_solver|]. intros h Hh. apply quiet_at; [lia|]. intros v.
  destruct (negb _); [apply quiet_throw; set_solver|]. apply quiet_at; [lia|]. intros cmd.
  apply quiet_at; [lia|]. intros atyp.
  assert (∀ host : bytes, quiet (portBuf ← io_ReadFull 2; mret (cmd, host, Itoa (BE_Uint16 portBuf))) [[]]) as Hport.
  { intros host. apply quiet_read; [set_solver|]. intros pb _. apply quiet_ret. set_solver. }
  intros c. apply returns_bind.
  assert (quiet (readAddr atyp) [[]]) as Ha.
  { unfold readAddr. case_decide; [|case_decide; [|case_decide]].
    - apply quiet_read; [set_solver|]. intros; apply quiet_ret; set_solver.
    - apply quiet_read; [set_solver|]. intros; apply quiet_ret; set_solver.
    - apply quiet_read; [set_solver|]. intros lb Hlb. apply quiet_at; [lia|]. intros n.
      apply quiet_ReadFull. set_solver.
    - apply quiet_throw. set_solver. }
  eapply returns_weaken; [apply Ha|]. intros o c1 Hp (Hl & r & Hr & Hw).
  destruct o as [host|e|]; [|by split; [|exists r]|done].
  eapply returns_weaken; [apply Hport|]. intros o2 c2 _ (Hl2 & r2 & Hr2 & Hw2).
  apply list_elem_of_singleton in Hr, Hr2. subst r r2. rewrite app_nil_r in Hw, Hw2.
  split; [congruence|]. exists []. rewrite app_nil_r. split; [set_solver|congruence].
Qed.

(** ** The exchange *)

(** How the log of a connection and its outcome fit together. *)
Definition log_ok (up : upstream) (o : outcome socks_error unit) (l : list action) : Prop :=
  match l with
  | [] => o ≠ Ok tt
  | [CallFactory u p] => Factory up u p = None ∧ o = Err FactoryErr
  | [CallFactory u p; CallDial d t] =>
      Factory up u p = Some d ∧
      ((∃ e, DialContext up d t = Some e ∧ o = Err (DialErr e)) ∨
       (DialContext up d t = None ∧ o = Err WriteErr))
  | [CallFactory u p; CallDial d t; CallRelay d'] =>
      Factory up u p = Some d ∧ DialContext up d t = None ∧ d' = d ∧ o = Ok tt
  | _ => False
  end.

Definition one_reply (r : bytes) : Prop := r = [] ∨ ∃ code, r = reply_bytes code.

(** A refusal: at most one reply, then the error. *)
Lemma refuse_spec code e c :
  returns (ignore_err (sendReply code) ≫= λ _, throw e : prog conn socks_error unit) c
    (λ o c', o = Err e ∧ log c' = log c ∧ ∃ r, one_reply r ∧ wr c' = wr c ++ r).
Proof.
  apply returns_bind. eapply returns_weaken; [apply returns_ignore_write|].
  intros o c1 _ (-> & Hl & Hw). apply returns_throw. split; [done|]. split; [done|].
  destruct Hw as [Hw|Hw]; [exists (reply_bytes code); split; [right; by eexists|done]|].
  exists []. split; [by left|]. by rewrite app_nil_r.
Qed.

(** The part of [handle] after a CONNECT request. *)
Definition connect (up : upstream) (user pass host port : bytes) : prog conn socks_error unit :=
  _ ← act (CallFactory user pass);
  match Factory up user pass with
  | None => _ ← ignore_err (sendReply replyGeneralFailure); throw FactoryErr
  | Some dialer =>
      let target := JoinHostPort host port in
      _ ← act (CallDial dialer target);
      match DialContext up dialer target with
      | Some e => _ ← ignore_err (sendReply (dialErrorReply e)); throw (DialErr e)
      | None => _ ← sendReply replySuccess; act (CallRelay dialer)
      end
  end.

Lemma connect_spec up user pass host port c : log c = [] →
  returns (connect up user pass host port) c
    (λ o c', log_ok up o (log c') ∧ ∃ r, one_reply r ∧ wr c' = wr c ++ r).
Proof.
  intros Hlog. unfold connect. apply returns_bind. eexists (Ok tt), _. split; [reflexivity|]. split; [done|].
  rewrite Hlog. cbn [app]. destruct (Factory up user pass) as [d|] eqn:Hf.
  2: { eapply returns_weaken; [apply refuse_spec|]. intros o c' _ (-> & Hl & Hr). cbn [log wr] in *.
       rewrite Hl. done. }
  cbv zeta. apply returns_bind. eexists (Ok tt), _. split; [reflexivity|]. split; [done|].
  cbn [log rd wr writes app]. set (t := JoinHostPort host port).
  destruct (DialContext up d t) as [e|] eqn:Hd.
  - eapply returns_weaken; [apply refuse_spec|]. intros o c' _ (-> & Hl & Hr). cbn [log wr] in *.
    rewrite Hl. split; [|done]. split; [done|]. left. by exists e.
  - apply returns_bind. eapply returns_weaken; [apply returns_write|]. cbn [log rd wr].
    intros o c1 _ (Hl & _ & [[-> Hw]|[-> Hw]]).
    + eexists (Ok tt), _. split; [reflexivity|]. split; [done|]. cbn [log wr]. rewrite Hl. split; [done|].
      exists (reply_bytes replySuccess). split; [right; by eexists|done].
    + rewrite Hl. split; [split; [done|]; by right|]. exists []. split; [by left|]. by rewrite app_nil_r.
Qed.

(** C38: whatever a client sends, [handle] returns without a panic; it writes a
    method reply, at most one authentication reply and at most one SOCKS reply,
    whose bind address is always zero; it calls the factory at most once and
    only then dials, at most once, with the dialer it was given; and it relays
    exactly when the dial and the reply succeeded. *)
Theorem socks_handle_safe (up : upstream) (c : conn) :
  log c = [] → wr c = [] →
  ∃ o c', handle up c = Some (o, c') ∧ o ≠ Panic ∧ log_ok up o (log c') ∧
    ∃ g r, g ∈ greetings ∧ one_reply r ∧ wr c' = g ++ r.
Proof.
  intros Hlog Hwr.
  change (returns (handle up) c (λ o c', log_ok up o (log c') ∧
    ∃ g r, g ∈ greetings ∧ one_reply r ∧ wr c' = g ++ r)).
  unfold handle. apply returns_bind. eapply returns_weaken; [apply negotiate_quiet|].
  intros o c1 Hp (Hl1 & g & Hg & Hw1). rewrite Hlog in Hl1. rewrite Hwr in Hw1. simpl in Hw1.
  destruct o as [[user pass]|e|]; [| |done].
  2: { rewrite Hl1. split; [done|]. exists g, []. split; [done|]. split; [by left|]. by rewrite app_nil_r. }
  apply returns_bind.
  destruct (readRequest_quiet c1) as (o2 & c2 & Hrun & Hp2 & Hl2 & r2 & Hr2 & Hw2).
  apply list_elem_of_singleton in Hr2 as ->. rewrite app_nil_r, Hw1 in Hw2. rewrite Hl1 in Hl2.
  exists (Ok o2), c2. unfold attempt. rewrite Hrun. split; [done|]. split; [done|].
  assert (∀ e, e ≠ errUnsupportedAddrType → returns (throw e : prog conn socks_error unit) c2 (λ o c', log_ok up o (log c') ∧
    ∃ g r, g ∈ greetings ∧ one_reply r ∧ wr c' = g ++ r)) as Hthrow.
  { intros e _. apply returns_throw. rewrite Hl2. split; [done|]. exists g, []. split; [done|].
    split; [by left|]. by rewrite app_nil_r. }
  assert (∀ code e, returns (ignore_err (sendReply code) ≫= λ _, throw e : prog conn socks_error unit) c2
    (λ o c', log_ok up o (log c') ∧ ∃ g r, g ∈ greetings ∧ one_reply r ∧ wr c' = g ++ r)) as Hrefuse.
  { intros code e. eapply returns_weaken; [apply refuse_spec|]. intros o c' _ (-> & Hl & r & Hr & Hw).
    rewrite Hl, Hl2. split; [done|]. exists g, r. split; [done|]. split; [done|]. by rewrite Hw, Hw2. }
  destruct o2 as [[[cmd host] port]|e|]; [| |done].
  - destruct (negb _); [apply Hrefuse|].
    change (returns (connect up user pass host port) c2 (λ o c', log_ok up o (log c') ∧
      ∃ g r, g ∈ greetings ∧ one_reply r ∧ wr c' = g ++ r)).
    eapply returns_weaken; [by apply connect_spec|]. intros o c' _ (Hlo & r & Hr & Hw).
    split; [done|]. exists g, r. split; [done|]. split; [done|]. by rewrite Hw, Hw2.
  - destruct e; first [apply Hthrow; done | apply Hrefuse].
Qed.

(** *** A well-formed client *)

Definition blen (b : bytes) : byte := to_byte (Z.of_nat (length b)).
Lemma blen_val b : length b < 256 → Z.to_nat (bval (blen b)) = length b.
Proof. intros H. unfold blen. rewrite bval_to_byte, Z.mod_small by lia. lia. Qed.

(** RFC 1928 and 1929: what such a client sends. *)
Definition client_hello (methods : bytes) : bytes := [version5; blen methods] ++ methods.
Definition client_auth (user pass : bytes) : bytes :=
  [authVersion; blen user] ++ user ++ [blen pass] ++ pass.
Definition client_connect (host : bytes) (port : Z) : bytes :=
  [version5; cmdConnect; x00; atypDomain; blen host] ++ host ++ be_encode 2 port.

Lemma read_step {B} n (f : bytes → prog conn socks_error B) p rest w k l :
  length p = n → (io_ReadFull n ≫= f) (mkConn (p ++ rest) w k l) = f p (mkConn rest w k l).
Proof. intros H. rewrite prog_bind_eq. by rewrite (io_ReadFull_app _ p rest). Qed.
Lemma at_step {B} b i x (f : byte → prog conn socks_error B) c :
  b !! i = Some x → (at_ b i ≫= f) c = f x c.
Proof. intros H. rewrite prog_bind_eq. unfold at_, lift, idx. by rewrite H. Qed.

Lemma readUserPass_run user pass rest w l :
  length user < 256 → length pass < 256 →
  readUserPass (mkConn (client_auth user pass ++ rest) w None l) =
  Some (Ok (user, pass), mkConn rest (w ++ [authVersion; authStatusSuccess]) None l).
Proof.
  intros Hu Hp. unfold readUserPass, client_auth. rewrite <-!app_assoc.
  rewrite (read_step 2) by done. rewrite (at_step _ 0 authVersion) by done.
  rewrite bool_decide_true by done. cbn [negb]. rewrite (at_step _ 1 (blen user)) by done.
  rewrite (read_step _ _ user) by (by rewrite blen_val). rewrite (read_step 1 _ [blen pass]) by done.
  rewrite (at_step _ 0 (blen pass)) by done. rewrite (read_step _ _ pass) by (by rewrite blen_val). done.
Qed.

Lemma readRequest_run host port rest w l : length host < 256 → (0 ≤ port < 65536)%Z →
  readRequest (mkConn (client_connect host port ++ rest) w None l) =
  Some (Ok (cmdConnect, host, Itoa port), mkConn rest w None l).
Proof.
  intros Hh Hp. unfold readRequest, client_connect. rewrite <-!app_assoc.
  change ([version5; cmdConnect; x00; atypDomain; blen host] ++ host ++ be_encode 2 port ++ rest)
    with ([version5; cmdConnect; x00; atypDomain] ++ [blen host] ++ host ++ be_encode 2 port ++ rest).
  rewrite (read_step 4) by done. rewrite (at_step _ 0 version5) by done.
  rewrite bool_decide_true by done. cbn [negb]. rewrite (at_step _ 1 cmdConnect), (at_step _ 3 atypDomain) by done.
  rewrite prog_bind_eq. unfold readAddr.
  rewrite (decide_False (P := atypDomain = atypIPv4)), (decide_False (P := atypDomain = atypIPv6)),
    (decide_True (P := atypDomain = atypDomain)) by done.
  rewrite (read_step 1 _ [blen host]) by done. rewrite (at_step _ 0 (blen host)) by done.
  rewrite (io_ReadFull_app _ host (be_encode 2 port ++ rest)) by (done || by rewrite blen_val).
  unfold set_rd. cbn [wr writes log].
  rewrite (read_step 2 _ (be_encode 2 port)) by apply length_be_encode.
  unfold BE_Uint16. rewrite take_ge by (rewrite length_be_encode; lia).
  by rewrite be_decode_encode, Z.mod_small by lia.
Qed.

(** A client that offers user/password, authenticates and asks to connect to
    a domain is served: the factory gets its credentials, the dialer gets the
    domain byte for byte as the client sent it (it is never resolved or
    rewritten) with the port, the replies are the ones RFC 1928 and 1929
    prescribe, and what the client sends next is left for the relay. *)
Theorem socks_connect_domain (up : upstream) (methods user pass host rest : bytes) (port : Z) (d : nat) :
  length methods < 256 → contains_byte methods methodUserPass = true →
  length user < 256 → length pass < 256 → length host < 256 → (0 ≤ port < 65536)%Z →
  Factory up user pass = Some d → DialContext up d (JoinHostPort host (Itoa port)) = None →
  handle up (mkConn (client_hello methods ++ client_auth user pass ++ client_connect host port ++ rest)
               [] None []) =
  Some (Ok tt, mkConn rest
    ([version5; methodUserPass] ++ [authVersion; authStatusSuccess] ++ reply_bytes replySuccess) None
    [CallFactory user pass; CallDial d (JoinHostPort host (Itoa port)); CallRelay d]).
Proof.
  intros Hm Hc Hu Hp Hh Hport Hf Hd. unfold handle. rewrite prog_bind_eq. unfold negotiate, client_hello.
  rewrite <-!app_assoc. rewrite (read_step 2) by done. rewrite (at_step _ 0 version5) by done.
  rewrite bool_decide_true by done. cbn [negb]. rewrite (at_step _ 1 (blen methods)) by done.
  rewrite (read_step _ _ methods) by (by rewrite blen_val). rewrite Hc.
  rewrite prog_bind_eq. unfold conn_Write at 1. cbn [writes rd wr log app].
  rewrite readUserPass_run by done. rewrite prog_bind_eq. unfold attempt.
  rewrite readRequest_run by done. rewrite bool_decide_true by done. cbn [negb].
  rewrite prog_bind_eq. unfold act at 1, modify at 1. rewrite Hf. cbv zeta.
  rewrite prog_bind_eq. unfold act at 1, modify at 1. rewrite Hd. reflexivity.
Qed.

(** ** Isolation keys *)

(** The NUL byte separates the pair only when it does not occur in the user. *)
Lemma IsoKey_injective u p u' p' :
  x00 ∉ u → x00 ∉ u' → IsoKey u p = IsoKey u' p' → u = u' ∧ p = p'.
Proof.
  intros Hu Hu'. unfold IsoKey.
  case_decide as E1; case_decide as E2; [naive_solver|by destruct u'|by destruct u|].
  revert u' Hu' E2. induction u as [|b u IH]; intros [|b' u'] Hu' E2; simpl.
  - intros [= ->]. done.
  - intros [= <- _]. set_solver.
  - intros [= -> _]. set_solver.
  - intros H. injection H as -> H. assert (u = u' ∧ p = p') as [-> ->]; [|done].
    clear E1 E2 IH. apply not_elem_of_cons in Hu as [_ Hu], Hu' as [_ Hu'].
    revert u' Hu' H. induction u as [|c u IH]; intros [|c' u'] Hu' H; simpl in H.
    + by injection H as ->.
    + injection H as <- _. set_solver.
    + injection H as -> _. set_solver.
    + injection H as -> H. apply not_elem_of_cons in Hu as [_ Hu], Hu' as [_ Hu'].
      destruct (IH Hu u' Hu' H) as [-> ->]. done.
Qed.

(** Two different SOCKS identities can share an isolation key.  The server
    reads any credentials a client sends, NUL bytes included, so for every
    [a], [b] and [c] the pairs [(a NUL b, c)] and [(a, b NUL c)] are both
    accepted, differ, and are mapped to the same key. *)
Theorem isolation_key_collision (a b c rest : bytes) :
  length a + length b < 255 → length b + length c < 255 →
  let u1 := a ++ [x00] ++ b in let p2 := b ++ [x00] ++ c in
  (u1, c) ≠ (a, p2) ∧ IsoKey u1 c = IsoKey a p2 ∧
  (∃ s, readUserPass (mkConn (client_auth u1 c ++ rest) [] None []) = Some (Ok (u1, c), s)) ∧
  (∃ s, readUserPass (mkConn (client_auth a p2 ++ rest) [] None []) = Some (Ok (a, p2), s)).
Proof.
  intros H1 H2. cbv zeta. split_and!.
  - intros H. injection H as H _. apply (f_equal length) in H. rewrite !length_app in H. simpl in H. lia.
  - unfold IsoKey. rewrite !decide_False; [by rewrite <-!app_assoc| |].
    + intros [_ H]. by destruct b.
    + intros [H _]. by destruct a.
  - eexists. apply readUserPass_run; rewrite ?length_app; simpl; lia.
  - eexists. apply readUserPass_run; rewrite ?length_app; simpl; lia.
Qed.

(** ** The accept loop *)

Fixpoint serve_run (maxConns : nat) (s : serve) (evs : list serve_event) : option serve :=
  match evs with
  | [] => Some s
  | ev :: evs => s ← serve_step maxConns s ev; serve_run maxConns s evs
  end.

Definition serve_inv (maxConns : nat) (s : serve) : Prop :=
  inflight s ≤ maxConns ∧ (0 ≤ backoff s ≤ maxAcceptBackoff)%Z.

Lemma serve_step_inv n s ev s' : serve_step n s ev = Some s' → serve_inv n s → serve_inv n s'.
Proof.
  intros H [Hi Hb]. unfold maxAcceptBackoff in *.
  assert (0 ≤ next_backoff (backoff s) ≤ 1000)%Z as Hn.
  { unfold next_backoff, maxAcceptBackoff. repeat case_match; bools; lia. }
  unfold serve_step in H. unfold serve_inv, maxAcceptBackoff.
  destruct (result s), ev; try done;
    repeat match type of H with context [match ?x with _ => _ end] => destruct x eqn:? end;
    try discriminate H; injection H as <-; cbn [inflight backoff]; bools; (split; [lia|]); lia.
Qed.

(** The accept loop never has more connections in flight than its limit and
    never waits longer than a second before it accepts again; a temporary
    error alone never stops it. *)
Theorem serve_bounded (maxConns : nat) (evs : list serve_event) (s : serve) :
  serve_run maxConns (mkServe 0 0 Running) evs = Some s →
  inflight s ≤ maxConns ∧ (0 ≤ backoff s ≤ maxAcceptBackoff)%Z ∧
  (∀ e, result s = StoppedErr e → isTemporaryAcceptErr e = false).
Proof.
  assert (∀ evs s0 s, serve_run maxConns s0 evs = Some s → serve_inv maxConns s0 →
    (∀ e, result s0 = StoppedErr e → isTemporaryAcceptErr e = false) →
    serve_inv maxConns s ∧ ∀ e, result s = StoppedErr e → isTemporaryAcceptErr e = false) as Hrun.
  { clear. induction evs as [|ev evs IH]; intros s0 s; simpl; [intros [= <-]; done|].
    destruct (serve_step maxConns s0 ev) as [s1|] eqn:E; [|done]. cbn [mbind option_bind].
    intros Hr Hi He. apply (IH s1 s Hr); [by eapply serve_step_inv|].
    unfold serve_step in E. destruct (result s0) eqn:Er, ev; try done;
      repeat match type of E with context [match ?x with _ => _ end] => destruct x eqn:? end;
      try discriminate E; injection E as <-; cbn [result]; intros e2 H2; try discriminate H2;
      try (by apply He); injection H2 as <-; done. }
  intros H. destruct (Hrun _ _ _ H) as [[? ?] ?]; [split; simpl; [lia|unfold maxAcceptBackoff; lia]|done|done].
Qed.
