(* ===== verification/SocksExamples.v ===== *)
(** * Concrete SOCKS sessions: the hypotheses of the theorems of [Socks] can
    hold. *)

From S2P Require Import Prelude ByteUtil GoNet Socks.

(** A factory with one dialer per user, and dialers that reach everything. *)
Definition up0 : upstream :=
  {| Factory := λ user _, Some (length user); DialContext := λ _ _, None |}.
Definition torproject : bytes := go"torproject.org".
Definition alice : bytes := go"alice".

(** The client sends the greeting, its credentials and a CONNECT request. *)
Definition session : bytes :=
  client_hello [methodNoAuth; methodUserPass] ++ client_auth alice go"pw" ++ client_connect torproject 443.

Lemma socks_handle_safe_witness :
  ∃ o c', handle up0 (mkConn session [] (Some 2) []) = Some (o, c') ∧ o ≠ Panic ∧
    log_ok up0 o (log c') ∧ ∃ g r, g ∈ greetings ∧ one_reply r ∧ wr c' = g ++ r.
Proof. exact (socks_handle_safe up0 (mkConn session [] (Some 2) []) eq_refl eq_refl). Defined.

Lemma socks_connect_domain_witness :
  handle up0 (mkConn (session ++ [x2a]) [] None []) =
  Some (Ok tt, mkConn [x2a]
    ([version5; methodUserPass] ++ [authVersion; authStatusSuccess] ++ reply_bytes replySuccess) None
    [CallFactory alice go"pw"; CallDial 5 go"torproject.org:443"; CallRelay 5]).
Proof.
  exact (socks_connect_domain up0 [methodNoAuth; methodUserPass] alice go"pw" torproject [x2a] 443 5
    ltac:(simpl; lia) eq_refl ltac:(simpl; lia) ltac:(simpl; lia) ltac:(simpl; lia) ltac:(lia) eq_refl eq_refl).
Defined.

Lemma isolation_key_collision_witness :
  (go"a" ++ [x00] ++ go"b", go"c") ≠ (go"a", go"b" ++ [x00] ++ go"c") ∧
  IsoKey (go"a" ++ [x00] ++ go"b") go"c" = IsoKey go"a" (go"b" ++ [x00] ++ go"c").
Proof.
  destruct (isolation_key_collision go"a" go"b" go"c" [] ltac:(simpl; lia) ltac:(simpl; lia)) as (H1 & H2 & _).
  exact (conj H1 H2).
Defined.

Lemma serve_bounded_witness :
  serve_run 2 (mkServe 0 0 Running) [AcceptConn; AcceptErr EMFILE false; AcceptErr EMFILE false; AcceptConn]
  = Some (mkServe 0 2 Running) ∧ inflight (mkServe 0 2 Running) ≤ 2.
Proof.
  split; [reflexivity|].
  exact (proj1 (serve_bounded 2 [AcceptConn; AcceptErr EMFILE false; AcceptErr EMFILE false; AcceptConn] _ eq_refl)).
Defined.
