(* ===== verification/HttpProxy.v ===== *)
(** * [pkg/httpproxy]: the HTTP forward proxy.

    Header maps with the canonical keys of [net/http], the stripping of
    hop-by-hop headers, Basic credentials, the cache of transports, the
    listener's connection limit, and the handlers.  A request is handled by a
    program on the server's state that records every outside call; the dialer
    factory, the dialers, the transports' round trips and hijacking are an
    environment that may depend on everything recorded so far. *)

From S2P Require Import Prelude ByteUtil GoNet GoText GoTextFacts Directory Socks.

(** ** Headers *)

(** A token byte (RFC 7230), as [net/textproto] accepts in field names. *)
Definition validHeaderFieldByte (c : byte) : bool :=
  is_digit c || ((65 <=? bval c)%Z && (bval c <=? 90)%Z) || ((97 <=? bval c)%Z && (bval c <=? 122)%Z) ||
  bool_decide (c ∈ go"!#$%&'*+-.^_`|~").

(** First letters and letters behind a hyphen in upper case, others in lower. *)
Fixpoint canon_from (upper : bool) (s : bytes) : bytes :=
  match s with
  | [] => []
  | c :: s =>
      let c := if upper then upper_byte c else lower_byte c in
      c :: canon_from (bool_decide (c = ch "-")) s
  end.
(** A name with an invalid byte is not changed. *)
Definition CanonicalHeaderKey (s : bytes) : bytes :=
  if forallb validHeaderFieldByte s then canon_from true s else s.

Notation Header := (gmap bytes (list bytes)).

Definition h_Values (h : Header) (key : bytes) : list bytes := default [] (h !! CanonicalHeaderKey key).
(** [Get]: the first value, or the empty string. *)
Definition h_Get (h : Header) (key : bytes) : bytes := default [] (head (h_Values h key)).
Definition h_Del (h : Header) (key : bytes) : Header := delete (CanonicalHeaderKey key) h.
Definition h_Add (h : Header) (key v : bytes) : Header :=
  <[CanonicalHeaderKey key := h_Values h key ++ [v]]> h.

Definition hopByHopHeaders : list bytes :=
  [go"Connection"; go"Proxy-Connection"; go"Keep-Alive"; go"Proxy-Authenticate"; go"Proxy-Authorization";
   go"Te"; go"Trailer"; go"Transfer-Encoding"; go"Upgrade"].

(** The names a [Connection] field lists. *)
Definition listed_names (field : bytes) : list bytes :=
  List.filter (λ n, negb (bool_decide (n = []))) (map TrimSpace (Split field (ch ","))).

Definition removeHopByHop (h : Header) : Header :=
  let h := foldl (λ h field, foldl h_Del h (listed_names field)) h (h_Values h go"Connection") in
  foldl h_Del h hopByHopHeaders.

(** Go ranges over the map in any order: [order] is the order taken. *)
Definition copyHeader (order : list bytes) (dst src : Header) : Header :=
  foldl (λ dst k, foldl (λ dst v, h_Add dst k v) dst (default [] (src !! k))) dst order.

(** ** Credentials *)

Definition basicPrefix : bytes := go"Basic ".

(** [strings.EqualFold] of six bytes with an ASCII text: only ASCII can match. *)
Definition parseBasicAuth (header : bytes) : bytes * bytes * bool :=
  if (length header <? length basicPrefix) ||
     negb (bool_decide (ToLower (take (length basicPrefix) header) = ToLower basicPrefix))
  then ([], [], false)
  else
    match Std_Decode (drop (length basicPrefix) header) with
    | (_, false) => ([], [], false)
    | (decoded, true) =>
        match Cut decoded [ch ":"] with
        | None => ([], [], false)
        | Some (user, pass) => (user, pass, true)
        end
    end.

(** ** Requests *)

Record URL := mkURL { Scheme : bytes; URL_Host : bytes; URL_rest : bytes }.
Record Request := mkRequest {
  Method : bytes;
  req_URL : URL;
  Host : bytes;
  RequestURI : bytes;
  req_Header : Header
}.
Record Response := mkResponse { resp_StatusCode : Z; resp_Header : Header; resp_Body : bytes }.

Definition IsAbs (u : URL) : bool := negb (bool_decide (Scheme u = [])).

(** What the server does outside: [d] names a dialer, [t] a transport. *)
Inductive action :=
| CallFactory (user pass : bytes)
| CallDial (d : nat) (target : bytes)
| CallRoundTrip (t : nat) (r : Request)
| HttpError (code : Z)
| WriteHeader (code : Z) (h : Header)
| CopyBody (b : bytes)
| ConnWrite (b : bytes)
| CallRelay (d : nat)
| CloseUpstream (d : nat)
| CloseClient.

Inductive hijack := Unsupported | HijackFailed | Hijacked (write_ok : bool).

Record upstream := mkUpstream {
  Factory : list action → bytes → bytes → option nat;
  DialContext : list action → nat → bytes → bool;
  RoundTrip : list action → nat → Request → option Response;
  Hijack : list action → hijack
}.

(** [Server], with the dialer behind each transport made so far. *)
Record Server := mkServer { transports : gmap bytes nat; t_dialer : list nat; log : list action }.

Definition act (a : action) : prog Server Empty_set unit :=
  modify (λ s, mkServer (transports s) (t_dialer s) (log s ++ [a])).
(** Ask the environment, then record the call. *)
Definition ask {A} (f : list action → A) (a : action) : prog Server Empty_set A :=
  r ← gets (λ s, f (log s)); _ ← act a; mret r.

Definition on_server {A} (f : Server → A * Server) : prog Server Empty_set A :=
  λ s, let '(a, s) := f s in Some (Ok a, s).

(** ** Transports *)

(** The first section of [transportFor]. *)
Definition transport_lookup (key : bytes) (s : Server) : option nat := transports s !! key.
(** [&http.Transport{DialContext: dialer.DialContext, ...}]. *)
Definition new_transport (d : nat) (s : Server) : nat * Server :=
  (length (t_dialer s), mkServer (transports s) (t_dialer s ++ [d]) (log s)).
(** The second section: a transport published meanwhile wins. *)
Definition transport_publish (key : bytes) (t : nat) (s : Server) : nat * Server :=
  match transports s !! key with
  | Some existing => (existing, s)
  | None => (t, mkServer (<[key := t]> (transports s)) (t_dialer s) (log s))
  end.

Section Handlers.
Context (up : upstream).

(** [transportFor] of one request without interference; [None] is the
    factory's error. *)
Definition transportFor (user pass : bytes) : prog Server Empty_set (option nat) :=
  let key := IsoKey user pass in
  hit ← gets (transport_lookup key);
  match hit with
  | Some t => mret (Some t)
  | None =>
      dialer ← ask (λ l, Factory up l user pass) (CallFactory user pass);
      match dialer with
      | None => mret None
      | Some d =>
          t ← on_server (new_transport d);
          t ← on_server (transport_publish key t);
          mret (Some t)
      end
  end.

Definition established : bytes := go"HTTP/1.1 200 Connection Established" ++ [cr; nl; cr; nl].

(** [handleConnect]; the deferred closes run on every path behind the dial. *)
Definition handleConnect (r : Request) (user pass : bytes) : prog Server Empty_set unit :=
  let target := if decide (Host r = []) then URL_Host (req_URL r) else Host r in
  dialer ← ask (λ l, Factory up l user pass) (CallFactory user pass);
  match dialer with
  | None => act (HttpError 502)
  | Some d =>
      ok ← ask (λ l, DialContext up l d target) (CallDial d target);
      if negb ok then act (HttpError 502)
      else
        hj ← gets (λ s, Hijack up (log s));
        match hj with
        | Unsupported => _ ← act (HttpError 500); act (CloseUpstream d)
        | HijackFailed => act (CloseUpstream d)
        | Hijacked write_ok =>
            _ ← act (ConnWrite established);
            _ ← (if write_ok : bool then act (CallRelay d) else mret tt);
            _ ← act CloseClient; act (CloseUpstream d)
        end
  end.

(** [r.Clone] copies the header, so the incoming request is not changed. *)
Definition outbound (r : Request) : Request :=
  mkRequest (Method r) (req_URL r) (Host r) [] (removeHopByHop (req_Header r)).

Definition handleForward (r : Request) (user pass : bytes) : prog Server Empty_set unit :=
  if negb (IsAbs (req_URL r)) || bool_decide (URL_Host (req_URL r) = []) then act (HttpError 400)
  else
    tr ← transportFor user pass;
    match tr with
    | None => act (HttpError 502)
    | Some t =>
        resp ← ask (λ l, RoundTrip up l t (outbound r)) (CallRoundTrip t (outbound r));
        match resp with
        | None => act (HttpError 502)
        | Some resp =>
            let h := removeHopByHop (resp_Header resp) in
            _ ← act (WriteHeader (resp_StatusCode resp) (copyHeader (map fst (map_to_list h)) ∅ h));
            act (CopyBody (resp_Body resp))
        end
    end.

Definition ServeHTTP (r : Request) : prog Server Empty_set unit :=
  let '(user, pass, _) := parseBasicAuth (h_Get (req_Header r) go"Proxy-Authorization") in
  if decide (Method r = go"CONNECT") then handleConnect r user pass
  else handleForward r user pass.

End Handlers.

(** ** The listener's limit *)

Definition maxConcurrentConns : nat := 1024.

(** [limitListener] with its capacity-1024 semaphore, the [Accept] calls between
    acquiring a slot and returning, and for every [limitConn] whether its
    [once] has run. *)
Record limitListener := mkListener { sem : nat; accepting : nat; released : list bool }.

Definition Accept_acquire (l : limitListener) : option limitListener :=
  if maxConcurrentConns <=? sem l then None
  else Some (mkListener (S (sem l)) (S (accepting l)) (released l)).
(** The inner [Accept] returned; on an error the slot is given back. *)
Definition Accept_return (ok : bool) (l : limitListener) : limitListener :=
  if ok then mkListener (sem l) (accepting l - 1) (released l ++ [false])
  else mkListener (sem l - 1) (accepting l - 1) (released l).
Definition limitConn_Close (i : nat) (l : limitListener) : limitListener :=
  match released l !! i with
  | Some false => mkListener (sem l - 1) (accepting l) (<[i := true]> (released l))
  | _ => l
  end.

Inductive lstep : limitListener → limitListener → Prop :=
| L_acquire l l' : Accept_acquire l = Some l' → lstep l l'
| L_return ok l : 0 < accepting l → lstep l (Accept_return ok l)
| L_close i l : lstep l (limitConn_Close i l).

Definition new_listener : limitListener := mkListener 0 0 [].

(** Connections that were accepted and not closed. *)
Definition live (l : limitListener) : nat := length (List.filter negb (released l)).

(** * Facts *)

(** ** Header facts *)

Lemma foldl_h_Del (names : list bytes) (h : Header) (k : bytes) :
  foldl h_Del h names !! k = if decide (k ∈ map CanonicalHeaderKey names) then None else h !! k.
Proof.
  revert h. induction names as [|n names IH]; intros h; cbn [foldl map].
  - by rewrite decide_False by set_solver.
  - rewrite IH. unfold h_Del. destruct (decide (k ∈ map CanonicalHeaderKey names)).
    + rewrite decide_True; [done|]. by right.
    + destruct (decide (k = CanonicalHeaderKey n)) as [->|Hne].
      * rewrite decide_True by by left. by rewrite lookup_delete_eq.
      * rewrite decide_False by set_solver. by rewrite lookup_delete_ne.
Qed.

(** The header names that do not leave the proxy: the fixed list and what the
    [Connection] fields name. *)
Definition hop_names (h : Header) : list bytes :=
  map CanonicalHeaderKey ((h_Values h go"Connection" ≫= listed_names) ++ hopByHopHeaders).

Lemma removeHopByHop_lookup (h : Header) (k : bytes) :
  removeHopByHop h !! k = if decide (k ∈ hop_names h) then None else h !! k.
Proof.
  unfold removeHopByHop, hop_names. cbv zeta.
  assert (∀ fields h, foldl (λ h field, foldl h_Del h (listed_names field)) h fields =
    foldl h_Del h (fields ≫= listed_names)) as Hf.
  { induction fields as [|f fields IH]; intros h'; [done|]. cbn [foldl]. rewrite IH.
    change ((f :: fields) ≫= listed_names) with (listed_names f ++ (fields ≫= listed_names)). by rewrite foldl_app. }
  rewrite Hf, <-foldl_app, foldl_h_Del. done.
Qed.

Lemma foldl_h_Add_lookup (vs : list bytes) (k : bytes) (dst : Header) (k' : bytes) :
  CanonicalHeaderKey k = k →
  foldl (λ dst v, h_Add dst k v) dst vs !! k' =
  if decide (k' = k ∧ vs ≠ []) then Some (default [] (dst !! k) ++ vs) else dst !! k'.
Proof.
  intros Hk. revert dst. induction vs as [|v vs IH]; intros dst; cbn [foldl].
  { rewrite decide_False; [done|]. by intros [_ ?]. }
  rewrite IH. unfold h_Add, h_Values. rewrite Hk. destruct (decide (k' = k)) as [->|Hne].
  - rewrite (decide_True (P := k = k ∧ v :: vs ≠ [])) by done. rewrite !lookup_insert_eq. cbn [default]. unfold id.
    destruct vs as [|v' vs]; [by rewrite decide_False by naive_solver|]. rewrite decide_True by done. by rewrite <-app_assoc.
  - rewrite !decide_False by naive_solver. by rewrite lookup_insert_ne.
Qed.

(** A header map as [net/http] makes it. *)
Definition canonical (h : Header) : Prop :=
  ∀ k vs, h !! k = Some vs → CanonicalHeaderKey k = k ∧ vs ≠ [].

(** Whatever the order, copying into an empty header copies. *)
Lemma copyHeader_copies (order : list bytes) (src : Header) : canonical src →
  NoDup order → (∀ k, k ∈ order ↔ is_Some (src !! k)) → copyHeader order ∅ src = src.
Proof.
  intros Hc Hnd Hord. apply map_eq. intros k.
  assert (∀ l dst, NoDup l → (∀ x, x ∈ l → is_Some (src !! x) ∧ dst !! x = None) →
    copyHeader l dst src !! k = if decide (k ∈ l) then src !! k else dst !! k) as H.
  { induction l as [|x l IH]; intros dst Hn Hl; unfold copyHeader in *; cbn [foldl]; [by rewrite decide_False by set_solver|].
    apply list.NoDup_cons in Hn as [Hx Hn]. destruct (Hl x) as [[vs Hvs] Hd]; [by left|].
    destruct (Hc _ _ Hvs) as [Hcx Hvne]. rewrite Hvs. cbn [default].
    rewrite IH; [|done|].
    2: { intros y Hy. split; [apply Hl; by right|]. rewrite foldl_h_Add_lookup by done.
         rewrite decide_False by (intros [-> _]; done). apply Hl. by right. }
    destruct (decide (k ∈ l)) as [Hkl|Hkl]; [rewrite decide_True; [done|by right]|].
    rewrite foldl_h_Add_lookup by done. rewrite Hd. cbn [default app].
    destruct (decide (k = x)) as [->|Hkx].
    - rewrite decide_True by done. by rewrite decide_True by by left.
    - rewrite decide_False by naive_solver. by rewrite decide_False by set_solver. }
  rewrite H; [|done|].
  - case_decide as Hk; [done|]. rewrite lookup_empty. destruct (src !! k) eqn:E; [|done].
    exfalso. apply Hk, Hord. by rewrite E.
  - intros x Hx. split; [by apply Hord|apply lookup_empty].
Qed.

(** ** Credential facts *)

Lemma Index_byte a c t : c ∉ a → Index (a ++ [c] ++ t) [c] = Some (length a).
Proof.
  induction a as [|b a IH]; intros Hn; cbn [app Index].
  - assert (HasPrefix (c :: t) [c] = true) as -> by apply (HasPrefix_app [c]). done.
  - apply not_elem_of_cons in Hn as [Hb Hn]. cbn [HasPrefix]. rewrite decide_False by done.
    change (a ++ c :: t) with (a ++ [c] ++ t). by rewrite IH.
Qed.

(** [base64.StdEncoding.EncodeToString]. *)
Definition Std_Encode (b : bytes) : bytes :=
  RawStd_Encode b ++ match length b mod 3 with 1 => go"==" | 2 => go"=" | _ => [] end.

Lemma Std_roundtrip b : Std_Decode (Std_Encode b) = (b, true).
Proof.
  unfold Std_Decode, Std_Encode. induction b as [|a|a b|a b c t IH] using triples_ind; [done| | |].
  - pose proof (bval_range a). cbn [RawStd_Encode b64_enc1 length]. set (v := (bval a * 16)%Z).
    cbn [app b64_decode]. rewrite !b64_digit_char by (unfold v; zdm). cbn [app].
    transitivity (b64_quantum [(v / 64)%Z; (v mod 64)%Z], true); [reflexivity|]. cbn [b64_quantum].
    rewrite (to_byte_val a); [done|unfold v; zdm].
  - pose proof (bval_range a). pose proof (bval_range b). cbn [RawStd_Encode b64_enc1 length].
    set (v := ((bval a * 256 + bval b) * 4)%Z).
    cbn [app b64_decode]. rewrite !b64_digit_char by (unfold v; zdm). cbn [app].
    transitivity (b64_quantum [(v / 4096)%Z; (v / 64 mod 64)%Z; (v mod 64)%Z], true); [reflexivity|]. cbn [b64_quantum].
    rewrite (to_byte_val a), (to_byte_val b); [done|unfold v; zdm..].
  - change (RawStd_Encode (a :: b :: c :: t)) with (b64_enc1 [a; b; c] ++ RawStd_Encode t).
    rewrite <-app_assoc, b64_decode_group.
    assert (length (a :: b :: c :: t) mod 3 = length t mod 3) as ->.
    { change (length (a :: b :: c :: t)) with (3 + length t).
      rewrite <-(Nat.Div0.mod_add (length t) 1 3). f_equal. lia. }
    by rewrite IH.
Qed.

(** A Basic header built from a user name without a colon and any password,
    whatever the case of the scheme, parses to exactly those credentials. *)
Theorem basic_auth_roundtrip (user pass scheme : bytes) :
  ch ":" ∉ user → ToLower scheme = ToLower basicPrefix →
  parseBasicAuth (scheme ++ Std_Encode (user ++ [ch ":"] ++ pass)) = (user, pass, true).
Proof.
  intros Hu Hs. assert (length scheme = length basicPrefix) as Hl.
  { apply (f_equal length) in Hs. unfold ToLower in Hs. by rewrite !length_map in Hs. }
  unfold parseBasicAuth. rewrite length_app.
  destruct (Nat.ltb_spec (length scheme + length (Std_Encode (user ++ [ch ":"] ++ pass))) (length basicPrefix)); [lia|].
  rewrite take_app_exact, drop_app_exact by done. rewrite bool_decide_true by done. cbn [negb orb].
  rewrite Std_roundtrip. unfold Cut. rewrite (Index_byte user) by done. cbn [mbind option_bind].
  rewrite take_app_length. rewrite app_assoc, drop_app_exact; [done|]. by rewrite length_app.
Qed.

(** ** What a request may cause *)

Section Requests.
Context (up : upstream).

(** [d] is what the factory answered, at some point of the record [l], to
    credentials with the isolation key [key]. *)
Definition given (l : list action) (key : bytes) (d : nat) : Prop :=
  ∃ l0 user pass, l0 ++ [CallFactory user pass] `prefix_of` l ∧ IsoKey user pass = key ∧
    Factory up l0 user pass = Some d.

(** Every cached transport dials through a dialer given to its identity. *)
Definition isolated (s : Server) : Prop :=
  ∀ key t, transports s !! key = Some t → ∃ d, t_dialer s !! t = Some d ∧ given (log s) key d.

Definition connect_target (r : Request) : bytes :=
  if decide (Host r = []) then URL_Host (req_URL r) else Host r.

(** [r'] is [r] as it leaves the proxy: nothing added, the hop-by-hop headers
    gone, the proxy credentials among them. *)
Definition cleaned (r r' : Request) : Prop :=
  Method r' = Method r ∧ req_URL r' = req_URL r ∧ Host r' = Host r ∧ RequestURI r' = [] ∧
  req_Header r' !! go"Proxy-Authorization" = None ∧
  ∀ k, req_Header r' !! k = if decide (k ∈ hop_names (req_Header r)) then None else req_Header r !! k.

(** The ends of a tunnel that was dialed. *)
Definition tunnel_ends (d : nat) : list (list action) :=
  [[HttpError 500]; []; [ConnWrite established; CloseClient]; [ConnWrite established; CallRelay d; CloseClient]].

(** The abstract proxy: what one request with these credentials may make the
    server do, given the state [s'] it leaves. *)
Inductive exchange (r : Request) (user pass : bytes) (s' : Server) : list action → Prop :=
| X_relative : Method r ≠ go"CONNECT" →
    exchange r user pass s' [HttpError 400]
| X_no_dialer : exchange r user pass s' [CallFactory user pass; HttpError 502]
| X_no_route d : Method r = go"CONNECT" → given (log s') (IsoKey user pass) d →
    exchange r user pass s' [CallFactory user pass; CallDial d (connect_target r); HttpError 502]
| X_tunnel d ends : Method r = go"CONNECT" → given (log s') (IsoKey user pass) d → ends ∈ tunnel_ends d →
    exchange r user pass s' ([CallFactory user pass; CallDial d (connect_target r)] ++ ends ++ [CloseUpstream d])
| X_forward first t d r' ends : Method r ≠ go"CONNECT" → first ∈ [[]; [CallFactory user pass]] →
    transports s' !! IsoKey user pass = Some t → t_dialer s' !! t = Some d →
    given (log s') (IsoKey user pass) d → cleaned r r' →
    ends = [HttpError 502] ∨
      (∃ code h b, ends = [WriteHeader code h; CopyBody b] ∧ Forall (λ k, h !! k = None) hopByHopHeaders) →
    exchange r user pass s' (first ++ [CallRoundTrip t r'] ++ ends).

Lemma act_returns a s (Q : outcome Empty_set unit → Server → Prop) :
  Q (Ok tt) (mkServer (transports s) (t_dialer s) (log s ++ [a])) → returns (act a) s Q.
Proof. intros H. by apply returns_modify. Qed.

Lemma ask_returns {A} (f : list action → A) a s (Q : outcome Empty_set A → Server → Prop) :
  Q (Ok (f (log s))) (mkServer (transports s) (t_dialer s) (log s ++ [a])) → returns (ask f a) s Q.
Proof.
  intros H. apply returns_bind, returns_gets, returns_bind, act_returns, returns_ret. exact H.
Qed.

Lemma on_server_returns {A} (f : Server → A * Server) s (Q : outcome Empty_set A → Server → Prop) :
  Q (Ok (f s).1) (f s).2 → returns (on_server f) s Q.
Proof. intros H. unfold returns, on_server. destruct (f s) as [a s']. by exists (Ok a), s'. Qed.

Lemma given_mono l l' key d : l `prefix_of` l' → given l key d → given l' key d.
Proof. intros H (l0 & u & p & H0 & ?). exists l0, u, p. split; [by etrans|done]. Qed.

Lemma isolated_ext s s' : isolated s → transports s' = transports s → t_dialer s' = t_dialer s →
  log s `prefix_of` log s' → isolated s'.
Proof.
  intros H Ht Hd Hl key t Hk. rewrite Ht in Hk. destruct (H key t Hk) as (d & Hd' & Hg). exists d.
  rewrite Hd. split; [done|]. by eapply given_mono.
Qed.

(** The server did nothing but record actions since it was isolated. *)
Ltac iso Hi := eapply isolated_ext;
  [exact Hi|reflexivity|reflexivity|cbn [log]; rewrite <-?app_assoc; by apply prefix_app_r].

Lemma canonical_hop : map CanonicalHeaderKey hopByHopHeaders = hopByHopHeaders.
Proof. reflexivity. Qed.

Lemma removeHopByHop_clean h : Forall (λ k, removeHopByHop h !! k = None) hopByHopHeaders.
Proof.
  apply list.Forall_forall. intros k Hk. rewrite removeHopByHop_lookup. rewrite decide_True; [done|].
  unfold hop_names. rewrite map_app. apply elem_of_app. right. by rewrite canonical_hop.
Qed.

Lemma outbound_cleaned r : cleaned r (outbound r).
Proof.
  split_and!; try done.
  - pose proof (removeHopByHop_clean (req_Header r)) as H. rewrite list.Forall_forall in H. apply H.
    apply (bool_decide_unpack _). vm_compute. exact I.
  - apply removeHopByHop_lookup.
Qed.

(** Copying keeps an absent canonical name absent. *)
Lemma copyHeader_absent (order : list bytes) (src : Header) k : (∀ x, x ∈ order → CanonicalHeaderKey x ≠ k) →
  copyHeader order ∅ src !! k = None.
Proof.
  intros H. unfold copyHeader. assert (∀ l (dst : Header), (∀ x, x ∈ l → CanonicalHeaderKey x ≠ k) → dst !! k = None →
    foldl (λ dst x, foldl (λ dst v, h_Add dst x v) dst (default [] (src !! x))) dst l !! k = None) as Hl.
  { induction l as [|x l IH]; intros dst Hx Hd; cbn [foldl]; [done|]. apply IH; [set_solver|].
    assert (CanonicalHeaderKey x ≠ k) as Hne by (apply Hx; by left). clear -Hd Hne.
    generalize (default [] (src !! x)). intros vs. revert dst Hd. induction vs as [|v vs IH]; intros dst Hd; cbn [foldl]; [done|].
    apply IH. unfold h_Add. by rewrite lookup_insert_ne. }
  apply Hl; [done|apply lookup_empty].
Qed.

Lemma transportFor_returns user pass s : isolated s →
  returns (transportFor up user pass) s (λ o s', isolated s' ∧ ∃ first, log s' = log s ++ first ∧
    match o with
    | Ok (Some t) => first ∈ [[]; [CallFactory user pass]] ∧ transports s' !! IsoKey user pass = Some t
    | Ok None => first = [CallFactory user pass]
    | _ => False
    end).
Proof.
  intros Hi. unfold transportFor. cbv zeta. apply returns_bind, returns_gets. unfold transport_lookup.
  destruct (transports s !! IsoKey user pass) as [t|] eqn:Et.
  { apply returns_ret. split; [done|]. exists []. rewrite app_nil_r. split; [done|]. split; [by left|done]. }
  apply returns_bind, ask_returns.
  assert (isolated (mkServer (transports s) (t_dialer s) (log s ++ [CallFactory user pass]))) as Hi1 by iso Hi.
  destruct (Factory up (log s) user pass) as [d|] eqn:Ef.
  2: { apply returns_ret. split; [done|]. by exists [CallFactory user pass]. }
  apply returns_bind, on_server_returns. unfold new_transport. cbn [fst snd transports t_dialer log].
  apply returns_bind, on_server_returns. unfold transport_publish. cbn [transports]. rewrite Et.
  cbn [fst snd]. apply returns_ret. cbn [log t_dialer transports].
  assert (given (log s ++ [CallFactory user pass]) (IsoKey user pass) d) as Hg by by exists (log s), user, pass.
  split.
  - intros key t. cbn [transports t_dialer log]. rewrite lookup_insert_Some. intros [[<- <-]|[Hne Hk]].
    + exists d. split; [|done]. apply list_lookup_middle. done.
    + destruct (Hi1 key t Hk) as (d' & Hd & Hg'). exists d'. split; [|done]. by apply lookup_app_l_Some.
  - exists [CallFactory user pass]. split; [done|]. split; [right; by left|]. apply lookup_insert_eq.
Qed.

Lemma handleConnect_returns r user pass s : isolated s → Method r = go"CONNECT" →
  returns (handleConnect up r user pass) s (λ o s', isolated s' ∧ o = Ok tt ∧
    ∃ new, log s' = log s ++ new ∧ exchange r user pass s' new).
Proof.
  intros Hi Hm. unfold handleConnect. cbv zeta. fold (connect_target r). apply returns_bind, ask_returns.
  destruct (Factory up (log s) user pass) as [d|] eqn:Ef.
  2: { apply act_returns. split; [iso Hi|]. split; [done|].
       exists [CallFactory user pass; HttpError 502]. cbn [log]. rewrite <-app_assoc. split; [done|constructor]. }
  assert (∀ new, given (log s ++ [CallFactory user pass] ++ new) (IsoKey user pass) d) as Hg.
  { intros new. exists (log s), user, pass. split; [|done]. rewrite app_assoc. by apply prefix_app_r. }
  apply returns_bind, ask_returns. cbn [log transports t_dialer].
  destruct (DialContext up _ d _); cbn [negb].
  2: { apply act_returns. split; [iso Hi|]. split; [done|].
       exists [CallFactory user pass; CallDial d (connect_target r); HttpError 502]. cbn [log]. rewrite <-!app_assoc.
       split; [done|]. apply X_no_route; [done|]. cbn [log]. apply Hg. }
  apply returns_bind, returns_gets. cbn [log].
  assert (∀ ends sf, ends ∈ tunnel_ends d → isolated sf →
    log sf = log s ++ [CallFactory user pass; CallDial d (connect_target r)] ++ ends ++ [CloseUpstream d] →
    isolated sf ∧ Ok (E := Empty_set) () = Ok () ∧ ∃ new, log sf = log s ++ new ∧ exchange r user pass sf new) as Hend.
  { intros ends sf He Hsf Hl. split; [done|]. split; [done|]. eexists. split; [exact Hl|].
    apply X_tunnel; [done| |done]. rewrite Hl. apply (Hg (_ :: _)). }
  destruct (Hijack up _) as [| |wok].
  - apply returns_bind, act_returns, act_returns. apply (Hend [HttpError 500]); [by left|iso Hi|].
    cbn [log]. by rewrite <-!app_assoc.
  - apply act_returns. apply (Hend []); [right; by left|iso Hi|]. cbn [log]. by rewrite <-!app_assoc.
  - apply returns_bind, act_returns, returns_bind. destruct wok.
    + apply act_returns, returns_bind, act_returns, act_returns.
      apply (Hend [ConnWrite established; CallRelay d; CloseClient]); [do 3 right; by left|iso Hi|].
      cbn [log]. by rewrite <-!app_assoc.
    + apply returns_ret, returns_bind, act_returns, act_returns.
      apply (Hend [ConnWrite established; CloseClient]); [do 2 right; by left|iso Hi|].
      cbn [log]. by rewrite <-!app_assoc.
Qed.

Lemma handleForward_returns r user pass s : isolated s → Method r ≠ go"CONNECT" →
  (∀ l t r' resp, RoundTrip up l t r' = Some resp → canonical (resp_Header resp)) →
  returns (handleForward up r user pass) s (λ o s', isolated s' ∧ o = Ok tt ∧
    ∃ new, log s' = log s ++ new ∧ exchange r user pass s' new).
Proof.
  intros Hi Hm Hcan. unfold handleForward. destruct (_ || _).
  { apply act_returns. split; [iso Hi|]. split; [done|]. exists [HttpError 400]. split; [done|by constructor]. }
  apply returns_bind. eapply returns_weaken; [by apply transportFor_returns|].
  intros [[t|]|er|] s1 _ (Hi1 & first & Hl1 & H); try done.
  2: { apply act_returns. split; [iso Hi1|]. split; [done|]. subst first. exists [CallFactory user pass; HttpError 502].
       cbn [log]. rewrite Hl1, <-app_assoc. split; [done|constructor]. }
  destruct H as [Hfirst Ht]. destruct (Hi1 _ _ Ht) as (d & Hd & Hg).
  assert (∀ ends sf, transports sf = transports s1 → t_dialer sf = t_dialer s1 →
    log sf = log s1 ++ [CallRoundTrip t (outbound r)] ++ ends →
    ends = [HttpError 502] ∨ (∃ code h b, ends = [WriteHeader code h; CopyBody b] ∧ Forall (λ k, h !! k = None) hopByHopHeaders) →
    isolated sf ∧ Ok (E := Empty_set) () = Ok () ∧ ∃ new, log sf = log s ++ new ∧ exchange r user pass sf new) as Hend.
  { intros ends sf H1 H2 H3 He. assert (log s1 `prefix_of` log sf) as Hp by (rewrite H3; by apply prefix_app_r).
    split; [by eapply isolated_ext|]. split; [done|]. exists (first ++ [CallRoundTrip t (outbound r)] ++ ends).
    split; [by rewrite H3, Hl1, <-app_assoc|]. eapply X_forward; try done.
    - by rewrite H1. - by rewrite H2. - by eapply given_mono. - apply outbound_cleaned. }
  apply returns_bind, ask_returns. destruct (RoundTrip up (log s1) t (outbound r)) as [resp|] eqn:Er.
  2: { apply act_returns. apply (Hend [HttpError 502]); [done..|cbn [log]; by rewrite <-app_assoc|by left]. }
  cbv zeta. apply returns_bind, act_returns, act_returns. cbn [transports t_dialer log].
  eapply Hend; [done..|cbn [log]; by rewrite <-!app_assoc|]. right. eexists _, _, _. split; [reflexivity|].
  apply list.Forall_forall. intros k Hk. apply copyHeader_absent. intros x Hx E.
  apply list_elem_of_fmap in Hx as ([x' vs] & -> & Hx). apply elem_of_map_to_list in Hx. cbn [fst] in E.
  rewrite removeHopByHop_lookup in Hx. destruct (decide _) as [|Hno] in Hx; [done|].
  destruct (Hcan _ _ _ _ Er _ _ Hx) as [Hcx _]. rewrite Hcx in E. subst x'. apply Hno.
  unfold hop_names. rewrite map_app. apply elem_of_app. right. by rewrite canonical_hop.
Qed.

(** C23: One request to the proxy, as an abstract exchange: whatever the factory,
    the dialers, the origin and the client connection do, handling returns
    without a panic; the credentials only choose the dialer, which the factory
    gave to that identity; a CONNECT dials its target verbatim, at most once,
    and always closes what it dialed; a forwarded request leaves with nothing
    added and without hop-by-hop headers or proxy credentials, over a transport
    of the same identity; and no hop-by-hop header of the response comes back. *)
Theorem ServeHTTP_refines (r : Request) (s : Server) :
  isolated s →
  (∀ l t r' resp, RoundTrip up l t r' = Some resp → canonical (resp_Header resp)) →
  let '(user, pass, _) := parseBasicAuth (h_Get (req_Header r) go"Proxy-Authorization") in
  ∃ s' new, ServeHTTP up r s = Some (Ok tt, s') ∧ isolated s' ∧ log s' = log s ++ new ∧
    exchange r user pass s' new.
Proof.
  intros Hi Hcan. unfold ServeHTTP. destruct (parseBasicAuth _) as [[user pass] ok].
  assert (returns (if decide (Method r = go"CONNECT") then handleConnect up r user pass else handleForward up r user pass) s
    (λ o s', isolated s' ∧ o = Ok tt ∧ ∃ new, log s' = log s ++ new ∧ exchange r user pass s' new)) as
    (o & s' & Hrun & _ & Hi' & -> & new & Hl & Hx).
  { case_decide; [by apply handleConnect_returns|by apply handleForward_returns]. }
  by exists s', new.
Qed.

End Requests.

(** ** Concurrent requests *)

(** The server with the transports that were built and not yet published (each
    with its key), the transports handed to requests, and the dialers the
    factory gave, by key. *)
Record shared := mkShared {
  srv : Server;
  unpublished : list (bytes * nat);
  handed : list (bytes * nat);
  gifts : list (bytes * nat)
}.

Inductive tstep : shared → shared → Prop :=
| T_hit key t s un ha gi : transport_lookup key s = Some t →
    tstep (mkShared s un ha gi) (mkShared s un ((key, t) :: ha) gi)
| T_build key d t s s' un ha gi : new_transport d s = (t, s') →
    tstep (mkShared s un ha gi) (mkShared s' ((key, t) :: un) ha ((key, d) :: gi))
| T_publish key t t' s s' un1 un2 ha gi : transport_publish key t s = (t', s') →
    tstep (mkShared s (un1 ++ (key, t) :: un2) ha gi) (mkShared s' (un1 ++ un2) ((key, t') :: ha) gi).

Definition fresh_server : shared := mkShared (mkServer ∅ [] []) [] [] [].

Record shared_inv (x : shared) : Prop := {
  si_cached key t : transports (srv x) !! key = Some t →
    ∃ d, t_dialer (srv x) !! t = Some d ∧ (key, d) ∈ gifts x;
  si_built key t : (key, t) ∈ unpublished x →
    (∃ d, t_dialer (srv x) !! t = Some d ∧ (key, d) ∈ gifts x) ∧
    ∀ key', transports (srv x) !! key' ≠ Some t;
  si_distinct : NoDup (map snd (unpublished x));
  si_inj k1 k2 t : transports (srv x) !! k1 = Some t → transports (srv x) !! k2 = Some t → k1 = k2;
  si_handed key t : (key, t) ∈ handed x → transports (srv x) !! key = Some t
}.

Lemma shared_inv_step x x' : tstep x x' → shared_inv x → shared_inv x'.
Proof.
  intros Hs [I1 I2 I3 I4 I5]. destruct Hs as [key t s un ha gi Hl|key d t s s' un ha gi Hn|key t t' s s' un1 un2 ha gi Hp];
    cbn [srv unpublished handed gifts] in *.
  - split; cbn [srv unpublished handed gifts]; try done. intros k t0 [[= -> ->]|?]%elem_of_cons; [done|by apply I5].
  - injection Hn as <- <-. split; cbn [srv unpublished handed gifts transports t_dialer].
    + intros k t Hk. destruct (I1 k t Hk) as (d' & Hd & Hg). exists d'. split; [by apply lookup_app_l_Some|by right].
    + intros k t [[= -> ->]|Hin]%elem_of_cons.
      * split; [exists d; split; [by apply list_lookup_middle|by left]|]. intros k' Hk'.
        destruct (I1 _ _ Hk') as (d' & Hd & _). apply lookup_lt_Some in Hd. lia.
      * destruct (I2 k t Hin) as [(d' & Hd & Hg) Hno]. split; [|done].
        exists d'. split; [by apply lookup_app_l_Some|by right].
    + cbn [map snd]. apply list.NoDup_cons. split; [|done]. intros ([k t] & E & Hin)%list_elem_of_fmap.
      cbn [snd] in E. subst t. destruct (I2 k _ Hin) as [(d' & Hd & _) _]. apply lookup_lt_Some in Hd. lia.
    + done.
    + done.
  - assert (∀ k u, (k, u) ∈ un1 ++ un2 → (k, u) ∈ un1 ++ (key, t) :: un2) as Hsub by set_solver.
    assert (NoDup (map snd (un1 ++ un2)) ∧ ∀ k, (k, t) ∉ un1 ++ un2) as [Hnd Hnot].
    { rewrite map_app in I3. cbn [map snd] in I3. rewrite <-Permutation_middle in I3. apply list.NoDup_cons in I3 as [Hn H].
      rewrite map_app. split; [done|]. intros k Hin. apply Hn. rewrite <-map_app. apply list_elem_of_fmap.
      by exists (k, t). }
    destruct (I2 key t) as [(d & Hd & Hg) Hno]; [set_solver|]. unfold transport_publish in Hp.
    destruct (transports s !! key) as [e|] eqn:Ek; injection Hp as <- <-.
    + split; cbn [srv unpublished handed gifts]; try done; [naive_solver|].
      intros k u [[= -> ->]|?]%elem_of_cons; [done|by apply I5].
    + split; cbn [srv unpublished handed gifts transports t_dialer].
      * intros k u. rewrite lookup_insert_Some. intros [[<- <-]|[_ Hk]]; [by exists d|by apply I1].
      * intros k u Hin. destruct (I2 k u (Hsub _ _ Hin)) as [Hd' Hno']. split; [done|]. intros k'.
        rewrite lookup_insert_Some. intros [[_ <-]|[_ Hk]]; [by apply (Hnot k)|by apply (Hno' k')].
      * done.
      * intros k1 k2 u. rewrite !lookup_insert_Some. intros [[<- <-]|[H1 H1']] [[<- E]|[H2 H2']]; try done.
        -- by apply Hno in H2'. -- subst u. by apply Hno in H1'. -- by eapply I4.
      * intros k u [[= -> ->]|Hin]%elem_of_cons; [apply lookup_insert_eq|]. pose proof (I5 _ _ Hin) as Hk.
        rewrite lookup_insert_ne; [done|]. intros ->. by rewrite Ek in Hk.
Qed.

(** In every interleaving of requests, all requests of an identity get one
    transport, which dials through a dialer the factory gave to that identity,
    and requests of different identities never share one. *)
Theorem transports_isolated (x : shared) (k1 k2 : bytes) (t1 t2 : nat) :
  rtc tstep fresh_server x → (k1, t1) ∈ handed x → (k2, t2) ∈ handed x →
  (t1 = t2 ↔ k1 = k2) ∧ ∃ d, t_dialer (srv x) !! t1 = Some d ∧ (k1, d) ∈ gifts x.
Proof.
  intros Hr H1 H2. assert (shared_inv x) as [I1 _ _ I4 I5].
  { revert Hr. apply (rtc_ind_r (λ y, shared_inv y) fresh_server).
    - split; cbn; try set_solver; intros; by apply lookup_empty_Some in H || constructor.
    - intros y z _ Hs Hy. by eapply shared_inv_step. }
  pose proof (I5 _ _ H1) as K1. pose proof (I5 _ _ H2) as K2. split; [|by apply I1]. split.
  - intros ->. by eapply I4.
  - intros ->. rewrite K1 in K2. by injection K2.
Qed.

(** C39: The listener never has more than 1024 connections accepted and not
    closed, however accepts and (repeated) closes interleave, and every slot in
    use belongs to an open connection or to an accept in progress, so that a
    closed connection always makes room. *)
Theorem listener_bounded (l : limitListener) :
  rtc lstep new_listener l →
  sem l = accepting l + live l ∧ live l ≤ maxConcurrentConns ∧
  (accepting l = 0 → live l < maxConcurrentConns → Accept_acquire l ≠ None).
Proof.
  intros Hr. assert (sem l = accepting l + live l ∧ sem l ≤ maxConcurrentConns) as [H1 H2].
  { revert Hr. apply (rtc_ind_r (λ l, sem l = accepting l + live l ∧ sem l ≤ maxConcurrentConns) new_listener).
    { split; [done|]. cbn. lia. }
    intros x y _ Hs [Hx Hb]. destruct Hs as [l0 l' Ha|ok l0 Hpos|i l0].
    - unfold Accept_acquire in Ha. destruct (Nat.leb_spec maxConcurrentConns (sem l0)); [done|].
      injection Ha as <-. unfold live in *. cbn [sem accepting released]. lia.
    - unfold Accept_return, live in *. destruct ok; cbn [sem accepting released]; [|lia].
      rewrite filter_app, length_app. cbn [List.filter negb length]. lia.
    - unfold limitConn_Close. destruct (released l0 !! i) as [[|]|] eqn:Ei; [done| |done]. unfold live in *.
      cbn [sem accepting released].
      assert (length (List.filter negb (released l0)) = S (length (List.filter negb (<[i:=true]> (released l0))))) as E.
      { rewrite <-(take_drop_middle _ _ _ Ei) at 1. rewrite insert_take_drop by (by eapply lookup_lt_Some).
        rewrite !filter_app, !length_app. cbn [List.filter negb length]. lia. }
      lia. }
  split; [done|]. split; [lia|]. intros Ha Hl. unfold Accept_acquire.
  destruct (Nat.leb_spec maxConcurrentConns (sem l)); [lia|done].
Qed.
