(* ===== verification/HttpProxyExamples.v ===== *)
(** * Requests to the HTTP proxy, run by the executable definitions. *)

From S2P Require Import Prelude ByteUtil GoNet GoText GoTextFacts Directory Socks HttpProxy.

Definition creds : bytes := go"bAsIc " ++ Std_Encode go"alice:se:cret".

Lemma basic_auth_roundtrip_witness : parseBasicAuth creds = (go"alice", go"se:cret", true).
Proof.
  apply (basic_auth_roundtrip go"alice" go"se:cret" go"bAsIc ").
  - apply (bool_decide_unpack _). vm_compute. exact I.
  - reflexivity.
Defined.

(** A factory that gives dialer 7, and an origin that answers with a
    hop-by-hop header among others. *)
Definition x_resp : Response :=
  mkResponse 200 {[ go"Content-Type" := [go"text/plain"]; go"Keep-Alive" := [go"timeout=5"] ]} go"hello".
Definition x_up (tunnel : hijack) : upstream :=
  mkUpstream (λ _ _ _, Some 7) (λ _ _ _, true) (λ _ _ _, Some x_resp) (λ _, tunnel).

Definition x_headers : Header :=
  {[ go"Proxy-Authorization" := [creds]; go"Connection" := [go"x-token, close"];
     go"X-Token" := [go"1"]; go"Accept" := [go"*/*"] ]}.
Definition x_get : Request :=
  mkRequest go"GET" (mkURL go"http" go"origin.onion" go"/p") go"origin.onion" go"http://origin.onion/p" x_headers.
Definition x_connect : Request :=
  mkRequest go"CONNECT" (mkURL [] go"origin.onion:443" []) go"origin.onion:443" go"origin.onion:443" x_headers.
Definition x_server : Server := mkServer ∅ [] [].

Lemma x_isolated up : isolated up x_server.
Proof. intros key t H. unfold x_server in H. cbn [transports] in H. by apply lookup_empty_Some in H. Qed.

Lemma x_canonical hj l t r resp : RoundTrip (x_up hj) l t r = Some resp → canonical (resp_Header resp).
Proof.
  intros [= <-] k vs. cbn [resp_Header x_resp]. rewrite lookup_insert_Some, lookup_singleton_Some.
  intros [[<- <-]|[_ [<- <-]]]; split; done || (vm_compute; reflexivity).
Qed.

(** The headers the request leaves with, the actions of a tunnel. *)
Lemma x_runs :
  map_to_list (outbound x_get).(req_Header) = [(go"Accept", [go"*/*"])] ∧
  log <$> (snd <$> ServeHTTP (x_up (Hijacked true)) x_connect x_server) =
    Some [CallFactory go"alice" go"se:cret"; CallDial 7 go"origin.onion:443"; ConnWrite established;
          CallRelay 7; CloseClient; CloseUpstream 7].
Proof. split; vm_compute; reflexivity. Qed.

Lemma ServeHTTP_refines_witness :
  ∃ s' new, ServeHTTP (x_up Unsupported) x_get x_server = Some (Ok tt, s') ∧
    exchange (x_up Unsupported) x_get go"alice" go"se:cret" s' new.
Proof.
  pose proof (ServeHTTP_refines (x_up Unsupported) x_get x_server (x_isolated _) (x_canonical Unsupported)) as H.
  replace (parseBasicAuth (h_Get (req_Header x_get) go"Proxy-Authorization")) with (go"alice", go"se:cret", true) in H
    by (vm_compute; reflexivity).
  destruct H as (s' & new & H1 & _ & _ & H2). exists s', new. split; [exact H1|exact H2].
Defined.

(** Two requests of one identity race: both look up, both build, the second
    publisher gets the first one's transport. *)
Definition x_race : shared :=
  mkShared (mkServer {[ go"k" := 1 ]} [7; 8] []) [] [(go"k", 1); (go"k", 1)] [(go"k", 8); (go"k", 7)].

Lemma x_race_run : rtc tstep fresh_server x_race.
Proof.
  eapply rtc_l; [by apply (T_build go"k" 7)|]. eapply rtc_l; [by apply (T_build go"k" 8)|].
  eapply rtc_l; [apply (T_publish go"k" 1 1 _ (mkServer {[ go"k" := 1 ]} [7; 8] []) [] [(go"k", 0)]); reflexivity|].
  eapply rtc_l; [apply (T_publish go"k" 0 1 _ (mkServer {[ go"k" := 1 ]} [7; 8] []) [] []); reflexivity|]. apply rtc_refl.
Qed.

Lemma transports_isolated_witness :
  ∃ d, t_dialer (srv x_race) !! 1 = Some d ∧ (go"k", d) ∈ gifts x_race.
Proof.
  apply (transports_isolated x_race go"k" go"k" 1 1 x_race_run); by left.
Defined.

Definition x_listener : limitListener := mkListener 1 0 [true; false].

Lemma x_listener_run : rtc lstep new_listener x_listener.
Proof.
  eapply rtc_l; [by apply L_acquire|]. eapply rtc_l; [apply (L_return true); cbn; lia|].
  eapply rtc_l; [by apply L_acquire|]. eapply rtc_l; [apply (L_return true); cbn; lia|].
  eapply rtc_l; [apply (L_close 0)|]. eapply rtc_l; [apply (L_close 0)|]. apply rtc_refl.
Qed.

Lemma listener_bounded_witness : sem x_listener = accepting x_listener + live x_listener ∧ live x_listener = 1.
Proof.
  destruct (listener_bounded x_listener x_listener_run) as (H & _). split; [exact H|reflexivity].
Defined.
