(* ===== verification/RequestCmd.v ===== *)
(** * [cmd/go-tor-client/request_cmd.go]: the curl-like [request] subcommand.

    From the parsed flags to the written response.  Files, the Tor client, the
    HTTP client that dials through it and the output are an environment that
    may depend on everything done so far, and every call on it is recorded;
    what [net/url] and [http.NewRequest] make of a URL and a method are
    functions of the environment. *)

From S2P Require Import Prelude ByteUtil GoNet GoText GoTextFacts Directory Socks HttpProxy.

(** [defer] of a recorded call: it is made on every way out. *)
Definition deferred {K E A} (c : K) (m : prog (list K) E A) : prog (list K) E A := λ l,
  match m l with
  | None => None
  | Some (o, l) => Some (o, l ++ [c])
  end.

Lemma deferred_returns {K E A} (c : K) (m : prog (list K) E A) l (Q : outcome E A → list K → Prop) :
  returns m l (λ o l', Q o (l' ++ [c])) → returns (deferred c m) l Q.
Proof. intros (o & l' & Hm & Hp & H). exists o, (l' ++ [c]). unfold deferred. by rewrite Hm. Qed.

Module RequestCmd.

(** Nanoseconds. *)
Definition second : Z := 1000000000.
Definition onionDefaultTimeout : Z := 3 * 60 * second.

(** [httpOptions]; a nil body is [None]. *)
Record httpOptions := mkOptions {
  url : bytes;
  method : bytes;
  headers : list bytes;
  body : option bytes;
  includeHeaders : bool;
  timeout : Z
}.

(** The outgoing request: what [http.NewRequestWithContext] makes of method, URL
    and body, with the fields [runRequest] sets. *)
Record http_request := mkHttpRequest {
  hr_Method : bytes;
  hr_URL : bytes;
  hr_Body : option bytes;
  hr_Host : bytes;
  hr_Header : Header
}.

(** The timeouts of a request: of the context ([None]: it has no deadline), and of the
    transport (0: none). *)
Record limits := mkLimits { ctx_timeout : option Z; TLSHandshakeTimeout : Z; ResponseHeaderTimeout : Z }.

(** A response, its body as the non-empty reads of [io.Copy]; [rd_ok] tells
    whether they end with the end of file or with an error. *)
Record http_response := mkHttpResponse {
  Proto : bytes;
  Status : bytes;
  rs_Header : Header;
  chunks : list bytes;
  rd_ok : bool
}.

Inductive call :=
| ReadBodyFile (path : bytes)
| NewClient (dataDir : bytes)
| CreateFile (path : bytes)
| Do (r : http_request) (l : limits)
| Write (b : bytes) (ok : bool)
| CloseBody
| CloseFile
| CloseTor.

Inductive cmd_error :=
| MissingURL | BodyFileErr | BootstrapErr | CreateErr | BuildErr | InvalidHeader (h : bytes) | DoErr | OutErr.

Record cmd_env := mkCmdEnv {
  os_ReadFile : list call → bytes → option bytes;
  tor_NewClient : list call → bytes → bool;
  os_Create : list call → bytes → bool;
  url_Hostname : bytes → option bytes;             (* [url.Parse], then [Hostname] *)
  NewRequest : bytes → bytes → option bytes;       (* the [Host] of a valid request *)
  client_Do : list call → http_request → limits → option http_response;
  out_Write : list call → bytes → bool
}.

(** The flags after [fs.Parse]: their values, the names that were given, and
    the other arguments. *)
Record flags := mkFlags {
  f_method : bytes;
  f_headers : list bytes;
  f_data : bytes;
  f_output : bytes;
  f_include : bool;
  f_timeout : Z;
  f_dataDir : bytes;
  f_set : list bytes;
  f_args : list bytes
}.

Notation cmd := (prog (list call) cmd_error).
Definition record_call (c : call) : cmd unit := modify (λ l, l ++ [c]).

(** ** Headers *)

(** [strings.EqualFold(key, "Host")]: the long s folds to an s. *)
Definition is_host (key : bytes) : bool :=
  bool_decide (ToLower key ∈ [go"host"; go"ho" ++ [xc5; xbf] ++ go"t"]).

Definition h_Set (h : Header) (key v : bytes) : Header := <[CanonicalHeaderKey key := [v]]> h.

(** One turn of the loop over the [-H] flags. *)
Definition add_header (h : bytes) (r : http_request) : outcome cmd_error http_request :=
  match Cut h [ch ":"] with
  | None => Err (InvalidHeader h)
  | Some (key, value) =>
      let key := TrimSpace key in
      let value := TrimSpace value in
      if is_host key then Ok (mkHttpRequest (hr_Method r) (hr_URL r) (hr_Body r) value (hr_Header r))
      else Ok (mkHttpRequest (hr_Method r) (hr_URL r) (hr_Body r) (hr_Host r) (h_Set (hr_Header r) key value))
  end.
Fixpoint add_headers (hs : list bytes) (r : http_request) : outcome cmd_error http_request :=
  match hs with
  | [] => Ok r
  | h :: hs => r ← add_header h r; add_headers hs r
  end.

(** [http.Header.Write]: the fields in the order of their names, names that are
    no tokens left out, line breaks in values replaced and values trimmed. *)
Fixpoint bytes_leb (a b : bytes) : bool :=
  match a, b with
  | [], _ => true
  | _, [] => false
  | x :: a, y :: b => (bval x <? bval y)%Z || ((bval x =? bval y)%Z && bytes_leb a b)
  end.
Fixpoint insert_field (f : bytes * list bytes) (fs : list (bytes * list bytes)) : list (bytes * list bytes) :=
  match fs with
  | [] => [f]
  | g :: gs => if bytes_leb f.1 g.1 then f :: g :: gs else g :: insert_field f gs
  end.
Definition sorted_fields (h : Header) : list (bytes * list bytes) :=
  foldr insert_field [] (map_to_list h).
Definition ValidHeaderFieldName (k : bytes) : bool :=
  negb (bool_decide (k = [])) && forallb validHeaderFieldByte k.
Definition newline_to_space (v : bytes) : bytes :=
  map (λ b, if decide (b = cr ∨ b = nl) then ch " " else b) v.
Definition trim_byte (b : byte) : bool := bool_decide (b ∈ [ch " "; x09; nl; cr]).
Fixpoint trim_left (v : bytes) : bytes :=
  match v with
  | [] => []
  | b :: v' => if trim_byte b then trim_left v' else v
  end.
(** [textproto.TrimString]. *)
Definition TrimString (v : bytes) : bytes := reverse (trim_left (reverse (trim_left v))).
Definition field_lines (f : bytes * list bytes) : list bytes :=
  if ValidHeaderFieldName f.1
  then map (λ v, f.1 ++ go": " ++ TrimString (newline_to_space v)) f.2
  else [].
Definition crlf : bytes := [cr; nl].
Definition header_Write (h : Header) : bytes :=
  (sorted_fields h ≫= field_lines) ≫= λ l, l ++ crlf.

Definition status_block (resp : http_response) : bytes :=
  Proto resp ++ [ch " "] ++ Status resp ++ crlf ++ header_Write (rs_Header resp) ++ crlf.

(** ** The command *)

Section Command.
Context (e : cmd_env).

(** For hosts in ASCII. *)
Definition isOnionURL (raw : bytes) : bool :=
  match url_Hostname e raw with
  | None => false
  | Some h => HasPrefix (reverse (ToLower h)) (reverse go".onion")
  end.

Definition resolveBody (d : bytes) : cmd (option bytes) :=
  if decide (d = []) then mret None
  else if HasPrefix d [ch "@"] then
    b ← gets (λ l, os_ReadFile e l (drop 1 d));
    _ ← record_call (ReadBodyFile (drop 1 d));
    match b with None => throw BodyFileErr | Some b => mret (Some b) end
  else mret (Some d).

Definition out_write (b : bytes) : cmd unit :=
  ok ← gets (λ l, out_Write e l b);
  _ ← record_call (Write b ok);
  if ok : bool then mret tt else throw OutErr.

Definition writeStatusAndHeaders (resp : http_response) : cmd unit := out_write (status_block resp).

(** [io.Copy(out, resp.Body)]. *)
Fixpoint copy_chunks (cs : list bytes) : cmd unit :=
  match cs with
  | [] => mret tt
  | c :: cs => _ ← out_write c; copy_chunks cs
  end.
Definition copy_body (resp : http_response) : cmd unit :=
  _ ← copy_chunks (chunks resp);
  if rd_ok resp then mret tt else throw OutErr.

Definition request_limits (o : httpOptions) : limits :=
  mkLimits (if (0 <? timeout o)%Z then Some (timeout o) else None) (timeout o) (timeout o).

Definition runRequest (o : httpOptions) : cmd unit :=
  match NewRequest e (method o) (url o) with
  | None => throw BuildErr
  | Some host =>
      req ← lift (add_headers (headers o) (mkHttpRequest (method o) (url o) (body o) host ∅));
      resp ← gets (λ l, client_Do e l req (request_limits o));
      _ ← record_call (Do req (request_limits o));
      match resp with
      | None => throw DoErr
      | Some resp =>
          deferred CloseBody (
            _ ← (if includeHeaders o then writeStatusAndHeaders resp else mret tt);
            copy_body resp)
      end
  end.

(** The method of the request, and its timeout. *)
Definition chosen_method (f : flags) (b : option bytes) : bytes :=
  if decide (f_method f = []) then match b with Some _ => go"POST" | None => go"GET" end else f_method f.
Definition flagSet (f : flags) (name : bytes) : bool := bool_decide (name ∈ f_set f).
Definition chosen_timeout (f : flags) (u : bytes) : Z :=
  let t := f_timeout f in
  if negb (flagSet f go"timeout") && isOnionURL u && (0 <? t)%Z && (t <? onionDefaultTimeout)%Z
  then onionDefaultTimeout else t.

(** [runRequestCmd] behind the parsing of the flags. *)
Definition runRequestCmd (f : flags) : cmd unit :=
  match f_args f with
  | [] => throw MissingURL
  | u :: _ =>
      b ← resolveBody (f_data f);
      let opts := mkOptions u (chosen_method f b) (f_headers f) b (f_include f) (chosen_timeout f u) in
      up ← gets (λ l, tor_NewClient e l (f_dataDir f));
      _ ← record_call (NewClient (f_dataDir f));
      if negb up then throw BootstrapErr
      else
        deferred CloseTor (
          if decide (f_output f = []) then runRequest opts
          else
            ok ← gets (λ l, os_Create e l (f_output f));
            _ ← record_call (CreateFile (f_output f));
            if negb ok then throw CreateErr
            else deferred CloseFile (runRequest opts))
  end.

End Command.

(** * Facts *)

(** What was written to the output. *)
Definition written (l : list call) : bytes :=
  l ≫= λ c, match c with Write b true => b | _ => [] end.
Definition is_write (c : call) : Prop := ∃ b ok, c = Write b ok.

Lemma written_app l l' : written (l ++ l') = written l ++ written l'.
Proof. unfold written. by rewrite bind_app. Qed.

(** ** Request headers *)

(** The meaning of a [-H] flag: its name and value. *)
Definition header_field (h : bytes) : option (bytes * bytes) :=
  '(k, v) ← Cut h [ch ":"]; Some (TrimSpace k, TrimSpace v).

Definition last_value (p : bytes → bool) (fs : list (bytes * bytes)) : option bytes :=
  f ← list_basics.list.last (List.filter (λ f, p f.1) fs); Some f.2.

Lemma last_value_cons p f fs :
  last_value p (f :: fs) = match last_value p fs with Some v => Some v | None => if p f.1 then Some f.2 else None end.
Proof.
  unfold last_value. cbn [List.filter]. destruct (p f.1); [|by destruct (list_basics.list.last _)].
  rewrite last_cons. by destruct (list_basics.list.last _).
Qed.

(** Repeated headers: the last one wins, names compared in canonical form; Host
    headers set the request's host. *)
Lemma add_headers_spec hs r r' : add_headers hs r = Ok r' →
  ∃ fs, mapM header_field hs = Some fs ∧
    hr_Method r' = hr_Method r ∧ hr_URL r' = hr_URL r ∧ hr_Body r' = hr_Body r ∧
    hr_Host r' = default (hr_Host r) (last_value is_host fs) ∧
    ∀ k, hr_Header r' !! k =
      match last_value (λ n, negb (is_host n) && bool_decide (CanonicalHeaderKey n = k)) fs with
      | Some v => Some [v]
      | None => hr_Header r !! k
      end.
Proof.
  revert r. induction hs as [|h hs IH]; intros r; cbn [add_headers].
  { intros [= <-]. by exists []. }
  intros (r1 & H1 & H2)%bind_Ok. unfold add_header in H1.
  destruct (Cut h [ch ":"]) as [[k v]|] eqn:Ec; [|done].
  destruct (IH _ H2) as (fs & Hfs & Hm & Hu & Hb & Hh & Hk).
  exists ((TrimSpace k, TrimSpace v) :: fs). split.
  { assert (header_field h = Some (TrimSpace k, TrimSpace v)) as Hf by (unfold header_field; by rewrite Ec).
    apply mapM_Some. constructor; [done|]. by apply mapM_Some. }
  setoid_rewrite last_value_cons. cbn [fst snd].
  destruct (is_host (TrimSpace k)) eqn:Eh; injection H1 as <-;
    cbn [hr_Method hr_URL hr_Body hr_Host hr_Header negb andb] in *.
  - split_and!; [done..| |].
    + rewrite Hh. by destruct (last_value is_host fs).
    + intros k'. rewrite Hk. clear Hk. by destruct (last_value (λ n, negb (is_host n) && bool_decide (CanonicalHeaderKey n = k')) fs).
  - split_and!; [done..| |].
    + rewrite Hh. by destruct (last_value is_host fs).
    + intros k'. rewrite Hk. clear Hk. destruct (last_value (λ n, negb (is_host n) && bool_decide (CanonicalHeaderKey n = k')) fs); [done|]. unfold h_Set.
      destruct (decide (CanonicalHeaderKey (TrimSpace k) = k')) as [<-|Hne].
      * by rewrite lookup_insert_eq, bool_decide_true.
      * by rewrite lookup_insert_ne, bool_decide_false.
Qed.

(** ** Response headers *)

Definition one_line (l : bytes) : Prop := cr ∉ l ∧ nl ∉ l.

Lemma trim_left_elem b v : b ∈ trim_left v → b ∈ v.
Proof. induction v as [|c v IH]; cbn [trim_left]; [done|]. destruct (trim_byte c); [|done]. right. by apply IH. Qed.
Lemma TrimString_elem b v : b ∈ TrimString v → b ∈ v.
Proof. unfold TrimString. rewrite elem_of_reverse. by intros ?%trim_left_elem%elem_of_reverse%trim_left_elem. Qed.

Lemma newline_to_space_line v : one_line (newline_to_space v).
Proof.
  unfold one_line, newline_to_space. split; intros (b & Hb & _)%list_elem_of_fmap; case_decide as Hd; [done| |done|];
    apply Hd; auto.
Qed.

Lemma token_line k : ValidHeaderFieldName k = true → one_line k.
Proof.
  unfold ValidHeaderFieldName. intros [_ H]%andb_prop. rewrite forallb_forall in H.
  split; intros Hin%list_elem_of_In%H; vm_compute in Hin; discriminate.
Qed.

Lemma field_lines_line f : Forall one_line (field_lines f).
Proof.
  unfold field_lines. destruct (ValidHeaderFieldName f.1) eqn:E; [|apply List.Forall_nil].
  apply list.Forall_forall. intros l (v & -> & _)%list_elem_of_fmap.
  destruct (token_line _ E) as [K1 K2]. destruct (newline_to_space_line v) as [V1 V2].
  assert (cr ∉ go": " ∧ nl ∉ go": ") as [C1 C2] by (split; apply (bool_decide_unpack _); vm_compute; exact I).
  split; rewrite !elem_of_app; intros [?|[?|H]]; try done; apply TrimString_elem in H; done.
Qed.

Lemma insert_field_perm f fs : insert_field f fs ≡ₚ f :: fs.
Proof.
  induction fs as [|g fs IH]; cbn [insert_field]; [done|]. destruct (bytes_leb f.1 g.1); [done|].
  rewrite IH. apply Permutation_swap.
Qed.
Lemma sorted_fields_perm h : sorted_fields h ≡ₚ map_to_list h.
Proof.
  unfold sorted_fields. induction (map_to_list h) as [|f fs IH]; cbn [foldr]; [done|].
  by rewrite insert_field_perm, IH.
Qed.

(** The printed headers cannot be forged by the values: whatever bytes a server
    sends, every value of a well-named field is printed on one line of its own,
    behind its name, and nothing else is printed. *)
Theorem header_lines (h : Header) : ∃ lines,
  header_Write h = (lines ≫= λ l, l ++ crlf) ∧ Forall one_line lines ∧
  lines ≡ₚ (map_to_list h ≫= field_lines).
Proof.
  exists (sorted_fields h ≫= field_lines). split_and!; [done| |].
  - apply list.Forall_forall. intros l (f & Hl & _)%list_elem_of_bind.
    pose proof (field_lines_line f) as H. rewrite list.Forall_forall in H. by apply H.
  - by rewrite sorted_fields_perm.
Qed.

(** ** What a request does *)

Section Session.
Context (e : cmd_env).

(** The request sent for the options: as given, with every [-H] flag in effect. *)
Definition sent (o : httpOptions) (r : http_request) : Prop :=
  ∃ host fs, NewRequest e (method o) (url o) = Some host ∧ mapM header_field (headers o) = Some fs ∧
    hr_Method r = method o ∧ hr_URL r = url o ∧ hr_Body r = body o ∧
    hr_Host r = default host (last_value is_host fs) ∧
    ∀ k, hr_Header r !! k =
      (v ← last_value (λ n, negb (is_host n) && bool_decide (CanonicalHeaderKey n = k)) fs; Some [v]).

(** The calls of one HTTP exchange after [l], and how it ends. *)
Inductive transfer (o : httpOptions) (l : list call) : outcome cmd_error unit → list call → Prop :=
| T_refused er : (er = BuildErr ∧ NewRequest e (method o) (url o) = None ∨
                  ∃ h, er = InvalidHeader h ∧ h ∈ headers o ∧ header_field h = None) →
    transfer o l (Err er) []
| T_failed r : sent o r → client_Do e l r (request_limits o) = None →
    transfer o l (Err DoErr) [Do r (request_limits o)]
| T_answered r resp ws res : sent o r → client_Do e l r (request_limits o) = Some resp → Forall is_write ws →
    (res = Ok tt ∧ rd_ok resp = true ∧
       written ws = (if includeHeaders o then status_block resp else []) ++ mjoin (chunks resp)) ∨
    res = Err OutErr ∧ (rd_ok resp = false ∨ ∃ l' b, out_Write e l' b = false) →
    transfer o l res ([Do r (request_limits o)] ++ ws ++ [CloseBody]).

(** The body a [-d] flag asks for, after the calls [l]. *)
Definition body_given (l : list call) (d : bytes) (b : option bytes) : Prop :=
  match d with
  | [] => b = None
  | c :: path => if decide (c = ch "@") then os_ReadFile e l path = b ∧ b ≠ None else b = Some d
  end.

(** The calls of the command: the client is closed on every way out that started it,
    the output file too and before it; nothing is sent unless both are up. *)
Inductive session (f : flags) (l : list call) : outcome cmd_error unit → list call → Prop :=
| S_usage : f_args f = [] → session f l (Err MissingURL) []
| S_body : os_ReadFile e l (drop 1 (f_data f)) = None → session f l (Err BodyFileErr) [ReadBodyFile (drop 1 (f_data f))]
| S_bootstrap pre : pre ∈ [[]; [ReadBodyFile (drop 1 (f_data f))]] → tor_NewClient e (l ++ pre) (f_dataDir f) = false →
    session f l (Err BootstrapErr) (pre ++ [NewClient (f_dataDir f)])
| S_stdout u rest b pre m res : f_args f = u :: rest → f_output f = [] →
    pre ∈ [[]; [ReadBodyFile (drop 1 (f_data f))]] → body_given l (f_data f) b →
    transfer (mkOptions u (chosen_method f b) (f_headers f) b (f_include f) (chosen_timeout e f u))
      (l ++ pre ++ [NewClient (f_dataDir f)]) res m →
    session f l res (pre ++ [NewClient (f_dataDir f)] ++ m ++ [CloseTor])
| S_create pre : pre ∈ [[]; [ReadBodyFile (drop 1 (f_data f))]] → f_output f ≠ [] →
    os_Create e (l ++ pre ++ [NewClient (f_dataDir f)]) (f_output f) = false →
    session f l (Err CreateErr) (pre ++ [NewClient (f_dataDir f); CreateFile (f_output f); CloseTor])
| S_file u rest b pre m res : f_args f = u :: rest → f_output f ≠ [] →
    pre ∈ [[]; [ReadBodyFile (drop 1 (f_data f))]] → body_given l (f_data f) b →
    transfer (mkOptions u (chosen_method f b) (f_headers f) b (f_include f) (chosen_timeout e f u))
      (l ++ pre ++ [NewClient (f_dataDir f); CreateFile (f_output f)]) res m →
    session f l res (pre ++ [NewClient (f_dataDir f); CreateFile (f_output f)] ++ m ++ [CloseFile; CloseTor]).

Lemma out_write_returns b l : returns (out_write e b) l (λ o l', l' = l ++ [Write b (out_Write e l b)] ∧
  o = if out_Write e l b then Ok tt else Err OutErr).
Proof.
  unfold out_write. apply returns_bind, returns_gets, returns_bind, returns_modify.
  by destruct (out_Write e l b); [apply returns_ret|apply returns_throw].
Qed.

Definition write_fails : Prop := ∃ l b, out_Write e l b = false.

(** Writing a list of pieces: all of them, or a failure. *)
Definition pieces_written (bs : list bytes) (l : list call) (o : outcome cmd_error unit) (l' : list call) : Prop :=
  ∃ ws, l' = l ++ ws ∧ Forall is_write ws ∧ (o = Ok tt ∧ written ws = mjoin bs ∨ o = Err OutErr ∧ write_fails).

Lemma copy_chunks_returns bs l : returns (copy_chunks e bs) l (pieces_written bs l).
Proof.
  revert l. induction bs as [|b bs IH]; intros l; cbn [copy_chunks].
  { apply returns_ret. exists []. rewrite app_nil_r. split_and!; [done|apply List.Forall_nil|by left]. }
  apply returns_bind. eapply returns_weaken; [apply out_write_returns|]. intros o l1 _ (-> & ->).
  assert (is_write (Write b (out_Write e l b))) as Hw by (by eexists _, _).
  destruct (out_Write e l b) eqn:Ew.
  - eapply returns_weaken; [apply IH|]. intros o l2 _ (ws & -> & Hws & Hend). exists (Write b true :: ws).
    rewrite <-app_assoc. split_and!; [done|by apply List.Forall_cons|].
    destruct Hend as [(-> & He)|Hend]; [left|by right]. split; [done|].
    change (written (Write b true :: ws)) with (b ++ written ws). by rewrite He.
  - eexists. split_and!; [done|apply List.Forall_cons; [done|apply List.Forall_nil]|right; split; [done|by eexists _, _]].
Qed.

Lemma copy_body_returns resp l : returns (copy_body e resp) l (λ o l', ∃ ws, l' = l ++ ws ∧ Forall is_write ws ∧
  (o = Ok tt ∧ rd_ok resp = true ∧ written ws = mjoin (chunks resp) ∨
   o = Err OutErr ∧ (rd_ok resp = false ∨ write_fails))).
Proof.
  apply returns_bind. eapply returns_weaken; [apply copy_chunks_returns|].
  intros o l1 _ (ws & -> & Hws & [(-> & He)|(-> & He)]); [|exists ws; auto 10].
  destruct (rd_ok resp) eqn:Er; [apply returns_ret|apply returns_throw]; exists ws; auto 10.
Qed.

Lemma add_headers_cases hs r : (∃ r', add_headers hs r = Ok r') ∨
  ∃ h, add_headers hs r = Err (InvalidHeader h) ∧ h ∈ hs ∧ header_field h = None.
Proof.
  revert r. induction hs as [|h hs IH]; intros r; cbn [add_headers]; [by left; exists r|].
  unfold add_header, header_field. destruct (Cut h [ch ":"]) as [[k v]|] eqn:Ec.
  - destruct (is_host (TrimSpace k)); cbn [mbind outcome_bind];
      (match goal with |- context [add_headers hs ?r1] => destruct (IH r1) as [[r' H]|(h' & H & Hin & Hf)] end;
       [left; by exists r'|right; exists h'; split_and!; [done|by right|done]]).
  - right. exists h. rewrite Ec. split_and!; [done|by left|done].
Qed.

Lemma runRequest_returns o l : returns (runRequest e o) l (λ res l', ∃ ext, l' = l ++ ext ∧ transfer o l res ext).
Proof.
  unfold runRequest. destruct (NewRequest e (method o) (url o)) as [host|] eqn:En.
  2: { apply returns_throw. exists []. rewrite app_nil_r. split; [done|]. apply T_refused. by left. }
  apply returns_bind.
  destruct (add_headers_cases (headers o) (mkHttpRequest (method o) (url o) (body o) host ∅)) as [[r Hr]|(h & Hr & Hin & Hf)];
    rewrite Hr; (apply returns_lift; [done|]).
  2: { exists []. rewrite app_nil_r. split; [done|]. apply T_refused. right. by exists h. }
  assert (sent o r) as Hs.
  { destruct (add_headers_spec _ _ _ Hr) as (fs & ? & ? & ? & ? & ? & Hk). by exists host, fs. }
  apply returns_bind, returns_gets, returns_bind, returns_modify.
  destruct (client_Do e l r (request_limits o)) as [resp|] eqn:Ed.
  2: { apply returns_throw. eexists. split; [done|]. by apply T_failed. }
  apply deferred_returns, returns_bind.
  destruct (includeHeaders o) eqn:Ei.
  - eapply returns_weaken; [apply out_write_returns|]. intros o1 l1 _ (-> & ->). destruct (out_Write e _ (status_block resp)) eqn:Ew.
    + eapply returns_weaken; [apply copy_body_returns|]. intros o2 l2 _ (ws & -> & Hws & Hend).
      eexists ([Do r (request_limits o)] ++ (Write (status_block resp) true :: ws) ++ [CloseBody]).
      split; [by rewrite <-!app_assoc|]. eapply T_answered; [done..| |].
      * apply List.Forall_cons; [by eexists _, _|done].
      * rewrite Ei. destruct Hend as [(-> & ? & He)|Hend]; [left|by right]. split_and!; [done..|].
        change (written (?a :: ws)) with (status_block resp ++ written ws). by rewrite He.
    + eexists ([Do r (request_limits o)] ++ [Write (status_block resp) false] ++ [CloseBody]).
      split; [by rewrite <-!app_assoc|]. eapply T_answered; [done..| |right; split; [done|]; right; by eexists _, _].
      apply List.Forall_cons; [by eexists _, _|apply List.Forall_nil].
  - apply returns_ret. eapply returns_weaken; [apply copy_body_returns|]. intros o2 l2 _ (ws & -> & Hws & Hend).
    exists ([Do r (request_limits o)] ++ ws ++ [CloseBody]). split; [by rewrite <-!app_assoc|].
    eapply T_answered; [done..|]. by rewrite Ei.
Qed.

Lemma resolveBody_returns d l : returns (resolveBody e d) l (λ o l', ∃ pre, l' = l ++ pre ∧
  match o with
  | Ok b => pre ∈ [[]; [ReadBodyFile (drop 1 d)]] ∧ body_given l d b
  | Err er => er = BodyFileErr ∧ pre = [ReadBodyFile (drop 1 d)] ∧ os_ReadFile e l (drop 1 d) = None
  | Panic => False
  end).
Proof.
  assert (∀ b, body_given l d b → returns (mret b : cmd (option bytes)) l (λ o l', ∃ pre, l' = l ++ pre ∧
    match o with
    | Ok b => pre ∈ [[]; [ReadBodyFile (drop 1 d)]] ∧ body_given l d b
    | Err er => er = BodyFileErr ∧ pre = [ReadBodyFile (drop 1 d)] ∧ os_ReadFile e l (drop 1 d) = None
    | Panic => False
    end)) as Hret.
  { intros b Hb. apply returns_ret. exists []. rewrite app_nil_r. split_and!; [done|by left|done]. }
  unfold resolveBody. destruct d as [|c path]; [by apply Hret|]. rewrite decide_False by done.
  destruct (decide (c = ch "@")) as [->|Hc].
  - rewrite (proj2 (HasPrefix_spec (ch "@" :: path) [ch "@"])) by (by exists path).
    apply returns_bind, returns_gets, returns_bind, returns_modify. change (drop 1 (ch "@" :: path)) with path in *.
    destruct (os_ReadFile e l path) eqn:Er; [apply returns_ret|apply returns_throw]; eexists; (split; [done|]); [|done].
    split; [right; by left|done].
  - assert (HasPrefix (c :: path) [ch "@"] = false) as ->.
    { apply not_true_is_false. intros [t Ht]%HasPrefix_spec. by injection Ht. }
    apply Hret. cbn [body_given]. by rewrite decide_False.
Qed.

(** The command always returns, without a panic, and what it does is one of
    these sessions: a request leaves only through a client that was started,
    and client and output file are released on every way out; a success means
    that the whole response was written. *)
Theorem request_refines (f : flags) (l : list call) :
  returns (runRequestCmd e f) l (λ res l', ∃ ext, l' = l ++ ext ∧ session f l res ext).
Proof.
  unfold runRequestCmd. destruct (f_args f) as [|u rest] eqn:Ea.
  { apply returns_throw. exists []. rewrite app_nil_r. split; [done|by apply S_usage]. }
  apply returns_bind. eapply returns_weaken; [apply resolveBody_returns|].
  intros [b|er|] l1 Hp (pre & -> & Hpre); [|destruct Hpre as (-> & -> & Hn); eexists; split; [done|by apply S_body]|done].
  destruct Hpre as [Hpre Hb].
  apply returns_bind, returns_gets, returns_bind, returns_modify.
  destruct (tor_NewClient e (l ++ pre) (f_dataDir f)) eqn:Eu; cbn [negb].
  2: { apply returns_throw. eexists. split; [by rewrite <-app_assoc|by apply S_bootstrap]. }
  apply deferred_returns. destruct (decide (f_output f = [])) as [Eo|Eo].
  - eapply returns_weaken; [apply runRequest_returns|]. intros res l2 _ (m & -> & Hm). eexists.
    split; [by rewrite <-!app_assoc|]. rewrite <-app_assoc in Hm. by eapply S_stdout.
  - apply returns_bind, returns_gets, returns_bind, returns_modify.
    destruct (os_Create e ((l ++ pre) ++ [NewClient (f_dataDir f)]) (f_output f)) eqn:Ec; cbn [negb].
    + apply deferred_returns. eapply returns_weaken; [apply runRequest_returns|]. intros res l2 _ (m & -> & Hm).
      eexists. split; [by rewrite <-!app_assoc|]. rewrite <-!app_assoc in Hm. by eapply (S_file f l u).
    + apply returns_throw. eexists. rewrite <-app_assoc in Ec. split; [by rewrite <-!app_assoc|by apply S_create].
Qed.

(** ** What a session sends and writes *)

Definition is_do (c : call) : bool := match c with Do _ _ => true | _ => false end.
Definition requests (l : list call) : list call := List.filter is_do l.

Lemma requests_app l l' : requests (l ++ l') = requests l ++ requests l'.
Proof. apply List.filter_app. Qed.
Lemma requests_writes ws : Forall is_write ws → requests ws = [].
Proof. by induction 1 as [|c ws (b & ok & ->) _ IH]. Qed.
Lemma pre_silent d (pre : list call) : pre ∈ [[]; [ReadBodyFile d]] → requests pre = [] ∧ written pre = [].
Proof. rewrite !elem_of_cons, elem_of_nil. by intros [->|[->|[]]]. Qed.

Lemma transfer_sends o l res m : transfer o l res m →
  requests m = [] ∧ res ≠ Ok tt ∨
  ∃ r, requests m = [Do r (request_limits o)] ∧ sent o r ∧
    (res = Ok tt → ∃ resp, client_Do e l r (request_limits o) = Some resp ∧ rd_ok resp = true ∧
       written m = (if includeHeaders o then status_block resp else []) ++ mjoin (chunks resp)).
Proof.
  intros [er _|r Hs _|r resp ws res' Hs Hd Hw Hres]; [by left|right..]; exists r; [by split_and!|].
  rewrite !requests_app, (requests_writes ws) by done. split_and!; [done..|]. intros ->.
  destruct Hres as [(_ & Hr & Hwr)|[? _]]; [|done]. exists resp. split_and!; [done..|].
  rewrite !written_app, Hwr. apply app_nil_r.
Qed.

(** The options a command line with the body [b] stands for. *)
Definition options_of (f : flags) (u : bytes) (b : option bytes) : httpOptions :=
  mkOptions u (chosen_method f b) (f_headers f) b (f_include f) (chosen_timeout e f u).

Lemma session_sends f l res ext : session f l res ext →
  requests ext = [] ∧ res ≠ Ok tt ∨
  ∃ u rest b r l', f_args f = u :: rest ∧ body_given l (f_data f) b ∧
    requests ext = [Do r (request_limits (options_of f u b))] ∧ sent (options_of f u b) r ∧
    NewClient (f_dataDir f) ∈ ext ∧ (f_output f ≠ [] → CreateFile (f_output f) ∈ ext) ∧
    (res = Ok tt → ∃ resp, client_Do e l' r (request_limits (options_of f u b)) = Some resp ∧ rd_ok resp = true ∧
       written ext = (if f_include f then status_block resp else []) ++ mjoin (chunks resp)).
Proof.
  intros [Ha|Hr|pre Hp Hn|u rest b pre m res' Ha Ho Hp Hb Ht|pre Hp Ho Hc|u rest b pre m res' Ha Ho Hp Hb Ht];
    [left; by split|left; by split|left| |left|]; apply pre_silent in Hp as [Hp1 Hp2].
  1,3: split; [by rewrite requests_app, Hp1|done].
  all: destruct (transfer_sends _ _ _ _ Ht) as [[Hm Hres]|(r & Hm & Hs & Hok)];
    [left; split; [by rewrite !requests_app, Hp1, Hm|done]|right].
  all: exists u, rest, b, r; eexists; split_and!; [done|done|by rewrite !requests_app, Hp1, Hm|done| | |].
  - rewrite !elem_of_app. right. left. by left.
  - done.
  - intros Hr. destruct (Hok Hr) as (resp & H1 & H2 & H3). exists resp. split_and!; [exact H1|done|].
    rewrite !written_app, Hp2, H3. by rewrite app_nil_r.
  - rewrite !elem_of_app. right. left. by left.
  - intros _. rewrite !elem_of_app. right. left. right. by left.
  - intros Hr. destruct (Hok Hr) as (resp & H1 & H2 & H3). exists resp. split_and!; [exact H1|done|].
    rewrite !written_app, Hp2, H3. by rewrite app_nil_r.
Qed.

(** Nothing the command asks of its environment fails. *)
Record all_up : Prop := {
  up_file l p : os_ReadFile e l p ≠ None;
  up_tor l d : tor_NewClient e l d = true;
  up_create l p : os_Create e l p = true;
  up_request m u : NewRequest e m u ≠ None;
  up_do l r lim : ∃ resp, client_Do e l r lim = Some resp ∧ rd_ok resp = true;
  up_write l b : out_Write e l b = true
}.

Lemma transfer_up o l res m : all_up → Forall (λ h, header_field h ≠ None) (headers o) → transfer o l res m → res = Ok tt.
Proof.
  intros U Hh [er [[_ H]|(h & _ & Hin & Hn)]|r _ H|r resp ws res' _ Hd _ [(-> & _)|(_ & H)]]; [| | |done|].
  - by apply (up_request U) in H.
  - rewrite list.Forall_forall in Hh. by apply Hh in Hin.
  - destruct (up_do U l r (request_limits o)) as (? & ? & _). congruence.
  - destruct (up_do U l r (request_limits o)) as (? & ? & ?). destruct H as [H|(l' & b & H)]; [congruence|].
    by rewrite (up_write U) in H.
Qed.

Lemma session_up f l res ext : all_up → Forall (λ h, header_field h ≠ None) (f_headers f) → f_args f ≠ [] →
  session f l res ext → res = Ok tt.
Proof.
  intros U Hh Ha [?|H|pre _ H|u rest b pre m res' _ _ _ _ Ht|pre _ _ H|u rest b pre m res' _ _ _ _ Ht].
  - done.
  - by apply (up_file U) in H.
  - by rewrite (up_tor U) in H.
  - eapply transfer_up; [exact U| |exact Ht]. exact Hh.
  - by rewrite (up_create U) in H.
  - eapply transfer_up; [exact U| |exact Ht]. exact Hh.
Qed.

End Session.

(** ** A concrete run *)

(** An origin whose header value tries to start a line of its own. *)
Definition x_resp : http_response :=
  mkHttpResponse go"HTTP/1.1" go"200 OK"
    (list_to_map [(go"X-B", [go"2" ++ crlf ++ go"Set-Cookie: x"]); (go"X-A", [go" 1 "])]) [go"he"; go"llo"] true.
Definition x_env : cmd_env := {|
  os_ReadFile := λ _ _, None;
  tor_NewClient := λ _ _, true;
  os_Create := λ _ _, true;
  url_Hostname := λ _, Some go"abc.ONION";
  NewRequest := λ _ _, Some go"abc.onion";
  client_Do := λ _ _ _, Some x_resp;
  out_Write := λ _ _, true
|}.
Definition x_flags : flags :=
  mkFlags [] [go"hOsT: example.org"; go"x-a: 1"; go"X-A : 2"] go"d=1" go"out" true (60 * second) [] [] [go"http://abc.onion/"].

(** A body makes the method POST, the onion host extends the timeout, the Host
    header names the host and a later header replaces an earlier one; the forged
    line stays inside its value. *)
Example request_run :
  match runRequestCmd x_env x_flags [] with
  | Some (Ok tt, [NewClient _; CreateFile _; Do r l; Write a true; Write b true; Write c true; CloseBody; CloseFile; CloseTor]) =>
      hr_Method r = go"POST" ∧ hr_Host r = go"example.org" ∧ map_to_list (hr_Header r) = [(go"X-A", [go"2"])] ∧
      ctx_timeout l = Some (180 * second)%Z ∧ b ++ c = go"hello" ∧
      a = go"HTTP/1.1 200 OK" ++ crlf ++ go"X-A: 1" ++ crlf ++ go"X-B: 2  Set-Cookie: x" ++ crlf ++ crlf
  | _ => False
  end.
Proof. vm_compute. split_and!; reflexivity. Qed.

End RequestCmd.
