(* ===== verification/ProxyCmd.v ===== *)
(** * [cmd/go-tor-client]: the proxy subcommands.

    [runSocks] and [runHTTP] behind the parsing of their flags, the warning for
    listeners others can reach, and the dispatch of [main].  Starting clients,
    listening and serving are an environment that sees the calls made so far. *)

From S2P Require Import Prelude ByteUtil GoNet GoText GoTextFacts Directory Socks HttpProxy RequestCmd.

Module ProxyCmd.

(** [pkg/httpproxy]'s [Serve], around the server of [net/http] it starts. *)
Record http_server := mkHttpServer { ReadHeaderTimeout : Z; IdleTimeout : Z; MaxHeaderBytes : Z; conns : nat }.
Definition http_config : http_server :=
  mkHttpServer (30 * RequestCmd.second) (60 * RequestCmd.second) (2 ^ 20) maxConcurrentConns.

(** The case of the select: the context ended, or the server returned an error,
    [true] for [http.ErrServerClosed]. *)
Inductive serve_case := CtxDone | ServerReturned (closed : bool).

Inductive call :=
| NewClient (dataDir : bytes)
| Listen (addr : bytes)
| WarnPublic (addr : bytes)
| StartSocks
| StartHttp (srv : http_server)
| Shutdown (within : Z)
| CloseListener
| CloseAll.

Inductive cmd_error := BootstrapErr | ListenErr | ServeErr.

(** [net.Listen] answers with the address that was bound. *)
Record cmd_env := mkCmdEnv {
  tor_NewClient : list call → bytes → bool;
  net_Listen : list call → bytes → option bytes;
  socks_Serve : list call → bool;
  http_select : list call → serve_case
}.

Notation cmd := (prog (list call) cmd_error).
Definition record_call (c : call) : cmd unit := modify (λ l, l ++ [c]).

(** [IP.IsLoopback]. *)
Definition IsLoopback (ip : bytes) : bool :=
  match To4 (Some ip) with
  | Some v4 => bool_decide (head v4 = Some x7f)
  | None => bool_decide (ip = replicate 15 x00 ++ [x01])
  end.

Definition public_listener (addr : bytes) : bool :=
  match SplitHostPort addr with
  | Ok (host, _) => match ParseIP host with Some ip => negb (IsLoopback ip) | None => false end
  | _ => false
  end.
Definition warnIfPublicListener (addr : bytes) : cmd unit :=
  if public_listener addr then record_call (WarnPublic addr) else mret tt.

Section Commands.
Context (e : cmd_env).

Definition Serve : cmd unit :=
  _ ← record_call (StartHttp http_config);
  c ← gets (http_select e);
  match c with
  | CtxDone => record_call (Shutdown (5 * RequestCmd.second))
  | ServerReturned true => mret tt
  | ServerReturned false => throw ServeErr
  end.

Definition serve_socks : cmd unit :=
  _ ← record_call StartSocks;
  ok ← gets (socks_Serve e);
  if ok : bool then mret tt else throw ServeErr.

(** The part the two commands share: client, pool, listener. *)
Definition run_proxy (serve : cmd unit) (listen dataDir : bytes) : cmd unit :=
  up ← gets (λ l, tor_NewClient e l dataDir);
  _ ← record_call (NewClient dataDir);
  if negb up then throw BootstrapErr
  else
    deferred CloseAll (
      ln ← gets (λ l, net_Listen e l listen);
      _ ← record_call (Listen listen);
      match ln with
      | None => throw ListenErr
      | Some addr =>
          deferred CloseListener (
            _ ← warnIfPublicListener addr;
            serve)
      end).

Definition runSocks (listen dataDir : bytes) : cmd unit := run_proxy serve_socks listen dataDir.
Definition runHTTP (listen dataDir : bytes) : cmd unit := run_proxy Serve listen dataDir.

(** ** What the commands do *)

Inductive serving : outcome cmd_error unit → list call → Prop :=
| V_socks (ok : bool) : serving (if ok then Ok tt else Err ServeErr) [StartSocks]
| V_http_ended : serving (Ok tt) [StartHttp http_config; Shutdown (5 * RequestCmd.second)]
| V_http_returned (closed : bool) : serving (if closed then Ok tt else Err ServeErr) [StartHttp http_config].

(** The calls of a proxy command, given what it was asked to bind. *)
Inductive proxy_session (listen dataDir : bytes) (l : list call) : outcome cmd_error unit → list call → Prop :=
| P_bootstrap : proxy_session listen dataDir l (Err BootstrapErr) [NewClient dataDir]
| P_listen : proxy_session listen dataDir l (Err ListenErr) [NewClient dataDir; Listen listen; CloseAll]
| P_served addr res m : net_Listen e (l ++ [NewClient dataDir]) listen = Some addr → serving res m →
    proxy_session listen dataDir l res
      ([NewClient dataDir; Listen listen] ++ (if public_listener addr then [WarnPublic addr] else []) ++ m ++
       [CloseListener; CloseAll]).

Lemma Serve_returns l : returns Serve l (λ o l', ∃ m, l' = l ++ m ∧ serving o m).
Proof.
  apply returns_bind, returns_modify, returns_bind, returns_gets.
  destruct (http_select e _) as [|[]].
  - apply returns_modify. eexists. split; [by rewrite <-app_assoc|apply V_http_ended].
  - apply returns_ret. eexists. split; [done|apply (V_http_returned true)].
  - apply returns_throw. eexists. split; [done|apply (V_http_returned false)].
Qed.

Lemma serve_socks_returns l : returns serve_socks l (λ o l', ∃ m, l' = l ++ m ∧ serving o m).
Proof.
  apply returns_bind, returns_modify, returns_bind, returns_gets.
  destruct (socks_Serve e _); [apply returns_ret|apply returns_throw]; (eexists; split; [done|]);
    [apply (V_socks true)|apply (V_socks false)].
Qed.

Lemma run_proxy_returns serve listen dataDir l :
  (∀ l, returns serve l (λ o l', ∃ m, l' = l ++ m ∧ serving o m)) →
  returns (run_proxy serve listen dataDir) l (λ o l', ∃ ext, l' = l ++ ext ∧ proxy_session listen dataDir l o ext).
Proof.
  intros Hs. apply returns_bind, returns_gets, returns_bind, returns_modify.
  destruct (tor_NewClient e l dataDir); cbn [negb].
  2: { apply returns_throw. eexists. split; [done|apply P_bootstrap]. }
  apply deferred_returns, returns_bind, returns_gets, returns_bind, returns_modify.
  destruct (net_Listen e (l ++ [NewClient dataDir]) listen) as [addr|] eqn:El.
  2: { apply returns_throw. eexists. split; [by rewrite <-!app_assoc|apply P_listen]. }
  apply deferred_returns, returns_bind.
  assert (returns (warnIfPublicListener addr) ((l ++ [NewClient dataDir]) ++ [Listen listen]) (λ o l',
    o = Ok tt ∧ l' = ((l ++ [NewClient dataDir]) ++ [Listen listen]) ++
      (if public_listener addr then [WarnPublic addr] else []))) as Hw.
  { unfold warnIfPublicListener. destruct (public_listener addr); [by apply returns_modify|].
    apply returns_ret. by rewrite app_nil_r. }
  eapply returns_weaken; [exact Hw|]. intros o l1 _ [-> ->].
  eapply returns_weaken; [apply Hs|]. intros o l2 _ (m & -> & Hm).
  eexists. split; [by rewrite <-!app_assoc|]. by apply (P_served listen dataDir l addr).
Qed.

(** Both proxies, whatever the network does: nothing is listened on before a
    client is up, nobody is served without the warning when the bound address
    is a public one, and the listener and every client are closed on each way
    out that opened them. *)
Theorem proxy_commands (listen dataDir : bytes) (l : list call) :
  Forall (λ run, returns (run listen dataDir) l (λ o l', ∃ ext, l' = l ++ ext ∧ proxy_session listen dataDir l o ext))
    [runSocks; runHTTP].
Proof.
  apply List.Forall_cons; [|apply List.Forall_cons; [|apply List.Forall_nil]]; apply run_proxy_returns.
  - apply serve_socks_returns.
  - apply Serve_returns.
Qed.

End Commands.

(** ** The dispatch of [main] *)

Inductive subcommand := Usage (code : Z) | CmdSocks | CmdHTTP | CmdRequest.
(** [main] on the arguments behind the program's name. *)
Definition main (args : list bytes) : subcommand :=
  match args with
  | [] => Usage 2
  | c :: _ =>
      if decide (c = go"socks") then CmdSocks
      else if decide (c = go"http") then CmdHTTP
      else if decide (c = go"request") then CmdRequest
      else if decide (c ∈ [go"-h"; go"--help"; go"help"]) then Usage 0
      else Usage 2
  end.

(** A listener on every address of the host is public, one on the loopback
    network is not. *)
Example public_addresses :
  map public_listener [go"0.0.0.0:1080"; go"[::]:8080"; go"192.168.1.2:1080"; go"127.0.0.1:1080"; go"[::1]:8080"; go"127.8.8.8:1"]
  = [true; true; true; false; false; false].
Proof. vm_compute. reflexivity. Qed.

End ProxyCmd.
