(* ===== verification/CommandLine.v ===== *)
(** * [cmd/go-tor-client]: the flags of the subcommands.

    The parser of Go's [flag] package on the flag sets the commands define, and
    the commands from their arguments on.  [time.ParseDuration] is a parameter;
    usage texts and the logger are not modelled beyond its level. *)

From S2P Require Import Prelude ByteUtil GoNet GoText GoTextFacts Directory Socks HttpProxy RequestCmd ProxyCmd.

(** ** [flag.FlagSet] *)

(** How a flag takes its value: [fs.String] and [fs.Var], [fs.Bool],
    [fs.Duration]. *)
Inductive kind := KString | KBool | KDuration.
Inductive flag_error := ErrHelp | BadSyntax (s : bytes) | NotDefined (name : bytes) | NeedsArgument (name : bytes)
| InvalidValue (name value : bytes).

Definition ParseBool (s : bytes) : option bool :=
  if bool_decide (s ∈ [go"1"; go"t"; go"T"; go"TRUE"; go"true"; go"True"]) then Some true
  else if bool_decide (s ∈ [go"0"; go"f"; go"F"; go"FALSE"; go"false"; go"False"]) then Some false
  else None.

(** Where the name ends: an equals sign that is not its first byte. *)
Definition split_value (name : bytes) : bytes * option bytes :=
  match name with
  | [] => ([], None)
  | c :: t => match Cut t [ch "="] with Some (n, v) => (c :: n, Some v) | None => (name, None) end
  end.

(** An argument that is a flag: what follows its one or two hyphens.  [None] is
    the end of the flags, and the boolean tells whether it is the argument [--],
    which is skipped. *)
Definition flag_name (s : bytes) : bool + bytes :=
  match s with
  | h :: h2 :: t =>
      if decide (h = ch "-") then
        if decide (h2 = ch "-") then match t with [] => inl true | _ => inr t end else inr (h2 :: t)
      else inl false
  | _ => inl false
  end.

Section Flags.
Context (ParseDuration : bytes → option Z).

Definition valid (k : kind) (v : bytes) : bool :=
  match k with
  | KString => true
  | KBool => bool_decide (is_Some (ParseBool v))
  | KDuration => bool_decide (is_Some (ParseDuration v))
  end.

Notation flagset := (list (bytes * kind)).
Definition lookup_flag (formal : flagset) (name : bytes) : option kind :=
  snd <$> find (λ f, bool_decide (f.1 = name)) formal.

(** [FlagSet.Parse]: the calls of [Set] in order, and the arguments left. *)
Fixpoint Parse (formal : flagset) (args : list bytes) (sets : list (bytes * bytes))
    : outcome flag_error (list (bytes * bytes) * list bytes) :=
  match args with
  | [] => Ok (sets, [])
  | s :: rest =>
      match flag_name s with
      | inl skip => Ok (sets, if skip then rest else args)
      | inr name =>
          if match name with [] => true | c :: _ => bool_decide (c = ch "-" ∨ c = ch "=") end then Err (BadSyntax s)
          else
            let '(name, value) := split_value name in
            match lookup_flag formal name with
            | None => if bool_decide (name ∈ [go"help"; go"h"]) then Err ErrHelp else Err (NotDefined name)
            | Some KBool =>
                let v := default go"true" value in
                if valid KBool v then Parse formal rest (sets ++ [(name, v)]) else Err (InvalidValue name v)
            | Some k =>
                match value, rest with
                | Some v, _ =>
                    if valid k v then Parse formal rest (sets ++ [(name, v)]) else Err (InvalidValue name v)
                | None, v :: rest =>
                    if valid k v then Parse formal rest (sets ++ [(name, v)]) else Err (InvalidValue name v)
                | None, [] => Err (NeedsArgument name)
                end
            end
      end
  end.

(** The values a flag was given, in order, and the last one. *)
Definition given_values (name : bytes) (sets : list (bytes * bytes)) : list bytes :=
  map snd (List.filter (λ x, bool_decide (x.1 = name)) sets).
Definition last_given (name : bytes) (sets : list (bytes * bytes)) (def : bytes) : bytes :=
  List.last (given_values name sets) def.

(** ** The commands from their arguments on *)

Definition request_flagset : flagset :=
  [(go"X", KString); (go"H", KString); (go"d", KString); (go"o", KString); (go"i", KBool);
   (go"timeout", KDuration); (go"datadir", KString); (go"log-level", KString)].
Definition proxy_flagset : flagset := [(go"listen", KString); (go"datadir", KString); (go"log-level", KString)].

Definition request_flags (sets : list (bytes * bytes)) (args : list bytes) : RequestCmd.flags :=
  RequestCmd.mkFlags (last_given go"X" sets []) (given_values go"H" sets) (last_given go"d" sets [])
    (last_given go"o" sets []) (default false (ParseBool (last_given go"i" sets go"false")))
    (match given_values go"timeout" sets with
     | [] => 60 * RequestCmd.second
     | _ => default 0 (ParseDuration (last_given go"timeout" sets []))
     end)%Z
    (last_given go"datadir" sets []) (map fst sets) args.

Definition on_flags {S E A} (formal : flagset) (args : list bytes) (run : list (bytes * bytes) → list bytes → prog S E A)
    (help : prog S (flag_error + E) A) : prog S (flag_error + E) A :=
  match Parse formal args [] with
  | Ok (sets, rest) => map_error inr (run sets rest)
  | Err ErrHelp => help
  | Err er => throw (inl er)
  | Panic => panic
  end.

Definition run_request (e : RequestCmd.cmd_env) (args : list bytes) : prog (list RequestCmd.call) (flag_error + RequestCmd.cmd_error) unit :=
  on_flags request_flagset args (λ sets rest, RequestCmd.runRequestCmd e (request_flags sets rest)) (mret tt).
Definition run_socks (e : ProxyCmd.cmd_env) (args : list bytes) : prog (list ProxyCmd.call) (flag_error + ProxyCmd.cmd_error) unit :=
  on_flags proxy_flagset args (λ sets _, ProxyCmd.runSocks e (last_given go"listen" sets go"127.0.0.1:1080") (last_given go"datadir" sets [])) (mret tt).
Definition run_http (e : ProxyCmd.cmd_env) (args : list bytes) : prog (list ProxyCmd.call) (flag_error + ProxyCmd.cmd_error) unit :=
  on_flags proxy_flagset args (λ sets _, ProxyCmd.runHTTP e (last_given go"listen" sets go"127.0.0.1:8080") (last_given go"datadir" sets [])) (mret tt).

Inductive level := LevelDebug | LevelInfo | LevelWarn | LevelError.
(** For names in ASCII. *)
Definition buildLogger (name : bytes) : level :=
  let l := ToLower name in
  if decide (l = go"debug") then LevelDebug
  else if decide (l ∈ [go"warn"; go"warning"]) then LevelWarn
  else if decide (l = go"error") then LevelError
  else LevelInfo.

(** ** Arguments and flags *)

(** A flag written as arguments: its value behind an equals sign, or as the
    next argument. *)
Definition as_args (x : bool * (bytes * bytes)) : list bytes :=
  let '(eq, (name, v)) := x in
  if eq then [ch "-" :: name ++ [ch "="] ++ v] else [ch "-" :: name; v].

(** A flag of the set with a value it takes; only flags that are not boolean may
    take the next argument. *)
Definition good_flag (formal : flagset) (x : bool * (bytes * bytes)) : Prop :=
  let '(eq, (name, v)) := x in
  match name with
  | [] => False
  | c :: t => c ≠ ch "-" ∧ c ≠ ch "=" ∧ ch "=" ∉ t ∧
      match lookup_flag formal name with
      | Some k => valid k v = true ∧ (eq = true ∨ k ≠ KBool)
      | None => False
      end
  end.

Lemma split_value_eq c t v : ch "=" ∉ t → split_value (c :: t ++ [ch "="] ++ v) = (c :: t, Some v).
Proof.
  intros H. cbn [split_value]. unfold Cut. rewrite (Index_byte t (ch "=") v H). cbn [mbind option_bind].
  rewrite take_app_length, app_assoc, drop_app_exact; [done|]. by rewrite length_app.
Qed.

Lemma split_value_none c t : ch "=" ∉ t → split_value (c :: t) = (c :: t, None).
Proof.
  intros H. cbn [split_value]. unfold Cut. destruct (Index t [ch "="]) as [i|] eqn:E; [|done].
  exfalso. apply Index_Some in E as (_ & E & _). apply HasPrefix_spec in E as [t' E]. apply H.
  rewrite <-(take_drop i t), E, elem_of_app. right. by left.
Qed.

Lemma flag_name_dash c t : c ≠ ch "-" → flag_name (ch "-" :: c :: t) = inr (c :: t).
Proof. intros H. cbn [flag_name]. rewrite decide_True by done. by rewrite decide_False. Qed.

(** What follows the flags: nothing, an argument that does not look like a flag,
    or [--], which is dropped. *)
Definition operands (tail : list bytes) : option (list bytes) :=
  match tail with
  | [] => Some []
  | s :: rest => match flag_name s with inl skip => Some (if skip then rest else tail) | inr _ => None end
  end.

(** The arguments written for any sequence of flags, in either form and with any
    values the flags take, even ones that look like flags themselves, are
    parsed to exactly those settings in order, and the operands are left. *)
Lemma flags_roundtrip (formal : flagset) (fs : list (bool * (bytes * bytes))) (tail rest : list bytes) :
  Forall (good_flag formal) fs → operands tail = Some rest →
  Parse formal ((fs ≫= as_args) ++ tail) [] = Ok (map snd fs, rest).
Proof.
  intros H Htail. change (map snd fs) with ([] ++ map snd fs). generalize (@nil (bytes * bytes)) as sets.
  induction H as [|[eq [name v]] fs Hx _ IH]; intros sets.
  { rewrite app_nil_r. destruct tail as [|t tail]; cbn [operands app mbind list_bind Parse] in *; [by injection Htail as <-|].
    destruct (flag_name t); [by injection Htail as <-|done]. }
  change (((eq, (name, v)) :: fs) ≫= as_args) with (as_args (eq, (name, v)) ++ (fs ≫= as_args)).
  cbn [good_flag] in Hx. destruct name as [|c t]; [done|]. destruct Hx as (Hd & He & Ht & Hx).
  destruct (lookup_flag formal (c :: t)) as [k|] eqn:Ek; [|done]. destruct Hx as [Hv Hk].
  replace (sets ++ map snd ((eq, (c :: t, v)) :: fs)) with ((sets ++ [(c :: t, v)]) ++ map snd fs) by (by rewrite <-app_assoc).
  destruct eq; cbn [as_args app Parse].
  - rewrite flag_name_dash by done. rewrite bool_decide_false by (by intros [?|?]).
    change (c :: t ++ ch "=" :: v) with (c :: t ++ [ch "="] ++ v). rewrite split_value_eq, Ek by done.
    destruct k; cbn [default]; unfold id; rewrite Hv; apply IH.
  - rewrite flag_name_dash by done. rewrite bool_decide_false by (by intros [?|?]).
    rewrite split_value_none, Ek by done. destruct Hk as [?|Hk]; [done|].
    destruct k; [|done|]; rewrite Hv; apply IH.
Qed.

(** ** The request command *)

Lemma good_letter (eq : bool) n k v : lookup_flag request_flagset [n] = Some k → n ≠ ch "-" → n ≠ ch "=" →
  valid k v = true → eq = true ∨ k ≠ KBool → good_flag request_flagset (eq, ([n], v)).
Proof. intros Hn H1 H2 Hv Hk. unfold good_flag. rewrite Hn. split_and!; [done..|apply not_elem_of_nil|done|done]. Qed.

(** The timeout asked for: the last one given, or a minute, and three for an
    onion host. *)
Definition wanted_timeout (e : RequestCmd.cmd_env) (sets : list (bytes * bytes)) (u : bytes) : Z :=
  match given_values go"timeout" sets with
  | [] => (if RequestCmd.isOnionURL e u then 180 else 60) * RequestCmd.second
  | vs => default 0 (ParseDuration (List.last vs []))
  end%Z.

(** The request [r], sent with the limits [lim], is the one that the flags
    [sets] and the URL [u] ask for: the body is the [-d] value or the file it
    names, the method the last [-X] or the one that fits the body, every header
    has its last [-H] value, and a Host header names the host. *)
Record asked_for (e : RequestCmd.cmd_env) (sets : list (bytes * bytes)) (u : bytes) (l : list RequestCmd.call)
    (r : RequestCmd.http_request) (lim : RequestCmd.limits) : Prop := {
  af_url : RequestCmd.hr_URL r = u;
  af_body : RequestCmd.body_given e l (last_given go"d" sets []) (RequestCmd.hr_Body r);
  af_method : RequestCmd.hr_Method r =
    match last_given go"X" sets [], RequestCmd.hr_Body r with
    | [], Some _ => go"POST"
    | [], None => go"GET"
    | m, _ => m
    end;
  af_headers : ∃ fs host, mapM RequestCmd.header_field (given_values go"H" sets) = Some fs ∧
    RequestCmd.NewRequest e (RequestCmd.hr_Method r) u = Some host ∧
    RequestCmd.hr_Host r = default host (RequestCmd.last_value RequestCmd.is_host fs) ∧
    ∀ k, RequestCmd.hr_Header r !! k =
      (v ← RequestCmd.last_value (λ n, negb (RequestCmd.is_host n) && bool_decide (CanonicalHeaderKey n = k)) fs; Some [v]);
  af_limits : let t := wanted_timeout e sets u in
    lim = RequestCmd.mkLimits (if (0 <? t)%Z then Some t else None) t t
}.

Lemma given_in n sets : n ∈ map fst sets ↔ given_values n sets ≠ [].
Proof.
  unfold given_values. induction sets as [|[k v] sets IH]; cbn [map List.filter fst]; [by rewrite elem_of_nil|].
  rewrite elem_of_cons, IH. case_bool_decide as E; [|naive_solver]. split; [done|by left].
Qed.

Lemma chosen_wanted e sets rest u : RequestCmd.chosen_timeout e (request_flags sets rest) u = wanted_timeout e sets u.
Proof.
  unfold RequestCmd.chosen_timeout, RequestCmd.flagSet, wanted_timeout. cbn [RequestCmd.f_timeout RequestCmd.f_set request_flags].
  destruct (given_values go"timeout" sets) as [|v vs] eqn:Eg.
  - rewrite bool_decide_false by (rewrite given_in, Eg; tauto). by destruct (RequestCmd.isOnionURL e u).
  - rewrite bool_decide_true by (rewrite given_in; by rewrite Eg). cbn [negb andb]. unfold last_given. by rewrite Eg.
Qed.

Lemma sent_asked e sets u rest l b r : RequestCmd.body_given e l (last_given go"d" sets []) b →
  RequestCmd.sent e (RequestCmd.options_of e (request_flags sets rest) u b) r →
  asked_for e sets u l r (RequestCmd.request_limits (RequestCmd.options_of e (request_flags sets rest) u b)).
Proof.
  intros Hb (host & fs & Hn & Hf & Hm & Hu & Hbd & Hh & Hk).
  cbn [RequestCmd.options_of RequestCmd.method RequestCmd.url RequestCmd.headers RequestCmd.body request_flags RequestCmd.f_headers] in *.
  constructor.
  - done.
  - by rewrite Hbd.
  - rewrite Hm, Hbd. unfold RequestCmd.chosen_method. cbn [RequestCmd.f_method request_flags].
    destruct (last_given go"X" sets []); [by rewrite decide_True; [destruct b|]|by rewrite decide_False].
  - exists fs, host. rewrite Hm. by split_and!.
  - unfold RequestCmd.request_limits. cbn [RequestCmd.options_of RequestCmd.timeout]. by rewrite chosen_wanted.
Qed.


End Flags.

(** A request with a header that looks like a flag, a bundled value and a
    method; the URL follows the flags. *)
Definition x_args : list bytes :=
  [go"-H"; go"-X: y"; go"--d=k=v"; go"-X"; go"PUT"; go"-i"; go"-timeout=5s"; go"http://abc.onion/"; go"-o"].
Definition x_duration (s : bytes) : option Z := if decide (s = go"5s") then Some (5 * RequestCmd.second)%Z else None.

Example request_flags_run :
  match Parse x_duration request_flagset x_args [] with
  | Ok (sets, rest) =>
      request_flags x_duration sets rest =
      RequestCmd.mkFlags go"PUT" [go"-X: y"] go"k=v" [] true (5 * RequestCmd.second) []
        [go"H"; go"d"; go"X"; go"i"; go"timeout"] [go"http://abc.onion/"; go"-o"]
  | _ => False
  end.
Proof. vm_compute. reflexivity. Qed.

(** Flags out of order and given twice, headers and a method that look like flags,
    and a body with an equals sign; [--] ends the flags. *)
Definition x_given : list (bool * (bytes * bytes)) :=
  [(false, (go"H", go"-x: 1")); (true, (go"d", go"k=v")); (false, (go"X", go"PUT")); (false, (go"H", go"-X: 2"));
   (true, (go"i", go"true")); (false, (go"X", go"-d"))].

(** Everything works; the host is an onion service. *)
Definition x_up : RequestCmd.cmd_env := {|
  RequestCmd.os_ReadFile := λ _ _, Some [];
  RequestCmd.tor_NewClient := λ _ _, true;
  RequestCmd.os_Create := λ _ _, true;
  RequestCmd.url_Hostname := λ _, Some go"abc.ONION";
  RequestCmd.NewRequest := λ _ _, Some go"abc.onion";
  RequestCmd.client_Do := λ _ _ _, Some RequestCmd.x_resp;
  RequestCmd.out_Write := λ _ _, true
|}.

