(* ===== verification/ClientPool.v ===== *)
(** * [cmd/go-tor-client/client_pool.go]: one Tor client per proxy identity.

    The two sections [clientFor] runs under the pool's lock, the publication of
    a finished bootstrap to its waiters, and [closeAll], interleaved freely by
    the proxies' goroutines.  A client is named by a number that [NewClient]
    has not given out before. *)

From S2P Require Import Prelude ByteUtil GoNet Socks.

Definition maxIsolatedClients : nat := 64.

(** [clientBuild]: [done] tells whether the channel is closed, [client] is nil on
    an error. *)
Record clientBuild := mkBuild { done_ : bool; b_client : option nat }.

(** [clientPool], with the heap of bootstraps, the next client name and the
    clients that were closed. *)
Record clientPool := mkPool {
  clients : gmap bytes nat;
  building : gmap bytes nat;
  builds : gmap nat clientBuild;
  next_build : nat;
  next_client : nat;
  closed_clients : gset nat
}.

(** The base client has number 0. *)
Definition newClientPool : clientPool := mkPool {[[] := 0]} ∅ ∅ 0 1 ∅.

(** What the first section decides. *)
Inductive decision :=
| Cached (c : nat)
| WaitFor (b : nat)
| AtCapacity
| Bootstrap (b : nat).

Definition clientFor_enter (key : bytes) (p : clientPool) : decision * clientPool :=
  match clients p !! key with
  | Some c => (Cached c, p)
  | None =>
      match building p !! key with
      | Some b => (WaitFor b, p)
      | None =>
          if maxIsolatedClients <=? size (clients p) + size (building p) then (AtCapacity, p)
          else
            let b := next_build p in
            (Bootstrap b, mkPool (clients p) (<[key := b]> (building p))
               (<[b := mkBuild false None]> (builds p)) (S b) (next_client p) (closed_clients p))
      end
  end.

(** The second section, with whether [newClient] succeeded, and its client. *)
Definition clientFor_finish (key : bytes) (ok : bool) (p : clientPool) : option nat * clientPool :=
  let c := next_client p in
  if ok then
    (Some c, mkPool (<[key := c]> (clients p)) (delete key (building p)) (builds p) (next_build p)
               (S c) (closed_clients p))
  else
    (None, mkPool (clients p) (delete key (building p)) (builds p) (next_build p) c (closed_clients p)).

(** [b.client, b.err = c, err; close(b.done)]. *)
Definition publish (b : nat) (c : option nat) (p : clientPool) : clientPool :=
  mkPool (clients p) (building p) (<[b := mkBuild true c]> (builds p)) (next_build p)
    (next_client p) (closed_clients p).

(** A waiter that saw [done]: the client, or [None] for the build's error. *)
Definition wait_result (b : nat) (p : clientPool) : option (option nat) :=
  bl ← builds p !! b; if done_ bl then Some (b_client bl) else None.

Definition closeAll (p : clientPool) : clientPool :=
  mkPool (clients p) (building p) (builds p) (next_build p) (next_client p)
    (list_to_set (map snd (map_to_list (clients p))) ∪ closed_clients p).

(** [dialer]. *)
Definition dialer_enter (user pass : bytes) (p : clientPool) : decision * clientPool :=
  clientFor_enter (IsoKey user pass) p.

(** ** Runs *)

(** Where a call of [clientFor] is: selecting on another call's bootstrap, in
    [newClient], past the second section with its result, or returned, with a
    client or with an error. *)
Inductive position :=
| Waiting (b : nat)
| Building (b : nat)
| Publishing (b : nat) (c : option nat)
| Returned (c : option nat).

Definition entered (d : decision) : position :=
  match d with
  | Cached c => Returned (Some c)
  | WaitFor b => Waiting b
  | AtCapacity => Returned None
  | Bootstrap b => Building b
  end.

(** The pool and every call so far, with the key it presented. *)
Record state := mkState { pool : clientPool; calls : list (bytes * position) }.
Definition move (i : nat) (key : bytes) (q : position) (p : clientPool) (s : state) : state :=
  mkState p (<[i := (key, q)]> (calls s)).

Inductive step (s : state) : state → Prop :=
| T_enter key d p : clientFor_enter key (pool s) = (d, p) →
    step s (mkState p (calls s ++ [(key, entered d)]))
| T_finish i key b ok c p : calls s !! i = Some (key, Building b) →
    clientFor_finish key ok (pool s) = (c, p) → step s (move i key (Publishing b c) p s)
| T_publish i key b c : calls s !! i = Some (key, Publishing b c) →
    step s (move i key (Returned c) (publish b c (pool s)) s)
| T_woken i key b c : calls s !! i = Some (key, Waiting b) → wait_result b (pool s) = Some c →
    step s (move i key (Returned c) (pool s) s)
| T_cancelled i key b : calls s !! i = Some (key, Waiting b) →
    step s (move i key (Returned None) (pool s) s)
| T_closeAll : step s (mkState (closeAll (pool s)) (calls s)).

Definition start : state := mkState newClientPool [].

(** ** Invariant *)

(** What is known of a call, where [owner] gives the key every bootstrap was
    started for. *)
Definition call_ok (owner : nat → bytes) (p : clientPool) (x : bytes * position) : Prop :=
  let '(key, q) := x in
  match q with
  | Waiting b => b < next_build p ∧ owner b = key
  | Building b => building p !! key = Some b
  | Publishing b c => b < next_build p ∧ owner b = key ∧ (∀ k, building p !! k ≠ Some b) ∧
      ∀ c', c = Some c' → clients p !! key = Some c'
  | Returned c => ∀ c', c = Some c' → clients p !! key = Some c'
  end.

Record inv (owner : nat → bytes) (s : state) : Prop := {
  inv_disj key : is_Some (clients (pool s) !! key) → building (pool s) !! key = None;
  inv_size : size (clients (pool s)) + size (building (pool s)) ≤ maxIsolatedClients;
  inv_name key c : clients (pool s) !! key = Some c → c < next_client (pool s);
  inv_inj k1 k2 c : clients (pool s) !! k1 = Some c → clients (pool s) !! k2 = Some c → k1 = k2;
  inv_flight key b : building (pool s) !! key = Some b →
    b < next_build (pool s) ∧ owner b = key ∧ builds (pool s) !! b = Some (mkBuild false None);
  inv_build b c : builds (pool s) !! b = Some (mkBuild true (Some c)) →
    b < next_build (pool s) ∧ clients (pool s) !! owner b = Some c;
  inv_calls : Forall (call_ok owner (pool s)) (calls s);
  inv_single i j key b1 b2 : calls s !! i = Some (key, Building b1) → calls s !! j = Some (key, Building b2) → i = j
}.

Lemma start_inv owner : inv owner start.
Proof.
  split; simpl.
  - intros; apply lookup_empty.
  - rewrite map_size_singleton, map_size_empty. unfold maxIsolatedClients. lia.
  - intros key c [_ <-]%lookup_singleton_Some. lia.
  - intros k1 k2 c [<- _]%lookup_singleton_Some [<- _]%lookup_singleton_Some. done.
  - intros key b H. by apply lookup_empty_Some in H.
  - intros b c H. by apply lookup_empty_Some in H.
  - constructor.
  - intros i j key b1 b2 H. by rewrite lookup_nil in H.
Qed.

(** A call moves on and the tables stay as they are. *)
Lemma move_inv owner i key q q' s : inv owner s → calls s !! i = Some (key, q) →
  call_ok owner (pool s) (key, q') → (∀ b, q' ≠ Building b) → inv owner (move i key q' (pool s) s).
Proof.
  intros [I1 I2 I3 I4 I5 I6 I7 I8] Hi Hq Hb. split; cbn [move pool calls]; try done.
  - by apply Forall_insert.
  - intros j k key' b1 b2. rewrite !list_lookup_insert_Some.
    intros [(_ & E & _)|[_ H1]] [(_ & E' & _)|[_ H2]]; [naive_solver..|by eapply I8].
Qed.

(** A call knows no more than what the tables still say. *)
Lemma call_mono owner owner' p p' x : call_ok owner p x → next_build p ≤ next_build p' →
  (∀ b, b < next_build p → owner' b = owner b) →
  (∀ key c, clients p !! key = Some c → clients p' !! key = Some c) →
  (∀ b, x.2 = Building b → building p' !! x.1 = building p !! x.1) →
  (∀ key b, building p' !! key = Some b → building p !! key = Some b ∨ next_build p ≤ b) →
  call_ok owner' p' x.
Proof.
  destruct x as [key q]. intros H Hn Ho Hc Hb Hb'. destruct q; cbn [call_ok fst snd] in *.
  - destruct H as [? <-]. split; [lia|by apply Ho].
  - by rewrite (Hb b).
  - destruct H as (? & <- & Hk & Hcl). split_and!; [lia|by apply Ho| |auto].
    intros k [H'|H']%Hb'; [by eapply Hk|lia].
  - auto.
Qed.

Lemma enter_inv owner key d p s : clientFor_enter key (pool s) = (d, p) → inv owner s →
  ∃ owner', inv owner' (mkState p (calls s ++ [(key, entered d)])).
Proof.
  intros H I. pose proof I as [I1 I2 I3 I4 I5 I6 I7 I8]. revert H. unfold clientFor_enter.
  assert (∀ q, call_ok owner (pool s) (key, q) → (∀ b, q ≠ Building b) → inv owner (mkState (pool s) (calls s ++ [(key, q)]))) as Hsame.
  { intros q Hq Hb. split; cbn [pool calls]; try done; [by apply Forall_app_2; [|constructor]|].
    intros i j k b1 b2. rewrite !lookup_snoc_Some. naive_solver. }
  destruct (clients (pool s) !! key) as [c|] eqn:Ec.
  { intros [= <- <-]. exists owner. apply Hsame; [by intros c' [= <-]|done]. }
  destruct (building (pool s) !! key) as [b|] eqn:Eb.
  { intros [= <- <-]. exists owner. destruct (I5 key b Eb) as (? & ? & _). by apply Hsame. }
  destruct (Nat.leb_spec maxIsolatedClients (size (clients (pool s)) + size (building (pool s)))) as [Hge|Hlt].
  { intros [= <- <-]. exists owner. by apply Hsame. }
  intros [= <- <-]. set (nb := next_build (pool s)).
  exists (λ b, if decide (b = nb) then key else owner b). split; cbn [pool calls clients building builds next_build next_client entered]; try done.
  - intros k Hk. rewrite lookup_insert_ne; [by apply I1|]. intros <-. rewrite Ec in Hk. by destruct Hk.
  - rewrite map_size_insert_None by done. lia.
  - intros k b. rewrite lookup_insert_Some. intros [[<- <-]|[Hne Hb]].
    + split_and!; [unfold nb; lia|by rewrite decide_True|apply lookup_insert_eq].
    + destruct (I5 k b Hb) as (? & ? & ?). rewrite decide_False by (unfold nb; lia).
      split_and!; [lia|done|]. rewrite lookup_insert_ne by (unfold nb; lia). done.
  - intros b c. rewrite lookup_insert_Some. intros [[_ [=]]|[_ Hb]]. destruct (I6 b c Hb) as [? ?].
    rewrite decide_False by (unfold nb; lia). split; [lia|done].
  - apply Forall_app_2; [|constructor; [apply lookup_insert_eq|constructor]].
    eapply list.Forall_impl; [exact I7|]. intros [k q] Hx.
    apply (call_mono owner _ (pool s)); cbn [clients building next_build fst snd]; try done; [fold nb; lia| | |].
    + intros b Hb. rewrite decide_False; [done|]. unfold nb. lia.
    + intros b ->. cbn in Hx. rewrite lookup_insert_ne; [done|congruence].
    + intros k' b. rewrite lookup_insert_Some. intros [[_ <-]|[_ ?]]; [by right|by left].
  - assert (∀ i b, calls s !! i ≠ Some (key, Building b)) as Hno.
    { intros i b Hi. apply (list.Forall_lookup_1 _ _ _ _ I7) in Hi. cbn in Hi. congruence. }
    intros i j k b1 b2. rewrite !lookup_snoc_Some. naive_solver.
Qed.

Lemma finish_inv owner i key b ok c p s : calls s !! i = Some (key, Building b) →
  clientFor_finish key ok (pool s) = (c, p) → inv owner s → inv owner (move i key (Publishing b c) p s).
Proof.
  intros Hi H I. pose proof I as [I1 I2 I3 I4 I5 I6 I7 I8].
  pose proof (list.Forall_lookup_1 _ _ _ _ I7 Hi) as Hb. cbn in Hb. destruct (I5 key b Hb) as (Hlt & Ho & Hbl).
  assert (clients (pool s) !! key = None) as Hnone.
  { destruct (clients (pool s) !! key) eqn:E; [|done]. rewrite I1 in Hb; [done|by rewrite E]. }
  assert (S (size (delete key (building (pool s)))) = size (building (pool s))) as Hsz.
  { rewrite map_size_delete, Hb. assert (size (building (pool s)) ≠ 0); [|lia].
    intros Hz. apply map_size_empty_inv in Hz. rewrite Hz in Hb. by apply lookup_empty_Some in Hb. }
  assert (∀ k b', delete key (building (pool s)) !! k = Some b' → building (pool s) !! k = Some b' ∧ k ≠ key) as Hdel
    by (intros k b'; rewrite lookup_delete_Some; naive_solver).
  assert (∀ k, delete key (building (pool s)) !! k ≠ Some b) as Hgone.
  { intros k [Hk Hne]%Hdel. destruct (I5 k b Hk) as (_ & Ho' & _). congruence. }
  assert (building p = delete key (building (pool s)) ∧ builds p = builds (pool s) ∧ next_build p = next_build (pool s) ∧
    (∀ k, k ≠ key → clients p !! k = clients (pool s) !! k) ∧ clients p !! key = c) as (Eb & Ebs & En & Ec & Ec').
  { unfold clientFor_finish in H. destruct ok; injection H as <- <-; cbn; split_and!; try done.
    - intros k Hk. by rewrite lookup_insert_ne.
    - apply lookup_insert_eq. }
  split; cbn [move pool calls]; rewrite ?Eb, ?Ebs, ?En.
  - intros k Hk. destruct (decide (k = key)) as [->|Hne]; [apply lookup_delete_eq|].
    rewrite lookup_delete_ne by done. apply I1. by rewrite <-Ec.
  - unfold clientFor_finish in H. destruct ok; injection H as <- <-; cbn [clients]; [rewrite map_size_insert_None by done|]; lia.
  - intros k c'. unfold clientFor_finish in H. destruct ok; injection H as <- <-; cbn [clients next_client]; [|apply I3].
    rewrite lookup_insert_Some. intros [[_ <-]|[_ Hk]]; [lia|]. apply I3 in Hk. lia.
  - unfold clientFor_finish in H. destruct ok; injection H as <- <-; cbn [clients]; [|exact I4].
    intros k1 k2 c'. rewrite !lookup_insert_Some. intros [[<- <-]|[? H1]] [[<- E]|[? H2]]; [done| | |by eapply I4].
    + apply I3 in H2. lia.
    + subst. apply I3 in H1. lia.
  - intros k b' [Hk _]%Hdel. by apply I5.
  - intros b' c' Hb'. destruct (I6 b' c' Hb') as [? Hc']. split; [done|]. rewrite Ec; [done|congruence].
  - apply list.Forall_lookup. intros j x. rewrite list_lookup_insert_Some. intros [(<- & <- & _)|[Hne Hj]].
    { cbn. rewrite Eb, En. split_and!; try done. by intros c' ->. }
    apply (call_mono owner _ (pool s)); rewrite ?En, ?Eb; try done; [by apply (list.Forall_lookup_1 _ _ _ _ I7 Hj)| | |].
    + intros k c' Hk. rewrite Ec; [done|congruence].
    + intros b' Hx. destruct x as [k q]. cbn in *. subst q. rewrite lookup_delete_ne; [done|].
      intros <-. by apply Hne, (I8 i j key b b').
    + intros k b' [? _]%Hdel. by left.
  - intros j1 j2 k b1 b2. rewrite !list_lookup_insert_Some.
    intros [(_ & E & _)|[_ H1]] [(_ & E' & _)|[_ H2]]; [naive_solver..|by eapply I8].
Qed.

Lemma publish_inv owner i key b c s : calls s !! i = Some (key, Publishing b c) → inv owner s →
  inv owner (move i key (Returned c) (publish b c (pool s)) s).
Proof.
  intros Hi I. pose proof I as [I1 I2 I3 I4 I5 I6 I7 I8].
  pose proof (list.Forall_lookup_1 _ _ _ _ I7 Hi) as (Hlt & Ho & Hno & Hc).
  split; cbn [move publish pool calls clients building builds next_build next_client]; try done.
  - intros k b' Hk. destruct (I5 k b' Hk) as (? & ? & ?). split_and!; [done..|].
    rewrite lookup_insert_ne; [done|]. intros <-. by apply (Hno k).
  - intros b' c'. rewrite lookup_insert_Some. intros [[<- [= ->]]|[_ Hb]]; [|by apply I6].
    split; [done|]. rewrite Ho. by apply Hc.
  - apply Forall_insert; [|exact Hc]. eapply list.Forall_impl; [exact I7|]. intros x Hx.
    apply (call_mono owner _ (pool s)); try done. cbn. by left.
  - intros j k key' b1 b2. rewrite !list_lookup_insert_Some.
    intros [(_ & E & _)|[_ H1]] [(_ & E' & _)|[_ H2]]; [naive_solver..|by eapply I8].
Qed.

Lemma step_inv owner s s' : step s s' → inv owner s → ∃ owner', inv owner' s'.
Proof.
  intros Hst I. destruct Hst as [key d p He|i key b ok c p Hi Hf|i key b c Hi|i key b c Hi Hw|i key b Hi|].
  - by eapply enter_inv.
  - exists owner. by eapply finish_inv.
  - exists owner. by apply publish_inv.
  - exists owner. eapply move_inv; [done..| |done]. intros c' ->. unfold wait_result in Hw.
    destruct (builds (pool s) !! b) as [[[] c]|] eqn:Eb; [|done..]. injection Hw as ->.
    pose proof (list.Forall_lookup_1 _ _ _ _ (inv_calls _ _ I) Hi) as [_ <-]. by apply (inv_build _ _ I).
  - exists owner. by eapply move_inv.
  - exists owner. by destruct I.
Qed.

Lemma steps_inv s : rtc step start s → ∃ owner, inv owner s.
Proof.
  intros H. assert (∃ owner, inv owner start) as H0 by (exists (λ _, []); apply start_inv).
  revert H0. induction H as [|s1 s2 s3 H12 _ IH]; [done|]. intros [o I]. apply IH. by eapply step_inv.
Qed.

(** C28: in every interleaving of the proxies' connections: the clients together
    with the bootstraps under way never exceed the cap of 64; a call that
    returns a client, whether it found it, bootstrapped it or waited for the
    bootstrap of another call, returns the one the table has for its own key,
    so two calls are given the same Tor client only when they presented the same
    isolation key; and no two calls bootstrap one identity at the same time. *)
Theorem clients_isolated s :
  rtc step start s →
  size (clients (pool s)) + size (building (pool s)) ≤ maxIsolatedClients ∧
  (∀ i key c, calls s !! i = Some (key, Returned (Some c)) → clients (pool s) !! key = Some c) ∧
  (∀ i j k1 k2 c, calls s !! i = Some (k1, Returned (Some c)) → calls s !! j = Some (k2, Returned (Some c)) → k1 = k2) ∧
  (∀ i j key b1 b2, calls s !! i = Some (key, Building b1) → calls s !! j = Some (key, Building b2) → i = j).
Proof.
  intros [owner I]%steps_inv.
  assert (∀ i key c, calls s !! i = Some (key, Returned (Some c)) → clients (pool s) !! key = Some c) as Hr.
  { intros i key c Hi. by apply (list.Forall_lookup_1 _ _ _ _ (inv_calls _ _ I) Hi). }
  split_and!; [apply (inv_size _ _ I)|done| |apply (inv_single _ _ I)].
  intros i j k1 k2 c H1%Hr H2%Hr. by apply (inv_inj _ _ I k1 k2 c).
Qed.

(** A second request for an identity being bootstrapped joins that bootstrap,
    and a request past the cap is refused without changing the pool. *)
Theorem single_bootstrap s key d p' :
  rtc step start s → clientFor_enter key (pool s) = (d, p') →
  match d with
  | Bootstrap b => clients (pool s) !! key = None ∧ building (pool s) !! key = None
                   ∧ clientFor_enter key p' = (WaitFor b, p') ∧ wait_result b p' = None
  | WaitFor b => p' = pool s ∧ wait_result b (pool s) = None
  | _ => p' = pool s
  end.
Proof.
  intros [owner I]%steps_inv. unfold clientFor_enter at 1.
  destruct (clients (pool s) !! key) as [c|] eqn:Ec; [intros E; by injection E as <- <-|].
  destruct (building (pool s) !! key) as [b|] eqn:Eb.
  - intros E; injection E as <- <-. split; [done|]. destruct (inv_flight _ _ I key b Eb) as (_ & _ & Hb).
    unfold wait_result. by rewrite Hb.
  - destruct (_ <=? _); intros E; injection E as <- <-; [done|]. split_and!; try done.
    + unfold clientFor_enter. simpl. by rewrite Ec, lookup_insert_eq.
    + unfold wait_result. simpl. by rewrite lookup_insert_eq.
Qed.

(** ** A run: two identities bootstrap, the first one twice requested *)

Definition k_alice : bytes := IsoKey [x61] [x70].
Definition k_bob : bytes := IsoKey [x62] [x70].
Definition p1 : clientPool := (clientFor_enter k_alice newClientPool).2.
Definition p2 : clientPool := (clientFor_enter k_bob p1).2.
Definition p3 : clientPool := (clientFor_finish k_alice true p2).2.
Definition p4 : clientPool := publish 0 (Some 1) p3.
Definition run_end : state :=
  mkState p4 [(k_alice, Returned (Some 1)); (k_alice, Returned (Some 1)); (k_bob, Building 1)].

Lemma run_reaches : rtc step start run_end.
Proof.
  set (s1 := mkState p1 [(k_alice, Building 0)]).
  set (s2 := mkState p1 [(k_alice, Building 0); (k_alice, Waiting 0)]).
  set (s3 := mkState p2 [(k_alice, Building 0); (k_alice, Waiting 0); (k_bob, Building 1)]).
  set (s4 := mkState p3 [(k_alice, Publishing 0 (Some 1)); (k_alice, Waiting 0); (k_bob, Building 1)]).
  set (s5 := mkState p4 [(k_alice, Returned (Some 1)); (k_alice, Waiting 0); (k_bob, Building 1)]).
  eapply (rtc_l _ _ s1); [exact (T_enter start k_alice (Bootstrap 0) p1 eq_refl)|].
  eapply (rtc_l _ _ s2); [exact (T_enter s1 k_alice (WaitFor 0) p1 eq_refl)|].
  eapply (rtc_l _ _ s3); [exact (T_enter s2 k_bob (Bootstrap 1) p2 eq_refl)|].
  eapply (rtc_l _ _ s4); [exact (T_finish s3 0 k_alice 0 true (Some 1) p3 eq_refl eq_refl)|].
  eapply (rtc_l _ _ s5); [exact (T_publish s4 0 k_alice 0 (Some 1) eq_refl)|].
  apply rtc_once. exact (T_woken s5 1 k_alice 0 (Some 1) eq_refl eq_refl).
Qed.

Lemma clients_isolated_witness :
  size (clients (pool run_end)) + size (building (pool run_end)) = 3 ∧ clients (pool run_end) !! k_alice = Some 1.
Proof.
  destruct (clients_isolated run_end run_reaches) as (_ & Hret & _). split; [reflexivity|]. by apply (Hret 1).
Defined.

Lemma single_bootstrap_witness :
  clientFor_enter k_bob (pool run_end) = (WaitFor 1, pool run_end) ∧ wait_result 1 (pool run_end) = None.
Proof.
  split; [reflexivity|].
  exact (proj2 (single_bootstrap run_end k_bob (WaitFor 1) (pool run_end) run_reaches eq_refl)).
Defined.
